(* ===== verification/_CoqProject ===== *)
-Q . S2P
Prelude.v
CoreTypes.v
StakeAgg.v
DagBlock.v
DagGraph.v
Scenario.v
ThresholdClock.v
Committer.v
Leader.v
CommitFork.v
Linearizer.v
CommitBatching.v
Surge.v
SurgeExamples.v
Cert.v
Fee.v
Rewards.v
Slashing.v
Epoch.v
Db.v
Trie.v
TrieRoot.v
TrieProof.v
TrieExamples.v
Transaction.v
WorldState.v
ChainStore.v
Crypto.v
MempoolPolicy.v
RateLimit.v
Mempool.v
MempoolInv.v
VmState.v
Flux.v
FluxProof.v
FluxEquiv.v
FluxExamples.v
VmGas.v
Scratch.v
SafetyManifest.v
Agent.v
Warden.v
WardenSpec.v
Host.v
Executor.v
ExecutorSpec.v
LexToken.v
Lexer.v
LexerSpec.v
LangAst.v
Parser.v
ParserExpr.v
ParserDecl.v
ParserTotal.v
ParserSpec.v
ParserExprSpec.v
ParserRoundTrip.v
ParserExamples.v
LangTypes.v
Resolver.v
ResolverSpec.v
ResolverProof.v
ResolverExamples.v
NodeExec.v
NodeExecSpec.v
NodeChain.v
NodeDriver.v
NodeSpec.v
NodeBoot.v
NetService.v
NetServiceSpec.v
NodeNet.v
NodeNetSpec.v
NodeSync.v
Wire.v
Witnesses.v
StorageWitnesses.v
VmWitnesses.v
LangWitnesses.v
NodeWitnesses.v
