(* ===== verification/Prelude.v ===== *)
(** * The Lemma blockchain, modelled and verified

    Lemma is a proof-of-stake blockchain in Rust.  This library models its
    consensus, storage, mempool and cryptography crates, the execution layer of
    its virtual machine, the node that drives them and its network service, the
    lexer, parser and name resolution of its contract language, and the parts of
    [crates/lemma-core] they are built on, and proves what they promise.

    ** The program

    Validators exchange signed DAG blocks, each of which lists blocks of earlier
    rounds as its ancestors.  A node's [SurgeDriver] inserts every block into
    its DAG store ([Dag]), which checks it against the validity rules, parks it
    while ancestors are missing and reports equivocations.  Accepted blocks feed
    the round clock ([ThresholdClock]); the commit rule ([try_decide]) then
    looks, per wave of three rounds, whether the leader elected by
    [LeaderSchedule] is committed or skipped; the [Linearizer] flattens the
    sub-DAG of each committed leader, derives the commit timestamp, links the
    commit records into a hash chain and lets the store collect garbage.  Blocks
    that result are acknowledged by the committee; acknowledgements accumulate
    into a quorum certificate.  At the end of an epoch [advance_epoch] mints and
    distributes rewards, settles stake, and freezes the next committee, whose
    hash links the epochs for light clients; misbehaviour is slashed on the way.

    Transactions reach a node's [Mempool], which validates them against the
    world state, charges a rate limiter and files them in three indexes by
    hash, priority and sender.  The world state keeps accounts in a Merkle
    Patricia trie over a key-value store, proves them to light clients, and the
    [ChainStore] persists blocks beside it.  A committed block is executed by
    the [Executor]: each transaction runs on an overlay of the state
    ([ScratchState]), agent transactions pass Warden's policy check first,
    contract code runs on a snapshot of the overlay inside the WebAssembly
    engine, and settlement commits the overlay or discards it.  The parallel
    scheduler (Flux) runs the transactions of a block speculatively on a
    multi-version state and commits them in order after validating their reads.

    The node starts a chain from a genesis file, runs the [SurgeDriver] on the
    proposals of its peers and its own, resolves the batches of a commit to
    transactions, executes them, and persists the block; a second task answers
    and sends range requests and applies the blocks of peers.  The network
    service keeps peer scores, checks and forwards messages, and drives the
    swarm.

    ** The files, and the sources they model (under crates/)

    - [Prelude]: the result monad with its notation, machine integers, list,
      map and set lemmas, the ordered iteration of Rust's B-tree maps
      ([BOrd], [bmap_iter]), big-endian byte strings, hint databases, tactics.
    - [CoreTypes]: lemma-core [amount.rs], [validator.rs], [validator_set.rs],
      [signature.rs], [cert.rs] and the used parts of [address.rs], [hash.rs],
      [error.rs].
    - [StakeAgg]: lemma-consensus [lib.rs], [error.rs], [stake.rs], and the
      quorum interface [QuorumSystem] with its instance for stake quorums.
    - [DagBlock]: [dag/block.rs].
    - [DagGraph]: [dag/validity.rs], [dag/graph.rs], [dag/graph/maintenance.rs].
    - [ThresholdClock]: [dag/threshold_clock.rs].
    - [Committer]: [pulse/committer.rs].
    - [Leader]: [commit.rs], [reputation.rs], [pulse/leader.rs].
    - [Linearizer]: [pulse/linearizer.rs].
    - [Surge]: [dag/surge.rs].
    - [Cert]: [cert.rs], [commit_ack.rs].
    - [Fee]: [fee.rs] and lemma-core [header.rs].
    - [Rewards]: [rewards.rs].
    - [Slashing]: [slashing/mod.rs], [jail.rs], [liveness.rs], [evidence.rs].
    - [Epoch]: [epoch/mod.rs], [transition.rs], [proof.rs], [recovery.rs] and
      lemma-core [epoch.rs].
    - [Db]: lemma-storage [db.rs], [error.rs], lemma-crypto [hashing.rs]; the
      interfaces [Rocks] and [Codec] of the packages below.
    - [Trie], [TrieRoot]: lemma-storage [trie/node.rs], [trie/trie.rs].
    - [TrieProof]: [trie/proof.rs].
    - [Transaction]: lemma-core [transaction.rs], [block.rs], [gas.rs],
      [genesis.rs].
    - [WorldState]: lemma-storage [account.rs], [state.rs].
    - [ChainStore]: lemma-storage [chain.rs].
    - [Crypto]: lemma-crypto [keypair.rs], [signing.rs], [error.rs].
    - [MempoolPolicy]: lemma-mempool [circuit_breaker.rs], [qos.rs],
      [express.rs], [local_fees.rs].
    - [RateLimit]: [rate_limit.rs].
    - [Mempool], [MempoolInv]: [error.rs], [validation.rs], [pool.rs].
    - [VmState]: lemma-vm [state.rs], [parallel/mvstate.rs], [conflict.rs],
      [mvview.rs].
    - [Flux], [FluxProof], [FluxEquiv]: [parallel/scheduler.rs],
      [scheduler/state.rs], [scheduler/worker.rs].
    - [VmGas]: [gas.rs], [error.rs].
    - [Scratch]: [executor/scratch.rs], and the interface [ViewLaws] of a state
      view with its instances.
    - [SafetyManifest]: [safety_manifest.rs].
    - [Agent]: lemma-core [agent.rs].
    - [Warden], [WardenSpec]: lemma-vm [warden.rs], [agent_registry.rs].
    - [Host]: [host.rs] and the calls of [executor/linker.rs].
    - [Executor], [ExecutorSpec]: [executor.rs], [executor/call.rs],
      [deploy.rs], [settle.rs].
    - [LexToken], [Lexer], [LexerSpec]: lemma-lang [lexer/token.rs],
      [lexer/mod.rs], [lexer/scanner/].
    - [LangAst]: [parser/ast.rs], [parser/ast/].
    - [Parser]: [parser/mod.rs], [parser/ty.rs], and the patterns of
      [parser/expr/control.rs]; [ParserExpr]: [parser/expr.rs], [parser/expr/],
      [parser/stmt.rs], [parser/stmt/]; [ParserDecl]: [parser/decl.rs],
      [parser/decl/], [parser/item/].  [ParserTotal], [ParserSpec],
      [ParserExprSpec], [ParserRoundTrip]: their theorems.
    - [LangTypes]: [type_checker/types.rs], [type_checker/error.rs],
      [type_checker/lower.rs]; [Resolver]: [type_checker/resolver.rs], the duplicate
      check of [type_checker/mod.rs], [stdlib/mod.rs]; [ResolverSpec],
      [ResolverProof]: lexical scoping and the theorems against it.
    - [NodeExec], [NodeExecSpec]: lemma-node [error.rs], [state_view.rs],
      [block_exec.rs].
    - [NodeChain], [NodeBoot]: [batch.rs], [sync.rs], [producer.rs],
      [genesis_boot.rs].
    - [NodeDriver], [NodeSpec]: [dag_driver.rs].
    - [NetService], [NetServiceSpec]: lemma-network [messages.rs], [config.rs],
      [error.rs], [peer.rs], [gossip.rs], [discovery.rs], [service.rs].
    - [NodeNet], [NodeNetSpec], [NodeSync]: lemma-node [network_runner.rs].
    - [Wire], [Scenario], [CommitFork], [CommitBatching], [SurgeExamples],
      [TrieExamples], [FluxExamples], [Witnesses], [StorageWitnesses],
      [ParserExamples], [ResolverExamples], [VmWitnesses], [LangWitnesses], [NodeWitnesses]: a wire
      format, concrete committees, DAGs, tries, pools, blocks, programs and runs on
      them; theorems about single executions and applications of the general
      theorems.

    ** How the code is translated

    A method that takes [&mut self] becomes a function that returns the new
    state; where an error leaves the state changed (a failing settlement, a
    failing commit), the function returns the state beside the error.  [Result]
    is [result], [?] is its bind.  Unsigned integers are [N]: [checked_]
    operations return [None] above the maximum of their width, [saturating_]
    operations clamp, and a plain [+] that could exceed its width wraps, as in
    the release profile, which does not enable overflow checks.  Amounts and
    voting power are [u128], rounds, heights and times [u64].  Addresses and hashes are the
    big-endian numbers of their bytes, so that the derived order of the byte
    arrays is the order of [N].  [BTreeMap] and [BTreeSet] are [gmap] and
    [gset], iterated in key order through [bmap_iter] and [bset_iter]; [Vec] is
    [list].  BLAKE3 is a parameter [blake3 : list N -> Hash] of the definitions
    that hash; no law is assumed of it: binding theorems say "or the two
    different pre-images collide".  Signature verification is outside the
    consensus crate also in the code: callers pass its results, and so do they
    here.  RocksDB, bincode, Ed25519, ML-DSA and the WebAssembly engine are type
    classes ([Rocks], [Codec], [Hybrid65], [Engine]) with the documented
    behaviour the theorems use as separate classes of laws; each has a concrete
    instance.  The trait [ContractStateView] is a class whose reads return the
    view, because reads of the multi-version view record what they saw.
    Worker threads are a step relation ([wstep], [step]) that interleaves single
    accesses to the shared state, more finely than the locks of the code allow.
    Tasks of the node are functions on its state; where a task reads, waits for a
    lock and writes, what others do in between is an argument ([between]) or the
    two halves are separate functions ([sync_verify], [sync_apply]).  Channels
    are lists, calls on the swarm are values, clocks are arguments.

    ** Recursion and fuel

    Loops over data are structural.  Two searches are not: [try_unsuspend]
    takes fuel [1 + number of suspended blocks] (every level removes one,
    [try_unsuspend_terminates]) and [linearize_sub_dag] takes fuel [1 + number
    of ancestor references in the store] (every pop after the first was pushed
    when a reference entered the committed set, [linearize_terminates]).  Both
    theorems also show that more fuel changes nothing, so the fuel is not part
    of the behaviour.  The walks of the trie take [1 + number of nibbles] levels
    of fuel ([path_fuel]); they never run out on a trie that insertions built
    ([Trie_insert_refines], [inserts_get], [generate_proof_verifies]).  The lexer
    takes one turn of fuel per character of the source and one more, and never
    runs out ([tokenize_layout]).  The parser's loops and recursive rules take
    fuel from the tokens left, a [>>] counting twice because it may be split
    ([weight]); templates inside templates take fuel from the length of their
    text ([template_depth]).  It never runs out ([parse_total]).

    ** What is proved

    - Quorums: the aggregator refines the weight of a set of authors
      ([aggregator_counts_distinct_authors]); two quorums share a correct member
      when at most a third of the stake is faulty ([QuorumSystem]).
    - The store: one block per slot, valid and causally complete contents,
      bounded buffers, no stranded block, for every reachable store
      ([dag_store_invariant]); insertion, equivocation and garbage collection
      branch by branch.
    - The clock leaves a round exactly through a quorum
      ([clock_leaves_round_by_quorum], [clock_advances_on_quorum]).
    - The commit rule never commits two blocks in one slot and never commits
      what another replica skips directly ([commit_agreement]), is gapless
      ([try_decide_gapless]) and total ([try_decide_never_fails]).  It is not
      safe against skips through an anchor: the rule commits on a single
      certificate ([direct_commit_conflicts_with_anchor_skip]).
    - The linearizer orders exactly the uncommitted causal history, alike on all
      replicas at the same garbage-collection round; the commit chain of an
      epoch is linked, monotone and duplicate-free ([surge_commit_chain]).
      Records depend on how decisions fall into batches
      ([commit_depends_on_batching]) and repeated ancestors move the timestamp
      ([repeated_ancestor_moves_timestamp]).
    - The driver fails only by rejecting a block
      ([on_block_fails_only_by_rejection]); its clock does not see blocks
      accepted by the cascade ([clock_misses_unsuspended_blocks]).
    - Leaders: rotation and swap table ([leader_rotation], [swap_table_sound]).
    - Certificates: verification is exact, accumulation refines the set of valid
      acknowledgements, two certificates share a correct signer; epoch-change
      proofs accept exactly the chains of trust.
    - Economics: fees and rewards conserve what they distribute, the base fee
      moves by at most an eighth for even gas limits (not for odd ones),
      slashing burns what the stake loses, the liveness window counts the last
      blocks, settlement and the next committee validator by validator, forced
      closure is authorised but not atomic
      ([failed_recovery_changes_validators]); double-sign evidence is checked
      as documented but not bound to the accused
      ([evidence_not_bound_to_votes]).

    - Storage: trie insertion refines the update of a map and never meets a
      missing node ([Trie_insert_refines]), lookups return the last value written
      ([inserts_get]), the root does not depend on the history
      ([inserts_root_order_independent]), proofs are complete
      ([generate_proof_verifies]) and sound up to the extension prefixes
      ([verify_sound]), which verification does not check
      ([forged_key_accepted]); the world state refines an account map
      ([world_state_refines]) and the chain store an abstract chain
      ([put_block_refines]).
    - Mempool: admission keeps the three indexes consistent and does what its
      answer says ([admit_refines], [pool_reach_unique]), unless a transaction
      carries a foreign hash ([forged_hash_poisons]); pending transactions come
      by priority ([pending_sorted]); rate limits bound bursts.
    - Flux: every interleaving that finishes gives the sequential output
      ([parallel_equals_sequential]) and every reachable state can finish
      ([parallel_can_finish]), for transactions whose accesses are tracked; the
      shared warm-code set is not ([warm_code_breaks_serialization]), nor is a read
      through a cloned view, which leaves a stale receipt where a read through the
      view itself is caught ([cloned_view_breaks_serialization]).
    - Execution: a receipt within the gas limit always results, an agent succeeds only
      with Warden's approval, and a failure leaves exactly the raised nonce and, when
      Warden refused for another reason than the pause, the violation counted in the
      policy ([execution_settles]); transfers exactly ([transfer_spec]); running on a snapshot and merging is running on
      the overlay ([snapshot_run_refines]), committing shows what the overlay
      shows ([commit_refines]); trapped calls are not charged for their fuel
      ([trapped_call_not_charged]).
    - Agents: Warden decides by policy, pause flag and payee identity
      ([warden_check_refines]); spending stays within the epoch cap and the
      lifetime budget over any history ([agent_spending_capped]); repeated
      violations revoke a policy ([violations_revoke]); safety constraints are
      checked exactly ([safety_check_exact]) but reset by deletion
      ([ratchet_reset_by_deletion]).

    - The lexer: total and lossless, every token at its span
      ([tokenize_layout]); printing and lexing round trip ([print_tokenize]).
    - The parser: it answers on every token stream of the lexer and rejects every
      stream with a comment ([parse_total]); types and expressions are read back
      as they are printed, with the parentheses that precedence needs
      ([parse_type_takes], [expression_round_trip]); the nesting limit does not
      count prefix operators ([prefix_chain_unlimited]); a newline does not end a
      statement before an operator, and [?] at the end of a line may be taken for
      a ternary ([newline_joins_statements], [try_before_name]).
    - Name resolution: against lexical scoping of the whole language, which marks the
      places the pass does not enter, every use of a name elsewhere is mapped to its
      declaration, nothing else is mapped, and an undefined name there is an error
      ([resolve_follows_scopes]); the duplicate check is exact
      ([duplicate_check_exact]).  What the pass does not
      look at, and where a later declaration wins: [unvisited_places],
      [forward_references], [last_declaration_wins], [nested_method_takes_signature].
    - Block execution: applying the writes of a block refines the update of a
      map from state keys to values and keeps tries, storage roots and code in
      agreement ([apply_writes_refines]); a committed block is
      persisted with a root that holds that state, and is the tip unless its index is
      below the old one ([commit_updates_chain_state]); batches resolve to
      the first occurrence of each transaction ([resolve_committed_txs_spec]).
      Storage is not versioned by the root ([old_root_reads_new_storage],
      [rejected_block_leaks_storage]).
    - The chain: the start from genesis ([init_chain_spec]), linked blocks when
      writers take turns ([serial_writers_keep_chain_linked]), catching up from
      a peer ([range_sync_catches_up]); not when they interleave
      ([tip_race_unlinks]), not after a restart ([restarted_driver_overwrites]),
      and without the state ([synced_state_absent]).  Acknowledgements of two
      validators do not combine ([acks_of_peers_rejected],
      [own_block_certified_iff_quorum]).
    - The network: scores, gossip scores and delivered events are what the history of
      the service prescribes ([service_keeps_books]); well-formed
      requests ([range_requests_valid]) that are made once
      ([lost_range_request_not_retried]), a store of batches that gossip keeps
      consistent ([gossip_keeps_store_ok]) and answers do not
      ([fetch_response_replaces_batch]), guards that differ on the two sides
      ([published_batch_undecodable]).

    Theorems about runs assume of the blocks only what they say: [sane_block]
    (ancestors of earlier rounds, which no validity rule checks, and ancestor
    lists too short to overflow the stake sum), [vset_wf] (the recorded total
    is the sum of the members' power, which committee construction
    establishes), [byz_bounded] and [honest_views] (the fault model).

    ** What is not modelled, and the plan

    Serde, logging, text forms of amounts and addresses, accessors; the
    cryptographic primitives, RocksDB and its snapshots, the WebAssembly engine
    with the registration of host functions, access hints (they only order
    execution) and the mempool's threshold encryption; timers, channels and task
    wiring of the node, the third-party network behaviours, RPC, the command line
    and the transpiler.  Of the contract language, type inference, the
    well-formedness rules, the analyzer and the code generator are left out; type
    inference, on the symbols and signatures of [Resolver], is what comes next. *)
From stdpp Require Export base tactics option list gmap sorting numbers relations.
From Stdlib Require Export NArith Lia.

#[export] Set Default Goal Selector "!".

(** ** Automation *)

Create HintDb lemma_db.
Create HintDb lemma_rw.

(** ** Rust's [Result] as a monad *)

Inductive result (E A : Type) : Type :=
  | Ok (a : A)
  | Err (e : E).
Arguments Ok {E A} a.
Arguments Err {E A} e.

#[export] Instance result_ret {E} : MRet (result E) := λ A a, Ok a.
#[export] Instance result_bind {E} : MBind (result E) := λ A B f r,
  match r with Ok a => f a | Err e => Err e end.
#[export] Instance result_fmap {E} : FMap (result E) := λ A B f r,
  match r with Ok a => Ok (f a) | Err e => Err e end.

(** [Option::ok_or]. *)
Definition ok_or {E A} (e : E) (o : option A) : result E A :=
  match o with Some a => Ok a | None => Err e end.

(** [Result::map_err]. *)
Definition map_err {E F A} (f : E → F) (r : result E A) : result F A :=
  match r with Ok a => Ok a | Err e => Err (f e) end.

(** [Result::is_ok]. *)
Definition is_ok {E A} (r : result E A) : bool :=
  match r with Ok _ => true | Err _ => false end.

(** A [for] loop whose body may leave through [?]. *)
Fixpoint try_fold {E A B} (f : A → B → result E A) (a : A) (l : list B) : result E A :=
  match l with
  | [] => Ok a
  | x :: l => a' ← f a x; try_fold f a' l
  end.

#[export] Instance result_eq_dec {E A} `{EqDecision E, EqDecision A} : EqDecision (result E A).
Proof. solve_decision. Defined.

Lemma bind_Ok {E A B} (r : result E A) (f : A → result E B) b :
  r ≫= f = Ok b ↔ ∃ a, r = Ok a ∧ f a = Ok b.
Proof. destruct r; cbn; naive_solver. Qed.

Lemma bind_Err {E A B} (r : result E A) (f : A → result E B) e :
  r ≫= f = Err e ↔ r = Err e ∨ ∃ a, r = Ok a ∧ f a = Err e.
Proof. destruct r; cbn; naive_solver. Qed.

Lemma ok_or_Ok {E A} (e : E) (o : option A) a : ok_or e o = Ok a ↔ o = Some a.
Proof. destruct o; cbn; naive_solver. Qed.

Lemma ok_or_Err {E A} (e e' : E) (o : option A) : ok_or e o = Err e' ↔ o = None ∧ e = e'.
Proof. destruct o; cbn; naive_solver. Qed.

Lemma map_err_Ok {E F A} (f : E → F) (r : result E A) a : map_err f r = Ok a ↔ r = Ok a.
Proof. destruct r; cbn; naive_solver. Qed.

Lemma is_ok_true {E A} (r : result E A) : is_ok r = true ↔ ∃ a, r = Ok a.
Proof. destruct r; cbn; naive_solver. Qed.

Lemma try_fold_app {E A B} (f : A → B → result E A) a l1 l2 :
  try_fold f a (l1 ++ l2) = (a' ← try_fold f a l1; try_fold f a' l2).
Proof. revert a; induction l1 as [|x l1 IH]; intros a; cbn; [done|].
  destruct (f a x); cbn; auto. Qed.

(** Loop invariant rule: an invariant indexed by the part of the list already
    consumed, kept by every successful iteration. *)
Lemma try_fold_inv {E A B} (P : list B → A → Prop) (f : A → B → result E A) a l a' :
  P [] a →
  (∀ done x rest s s', l = done ++ x :: rest → P done s → f s x = Ok s' → P (done ++ [x]) s') →
  try_fold f a l = Ok a' → P l a'.
Proof.
  intros H0 Hstep.
  assert (∀ l1 l2 s, l = l1 ++ l2 → P l1 s → try_fold f s l2 = Ok a' → P l a') as Hgen.
  { intros l1 l2; revert l1; induction l2 as [|x l2 IH]; intros l1 s Hl HP; cbn.
    - intros [= <-]. rewrite app_nil_r in Hl. by subst l.
    - rewrite bind_Ok; intros (s' & Hf & Hr).
      eapply (IH (l1 ++ [x]) s'); [by rewrite <-app_assoc|by eapply Hstep|done]. }
  eapply (Hgen [] l); done.
Qed.

(** Splits hypotheses of the shape [r ≫= f = Ok _] into their steps. *)
Ltac res_inv :=
  repeat match goal with
  | H : _ ≫= _ = Ok _ |- _ => apply bind_Ok in H as (? & ? & ?)
  | H : ok_or _ _ = Ok _ |- _ => apply ok_or_Ok in H
  | H : map_err _ _ = Ok _ |- _ => apply map_err_Ok in H
  | H : Ok _ = Ok _ |- _ => injection H as H
  | H : Ok _ = Err _ |- _ => discriminate H
  | H : Err _ = Ok _ |- _ => discriminate H
  end; subst.

(** Case analysis on the guards ([if]/[match]) of a hypothesis. *)
Ltac case_ifs H :=
  repeat match type of H with
  | context [if ?b then _ else _] => destruct b eqn:?
  | context [match ?o with _ => _ end] => destruct o eqn:?
  end; try discriminate H.

Ltac bool_hyps :=
  repeat match goal with
  | H : (_ <? _)%N = true |- _ => apply N.ltb_lt in H
  | H : (_ <? _)%N = false |- _ => apply N.ltb_ge in H
  | H : (_ <=? _)%N = true |- _ => apply N.leb_le in H
  | H : (_ <=? _)%N = false |- _ => apply N.leb_gt in H
  | H : (_ =? _)%N = true |- _ => apply N.eqb_eq in H
  | H : (_ =? _)%N = false |- _ => apply N.eqb_neq in H
  | H : _ && _ = true |- _ => apply andb_true_iff in H as [? ?]
  | H : _ || _ = false |- _ => apply orb_false_iff in H as [? ?]
  | H : negb _ = true |- _ => apply negb_true_iff in H
  | H : negb _ = false |- _ => apply negb_false_iff in H
  | H : bool_decide _ = true |- _ => apply bool_decide_eq_true_1 in H
  | H : bool_decide _ = false |- _ => apply bool_decide_eq_false_1 in H
  end.

(** ** Machine integers: unsigned, kept in [N] with their width written out *)

Open Scope N_scope.

Definition u16_max : N := 2 ^ 16 - 1.
Definition u64_max : N := 2 ^ 64 - 1.
Definition u128_max : N := 2 ^ 128 - 1.

(** Rust's [checked_add], [checked_sub], [checked_mul], [checked_div] at a width
    given by its largest value. *)
Definition checked_add (max a b : N) : option N := if a + b <=? max then Some (a + b) else None.
Definition checked_sub (a b : N) : option N := if b <=? a then Some (a - b) else None.
Definition checked_mul (max a b : N) : option N := if a * b <=? max then Some (a * b) else None.
Definition checked_div (a b : N) : option N := if b =? 0 then None else Some (a / b).
Definition saturating_add (max a b : N) : N := N.min (a + b) max.
Definition saturating_mul (max a b : N) : N := N.min (a * b) max.
(** [N.sub] is truncated at zero, as [saturating_sub] is. *)
Definition saturating_sub (a b : N) : N := a - b.
(** [a + b] on [u64] in the release profile (wrap-around). *)
Definition wrapping_add64 (a b : N) : N := (a + b) mod 2 ^ 64.

Lemma checked_add_Some max a b c : checked_add max a b = Some c ↔ c = a + b ∧ a + b <= max.
Proof. unfold checked_add; case_match; bool_hyps; naive_solver lia. Qed.
Lemma checked_sub_Some a b c : checked_sub a b = Some c ↔ c = a - b ∧ b <= a.
Proof. unfold checked_sub; case_match; bool_hyps; naive_solver lia. Qed.
Lemma checked_mul_Some max a b c : checked_mul max a b = Some c ↔ c = a * b ∧ a * b <= max.
Proof. unfold checked_mul; case_match; bool_hyps; naive_solver lia. Qed.
Lemma checked_div_Some a b c : checked_div a b = Some c ↔ c = a / b ∧ b ≠ 0.
Proof. unfold checked_div; case_match; bool_hyps; naive_solver. Qed.

Lemma wrapping_add64_small a b : a + b <= u64_max → wrapping_add64 a b = a + b.
Proof. unfold wrapping_add64, u64_max; intros; apply N.mod_small; lia. Qed.

(** [N]'s division and wrap-around are never unfolded by [simpl]. *)
#[global] Arguments N.mul : simpl never.
#[global] Arguments N.add : simpl never.
#[global] Arguments N.sub : simpl never.
#[global] Arguments N.div : simpl never.
#[global] Arguments N.modulo : simpl never.
#[global] Arguments N.pow : simpl never.

(** ** Sums *)

Fixpoint sumN (l : list N) : N :=
  match l with [] => 0 | x :: l => x + sumN l end.

Lemma sumN_app l1 l2 : sumN (l1 ++ l2) = sumN l1 + sumN l2.
Proof. induction l1 as [|x l1 IH]; cbn; [lia|]. rewrite IH; lia. Qed.

#[export] Instance sumN_perm : Proper ((≡ₚ) ==> (=)) sumN.
Proof. intros l1 l2 H; induction H; cbn; lia. Qed.

(** The weight of a finite set of keys. *)
Definition set_sum {K} `{Countable K} (w : K → N) (X : gset K) : N := sumN (w <$> elements X).

Section set_sum.
Context {K : Type} `{Countable K} (w : K → N).
Implicit Types X Y : gset K.

Lemma set_sum_empty : set_sum w ∅ = 0.
Proof. unfold set_sum. by rewrite elements_empty. Qed.

Lemma set_sum_disj_union X Y : X ## Y → set_sum w (X ∪ Y) = set_sum w X + set_sum w Y.
Proof.
  intros Hd. unfold set_sum.
  by rewrite (elements_disj_union X Y Hd), fmap_app, sumN_app.
Qed.

Lemma set_sum_singleton x : set_sum w {[x]} = w x.
Proof. unfold set_sum. rewrite elements_singleton; cbn; lia. Qed.

Lemma set_sum_insert x X : x ∉ X → set_sum w ({[x]} ∪ X) = w x + set_sum w X.
Proof. intros; rewrite set_sum_disj_union, set_sum_singleton by set_solver; done. Qed.

Lemma set_sum_split X Y : set_sum w X = set_sum w (X ∩ Y) + set_sum w (X ∖ Y).
Proof.
  rewrite <-set_sum_disj_union by set_solver. f_equal.
  apply set_eq; intros x; destruct (decide (x ∈ Y)); set_solver.
Qed.

Lemma set_sum_mono X Y : X ⊆ Y → set_sum w X <= set_sum w Y.
Proof.
  intros Hs. rewrite (set_sum_split Y X).
  replace (Y ∩ X) with X by set_solver. lia.
Qed.

(** Inclusion–exclusion inside an enclosing set. *)
Lemma set_sum_intersection X Y Z :
  X ⊆ Z → Y ⊆ Z → set_sum w X + set_sum w Y <= set_sum w Z + set_sum w (X ∩ Y).
Proof.
  intros HX HY. rewrite (set_sum_split X Y).
  assert (set_sum w (X ∖ Y) + set_sum w Y <= set_sum w Z).
  { rewrite <-set_sum_disj_union by set_solver. apply set_sum_mono; set_solver. }
  lia.
Qed.

Lemma set_sum_ext (v : K → N) X : (∀ x, x ∈ X → w x = v x) → set_sum w X = set_sum v X.
Proof.
  intros Hext. unfold set_sum. f_equal. apply list_fmap_ext.
  intros i x Hi. apply Hext, elem_of_elements, list_elem_of_lookup; eauto.
Qed.

Lemma set_sum_pos_elem X : 0 < set_sum w X → ∃ x, x ∈ X.
Proof.
  intros Hp. destruct (decide (X = ∅)) as [->|Hne].
  - rewrite set_sum_empty in Hp; lia.
  - by apply set_choose_L.
Qed.
End set_sum.

(** ** Stable sorting ([slice::sort_by], [sort_by_key]) *)

Section sort_by.
Context {A : Type} (R : relation A) `{!RelDecision R}.

Fixpoint insert_by (x : A) (l : list A) : list A :=
  match l with
  | [] => [x]
  | y :: l' => if decide (R x y) then x :: y :: l' else y :: insert_by x l'
  end.

Definition sort_by (l : list A) : list A := foldr insert_by [] l.

Lemma insert_by_perm x l : insert_by x l ≡ₚ x :: l.
Proof.
  induction l as [|y l IH]; cbn; [done|]. case_decide; [done|].
  rewrite IH. constructor.
Qed.

Lemma sort_by_perm l : sort_by l ≡ₚ l.
Proof. induction l as [|x l IH]; cbn; [done|]. by rewrite insert_by_perm, IH. Qed.

Lemma elem_of_sort_by x l : x ∈ sort_by l ↔ x ∈ l.
Proof. by rewrite sort_by_perm. Qed.

Lemma insert_by_sorted `{!Total R, !Transitive R} x l :
  StronglySorted R l → StronglySorted R (insert_by x l).
Proof.
  induction 1 as [|y l Hl IH Hy]; cbn; [by repeat constructor|].
  case_decide as Hxy.
  - constructor; [by constructor|]. constructor; [done|].
    eapply Forall_impl; [exact Hy|]. intros z Hz; by etrans.
  - constructor; [done|]. rewrite (insert_by_perm x l). constructor; [|done].
    by destruct (total R x y).
Qed.

Lemma sort_by_sorted `{!Total R, !Transitive R} l : StronglySorted R (sort_by l).
Proof. induction l as [|x l IH]; cbn; [constructor|by apply insert_by_sorted]. Qed.
End sort_by.

(** ** Ordered collections ([BTreeMap], [BTreeSet])

    The contents are a [gmap]/[gset]; iteration follows the key order. *)

Class BOrd (K : Type) := {
  ble : relation K;
  ble_dec :: RelDecision ble;
  ble_total :: Total ble;
  ble_trans :: Transitive ble;
  ble_antisym :: AntiSymm (=) ble;
}.

#[export] Instance N_total : Total N.le.
Proof. intros x y; lia. Qed.
#[export] Instance N_trans : Transitive N.le.
Proof. intros x y z; lia. Qed.
#[export] Instance N_antisym : AntiSymm (=) N.le.
Proof. intros x y; lia. Qed.

#[export] Program Instance N_bord : BOrd N := {| ble := N.le |}.

Section btree.
Context {K : Type} `{Countable K} `{!BOrd K}.

Definition bset_iter (X : gset K) : list K := sort_by ble (elements X).

Definition bmap_keys {V} (m : gmap K V) : list K := bset_iter (dom m).

Definition bmap_iter {V} (m : gmap K V) : list (K * V) :=
  omap (λ k, v ← m !! k; Some (k, v)) (bmap_keys m).

Lemma elem_of_bset_iter X k : k ∈ bset_iter X ↔ k ∈ X.
Proof. unfold bset_iter. by rewrite elem_of_sort_by, elem_of_elements. Qed.

Lemma bset_iter_NoDup X : NoDup (bset_iter X).
Proof. unfold bset_iter. rewrite sort_by_perm. apply NoDup_elements. Qed.

Lemma bset_iter_sorted X : StronglySorted ble (bset_iter X).
Proof. apply sort_by_sorted; apply _. Qed.

Lemma bset_iter_perm X : bset_iter X ≡ₚ elements X.
Proof. apply sort_by_perm. Qed.

Lemma elem_of_bmap_keys {V} (m : gmap K V) k : k ∈ bmap_keys m ↔ is_Some (m !! k).
Proof. unfold bmap_keys. by rewrite elem_of_bset_iter, elem_of_dom. Qed.

Lemma bmap_keys_NoDup {V} (m : gmap K V) : NoDup (bmap_keys m).
Proof. apply bset_iter_NoDup. Qed.

Lemma elem_of_bmap_iter {V} (m : gmap K V) k v : (k, v) ∈ bmap_iter m ↔ m !! k = Some v.
Proof.
  unfold bmap_iter. rewrite list_elem_of_omap. split.
  - intros (k' & _ & Hk). destruct (m !! k') eqn:E; naive_solver.
  - intros Hk. exists k. rewrite elem_of_bmap_keys, Hk; eauto.
Qed.

Lemma bmap_iter_keys {V} (m : gmap K V) : (bmap_iter m).*1 = bmap_keys m.
Proof.
  unfold bmap_iter.
  assert (∀ l, (∀ k, k ∈ l → is_Some (m !! k)) →
    (omap (λ k, v ← m !! k; Some (k, v)) l).*1 = l) as Hl.
  { intros l; induction l as [|k l IH]; intros Hk; [done|].
    destruct (Hk k) as [v Hv]; [left|]. cbn. rewrite Hv; cbn.
    f_equal. apply IH. intros; apply Hk; by right. }
  apply Hl. intros k. by rewrite elem_of_bmap_keys.
Qed.
End btree.

(** [BTreeMap::entry(k).or_default().insert(x)] for a map of sets. *)
Definition multi_insert {K X} `{Countable K, Countable X}
    (k : K) (x : X) (m : gmap K (gset X)) : gmap K (gset X) :=
  <[k := {[x]} ∪ default ∅ (m !! k)]> m.

(** [if let Some(s) = m.get_mut(k) { s.remove(x) }]. *)
Definition multi_remove {K X} `{Countable K, Countable X}
    (k : K) (x : X) (m : gmap K (gset X)) : gmap K (gset X) :=
  alter (λ s, s ∖ {[x]}) k m.

Section multi.
Context {K X : Type} `{Countable K, Countable X}.
Implicit Types m : gmap K (gset X).

Lemma elem_of_multi_insert k x m a y :
  y ∈ default ∅ (multi_insert k x m !! a) ↔ (k = a ∧ x = y) ∨ y ∈ default ∅ (m !! a).
Proof.
  unfold multi_insert. rewrite lookup_insert. case_decide; subst; cbn; set_solver.
Qed.

Lemma elem_of_multi_remove k x m a y :
  y ≠ x → y ∈ default ∅ (multi_remove k x m !! a) ↔ y ∈ default ∅ (m !! a).
Proof.
  intros Hy. unfold multi_remove. rewrite lookup_alter. case_decide; subst; [|done].
  destruct (m !! a); cbn; set_solver.
Qed.

Lemma elem_of_multi_insert_all l x m a y :
  y ∈ default ∅ (foldl (λ w k, multi_insert k x w) m l !! a)
  ↔ (a ∈ l ∧ x = y) ∨ y ∈ default ∅ (m !! a).
Proof.
  revert m; induction l as [|k l IH]; intros m; cbn [foldl].
  - set_solver.
  - rewrite IH, elem_of_multi_insert. set_solver.
Qed.

Lemma elem_of_multi_remove_all l x m a y :
  y ≠ x → y ∈ default ∅ (foldl (λ w k, multi_remove k x w) m l !! a) ↔ y ∈ default ∅ (m !! a).
Proof.
  intros Hy. revert m; induction l as [|k l IH]; intros m; cbn [foldl]; [done|].
  by rewrite IH, elem_of_multi_remove.
Qed.
End multi.

(** ** Big- and little-endian byte strings *)

Fixpoint le_bytes (n : nat) (x : N) : list N :=
  match n with
  | O => []
  | S n => x mod 256 :: le_bytes n (x / 256)
  end.

Definition be_bytes (n : nat) (x : N) : list N := reverse (le_bytes n x).

Lemma length_le_bytes n x : length (le_bytes n x) = n.
Proof. revert x; induction n; intros; cbn; auto. Qed.

Lemma length_be_bytes n x : length (be_bytes n x) = n.
Proof. unfold be_bytes. by rewrite length_reverse, length_le_bytes. Qed.

Lemma le_bytes_inj n x y :
  x < 256 ^ N.of_nat n → y < 256 ^ N.of_nat n → le_bytes n x = le_bytes n y → x = y.
Proof.
  revert x y; induction n as [|n IH]; intros x y; cbn [le_bytes].
  - change (256 ^ N.of_nat 0) with 1. lia.
  - rewrite Nat2N.inj_succ, N.pow_succ_r'. intros Hx Hy [= Hm Hd].
    rewrite (N.div_mod' x 256), (N.div_mod' y 256), Hm.
    f_equal. f_equal. apply IH; [..|done]; apply N.Div0.div_lt_upper_bound; lia.
Qed.

Lemma be_bytes_inj n x y :
  x < 256 ^ N.of_nat n → y < 256 ^ N.of_nat n → be_bytes n x = be_bytes n y → x = y.
Proof. unfold be_bytes. intros Hx Hy Hr%(inj reverse). by eapply le_bytes_inj. Qed.

#[global] Arguments be_bytes : simpl never.
#[global] Arguments le_bytes : simpl never.
