(* ===== verification/CoreTypes.v ===== *)
(** * Core data types ([crates/lemma-core/src])

    Amounts with checked [u128] arithmetic ([amount.rs]), validators and their
    stake ([validator.rs]), the immutable per-epoch validator set
    ([validator_set.rs]), signatures and quorum certificates ([signature.rs],
    [cert.rs]).

    An [Address] ([[u8; 20]]) and a [Hash] ([[u8; 32]]) are the big-endian
    numbers of their bytes: the derived byte-wise [Ord] is the order of the
    numbers, and [as_bytes] is the fixed-width encoding. *)
From S2P Require Import Prelude.

Notation Address := N (only parsing).
Notation Hash := N (only parsing).
Notation Amount := N (only parsing).
Notation VotingPower := N (only parsing).

Definition Address_as_bytes (a : Address) : list N := be_bytes 20 a.
Definition Address_zero : Address := 0.
(** The first 20 of the digest's 32 bytes. *)
Definition Address_from_public_key (blake3 : list N → Hash) (pubkey : list N) : Address :=
  blake3 pubkey / 2 ^ 96.
Definition Hash_as_bytes (h : Hash) : list N := be_bytes 32 h.
Definition Hash_zero : Hash := 0.

(** ** [amount.rs] *)

Definition DROPS_PER_LEM : N := 1000000000000000000.
Definition DRIPS_PER_LEM : N := 1000000000.
Definition DROPS_PER_DRIP : N := DROPS_PER_LEM / DRIPS_PER_LEM.

Inductive AmountError :=
  | Overflow (lhs rhs : N)
  | Underflow (lhs rhs : N)
  | DivisionByZero (lhs : N).

Definition Amount_from_lem (lem : N) : result AmountError Amount :=
  ok_or (Overflow lem DROPS_PER_LEM) (checked_mul u128_max lem DROPS_PER_LEM).

Definition Amount_from_drip (drips : N) : result AmountError Amount :=
  ok_or (Overflow drips DROPS_PER_DRIP) (checked_mul u128_max drips DROPS_PER_DRIP).

Definition Amount_checked_add (self rhs : Amount) : result AmountError Amount :=
  ok_or (Overflow self rhs) (checked_add u128_max self rhs).

Definition Amount_checked_sub (self rhs : Amount) : result AmountError Amount :=
  ok_or (Underflow self rhs) (checked_sub self rhs).

Definition Amount_checked_mul (self : Amount) (rhs : N) : result AmountError Amount :=
  ok_or (Overflow self rhs) (checked_mul u128_max self rhs).

Definition Amount_checked_div (self : Amount) (rhs : N) : result AmountError Amount :=
  ok_or (DivisionByZero self) (checked_div self rhs).

(** ** [signature.rs] *)

Inductive Signature :=
  | Classical (bytes : list N)
  | PostQuantum (bytes : list N)
  | Hybrid (classical quantum : list N)
  | Unsigned.

#[export] Instance Signature_eq_dec : EqDecision Signature.
Proof. solve_decision. Defined.

(** ** [validator.rs] *)

Record ConsensusKey := {
  classical : list N;
  quantum : list N;
}.

Inductive ValidatorStatus := Unbonded | Bonded | Unbonding.

#[export] Instance ValidatorStatus_eq_dec : EqDecision ValidatorStatus.
Proof. solve_decision. Defined.

Record UnbondingEntry := {
  initial_balance : Amount;
  start_height : N;
  complete_time : N;
  on_hold : bool;
}.

Record Stake := {
  active : Amount;
  pending_active : Amount;
  pending_inactive : list UnbondingEntry;
  inactive : Amount;
}.

Definition Stake_zero : Stake :=
  {| active := 0; pending_active := 0; pending_inactive := []; inactive := 0 |}.

Definition Stake_total_bonded (self : Stake) : result AmountError Amount :=
  pending_inactive_sum ← try_fold (λ acc e, Amount_checked_add acc (initial_balance e))
    0 (pending_inactive self);
  s ← Amount_checked_add (active self) (pending_active self);
  Amount_checked_add s pending_inactive_sum.

Record Validator := {
  address : Address;
  consensus_pubkey : ConsensusKey;
  status : ValidatorStatus;
  tombstoned : bool;
  self_stake : Stake;
  delegated : Amount;
  commission_bps : N;
  jailed_until : option N;
}.

Definition Validator_voting_power (self : Validator) : result AmountError VotingPower :=
  Amount_checked_add (active (self_stake self)) (delegated self).

Definition Validator_is_active (self : Validator) : bool :=
  bool_decide (status self = Bonded) && negb (tombstoned self)
  && bool_decide (jailed_until self = None).

(** Writes to single fields of a validator. *)
Definition set_self_stake (s : Stake) (v : Validator) : Validator :=
  {| address := address v; consensus_pubkey := consensus_pubkey v; status := status v;
     tombstoned := tombstoned v; self_stake := s; delegated := delegated v;
     commission_bps := commission_bps v; jailed_until := jailed_until v |}.
Definition set_status (st : ValidatorStatus) (v : Validator) : Validator :=
  {| address := address v; consensus_pubkey := consensus_pubkey v; status := st;
     tombstoned := tombstoned v; self_stake := self_stake v; delegated := delegated v;
     commission_bps := commission_bps v; jailed_until := jailed_until v |}.
Definition set_tombstoned (t : bool) (v : Validator) : Validator :=
  {| address := address v; consensus_pubkey := consensus_pubkey v; status := status v;
     tombstoned := t; self_stake := self_stake v; delegated := delegated v;
     commission_bps := commission_bps v; jailed_until := jailed_until v |}.
Definition set_jailed_until (j : option N) (v : Validator) : Validator :=
  {| address := address v; consensus_pubkey := consensus_pubkey v; status := status v;
     tombstoned := tombstoned v; self_stake := self_stake v; delegated := delegated v;
     commission_bps := commission_bps v; jailed_until := j |}.

(** ** [validator_set.rs] *)

Record Member := {
  member_consensus_pubkey : ConsensusKey;
  power : VotingPower;
}.

Record ValidatorSet := {
  vs_epoch : N;
  members : gmap Address Member;
  total_power : Amount;
}.

Inductive ValidatorError :=
  | EmptyGenesisValidators
  | ZeroGenesisStake (addr : Address)
  | PowerOverflow (addr : Address) (source : AmountError)
  | EmptyValidatorSet (epoch : N).

(** One iteration of the loop of [from_active_validators]; the state is
    [(members, total_power)]. *)
Definition from_active_step (acc : gmap Address Member * Amount) (kv : Address * Validator)
    : result ValidatorError (gmap Address Member * Amount) :=
  let '(ms, total) := acc in
  let '(addr, v) := kv in
  if negb (Validator_is_active v) then Ok acc else
  pw ← map_err (PowerOverflow addr) (Validator_voting_power v);
  total' ← map_err (PowerOverflow addr) (Amount_checked_add total pw);
  Ok (<[addr := {| member_consensus_pubkey := consensus_pubkey v; power := pw |}]> ms, total').

Definition from_active_validators (epoch : N) (validators : gmap Address Validator)
    : result ValidatorError ValidatorSet :=
  '(ms, total) ← try_fold from_active_step (∅, 0) (bmap_iter validators);
  if bool_decide (ms = ∅) then Err (EmptyValidatorSet epoch)
  else Ok {| vs_epoch := epoch; members := ms; total_power := total |}.

(** The pre-image [ValidatorSet::hash] feeds to the hasher. *)
Definition ValidatorSet_preimage (self : ValidatorSet) : list N :=
  mjoin ((λ '(addr, m),
    Address_as_bytes addr ++ classical (member_consensus_pubkey m)
    ++ quantum (member_consensus_pubkey m) ++ be_bytes 16 (power m)) <$> bmap_iter (members self)).

Definition ValidatorSet_hash (blake3 : list N → Hash) (self : ValidatorSet) : Hash :=
  blake3 (ValidatorSet_preimage self).

(** ** [cert.rs] *)

Record QuorumCert := {
  qc_height : N;
  qc_header_digest : Hash;
  signers : gmap Address Signature;
}.

(** ** Voting power as a weight on addresses *)

(** [0] for a non-member, as every consumer of the set treats it. *)
Definition member_power (ms : gmap Address Member) (a : Address) : N :=
  match ms !! a with Some m => power m | None => 0 end.

Definition power_of (vset : ValidatorSet) : Address → N := member_power (members vset).

(** The stake of a set of authors. *)
Definition stake_of (vset : ValidatorSet) (X : gset Address) : N := set_sum (power_of vset) X.

(** The committee's recorded total is the sum of its members' power and fits [u128]. *)
Definition vset_wf (vset : ValidatorSet) : Prop :=
  total_power vset = stake_of vset (dom (members vset)) ∧ total_power vset <= u128_max.

Lemma stake_of_le_total vset X :
  vset_wf vset → X ⊆ dom (members vset) → stake_of vset X <= total_power vset.
Proof. intros [-> _] HX. by apply set_sum_mono. Qed.
#[export] Hint Resolve stake_of_le_total : lemma_db.

Lemma power_of_member vset a m : members vset !! a = Some m → power_of vset a = power m.
Proof. unfold power_of, member_power. by intros ->. Qed.

Lemma member_power_insert ms a m b :
  member_power (<[a := m]> ms) b = if decide (a = b) then power m else member_power ms b.
Proof. unfold member_power. rewrite lookup_insert. by case_decide. Qed.

(** ** Building the set of an epoch *)

(** The committee entry of an active validator. *)
Definition member_of (v : Validator) : Member :=
  {| member_consensus_pubkey := consensus_pubkey v;
     power := active (self_stake v) + delegated v |}.

(** The committee that the active validators of a list form. *)
Definition committee_of (l : list (Address * Validator)) (acc : gmap Address Member * Amount) : Prop :=
  (∀ a m, acc.1 !! a = Some m ↔ ∃ v, (a, v) ∈ l ∧ Validator_is_active v ∧ m = member_of v)
  ∧ acc.2 = set_sum (member_power acc.1) (dom acc.1) ∧ acc.2 <= u128_max.

Lemma set_sum_member_insert ms a m :
  ms !! a = None →
  set_sum (member_power (<[a := m]> ms)) (dom (<[a := m]> ms))
  = power m + set_sum (member_power ms) (dom ms).
Proof.
  intros Ha. rewrite dom_insert_L, set_sum_insert by (by apply not_elem_of_dom).
  rewrite member_power_insert, decide_True by done. f_equal.
  apply set_sum_ext. intros b Hb. rewrite member_power_insert, decide_False; [done|].
  intros ->. by apply not_elem_of_dom in Ha.
Qed.

Lemma from_active_step_committee l acc a v acc' :
  a ∉ l.*1 → committee_of l acc → from_active_step acc (a, v) = Ok acc' →
  committee_of (l ++ [(a, v)]) acc'.
Proof.
  intros Ha (Hm & Ht & Hb) Hs. destruct acc as [ms total]; cbn in *.
  assert (ms !! a = None) as Hnone.
  { destruct (ms !! a) as [m|] eqn:E; [|done]. apply Hm in E as (v' & Hv & _).
    destruct Ha. apply list_elem_of_fmap. by exists (a, v'). }
  destruct (Validator_is_active v) eqn:Hact; cbn in Hs.
  - unfold Validator_voting_power, Amount_checked_add in Hs. res_inv.
    repeat match goal with H : checked_add _ _ _ = Some _ |- _ =>
      apply checked_add_Some in H as [-> ?] end.
    split_and!; cbn; [|rewrite set_sum_member_insert by done; cbn; lia|lia].
    intros b m. rewrite lookup_insert_Some, Hm. setoid_rewrite elem_of_app.
    setoid_rewrite list_elem_of_singleton. split.
    + intros [[<- <-]|(Hne & v' & ? & ? & ?)]; eexists; split_and!; eauto.
    + intros (v' & [Hin|[= -> ->]] & Hv' & ->).
      * right. split; [|eauto]. intros <-. destruct Ha. apply list_elem_of_fmap.
        by exists (a, v').
      * left. done.
  - res_inv. split_and!; cbn; [|done|done].
    intros b m. rewrite Hm. setoid_rewrite elem_of_app. setoid_rewrite list_elem_of_singleton.
    split; [naive_solver|]. intros (v' & [Hin|[= -> ->]] & Hv' & ->); [eauto|].
    by rewrite Hact in Hv'.
Qed.

Lemma from_active_fold_committee (validators : gmap Address Validator) acc :
  try_fold from_active_step (∅, 0) (bmap_iter validators) = Ok acc →
  committee_of (bmap_iter validators) acc.
Proof.
  apply (try_fold_inv committee_of).
  - split_and!; cbn; [|by rewrite dom_empty_L, set_sum_empty|by vm_compute].
    intros a m. rewrite lookup_empty. set_solver.
  - intros done [a v] rest s s' Hl HP Hs. eapply from_active_step_committee; [|done|done].
    pose proof (bmap_keys_NoDup validators) as Hnd.
    rewrite <-bmap_iter_keys, Hl, fmap_app in Hnd. cbn in Hnd.
    apply NoDup_app in Hnd as (_ & Hd & _). intros Hin. by apply (Hd a Hin); left.
Qed.

(** Voting power a validator, and a list of validators, contributes to the
    committee. *)
Definition active_contrib (v : Validator) : N :=
  if Validator_is_active v then active (self_stake v) + delegated v else 0.
#[global] Arguments active_contrib : simpl never.

Definition active_power (l : list (Address * Validator)) : N :=
  sumN ((λ kv, active_contrib kv.2) <$> l).

Lemma from_active_step_total ms total a v :
  total + active_contrib v <= u128_max →
  ∃ ms', from_active_step (ms, total) (a, v) = Ok (ms', total + active_contrib v).
Proof.
  unfold active_contrib, from_active_step. destruct (Validator_is_active v); cbn; intros Hb.
  - unfold Validator_voting_power, Amount_checked_add, checked_add.
    rewrite (proj2 (N.leb_le _ _)) by lia; cbn.
    rewrite (proj2 (N.leb_le _ _)) by lia; cbn. eauto.
  - rewrite N.add_0_r. eauto.
Qed.

Lemma from_active_fold_total l ms total :
  total + active_power l <= u128_max →
  ∃ acc, try_fold from_active_step (ms, total) l = Ok acc.
Proof.
  unfold active_power. revert ms total; induction l as [|[a v] l IH]; intros ms total;
    cbn -[from_active_step]; [eauto|]. intros Hb.
  destruct (from_active_step_total ms total a v) as [ms' ->]; [lia|]. apply IH. lia.
Qed.

Lemma from_active_validators_ok epoch validators vset :
  from_active_validators epoch validators = Ok vset →
  vs_epoch vset = epoch ∧ members vset ≠ ∅ ∧ vset_wf vset ∧
  ∀ a m, members vset !! a = Some m ↔
    ∃ v, validators !! a = Some v ∧ Validator_is_active v ∧ m = member_of v.
Proof.
  unfold from_active_validators. intros Hf.
  apply bind_Ok in Hf as ([ms total] & (Hm & Ht & Hb)%from_active_fold_committee & Hf).
  case_bool_decide; res_inv. cbn in *. split_and!; [done..|].
  intros a m. rewrite Hm. by setoid_rewrite elem_of_bmap_iter.
Qed.

(** [ValidatorSet::from_active_validators]: whenever it returns a set, that
    set holds exactly the active (bonded, not tombstoned, not jailed)
    validators with their own plus delegated stake, is not empty, and its
    [total_power] is the exact [u128] sum of its members' power. *)
Theorem from_active_validators_spec epoch validators vset :
  from_active_validators epoch validators = Ok vset →
  vs_epoch vset = epoch ∧ members vset ≠ ∅ ∧ vset_wf vset ∧
  ∀ a m, members vset !! a = Some m ↔
    ∃ v, validators !! a = Some v ∧ Validator_is_active v ∧ m = member_of v.
Proof. apply from_active_validators_ok. Qed.

(** [ValidatorSet::from_active_validators] fails only for its two declared
    reasons: when the active power fits [u128] it returns a set if some
    validator is active, and [EmptyValidatorSet] otherwise. *)
Theorem from_active_validators_total epoch validators :
  active_power (bmap_iter validators) <= u128_max →
  if decide (Exists (λ kv, Validator_is_active kv.2) (bmap_iter validators))
  then ∃ vset, from_active_validators epoch validators = Ok vset
  else from_active_validators epoch validators = Err (EmptyValidatorSet epoch).
Proof.
  intros Hb. unfold from_active_validators.
  destruct (from_active_fold_total (bmap_iter validators) ∅ 0 ltac:(lia)) as [[ms total] Hf].
  rewrite Hf; cbn. apply from_active_fold_committee in Hf as (Hm & _); cbn in Hm.
  case_decide as Hex; case_bool_decide as Hemp; subst; [|by eauto|done|].
  - apply Exists_exists in Hex as ([a v] & Hin & Hv). specialize (Hm a (member_of v)).
    rewrite lookup_empty in Hm. naive_solver.
  - apply map_choose in Hemp as (a & m & (v & ? & ? & _)%Hm).
    destruct Hex. apply Exists_exists. by exists (a, v).
Qed.
