(* ===== verification/StakeAgg.v ===== *)
(** * Stake-weighted thresholds ([crates/lemma-consensus/src/stake.rs], [error.rs], [lib.rs])

    The protocol constants, the crate's error type and [StakeAggregator], the
    single entry point of every [2f+1] / [f+1] check.  The aggregator is shown
    to compute a function of the *set* of authors it was given: neither their
    order nor repetitions matter. *)
From S2P Require Import Prelude CoreTypes.

(** ** Constants of [lib.rs] *)

Definition WAVE_LENGTH : N := 3.
Definition LEADER_OFFSET : N := 0.
Definition GC_DEPTH : N := 30.
Definition wave_of (round : N) : N := round / WAVE_LENGTH.

(** ** [error.rs] *)

Inductive ConsensusError :=
  | EpochMismatch (expected got : N)
  | DigestMismatch (author : Address) (round : N)
  | UnknownAuthor (author : Address) (epoch : N)
  | InvalidSignature (author : Address) (round : N)
  | BelowGcBoundary (round gc_round : N)
  | MissingAncestor (ancestor_digest : Hash) (author : Address) (round : N)
  | InsufficientStrongLinks (author : Address) (round : N)
  | Equivocation (author : Address) (round : N) (first second : Hash)
  | StakeOverflow (author : Address)
  | EmptyCommittee (epoch : N)
  | ByzantineInvariantBreach (slot_round : N) (slot_author : Address) (first second : Hash)
  | DecidedLeaderMissing (round : N) (author : Address).

#[export] Instance ConsensusError_eq_dec : EqDecision ConsensusError.
Proof. solve_decision. Defined.

Definition is_fatal (e : ConsensusError) : bool :=
  match e with
  | ByzantineInvariantBreach _ _ _ _ | DecidedLeaderMissing _ _ => true
  | _ => false
  end.

(** ** [stake.rs] *)

Inductive Threshold := Quorum | Validity.

#[export] Instance Threshold_eq_dec : EqDecision Threshold.
Proof. solve_decision. Defined.

Record StakeAggregator := {
  threshold : Threshold;
  agg_total_power : N;
  accumulated : N;
  counted : gset Address;
  reached : bool;
}.

Definition threshold_factor (t : Threshold) : N :=
  match t with Quorum => 2 | Validity => 1 end.

Definition exceeds_threshold (acc total : N) (t : Threshold) : bool :=
  saturating_mul u128_max total (threshold_factor t) <? saturating_mul u128_max acc 3.

Definition StakeAggregator_new (t : Threshold) (total : Amount) : StakeAggregator :=
  {| threshold := t; agg_total_power := total; accumulated := 0; counted := ∅; reached := false |}.

Definition StakeAggregator_quorum (total : Amount) : StakeAggregator :=
  StakeAggregator_new Quorum total.

Definition StakeAggregator_validity (total : Amount) : StakeAggregator :=
  StakeAggregator_new Validity total.

(** Returns the updated aggregator and the answer; on [Err] the caller's
    aggregator is unchanged. *)
Definition StakeAggregator_add (self : StakeAggregator) (author : Address) (pw : VotingPower)
    : result ConsensusError (StakeAggregator * bool) :=
  if bool_decide (author ∈ counted self) then Ok (self, reached self) else
  acc ← ok_or (StakeOverflow author) (checked_add u128_max (accumulated self) pw);
  let r := if reached self then true
           else exceeds_threshold acc (agg_total_power self) (threshold self) in
  Ok ({| threshold := threshold self; agg_total_power := agg_total_power self;
         accumulated := acc; counted := {[author]} ∪ counted self; reached := r |}, r).

Definition StakeAggregator_clear (self : StakeAggregator) : StakeAggregator :=
  {| threshold := threshold self; agg_total_power := agg_total_power self;
     accumulated := 0; counted := ∅; reached := false |}.

(** [if let Some(member) = vset.members.get(&a) { agg.add(a, member.power)?; }],
    the body every tally loop of the crate shares. *)
Definition add_member (vset : ValidatorSet) (agg : StakeAggregator) (a : Address)
    : result ConsensusError StakeAggregator :=
  match members vset !! a with
  | Some m => '(agg', _) ← StakeAggregator_add agg a (power m); Ok agg'
  | None => Ok agg
  end.

(** ** The threshold test *)

Lemma exceeds_threshold_sound acc total t :
  exceeds_threshold acc total t = true → threshold_factor t * total < 3 * acc.
Proof. unfold exceeds_threshold, saturating_mul. intros; bool_hyps. lia. Qed.

Lemma exceeds_threshold_complete acc total t :
  3 * total <= u128_max → threshold_factor t * total < 3 * acc →
  exceeds_threshold acc total t = true.
Proof.
  unfold exceeds_threshold, saturating_mul. intros Hm Hlt. apply N.ltb_lt.
  destruct t; cbn in *; unfold u128_max in *; lia.
Qed.

Lemma exceeds_threshold_mono acc acc' total t :
  acc <= acc' → exceeds_threshold acc total t = true → exceeds_threshold acc' total t = true.
Proof. unfold exceeds_threshold, saturating_mul. intros; bool_hyps. apply N.ltb_lt. lia. Qed.

(** ** The aggregator represents a set of authors *)

Section rep.
Context (w : Address → N).

(** The aggregator holds exactly the distinct authors [counted], their total
    weight, and the threshold's answer for it. *)
Record agg_rep (s : StakeAggregator) : Prop := {
  rep_accumulated : accumulated s = set_sum w (counted s);
  rep_bound : accumulated s <= u128_max;
  rep_reached : reached s = exceeds_threshold (accumulated s) (agg_total_power s) (threshold s);
}.

Lemma agg_rep_new t total : agg_rep (StakeAggregator_new t total).
Proof.
  split; cbn; [by rewrite set_sum_empty|unfold u128_max; lia|].
  unfold exceeds_threshold, saturating_mul. symmetry. apply N.ltb_ge. lia.
Qed.

Lemma agg_rep_quorum total : agg_rep (StakeAggregator_quorum total).
Proof. apply agg_rep_new. Qed.

Lemma agg_rep_clear s : agg_rep (StakeAggregator_clear s).
Proof. apply (agg_rep_new (threshold s) (agg_total_power s)). Qed.

(** The outcome of one [add], on every branch. *)
Lemma add_spec s a :
  agg_rep s →
  StakeAggregator_add s a (w a) =
    if decide (set_sum w ({[a]} ∪ counted s) <= u128_max) then
      let s' := {| threshold := threshold s; agg_total_power := agg_total_power s;
                   accumulated := set_sum w ({[a]} ∪ counted s);
                   counted := {[a]} ∪ counted s;
                   reached := exceeds_threshold (set_sum w ({[a]} ∪ counted s))
                                (agg_total_power s) (threshold s) |} in
      Ok (s', reached s')
    else Err (StakeOverflow a).
Proof.
  intros [Ha Hb Hr]. unfold StakeAggregator_add. case_bool_decide as Hin.
  - replace ({[a]} ∪ counted s) with (counted s) by set_solver.
    rewrite <-Ha, decide_True by done. rewrite <-Hr. by destruct s.
  - rewrite set_sum_insert, <-Ha by done. unfold checked_add.
    rewrite (N.add_comm (accumulated s)).
    case_decide as Hd; [rewrite (proj2 (N.leb_le _ _)) by done|
      rewrite (proj2 (N.leb_gt _ _)) by lia; done]. cbn.
    replace (if reached s then true else _)
      with (exceeds_threshold (w a + accumulated s) (agg_total_power s) (threshold s)); [done|].
    destruct (reached s) eqn:E; [|done].
    eapply exceeds_threshold_mono; [|by symmetry]. lia.
Qed.

Lemma add_rep s a s' r :
  agg_rep s → StakeAggregator_add s a (w a) = Ok (s', r) →
  agg_rep s' ∧ r = reached s' ∧ counted s' = {[a]} ∪ counted s
  ∧ agg_total_power s' = agg_total_power s ∧ threshold s' = threshold s.
Proof.
  intros Hs. rewrite (add_spec s a Hs). case_decide as Hd; [|done].
  cbn. intros [= <- <-]. by split_and!.
Qed.

Lemma reached_sound s :
  agg_rep s → reached s = true →
  threshold_factor (threshold s) * agg_total_power s < 3 * set_sum w (counted s).
Proof. intros [Ha Hb Hr] Hre. rewrite Hr, Ha in Hre. by apply exceeds_threshold_sound. Qed.
End rep.
#[export] Hint Resolve agg_rep_new agg_rep_quorum agg_rep_clear : lemma_db.

(** ** A whole sequence of [add] calls *)

(** Feeding the authors of [l], each with its weight, to the aggregator. *)
Definition add_all (w : Address → N) : StakeAggregator → list Address → result ConsensusError StakeAggregator :=
  try_fold (λ s a, '(s', _) ← StakeAggregator_add s a (w a); Ok s').

Lemma add_all_spec w l s :
  agg_rep w s →
  match add_all w s l with
  | Ok s' => agg_rep w s' ∧ counted s' = counted s ∪ list_to_set l
      ∧ agg_total_power s' = agg_total_power s ∧ threshold s' = threshold s
  | Err e => ∃ a, a ∈ l ∧ e = StakeOverflow a ∧ u128_max < set_sum w (counted s ∪ list_to_set l)
  end.
Proof.
  unfold add_all. revert s; induction l as [|a l IH]; intros s Hs; cbn [try_fold].
  - split_and!; [done|cbn; set_solver|done..].
  - destruct (StakeAggregator_add s a (w a)) as [[s' r]|e] eqn:E; cbn.
    + apply (add_rep w) in E as (Hs' & _ & Hc & Ht & Hth); [|done].
      specialize (IH s' Hs'). rewrite Hc in IH.
      replace (counted s ∪ ({[a]} ∪ list_to_set l))
        with ({[a]} ∪ counted s ∪ list_to_set l : gset Address) by set_solver.
      destruct (try_fold _ s' l).
      * rewrite Ht, Hth in IH. exact IH.
      * destruct IH as (b & ? & ? & ?). exists b. split_and!; [by right|done..].
    + rewrite (add_spec w s a Hs) in E. case_decide as Hd; [done|].
      injection E as <-. exists a. split_and!; [by left|done|].
      eapply N.lt_le_trans; [apply N.lt_nge, Hd|]. apply set_sum_mono. set_solver.
Qed.

(** [StakeAggregator] refines a set of authors: feeding any list of authors
    to a fresh aggregator succeeds exactly when the weight of the *distinct*
    authors fits [u128]; the accumulated stake is then that weight (nobody is
    counted twice, whatever the order) and [is_reached] is the threshold test
    on it.  Otherwise the call that overflows reports [StakeOverflow]. *)
Theorem aggregator_counts_distinct_authors w t total (l : list Address) :
  let X : gset Address := list_to_set l in
  match add_all w (StakeAggregator_new t total) l with
  | Ok s => set_sum w X <= u128_max ∧ counted s = X ∧ accumulated s = set_sum w X
      ∧ reached s = exceeds_threshold (set_sum w X) total t
  | Err e => u128_max < set_sum w X ∧ ∃ a, a ∈ l ∧ e = StakeOverflow a
  end.
Proof.
  intros X. pose proof (add_all_spec w l _ (agg_rep_new w t total)) as Hs.
  destruct (add_all _ _ _) as [s|e]; cbn in Hs; rewrite (left_id_L ∅ (∪)) in Hs.
  - destruct Hs as ([Ha Hb Hr] & Hc & Ht & Hth). fold X in Hc.
    rewrite <-Hc, <-Ha. split_and!; [done..|congruence].
  - naive_solver.
Qed.

(** ** Tallies over a validator set *)

(** The members among a list of authors. *)
Definition voters (vset : ValidatorSet) (l : list Address) : gset Address :=
  list_to_set l ∩ dom (members vset).

Lemma elem_of_voters vset l a : a ∈ voters vset l ↔ a ∈ l ∧ is_Some (members vset !! a).
Proof. unfold voters. by rewrite elem_of_intersection, elem_of_list_to_set, elem_of_dom. Qed.

Lemma voters_members vset l : voters vset l ⊆ dom (members vset).
Proof. unfold voters. set_solver. Qed.
#[export] Hint Resolve voters_members : lemma_db.

Lemma add_member_ok vset s a s' :
  agg_rep (power_of vset) s → add_member vset s a = Ok s' →
  agg_rep (power_of vset) s' ∧ counted s' = counted s ∪ voters vset [a]
  ∧ agg_total_power s' = agg_total_power s ∧ threshold s' = threshold s.
Proof.
  unfold add_member. intros Hs H. destruct (members vset !! a) as [m|] eqn:Hm.
  - apply bind_Ok in H as ([s1 r] & H & [= ->]).
    rewrite <-(power_of_member _ _ _ Hm) in H.
    apply add_rep in H as (? & _ & Hc & ? & ?); [|done]. split_and!; [done| |done..].
    rewrite Hc. assert (a ∈ dom (members vset)) by (apply elem_of_dom; eauto).
    unfold voters. set_solver.
  - injection H as <-. split_and!; [done| |done..].
    assert (a ∉ dom (members vset)) by (by apply not_elem_of_dom). unfold voters. set_solver.
Qed.

(** What a tally computes, when it returns. *)
Lemma tally_ok vset l s s' :
  agg_rep (power_of vset) s → try_fold (add_member vset) s l = Ok s' →
  agg_rep (power_of vset) s' ∧ counted s' = counted s ∪ voters vset l
  ∧ agg_total_power s' = agg_total_power s ∧ threshold s' = threshold s.
Proof.
  revert s; induction l as [|a l IH]; intros s Hs; cbn.
  - intros [= <-]. split_and!; [done|unfold voters; set_solver|done..].
  - intros (s1 & Ha & Hl)%bind_Ok.
    apply add_member_ok in Ha as (Hs1 & Hc1 & Ht1 & Hth1); [|done].
    apply IH in Hl as (Hs' & Hc & Ht & Hth); [|done]. split_and!; [done| |congruence..].
    rewrite Hc, Hc1. unfold voters. cbn. set_solver.
Qed.

(** Adding a member of a well-formed committee never overflows. *)
Lemma member_add_total vset s a m :
  vset_wf vset → agg_rep (power_of vset) s → counted s ⊆ dom (members vset) →
  members vset !! a = Some m → ∃ s' r, StakeAggregator_add s a (power m) = Ok (s', r).
Proof.
  intros [Hw1 Hw2] Hs Hc Hm. rewrite <-(power_of_member _ _ _ Hm), (add_spec (power_of vset)) by done.
  rewrite decide_True; [cbn; eauto|].
  etrans; [|exact Hw2]. apply (stake_of_le_total vset); [by split|].
  assert (a ∈ dom (members vset)) by (apply elem_of_dom; eauto). set_solver.
Qed.

(** A tally over a well-formed committee never overflows. *)
Lemma tally_total vset l s :
  vset_wf vset → agg_rep (power_of vset) s → counted s ⊆ dom (members vset) →
  ∃ s', try_fold (add_member vset) s l = Ok s'.
Proof.
  intros Hw. revert s; induction l as [|a l IH]; intros s Hs Hc; cbn; [eauto|].
  assert (∃ s1, add_member vset s a = Ok s1) as [s1 H1].
  { unfold add_member. destruct (members vset !! a) as [m|] eqn:Hm; [|eauto].
    destruct (member_add_total vset s a m) as (s' & r & ->); [done..|]. cbn. eauto. }
  rewrite H1; cbn. apply add_member_ok in H1 as (Hs1 & Hc1 & _); [|done].
  apply IH; [done|]. rewrite Hc1. pose proof (voters_members vset [a]). set_solver.
Qed.

(** The quorum tally of a list of authors: what every [2f+1] check evaluates. *)
Definition quorum_tally (vset : ValidatorSet) (l : list Address) : result ConsensusError StakeAggregator :=
  try_fold (add_member vset) (StakeAggregator_quorum (total_power vset)) l.

(** A set of authors holding strictly more than two thirds of the stake. *)
Definition is_quorum (vset : ValidatorSet) (X : gset Address) : Prop :=
  X ⊆ dom (members vset) ∧ 2 * total_power vset < 3 * stake_of vset X.

Lemma quorum_tally_reached vset l s :
  quorum_tally vset l = Ok s → reached s = true → is_quorum vset (voters vset l).
Proof.
  intros Ht Hr. apply tally_ok in Ht as (Hs & Hc & Htot & Hth); [|auto with lemma_db].
  cbn in *. rewrite (left_id_L ∅ (∪)) in Hc. split; [auto with lemma_db|].
  apply (reached_sound _ s Hs) in Hr. rewrite Hth, Htot, Hc in Hr. exact Hr.
Qed.

Lemma quorum_tally_complete vset l :
  vset_wf vset → 3 * total_power vset <= u128_max →
  ∃ s, quorum_tally vset l = Ok s ∧ (reached s = true ↔ is_quorum vset (voters vset l)).
Proof.
  intros Hw Hm. destruct (tally_total vset l (StakeAggregator_quorum (total_power vset)))
    as [s Hs]; [done|auto with lemma_db|set_solver|].
  exists s. split; [done|split]; [by apply quorum_tally_reached|].
  intros [_ Hq]. apply tally_ok in Hs as ([Ha Hb Hr] & Hc & Htot & Hth); [|auto with lemma_db].
  cbn in *. rewrite (left_id_L ∅ (∪)) in Hc. rewrite Hr, Ha, Htot, Hth, Hc.
  by apply exceeds_threshold_complete.
Qed.

(** ** Quorum intersection *)

Lemma quorum_intersection vset X Y :
  vset_wf vset → is_quorum vset X → is_quorum vset Y →
  total_power vset < 3 * stake_of vset (X ∩ Y).
Proof.
  intros [Hw _] [HX HX3] [HY HY3].
  pose proof (set_sum_intersection (power_of vset) X Y _ HX HY). unfold stake_of in *. lia.
Qed.

(** The promise the aggregator makes to the agreement argument: any two quorums
    share an author outside the faulty set. *)
Class QuorumSystem (Q : gset Address → Prop) (byz : gset Address) : Prop := {
  quorum_honest_overlap X Y : Q X → Q Y → ∃ a, a ∈ X ∧ a ∈ Y ∧ a ∉ byz;
}.

(** Less than a third of the stake is faulty. *)
Definition byz_bounded (vset : ValidatorSet) (byz : gset Address) : Prop :=
  3 * stake_of vset byz <= total_power vset.

Lemma stake_quorum_system vset byz :
  vset_wf vset → byz_bounded vset byz → QuorumSystem (is_quorum vset) byz.
Proof.
  intros Hw Hb. split. intros X Y HX HY.
  pose proof (quorum_intersection vset X Y Hw HX HY) as Hi.
  destruct (set_sum_pos_elem (power_of vset) ((X ∩ Y) ∖ byz)) as [a Ha]; [|set_solver].
  pose proof (set_sum_split (power_of vset) (X ∩ Y) byz).
  pose proof (set_sum_mono (power_of vset) (X ∩ Y ∩ byz) byz ltac:(set_solver)).
  unfold byz_bounded, stake_of in *. lia.
Qed.
