(* ===== verification/DagBlock.v ===== *)
(** * DAG blocks ([crates/lemma-consensus/src/dag/block.rs])

    Slots, block references, batch references, commit votes, block bodies and
    blocks, with the canonical digest.  [blake3] is a third-party crate: it is a
    parameter of every definition that hashes. *)
From S2P Require Import Prelude CoreTypes StakeAgg.

Record Slot := {
  slot_round : N;
  slot_author : Address;
}.

Record DagBlockRef := {
  ref_round : N;
  ref_author : Address;
  ref_digest : Hash;
}.

Record TxBatchRef := {
  batch_digest : Hash;
  batch_author : Address;
  batch_size : N;
}.

Record CommitVote := {
  commit_index : N;
  vote_leader : DagBlockRef;
}.

Record DagBlockBody := {
  body_epoch : N;
  body_round : N;
  body_author : Address;
  body_timestamp_ms : N;
  body_ancestors : list DagBlockRef;
  body_payload : list TxBatchRef;
  body_commit_votes : list CommitVote;
}.

(** The body's fields are inlined in the Rust struct; the model keeps the body
    as one field, which is what [compute_digest] reads. *)
Record DagBlock := {
  body : DagBlockBody;
  signature : Signature;
  digest : Hash;
}.

Definition blk_epoch (b : DagBlock) : N := body_epoch (body b).
Definition blk_round (b : DagBlock) : N := body_round (body b).
Definition blk_author (b : DagBlock) : Address := body_author (body b).
Definition blk_timestamp_ms (b : DagBlock) : N := body_timestamp_ms (body b).
Definition ancestors (b : DagBlock) : list DagBlockRef := body_ancestors (body b).

Definition DagBlockRef_slot (self : DagBlockRef) : Slot :=
  {| slot_round := ref_round self; slot_author := ref_author self |}.

(** ** Decidable equality, countability and the derived [Ord] *)

#[export] Instance Slot_eq_dec : EqDecision Slot.
Proof. solve_decision. Defined.
#[export] Instance DagBlockRef_eq_dec : EqDecision DagBlockRef.
Proof. solve_decision. Defined.
#[export] Instance TxBatchRef_eq_dec : EqDecision TxBatchRef.
Proof. solve_decision. Defined.
#[export] Instance CommitVote_eq_dec : EqDecision CommitVote.
Proof. solve_decision. Defined.
#[export] Instance DagBlockBody_eq_dec : EqDecision DagBlockBody.
Proof. solve_decision. Defined.
#[export] Instance DagBlock_eq_dec : EqDecision DagBlock.
Proof. solve_decision. Defined.

#[export] Program Instance Slot_countable : Countable Slot :=
  inj_countable' (λ s, (slot_round s, slot_author s)) (λ p, Build_Slot p.1 p.2) _.
Next Obligation. by intros []. Qed.
#[export] Program Instance DagBlockRef_countable : Countable DagBlockRef :=
  inj_countable' (λ r, (ref_round r, ref_author r, ref_digest r))
    (λ p, Build_DagBlockRef p.1.1 p.1.2 p.2) _.
Next Obligation. by intros []. Qed.

(** Lexicographic: [round], then [author], then [digest]. *)
Definition ref_le (x y : DagBlockRef) : Prop :=
  ref_round x < ref_round y ∨ (ref_round x = ref_round y ∧
    (ref_author x < ref_author y ∨ (ref_author x = ref_author y ∧ ref_digest x <= ref_digest y))).

#[export] Instance ref_le_dec : RelDecision ref_le.
Proof. intros x y. unfold ref_le. apply _. Defined.

#[export] Program Instance DagBlockRef_bord : BOrd DagBlockRef := {| ble := ref_le |}.
Next Obligation. intros x y. unfold ref_le. lia. Qed.
Next Obligation. intros x y z. unfold ref_le. lia. Qed.
Next Obligation.
  intros [r1 a1 d1] [r2 a2 d2]. unfold ref_le; cbn. intros.
  assert (r1 = r2) as -> by lia. assert (a1 = a2) as -> by lia. assert (d1 = d2) as -> by lia.
  done.
Qed.

(** ** Digest *)

Definition ref_preimage (r : DagBlockRef) : list N :=
  be_bytes 8 (ref_round r) ++ Address_as_bytes (ref_author r) ++ Hash_as_bytes (ref_digest r).

Definition batch_preimage (p : TxBatchRef) : list N :=
  Hash_as_bytes (batch_digest p) ++ Address_as_bytes (batch_author p) ++ be_bytes 4 (batch_size p).

Definition vote_preimage (v : CommitVote) : list N :=
  be_bytes 8 (commit_index v) ++ ref_preimage (vote_leader v).

(** A length prefix followed by the items, as each loop of [compute_digest] writes. *)
Definition seq_preimage {A} (f : A → list N) (l : list A) : list N :=
  be_bytes 8 (N.of_nat (length l)) ++ mjoin (f <$> l).

Definition body_preimage (b : DagBlockBody) : list N :=
  be_bytes 8 (body_epoch b) ++ be_bytes 8 (body_round b) ++ Address_as_bytes (body_author b)
  ++ be_bytes 8 (body_timestamp_ms b)
  ++ seq_preimage ref_preimage (body_ancestors b)
  ++ seq_preimage batch_preimage (body_payload b)
  ++ seq_preimage vote_preimage (body_commit_votes b).

Definition compute_digest (blake3 : list N → Hash) (b : DagBlockBody) : Hash :=
  blake3 (body_preimage b).

(** ** Methods *)

Definition DagBlock_new (blake3 : list N → Hash) (b : DagBlockBody) (sig : Signature) : DagBlock :=
  {| body := b; signature := sig; digest := compute_digest blake3 b |}.

Definition reference (self : DagBlock) : DagBlockRef :=
  {| ref_round := blk_round self; ref_author := blk_author self; ref_digest := digest self |}.

Definition DagBlock_slot (self : DagBlock) : Slot :=
  {| slot_round := blk_round self; slot_author := blk_author self |}.

Definition verify_digest (blake3 : list N → Hash) (self : DagBlock) : bool :=
  digest self =? compute_digest blake3 (body self).

Definition is_genesis_round (self : DagBlock) : bool := blk_round self =? 0.

Definition ancestors_at_round (self : DagBlock) (round : N) : list DagBlockRef :=
  filter (λ a, ref_round a = round) (ancestors self).

Lemma reference_slot b : DagBlockRef_slot (reference b) = DagBlock_slot b.
Proof. done. Qed.
Lemma reference_round b : ref_round (reference b) = blk_round b.
Proof. done. Qed.
Lemma reference_author b : ref_author (reference b) = blk_author b.
Proof. done. Qed.

#[global] Arguments reference : simpl never.
#[global] Arguments DagBlock_slot : simpl never.
#[global] Arguments DagBlockRef_slot : simpl never.

(** A reference is determined by its slot and digest. *)
Lemma ref_eq r1 r2 :
  DagBlockRef_slot r1 = DagBlockRef_slot r2 → ref_digest r1 = ref_digest r2 → r1 = r2.
Proof. destruct r1, r2; unfold DagBlockRef_slot; cbn. intros [= -> ->] ->. done. Qed.

(** ** The digest's pre-image is an injective encoding of the body *)

(** Fields within the widths of their Rust types. *)
Definition ref_fits (r : DagBlockRef) : Prop :=
  ref_round r < 2 ^ 64 ∧ ref_author r < 2 ^ 160 ∧ ref_digest r < 2 ^ 256.
Definition batch_fits (p : TxBatchRef) : Prop :=
  batch_digest p < 2 ^ 256 ∧ batch_author p < 2 ^ 160 ∧ batch_size p < 2 ^ 32.
Definition vote_fits (v : CommitVote) : Prop := commit_index v < 2 ^ 64 ∧ ref_fits (vote_leader v).
Definition seq_fits {A} (P : A → Prop) (l : list A) : Prop :=
  N.of_nat (length l) < 2 ^ 64 ∧ Forall P l.
Definition body_fits (b : DagBlockBody) : Prop :=
  body_epoch b < 2 ^ 64 ∧ body_round b < 2 ^ 64 ∧ body_author b < 2 ^ 160
  ∧ body_timestamp_ms b < 2 ^ 64 ∧ seq_fits ref_fits (body_ancestors b)
  ∧ seq_fits batch_fits (body_payload b) ∧ seq_fits vote_fits (body_commit_votes b).

(** [be_bytes] read off the front of a byte string. *)
Lemma be_bytes_app_inj n x y l1 l2 :
  x < 256 ^ N.of_nat n → y < 256 ^ N.of_nat n →
  be_bytes n x ++ l1 = be_bytes n y ++ l2 → x = y ∧ l1 = l2.
Proof.
  intros Hx Hy [H1 H2]%app_inj_1; [|by rewrite !length_be_bytes].
  split; [by eapply be_bytes_inj|done].
Qed.

(** An encoder whose output can be read off the front of a byte string. *)
Definition prefix_inj {A} (P : A → Prop) (f : A → list N) : Prop :=
  ∀ x y l1 l2, P x → P y → f x ++ l1 = f y ++ l2 → x = y ∧ l1 = l2.

Ltac split_fields :=
  repeat match goal with
  | H : be_bytes ?n _ ++ _ = be_bytes ?n _ ++ _ |- _ =>
      apply be_bytes_app_inj in H as [? H];
        [|first [assumption|eapply N.lt_le_trans; [eassumption|by vm_compute]]..]
  end.

Lemma ref_preimage_inj : prefix_inj ref_fits ref_preimage.
Proof.
  intros [r1 a1 d1] [r2 a2 d2] l1 l2 (?&?&?) (?&?&?). unfold ref_preimage, Address_as_bytes, Hash_as_bytes.
  cbn in *. rewrite <-!app_assoc. intros Heq. split_fields. by subst.
Qed.

Lemma batch_preimage_inj : prefix_inj batch_fits batch_preimage.
Proof.
  intros [r1 a1 d1] [r2 a2 d2] l1 l2 (?&?&?) (?&?&?). unfold batch_preimage, Address_as_bytes, Hash_as_bytes.
  cbn in *. rewrite <-!app_assoc. intros Heq. split_fields. by subst.
Qed.

Lemma vote_preimage_inj : prefix_inj vote_fits vote_preimage.
Proof.
  intros [c1 r1] [c2 r2] l1 l2 [? ?] [? ?]. unfold vote_preimage.
  cbn in *. rewrite <-!app_assoc. intros Heq. split_fields.
  apply ref_preimage_inj in Heq as [? ?]; [|done..]. by subst.
Qed.

Lemma mjoin_prefix_inj {A} (P : A → Prop) f (l1 l2 : list A) r1 r2 :
  prefix_inj P f → length l1 = length l2 → Forall P l1 → Forall P l2 →
  mjoin (f <$> l1) ++ r1 = mjoin (f <$> l2) ++ r2 → l1 = l2 ∧ r1 = r2.
Proof.
  intros Hf. revert l2; induction l1 as [|x l1 IH]; intros [|y l2]; try done.
  intros [= Hlen] [Hx H1]%Forall_cons [Hy H2]%Forall_cons. cbn. rewrite <-!app_assoc.
  intros [-> Heq]%Hf; [|done..]. apply IH in Heq as [-> ->]; done.
Qed.

Lemma seq_preimage_inj {A} (P : A → Prop) (f : A → list N) :
  prefix_inj P f → prefix_inj (seq_fits P) (seq_preimage f).
Proof.
  intros Hf l1 l2 r1 r2 [Hn1 H1] [Hn2 H2]. unfold seq_preimage. rewrite <-!app_assoc. intros Heq.
  split_fields. eapply mjoin_prefix_inj in Heq; [done..|lia|done|done].
Qed.

Lemma body_preimage_inj b1 b2 :
  body_fits b1 → body_fits b2 → body_preimage b1 = body_preimage b2 → b1 = b2.
Proof.
  destruct b1, b2. unfold body_fits, body_preimage, Address_as_bytes; cbn.
  intros (?&?&?&?&?&?&?) (?&?&?&?&?&?&?) Heq. split_fields.
  apply (seq_preimage_inj _ _ ref_preimage_inj) in Heq as [? Heq]; [|done..].
  apply (seq_preimage_inj _ _ batch_preimage_inj) in Heq as [? Heq]; [|done..].
  rewrite <-(app_nil_r (seq_preimage _ _)) in Heq.
  rewrite <-(app_nil_r (seq_preimage _ body_commit_votes1)) in Heq.
  apply (seq_preimage_inj _ _ vote_preimage_inj) in Heq as [? Heq]; [|done..]. by subst.
Qed.

(** [DagBlock::new] and [verify_digest] bind a block to its body: a freshly
    built block verifies, and any block that verifies and carries its digest has
    the same body, unless BLAKE3 collides on the two (different) pre-images the
    code computes.  No assumption on BLAKE3 is made. *)
Theorem verify_digest_binds_body blake3 b sig blk :
  body_fits b → body_fits (body blk) →
  verify_digest blake3 (DagBlock_new blake3 b sig) = true ∧
  (verify_digest blake3 blk = true → digest blk = digest (DagBlock_new blake3 b sig) →
   body blk = b ∨
   (body_preimage (body blk) ≠ body_preimage b
    ∧ blake3 (body_preimage (body blk)) = blake3 (body_preimage b))).
Proof.
  intros Hb Hblk. split; [apply N.eqb_refl|]. intros Hv%N.eqb_eq Hd. cbn in Hd.
  rewrite Hv in Hd. unfold compute_digest in Hd.
  destruct (decide (body_preimage (body blk) = body_preimage b)) as [He|]; [left|by right].
  by apply body_preimage_inj.
Qed.
