(* ===== verification/DagGraph.v ===== *)
(** * The DAG store ([crates/lemma-consensus/src/dag/validity.rs], [dag/graph.rs],
    [dag/graph/maintenance.rs])

    Validity rules, insertion with suspension of blocks whose ancestors are
    missing, the cascade that accepts them later, and garbage collection.

    An operation that returns [Err] leaves the store as it was: every
    validation precedes the first write.  The recursion of [try_unsuspend]
    carries fuel; [try_unsuspend_terminates] shows that the fuel [insert] passes
    is never exhausted. *)
From S2P Require Import Prelude CoreTypes StakeAgg DagBlock.

Definition MAX_SUSPENDED : nat := 1000.
Definition MAX_NEXT_EPOCH_BUFFER : nat := 200.

Inductive InsertOutcome :=
  | Accepted
  | Suspended
  | NextEpochBuffered
  | Dropped
  | OutcomeEquivocation (author : Address) (round : N) (first second : Hash).

#[export] Instance InsertOutcome_eq_dec : EqDecision InsertOutcome.
Proof. solve_decision. Defined.

Record Dag := {
  blocks : gmap DagBlockRef DagBlock;
  by_slot : gmap Slot DagBlockRef;
  by_round : gmap N (gset DagBlockRef);
  suspended : gmap DagBlockRef DagBlock;
  waiting_for : gmap DagBlockRef (gset DagBlockRef);
  next_epoch_buffer : gmap DagBlockRef DagBlock;
  last_committed_round : N;
  dag_epoch : N;
  pending_equivocations : list InsertOutcome;
}.

Definition Dag_new (epoch : N) : Dag :=
  {| blocks := ∅; by_slot := ∅; by_round := ∅; suspended := ∅; waiting_for := ∅;
     next_epoch_buffer := ∅; last_committed_round := 0; dag_epoch := epoch;
     pending_equivocations := [] |}.

(** Writes to single fields. *)
Definition set_suspended s d : Dag :=
  {| blocks := blocks d; by_slot := by_slot d; by_round := by_round d; suspended := s;
     waiting_for := waiting_for d; next_epoch_buffer := next_epoch_buffer d;
     last_committed_round := last_committed_round d; dag_epoch := dag_epoch d;
     pending_equivocations := pending_equivocations d |}.
Definition set_waiting_for w d : Dag :=
  {| blocks := blocks d; by_slot := by_slot d; by_round := by_round d; suspended := suspended d;
     waiting_for := w; next_epoch_buffer := next_epoch_buffer d;
     last_committed_round := last_committed_round d; dag_epoch := dag_epoch d;
     pending_equivocations := pending_equivocations d |}.
Definition set_next_epoch_buffer n d : Dag :=
  {| blocks := blocks d; by_slot := by_slot d; by_round := by_round d; suspended := suspended d;
     waiting_for := waiting_for d; next_epoch_buffer := n;
     last_committed_round := last_committed_round d; dag_epoch := dag_epoch d;
     pending_equivocations := pending_equivocations d |}.
Definition set_pending_equivocations p d : Dag :=
  {| blocks := blocks d; by_slot := by_slot d; by_round := by_round d; suspended := suspended d;
     waiting_for := waiting_for d; next_epoch_buffer := next_epoch_buffer d;
     last_committed_round := last_committed_round d; dag_epoch := dag_epoch d;
     pending_equivocations := p |}.

(** ** Queries *)

Definition gc_round (d : Dag) : N := saturating_sub (last_committed_round d) GC_DEPTH.

(** [keys().next_back()]: the last key in key order. *)
Definition highest_accepted_round (d : Dag) : N := default 0 (last (bmap_keys (by_round d))).

Definition block_at_slot (d : Dag) (s : Slot) : option DagBlockRef := by_slot d !! s.

Definition blocks_at_round (d : Dag) (round : N) : list DagBlock :=
  omap (λ r, blocks d !! r) (bset_iter (default ∅ (by_round d !! round))).

Definition contains (d : Dag) (r : DagBlockRef) : bool := bool_decide (is_Some (blocks d !! r)).

Definition total_stake_at (d : Dag) (round : N) (vset : ValidatorSet)
    : result ConsensusError StakeAggregator :=
  try_fold (λ agg b, add_member vset agg (blk_author b))
    (StakeAggregator_quorum (total_power vset)) (blocks_at_round d round).

Definition drain_equivocations (d : Dag) : Dag * list InsertOutcome :=
  (set_pending_equivocations [] d, pending_equivocations d).

(** ** Validity rules ([validity.rs]) *)

Definition validate_digest_integrity (blake3 : list N → Hash) (b : DagBlock) : result ConsensusError () :=
  if verify_digest blake3 b then Ok () else Err (DigestMismatch (blk_author b) (blk_round b)).

Definition validate_author_and_signature (b : DagBlock) (vset : ValidatorSet) (sig_ok : bool)
    : result ConsensusError () :=
  if negb (bool_decide (is_Some (members vset !! blk_author b)))
  then Err (UnknownAuthor (blk_author b) (blk_epoch b))
  else if negb sig_ok then Err (InvalidSignature (blk_author b) (blk_round b))
  else Ok ().

Definition validate_gc_boundary (block_round gc : N) : result ConsensusError () :=
  if (block_round =? 0) || (gc <? block_round) then Ok () else Err (BelowGcBoundary block_round gc).

Definition validate_strong_link_quorum (b : DagBlock) (vset : ValidatorSet) : result ConsensusError () :=
  if is_genesis_round b then Ok () else
  let prev_round := blk_round b - 1 in
  agg ← try_fold (λ agg a, add_member vset agg (ref_author a))
    (StakeAggregator_quorum (total_power vset)) (ancestors_at_round b prev_round);
  if reached agg then Ok () else Err (InsufficientStrongLinks (blk_author b) (blk_round b)).

Definition validate_no_equivocation (b : DagBlock) (existing : option DagBlockRef)
    : result ConsensusError () :=
  match existing with
  | Some e =>
      if negb (ref_digest e =? digest b)
      then Err (Equivocation (blk_author b) (blk_round b) (ref_digest e) (digest b))
      else Ok ()
  | None => Ok ()
  end.

Definition collect_missing_ancestors (b : DagBlock) (has : DagBlockRef → bool) : list DagBlockRef :=
  filter (λ a, negb (has a)) (ancestors b).

(** ** Insertion *)

Definition accept_block (d : Dag) (r : DagBlockRef) (b : DagBlock) : Dag :=
  {| blocks := <[r := b]> (blocks d);
     by_slot := <[DagBlock_slot b := r]> (by_slot d);
     by_round := multi_insert (ref_round r) r (by_round d);
     suspended := suspended d; waiting_for := waiting_for d;
     next_epoch_buffer := next_epoch_buffer d;
     last_committed_round := last_committed_round d; dag_epoch := dag_epoch d;
     pending_equivocations := pending_equivocations d |}.

(** A [for] loop over a state that may run out of fuel. *)
Fixpoint opt_fold {A B} (f : A → B → option A) (a : A) (l : list B) : option A :=
  match l with
  | [] => Some a
  | x :: l => a' ← f a x; opt_fold f a' l
  end.

(** The body of the loop of [try_unsuspend]; [rec] is the recursive call. *)
Definition unsuspend_one (rec : Dag → DagBlockRef → option Dag) (vset : ValidatorSet)
    (d : Dag) (suspended_ref : DagBlockRef) : option Dag :=
  let all_present := match suspended d !! suspended_ref with
    | Some b => forallb (contains d) (ancestors b)
    | None => false
    end in
  if negb all_present then Some d else
  match suspended d !! suspended_ref with
  | None => Some d
  | Some b =>
      let d1 := set_waiting_for
        (foldl (λ w a, multi_remove a suspended_ref w) (waiting_for d) (ancestors b))
        (set_suspended (delete suspended_ref (suspended d)) d) in
      let strong_ok := is_ok (validate_strong_link_quorum b vset) in
      let existing := block_at_slot d1 (DagBlock_slot b) in
      let no_equiv := is_ok (validate_no_equivocation b existing) in
      if strong_ok && no_equiv then rec (accept_block d1 suspended_ref b) suspended_ref
      else if negb no_equiv then
        match existing with
        | Some e =>
            if negb (ref_digest e =? digest b) then
              Some (set_pending_equivocations (pending_equivocations d1 ++
                [OutcomeEquivocation (blk_author b) (blk_round b) (ref_digest e) (digest b)]) d1)
            else Some d1
        | None => Some d1
        end
      else Some d1
  end.

Fixpoint try_unsuspend (fuel : nat) (vset : ValidatorSet) (d : Dag) (newly_accepted : DagBlockRef)
    : option Dag :=
  match fuel with
  | O => None
  | S fuel' =>
      match waiting_for d !! newly_accepted with
      | None => Some d
      | Some waiting =>
          opt_fold (unsuspend_one (try_unsuspend fuel' vset) vset)
            (set_waiting_for (delete newly_accepted (waiting_for d)) d) (bset_iter waiting)
      end
  end.

(** More levels than there are suspended blocks: each level removes one. *)
Definition unsuspend_fuel (d : Dag) : nat := S (size (suspended d)).

Definition Dag_insert (blake3 : list N → Hash) (d : Dag) (b : DagBlock) (vset : ValidatorSet) (sig_ok : bool)
    : result ConsensusError (Dag * InsertOutcome) :=
  let block_ref := reference b in
  if contains d block_ref then Ok (d, Accepted) else
  if dag_epoch d <? blk_epoch b then
    if blk_epoch b =? wrapping_add64 (dag_epoch d) 1 then
      if decide (size (next_epoch_buffer d) < MAX_NEXT_EPOCH_BUFFER)%nat
      then Ok (set_next_epoch_buffer (<[block_ref := b]> (next_epoch_buffer d)) d, NextEpochBuffered)
      else Ok (d, Dropped)
    else Err (EpochMismatch (dag_epoch d) (blk_epoch b))
  else if blk_epoch b <? dag_epoch d then Err (EpochMismatch (dag_epoch d) (blk_epoch b))
  else
  _ ← validate_digest_integrity blake3 b;
  _ ← validate_author_and_signature b vset sig_ok;
  _ ← validate_gc_boundary (blk_round b) (gc_round d);
  let missing := collect_missing_ancestors b (contains d) in
  if negb (bool_decide (missing = [])) then
    if decide (size (suspended d) < MAX_SUSPENDED)%nat then
      let w := foldl (λ w m, multi_insert m block_ref w) (waiting_for d) missing in
      Ok (set_suspended (<[block_ref := b]> (suspended d)) (set_waiting_for w d), Suspended)
    else Ok (d, Dropped)
  else
  _ ← validate_strong_link_quorum b vset;
  match validate_no_equivocation b (block_at_slot d (DagBlock_slot b)) with
  | Ok _ =>
      let d1 := accept_block d block_ref b in
      Ok (default d1 (try_unsuspend (unsuspend_fuel d1) vset d1 block_ref), Accepted)
  | Err (Equivocation author round first second) =>
      Ok (d, OutcomeEquivocation author round first second)
  | Err e => Err e
  end.

(** ** Garbage collection *)

(** The references of the rounds at or below the boundary. *)
Definition gc_refs (d : Dag) : gset DagBlockRef :=
  union_list ((λ kv, kv.2) <$> map_to_list (filter (λ kv, kv.1 <= gc_round d) (by_round d))).

Definition gc_blocks (d : Dag) : gmap DagBlockRef DagBlock :=
  filter (λ kv, kv.1 ∉ gc_refs d) (blocks d).

(** Suspended blocks at or below the boundary, or with an ancestor that is. *)
Definition suspended_to_drop (d : Dag) : gmap DagBlockRef DagBlock :=
  filter (λ kv, ref_round kv.1 <= gc_round d
    ∨ Exists (λ a, ref_round a <= gc_round d ∧ gc_blocks d !! a = None) (ancestors kv.2)) (suspended d).

Definition gc_waiting (d : Dag) : gmap DagBlockRef (gset DagBlockRef) :=
  foldl (λ w kv, foldl (λ w a, multi_remove a kv.1 w) w (ancestors kv.2))
    (waiting_for d) (bmap_iter (suspended_to_drop d)).

Definition collect_garbage (d : Dag) : Dag :=
  {| blocks := gc_blocks d;
     by_slot := filter (λ kv, kv.1 ∉ (set_map DagBlockRef_slot (gc_refs d) : gset Slot)) (by_slot d);
     by_round := filter (λ kv, ~ kv.1 <= gc_round d) (by_round d);
     suspended := filter (λ kv, suspended_to_drop d !! kv.1 = None) (suspended d);
     waiting_for := filter (λ kv, gc_round d < ref_round kv.1 ∧ kv.2 ≠ ∅) (gc_waiting d);
     next_epoch_buffer := next_epoch_buffer d;
     last_committed_round := last_committed_round d; dag_epoch := dag_epoch d;
     pending_equivocations := pending_equivocations d |}.

Definition set_last_committed_round (d : Dag) (round : N) : Dag :=
  if round <=? last_committed_round d then d else
  collect_garbage
    {| blocks := blocks d; by_slot := by_slot d; by_round := by_round d; suspended := suspended d;
       waiting_for := waiting_for d; next_epoch_buffer := next_epoch_buffer d;
       last_committed_round := round; dag_epoch := dag_epoch d;
       pending_equivocations := pending_equivocations d |}.

Definition Dag_advance_epoch (d : Dag) (new_epoch : N) : Dag * list DagBlock :=
  if negb (new_epoch =? wrapping_add64 (dag_epoch d) 1) then (d, []) else
  ({| blocks := blocks d; by_slot := by_slot d; by_round := by_round d; suspended := suspended d;
      waiting_for := waiting_for d; next_epoch_buffer := ∅;
      last_committed_round := last_committed_round d; dag_epoch := new_epoch;
      pending_equivocations := pending_equivocations d |},
   (bmap_iter (next_epoch_buffer d)).*2).

(** ** The store's invariant *)

Section invariant.
Context (blake3 : list N → Hash) (vset : ValidatorSet).

(** What rules 1 and 2 establish of a block. *)
Definition block_valid (b : DagBlock) : Prop :=
  verify_digest blake3 b = true ∧ is_Some (members vset !! blk_author b).

Record dag_inv (d : Dag) : Prop := {
  inv_ref r b : blocks d !! r = Some b → reference b = r;
  inv_slot s r : by_slot d !! s = Some r ↔ is_Some (blocks d !! r) ∧ DagBlockRef_slot r = s;
  inv_round n r : r ∈ default ∅ (by_round d !! n) ↔ is_Some (blocks d !! r) ∧ ref_round r = n;
  inv_round_nonempty n X : by_round d !! n = Some X → X ≠ ∅;
  inv_susp r b : suspended d !! r = Some b → reference b = r ∧ block_valid b;
  inv_valid r b : blocks d !! r = Some b →
    block_valid b ∧ validate_strong_link_quorum b vset = Ok ();
  inv_causal r b a : blocks d !! r = Some b → a ∈ ancestors b →
    is_Some (blocks d !! a) ∨ ref_round a <= gc_round d;
  inv_susp_bound : (size (suspended d) <= MAX_SUSPENDED)%nat;
  inv_next_bound : (size (next_epoch_buffer d) <= MAX_NEXT_EPOCH_BUFFER)%nat;
}.

Lemma dag_inv_new epoch : dag_inv (Dag_new epoch).
Proof.
  split; cbn; intros; rewrite ?lookup_empty in *; try done.
  - split; [done|]. by intros [[? ?] _].
  - split; [set_solver|]. by intros [[? ?] _].
  - unfold MAX_SUSPENDED; rewrite map_size_empty; lia.
  - unfold MAX_NEXT_EPOCH_BUFFER; rewrite map_size_empty; lia.
Qed.

(** Only the stored blocks, the suspension buffer and the GC round matter. *)
Lemma dag_inv_same d d' :
  blocks d' = blocks d → by_slot d' = by_slot d → by_round d' = by_round d →
  suspended d' ⊆ suspended d → (size (next_epoch_buffer d') <= MAX_NEXT_EPOCH_BUFFER)%nat →
  gc_round d' = gc_round d → dag_inv d → dag_inv d'.
Proof.
  intros Hb Hs Hr Hsu Hn Hg [I1 I2 I3 I4 I5 I6 I7 I8 I9].
  split; rewrite ?Hb, ?Hs, ?Hr, ?Hg; try done.
  - intros r b H. eapply I5, lookup_weaken; eauto.
  - etrans; [by apply map_subseteq_size|done].
Qed.

Lemma no_equivocation_slot d b :
  dag_inv d → validate_no_equivocation b (by_slot d !! DagBlock_slot b) = Ok () →
  ∀ r, is_Some (blocks d !! r) → DagBlockRef_slot r = DagBlock_slot b → r = reference b.
Proof.
  intros Hd Hne r Hr Hs.
  rewrite (proj2 (inv_slot d Hd _ _) (conj Hr Hs)) in Hne. cbn in Hne.
  destruct (ref_digest r =? digest b) eqn:E; [|done]. apply N.eqb_eq in E.
  by apply ref_eq; [rewrite reference_slot|].
Qed.

Lemma accept_block_inv d b :
  dag_inv d → block_valid b → validate_strong_link_quorum b vset = Ok () →
  Forall (λ a, is_Some (blocks d !! a)) (ancestors b) →
  validate_no_equivocation b (by_slot d !! DagBlock_slot b) = Ok () →
  dag_inv (accept_block d (reference b) b).
Proof.
  intros Hd Hv Hq Hanc Hne. pose proof (no_equivocation_slot d b Hd Hne) as Huniq.
  destruct Hd as [I1 I2 I3 I4 I5 I6 I7 I8 I9]. split; cbn; try done.
  - intros r b'. rewrite lookup_insert_Some. intros [[<- <-]|[_ ?]]; eauto.
  - intros s r. rewrite lookup_insert_Some, I2, lookup_insert_is_Some', <-(reference_slot b).
    split; [intros [[<- <-]|[Hs [? ?]]]; by auto|]. intros [Hr <-].
    destruct (decide (DagBlockRef_slot (reference b) = DagBlockRef_slot r)) as [He|].
    + left. split; [done|]. destruct Hr as [->|Hr]; [done|]. symmetry. by apply Huniq.
    + right. split; [done|]. destruct Hr as [<-|Hr]; done.
  - intros n r. unfold multi_insert. rewrite lookup_insert, lookup_insert_is_Some'.
    case_decide as Hn; cbn.
    + rewrite elem_of_union, elem_of_singleton, I3. subst n. split.
      * intros [->|[? ?]]; auto.
      * intros [[<-|?] ?]; auto.
    + rewrite I3. split; [intros [? ?]; by auto|]. intros [[<-|?] ?]; done.
  - intros n X. unfold multi_insert. rewrite lookup_insert_Some. intros [[_ <-]|[_ H]]; [set_solver|eauto].
  - intros r b'. rewrite lookup_insert_Some. intros [[<- <-]|[_ ?]]; eauto.
  - intros r b' a. rewrite lookup_insert_Some, lookup_insert_is_Some'.
    rewrite Forall_forall in Hanc. intros [[<- <-]|[_ Hr]] Ha; [by auto|].
    destruct (I7 r b' a Hr Ha); auto.
Qed.

(** *** No suspended block is stranded *)

Definition waiters (d : Dag) (a : DagBlockRef) : gset DagBlockRef := default ∅ (waiting_for d !! a).

Definition missing_ancestor (d : Dag) (b : DagBlock) : Prop :=
  ∃ a, a ∈ ancestors b ∧ blocks d !! a = None.

(** Every suspended block is registered with each of its missing ancestors, and
    either misses one or is still to be examined ([pend]). *)
Definition susp_inv (pend : gset DagBlockRef) (d : Dag) : Prop :=
  ∀ r b, suspended d !! r = Some b →
    (∀ a, a ∈ ancestors b → blocks d !! a = None → r ∈ waiters d a)
    ∧ (r ∈ pend ∨ missing_ancestor d b).

(** What insertion leaves alone. *)
Record dag_frame (d d' : Dag) : Prop := {
  frame_blocks r : is_Some (blocks d !! r) → is_Some (blocks d' !! r);
  frame_epoch : dag_epoch d' = dag_epoch d;
  frame_committed : last_committed_round d' = last_committed_round d;
  frame_next : next_epoch_buffer d' = next_epoch_buffer d;
  frame_susp : suspended d' ⊆ suspended d;
}.

#[local] Instance dag_frame_preorder : PreOrder dag_frame.
Proof.
  split; [by split|]. intros d1 d2 d3 [] []. split; [auto|congruence..|by etrans].
Qed.

(** The contract of [try_unsuspend], for stores with less than [n] suspended blocks. *)
Definition unsuspend_spec (n : nat) (rec : Dag → DagBlockRef → option Dag) : Prop :=
  ∀ d r pend, (size (suspended d) < n)%nat → dag_inv d → is_Some (blocks d !! r) →
    susp_inv (waiters d r ∪ pend) d →
    ∃ d', rec d r = Some d' ∧ dag_inv d' ∧ susp_inv pend d' ∧ dag_frame d d'.

(** Taking a suspended block out of the buffer. *)
Definition release (d : Dag) (r : DagBlockRef) (b : DagBlock) : Dag :=
  set_waiting_for (foldl (λ w a, multi_remove a r w) (waiting_for d) (ancestors b))
    (set_suspended (delete r (suspended d)) d).

Lemma release_inv pend d r b :
  dag_inv d → susp_inv ({[r]} ∪ pend) d →
  dag_inv (release d r b) ∧ susp_inv pend (release d r b) ∧ dag_frame d (release d r b).
Proof.
  intros Hd Hs. split_and!.
  - eapply dag_inv_same; [..|exact Hd]; cbn; try done; [apply delete_subseteq|apply Hd].
  - intros r' b'. cbn. rewrite lookup_delete_Some. intros [Hne Hb'].
    destruct (Hs r' b' Hb') as [Hreg Hm]. split.
    + intros a Ha Hn. unfold waiters; cbn. rewrite elem_of_multi_remove_all by done.
      by apply Hreg.
    + destruct Hm as [Hm|Hm]; [left; set_solver|by right].
  - split; cbn; try done. apply delete_subseteq.
Qed.

Lemma accept_susp_inv pend d b :
  susp_inv pend d → susp_inv (waiters d (reference b) ∪ pend) (accept_block d (reference b) b).
Proof.
  intros Hs r' b' Hb'. destruct (Hs r' b' Hb') as [Hreg Hm]. split.
  - intros a Ha Hn. cbn in Hn. apply lookup_insert_None in Hn as [Hn _]. by apply Hreg.
  - destruct Hm as [Hm|(a & Ha & Hn)]; [left; set_solver|].
    destruct (decide (a = reference b)) as [->|Hne]; [left; set_solver|].
    right. exists a. split; [done|]. cbn. by rewrite lookup_insert_ne.
Qed.

Lemma accept_frame d b : dag_frame d (accept_block d (reference b) b).
Proof. split; cbn; try done. intros r Hr. rewrite lookup_insert_is_Some'. auto. Qed.

Lemma forallb_contains d b :
  forallb (contains d) (ancestors b) = true ↔ Forall (λ a, is_Some (blocks d !! a)) (ancestors b).
Proof.
  rewrite forallb_forall, Forall_forall. setoid_rewrite <-list_elem_of_In.
  unfold contains. by setoid_rewrite bool_decide_eq_true.
Qed.

Lemma is_ok_unit {E} (r : result E ()) : is_ok r = true → r = Ok ().
Proof. by destruct r as [[]|]. Qed.

(** The three ways [unsuspend_one] ends without accepting a block. *)
Definition unsuspend_post (pend : gset DagBlockRef) (d : Dag) (o : option Dag) : Prop :=
  ∃ d', o = Some d' ∧ dag_inv d' ∧ susp_inv pend d' ∧ dag_frame d d'.

Lemma unsuspend_keep pend d r :
  dag_inv d → susp_inv ({[r]} ∪ pend) d →
  (∀ b, suspended d !! r = Some b → missing_ancestor d b) → unsuspend_post pend d (Some d).
Proof.
  intros Hd Hs Hm. exists d. split_and!; [done..| |done]. intros r' b' Hb'.
  destruct (Hs r' b' Hb') as [? [[->%elem_of_singleton|?]%elem_of_union|?]]; auto.
Qed.

Lemma unsuspend_reject pend d d1 (b : DagBlock) (existing : option DagBlockRef) (no_equiv : bool) :
  dag_inv d1 → susp_inv pend d1 → dag_frame d d1 →
  unsuspend_post pend d
    (if negb no_equiv then
       match existing with
       | Some e =>
           if negb (ref_digest e =? digest b) then
             Some (set_pending_equivocations (pending_equivocations d1 ++
               [OutcomeEquivocation (blk_author b) (blk_round b) (ref_digest e) (digest b)]) d1)
           else Some d1
       | None => Some d1
       end
     else Some d1).
Proof.
  intros Hd1 Hs1 Hf1.
  assert (∀ p, unsuspend_post pend d (Some (set_pending_equivocations p d1))) as Hp.
  { intros p. eexists; split_and!; [done| |exact Hs1|destruct Hf1; by split].
    eapply dag_inv_same; [..|exact Hd1]; try done. apply Hd1. }
  repeat case_match; try (by apply Hp); exists d1; done.
Qed.

Lemma unsuspend_accept n rec pend d b :
  unsuspend_spec n rec → (size (suspended d) < S n)%nat → dag_inv d →
  suspended d !! reference b = Some b → susp_inv ({[reference b]} ∪ pend) d →
  Forall (λ a, is_Some (blocks d !! a)) (ancestors b) →
  validate_strong_link_quorum b vset = Ok () →
  validate_no_equivocation b (by_slot d !! DagBlock_slot b) = Ok () →
  unsuspend_post pend d
    (rec (accept_block (release d (reference b) b) (reference b) b) (reference b)).
Proof.
  intros Hrec Hn Hd Hb Hs Hall Hq Hne.
  destruct (release_inv pend d (reference b) b Hd Hs) as (Hd1 & Hs1 & Hf1).
  destruct (inv_susp d Hd _ b Hb) as [_ Hv].
  edestruct (Hrec (accept_block (release d (reference b) b) (reference b) b) (reference b) pend)
    as (d' & -> & ? & ? & ?).
  - cbn. pose proof (map_size_delete_Some _ _ (ex_intro _ b Hb)) as Hsz. rewrite Hsz.
    assert (size (suspended d) ≠ 0%nat); [|lia].
    apply (map_size_ne_0_lookup_2 _ (reference b)); eauto.
  - by apply accept_block_inv.
  - cbn. rewrite lookup_insert_eq. eauto.
  - exact (accept_susp_inv pend (release d (reference b) b) b Hs1).
  - exists d'. split_and!; [done..|]. etrans; [exact Hf1|]. etrans; [apply accept_frame|done].
Qed.

Lemma unsuspend_one_spec n rec d r pend :
  unsuspend_spec n rec → (size (suspended d) < S n)%nat → dag_inv d →
  susp_inv ({[r]} ∪ pend) d → unsuspend_post pend d (unsuspend_one rec vset d r).
Proof.
  intros Hrec Hn Hd Hs. unfold unsuspend_one.
  destruct (suspended d !! r) as [b|] eqn:Hb; cbn [negb];
    [|apply (unsuspend_keep pend d r); [done..|]; congruence].
  destruct (inv_susp d Hd r b Hb) as [<- _].
  destruct (forallb (contains d) (ancestors b)) eqn:Hall; cbn [negb].
  2:{ apply (unsuspend_keep pend d (reference b)); [done..|]. rewrite Hb. intros ? [= <-].
      rewrite <-not_true_iff_false, forallb_contains in Hall.
      apply not_Forall_Exists, Exists_exists in Hall as (a & Ha & HF); [|apply _].
      exists a. split; [done|]. by apply eq_None_not_Some. }
  destruct (release_inv pend d (reference b) b Hd Hs) as (Hd1 & Hs1 & Hf1).
  fold (release d (reference b) b).
  destruct (_ && _) eqn:Hok; [|by apply unsuspend_reject].
  apply andb_true_iff in Hok as [Hq%is_ok_unit Hne%is_ok_unit].
  apply (unsuspend_accept n); try done. by apply forallb_contains.
Qed.

Lemma unsuspend_loop_spec n rec l d pend :
  unsuspend_spec n rec → (size (suspended d) < S n)%nat → dag_inv d →
  susp_inv (list_to_set l ∪ pend) d →
  unsuspend_post pend d (opt_fold (unsuspend_one rec vset) d l).
Proof.
  intros Hrec. revert d; induction l as [|r l IH]; intros d Hn Hd Hs; cbn in *.
  - exists d. rewrite (left_id_L ∅ (∪)) in Hs. by split_and!.
  - destruct (unsuspend_one_spec n rec d r (list_to_set l ∪ pend)) as (d1 & -> & Hd1 & Hs1 & Hf1);
      [done..|by rewrite (assoc_L (∪))|]. cbn.
    destruct (IH d1) as (d' & Hd' & ? & ? & ?); [|done..|].
    + eapply Nat.le_lt_trans; [|exact Hn]. apply map_subseteq_size, Hf1.
    + exists d'. split_and!; [done..|]. by etrans.
Qed.

(** [try_unsuspend] keeps the store's invariant, leaves no block behind, and
    needs no more fuel than there are suspended blocks, plus one. *)
Lemma try_unsuspend_spec n : unsuspend_spec n (try_unsuspend n vset).
Proof.
  induction n as [|n IH]; intros d r pend Hn Hd Hr Hs; [lia|].
  cbn [try_unsuspend]. unfold waiters in Hs.
  destruct (waiting_for d !! r) as [w|] eqn:Hw; cbn in Hs;
    [|rewrite (left_id_L ∅ (∪)) in Hs; by exists d].
  destruct (unsuspend_loop_spec n _ (bset_iter w)
    (set_waiting_for (delete r (waiting_for d)) d) pend IH) as (d' & -> & ? & ? & Hf); [done|..].
  - eapply dag_inv_same; [..|exact Hd]; try done. apply Hd.
  - replace (list_to_set (bset_iter w) : gset _) with w
      by (apply set_eq; intros; by rewrite elem_of_list_to_set, elem_of_bset_iter).
    intros r' b' Hb'. destruct (Hs r' b' Hb') as [Hreg Hm]. split; [|exact Hm].
    intros a Ha Hna. unfold waiters; cbn. rewrite lookup_delete_ne; [by apply Hreg|].
    intros ->. destruct Hr; cbn in Hna; congruence.
  - exists d'. destruct Hf. by split_and!.
Qed.

(** *** Insertion *)

Definition store_ok (d : Dag) : Prop := dag_inv d ∧ susp_inv ∅ d.

Lemma store_ok_new epoch : store_ok (Dag_new epoch).
Proof. split; [apply dag_inv_new|]. intros r b. cbn. by rewrite lookup_empty. Qed.

Lemma susp_inv_same pend d d' :
  blocks d' = blocks d → suspended d' = suspended d → waiting_for d' = waiting_for d →
  susp_inv pend d → susp_inv pend d'.
Proof.
  unfold susp_inv, missing_ancestor, waiters. by intros -> -> ->.
Qed.

Lemma buffer_next_ok d b :
  store_ok d → (size (next_epoch_buffer d) < MAX_NEXT_EPOCH_BUFFER)%nat →
  store_ok (set_next_epoch_buffer (<[reference b := b]> (next_epoch_buffer d)) d).
Proof.
  intros [Hd Hs] Hn. split; [|exact Hs]. eapply dag_inv_same; [..|exact Hd]; try done. cbn.
  rewrite map_size_insert. case_match; cbn; lia.
Qed.

(** Parking a valid block whose ancestors are not all present. *)
Definition suspend (d : Dag) (b : DagBlock) : Dag :=
  set_suspended (<[reference b := b]> (suspended d))
    (set_waiting_for (foldl (λ w m, multi_insert m (reference b) w) (waiting_for d)
      (collect_missing_ancestors b (contains d))) d).

Lemma elem_of_missing d b a :
  a ∈ collect_missing_ancestors b (contains d) ↔ a ∈ ancestors b ∧ blocks d !! a = None.
Proof.
  unfold collect_missing_ancestors, contains. rewrite list_elem_of_filter, Is_true_true.
  rewrite negb_true_iff, bool_decide_eq_false, <-eq_None_not_Some. tauto.
Qed.

Lemma suspend_ok d b :
  store_ok d → block_valid b → (size (suspended d) < MAX_SUSPENDED)%nat →
  collect_missing_ancestors b (contains d) ≠ [] → store_ok (suspend d b).
Proof.
  intros [Hd Hs] Hv Hsz Hm. split.
  - destruct Hd as [I1 I2 I3 I4 I5 I6 I7 I8 I9]. split; cbn; try done.
    + intros r b'. rewrite lookup_insert_Some. intros [[<- <-]|[_ ?]]; eauto.
    + rewrite map_size_insert. case_match; cbn; lia.
  - intros r b'. cbn. rewrite lookup_insert_Some. intros Hr.
    assert (∀ a, r ∈ waiters (suspend d b) a ↔
      (a ∈ collect_missing_ancestors b (contains d) ∧ reference b = r) ∨ r ∈ waiters d a) as Hw
      by (intros a; apply elem_of_multi_insert_all).
    destruct Hr as [[<- <-]|[Hne Hb']].
    + split.
      * intros a Ha Hn. apply Hw. left. split; [|done]. by apply elem_of_missing.
      * right. destruct (collect_missing_ancestors b (contains d)) as [|a l] eqn:E; [done|].
        exists a. apply (elem_of_missing d b a). rewrite E. by left.
    + destruct (Hs r b' Hb') as [Hreg Hmi]. split; [|exact Hmi].
      intros a Ha Hn. apply Hw. right. by apply Hreg.
Qed.

Lemma missing_nil d b :
  collect_missing_ancestors b (contains d) = [] →
  Forall (λ a, is_Some (blocks d !! a)) (ancestors b).
Proof.
  intros Hm. apply Forall_forall. intros a Ha. destruct (blocks d !! a) eqn:E; [eauto|].
  assert (a ∈ collect_missing_ancestors b (contains d)) as Hin by (by apply elem_of_missing).
  rewrite Hm in Hin. set_solver.
Qed.

Lemma accept_cascade_ok d b :
  store_ok d → block_valid b → validate_strong_link_quorum b vset = Ok () →
  collect_missing_ancestors b (contains d) = [] →
  validate_no_equivocation b (by_slot d !! DagBlock_slot b) = Ok () →
  let d1 := accept_block d (reference b) b in
  ∃ d', try_unsuspend (unsuspend_fuel d1) vset d1 (reference b) = Some d'
    ∧ store_ok d' ∧ dag_frame d1 d'.
Proof.
  intros [Hd Hs] Hv Hq Hm%missing_nil Hne d1.
  destruct (try_unsuspend_spec (unsuspend_fuel d1) d1 (reference b) ∅) as (d' & ? & ? & ? & ?).
  - unfold unsuspend_fuel. lia.
  - by apply accept_block_inv.
  - cbn. rewrite lookup_insert_eq. eauto.
  - exact (accept_susp_inv ∅ d b Hs).
  - exists d'. by split_and!.
Qed.

Lemma validate_author_ok b sig_ok :
  validate_author_and_signature b vset sig_ok = Ok () →
  is_Some (members vset !! blk_author b) ∧ sig_ok = true.
Proof.
  unfold validate_author_and_signature. intros H.
  case_bool_decide; cbn in H; [|done]. by destruct sig_ok.
Qed.

Lemma Dag_insert_ok d b sig_ok d' out :
  store_ok d → Dag_insert blake3 d b vset sig_ok = Ok (d', out) →
  store_ok d' ∧ (∀ r, is_Some (blocks d !! r) → is_Some (blocks d' !! r))
  ∧ dag_epoch d' = dag_epoch d ∧ last_committed_round d' = last_committed_round d.
Proof.
  intros Hok. unfold Dag_insert.
  assert (store_ok d ∧ (∀ r, is_Some (blocks d !! r) → is_Some (blocks d !! r))
    ∧ dag_epoch d = dag_epoch d ∧ last_committed_round d = last_committed_round d) as Hsame by done.
  destruct (contains d _) eqn:Hc; [intros [= <- <-]; exact Hsame|].
  destruct (dag_epoch d <? blk_epoch b).
  { destruct (blk_epoch b =? _); [|done]. case_decide; intros [= <- <-]; [|exact Hsame].
    split; [by apply buffer_next_ok|done]. }
  destruct (blk_epoch b <? dag_epoch d); [done|].
  intros ([] & Hdig & ([] & Hauth & ([] & Hgc & H)%bind_Ok)%bind_Ok)%bind_Ok.
  assert (block_valid b) as Hv.
  { split; [|by apply validate_author_ok in Hauth as [? _]].
    unfold validate_digest_integrity in Hdig. by destruct (verify_digest blake3 b). }
  case_bool_decide as Hm; cbn [negb] in H.
  - apply bind_Ok in H as ([] & Hq & H).
    destruct (validate_no_equivocation _ _) as [[]|e] eqn:Hne;
      [|destruct e; try done; injection H as <- <-; exact Hsame].
    destruct (accept_cascade_ok d b Hok Hv Hq Hm Hne) as (d2 & Ht & Hd2 & Hf).
    rewrite Ht in H. injection H as <- <-. split; [done|].
    pose proof (accept_frame d b) as Hf0. assert (dag_frame d d2) as [] by (by etrans). done.
  - case_decide; injection H as <- <-; [|exact Hsame]. split; [by apply suspend_ok|done].
Qed.

(** *** Garbage collection *)

Lemma elem_of_gc_refs d r :
  dag_inv d → r ∈ gc_refs d ↔ is_Some (blocks d !! r) ∧ ref_round r <= gc_round d.
Proof.
  intros Hd. unfold gc_refs. rewrite elem_of_union_list. split.
  - intros (X & HX & Hr). apply list_elem_of_fmap in HX as ([n Y] & -> & HY).
    apply elem_of_map_to_list, map_lookup_filter_Some in HY as [HY Hn]; cbn in *.
    assert (r ∈ default ∅ (by_round d !! n)) as [? <-]%(inv_round d Hd) by (by rewrite HY). done.
  - intros [Hb Hr]. assert (r ∈ default ∅ (by_round d !! ref_round r)) as Hin
      by (by apply (inv_round d Hd)).
    destruct (by_round d !! ref_round r) as [X|] eqn:HX; cbn in Hin; [|set_solver].
    exists X. split; [|done]. apply list_elem_of_fmap. exists (ref_round r, X). split; [done|].
    by apply elem_of_map_to_list, map_lookup_filter_Some.
Qed.

Lemma gc_blocks_lookup d r b :
  dag_inv d → gc_blocks d !! r = Some b ↔ blocks d !! r = Some b ∧ gc_round d < ref_round r.
Proof.
  intros Hd. unfold gc_blocks. rewrite map_lookup_filter_Some; cbn. rewrite elem_of_gc_refs by done.
  split; intros [Hb Hr]; (split; [done|]).
  - apply N.nle_gt. intros Hle. apply Hr. eauto.
  - intros [_ ?]. lia.
Qed.

Lemma gc_blocks_is_Some d r :
  dag_inv d → is_Some (gc_blocks d !! r) ↔ is_Some (blocks d !! r) ∧ gc_round d < ref_round r.
Proof.
  intros Hd. unfold is_Some. setoid_rewrite gc_blocks_lookup; [|done]. naive_solver.
Qed.

Lemma gc_waiting_keep d r a :
  suspended_to_drop d !! r = None → r ∈ default ∅ (gc_waiting d !! a) ↔ r ∈ waiters d a.
Proof.
  intros Hr. unfold gc_waiting, waiters.
  assert (∀ kv, kv ∈ bmap_iter (suspended_to_drop d) → kv.1 ≠ r) as Hne.
  { intros [k v] Hin%elem_of_bmap_iter; cbn. congruence. }
  generalize (waiting_for d). induction (bmap_iter (suspended_to_drop d)) as [|[k v] l IH]; intros w; [done|].
  cbn [foldl]. rewrite IH by (intros; apply Hne; by right).
  rewrite elem_of_multi_remove_all; [done|]. intros ->. by apply (Hne (k, v)); [left|].
Qed.

Lemma collect_garbage_inv d : dag_inv d → dag_inv (collect_garbage d).
Proof.
  intros Hd. pose proof (gc_blocks_is_Some d) as Hg. pose proof Hd as [I1 I2 I3 I4 I5 I6 I7 I8 I9].
  split; cbn.
  - intros r b. rewrite gc_blocks_lookup by done. intros [? _]; eauto.
  - intros s r. rewrite map_lookup_filter_Some, Hg, I2 by done; cbn.
    rewrite elem_of_map. setoid_rewrite elem_of_gc_refs; [|done]. split.
    + intros [[Hb <-] Hn]. split_and!; [done| |done].
      apply N.nle_gt. intros Hle. apply Hn. eauto.
    + intros [[Hb Hlt] <-]. split_and!; [done..|]. intros (r' & Hs & Hb' & Hle).
      assert (r' = r) as ->; [|lia].
      assert (by_slot d !! DagBlockRef_slot r = Some r') by (by apply I2).
      assert (by_slot d !! DagBlockRef_slot r = Some r) by (by apply I2). congruence.
  - intros n r. rewrite Hg by done. rewrite map_lookup_filter.
    specialize (I3 n r). destruct (by_round d !! n) as [X|] eqn:HX; cbn in *.
    + case_guard as Hn; cbn; [rewrite I3; split; intros; destruct_and!; subst; split_and!; try done; lia|].
      split; [set_solver|]. intros [[? ?] <-]. lia.
    + split; [set_solver|]. intros [[? ?] ?]. by apply I3.
  - intros n X. rewrite map_lookup_filter_Some. intros [? _]. eauto.
  - intros r b. rewrite map_lookup_filter_Some. intros [? _]. eauto.
  - intros r b. rewrite gc_blocks_lookup by done. intros [? _]. eauto.
  - intros r b a. rewrite gc_blocks_lookup, Hg by done. intros [Hb _] Ha.
    change (gc_round (collect_garbage d)) with (gc_round d).
    destruct (I7 r b a Hb Ha); [|by right].
    destruct (N.le_gt_cases (ref_round a) (gc_round d)); [by right|by left].
  - etrans; [apply map_subseteq_size, map_filter_subseteq|done].
  - done.
Qed.

Lemma collect_garbage_susp d : store_ok d → susp_inv ∅ (collect_garbage d).
Proof.
  intros [Hd Hs] r b. cbn. rewrite map_lookup_filter_Some; cbn. intros [Hb Hnd].
  destruct (Hs r b Hb) as [Hreg Hm].
  assert (¬ (ref_round r <= gc_round d
    ∨ Exists (λ a, ref_round a <= gc_round d ∧ gc_blocks d !! a = None) (ancestors b))) as Hkeep.
  { intros Hdrop. unfold suspended_to_drop in Hnd.
    apply map_lookup_filter_None in Hnd as [?|Hnd]; [congruence|]. by apply (Hnd b). }
  assert (∀ a, a ∈ ancestors b → gc_blocks d !! a = None → gc_round d < ref_round a ∧ blocks d !! a = None) as Hmiss.
  { intros a Ha Hn. assert (gc_round d < ref_round a) as Hlt.
    { apply N.nle_gt. intros Hle. apply Hkeep. right. apply Exists_exists. by exists a. }
    split; [done|]. apply eq_None_not_Some. intros Hsome.
    assert (is_Some (gc_blocks d !! a)) as [? ?] by (by apply gc_blocks_is_Some). congruence. }
  split.
  - intros a Ha Hn. destruct (Hmiss a Ha Hn) as [Hlt Hn'].
    specialize (Hreg a Ha Hn'). apply (gc_waiting_keep d r a Hnd) in Hreg.
    unfold waiters; cbn. rewrite map_lookup_filter.
    destruct (gc_waiting d !! a) as [X|]; cbn in *; [|set_solver].
    rewrite option_guard_True; [done|]. split; [done|set_solver].
  - right. destruct Hm as [?|(a & Ha & Hn)]; [set_solver|]. exists a. split; [done|].
    apply eq_None_not_Some. intros [Hs' _]%gc_blocks_is_Some; [|done]. destruct Hs'; congruence.
Qed.

Lemma set_last_committed_round_ok d round : store_ok d → store_ok (set_last_committed_round d round).
Proof.
  intros Hok. unfold set_last_committed_round. destruct (N.leb_spec round (last_committed_round d)); [done|].
  set (d0 := Build_Dag _ _ _ _ _ _ _ _ _).
  assert (store_ok d0) as Hok0.
  { destruct Hok as [[I1 I2 I3 I4 I5 I6 I7 I8 I9] Hs]. split; [|exact Hs]. split; try done.
    intros r b a Hb Ha. destruct (I7 r b a Hb Ha); [by left|right].
    unfold gc_round, saturating_sub in *; cbn. lia. }
  split; [apply collect_garbage_inv, Hok0|by apply collect_garbage_susp].
Qed.

(** *** Every store the operations can produce *)

Inductive dag_step : Dag → Dag → Prop :=
  | step_insert d b sig_ok d' out :
      Dag_insert blake3 d b vset sig_ok = Ok (d', out) → dag_step d d'
  | step_commit d round : dag_step d (set_last_committed_round d round)
  | step_drain d : dag_step d (drain_equivocations d).1.

Lemma dag_step_ok d d' : dag_step d d' → store_ok d → store_ok d'.
Proof.
  destruct 1 as [d b sig d' out H|d round|d]; intros Hok.
  - by eapply Dag_insert_ok.
  - by apply set_last_committed_round_ok.
  - destruct Hok as [Hd Hs]. split; [|exact Hs]. eapply dag_inv_same; [..|exact Hd]; try done. apply Hd.
Qed.

Definition dag_reachable (epoch : N) (d : Dag) : Prop := rtc dag_step (Dag_new epoch) d.

Lemma dag_reachable_ok epoch d : dag_reachable epoch d → store_ok d.
Proof.
  intros Hr. assert (∀ d1, rtc dag_step d1 d → store_ok d1 → store_ok d) as Hgen.
  { induction 1; [done|]. eauto using dag_step_ok. }
  apply (Hgen _ Hr), store_ok_new.
Qed.
End invariant.

(** ** Termination of the cascade, on any store *)

Lemma unsuspend_one_total rec vset n d r :
  (∀ d r, (size (suspended d) < n)%nat → ∃ d', rec d r = Some d' ∧ suspended d' ⊆ suspended d) →
  (size (suspended d) < S n)%nat →
  ∃ d', unsuspend_one rec vset d r = Some d' ∧ suspended d' ⊆ suspended d.
Proof.
  intros Hrec Hn. unfold unsuspend_one. destruct (suspended d !! r) as [b|] eqn:Hb; cbn [negb]; [|by eauto].
  destruct (forallb _ _); cbn [negb]; [|by eauto].
  assert (delete r (suspended d) ⊆ suspended d) by apply delete_subseteq.
  fold (release d r b). destruct (_ && _).
  - edestruct (Hrec (accept_block (release d r b) r b) r) as (d' & -> & Hd').
    + cbn. rewrite (map_size_delete_Some _ _ (ex_intro _ b Hb)).
      pose proof (map_size_ne_0_lookup_2 (suspended d) r (ex_intro _ b Hb)). lia.
    + exists d'. split; [done|]. by etrans.
  - repeat case_match; by eauto.
Qed.

Lemma try_unsuspend_total n vset d r :
  (size (suspended d) < n)%nat →
  ∃ d', try_unsuspend n vset d r = Some d' ∧ suspended d' ⊆ suspended d.
Proof.
  revert d r; induction n as [|n IH]; intros d r Hn; [lia|]. cbn [try_unsuspend].
  destruct (waiting_for d !! r) as [w|]; [|by eauto].
  set (d0 := set_waiting_for _ d). assert (size (suspended d0) < S n)%nat as Hn0 by done.
  change (suspended d) with (suspended d0). clearbody d0. clear Hn.
  revert d0 Hn0; induction (bset_iter w) as [|x l IHl]; intros d0 Hn0; cbn; [by eauto|].
  destruct (unsuspend_one_total (try_unsuspend n vset) vset n d0 x IH Hn0) as (d1 & -> & H1); cbn.
  destruct (IHl d1) as (d' & -> & H2).
  - eapply Nat.le_lt_trans; [|exact Hn0]. by apply map_subseteq_size.
  - exists d'. split; [done|]. by etrans.
Qed.

Lemma opt_fold_mono {A B} (f g : A → B → option A) a l a' :
  (∀ a x a', f a x = Some a' → g a x = Some a') → opt_fold f a l = Some a' → opt_fold g a l = Some a'.
Proof.
  intros Hfg. revert a; induction l as [|x l IH]; intros a; cbn; [done|].
  intros (a1 & H1 & H2)%bind_Some. rewrite (Hfg _ _ _ H1); cbn. by apply IH.
Qed.

Lemma try_unsuspend_mono n vset d r d' :
  try_unsuspend n vset d r = Some d' → try_unsuspend (S n) vset d r = Some d'.
Proof.
  revert d r d'; induction n as [|n IH]; intros d r d'; [done|].
  cbn [try_unsuspend]. destruct (waiting_for d !! r); [|done].
  apply opt_fold_mono. clear d r d'. intros d r d'. unfold unsuspend_one.
  destruct (suspended d !! r) as [b|]; [|done].
  destruct (forallb _ _); cbn [negb]; [|done].
  destruct (_ && _); [|done]. apply IH.
Qed.

(** ** A block that passes every rule but the slot check *)

Lemma all_present_no_missing d b :
  Forall (λ a, is_Some (blocks d !! a)) (ancestors b) →
  collect_missing_ancestors b (contains d) = [].
Proof.
  intros Hanc. destruct (collect_missing_ancestors b (contains d)) as [|a l] eqn:E; [done|].
  assert (a ∈ collect_missing_ancestors b (contains d)) as [Ha Hn]%elem_of_missing by (rewrite E; left).
  rewrite Forall_forall in Hanc. destruct (Hanc a Ha); congruence.
Qed.

Lemma Dag_insert_validated blake3 vset d b :
  blocks d !! reference b = None → blk_epoch b = dag_epoch d →
  verify_digest blake3 b = true → is_Some (members vset !! blk_author b) →
  (blk_round b = 0 ∨ gc_round d < blk_round b) →
  Forall (λ a, is_Some (blocks d !! a)) (ancestors b) →
  validate_strong_link_quorum b vset = Ok () →
  Dag_insert blake3 d b vset true =
    match validate_no_equivocation b (by_slot d !! DagBlock_slot b) with
    | Ok _ =>
        let d1 := accept_block d (reference b) b in
        Ok (default d1 (try_unsuspend (unsuspend_fuel d1) vset d1 (reference b)), Accepted)
    | Err (Equivocation author round first second) =>
        Ok (d, OutcomeEquivocation author round first second)
    | Err e => Err e
    end.
Proof.
  intros Hnew He Hdig Hmem Hgc Hanc Hq. unfold Dag_insert, contains at 1.
  rewrite Hnew, He, !N.ltb_irrefl.
  unfold validate_digest_integrity, validate_author_and_signature, validate_gc_boundary.
  rewrite Hdig, (bool_decide_eq_true_2 _ Hmem).
  replace ((blk_round b =? 0) || (gc_round d <? blk_round b)) with true
    by (symmetry; apply orb_true_iff; rewrite N.eqb_eq, N.ltb_lt; done).
  cbv zeta. cbn [bool_decide is_Some_None mbind result_bind negb].
  rewrite (bool_decide_eq_false_2 (is_Some None)) by (by intros [? ?]).
  cbn [mbind result_bind negb].
  rewrite (bool_decide_eq_true_2 _ (all_present_no_missing d b Hanc)), Hq. done.
Qed.

(** ** Theorems *)

(** C5. Every DAG store reachable from an empty one by insertions, commit-round
    advances and equivocation drains keeps at most one block per slot; holds
    only blocks under their own reference whose digest verifies, whose author
    is in the committee and which pass the strong-link quorum rule; is causally
    complete down to the garbage-collection round; stays within its buffer
    bounds; and leaves no suspended block stranded: each one misses an ancestor
    and is registered as a waiter of every ancestor it misses. *)
Theorem dag_store_invariant blake3 vset epoch d :
  dag_reachable blake3 vset epoch d →
  (∀ r1 r2, is_Some (blocks d !! r1) → is_Some (blocks d !! r2) →
     DagBlockRef_slot r1 = DagBlockRef_slot r2 → r1 = r2) ∧
  (∀ r b, blocks d !! r = Some b → reference b = r ∧ verify_digest blake3 b = true
     ∧ is_Some (members vset !! blk_author b) ∧ validate_strong_link_quorum b vset = Ok ()) ∧
  (∀ r b a, blocks d !! r = Some b → a ∈ ancestors b →
     is_Some (blocks d !! a) ∨ ref_round a <= gc_round d) ∧
  (size (suspended d) <= MAX_SUSPENDED)%nat ∧
  (size (next_epoch_buffer d) <= MAX_NEXT_EPOCH_BUFFER)%nat ∧
  (∀ r b, suspended d !! r = Some b →
     (∃ a, a ∈ ancestors b ∧ blocks d !! a = None) ∧
     (∀ a, a ∈ ancestors b → blocks d !! a = None → r ∈ default ∅ (waiting_for d !! a))).
Proof.
  intros [Hd Hs]%dag_reachable_ok. split_and!; try apply Hd.
  - intros r1 r2 H1 H2 He. assert (by_slot d !! DagBlockRef_slot r2 = Some r1) by (by eapply inv_slot).
    assert (by_slot d !! DagBlockRef_slot r2 = Some r2) by (by eapply inv_slot). congruence.
  - intros r b Hb. destruct (inv_valid _ _ _ Hd r b Hb) as [[? ?] ?].
    split_and!; [by eapply inv_ref|done..].
  - intros r b Hb. destruct (Hs r b Hb) as [Hreg [?|?]]; [set_solver|]. done.
Qed.

(** The cascade of [try_unsuspend] terminates on every store: one more unit
    of fuel than there are suspended blocks always suffices, any larger amount
    gives the same result, and the buffer only shrinks. *)
Theorem try_unsuspend_terminates vset d r k :
  ∃ d', try_unsuspend (unsuspend_fuel d) vset d r = Some d'
    ∧ try_unsuspend (k + unsuspend_fuel d) vset d r = Some d'
    ∧ suspended d' ⊆ suspended d.
Proof.
  destruct (try_unsuspend_total (unsuspend_fuel d) vset d r) as (d' & H & Hs);
    [unfold unsuspend_fuel; lia|].
  exists d'. split_and!; [done| |done].
  induction k as [|k IH]; [done|]. by apply try_unsuspend_mono.
Qed.

(** [Dag::insert] accepts: a current-epoch block not yet stored, with a
    matching digest, a committee author, a verified signature, a round above
    the garbage-collection boundary (or zero), all ancestors present, a
    strong-link quorum and a free slot is stored under its reference and owns
    its slot afterwards, and everything stored before is still stored. *)
Theorem insert_accepts blake3 vset d b :
  store_ok blake3 vset d →
  blocks d !! reference b = None → blk_epoch b = dag_epoch d →
  verify_digest blake3 b = true → is_Some (members vset !! blk_author b) →
  (blk_round b = 0 ∨ gc_round d < blk_round b) →
  Forall (λ a, is_Some (blocks d !! a)) (ancestors b) →
  validate_strong_link_quorum b vset = Ok () →
  by_slot d !! DagBlock_slot b = None →
  ∃ d', Dag_insert blake3 d b vset true = Ok (d', Accepted)
    ∧ is_Some (blocks d' !! reference b) ∧ block_at_slot d' (DagBlock_slot b) = Some (reference b)
    ∧ ∀ r, is_Some (blocks d !! r) → is_Some (blocks d' !! r).
Proof.
  intros Hok Hnew He Hdig Hmem Hgc Hanc Hq Hslot.
  pose proof (all_present_no_missing d b Hanc) as Hm.
  assert (validate_no_equivocation b (by_slot d !! DagBlock_slot b) = Ok ()) as Hne by (by rewrite Hslot).
  destruct (accept_cascade_ok blake3 vset d b Hok (conj Hdig Hmem) Hq Hm Hne) as (d' & Ht & Hd' & Hf).
  assert (is_Some (blocks d' !! reference b)) as Hb
    by (apply Hf; cbn; rewrite lookup_insert_eq; eauto).
  exists d'. rewrite Dag_insert_validated, Hne by done. cbv zeta. rewrite Ht. split_and!; [done..| |].
  - eapply inv_slot; [apply Hd'|]. split; [done|apply reference_slot].
  - intros r Hr. apply Hf. cbn. rewrite lookup_insert_is_Some'. auto.
Qed.

(** First-seen wins: in every reachable store, a valid, causally complete
    block for a slot that another digest already owns is reported as an
    equivocation naming both digests, and the store does not change. *)
Theorem insert_reports_equivocation blake3 vset epoch d b r :
  dag_reachable blake3 vset epoch d →
  blk_epoch b = dag_epoch d → verify_digest blake3 b = true →
  is_Some (members vset !! blk_author b) → (blk_round b = 0 ∨ gc_round d < blk_round b) →
  Forall (λ a, is_Some (blocks d !! a)) (ancestors b) →
  validate_strong_link_quorum b vset = Ok () →
  is_Some (blocks d !! r) → DagBlockRef_slot r = DagBlock_slot b → ref_digest r ≠ digest b →
  Dag_insert blake3 d b vset true =
    Ok (d, OutcomeEquivocation (blk_author b) (blk_round b) (ref_digest r) (digest b)).
Proof.
  intros [Hd _]%dag_reachable_ok He Hdig Hmem Hgc Hanc Hq Hr Hs Hne.
  assert (by_slot d !! DagBlock_slot b = Some r) as Hslot by (by eapply inv_slot).
  assert (blocks d !! reference b = None) as Hnew.
  { apply eq_None_not_Some. intros Hsome. apply Hne.
    assert (by_slot d !! DagBlock_slot b = Some (reference b))
      by (eapply inv_slot; [done|split; [done|apply reference_slot]]).
    by assert (r = reference b) as -> by congruence. }
  rewrite Dag_insert_validated, Hslot by done. cbn. by rewrite (proj2 (N.eqb_neq _ _) Hne).
Qed.

(** Advancing the committed round drops exactly the blocks at or below the
    new boundary [round - GC_DEPTH] and nothing else, never moves the boundary
    back, and keeps the store's invariant. *)
Theorem set_last_committed_round_drops_exactly blake3 vset d round r :
  store_ok blake3 vset d → last_committed_round d < round →
  let d' := set_last_committed_round d round in
  store_ok blake3 vset d' ∧ gc_round d <= gc_round d' ∧ gc_round d' = round - GC_DEPTH ∧
  blocks d' !! r = if decide (gc_round d' < ref_round r) then blocks d !! r else None.
Proof.
  intros Hok Hlt d'. assert (store_ok blake3 vset d') as Hok' by (by apply set_last_committed_round_ok).
  unfold d' in *. unfold set_last_committed_round in *.
  rewrite (proj2 (N.leb_gt _ _) Hlt) in *. set (d0 := Build_Dag _ _ _ _ _ _ _ _ _) in *.
  split_and!; [done|unfold gc_round, saturating_sub; cbn; lia|done|].
  assert (dag_inv blake3 vset d0) as Hd0.
  { destruct Hok as [[I1 I2 I3 I4 I5 I6 I7 I8 I9] _]. split; try done.
    intros r' b a Hb Ha. destruct (I7 r' b a Hb Ha); [by left|right].
    unfold gc_round, saturating_sub in *; cbn. lia. }
  change (gc_round (collect_garbage d0)) with (gc_round d0). cbn.
  apply option_eq. intros b. rewrite gc_blocks_lookup by done. cbn. case_decide; naive_solver.
Qed.
