(* ===== verification/Scenario.v ===== *)
(** * A concrete committee and DAG

    Four validators with equal stake, a concrete hash function in place of
    BLAKE3 and blocks built on them.  The theorems of the other files are
    applied here and there to these data, and [CommitFork] runs the commit rule
    on two of its views. *)
From S2P Require Import Prelude CoreTypes StakeAgg DagBlock DagGraph.

(** A polynomial hash of 48 bits. *)
Definition test_hash (l : list N) : Hash :=
  foldl (λ h x, N.land (h * 37 + x + 1) 281474976710655) 7 l.

Definition test_key : ConsensusKey := {| classical := []; quantum := [] |}.
Definition test_member : Member := {| member_consensus_pubkey := test_key; power := 1 |}.

(** Addresses 1 to 4, one unit of stake each. *)
Definition vset4 : ValidatorSet :=
  {| vs_epoch := 0;
     members := list_to_map ((λ a, (a, test_member)) <$> [1; 2; 3; 4]);
     total_power := 4 |}.

Lemma vset4_wf : vset_wf vset4.
Proof. split; vm_compute; done. Qed.

Definition mk_block (round : N) (author : Address) (parents : list DagBlock) : DagBlock :=
  DagBlock_new test_hash
    {| body_epoch := 0; body_round := round; body_author := author;
       body_timestamp_ms := 1000 * round + author; body_ancestors := reference <$> parents;
       body_payload := []; body_commit_votes := [] |} Unsigned.

(** All four validators build on [parents]. *)
Definition full_round (round : N) (parents : list DagBlock) : list DagBlock :=
  (λ a, mk_block round a parents) <$> [1; 2; 3; 4].

Definition round0 : list DagBlock := Eval vm_compute in full_round 0 [].
Definition round1 : list DagBlock := Eval vm_compute in full_round 1 round0.
Definition round2 : list DagBlock := Eval vm_compute in full_round 2 round1.
Definition round3 : list DagBlock := Eval vm_compute in full_round 3 round2.

(** Feeding blocks, all with verified signatures, to a store. *)
Definition insert_all (blake3 : list N → Hash) (vset : ValidatorSet) : Dag → list DagBlock → result ConsensusError Dag :=
  try_fold (λ d b, '(d', _) ← Dag_insert blake3 d b vset true; Ok d').

Lemma insert_all_steps blake3 vset l d d' :
  insert_all blake3 vset d l = Ok d' → rtc (dag_step blake3 vset) d d'.
Proof.
  unfold insert_all. revert d; induction l as [|b l IH]; intros d; cbn [try_fold].
  - intros [= <-]. done.
  - intros (d1 & ([d2 out] & Hi & [= <-])%bind_Ok & Hl)%bind_Ok.
    eapply rtc_l; [by eapply step_insert|]. by apply IH.
Qed.

(** The store after feeding blocks to an empty one (the empty store on an error). *)
Definition store_of (l : list DagBlock) : Dag :=
  match insert_all test_hash vset4 (Dag_new 0) l with Ok d => d | Err _ => Dag_new 0 end.

Lemma store_of_reachable l : dag_reachable test_hash vset4 0 (store_of l).
Proof.
  unfold store_of. destruct (insert_all _ _ _ _) as [d|] eqn:E; [|constructor].
  by apply insert_all_steps in E.
Qed.
