(* ===== verification/ThresholdClock.v ===== *)
(** * The round clock ([crates/lemma-consensus/src/dag/threshold_clock.rs])

    A validator's local round advances when blocks of a [2f+1] stake quorum of
    distinct authors have been seen at the current round. *)
From S2P Require Import Prelude CoreTypes StakeAgg DagBlock.

Record ThresholdClock := {
  clock_round : N;
  stake_at_round : StakeAggregator;
}.

Definition ThresholdClock_new (total : Amount) : ThresholdClock :=
  {| clock_round := 0; stake_at_round := StakeAggregator_quorum total |}.

Definition ThresholdClock_at_round (round : N) (total : Amount) : ThresholdClock :=
  {| clock_round := round; stake_at_round := StakeAggregator_quorum total |}.

(** Returns the updated clock with the answer; [Err] leaves the clock as it was. *)
Definition add_block (self : ThresholdClock) (b : DagBlock) (vset : ValidatorSet)
    : result ConsensusError (ThresholdClock * option N) :=
  if negb (blk_round b =? clock_round self) then Ok (self, None) else
  match members vset !! blk_author b with
  | None => Ok (self, None)
  | Some member =>
      '(agg, r) ← StakeAggregator_add (stake_at_round self) (blk_author b) (power member);
      if (r : bool) then
        let round' := wrapping_add64 (clock_round self) 1 in
        Ok ({| clock_round := round'; stake_at_round := StakeAggregator_clear agg |}, Some round')
      else Ok ({| clock_round := clock_round self; stake_at_round := agg |}, None)
  end.

(** Presenting a sequence of blocks. *)
Definition run_clock (vset : ValidatorSet) : ThresholdClock → list DagBlock → result ConsensusError ThresholdClock :=
  try_fold (λ c b, '(c', _) ← add_block c b vset; Ok c').

(** ** Proofs *)

(** Authors of the blocks of one round. *)
Definition authors_at (l : list DagBlock) (round : N) : list Address :=
  blk_author <$> filter (λ b, blk_round b = round) l.

Lemma elem_of_authors_at l round a :
  a ∈ authors_at l round ↔ ∃ b, b ∈ l ∧ blk_round b = round ∧ blk_author b = a.
Proof.
  unfold authors_at. rewrite list_elem_of_fmap. setoid_rewrite list_elem_of_filter. naive_solver.
Qed.

Lemma is_quorum_mono vset X Y :
  is_quorum vset X → X ⊆ Y → Y ⊆ dom (members vset) → is_quorum vset Y.
Proof.
  intros [_ Hq] HXY HY. split; [done|].
  pose proof (set_sum_mono (power_of vset) X Y HXY). unfold stake_of in *. lia.
Qed.

Section clock.
Context (vset : ValidatorSet).

(** The accumulator holds authors of presented blocks of the current round and
    has not reached the quorum. *)
Record clock_inv (l : list DagBlock) (c : ThresholdClock) : Prop := {
  ci_rep : agg_rep (power_of vset) (stake_at_round c);
  ci_total : agg_total_power (stake_at_round c) = total_power vset;
  ci_thr : threshold (stake_at_round c) = Quorum;
  ci_open : reached (stake_at_round c) = false;
  ci_counted : counted (stake_at_round c) ⊆ voters vset (authors_at l (clock_round c));
}.

Lemma voters_authors_app l1 l2 round :
  voters vset (authors_at l1 round) ⊆ voters vset (authors_at (l1 ++ l2) round).
Proof.
  intros a. rewrite !elem_of_voters, !elem_of_authors_at. setoid_rewrite elem_of_app. naive_solver.
Qed.

Lemma add_block_step l c b c' out :
  clock_inv l c → add_block c b vset = Ok (c', out) →
  clock_inv (l ++ [b]) c' ∧
  ((clock_round c' = clock_round c ∧ out = None)
   ∨ (clock_round c' = wrapping_add64 (clock_round c) 1 ∧ out = Some (clock_round c')
      ∧ is_quorum vset (voters vset (authors_at (l ++ [b]) (clock_round c))))).
Proof.
  intros [Hrep Htot Hthr Hopen Hc] H. unfold add_block in H.
  assert (clock_inv (l ++ [b]) c) as Hsame
    by (split; try done; etrans; [exact Hc|apply voters_authors_app]).
  destruct (blk_round b =? clock_round c) eqn:Er; cbn [negb] in H;
    [|injection H as <- <-; auto].
  destruct (members vset !! blk_author b) as [m|] eqn:Em; [|injection H as <- <-; auto].
  apply bind_Ok in H as ([agg r] & Hadd & H). rewrite <-(power_of_member _ _ _ Em) in Hadd.
  apply add_rep in Hadd as (Hrep' & -> & Hc' & Htot' & Hthr'); [|done].
  assert (counted agg ⊆ voters vset (authors_at (l ++ [b]) (clock_round c))) as Hsub.
  { rewrite Hc'. apply union_subseteq. split; [|apply Hsame].
    apply N.eqb_eq in Er. apply singleton_subseteq_l, elem_of_voters.
    split; [|eauto]. apply elem_of_authors_at. exists b. set_solver. }
  destruct (reached agg) eqn:Ere; injection H as <- <-.
  - split.
    + split; cbn; [apply agg_rep_clear|congruence|congruence|done|set_solver].
    + right. split_and!; [done..|]. eapply is_quorum_mono; [|exact Hsub|apply voters_members].
      split; [rewrite Hc'; etrans; [|apply voters_members]; rewrite <-Hc'; exact Hsub|].
      apply (reached_sound _ agg Hrep') in Ere. rewrite Hthr', Hthr, Htot', Htot in Ere. exact Ere.
  - split; [|by left]. split; cbn; [done|congruence|congruence|done|exact Hsub].
Qed.
End clock.

Lemma clock_inv_new vset : clock_inv vset [] (ThresholdClock_new (total_power vset)).
Proof. split; cbn; [apply agg_rep_quorum|done..|set_solver]. Qed.

Lemma clock_inv_at_round vset round : clock_inv vset [] (ThresholdClock_at_round round (total_power vset)).
Proof. split; cbn; [apply agg_rep_quorum|done..|set_solver]. Qed.

(** Loop invariant over the presented blocks; the length bound excludes
    wrap-around of the round. *)
Lemma run_clock_inv vset l c :
  N.of_nat (length l) <= u64_max →
  run_clock vset (ThresholdClock_new (total_power vset)) l = Ok c →
  clock_inv vset l c ∧ clock_round c <= N.of_nat (length l) ∧
  ∀ round, round < clock_round c → is_quorum vset (voters vset (authors_at l round)).
Proof.
  intros Hlen. unfold run_clock.
  apply (try_fold_inv (λ seen c, clock_inv vset seen c ∧ clock_round c <= N.of_nat (length seen) ∧
    ∀ round, round < clock_round c → is_quorum vset (voters vset (authors_at seen round)))).
  - split_and!; [apply clock_inv_new|done|]. cbn. lia.
  - intros seen b rest s s' Hl (Hi & Hr & Hq) ([s1 out] & Ha & [= ->])%bind_Ok.
    apply (add_block_step vset seen) in Ha as [Hi' Hcase]; [|done].
    assert (length l = length seen + S (length rest))%nat as Hll by (rewrite Hl, length_app; done).
    assert (∀ round, round < clock_round s →
      is_quorum vset (voters vset (authors_at (seen ++ [b]) round))) as Hq'.
    { intros round Hround. eapply is_quorum_mono; [by apply Hq|apply voters_authors_app|apply voters_members]. }
    rewrite length_app; cbn. split; [done|].
    destruct Hcase as [[-> _]|(Hr' & _ & Hqn)]; [split; [lia|done]|].
    rewrite wrapping_add64_small in Hr' by lia. rewrite Hr'. split; [lia|].
    intros round Hround. destruct (decide (round = clock_round s)) as [->|]; [done|]. apply Hq'. lia.
Qed.

(** The round clock never runs ahead of the DAG: after any sequence of
    presented blocks, starting at round 0, each round it has left was closed by
    blocks of distinct committee members holding strictly more than two thirds
    of the stake; and it moves at most one round per block. *)
Theorem clock_leaves_round_by_quorum vset l c :
  N.of_nat (length l) <= u64_max →
  run_clock vset (ThresholdClock_new (total_power vset)) l = Ok c →
  clock_round c <= N.of_nat (length l) ∧
  ∀ round, round < clock_round c → is_quorum vset (voters vset (authors_at l round)).
Proof. intros Hlen Hrun. by apply run_clock_inv. Qed.

(** A block that does not close the round adds its author, if a member. *)
Lemma add_block_counts vset c b c' :
  agg_rep (power_of vset) (stake_at_round c) → blk_round b = clock_round c →
  add_block c b vset = Ok (c', None) →
  clock_round c' = clock_round c ∧
  counted (stake_at_round c') = counted (stake_at_round c) ∪ voters vset [blk_author b].
Proof.
  intros Hrep Hb Ha. unfold add_block in Ha. rewrite Hb, N.eqb_refl in Ha; cbn [negb] in Ha.
  destruct (members vset !! blk_author b) as [m|] eqn:Em.
  - apply bind_Ok in Ha as ([agg r] & Hadd & Ha). rewrite <-(power_of_member _ _ _ Em) in Hadd.
    apply add_rep in Hadd as (_ & -> & Hc' & _); [|done].
    destruct (reached agg); injection Ha as <-; [done|]. split; [done|]. cbn. rewrite Hc'.
    assert (blk_author b ∈ dom (members vset)) by (apply elem_of_dom; eauto).
    unfold voters. cbn. set_solver.
  - injection Ha as <-. assert (blk_author b ∉ dom (members vset)) by (by apply not_elem_of_dom).
    split; [done|]. unfold voters. cbn. set_solver.
Qed.

(** Blocks of another round are ignored. *)
Lemma add_block_other_round vset c b :
  blk_round b ≠ clock_round c → add_block c b vset = Ok (c, None).
Proof. intros Hb. unfold add_block. by rewrite (proj2 (N.eqb_neq _ _)). Qed.

Lemma run_clock_other_round vset l c c' :
  Forall (λ b, blk_round b ≠ clock_round c) l → run_clock vset c l = Ok c' → c' = c.
Proof.
  unfold run_clock. induction l as [|b l IH]; cbn [try_fold]; [by intros _ [= <-]|].
  intros [Hb HF]%Forall_cons. rewrite add_block_other_round by done. cbn. auto.
Qed.

Lemma run_clock_closes vset l : ∀ seen c c',
  clock_inv vset seen c → Forall (λ b, blk_round b = clock_round c) l →
  clock_round c < u64_max → run_clock vset c l = Ok c' →
  clock_round c' = clock_round c + 1 ∨
  (clock_round c' = clock_round c ∧ clock_inv vset (seen ++ l) c' ∧
   counted (stake_at_round c') = counted (stake_at_round c) ∪ voters vset (blk_author <$> l)).
Proof.
  induction l as [|b l IH]; intros seen c c' Hi HF Hw.
  - intros [= <-]. right. rewrite app_nil_r. split_and!; [done..|]. unfold voters. set_solver.
  - apply Forall_cons in HF as [Hb HF]. intros (c1 & ([c2 out] & Ha & [= <-])%bind_Ok & Hrun)%bind_Ok.
    pose proof (add_block_step vset seen c b c2 out Hi Ha) as [Hi2 [[Hr2 ->]|(Hr2 & _ & _)]].
    + destruct (IH (seen ++ [b]) c2 c') as [Hl|(Hl & Hinv & Hcnt)];
        [done|by rewrite Hr2|by rewrite Hr2|done|left; congruence|].
      apply add_block_counts in Ha as [_ Hc2]; [|apply Hi|done].
      right. rewrite <-app_assoc in Hinv. split_and!; [congruence|done|]. rewrite Hcnt, Hc2.
      unfold voters. cbn. set_solver.
    + left. rewrite wrapping_add64_small in Hr2 by (unfold u64_max in *; lia).
      apply run_clock_other_round in Hrun as ->; [done|].
      eapply Forall_impl; [exact HF|]. cbn. intros. lia.
Qed.

(** A clock fed from a well-formed committee never overflows. *)
Lemma run_clock_total vset l : ∀ seen c,
  vset_wf vset → clock_inv vset seen c → ∃ c', run_clock vset c l = Ok c'.
Proof.
  induction l as [|b l IH]; intros seen c Hw Hi; [by exists c|].
  assert (∃ r, add_block c b vset = Ok r) as [[c1 out] H1].
  { unfold add_block. destruct (_ =? _); cbn [negb]; [|by eauto].
    destruct (members vset !! blk_author b) as [m|] eqn:Em; [|by eauto].
    rewrite <-(power_of_member _ _ _ Em), (add_spec (power_of vset)) by apply Hi.
    rewrite decide_True; [cbn; case_match; by eauto|].
    etrans; [|apply Hw]. apply (stake_of_le_total vset); [done|].
    assert (blk_author b ∈ dom (members vset)) by (apply elem_of_dom; eauto).
    pose proof (ci_counted _ _ _ Hi). pose proof (voters_members vset (authors_at seen (clock_round c))).
    set_solver. }
  destruct (add_block_step vset seen c b c1 out Hi H1) as [Hi1 _].
  destruct (IH (seen ++ [b]) c1 Hw Hi1) as [c' Hc']. exists c'.
  unfold run_clock. cbn [try_fold]. rewrite H1. exact Hc'.
Qed.

(** The round clock is live: presenting, at the clock's round, blocks whose
    distinct committee authors hold a [2f+1] quorum moves the clock to exactly
    the next round, in whatever order and with whatever repetitions they come. *)
Theorem clock_advances_on_quorum vset round l :
  vset_wf vset → 3 * total_power vset <= u128_max → round < u64_max →
  Forall (λ b, blk_round b = round) l → is_quorum vset (voters vset (blk_author <$> l)) →
  match run_clock vset (ThresholdClock_at_round round (total_power vset)) l with
  | Ok c => clock_round c = round + 1
  | Err _ => False
  end.
Proof.
  intros Hw Hm Hr HF Hq. pose proof (clock_inv_at_round vset round) as Hi.
  destruct (run_clock_total vset l [] _ Hw Hi) as [c Hc]. rewrite Hc.
  destruct (run_clock_closes vset l [] _ c Hi HF Hr Hc) as [?|(_ & [Hrep Ht Hth Hop _] & Hcnt)]; [done|].
  cbn in Hcnt. rewrite (left_id_L ∅ (∪)) in Hcnt. exfalso.
  rewrite (rep_reached _ _ Hrep), (rep_accumulated _ _ Hrep), Ht, Hth, Hcnt in Hop.
  rewrite exceeds_threshold_complete in Hop; [done..|apply Hq].
Qed.
