(* ===== verification/Committer.v ===== *)
(** * The Pulse commit rule ([crates/lemma-consensus/src/pulse/committer.rs])

    Votes, blames and certificates; the direct decision of a leader slot, the
    indirect decision through the nearest committed anchor, and the driver that
    returns the gapless prefix of decided leaders. *)
From S2P Require Import Prelude CoreTypes StakeAgg DagBlock DagGraph.

Inductive LeaderStatus :=
  | Commit (r : DagBlockRef)
  | Skip (s : Slot)
  | Undecided (s : Slot).

#[export] Instance LeaderStatus_eq_dec : EqDecision LeaderStatus.
Proof. solve_decision. Defined.

Definition is_decided (self : LeaderStatus) : bool :=
  match self with Commit _ | Skip _ => true | Undecided _ => false end.

Definition LeaderStatus_round (self : LeaderStatus) : N :=
  match self with Commit r => ref_round r | Skip s | Undecided s => slot_round s end.

Definition voting_round (leader : N) : N := wrapping_add64 leader 1.
Definition decision_round (leader : N) : N := wrapping_add64 leader 2.

(** ** Votes, certificates and blames *)

(** [a.round == slot.round && a.author == slot.author]. *)
Definition in_slot (s : Slot) (a : DagBlockRef) : bool :=
  (ref_round a =? slot_round s) && (ref_author a =? slot_author s).

(** The loop of [find_supported_block] with its early [return None]. *)
Fixpoint find_supported_loop (s : Slot) (found : option DagBlockRef) (l : list DagBlockRef)
    : option DagBlockRef :=
  match l with
  | [] => found
  | a :: l =>
      if in_slot s a then
        match found with
        | None => find_supported_loop s (Some a) l
        | Some prev => if negb (ref_digest prev =? ref_digest a) then None
                       else find_supported_loop s found l
        end
      else find_supported_loop s found l
  end.

Definition find_supported_block (s : Slot) (voter : DagBlock) : option DagBlockRef :=
  find_supported_loop s None (ancestors voter).

Definition is_vote (voter : DagBlock) (leader_slot : Slot) (leader_ref : DagBlockRef) : bool :=
  bool_decide (find_supported_block leader_slot voter = Some leader_ref).

(** The loop of [is_certificate] with its early [return Ok(true)]. *)
Fixpoint certificate_loop (leader_slot : Slot) (leader_ref : DagBlockRef) (d : Dag) (vset : ValidatorSet)
    (q : StakeAggregator) (l : list DagBlockRef) : result ConsensusError bool :=
  match l with
  | [] => Ok false
  | ancestor_ref :: l =>
      match blocks d !! ancestor_ref with
      | None => certificate_loop leader_slot leader_ref d vset q l
      | Some voter =>
          if is_vote voter leader_slot leader_ref then
            match members vset !! ref_author ancestor_ref with
            | Some member =>
                '(q', r) ← StakeAggregator_add q (ref_author ancestor_ref) (power member);
                if (r : bool) then Ok true else certificate_loop leader_slot leader_ref d vset q' l
            | None => certificate_loop leader_slot leader_ref d vset q l
            end
          else certificate_loop leader_slot leader_ref d vset q l
      end
  end.

Definition is_certificate (decision_block : DagBlock) (leader_slot : Slot) (leader_ref : DagBlockRef)
    (d : Dag) (vset : ValidatorSet) : result ConsensusError bool :=
  certificate_loop leader_slot leader_ref d vset (StakeAggregator_quorum (total_power vset))
    (ancestors_at_round decision_block (voting_round (slot_round leader_slot))).

Definition is_blame (voter : DagBlock) (leader_slot : Slot) : bool :=
  forallb (λ a, negb (in_slot leader_slot a)) (ancestors voter).

Definition blame_aggregator (leader_slot : Slot) (d : Dag) (vset : ValidatorSet)
    : result ConsensusError StakeAggregator :=
  try_fold (λ agg voter, if is_blame voter leader_slot then add_member vset agg (blk_author voter) else Ok agg)
    (StakeAggregator_quorum (total_power vset)) (blocks_at_round d (voting_round (slot_round leader_slot))).

(** ** Direct decision *)

(** One block of the certificate scan shared by the two rules; the state is
    [certified]. *)
Definition certified_step (leader_slot : Slot) (leader_ref : DagBlockRef) (d : Dag) (vset : ValidatorSet)
    (certified : option DagBlockRef) (b : DagBlock) : result ConsensusError (option DagBlockRef) :=
  c ← is_certificate b leader_slot leader_ref d vset;
  if (c : bool) then
    match certified with
    | None => Ok (Some leader_ref)
    | Some prev =>
        if negb (ref_digest prev =? ref_digest leader_ref)
        then Err (ByzantineInvariantBreach (slot_round leader_slot) (slot_author leader_slot)
                    (ref_digest prev) (ref_digest leader_ref))
        else Ok certified
    end
  else Ok certified.

Definition try_direct_decide (leader_slot : Slot) (d : Dag) (vset : ValidatorSet)
    : result ConsensusError LeaderStatus :=
  let d_round := decision_round (slot_round leader_slot) in
  match block_at_slot d leader_slot with
  | None =>
      blame ← blame_aggregator leader_slot d vset;
      Ok (if reached blame then Skip leader_slot else Undecided leader_slot)
  | Some leader_ref =>
      blame ← blame_aggregator leader_slot d vset;
      if reached blame then Ok (Skip leader_slot) else
      decision_agg ← total_stake_at d d_round vset;
      if negb (reached decision_agg) then Ok (Undecided leader_slot) else
      certified ← try_fold (certified_step leader_slot leader_ref d vset) None (blocks_at_round d d_round);
      Ok (match certified with Some r => Commit r | None => Undecided leader_slot end)
  end.

(** ** Indirect decision *)

(** The scan of the anchor's ancestors; an ancestor that is not stored is skipped. *)
Definition anchor_step (leader_slot : Slot) (lref : DagBlockRef) (d : Dag) (vset : ValidatorSet)
    (certified : option DagBlockRef) (cert_ref : DagBlockRef) : result ConsensusError (option DagBlockRef) :=
  match blocks d !! cert_ref with
  | None => Ok certified
  | Some cert_block => certified_step leader_slot lref d vset certified cert_block
  end.

Definition decide_by_anchor (leader_slot : Slot) (anchor_ref : DagBlockRef) (d : Dag) (vset : ValidatorSet)
    : result ConsensusError LeaderStatus :=
  match blocks d !! anchor_ref with
  | None => Ok (Undecided leader_slot)
  | Some anchor_block =>
      let d_round := decision_round (slot_round leader_slot) in
      match block_at_slot d leader_slot with
      | Some lref =>
          certified ← try_fold (anchor_step leader_slot lref d vset) None (ancestors_at_round anchor_block d_round);
          Ok (if bool_decide (is_Some certified) then Commit lref else Skip leader_slot)
      | None => Ok (Skip leader_slot)
      end
  end.

Fixpoint try_indirect_decide (leader_slot : Slot) (decided_above : list LeaderStatus) (d : Dag)
    (vset : ValidatorSet) : result ConsensusError LeaderStatus :=
  match decided_above with
  | [] => Ok (Undecided leader_slot)
  | Commit anchor_ref :: rest =>
      if wrapping_add64 (slot_round leader_slot) WAVE_LENGTH <=? ref_round anchor_ref
      then decide_by_anchor leader_slot anchor_ref d vset
      else Ok (Undecided leader_slot)
  | Skip _ :: rest => try_indirect_decide leader_slot rest d vset
  | Undecided _ :: _ => Ok (Undecided leader_slot)
  end.

(** ** The driver *)

(** [(lower..=upper).rev()]. *)
Definition rounds_desc (lower upper : N) : list N :=
  (λ i, upper - N.of_nat i) <$> seq 0 (N.to_nat (upper + 1 - lower)).

(** One round of the loop.  [leaders] is the Rust vector in reverse: the round
    just decided is at the head, so it is already the nearest-first list that
    [try_indirect_decide] takes, and the ascending list after [reverse()]. *)
Definition decide_round (d : Dag) (vset : ValidatorSet) (leader_of : N → Slot)
    (leaders : list LeaderStatus) (round : N) : result ConsensusError (list LeaderStatus) :=
  if negb (round mod WAVE_LENGTH =? 0) then Ok leaders else
  let slot := leader_of round in
  direct ← try_direct_decide slot d vset;
  status ← (if is_decided direct then Ok direct else try_indirect_decide slot leaders d vset);
  Ok (status :: leaders).

Fixpoint decided_prefix (l : list LeaderStatus) : list LeaderStatus :=
  match l with
  | [] => []
  | s :: l => if is_decided s then s :: decided_prefix l else []
  end.

Definition try_decide (last_decided : Slot) (d : Dag) (vset : ValidatorSet) (leader_of : N → Slot)
    : result ConsensusError (list LeaderStatus) :=
  let highest := highest_accepted_round d in
  let lower := wrapping_add64 (slot_round last_decided) 1 in
  let upper := saturating_sub highest 2 in
  if upper <? lower then Ok [] else
  leaders ← try_fold (decide_round d vset leader_of) [] (rounds_desc lower upper);
  Ok (decided_prefix leaders).

(** ** Votes and blames *)

Lemma in_slot_true s a : in_slot s a = true ↔ DagBlockRef_slot a = s.
Proof.
  unfold in_slot. rewrite andb_true_iff, !N.eqb_eq. unfold DagBlockRef_slot. destruct s; cbn.
  split; [by intros [-> ->]|by intros [= -> ->]].
Qed.

Lemma forall_cons_slot s a l (p : DagBlockRef) :
  (∀ x, x ∈ a :: l → DagBlockRef_slot x = s → x = p) ↔
  (DagBlockRef_slot a = s → a = p) ∧ ∀ x, x ∈ l → DagBlockRef_slot x = s → x = p.
Proof.
  setoid_rewrite elem_of_cons. split.
  - intros H. split; auto.
  - intros [Ha Hl] x [->|Hx]; auto.
Qed.

Lemma find_supported_loop_some s p l r :
  DagBlockRef_slot p = s →
  find_supported_loop s (Some p) l = Some r ↔ r = p ∧ ∀ a, a ∈ l → DagBlockRef_slot a = s → a = p.
Proof.
  intros Hp. induction l as [|a l IH]; cbn [find_supported_loop].
  { split; [intros [= <-]; split; [done|]; by intros ? ?%not_elem_of_nil|by intros [-> _]]. }
  rewrite forall_cons_slot. destruct (in_slot s a) eqn:Es.
  - apply in_slot_true in Es. destruct (ref_digest p =? ref_digest a) eqn:Ed; cbn [negb].
    + apply N.eqb_eq in Ed. assert (a = p) as -> by (apply ref_eq; congruence).
      rewrite IH. tauto.
    + apply N.eqb_neq in Ed. split; [done|]. intros (_ & Ha & _). destruct Ed. by rewrite Ha.
  - rewrite IH. assert (DagBlockRef_slot a ≠ s) by (rewrite <-in_slot_true; congruence). tauto.
Qed.

Lemma find_supported_loop_none s l r :
  find_supported_loop s None l = Some r ↔
  r ∈ l ∧ DagBlockRef_slot r = s ∧ ∀ a, a ∈ l → DagBlockRef_slot a = s → a = r.
Proof.
  induction l as [|a l IH]; cbn [find_supported_loop].
  { split; [done|]. intros [?%not_elem_of_nil _]; done. }
  rewrite forall_cons_slot, elem_of_cons. destruct (in_slot s a) eqn:Es.
  - apply in_slot_true in Es. rewrite find_supported_loop_some by done. split.
    + intros [-> ?]. tauto.
    + intros (_ & _ & Ha & Hl). by rewrite (Ha Es) in *.
  - rewrite IH. assert (DagBlockRef_slot a ≠ s) by (rewrite <-in_slot_true; congruence). split.
    + tauto.
    + intros ([->|?] & ? & ? & ?); tauto.
Qed.

(** A voter supports the only block of the slot among its ancestors. *)
Lemma is_vote_spec v s r :
  is_vote v s r = true ↔
  r ∈ ancestors v ∧ DagBlockRef_slot r = s ∧ ∀ a, a ∈ ancestors v → DagBlockRef_slot a = s → a = r.
Proof. unfold is_vote. rewrite bool_decide_eq_true. apply find_supported_loop_none. Qed.

Lemma is_blame_spec v s : is_blame v s = true ↔ ∀ a, a ∈ ancestors v → DagBlockRef_slot a ≠ s.
Proof.
  unfold is_blame. rewrite forallb_forall. setoid_rewrite <-list_elem_of_In.
  setoid_rewrite negb_true_iff. setoid_rewrite <-not_true_iff_false. by setoid_rewrite in_slot_true.
Qed.

Lemma vote_not_blame v s r : is_vote v s r = true → is_blame v s = false.
Proof.
  rewrite is_vote_spec, <-not_true_iff_false, is_blame_spec. intros (Hr & Hs & _) Hb. by apply (Hb r).
Qed.

Lemma vote_unique v s r1 r2 : is_vote v s r1 = true → is_vote v s r2 = true → r1 = r2.
Proof. rewrite !is_vote_spec. intros (H1 & Hs & Hu) (H2 & Hs' & Hu'). by apply Hu'. Qed.

(** ** What a reached quorum means in a store *)

(** Committee members with a block of round [n] in the store satisfying [P]. *)
Definition backed_by (vset : ValidatorSet) (d : Dag) (n : N) (P : DagBlock → Prop) (X : gset Address) : Prop :=
  is_quorum vset X ∧ ∀ a, a ∈ X → ∃ r b, blocks d !! r = Some b ∧ ref_author r = a ∧ ref_round r = n ∧ P b.

Lemma try_fold_filter {E A B} (p : B → bool) (f : A → B → result E A) a l :
  try_fold (λ s x, if p x then f s x else Ok s) a l = try_fold f a (filter p l).
Proof.
  revert a; induction l as [|x l IH]; intros a; [done|]. cbn [try_fold].
  rewrite filter_cons. case_decide as Hp.
  - rewrite (Is_true_true_1 _ Hp). cbn. destruct (f a x); cbn; auto.
  - rewrite (Is_true_false_1 _ Hp). apply IH.
Qed.

Lemma try_fold_map {E A B C} (g : B → C) (f : A → C → result E A) a l :
  try_fold (λ s x, f s (g x)) a l = try_fold f a (g <$> l).
Proof. revert a; induction l as [|x l IH]; intros a; cbn; [done|]. destruct (f a (g x)); cbn; auto. Qed.

Lemma elem_of_blocks_at_round blake3 vset d n b :
  dag_inv blake3 vset d →
  b ∈ blocks_at_round d n ↔ blocks d !! reference b = Some b ∧ blk_round b = n.
Proof.
  intros Hd. unfold blocks_at_round. rewrite list_elem_of_omap. setoid_rewrite elem_of_bset_iter.
  setoid_rewrite (inv_round _ _ _ Hd). split.
  - intros (r & [_ <-] & Hb). pose proof (inv_ref _ _ _ Hd r b Hb) as <-. done.
  - intros [Hb <-]. exists (reference b). split_and!; [eauto|done..].
Qed.

(** A reached blame tally is a quorum of blaming blocks of the voting round. *)
Lemma blame_backed blake3 vset d s agg :
  dag_inv blake3 vset d → blame_aggregator s d vset = Ok agg → reached agg = true →
  ∃ X, backed_by vset d (voting_round (slot_round s)) (λ b, is_blame b s = true) X.
Proof.
  intros Hd Ha Hr. unfold blame_aggregator in Ha.
  rewrite (try_fold_filter (λ v, is_blame v s) (λ agg v, add_member vset agg (blk_author v))),
    (try_fold_map blk_author (add_member vset)) in Ha.
  eexists; split; [by eapply quorum_tally_reached|].
  intros a [Hin _]%elem_of_voters. apply list_elem_of_fmap in Hin as (b & -> & Hb).
  apply list_elem_of_filter in Hb as [Hbl Hb].
  apply (elem_of_blocks_at_round _ _ _ _ _ Hd) in Hb as [Hb Hn].
  exists (reference b), b. split_and!; [done..|]. by apply Is_true_true.
Qed.

(** A certificate is a quorum of voting blocks of the voting round. *)
Lemma certificate_loop_backed blake3 vset d s lref l q :
  dag_inv blake3 vset d → agg_rep (power_of vset) q →
  threshold q = Quorum → agg_total_power q = total_power vset →
  (∀ r, r ∈ l → ref_round r = voting_round (slot_round s)) →
  counted q ⊆ dom (members vset) →
  (∀ a, a ∈ counted q → ∃ r b, blocks d !! r = Some b ∧ ref_author r = a
     ∧ ref_round r = voting_round (slot_round s) ∧ is_vote b s lref = true) →
  certificate_loop s lref d vset q l = Ok true →
  ∃ X, backed_by vset d (voting_round (slot_round s)) (λ b, is_vote b s lref = true) X.
Proof.
  intros Hd. revert q; induction l as [|r l IH]; intros q Hq Hth Ht Hl Hm Hc; cbn [certificate_loop]; [done|].
  assert (∀ r, r ∈ l → ref_round r = voting_round (slot_round s)) as Hl' by (intros; apply Hl; by right).
  destruct (blocks d !! r) as [v|] eqn:Hb; [|by apply IH].
  destruct (is_vote v s lref) eqn:Hv; [|by apply IH].
  destruct (members vset !! ref_author r) as [m|] eqn:Em; [|by apply IH].
  intros ([q' x] & Hadd & Hx)%bind_Ok. rewrite <-(power_of_member _ _ _ Em) in Hadd.
  apply add_rep in Hadd as (Hq' & -> & Hc' & Ht' & Hth'); [|done].
  assert (counted q' ⊆ dom (members vset)) as Hm'.
  { rewrite Hc'. assert (ref_author r ∈ dom (members vset)) by (apply elem_of_dom; eauto). set_solver. }
  assert (∀ a, a ∈ counted q' → ∃ r b, blocks d !! r = Some b ∧ ref_author r = a
     ∧ ref_round r = voting_round (slot_round s) ∧ is_vote b s lref = true) as Hc2.
  { intros a. rewrite Hc', elem_of_union, elem_of_singleton. intros [->|Ha]; [|by apply Hc].
    exists r, v. split_and!; [done..|apply Hl; by left|done]. }
  destruct (reached q') eqn:Er; [|eapply IH; try done; congruence].
  exists (counted q'). split; [|done]. split; [done|].
  apply (reached_sound _ q' Hq') in Er. rewrite Hth', Hth, Ht', Ht in Er. exact Er.
Qed.

Definition certified_in (vset : ValidatorSet) (d : Dag) (s : Slot) (r : DagBlockRef) : Prop :=
  ∃ X, backed_by vset d (voting_round (slot_round s)) (λ b, is_vote b s r = true) X.

Lemma is_certificate_backed blake3 vset d s lref b :
  dag_inv blake3 vset d → is_certificate b s lref d vset = Ok true → certified_in vset d s lref.
Proof.
  intros Hd. apply (certificate_loop_backed blake3); try done; [apply agg_rep_quorum|].
  intros r. unfold ancestors_at_round. rewrite list_elem_of_filter. by intros [? _].
Qed.

(** ** Decisions *)

(** The certificate scan only ever records the leader itself, so its
    breach branch is never taken. *)
Lemma certified_step_spec s lref d vset c b c' :
  (c = None ∨ c = Some lref) → certified_step s lref d vset c b = Ok c' →
  (c' = None ∧ c = None) ∨ (c' = Some lref ∧ (c = Some lref ∨ is_certificate b s lref d vset = Ok true)).
Proof.
  intros Hc. unfold certified_step. intros (x & Hcert & H)%bind_Ok. destruct x.
  - destruct Hc as [-> | ->]; [injection H as <-; auto|].
    rewrite N.eqb_refl in H. injection H as <-. auto.
  - injection H as <-. destruct Hc as [-> | ->]; auto.
Qed.

Lemma certified_step_no_breach s lref d vset c b e :
  (c = None ∨ c = Some lref) → certified_step s lref d vset c b = Err e →
  is_certificate b s lref d vset = Err e.
Proof.
  intros Hc. unfold certified_step. intros [Hx|(x & _ & H)]%bind_Err; [done|]. destruct x; [|done].
  destruct Hc as [-> | ->]; [done|]. by rewrite N.eqb_refl in H.
Qed.

Lemma certified_scan_backed blake3 vset d s lref (l : list DagBlock) c :
  dag_inv blake3 vset d → try_fold (certified_step s lref d vset) None l = Ok c →
  c = None ∨ (c = Some lref ∧ certified_in vset d s lref).
Proof.
  intros Hd. apply (try_fold_inv (λ _ c, c = None ∨ (c = Some lref ∧ certified_in vset d s lref))); [by left|].
  intros _ b _ c1 c2 _ Hc1 Hs.
  apply certified_step_spec in Hs as [[-> _]|[-> Hs]]; [by left| |by destruct Hc1 as [|[]]; auto].
  right. split; [done|]. destruct Hs as [->|Hs]; [by destruct Hc1 as [|[]]|].
  by eapply is_certificate_backed.
Qed.

Lemma anchor_scan_backed blake3 vset d s lref (l : list DagBlockRef) c :
  dag_inv blake3 vset d → try_fold (anchor_step s lref d vset) None l = Ok c →
  c = None ∨ (c = Some lref ∧ certified_in vset d s lref).
Proof.
  intros Hd. apply (try_fold_inv (λ _ c, c = None ∨ (c = Some lref ∧ certified_in vset d s lref))); [by left|].
  intros _ r _ c1 c2 _ Hc1. unfold anchor_step. destruct (blocks d !! r) as [b|]; [|by intros [= <-]].
  intros Hs. apply certified_step_spec in Hs as [[-> _]|[-> Hs]]; [by left| |by destruct Hc1 as [|[]]; auto].
  right. split; [done|]. destruct Hs as [->|Hs]; [by destruct Hc1 as [|[]]|].
  by eapply is_certificate_backed.
Qed.

Definition blamed_in (vset : ValidatorSet) (d : Dag) (s : Slot) : Prop :=
  ∃ X, backed_by vset d (voting_round (slot_round s)) (λ b, is_blame b s = true) X.

(** The meaning of a direct decision. *)
Lemma try_direct_decide_sound blake3 vset d s st :
  dag_inv blake3 vset d → try_direct_decide s d vset = Ok st →
  match st with
  | Commit r => block_at_slot d s = Some r ∧ certified_in vset d s r
  | Skip s' => s' = s ∧ blamed_in vset d s
  | Undecided s' => s' = s
  end.
Proof.
  intros Hd. unfold try_direct_decide. destruct (block_at_slot d s) as [lref|] eqn:Hs.
  - intros (blame & Hbl & H)%bind_Ok.
    destruct (reached blame) eqn:Hr; [injection H as <-; split; [done|by eapply blame_backed]|].
    apply bind_Ok in H as (dagg & _ & H). destruct (reached dagg); cbn [negb] in H; [|by injection H as <-].
    apply bind_Ok in H as (c & Hc & H). injection H as <-.
    apply (certified_scan_backed _ _ _ _ _ _ _ Hd) in Hc as [->|[-> ?]]; done.
  - intros (blame & Hbl & H)%bind_Ok.
    destruct (reached blame) eqn:Hr; injection H as <-; [split; [done|by eapply blame_backed]|done].
Qed.

Lemma try_indirect_decide_sound blake3 vset d s above st :
  dag_inv blake3 vset d → try_indirect_decide s above d vset = Ok st →
  match st with
  | Commit r => block_at_slot d s = Some r ∧ certified_in vset d s r
  | Skip s' | Undecided s' => s' = s
  end.
Proof.
  intros Hd. induction above as [|[a|x|x] above IH]; cbn [try_indirect_decide]; [by intros [= <-]| |done|by intros [= <-]].
  destruct (_ <=? _); [|by intros [= <-]]. unfold decide_by_anchor.
  destruct (blocks d !! a) as [ab|]; [|by intros [= <-]].
  destruct (block_at_slot d s) as [lref|] eqn:Hs; [|by intros [= <-]].
  intros (c & Hc & [= <-])%bind_Ok.
  apply (anchor_scan_backed _ _ _ _ _ _ _ Hd) in Hc as [->|[-> ?]]; done.
Qed.

(** ** The driver *)

Lemma rounds_desc_elem lower upper n : lower <= upper → n ∈ rounds_desc lower upper ↔ lower <= n <= upper.
Proof.
  intros Hle. unfold rounds_desc. rewrite list_elem_of_fmap. setoid_rewrite elem_of_seq. split.
  - intros (i & -> & Hi). lia.
  - intros Hn. exists (N.to_nat (upper - n)). lia.
Qed.

Definition LeaderStatus_slot (st : LeaderStatus) : Slot :=
  match st with Commit r => DagBlockRef_slot r | Skip s | Undecided s => s end.

(** The leader rounds of a range, in ascending order. *)
Definition wave_rounds (lower upper : N) : list N :=
  filter (λ n, n mod WAVE_LENGTH = 0) (reverse (rounds_desc lower upper)).

(** Reference semantics of the driver: slots are decided from the highest down,
    each directly if possible, otherwise through the statuses above it. *)
Inductive decides (d : Dag) (vset : ValidatorSet) (leader_of : N → Slot) : list N → list LeaderStatus → Prop :=
  | decides_nil : decides d vset leader_of [] []
  | decides_direct n rounds st above :
      decides d vset leader_of rounds above →
      try_direct_decide (leader_of n) d vset = Ok st → is_decided st = true →
      decides d vset leader_of (n :: rounds) (st :: above)
  | decides_indirect n rounds st above direct :
      decides d vset leader_of rounds above →
      try_direct_decide (leader_of n) d vset = Ok direct → is_decided direct = false →
      try_indirect_decide (leader_of n) above d vset = Ok st →
      decides d vset leader_of (n :: rounds) (st :: above).

Lemma decide_loop_decides d vset leader_of l sts :
  try_fold (decide_round d vset leader_of) [] l = Ok sts →
  decides d vset leader_of (filter (λ n, n mod WAVE_LENGTH = 0) (reverse l)) sts.
Proof.
  apply (try_fold_inv (λ seen sts,
    decides d vset leader_of (filter (λ n, n mod WAVE_LENGTH = 0) (reverse seen)) sts)); [constructor|].
  intros seen n rest sts0 sts1 _ Hd. unfold decide_round. rewrite reverse_snoc, filter_cons.
  destruct (N.eqb_spec (n mod WAVE_LENGTH) 0) as [Hn|Hn]; cbn [negb].
  - rewrite decide_True by done. intros (direct & Hdir & (st & Hst & [= <-])%bind_Ok)%bind_Ok.
    destruct (is_decided direct) eqn:E.
    + injection Hst as <-. by eapply decides_direct.
    + by eapply decides_indirect.
  - rewrite decide_False by done. by intros [= <-].
Qed.

Lemma block_at_slot_slot blake3 vset d s r :
  dag_inv blake3 vset d → block_at_slot d s = Some r → DagBlockRef_slot r = s.
Proof. intros Hd Hs. by apply (inv_slot _ _ _ Hd) in Hs as [_ ?]. Qed.

Lemma decides_slots blake3 vset d leader_of rounds sts :
  dag_inv blake3 vset d → decides d vset leader_of rounds sts →
  LeaderStatus_slot <$> sts = leader_of <$> rounds.
Proof.
  intros Hd. induction 1 as [|n rounds st above _ IH Hdir _|n rounds st above direct _ IH _ _ Hind]; [done|..];
    cbn; rewrite IH; f_equal.
  - apply (try_direct_decide_sound _ _ _ _ _ Hd) in Hdir.
    destruct st; cbn; [destruct Hdir as [? _]; by eapply block_at_slot_slot|by destruct Hdir|done].
  - apply (try_indirect_decide_sound _ _ _ _ _ _ Hd) in Hind.
    destruct st; cbn; [destruct Hind as [? _]; by eapply block_at_slot_slot|done..].
Qed.

Lemma decided_prefix_prefix l : decided_prefix l `prefix_of` l.
Proof.
  induction l as [|s l IH]; cbn; [done|]. destruct (is_decided s); [by apply prefix_cons|apply prefix_nil].
Qed.

Lemma decided_prefix_decided l : Forall (λ s, is_decided s = true) (decided_prefix l).
Proof. induction l as [|s l IH]; cbn; [done|]. destruct (is_decided s) eqn:E; [by constructor|done]. Qed.

Lemma wave_rounds_elem lower upper n :
  n ∈ wave_rounds lower upper ↔ lower <= n <= upper ∧ n mod WAVE_LENGTH = 0.
Proof.
  unfold wave_rounds. rewrite list_elem_of_filter, elem_of_reverse.
  destruct (N.le_gt_cases lower upper); [rewrite rounds_desc_elem by done; tauto|].
  replace (rounds_desc lower upper) with (@nil N); [rewrite elem_of_nil; lia|].
  unfold rounds_desc. by replace (N.to_nat (upper + 1 - lower)) with 0%nat by lia.
Qed.

Lemma StronglySorted_filter {A} (R : relation A) (P : A → Prop) `{!∀ x, Decision (P x)} l :
  StronglySorted R l → StronglySorted R (filter P l).
Proof.
  induction 1 as [|x l Hl IH Hx]; [constructor|]. rewrite filter_cons. case_decide; [|done].
  constructor; [done|]. apply Forall_forall. intros y [_ Hy]%list_elem_of_filter.
  rewrite Forall_forall in Hx. by apply Hx.
Qed.

Lemma wave_rounds_sorted lower upper : lower <= upper → StronglySorted N.lt (wave_rounds lower upper).
Proof.
  intros Hle. apply StronglySorted_filter. unfold rounds_desc.
  assert (∀ k, N.of_nat k <= upper + 1 →
    StronglySorted N.lt (reverse ((λ i, upper - N.of_nat i) <$> seq 0 k))) as Hk.
  { induction k as [|k IH]; intros Hk; [constructor|].
    rewrite seq_S, fmap_app, reverse_app; cbn. constructor; [apply IH; lia|].
    apply Forall_forall. intros n Hn. apply elem_of_reverse, list_elem_of_fmap in Hn as (i & -> & Hi).
    apply elem_of_seq in Hi. lia. }
  apply Hk. lia.
Qed.

(** ** No error on a well-formed committee *)

Lemma certificate_loop_total vset d s lref l q :
  vset_wf vset → agg_rep (power_of vset) q → counted q ⊆ dom (members vset) →
  ∃ r, certificate_loop s lref d vset q l = Ok r.
Proof.
  intros Hw. revert q; induction l as [|r l IH]; intros q Hq Hc; cbn [certificate_loop]; [by eauto|].
  destruct (blocks d !! r) as [v|]; [|by apply IH].
  destruct (is_vote v s lref); [|by apply IH].
  destruct (members vset !! ref_author r) as [m|] eqn:Em; [|by apply IH].
  assert (ref_author r ∈ dom (members vset)) by (apply elem_of_dom; eauto).
  rewrite <-(power_of_member _ _ _ Em).
  destruct (StakeAggregator_add q (ref_author r) _) as [[q' x]|e] eqn:Hadd; cbn.
  - apply add_rep in Hadd as (Hq' & -> & Hc' & _); [|done].
    destruct (reached q'); [by eauto|]. apply IH; [done|]. set_solver.
  - rewrite (add_spec (power_of vset)) in Hadd by done. case_decide as Hd; [done|].
    destruct Hd. etrans; [|apply Hw]. apply (stake_of_le_total vset); [done|set_solver].
Qed.

Lemma quorum_fold_total {B} vset (f : B → Address) (l : list B) :
  vset_wf vset →
  ∃ s, try_fold (λ agg b, add_member vset agg (f b)) (StakeAggregator_quorum (total_power vset)) l = Ok s.
Proof.
  intros Hw. rewrite (try_fold_map f (add_member vset)).
  apply tally_total; [done|apply agg_rep_quorum|set_solver].
Qed.

Lemma certified_step_total vset d s lref c b :
  vset_wf vset → (c = None ∨ c = Some lref) →
  ∃ c', certified_step s lref d vset c b = Ok c' ∧ (c' = None ∨ c' = Some lref).
Proof.
  intros Hw Hc. unfold certified_step, is_certificate.
  destruct (certificate_loop_total vset d s lref
    (ancestors_at_round b (voting_round (slot_round s))) (StakeAggregator_quorum (total_power vset)))
    as [x ->]; [done|apply agg_rep_quorum|set_solver|]. cbn.
  destruct x; [|by eauto]. destruct Hc as [-> | ->]; [by eauto|]. rewrite N.eqb_refl; cbn. eauto.
Qed.

Lemma scan_total {B} lref (f : option DagBlockRef → B → result ConsensusError (option DagBlockRef)) l c :
  (∀ c x, (c = None ∨ c = Some lref) → ∃ c', f c x = Ok c' ∧ (c' = None ∨ c' = Some lref)) →
  (c = None ∨ c = Some lref) → ∃ c', try_fold f c l = Ok c'.
Proof.
  intros Hf. revert c; induction l as [|x l IH]; intros c Hc; cbn; [by eauto|].
  destruct (Hf c x Hc) as (c' & -> & Hc'); cbn. by apply IH.
Qed.

Lemma try_direct_decide_total vset d s : vset_wf vset → ∃ st, try_direct_decide s d vset = Ok st.
Proof.
  intros Hw. unfold try_direct_decide, blame_aggregator, total_stake_at.
  rewrite (try_fold_filter (λ v, is_blame v s) (λ agg v, add_member vset agg (blk_author v))).
  destruct (quorum_fold_total vset blk_author (filter (λ v, is_blame v s)
    (blocks_at_round d (voting_round (slot_round s)))) Hw) as [blame Hb]. rewrite Hb; cbn.
  destruct (block_at_slot d s) as [lref|]; [|by eauto].
  destruct (reached blame); [by eauto|].
  destruct (quorum_fold_total vset blk_author (blocks_at_round d (decision_round (slot_round s))) Hw)
    as [dagg Hdg]. rewrite Hdg; cbn.
  destruct (reached dagg); cbn; [|by eauto].
  edestruct (scan_total lref (certified_step s lref d vset)) as [c ->];
    [intros; by apply certified_step_total|by left|]. cbn. eauto.
Qed.

Lemma try_indirect_decide_total vset d s above : vset_wf vset → ∃ st, try_indirect_decide s above d vset = Ok st.
Proof.
  intros Hw. induction above as [|[a|x|x] above IH]; cbn [try_indirect_decide]; [by eauto| |done|by eauto].
  destruct (_ <=? _); [|by eauto]. unfold decide_by_anchor.
  destruct (blocks d !! a) as [ab|]; [|by eauto].
  destruct (block_at_slot d s) as [lref|]; [|by eauto].
  edestruct (scan_total lref (anchor_step s lref d vset)) as [c ->]; [|by left|cbn; by eauto].
  intros c r Hc. unfold anchor_step. destruct (blocks d !! r); [by apply certified_step_total|by eauto].
Qed.

Lemma decide_round_total vset d leader_of sts n :
  vset_wf vset → ∃ sts', decide_round d vset leader_of sts n = Ok sts'.
Proof.
  intros Hw. unfold decide_round. destruct (_ =? _); cbn; [|by eauto].
  destruct (try_direct_decide_total vset d (leader_of n) Hw) as [st ->]; cbn.
  destruct (is_decided st); cbn; [by eauto|].
  destruct (try_indirect_decide_total vset d (leader_of n) sts Hw) as [st' ->]; cbn. eauto.
Qed.

Lemma decide_loop_total vset d leader_of l sts :
  vset_wf vset → ∃ sts', try_fold (decide_round d vset leader_of) sts l = Ok sts'.
Proof.
  intros Hw. revert sts; induction l as [|n l IH]; intros sts; cbn [try_fold]; [by eauto|].
  destruct (decide_round_total vset d leader_of sts n Hw) as [sts' ->]. apply IH.
Qed.

(** ** Agreement between two views *)

Section agreement.
Context (blake3 : list N → Hash) (vset : ValidatorSet) (byz : gset Address).
Context `{!QuorumSystem (is_quorum vset) byz}.

(** Authors outside the faulty set sign one block per slot: wherever two views
    hold a block of theirs for the same slot, the bodies agree. *)
Definition honest_views (d1 d2 : Dag) : Prop :=
  ∀ r1 b1 r2 b2, blocks d1 !! r1 = Some b1 → blocks d2 !! r2 = Some b2 →
    DagBlockRef_slot r1 = DagBlockRef_slot r2 → ref_author r1 ∉ byz → body b1 = body b2.

(** Two quorums of the same round, in two views, share an honest block. *)
Lemma backed_overlap d1 d2 n P Q X Y :
  honest_views d1 d2 → backed_by vset d1 n P X → backed_by vset d2 n Q Y →
  ∃ b1 b2, body b1 = body b2 ∧ P b1 ∧ Q b2.
Proof.
  intros Hh [HX HXb] [HY HYb].
  destruct (quorum_honest_overlap X Y HX HY) as (a & HaX & HaY & Hb).
  destruct (HXb a HaX) as (r1 & b1 & H1 & Ha1 & Hn1 & HP).
  destruct (HYb a HaY) as (r2 & b2 & H2 & Ha2 & Hn2 & HQ).
  exists b1, b2. split_and!; [|done..]. eapply (Hh r1 b1 r2 b2); [done..| |by rewrite Ha1].
  destruct r1, r2; unfold DagBlockRef_slot; cbn in *. by subst.
Qed.

Lemma is_vote_body b1 b2 s r : body b1 = body b2 → is_vote b1 s r = is_vote b2 s r.
Proof. unfold is_vote, find_supported_block, ancestors. by intros ->. Qed.

Lemma is_blame_body b1 b2 s : body b1 = body b2 → is_blame b1 s = is_blame b2 s.
Proof. unfold is_blame, ancestors. by intros ->. Qed.

Lemma certified_not_blamed d1 d2 s r :
  honest_views d1 d2 → certified_in vset d1 s r → blamed_in vset d2 s → False.
Proof.
  intros Hh [X HX] [Y HY]. destruct (backed_overlap _ _ _ _ _ _ _ Hh HX HY) as (b1 & b2 & Hb & Hv & Hbl).
  rewrite <-(is_blame_body b1 b2 s Hb) in Hbl. by rewrite (vote_not_blame _ _ _ Hv) in Hbl.
Qed.

Lemma certified_agree d1 d2 s r1 r2 :
  honest_views d1 d2 → certified_in vset d1 s r1 → certified_in vset d2 s r2 → r1 = r2.
Proof.
  intros Hh [X HX] [Y HY]. destruct (backed_overlap _ _ _ _ _ _ _ Hh HX HY) as (b1 & b2 & Hb & Hv1 & Hv2).
  rewrite <-(is_vote_body b1 b2 s r2 Hb) in Hv2. by eapply vote_unique.
Qed.

(** Every committed status of the driver is certified in its view. *)
Lemma decides_commit_certified d leader_of rounds sts r :
  dag_inv blake3 vset d → decides d vset leader_of rounds sts → Commit r ∈ sts →
  certified_in vset d (DagBlockRef_slot r) r.
Proof.
  intros Hd.
  induction 1 as [|n rounds st above _ IH Hdir _|n rounds st above direct _ IH _ _ Hind];
    [by intros ?%not_elem_of_nil|..]; intros [<-|?]%elem_of_cons; try by apply IH.
  - apply (try_direct_decide_sound _ _ _ _ _ Hd) in Hdir as [Hs Hc].
    by rewrite (block_at_slot_slot _ _ _ _ _ Hd Hs).
  - apply (try_indirect_decide_sound _ _ _ _ _ _ Hd) in Hind as [Hs Hc].
    by rewrite (block_at_slot_slot _ _ _ _ _ Hd Hs).
Qed.
End agreement.

Lemma try_decide_decides d vset leader_of last_decided out :
  try_decide last_decided d vset leader_of = Ok out →
  ∃ sts, decides d vset leader_of
      (wave_rounds (wrapping_add64 (slot_round last_decided) 1) (highest_accepted_round d - 2)) sts
    ∧ out = decided_prefix sts.
Proof.
  unfold try_decide. cbv zeta. destruct (N.ltb_spec (saturating_sub (highest_accepted_round d) 2)
    (wrapping_add64 (slot_round last_decided) 1)) as [Hlt|Hge].
  - intros [= <-]. exists []. split; [|done].
    replace (wave_rounds _ _) with (@nil N); [constructor|].
    destruct (wave_rounds _ _) as [|n l] eqn:E; [done|].
    assert (n ∈ n :: l) as Hn by left. rewrite <-E, wave_rounds_elem in Hn.
    unfold saturating_sub in Hlt. lia.
  - intros (sts & Hl & [= <-])%bind_Ok. exists sts. split; [|done]. by apply decide_loop_decides.
Qed.

Lemma try_decide_total vset d leader_of last_decided :
  vset_wf vset → ∃ out, try_decide last_decided d vset leader_of = Ok out.
Proof.
  intros Hw. unfold try_decide. cbv zeta. destruct (_ <? _); [by eauto|].
  destruct (decide_loop_total vset d leader_of (rounds_desc (wrapping_add64 (slot_round last_decided) 1)
    (saturating_sub (highest_accepted_round d) 2)) [] Hw) as [sts ->]. cbn. eauto.
Qed.

(** ** Theorems *)

(** The driver returns the gapless decided prefix: on every reachable store,
    the output of [try_decide] decides, without a gap and in ascending order,
    the leader slots of an initial segment of the wave-aligned rounds between
    the round after the last decided one and [highest - 2]; nothing undecided
    is ever emitted, and it stops early only in front of a slot that neither the
    direct nor the indirect rule decides. *)
Theorem try_decide_gapless blake3 vset epoch d leader_of last_decided out :
  dag_reachable blake3 vset epoch d → slot_round last_decided < u64_max →
  try_decide last_decided d vset leader_of = Ok out →
  let rounds := wave_rounds (slot_round last_decided + 1) (highest_accepted_round d - 2) in
  (∀ n, n ∈ rounds ↔ slot_round last_decided < n <= highest_accepted_round d - 2 ∧ n mod WAVE_LENGTH = 0) ∧
  Forall (λ s, is_decided s = true) out ∧
  (LeaderStatus_slot <$> out) `prefix_of` (leader_of <$> rounds) ∧
  ∃ sts, decides d vset leader_of rounds sts ∧ out = decided_prefix sts.
Proof.
  intros [Hd _]%dag_reachable_ok Hl Ht rounds. apply try_decide_decides in Ht as (sts & Hdec & ->).
  rewrite wrapping_add64_small in Hdec by (unfold u64_max in *; lia). fold rounds in Hdec.
  split_and!; [|apply decided_prefix_decided| |by exists sts].
  - intros n. unfold rounds. rewrite wave_rounds_elem. lia.
  - rewrite <-(decides_slots _ _ _ _ _ _ Hd Hdec). destruct (decided_prefix_prefix sts) as [k Hk].
    exists (LeaderStatus_slot <$> k). by rewrite <-fmap_app, <-Hk.
Qed.

(** On a committee whose recorded total is the sum of its members' power, the
    commit rule is total: [try_decide] returns on every store, whatever blocks
    it holds; in particular [StakeOverflow] and [ByzantineInvariantBreach] are
    never raised. *)
Theorem try_decide_never_fails vset d leader_of last_decided :
  vset_wf vset → ∃ out, try_decide last_decided d vset leader_of = Ok out.
Proof. apply try_decide_total. Qed.

(** C1. Commit agreement: when at most a third of the stake is faulty and the
    other validators sign one block per slot, two validators never commit
    different blocks for the same leader slot, whichever rule each used, and no
    block one of them commits belongs to a slot that the other skips directly. *)
Theorem commit_agreement blake3 vset byz epoch1 epoch2 d1 d2 leader1 leader2 last1 last2 out1 out2 r1 :
  vset_wf vset → byz_bounded vset byz → honest_views byz d1 d2 →
  dag_reachable blake3 vset epoch1 d1 → dag_reachable blake3 vset epoch2 d2 →
  try_decide last1 d1 vset leader1 = Ok out1 → try_decide last2 d2 vset leader2 = Ok out2 →
  Commit r1 ∈ out1 →
  (∀ r2, Commit r2 ∈ out2 → DagBlockRef_slot r1 = DagBlockRef_slot r2 → r1 = r2) ∧
  try_direct_decide (DagBlockRef_slot r1) d2 vset ≠ Ok (Skip (DagBlockRef_slot r1)).
Proof.
  intros Hw Hb Hh [Hd1 _]%dag_reachable_ok [Hd2 _]%dag_reachable_ok.
  pose proof (stake_quorum_system vset byz Hw Hb).
  intros (sts1 & Hs1 & ->)%try_decide_decides (sts2 & Hs2 & ->)%try_decide_decides Hr1.
  assert (certified_in vset d1 (DagBlockRef_slot r1) r1) as Hc1.
  { eapply decides_commit_certified; [done..|]. by eapply elem_of_prefix, decided_prefix_prefix. }
  split.
  - intros r2 Hr2 Hs. apply (certified_agree vset byz d1 d2 (DagBlockRef_slot r1)); [done..|]. rewrite Hs.
    eapply decides_commit_certified; [done..|]. by eapply elem_of_prefix, decided_prefix_prefix.
  - intros Hskip. apply (try_direct_decide_sound _ _ _ _ _ Hd2) in Hskip as [_ Hbl].
    by apply (certified_not_blamed vset byz d1 d2 (DagBlockRef_slot r1) r1).
Qed.
