(* ===== verification/Leader.v ===== *)
(** * Commit records, reputation and the leader schedule
    ([crates/lemma-consensus/src/commit.rs], [reputation.rs], [pulse/leader.rs])

    The commit record with its chained digest, the scores earned by committed
    blocks, the swap table that replaces persistently failing leaders, and the
    round-robin schedule that [try_decide] is given. *)
From S2P Require Import Prelude CoreTypes StakeAgg DagBlock.

(** ** [commit.rs] *)

(** [Commit] in the source; [LeaderStatus::Commit] owns that name here. *)
Record CommitRec := {
  index : N;
  previous_digest : Hash;
  timestamp_ms : N;
  leader : DagBlockRef;
  commit_blocks : list DagBlockRef;
}.

Definition commit_preimage (c : CommitRec) : list N :=
  be_bytes 8 (index c) ++ Hash_as_bytes (previous_digest c) ++ be_bytes 8 (timestamp_ms c)
  ++ ref_preimage (leader c) ++ seq_preimage ref_preimage (commit_blocks c).

Definition Commit_digest (blake3 : list N → Hash) (self : CommitRec) : Hash :=
  blake3 (commit_preimage self).

Definition genesis_previous : Hash := Hash_zero.

(** ** [reputation.rs] *)

Record ReputationScores := { scores : gmap Address N }.

Definition ReputationScores_empty : ReputationScores := {| scores := ∅ |}.

(** [let entry = scores.entry(author).or_insert(0); *entry = entry.saturating_add(1)]. *)
Definition score_block (m : gmap Address N) (r : DagBlockRef) : gmap Address N :=
  <[ref_author r := saturating_add u64_max (default 0 (m !! ref_author r)) 1]> m.

Definition from_commits (commits : list CommitRec) : ReputationScores :=
  {| scores := foldl (λ m c, foldl score_block m (commit_blocks c)) ∅ commits |}.

Definition score (self : ReputationScores) (author : Address) : N :=
  default 0 (scores self !! author).

Record LeaderSwapTable := { swaps : gmap Address Address }.

Definition LeaderSwapTable_identity : LeaderSwapTable := {| swaps := ∅ |}.

(** [(scores.score(addr), *addr)], compared as a pair. *)
Definition score_le (s : ReputationScores) (a b : Address) : Prop :=
  score s a < score s b ∨ (score s a = score s b ∧ a <= b).

#[export] Instance score_le_dec s : RelDecision (score_le s).
Proof. intros a b. unfold score_le. apply _. Defined.

Definition swap_pair (s : ReputationScores) (m : gmap Address Address) (p : Address * Address)
    : gmap Address Address :=
  if score s p.1 <? score s p.2 then <[p.1 := p.2]> m else m.

Definition from_scores (s : ReputationScores) (committee : ValidatorSet) (swap_count : nat)
    : LeaderSwapTable :=
  if (swap_count =? 0)%nat || bool_decide (members committee = ∅) then LeaderSwapTable_identity else
  let ms := bmap_keys (members committee) in
  let n := length ms in
  let actual := (swap_count `min` (n / 2))%nat in
  if (actual =? 0)%nat then LeaderSwapTable_identity else
  let sorted := sort_by (score_le s) ms in
  let bad := take actual sorted in
  let good := drop (n - actual) sorted in
  {| swaps := foldl (swap_pair s) ∅ (zip bad (reverse good)) |}.

Definition LeaderSwapTable_swap (self : LeaderSwapTable) (candidate : Address) (_round : N) : Address :=
  default candidate (swaps self !! candidate).

(** ** [pulse/leader.rs] *)

Record LeaderSchedule := {
  committee_order : list Address;
  offset : N;
  swap : LeaderSwapTable;
}.

Definition LeaderSchedule_with_swap (vset : ValidatorSet) (off : N) (sw : LeaderSwapTable)
    : result ConsensusError LeaderSchedule :=
  if bool_decide (members vset = ∅) then Err (EmptyCommittee (vs_epoch vset)) else
  Ok {| committee_order := bmap_keys (members vset); offset := off; swap := sw |}.

Definition LeaderSchedule_with_offset (vset : ValidatorSet) (off : N) : result ConsensusError LeaderSchedule :=
  LeaderSchedule_with_swap vset off LeaderSwapTable_identity.

Definition LeaderSchedule_new (vset : ValidatorSet) : result ConsensusError LeaderSchedule :=
  LeaderSchedule_with_swap vset LEADER_OFFSET LeaderSwapTable_identity.

(** [committee_order[idx]] panics out of range; [elect_leader_in_range] shows the
    default below is never used for a schedule built by a constructor. *)
Definition elect_leader (self : LeaderSchedule) (round : N) : Slot :=
  let len := N.of_nat (length (committee_order self)) in
  let idx := wrapping_add64 round (offset self) mod len in
  let candidate := default 0 (committee_order self !! N.to_nat idx) in
  {| slot_round := round; slot_author := LeaderSwapTable_swap (swap self) candidate round |}.

(** ** Proofs *)

Lemma schedule_order vset off sw sched :
  LeaderSchedule_with_swap vset off sw = Ok sched →
  committee_order sched = bmap_keys (members vset) ∧ offset sched = off ∧ swap sched = sw
  ∧ committee_order sched ≠ [].
Proof.
  unfold LeaderSchedule_with_swap. case_bool_decide as He; [done|]. intros [= <-]; cbn.
  split_and!; [done..|]. intros Hk. apply He. apply map_empty. intros a.
  apply eq_None_not_Some. rewrite <-elem_of_bmap_keys, Hk. set_solver.
Qed.

(** The index is in range. *)
Lemma elect_leader_in_range vset off sw sched round :
  LeaderSchedule_with_swap vset off sw = Ok sched →
  ∃ c, committee_order sched !!
      N.to_nat (wrapping_add64 round (offset sched) mod N.of_nat (length (committee_order sched))) = Some c
    ∧ is_Some (members vset !! c)
    ∧ elect_leader sched round =
        {| slot_round := round; slot_author := LeaderSwapTable_swap sw c round |}.
Proof.
  intros (Ho & _ & Hs & Hne)%schedule_order.
  destruct (lookup_lt_is_Some_2 (committee_order sched)
    (N.to_nat (wrapping_add64 round (offset sched) mod N.of_nat (length (committee_order sched)))))
    as [c Hc].
  { assert (N.of_nat (length (committee_order sched)) ≠ 0) as Hn by (destruct (committee_order sched); [done|cbn [length]; lia]).
    pose proof (N.mod_lt (wrapping_add64 round (offset sched)) _ Hn). lia. }
  exists c. split_and!; [done| |unfold elect_leader; by rewrite Hc, Hs].
  rewrite <-elem_of_bmap_keys, <-Ho. apply list_elem_of_lookup. eauto.
Qed.

(** *** Swap table *)

Lemma swap_fold_lookup s l m b g :
  foldl (swap_pair s) m l !! b = Some g →
  m !! b = Some g ∨ ((b, g) ∈ l ∧ score s b < score s g).
Proof.
  revert m; induction l as [|[b' g'] l IH]; intros m; cbn; [by left|].
  intros [Hm|[Hin Hs]]%IH; [|right; split; [by right|done]].
  unfold swap_pair in Hm; cbn in Hm. destruct (N.ltb_spec (score s b') (score s g')) as [Hlt|]; [|by left].
  apply lookup_insert_Some in Hm as [[<- <-]|[_ Hm]]; [|by left]. right. split; [by left|done].
Qed.

Lemma zip_snd_inj {A B} (l : list A) (k : list B) a1 a2 b :
  NoDup k → (a1, b) ∈ zip l k → (a2, b) ∈ zip l k → a1 = a2.
Proof.
  intros Hnd [i Hi]%list_elem_of_lookup [j Hj]%list_elem_of_lookup.
  apply lookup_zip_Some in Hi as [Hi1 Hi2], Hj as [Hj1 Hj2].
  assert (i = j) as -> by (by eapply NoDup_lookup). congruence.
Qed.

Lemma take_drop_disjoint {A} (l : list A) i j x :
  NoDup l → (i <= j)%nat → x ∈ take i l → x ∈ drop j l → False.
Proof.
  intros Hnd Hij [p Hp]%list_elem_of_lookup [q Hq]%list_elem_of_lookup.
  apply lookup_take_Some in Hp as [Hp Hpi]. rewrite lookup_drop in Hq.
  assert (p = j + q)%nat by (by eapply NoDup_lookup). lia.
Qed.

Lemma from_scores_pairs s vset k b g :
  swaps (from_scores s vset k) !! b = Some g →
  ∃ sorted n actual, sorted ≡ₚ bmap_keys (members vset) ∧ n = length sorted
    ∧ (actual <= k)%nat ∧ (actual + actual <= n)%nat
    ∧ from_scores s vset k =
        {| swaps := foldl (swap_pair s) ∅ (zip (take actual sorted) (reverse (drop (n - actual) sorted))) |}.
Proof.
  unfold from_scores. destruct (_ || _); [done|]. cbv zeta. destruct (_ =? 0)%nat; [done|]. intros _.
  set (ms := bmap_keys (members vset)).
  exists (sort_by (score_le s) ms), (length ms), (k `min` (length ms / 2))%nat.
  split_and!; [apply sort_by_perm|by rewrite sort_by_perm|lia| |done].
  pose proof (Nat.Div0.div_mod (length ms) 2). pose proof (Nat.le_min_r k (length ms / 2)). lia.
Qed.

(** The reputation swap table is sound: every entry replaces a committee
    member by a *different* member with a strictly higher score that is not
    itself replaced; two members are never given the same replacement; so a
    swapped leader is always a current, better scored member. *)
Theorem swap_table_sound s vset k b g :
  swaps (from_scores s vset k) !! b = Some g →
  is_Some (members vset !! b) ∧ is_Some (members vset !! g) ∧ score s b < score s g
  ∧ swaps (from_scores s vset k) !! g = None
  ∧ ∀ b', swaps (from_scores s vset k) !! b' = Some g → b' = b.
Proof.
  intros H. destruct (from_scores_pairs s vset k b g H) as (sorted & n & actual & Hp & -> & Hk & Ha & Heq).
  assert (NoDup sorted) as Hnd by (rewrite Hp; apply bmap_keys_NoDup).
  rewrite Heq in *; cbn in *.
  assert (∀ x y, foldl (swap_pair s) ∅ (zip (take actual sorted)
      (reverse (drop (length sorted - actual) sorted))) !! x = Some y →
    (x, y) ∈ zip (take actual sorted) (reverse (drop (length sorted - actual) sorted))
    ∧ x ∈ take actual sorted ∧ y ∈ drop (length sorted - actual) sorted ∧ score s x < score s y) as Hin.
  { intros x y [?|[Hin Hs]]%swap_fold_lookup; [by rewrite lookup_empty in *|].
    pose proof (elem_of_zip_l _ _ _ _ Hin). pose proof (elem_of_zip_r _ _ _ _ Hin) as Hr.
    rewrite elem_of_reverse in Hr. done. }
  destruct (Hin b g H) as (Hz & Hb & Hg & Hs).
  rewrite <-!elem_of_bmap_keys, <-!Hp. split_and!.
  - apply elem_of_take in Hb as (i & ? & _). apply list_elem_of_lookup; eauto.
  - apply list_elem_of_lookup in Hg as [i Hi]. rewrite lookup_drop in Hi. apply list_elem_of_lookup; eauto.
  - done.
  - apply eq_None_not_Some. intros [y (_ & Hg' & _)%Hin].
    eapply (take_drop_disjoint sorted actual (length sorted - actual)); [done| |exact Hg'|exact Hg]. lia.
  - intros b' (Hz' & _)%Hin. eapply zip_snd_inj; [|done..].
    rewrite reverse_Permutation. eapply sublist_NoDup; [exact Hnd|apply sublist_drop].
Qed.

(** *** Rotation *)

(** Three is invertible modulo a size it does not divide. *)
Lemma wave_index_surjective n j :
  n mod 3 ≠ 0 → j < n → ∃ w, w < n ∧ (3 * w) mod n = j.
Proof.
  intros Hn Hj.
  assert (∃ inv k, 3 * inv = k * n + 1) as (inv & k & Hinv).
  { pose proof (N.div_mod' n 3) as Hd. pose proof (N.mod_lt n 3 ltac:(lia)).
    revert Hd H Hn. generalize (n / 3) (n mod 3). intros q m Hd Hlt Hm.
    destruct (decide (m = 1)) as [->|H1].
    - exists (2 * q + 1), 2. lia.
    - exists (q + 1), 1. lia. }
  exists ((j * inv) mod n). split; [apply N.mod_lt; lia|].
  rewrite N.Div0.mul_mod_idemp_r, (N.mul_comm 3), <-N.mul_assoc, (N.mul_comm inv), Hinv.
  replace (j * (k * n + 1)) with (j + (j * k) * n) by lia.
  rewrite N.Div0.mod_add. by apply N.mod_small.
Qed.

Lemma wave_index_multiple n w : n mod 3 = 0 → 0 < n → ((3 * w) mod n) mod 3 = 0.
Proof.
  intros Hn Hp. apply N.Div0.mod_divides in Hn as [q ->].
  rewrite N.Div0.mul_mod_distr_l, N.mul_comm. apply N.Div0.mod_mul.
Qed.

Lemma elect_leader_wave vset sched w :
  LeaderSchedule_new vset = Ok sched → 3 * w <= u64_max →
  let n := N.of_nat (length (committee_order sched)) in
  committee_order sched !! N.to_nat ((3 * w) mod n) = Some (slot_author (elect_leader sched (3 * w))).
Proof.
  intros Hs Hw. destruct (elect_leader_in_range _ _ _ _ (3 * w) Hs) as (c & Hc & _ & ->).
  apply schedule_order in Hs as (_ & Hoff & _). cbn.
  rewrite Hoff in Hc. unfold LEADER_OFFSET in Hc. rewrite wrapping_add64_small, N.add_0_r in Hc by lia.
  exact Hc.
Qed.

(** Leader rotation over the waves: the leader of a wave is always a
    committee member.  When the committee size is not a multiple of the wave
    length, every member leads one of any [n] first waves; when it is, only
    members at positions divisible by three in address order ever lead. *)
Theorem leader_rotation vset sched :
  LeaderSchedule_new vset = Ok sched →
  let n := N.of_nat (length (committee_order sched)) in
  3 * n <= u64_max →
  (∀ round, is_Some (members vset !! slot_author (elect_leader sched round))) ∧
  (n mod WAVE_LENGTH ≠ 0 → ∀ a, is_Some (members vset !! a) →
     ∃ w, w < n ∧ slot_author (elect_leader sched (WAVE_LENGTH * w)) = a) ∧
  (n mod WAVE_LENGTH = 0 → ∀ w i, WAVE_LENGTH * w <= u64_max →
     committee_order sched !! i = Some (slot_author (elect_leader sched (WAVE_LENGTH * w))) →
     N.of_nat i mod WAVE_LENGTH = 0).
Proof.
  intros Hs n Hn. unfold WAVE_LENGTH. destruct (schedule_order _ _ _ _ Hs) as (Ho & _ & _ & Hne).
  assert (0 < n) as Hpos by (unfold n; destruct (committee_order sched); [done|cbn [length]; lia]).
  split_and!.
  - intros round. destruct (elect_leader_in_range _ _ _ _ round Hs) as (c & _ & Hc & ->). exact Hc.
  - intros Hm a Ha. rewrite <-elem_of_bmap_keys, <-Ho in Ha. apply list_elem_of_lookup in Ha as [j Hj].
    pose proof (lookup_lt_Some _ _ _ Hj).
    destruct (wave_index_surjective n (N.of_nat j)) as (w & Hw & Hwj); [done|lia|].
    exists w. split; [done|].
    pose proof (elect_leader_wave vset sched w Hs ltac:(lia)) as He. cbv zeta in He. fold n in He.
    rewrite Hwj, Nat2N.id in He. congruence.
  - intros Hm w i Hw Hi. pose proof (elect_leader_wave vset sched w Hs Hw) as He. cbv zeta in He. fold n in He.
    assert (NoDup (committee_order sched)) as Hnd by (rewrite Ho; apply bmap_keys_NoDup).
    assert (i = N.to_nat ((3 * w) mod n)) as -> by (by eapply NoDup_lookup).
    rewrite N2Nat.id. by apply wave_index_multiple.
Qed.
