(* ===== verification/CommitFork.v ===== *)
(** * Two honest views on which the commit rule disagrees

    [try_direct_decide] commits a leader as soon as *one* block of the decision
    round certifies it (and the round as a whole carries a quorum); its
    documentation asks for a quorum of certificates.  The views below are built
    from one set of valid blocks, one per slot, by four correct validators; the
    second has simply not received the only certifying block yet.  The first
    commits the leader of round 3, the second skips it through its anchor. *)
From S2P Require Import Prelude CoreTypes StakeAgg DagBlock DagGraph Scenario Committer Leader.

Definition schedule4 : LeaderSchedule :=
  {| committee_order := [1; 2; 3; 4]; offset := LEADER_OFFSET; swap := LeaderSwapTable_identity |}.

Lemma schedule4_new : LeaderSchedule_new vset4 = Ok schedule4.
Proof. vm_compute. done. Qed.

(** The blocks of [l] by the given authors. *)
Definition by_authors (l : list DagBlock) (authors : list Address) : list DagBlock :=
  filter (λ b, blk_author b ∈ authors) l.

(** Round 4: validators 2, 3, 4 vote for the leader of round 3 (validator 4);
    validator 1 has not seen its block. *)
Definition fork_round4 : list DagBlock := Eval vm_compute in
  mk_block 4 1 (by_authors round3 [1; 2; 3]) :: ((λ a, mk_block 4 a round3) <$> [2; 3; 4]).

(** Round 5: only validator 2's block collects the three votes. *)
Definition fork_round5 : list DagBlock := Eval vm_compute in
  [ mk_block 5 1 (by_authors fork_round4 [1; 2; 3]);
    mk_block 5 2 (by_authors fork_round4 [2; 3; 4]);
    mk_block 5 3 (by_authors fork_round4 [1; 3; 4]);
    mk_block 5 4 (by_authors fork_round4 [1; 2; 4]) ].

(** Rounds 6 to 8, built without validator 2's block of round 5. *)
Definition late_round5 : list DagBlock := Eval vm_compute in by_authors fork_round5 [1; 3; 4].
Definition fork_round6 : list DagBlock := Eval vm_compute in (λ a, mk_block 6 a late_round5) <$> [1; 3; 4].
Definition fork_round7 : list DagBlock := Eval vm_compute in (λ a, mk_block 7 a fork_round6) <$> [1; 3; 4].
Definition fork_round8 : list DagBlock := Eval vm_compute in (λ a, mk_block 8 a fork_round7) <$> [1; 3; 4].

Definition common_past : list DagBlock := round0 ++ round1 ++ round2 ++ round3 ++ fork_round4.
Definition view_early : Dag := store_of (common_past ++ fork_round5).
Definition view_late : Dag := store_of (common_past ++ late_round5 ++ fork_round6 ++ fork_round7 ++ fork_round8).

Definition genesis_slot : Slot := {| slot_round := 0; slot_author := Address_zero |}.

Definition honest_check (d1 d2 : Dag) : bool :=
  forallb (λ kv1, forallb (λ kv2,
    bool_decide (DagBlockRef_slot kv1.1 ≠ DagBlockRef_slot kv2.1) || bool_decide (body kv1.2 = body kv2.2))
    (map_to_list (blocks d2))) (map_to_list (blocks d1)).

Lemma honest_check_sound byz d1 d2 : honest_check d1 d2 = true → honest_views byz d1 d2.
Proof.
  unfold honest_check. rewrite forallb_forall. intros H r1 b1 r2 b2 H1 H2 Hs _.
  specialize (H (r1, b1)). rewrite <-list_elem_of_In, elem_of_map_to_list in H. specialize (H H1).
  rewrite forallb_forall in H. specialize (H (r2, b2)).
  rewrite <-list_elem_of_In, elem_of_map_to_list in H. specialize (H H2).
  apply orb_true_iff in H as [H|H]; apply bool_decide_eq_true_1 in H; done.
Qed.

(** ** Proofs *)

Lemma early_commits :
  ∃ r, try_decide genesis_slot view_early vset4 (elect_leader schedule4) = Ok [Commit r]
    ∧ DagBlockRef_slot r = {| slot_round := 3; slot_author := 4 |}.
Proof. eexists. split; vm_compute; done. Qed.

Lemma late_skips :
  ∃ r, try_decide genesis_slot view_late vset4 (elect_leader schedule4)
    = Ok [Skip {| slot_round := 3; slot_author := 4 |}; Commit r].
Proof. eexists. vm_compute; done. Qed.

(** C11. Two views of one execution disagree on a leader although every block is
    valid, every author has at most one block per round in both views together,
    and the committee of four equal stakes tolerates a faulty member: the view
    that received the only certifying block of round 5 commits the leader of
    round 3, the one that has not received it skips that leader through its
    anchor.  Committing on a single certificate is therefore not safe. *)
Theorem direct_commit_conflicts_with_anchor_skip :
  vset_wf vset4 ∧ LeaderSchedule_new vset4 = Ok schedule4 ∧
  dag_reachable test_hash vset4 0 view_early ∧ dag_reachable test_hash vset4 0 view_late ∧
  honest_views ∅ view_early view_late ∧
  ∃ r late, try_decide genesis_slot view_early vset4 (elect_leader schedule4) = Ok [Commit r] ∧
    try_decide genesis_slot view_late vset4 (elect_leader schedule4) = Ok late ∧
    Skip (DagBlockRef_slot r) ∈ late.
Proof.
  destruct early_commits as (r & He & Hr). destruct late_skips as (r' & Hl).
  split_and!; [exact vset4_wf|exact schedule4_new|apply store_of_reachable|apply store_of_reachable| |].
  - apply honest_check_sound. vm_compute. done.
  - exists r. eexists. split_and!; [exact He|exact Hl|]. rewrite Hr. left.
Qed.
