(* ===== verification/Linearizer.v ===== *)
(** * The linearizer ([crates/lemma-consensus/src/pulse/linearizer.rs])

    Flattening of a committed leader's sub-DAG, commit timestamps and the chain
    of commit records.  The depth-first search carries fuel:
    [linearize_terminates] shows that the fuel passed is never exhausted.

    [commit_leaders] writes to the linearizer before it can fail, so its model
    returns the linearizer and the store next to the result. *)
From S2P Require Import Prelude CoreTypes StakeAgg DagBlock DagGraph Committer Leader.

Record Linearizer := {
  next_index : N;
  last_digest : Hash;
  committed : gset DagBlockRef;
  last_timestamp_ms : N;
}.

Definition Linearizer_new : Linearizer :=
  {| next_index := 1; last_digest := genesis_previous; committed := ∅; last_timestamp_ms := 0 |}.

(** ** [linearize_sub_dag] *)

(** The body of the inner loop: the committed set and the stack (its top first). *)
Definition visit_ancestor (gc : N) (st : gset DagBlockRef * list DagBlockRef) (a : DagBlockRef)
    : gset DagBlockRef * list DagBlockRef :=
  if (ref_round a <=? gc) || bool_decide (a ∈ st.1) then st
  else ({[a]} ∪ st.1, a :: st.2).

Fixpoint sub_dag_loop (fuel : nat) (d : Dag) (gc : N) (c : gset DagBlockRef)
    (stack to_commit : list DagBlockRef) : option (gset DagBlockRef * list DagBlockRef) :=
  match stack with
  | [] => Some (c, to_commit)
  | r :: stack' =>
      match fuel with
      | O => None
      | S fuel' =>
          match blocks d !! r with
          | None => sub_dag_loop fuel' d gc c stack' (to_commit ++ [r])
          | Some b =>
              let st := foldl (visit_ancestor gc) (c, stack') (ancestors b) in
              sub_dag_loop fuel' d gc st.1 st.2 (to_commit ++ [r])
          end
      end
  end.

(** [a.round.cmp(&b.round).then_with(|| a.author.cmp(&b.author))]. *)
Definition slot_le (a b : DagBlockRef) : Prop :=
  ref_round a < ref_round b ∨ (ref_round a = ref_round b ∧ ref_author a <= ref_author b).

#[export] Instance slot_le_dec : RelDecision slot_le.
Proof. intros a b. unfold slot_le. apply _. Defined.

(** Every reference some stored block lists. *)
Definition listed_ancestors (d : Dag) : list DagBlockRef :=
  mjoin ((λ kv, ancestors kv.2) <$> map_to_list (blocks d)).

(** One pop for the leader and one per listed reference. *)
Definition linearize_fuel (d : Dag) : nat := S (length (listed_ancestors d)).

Definition linearize_sub_dag (leader_ref : DagBlockRef) (d : Dag) (c : gset DagBlockRef)
    : gset DagBlockRef * list DagBlockRef :=
  let c1 := {[leader_ref]} ∪ c in
  let res := default (c1, []) (sub_dag_loop (linearize_fuel d) d (gc_round d) c1 [leader_ref] []) in
  (res.1, sort_by slot_le res.2).

(** ** [commit_timestamp], [stake_weighted_median] *)

(** The loop that looks for the crossing point. *)
Fixpoint median_walk (threshold accumulated : N) (l : list (N * N)) : option N :=
  match l with
  | [] => None
  | (stake, ts) :: l' =>
      let acc := accumulated + stake in
      if threshold <? acc then Some ts else median_walk threshold acc l'
  end.

Definition ts_le (x y : N * N) : Prop := x.2 <= y.2.

#[export] Instance ts_le_dec : RelDecision ts_le.
Proof. intros x y. unfold ts_le. apply _. Defined.

Definition stake_weighted_median (blake3 : list N → Hash) (samples : list (N * N)) : result ConsensusError N :=
  let sentinel := Address_from_public_key blake3 (replicate 32 0) in
  total ← try_fold (λ acc s, ok_or (StakeOverflow sentinel) (checked_add u128_max acc s.1)) 0 samples;
  let sorted := sort_by ts_le samples in
  let threshold := total / 2 in
  Ok (match median_walk threshold 0 sorted with
      | Some ts => ts
      | None => default 0 (snd <$> last sorted)
      end).

(** The samples [commit_timestamp] collects. *)
Definition timestamp_samples (b : DagBlock) (d : Dag) (vset : ValidatorSet) : list (N * N) :=
  omap (λ r, m ← members vset !! ref_author r; p ← blocks d !! r; Some (power m, blk_timestamp_ms p))
    (ancestors_at_round b (blk_round b - 1)).

Definition commit_timestamp (blake3 : list N → Hash) (b : DagBlock) (last_commit_ts_ms : N)
    (d : Dag) (vset : ValidatorSet) : result ConsensusError N :=
  if blk_round b =? 0 then Ok last_commit_ts_ms else
  let samples := timestamp_samples b d vset in
  if bool_decide (samples = []) then Ok last_commit_ts_ms else
  median ← stake_weighted_median blake3 samples;
  Ok (N.max median last_commit_ts_ms).

(** ** [commit_leaders] *)

(** One iteration for a [Commit] entry.  A failing timestamp leaves the
    sub-DAG's references in the committed set. *)
Definition commit_one (blake3 : list N → Hash) (vset : ValidatorSet) (d : Dag) (self : Linearizer)
    (leader_ref : DagBlockRef) : Linearizer * result ConsensusError CommitRec :=
  match blocks d !! leader_ref with
  | None => (self, Err (DecidedLeaderMissing (ref_round leader_ref) (ref_author leader_ref)))
  | Some leader_block =>
      let '(c, bs) := linearize_sub_dag (reference leader_block) d (committed self) in
      match commit_timestamp blake3 leader_block (last_timestamp_ms self) d vset with
      | Err e =>
          ({| next_index := next_index self; last_digest := last_digest self; committed := c;
              last_timestamp_ms := last_timestamp_ms self |}, Err e)
      | Ok ts =>
          let commit := {| index := next_index self; previous_digest := last_digest self;
                           timestamp_ms := ts; leader := leader_ref; commit_blocks := bs |} in
          ({| next_index := wrapping_add64 (next_index self) 1; last_digest := Commit_digest blake3 commit;
              committed := c; last_timestamp_ms := ts |}, Ok commit)
      end
  end.

Fixpoint commit_loop (blake3 : list N → Hash) (vset : ValidatorSet) (d : Dag) (self : Linearizer)
    (decided : list LeaderStatus) : Linearizer * result ConsensusError (list CommitRec) :=
  match decided with
  | [] => (self, Ok [])
  | Commit leader_ref :: rest =>
      match commit_one blake3 vset d self leader_ref with
      | (self', Err e) => (self', Err e)
      | (self', Ok c) =>
          let '(self'', r) := commit_loop blake3 vset d self' rest in
          (self'', cs ← r; Ok (c :: cs))
      end
  | _ :: rest => commit_loop blake3 vset d self rest
  end.

(** [commits.iter().map(|c| c.leader.round).max()]. *)
Definition max_leader_round (cs : list CommitRec) : option N :=
  match cs with
  | [] => None
  | c :: cs => Some (foldl (λ m c, N.max m (ref_round (leader c))) (ref_round (leader c)) cs)
  end.

Definition commit_leaders (blake3 : list N → Hash) (self : Linearizer) (decided : list LeaderStatus)
    (d : Dag) (vset : ValidatorSet) : (Linearizer * Dag) * result ConsensusError (list CommitRec) :=
  let '(self', r) := commit_loop blake3 vset d self decided in
  match r with
  | Err e => ((self', d), Err e)
  | Ok cs =>
      let d' := match max_leader_round cs with
        | Some highest => set_last_committed_round d highest
        | None => d
        end in
      ((self', d'), Ok cs)
  end.

(** ** The depth-first search *)

Definition listed_refs (d : Dag) : gset DagBlockRef := list_to_set (listed_ancestors d).

Lemma size_list_to_set_le (l : list DagBlockRef) : (size (list_to_set l : gset DagBlockRef) <= length l)%nat.
Proof.
  induction l as [|x l IH]; [done|]. cbn [list_to_set length].
  rewrite size_union_alt, size_singleton.
  assert (size ((list_to_set l : gset DagBlockRef) ∖ {[x]}) <= size (list_to_set l : gset DagBlockRef))%nat
    by (apply subseteq_size; set_solver). lia.
Qed.

Lemma linearize_fuel_enough d (leader : DagBlockRef) c :
  (length [leader] + size (listed_refs d ∖ c) <= linearize_fuel d)%nat.
Proof.
  unfold linearize_fuel. cbn [length]. apply le_n_S. etrans; [|apply size_list_to_set_le].
  apply subseteq_size. set_solver.
Qed.

Section sub_dag.
Context (d : Dag) (gc : N).

(** The search goes from a stored block to an ancestor that is above the
    garbage-collection round and was not committed before. *)
Definition sub_dag_edge (c : gset DagBlockRef) (x y : DagBlockRef) : Prop :=
  ∃ b, blocks d !! x = Some b ∧ y ∈ ancestors b ∧ gc < ref_round y ∧ y ∉ c.

Lemma visit_skip c stack a :
  (ref_round a <=? gc) || bool_decide (a ∈ c) = true → visit_ancestor gc (c, stack) a = (c, stack).
Proof. intros E. unfold visit_ancestor; cbn [fst snd]. by rewrite E. Qed.

Lemma visit_push c stack a :
  (ref_round a <=? gc) || bool_decide (a ∈ c) = false →
  visit_ancestor gc (c, stack) a = ({[a]} ∪ c, a :: stack).
Proof. intros E. unfold visit_ancestor; cbn [fst snd]. by rewrite E. Qed.

Lemma visit_all_spec l c stack :
  let st := foldl (visit_ancestor gc) (c, stack) l in
  ∃ new, st.2 = new ++ stack ∧ NoDup new ∧ st.1 = list_to_set new ∪ c
    ∧ (∀ y, y ∈ new ↔ y ∈ l ∧ gc < ref_round y ∧ y ∉ c).
Proof.
  revert c stack. induction l as [|a l IH]; intros c stack; cbn [foldl].
  - exists []. cbn. split_and!; [done|constructor|set_solver|]. intros y.
    rewrite !elem_of_nil. tauto.
  - destruct ((ref_round a <=? gc) || bool_decide (a ∈ c)) eqn:E.
    + rewrite visit_skip by done. destruct (IH c stack) as (new & H1 & H2 & H3 & H4). exists new. split_and!; [done..|].
      intros y. rewrite H4, elem_of_cons. split; [tauto|]. intros ([-> |?] & ? & ?); [|tauto].
      apply orb_true_iff in E as [E|E]; bool_hyps; [lia|done].
    + rewrite visit_push by done. bool_hyps. destruct (IH ({[a]} ∪ c) (a :: stack)) as (new & H1 & H2 & H3 & H4).
      exists (new ++ [a]). rewrite <-app_assoc. cbn [app].
      assert (a ∉ new) by (rewrite H4; set_solver).
      split_and!; [done| |rewrite H3; set_solver|].
      * apply NoDup_app. split_and!; [done| |apply NoDup_singleton]. set_solver.
      * intros y. rewrite elem_of_app, list_elem_of_singleton, H4, elem_of_cons.
        destruct (decide (y = a)) as [-> |]; [tauto|]. set_solver.
Qed.

Lemma visit_all_listed b r c stack :
  blocks d !! r = Some b →
  let st := foldl (visit_ancestor gc) (c, stack) (ancestors b) in
  (length st.2 + size (listed_refs d ∖ st.1) = length stack + size (listed_refs d ∖ c))%nat.
Proof.
  intros Hb. cbv zeta. destruct (visit_all_spec (ancestors b) c stack) as (new & -> & Hnd & -> & Hnew).
  assert (listed_refs d ∖ c ≡ list_to_set new ∪ listed_refs d ∖ (list_to_set new ∪ c)) as Hs.
  { intros y. destruct (decide (y ∈ new)) as [Hy|]; [|set_solver].
    rewrite elem_of_union, elem_of_list_to_set, elem_of_difference.
    split; [by left|]. intros _. apply Hnew in Hy as (Hy & _ & Hc). split; [|done]. unfold listed_refs, listed_ancestors.
    apply elem_of_list_to_set, list_elem_of_join. exists (ancestors b). split; [done|].
    apply list_elem_of_fmap. exists (r, b). by rewrite elem_of_map_to_list. }
  apply leibniz_equiv in Hs. rewrite Hs.
  rewrite (size_union (C := gset DagBlockRef) (list_to_set new)) by set_solver.
  rewrite (size_list_to_set (C := gset DagBlockRef) new Hnd), length_app. lia.
Qed.

Lemma sub_dag_loop_total fuel c stack out :
  (length stack + size (listed_refs d ∖ c) <= fuel)%nat →
  is_Some (sub_dag_loop fuel d gc c stack out).
Proof.
  revert c stack out. induction fuel as [|fuel IH]; intros c [|r stack] out; cbn [sub_dag_loop length];
    [by eauto|lia|by eauto|]. intros Hf.
  destruct (blocks d !! r) as [b|] eqn:Hb; apply IH; [|lia].
  pose proof (visit_all_listed b r c stack Hb) as Hv. cbv zeta in Hv. lia.
Qed.

Lemma sub_dag_loop_mono fuel k c stack out res :
  sub_dag_loop fuel d gc c stack out = Some res → sub_dag_loop (k + fuel) d gc c stack out = Some res.
Proof.
  revert c stack out. induction fuel as [|fuel IH]; intros c [|r stack] out.
  - by destruct k.
  - done.
  - by destruct k.
  - rewrite Nat.add_succ_r. cbn [sub_dag_loop]. destruct (blocks d !! r); apply IH.
Qed.

(** The search collects exactly what [leader] reaches. *)
Lemma sub_dag_loop_spec c0 leader fuel c stack out c' out' :
  c = c0 ∪ list_to_set (out ++ stack) → NoDup (out ++ stack) → leader ∈ out ++ stack →
  (∀ x, x ∈ out ++ stack → rtc (sub_dag_edge c0) leader x) →
  (∀ x y, x ∈ out → sub_dag_edge c0 x y → y ∈ out ++ stack) →
  sub_dag_loop fuel d gc c stack out = Some (c', out') →
  c' = c0 ∪ list_to_set out' ∧ NoDup out' ∧ ∀ x, x ∈ out' ↔ rtc (sub_dag_edge c0) leader x.
Proof.
  revert c stack out. induction fuel as [|fuel IH]; intros c [|r stack] out Hc Hnd Hl Hr Hcl;
    cbn [sub_dag_loop]; try done.
  1,2: intros [= <- <-]; rewrite app_nil_r in *; split_and!; [done..|]; intros x; split; [by apply Hr|];
    intros Hx; clear -Hl Hcl Hx; induction Hx as [|x y z Hxy Hyz IH]; eauto.
  assert (Permutation (out ++ r :: stack) (stack ++ r :: out)) as Hp.
  { rewrite (Permutation_app_comm out). cbn. by rewrite Permutation_middle. }
  destruct (blocks d !! r) as [b|] eqn:Hb; cbv zeta.
  - destruct (visit_all_spec (ancestors b) c stack) as (new & -> & Hnew & -> & Hin).
    assert (∀ x, x ∈ (out ++ [r]) ++ new ++ stack ↔ x ∈ new ∨ x ∈ out ++ r :: stack) as Hel by set_solver.
    apply IH.
    + rewrite Hc. apply set_eq. intros x.
      rewrite !elem_of_union, !elem_of_list_to_set, Hel. tauto.
    + assert (Permutation ((out ++ [r]) ++ new ++ stack) (new ++ (out ++ r :: stack))) as ->.
      { rewrite <-app_assoc. cbn. rewrite (Permutation_app_comm new stack), !app_comm_cons, app_assoc.
        apply Permutation_app_comm. }
      apply NoDup_app. split_and!; [done| |done]. intros x (_ & _ & Hx)%Hin. set_solver.
    + apply Hel. by right.
    + intros x [Hx|Hx]%Hel; [|by apply Hr]. apply Hin in Hx as (Hx & Hg & Hxc).
      eapply rtc_r; [apply (Hr r); set_solver|]. exists b. split_and!; [done..|]. set_solver.
    + intros x y Hx Hxy. apply Hel. apply elem_of_app in Hx as [Hx| ->%list_elem_of_singleton].
      * right. by eapply Hcl.
      * destruct Hxy as (b' & Hb' & Hy & Hg & Hyc). simplify_eq.
        destruct (decide (y ∈ out ++ r :: stack)); [by right|]. left. apply Hin. set_solver.
  - apply IH.
    + rewrite Hc. f_equal. rewrite <-app_assoc. done.
    + by rewrite <-app_assoc.
    + by rewrite <-app_assoc.
    + by rewrite <-app_assoc.
    + rewrite <-app_assoc. cbn [app]. intros x y [Hx| ->%list_elem_of_singleton]%elem_of_app Hxy; [by eapply Hcl|].
      destruct Hxy as (b' & Hb' & _). congruence.
Qed.
End sub_dag.

#[export] Instance slot_le_total : Total slot_le.
Proof. intros x y. unfold slot_le. lia. Qed.
#[export] Instance slot_le_trans : Transitive slot_le.
Proof. intros x y z. unfold slot_le. lia. Qed.

Lemma slot_le_antisym_slot x y : slot_le x y → slot_le y x → DagBlockRef_slot x = DagBlockRef_slot y.
Proof. unfold slot_le, DagBlockRef_slot. intros. f_equal; lia. Qed.

(** What [linearize_sub_dag] computes, in terms of reachability. *)
Lemma linearize_sub_dag_correct leader d c c' out :
  linearize_sub_dag leader d c = (c', out) →
  c' = c ∪ list_to_set out ∧ NoDup out ∧ StronglySorted slot_le out
  ∧ ∀ x, x ∈ out ↔ rtc (sub_dag_edge d (gc_round d) c) leader x.
Proof.
  unfold linearize_sub_dag. cbv zeta.
  destruct (sub_dag_loop_total d (gc_round d) (linearize_fuel d) ({[leader]} ∪ c) [leader] [])
    as [[c1 out1] Hl]; [apply linearize_fuel_enough|].
  rewrite Hl. cbn [default fst snd]. intros [= <- <-].
  apply (sub_dag_loop_spec d (gc_round d) c leader) in Hl as (-> & Hnd & Hx).
  - split_and!.
    + f_equal. apply set_eq. intros x. by rewrite !elem_of_list_to_set, elem_of_sort_by.
    + by rewrite (sort_by_perm slot_le out1).
    + apply sort_by_sorted; apply _.
    + intros x. by rewrite elem_of_sort_by.
  - set_solver.
  - apply NoDup_singleton.
  - apply list_elem_of_singleton. done.
  - intros x ->%list_elem_of_singleton. done.
  - intros x y []%elem_of_nil.
Qed.

Lemma sub_dag_reach_cases d gc c leader x :
  rtc (sub_dag_edge d gc c) leader x → x = leader ∨ (gc < ref_round x ∧ x ∉ c).
Proof. intros [-> |(y & _ & b & _ & _ & ? & ?)]%rtc_inv_r; auto. Qed.

(** ** The weighted median *)

Definition total_of (l : list (N * N)) : N := sumN l.*1.

(** The stake of the samples that satisfy a predicate. *)
Definition weight_of (P : N * N → bool) (l : list (N * N)) : N := total_of (filter (λ s, P s = true) l).

#[export] Instance total_of_perm : Proper ((≡ₚ) ==> (=)) total_of.
Proof. intros l1 l2 H. unfold total_of. by rewrite H. Qed.
#[export] Instance weight_of_perm P : Proper ((≡ₚ) ==> (=)) (weight_of P).
Proof. intros l1 l2 H. unfold weight_of. by rewrite H. Qed.

Lemma weight_of_cons P s l : weight_of P (s :: l) = (if P s then s.1 else 0) + weight_of P l.
Proof. unfold weight_of. rewrite filter_cons. destruct (P s); cbn; [done|]. case_decide; [done|lia]. Qed.

Lemma weight_of_app P l1 l2 : weight_of P (l1 ++ l2) = weight_of P l1 + weight_of P l2.
Proof. unfold weight_of, total_of. by rewrite filter_app, fmap_app, sumN_app. Qed.

Lemma weight_of_none P l : (∀ s, s ∈ l → P s = false) → weight_of P l = 0.
Proof.
  induction l as [|s l IH]; intros Hl; [done|]. rewrite weight_of_cons, (Hl s), IH; [done| |by left].
  intros; apply Hl; by right.
Qed.

Lemma weight_of_le P l : weight_of P l <= total_of l.
Proof.
  induction l as [|s l IH]; [done|]. rewrite weight_of_cons. unfold total_of in *. cbn. destruct (P s); lia.
Qed.

Lemma weight_of_split P l : weight_of P l + weight_of (λ s, negb (P s)) l = total_of l.
Proof.
  induction l as [|s l IH]; [done|]. rewrite !weight_of_cons. unfold total_of in *. cbn. destruct (P s); cbn; lia.
Qed.

Lemma weight_of_mono P Q l : (∀ s, s ∈ l → P s = true → Q s = true) → weight_of P l <= weight_of Q l.
Proof.
  induction l as [|s l IH]; intros H; [done|]. rewrite !weight_of_cons.
  assert (weight_of P l <= weight_of Q l) by (apply IH; intros; apply H; [by right|done]).
  pose proof (H s (list_elem_of_here _ _)). destruct (P s), (Q s); cbn; first [lia|naive_solver].
Qed.

Lemma weight_of_overlap P Q l :
  total_of l < weight_of P l + weight_of Q l → ∃ s, s ∈ l ∧ P s = true ∧ Q s = true.
Proof.
  induction l as [|s l IH]; [done|]. rewrite !weight_of_cons. unfold total_of in *. cbn [fmap list_fmap sumN].
  destruct (P s) eqn:HP, (Q s) eqn:HQ; [exists s; split_and!; [left|done..]|..]; intros Hl;
    (destruct IH as (s' & ? & ?); [lia|]; exists s'; by rewrite elem_of_cons; auto).
Qed.

Lemma total_fold e acc l :
  acc + total_of l <= u128_max →
  try_fold (λ acc s, ok_or e (checked_add u128_max acc (s : N * N).1)) acc l
  = Ok (acc + total_of l) (E := ConsensusError).
Proof.
  unfold total_of. revert acc. induction l as [|s l IH]; intros acc; cbn; intros Hl.
  - f_equal. lia.
  - unfold checked_add. rewrite (proj2 (N.leb_le _ _)) by lia. cbn. rewrite IH by lia. f_equal. lia.
Qed.

Lemma median_walk_spec t acc l :
  StronglySorted ts_le l → acc <= t → t < acc + total_of l →
  ∃ pre s post, l = pre ++ s :: post ∧ median_walk t acc l = Some s.2
    ∧ acc + total_of pre <= t ∧ t < acc + total_of pre + s.1.
Proof.
  intros _. revert acc. unfold total_of. induction l as [|[w ts] l IH]; intros acc Ha Ht; cbn in Ht; [lia|].
  cbn [median_walk]. destruct (t <? acc + w) eqn:E; bool_hyps.
  - exists [], (w, ts), l. cbn. split_and!; [done..|lia|lia].
  - destruct (IH (acc + w)) as (pre & s & post & -> & -> & H1 & H2); [lia..|].
    exists ((w, ts) :: pre), s, post. cbn. split_and!; [done..|lia|lia].
Qed.

#[export] Instance ts_le_total : Total ts_le.
Proof. intros x y. unfold ts_le. lia. Qed.
#[export] Instance ts_le_trans : Transitive ts_le.
Proof. intros x y z. unfold ts_le. lia. Qed.

Lemma median_correct blake3 samples :
  0 < total_of samples → total_of samples <= u128_max →
  ∃ w m, stake_weighted_median blake3 samples = Ok m ∧ (w, m) ∈ samples
    ∧ weight_of (λ s, s.2 <? m) samples <= total_of samples / 2
    ∧ total_of samples / 2 < weight_of (λ s, s.2 <=? m) samples.
Proof.
  intros Hpos Hmax. unfold stake_weighted_median. rewrite total_fold by lia. cbn [mbind result_bind].
  rewrite N.add_0_l.
  pose proof (sort_by_perm ts_le samples) as Hp. pose proof (sort_by_sorted ts_le samples) as Hs.
  destruct (median_walk_spec (total_of samples / 2) 0 (sort_by ts_le samples) Hs) as (pre & [w m] & post & Hl & -> & H1 & H2).
  { apply N.le_0_l. } { rewrite Hp. assert (total_of samples / 2 < total_of samples) by (apply N.div_lt; lia). lia. }
  cbn [fst snd] in *. exists w, m. generalize dependent (total_of samples / 2). intros T H1 H2.
  rewrite Hl in Hp, Hs.
  assert (Forall (λ s, s.2 <= m) pre ∧ Forall (λ s, m <= s.2) post) as [Hpre Hpost].
  { clear -Hs. induction pre as [|x pre IH]; cbn in Hs; apply StronglySorted_inv in Hs as [Hs Hx].
    - split; [constructor|]. done.
    - destruct (IH Hs) as [? ?]. split; [|done]. constructor; [|done].
      rewrite Forall_app, Forall_cons in Hx. apply Hx. }
  rewrite Forall_forall in Hpre, Hpost.
  split_and!; [done|rewrite <-Hp; set_solver|..]; rewrite <-Hp, weight_of_app, weight_of_cons; cbn [snd fst].
  - rewrite N.ltb_irrefl, (weight_of_none _ post); [|intros s Hsp; apply N.ltb_ge; by apply Hpost].
    pose proof (weight_of_le (λ s, s.2 <? m) pre). lia.
  - rewrite N.leb_refl. assert (weight_of (λ s, s.2 <=? m) pre = total_of pre) as ->; [|lia].
    rewrite <-(weight_of_split (λ s, s.2 <=? m) pre), (weight_of_none (λ s, negb (s.2 <=? m))); [lia|].
    intros s Hsp. apply negb_false_iff, N.leb_le. by apply Hpre.
Qed.

(** ** The chain of commits *)

(** Records that extend a chain whose next index, last digest and last
    timestamp are given. *)
Fixpoint chained (blake3 : list N → Hash) (i : N) (prev : Hash) (ts : N) (cs : list CommitRec) : Prop :=
  match cs with
  | [] => True
  | c :: cs => index c = i ∧ previous_digest c = prev ∧ ts <= timestamp_ms c
      ∧ chained blake3 (wrapping_add64 i 1) (Commit_digest blake3 c) (timestamp_ms c) cs
  end.

(** The leaders a list of decisions commits, in order. *)
Definition committed_leaders (decided : list LeaderStatus) : list DagBlockRef :=
  omap (λ s, match s with Commit r => Some r | _ => None end) decided.

Definition linearized (cs : list CommitRec) : list DagBlockRef := mjoin (commit_blocks <$> cs).

Lemma commit_timestamp_ge blake3 b last d vset ts :
  commit_timestamp blake3 b last d vset = Ok ts → last <= ts.
Proof.
  unfold commit_timestamp. destruct (_ =? _); [intros [= <-]; lia|]. cbv zeta.
  case_bool_decide; [intros [= <-]; lia|].
  intros (m & _ & [= <-])%bind_Ok. lia.
Qed.

Lemma commit_one_ok blake3 vset d self r self' c :
  commit_one blake3 vset d self r = (self', Ok c) →
  ∃ b, blocks d !! r = Some b ∧ leader c = r ∧ index c = next_index self
    ∧ previous_digest c = last_digest self ∧ last_timestamp_ms self <= timestamp_ms c
    ∧ commit_timestamp blake3 b (last_timestamp_ms self) d vset = Ok (timestamp_ms c)
    ∧ linearize_sub_dag (reference b) d (committed self) = (committed self', commit_blocks c)
    ∧ next_index self' = wrapping_add64 (next_index self) 1
    ∧ last_digest self' = Commit_digest blake3 c ∧ last_timestamp_ms self' = timestamp_ms c.
Proof.
  unfold commit_one. destruct (blocks d !! r) as [b|] eqn:Hb; [|done].
  destruct (linearize_sub_dag _ _ _) as [c' bs] eqn:Hl.
  destruct (commit_timestamp _ _ _ _ _) as [ts|e] eqn:Ht; [|done].
  intros [= <- <-]. exists b. cbn. split_and!; try done. by eapply commit_timestamp_ge.
Qed.

(** Induction on a successful [commit_loop]: one commit at a time. *)
Lemma commit_loop_ind (P : Linearizer → list DagBlockRef → Linearizer → list CommitRec → Prop) blake3 vset d :
  (∀ self, P self [] self []) →
  (∀ self r self1 c rs self' cs, commit_one blake3 vset d self r = (self1, Ok c) →
     P self1 rs self' cs → P self (r :: rs) self' (c :: cs)) →
  ∀ decided self self' cs, commit_loop blake3 vset d self decided = (self', Ok cs) →
    P self (committed_leaders decided) self' cs.
Proof.
  intros H0 H1. induction decided as [|[r|s|s] rest IH]; intros self self' cs; cbn [commit_loop].
  - intros [= <- <-]. apply H0.
  - destruct (commit_one _ _ _ _ _) as [self1 [c|e]] eqn:Hc; [|done].
    destruct (commit_loop _ _ _ _ rest) as [self2 [cs'|e]] eqn:Hl; cbn; [|done].
    intros [= <- <-]. eapply H1; [done|]. by apply IH.
  - apply IH.
  - apply IH.
Qed.

Lemma commit_loop_chained blake3 vset d decided self self' cs :
  commit_loop blake3 vset d self decided = (self', Ok cs) →
  leader <$> cs = committed_leaders decided
  ∧ chained blake3 (next_index self) (last_digest self) (last_timestamp_ms self) cs
  ∧ last_digest self' = default (last_digest self) (Commit_digest blake3 <$> last cs)
  ∧ last_timestamp_ms self' = default (last_timestamp_ms self) (timestamp_ms <$> last cs)
  ∧ next_index self' = Nat.iter (length cs) (λ i, wrapping_add64 i 1) (next_index self).
Proof.
  revert decided self self' cs. apply (commit_loop_ind (λ self rs self' cs, leader <$> cs = rs
    ∧ chained blake3 (next_index self) (last_digest self) (last_timestamp_ms self) cs
    ∧ last_digest self' = default (last_digest self) (Commit_digest blake3 <$> last cs)
    ∧ last_timestamp_ms self' = default (last_timestamp_ms self) (timestamp_ms <$> last cs)
    ∧ next_index self' = Nat.iter (length cs) (λ i, wrapping_add64 i 1) (next_index self))); [done|].
  intros self r self1 c rs self' cs (b & _ & Hl & Hi & Hp & Ht & _ & _ & Hn & Hd & Hts)%commit_one_ok
    (IH1 & IH2 & IH3 & IH4 & IH5). rewrite Hn, Hd, Hts in *.
  split_and!; [by rewrite fmap_cons, Hl, IH1|done|..].
  - rewrite IH3, last_cons. by destruct (last cs).
  - rewrite IH4, last_cons. by destruct (last cs).
  - rewrite IH5. cbn [length]. by rewrite Nat.iter_succ_r.
Qed.

Definition round_monotone (d : Dag) : Prop :=
  ∀ r b a, blocks d !! r = Some b → a ∈ ancestors b → ref_round a < ref_round r.

Lemma sub_dag_reach_round d gc c leader x :
  round_monotone d → rtc (sub_dag_edge d gc c) leader x → ref_round x <= ref_round leader.
Proof.
  intros Hm. induction 1 as [|x y z (b & Hb & Hy & _) _ IH]; [lia|]. pose proof (Hm _ _ _ Hb Hy). lia.
Qed.

(** The references committed in a run, against those committed before it. *)
Lemma commit_loop_fresh blake3 vset d decided self self' cs :
  (∀ r b, blocks d !! r = Some b → reference b = r) →
  commit_loop blake3 vset d self decided = (self', Ok cs) →
  committed self' = committed self ∪ list_to_set (linearized cs)
  ∧ Forall (λ c, NoDup (commit_blocks c) ∧ leader c ∈ commit_blocks c ∧ StronglySorted slot_le (commit_blocks c)
      ∧ ∀ x, x ∈ commit_blocks c → x = leader c ∨ (gc_round d < ref_round x ∧ x ∉ committed self)) cs.
Proof.
  intros Href. revert decided self self' cs. apply (commit_loop_ind (λ self rs self' cs,
    committed self' = committed self ∪ list_to_set (linearized cs)
    ∧ Forall (λ c, NoDup (commit_blocks c) ∧ leader c ∈ commit_blocks c ∧ StronglySorted slot_le (commit_blocks c)
      ∧ ∀ x, x ∈ commit_blocks c → x = leader c ∨ (gc_round d < ref_round x ∧ x ∉ committed self)) cs)).
  { intros self. cbn. split; [set_solver|constructor]. }
  intros self r self1 c rs self' cs (b & Hb & Hl & _ & _ & _ & _ & Hlin & _)%commit_one_ok [IH1 IH2].
  rewrite (Href _ _ Hb), <-Hl in Hlin.
  apply linearize_sub_dag_correct in Hlin as (Hc & Hnd & Hs & Hx). split.
  - rewrite IH1, Hc. unfold linearized. cbn. rewrite list_to_set_app_L. set_solver.
  - constructor.
    + split_and!; [done|by apply Hx|done|]. intros x Hxin%Hx. by apply sub_dag_reach_cases in Hxin.
    + eapply Forall_impl; [exact IH2|]. cbn. intros c' (? & ? & ? & Hc'). split_and!; [done..|].
      intros x Hx'. destruct (Hc' x Hx') as [?|[? ?]]; [by left|right]. split; [done|]. set_solver.
Qed.

Lemma commit_loop_once blake3 vset d decided self self' cs :
  (∀ r b, blocks d !! r = Some b → reference b = r) → round_monotone d →
  commit_loop blake3 vset d self decided = (self', Ok cs) →
  ∀ n, (∀ x, x ∈ committed self → ref_round x <= n) →
  StronglySorted N.lt (n :: (ref_round <$> committed_leaders decided)) →
  NoDup (linearized cs) ∧ (∀ x, x ∈ linearized cs → x ∉ committed self)
  ∧ ∀ x, x ∈ committed self' → ref_round x <= default n (last (ref_round <$> committed_leaders decided)).
Proof.
  intros Href Hm. revert decided self self' cs. apply (commit_loop_ind (λ self rs self' cs,
    ∀ n, (∀ x, x ∈ committed self → ref_round x <= n) → StronglySorted N.lt (n :: (ref_round <$> rs)) →
    NoDup (linearized cs) ∧ (∀ x, x ∈ linearized cs → x ∉ committed self)
    ∧ ∀ x, x ∈ committed self' → ref_round x <= default n (last (ref_round <$> rs)))).
  { intros self n Hn _. cbn. split_and!; [constructor| |done]. intros x []%elem_of_nil. }
  intros self r self1 c rs self' cs (b & Hb & Hl & _ & _ & _ & _ & Hlin & _)%commit_one_ok IH n Hn Hs.
  rewrite (Href _ _ Hb) in Hlin. apply linearize_sub_dag_correct in Hlin as (Hc & Hnd & _ & Hx).
  rewrite fmap_cons in Hs. apply StronglySorted_inv in Hs as [Hs Hnr].
  rewrite Forall_cons in Hnr. destruct Hnr as [Hnr _].
  destruct (IH (ref_round r)) as (IH1 & IH2 & IH3); [|done|].
  { rewrite Hc. intros x [Hxc|Hxc%elem_of_list_to_set%Hx]%elem_of_union; [specialize (Hn x Hxc); lia|].
    by eapply sub_dag_reach_round. }
  unfold linearized in *. rewrite fmap_cons. cbn [mjoin list_join].
  change (_ ++ _) with (commit_blocks c ++ mjoin (commit_blocks <$> cs)).
  split_and!.
  - apply NoDup_app. split_and!; [done| |done]. intros x Hxc Hxr. apply (IH2 x Hxr). rewrite Hc. set_solver.
  - intros x [Hxc|Hxr]%elem_of_app; [|intros ?; apply (IH2 x Hxr); rewrite Hc; set_solver].
    apply Hx, sub_dag_reach_cases in Hxc as [-> |[_ ?]]; [|done]. intros Hxc. specialize (Hn _ Hxc). lia.
  - intros x Hxc. specialize (IH3 x Hxc). rewrite fmap_cons, last_cons.
    destruct (last (ref_round <$> rs)); cbn in *; done.
Qed.

(** ** Totality *)

(** As many times the committee's stake as the block lists ancestors fits into
    128 bits, so no sample list of the block overflows. *)
Definition ancestors_fit (vset : ValidatorSet) (b : DagBlock) : Prop :=
  N.of_nat (length (ancestors b)) * total_power vset <= u128_max.

Section totality.
Context (blake3 : list N → Hash) (vset : ValidatorSet) (d : Dag).
Hypothesis Hwf : vset_wf vset.
Hypothesis Hinv : dag_inv blake3 vset d.

Lemma stored_slot_unique r1 r2 :
  is_Some (blocks d !! r1) → is_Some (blocks d !! r2) → DagBlockRef_slot r1 = DagBlockRef_slot r2 → r1 = r2.
Proof.
  intros H1 H2 He.
  assert (by_slot d !! DagBlockRef_slot r2 = Some r1) by (by eapply inv_slot).
  assert (by_slot d !! DagBlockRef_slot r2 = Some r2) by (by eapply inv_slot). congruence.
Qed.

(** No sample weighs more than the committee. *)
Lemma timestamp_samples_bound b :
  total_of (timestamp_samples b d vset) <= N.of_nat (length (ancestors b)) * total_power vset.
Proof.
  unfold timestamp_samples, total_of.
  assert (length (ancestors_at_round b (blk_round b - 1)) <= length (ancestors b))%nat as Hlen
    by apply length_filter.
  assert (N.of_nat (length (ancestors_at_round b (blk_round b - 1))) <= N.of_nat (length (ancestors b))) as Hlen' by lia.
  etrans; [|apply N.mul_le_mono_r; exact Hlen']. clear Hlen Hlen'.
  induction (ancestors_at_round b (blk_round b - 1)) as [|r l IH]; [done|]. cbn [omap list_omap length].
  rewrite Nat2N.inj_succ, N.mul_succ_l.
  destruct (members vset !! ref_author r) as [m|] eqn:Hm; cbn; [|lia].
  destruct (blocks d !! r) as [p|]; cbn; [|lia].
  assert (power m <= total_power vset).
  { rewrite <-(power_of_member _ _ _ Hm), <-(set_sum_singleton (power_of vset) (ref_author r)).
    apply (stake_of_le_total vset {[ref_author r]}); [done|].
    apply singleton_subseteq_l, elem_of_dom. eauto. }
  lia.
Qed.

Lemma commit_timestamp_total b last :
  ancestors_fit vset b → ∃ ts, commit_timestamp blake3 b last d vset = Ok ts.
Proof.
  intros Hfit. unfold commit_timestamp. destruct (_ =? _); [by eauto|]. cbv zeta.
  case_bool_decide; [by eauto|]. unfold stake_weighted_median.
  rewrite total_fold; [cbn; by eauto|]. pose proof (timestamp_samples_bound b).
  unfold ancestors_fit in Hfit. lia.
Qed.

Lemma commit_loop_total decided self :
  (∀ r, r ∈ committed_leaders decided → ∃ b, blocks d !! r = Some b ∧ ancestors_fit vset b) →
  ∃ self' cs, commit_loop blake3 vset d self decided = (self', Ok cs).
Proof.
  revert self. induction decided as [|[r|s|s] rest IH]; intros self Hr; cbn [commit_loop]; [by eauto| |by apply IH..].
  destruct (Hr r) as (b & Hb & Hnd); [left|]. unfold commit_one. rewrite Hb.
  destruct (linearize_sub_dag _ _ _) as [c bs].
  destruct (commit_timestamp_total b (last_timestamp_ms self) Hnd) as [ts ->].
  edestruct IH as (self' & cs & ->); [intros r' Hr'; apply Hr; by right|]. cbn. eauto.
Qed.
End totality.

Lemma max_leader_round_fold cs m :
  let f := λ m c, N.max m (ref_round (leader c)) in
  m <= foldl f m cs ∧ ∀ c, c ∈ cs → ref_round (leader c) <= foldl f m cs.
Proof.
  cbv zeta. revert m. induction cs as [|c cs IH]; intros m; cbn [foldl].
  - split; [lia|]. intros c []%elem_of_nil.
  - destruct (IH (N.max m (ref_round (leader c)))) as [H1 H2]. split; [lia|].
    intros c' [-> |?]%elem_of_cons; [lia|by apply H2].
Qed.

(** ** Theorems *)

(** The search of [linearize_sub_dag] terminates on every store and from
    every committed set: the fuel it is given suffices, and more fuel gives the
    same answer. *)
Theorem linearize_terminates d leader c k :
  ∃ res, sub_dag_loop (linearize_fuel d) d (gc_round d) ({[leader]} ∪ c) [leader] [] = Some res
    ∧ sub_dag_loop (k + linearize_fuel d) d (gc_round d) ({[leader]} ∪ c) [leader] [] = Some res.
Proof.
  destruct (sub_dag_loop_total d (gc_round d) (linearize_fuel d) ({[leader]} ∪ c) [leader] []) as [res Hl];
    [apply linearize_fuel_enough|].
  exists res. split; [done|]. by apply sub_dag_loop_mono.
Qed.

(** C32. [linearize_sub_dag] returns exactly the leader and what it reaches
    through stored blocks by ancestors above the garbage-collection round that
    were not committed before, each once, in ascending order of round and
    author, and adds exactly these references to the committed set. *)
Theorem linearize_sub_dag_spec leader d c :
  let '(c', out) := linearize_sub_dag leader d c in
  (∀ x, x ∈ out ↔ rtc (sub_dag_edge d (gc_round d) c) leader x)
  ∧ NoDup out ∧ StronglySorted slot_le out ∧ c' = c ∪ list_to_set out.
Proof.
  destruct (linearize_sub_dag leader d c) as [c' out] eqn:Hl.
  apply linearize_sub_dag_correct in Hl. tauto.
Qed.

(** Replicas order a sub-DAG alike: two reachable stores that hold the
    leader, agree on the ancestors of every block they share, and are at the
    same garbage-collection round flatten the leader's sub-DAG to the same list
    from the same committed set, whatever else each of them has received and in
    whichever order. *)
Theorem linearize_deterministic blake3 vset epoch1 epoch2 d1 d2 leader c :
  dag_reachable blake3 vset epoch1 d1 → dag_reachable blake3 vset epoch2 d2 →
  is_Some (blocks d1 !! leader) → is_Some (blocks d2 !! leader) → gc_round d1 = gc_round d2 →
  (∀ r b1 b2, blocks d1 !! r = Some b1 → blocks d2 !! r = Some b2 → ancestors b1 = ancestors b2) →
  linearize_sub_dag leader d1 c = linearize_sub_dag leader d2 c.
Proof.
  intros [Hd1 _]%dag_reachable_ok [Hd2 _]%dag_reachable_ok Hl1 Hl2 Hgc Heq.
  assert (∀ dx dy, dag_inv blake3 vset dx → dag_inv blake3 vset dy → gc_round dx = gc_round dy →
    is_Some (blocks dx !! leader) → is_Some (blocks dy !! leader) →
    (∀ r b1 b2, blocks dx !! r = Some b1 → blocks dy !! r = Some b2 → ancestors b1 = ancestors b2) →
    ∀ x, rtc (sub_dag_edge dx (gc_round dx) c) leader x →
      is_Some (blocks dx !! x) ∧ is_Some (blocks dy !! x) ∧ rtc (sub_dag_edge dy (gc_round dy) c) leader x) as Hsim.
  { intros dx dy Hx Hy Hg Hlx Hly He. apply rtc_ind_r; [done|].
    intros x y _ (b & Hb & Hin & Hgt & Hc) (_ & [b' Hb'] & IH).
    assert (ancestors b = ancestors b') as Ha by eauto.
    destruct (inv_causal _ _ _ Hx x b y) as [?|?]; [done..| |lia].
    destruct (inv_causal _ _ _ Hy x b' y) as [?|?]; [done|congruence| |lia].
    split_and!; [done..|]. eapply rtc_r; [exact IH|]. exists b'. rewrite <-Ha, <-Hg. done. }
  pose proof (Hsim d1 d2 Hd1 Hd2 Hgc Hl1 Hl2 Heq) as H12.
  pose proof (Hsim d2 d1 Hd2 Hd1 (eq_sym Hgc) Hl2 Hl1 (λ r b1 b2 E1 E2, eq_sym (Heq r b2 b1 E2 E1))) as H21.
  clear Hsim. destruct (linearize_sub_dag leader d1 c) as [c1 out1] eqn:H1.
  destruct (linearize_sub_dag leader d2 c) as [c2 out2] eqn:H2.
  apply linearize_sub_dag_correct in H1 as (-> & Hn1 & Hs1 & Hx1).
  apply linearize_sub_dag_correct in H2 as (-> & Hn2 & Hs2 & Hx2).
  assert (out1 = out2) as ->; [|done].
  apply (StronglySorted_unique_strong slot_le); [|done..|].
  - intros x1 x2 (Hb1 & _)%Hx1%H12 (_ & Hb2 & _)%Hx2%H21 Hle Hge.
    apply (stored_slot_unique blake3 vset d1 Hd1); [done..|]. by apply slot_le_antisym_slot.
  - apply NoDup_Permutation; [done..|]. intros x. rewrite Hx1, Hx2.
    split; [intros (_ & _ & ?)%H12|intros (_ & _ & ?)%H21]; done.
Qed.

Lemma majority_meets_upper_half T wP wlt wge :
  T < 2 * wP → wlt <= T / 2 → wlt + wge = T → T < wP + wge.
Proof. intros. zify. Z.to_euclidean_division_equations. lia. Qed.

(** [stake_weighted_median] is a weighted median and resists a minority:
    the result is the timestamp of a sample, at most half of the stake lies
    strictly below it and more than half at or below it; and whenever the
    samples satisfying [P] (the honest ones) hold more than half of the sampled
    stake, the result lies between two of their timestamps. *)
Theorem stake_weighted_median_spec blake3 samples P :
  total_of samples <= u128_max → total_of samples < 2 * weight_of P samples →
  ∃ m, stake_weighted_median blake3 samples = Ok m ∧ (∃ w, (w, m) ∈ samples)
    ∧ weight_of (λ s, s.2 <? m) samples <= total_of samples / 2
    ∧ total_of samples / 2 < weight_of (λ s, s.2 <=? m) samples
    ∧ (∃ lo, lo ∈ samples ∧ P lo = true ∧ lo.2 <= m)
    ∧ (∃ hi, hi ∈ samples ∧ P hi = true ∧ m <= hi.2).
Proof.
  intros Hmax HP. pose proof (weight_of_le P samples).
  destruct (median_correct blake3 samples) as (w & m & Hm & Hin & Hlt & Hle); [lia..|].
  pose proof (N.div_mod' (total_of samples) 2). pose proof (N.mod_lt (total_of samples) 2 ltac:(done)).
  exists m. split_and!; [done|by eauto|done..| |].
  - destruct (weight_of_overlap P (λ s, s.2 <=? m) samples) as (s & ? & ? & ?); [lia|].
    exists s. bool_hyps. done.
  - pose proof (weight_of_split (λ s, s.2 <? m) samples) as Hsplit. cbv beta in Hsplit.
    destruct (weight_of_overlap P (λ s, negb (s.2 <? m)) samples) as (s & ? & ? & ?);
      [by eapply majority_meets_upper_half|].
    exists s. bool_hyps. done.
Qed.

(** [commit_leaders] does not fail on stored leaders whose ancestor
    lists cannot overflow the stake sum, and extends the commit chain: one record per committed leader, in
    order, skipped leaders producing none; consecutive indices; each record
    carries the digest of the one before; timestamps never go back; and the
    linearizer is left at the end of the chain. *)
Theorem commit_leaders_chain blake3 vset d self decided :
  vset_wf vset →
  (∀ r, r ∈ committed_leaders decided → ∃ b, blocks d !! r = Some b ∧ ancestors_fit vset b) →
  ∃ self' d' cs, commit_leaders blake3 self decided d vset = ((self', d'), Ok cs)
    ∧ leader <$> cs = committed_leaders decided
    ∧ chained blake3 (next_index self) (last_digest self) (last_timestamp_ms self) cs
    ∧ last_digest self' = default (last_digest self) (Commit_digest blake3 <$> last cs)
    ∧ last_timestamp_ms self' = default (last_timestamp_ms self) (timestamp_ms <$> last cs)
    ∧ next_index self' = Nat.iter (length cs) (λ i, wrapping_add64 i 1) (next_index self).
Proof.
  intros Hw Hst. destruct (commit_loop_total blake3 vset d Hw decided self Hst) as (self' & cs & Hl).
  unfold commit_leaders. rewrite Hl. do 3 eexists. split; [done|]. by eapply commit_loop_chained.
Qed.

(** Exactly once: when the blocks of the store only list ancestors of
    earlier rounds, every reference committed before is of round at most [n]
    and the committed leaders' rounds ascend from above [n], no reference
    occurs twice in the records a call to [commit_leaders] returns, none of
    them was committed before, all are remembered as committed, and the bound
    moves to the last leader's round, ready for the next call.  Each record
    contains its leader and is sorted by round and author. *)
Theorem commit_leaders_exactly_once blake3 vset epoch d self decided self' d' cs n :
  dag_reachable blake3 vset epoch d → round_monotone d →
  (∀ x, x ∈ committed self → ref_round x <= n) →
  StronglySorted N.lt (n :: (ref_round <$> committed_leaders decided)) →
  commit_leaders blake3 self decided d vset = ((self', d'), Ok cs) →
  NoDup (linearized cs) ∧ (∀ x, x ∈ linearized cs → x ∉ committed self)
  ∧ committed self' = committed self ∪ list_to_set (linearized cs)
  ∧ Forall (λ c, leader c ∈ commit_blocks c ∧ StronglySorted slot_le (commit_blocks c)) cs
  ∧ ∀ x, x ∈ committed self' → ref_round x <= default n (last (ref_round <$> committed_leaders decided)).
Proof.
  intros [Hd _]%dag_reachable_ok Hm Hn Hs. unfold commit_leaders.
  destruct (commit_loop _ _ _ _ _) as [self1 [cs1|e]] eqn:Hl; [|done]. intros [= <- <- <-].
  pose proof (inv_ref _ _ _ Hd) as Href.
  destruct (commit_loop_once _ _ _ _ _ _ _ Href Hm Hl n Hn Hs) as (? & ? & ?).
  destruct (commit_loop_fresh _ _ _ _ _ _ _ Href Hl) as (? & Hf). split_and!; [done..| |done].
  eapply Forall_impl; [exact Hf|]. cbn. tauto.
Qed.

(** A failing [commit_leaders] reports the first committed leader it cannot
    process: for a leader that is not stored the error names it and, when it is
    the first entry, neither the linearizer nor the store changes. *)
Theorem commit_leaders_missing_leader blake3 vset d self r rest :
  blocks d !! r = None →
  commit_leaders blake3 self (Commit r :: rest) d vset
  = ((self, d), Err (DecidedLeaderMissing (ref_round r) (ref_author r))).
Proof. intros Hr. unfold commit_leaders. cbn [commit_loop]. unfold commit_one. by rewrite Hr. Qed.
