(* ===== verification/CommitBatching.v ===== *)
(** * Two executions of the linearizer that differ

    [commit_leaders] moves the garbage-collection round once per call, after all
    the leaders of the call.  The first execution below gets one batch of
    decisions, the second gets the same decisions in two batches; their last
    commit records list different blocks.

    [commit_timestamp] counts a repeated ancestor as often as it is repeated;
    the second example is an accepted leader that moves its commit timestamp
    this way. *)
From S2P Require Import Prelude CoreTypes StakeAgg DagBlock DagGraph Scenario Committer Leader Linearizer CommitFork.

(** [n] rounds by validators 1, 2 and 3 on top of [parents]; newest round first. *)
Fixpoint rounds_by_three (round : N) (parents : list DagBlock) (n : nat) : list (list DagBlock) :=
  match n with
  | O => []
  | S n => let bs := (λ a, mk_block round a parents) <$> [1; 2; 3] in
      rounds_by_three (round + 1) bs n ++ [bs]
  end.

(** Rounds 0 to 33, oldest block first. *)
Definition early_rounds : list (list DagBlock) := Eval vm_compute in rounds_by_three 0 [] 34.

(** Validator 4's only block: round 2, not seen by the others until round 34. *)
Definition slow_block : DagBlock := Eval vm_compute in
  mk_block 2 4 (default [] (early_rounds !! 32%nat)).

Definition batch_round33 : list DagBlock := Eval vm_compute in default [] (head early_rounds).
Definition batch_round34 : list DagBlock := Eval vm_compute in
  mk_block 34 1 (slow_block :: batch_round33) :: ((λ a, mk_block 34 a batch_round33) <$> [2; 3]).
Definition late_rounds : list (list DagBlock) := Eval vm_compute in rounds_by_three 35 batch_round34 4.

Definition blocks_to_35 : list DagBlock := Eval vm_compute in
  mjoin (reverse early_rounds) ++ slow_block :: batch_round34 ++ default [] (last late_rounds).
Definition blocks_36_to_38 : list DagBlock := Eval vm_compute in mjoin (tail (reverse late_rounds)).

(** The calls of one driver round: decide, then commit. *)
Definition decide_and_commit (last : Slot) (lin : Linearizer) (d : Dag)
    : result ConsensusError (list LeaderStatus * (Linearizer * Dag) * list CommitRec) :=
  decided ← try_decide last d vset4 (elect_leader schedule4);
  let '(st, r) := commit_leaders test_hash lin decided d vset4 in
  cs ← r; Ok (decided, st, cs).

Definition one_batch : result ConsensusError (list LeaderStatus * list CommitRec) :=
  d ← insert_all test_hash vset4 (Dag_new 0) (blocks_to_35 ++ blocks_36_to_38);
  '(decided, _, cs) ← decide_and_commit genesis_slot Linearizer_new d;
  Ok (decided, cs).

Definition two_batches : result ConsensusError (list LeaderStatus * list CommitRec) :=
  d ← insert_all test_hash vset4 (Dag_new 0) blocks_to_35;
  '(decided1, (lin1, d1), cs1) ← decide_and_commit genesis_slot Linearizer_new d;
  d2 ← insert_all test_hash vset4 d1 blocks_36_to_38;
  let last_decided := default genesis_slot (LeaderStatus_slot <$> last decided1) in
  '(decided2, _, cs2) ← decide_and_commit last_decided lin1 d2;
  Ok (decided1 ++ decided2, cs1 ++ cs2).

(** The comparison of the two executions, as one computation. *)
Definition batches_compare : bool :=
  match one_batch, two_batches with
  | Ok (decided1, cs1), Ok (decided2, cs2) =>
      bool_decide (decided1 = decided2) && bool_decide (leader <$> cs1 = leader <$> cs2)
      && bool_decide (reference slow_block ∈ linearized cs1)
      && bool_decide (reference slow_block ∉ linearized cs2)
  | _, _ => false
  end.

(** ** A repeated ancestor *)

Definition clock_block (ts : N) (author : Address) : DagBlock :=
  DagBlock_new test_hash
    {| body_epoch := 0; body_round := 0; body_author := author; body_timestamp_ms := ts;
       body_ancestors := []; body_payload := []; body_commit_votes := [] |} Unsigned.

(** Three validators agree on the time; validator 4 is a day ahead. *)
Definition clock_parents : list DagBlock := Eval vm_compute in
  [clock_block 1000 1; clock_block 1001 2; clock_block 1002 3; clock_block 86401000 4].

(** Two leaders of round 1 by validator 4: one lists every parent once, the
    other repeats its own. *)
Definition plain_leader : DagBlock := Eval vm_compute in mk_block 1 4 clock_parents.
Definition repeating_leader : DagBlock := Eval vm_compute in
  mk_block 1 4 (clock_parents ++ [clock_block 86401000 4; clock_block 86401000 4]).

(** ** Proofs *)

Lemma batches_compare_true : batches_compare = true.
Proof. vm_compute. done. Qed.

(** The commit records depend on how decisions are batched: one validator
    receives the blocks of rounds 0 to 38 and commits the leaders decided in one
    call; another commits after round 35 and again after round 38.  Both decide
    the same leaders in the same order, but a block of round 2 that only a block
    of round 34 refers to is part of the first validator's last commit and of
    none of the second's, whose garbage-collection round moved in between. *)
Theorem commit_depends_on_batching :
  ∃ decided cs1 cs2, one_batch = Ok (decided, cs1) ∧ two_batches = Ok (decided, cs2)
    ∧ leader <$> cs1 = leader <$> cs2
    ∧ reference slow_block ∈ linearized cs1 ∧ reference slow_block ∉ linearized cs2.
Proof.
  pose proof batches_compare_true as H. unfold batches_compare in H.
  destruct one_batch as [[decided1 cs1]|]; [|done]. destruct two_batches as [[decided2 cs2]|]; [|done].
  bool_hyps. subst decided2. by exists decided1, cs1, cs2.
Qed.

(** A leader that lists one of its parents several times moves the commit
    timestamp: with three quarters of the stake reporting about 1000 ms, the
    timestamp of an accepted leader that lists each parent once is one of these
    reports, and that of an accepted leader that repeats its own parent is its
    own report, a day later. *)
Theorem repeated_ancestor_moves_timestamp :
  (∀ l, l = plain_leader ∨ l = repeating_leader →
     blocks (store_of (clock_parents ++ [l])) !! reference l = Some l) ∧
  commit_timestamp test_hash plain_leader 0 (store_of (clock_parents ++ [plain_leader])) vset4 = Ok 1002 ∧
  commit_timestamp test_hash repeating_leader 0 (store_of (clock_parents ++ [repeating_leader])) vset4
  = Ok 86401000.
Proof. split_and!; [intros l [-> | ->]; vm_compute; done|vm_compute; done|vm_compute; done]. Qed.
