(* ===== verification/Surge.v ===== *)
(** * The consensus driver ([crates/lemma-consensus/src/dag/surge.rs])

    [SurgeDriver] owns the DAG store, the round clock, the leader schedule and
    the linearizer of one epoch and runs them on every incoming block.  A failed
    [on_block] may already have written to some of them, so the model returns
    the driver next to the result. *)
From S2P Require Import Prelude CoreTypes StakeAgg DagBlock DagGraph ThresholdClock Committer Leader Linearizer.

Record SurgeOutput := {
  outcome : InsertOutcome;
  new_round : option N;
  commits : list CommitRec;
  equivocations : list InsertOutcome;
}.

Record SurgeDriver := {
  dag : Dag;
  clock : ThresholdClock;
  schedule : LeaderSchedule;
  linearizer : Linearizer;
  last_decided : Slot;
  vset : ValidatorSet;
}.

Definition genesis_sentinel : Slot := {| slot_round := 0; slot_author := Address_zero |}.

Definition SurgeDriver_new (vs : ValidatorSet) : result ConsensusError SurgeDriver :=
  sched ← LeaderSchedule_new vs;
  Ok {| dag := Dag_new (vs_epoch vs); clock := ThresholdClock_new (total_power vs); schedule := sched;
        linearizer := Linearizer_new; last_decided := genesis_sentinel; vset := vs |}.

(** Writes to the store, to the clock, and to the commit pipeline's state. *)
Definition set_dag (d : Dag) (s : SurgeDriver) : SurgeDriver :=
  {| dag := d; clock := clock s; schedule := schedule s; linearizer := linearizer s;
     last_decided := last_decided s; vset := vset s |}.
Definition set_clock (c : ThresholdClock) (s : SurgeDriver) : SurgeDriver :=
  {| dag := dag s; clock := c; schedule := schedule s; linearizer := linearizer s;
     last_decided := last_decided s; vset := vset s |}.
Definition set_pipeline (l : Linearizer) (d : Dag) (last : Slot) (s : SurgeDriver) : SurgeDriver :=
  {| dag := d; clock := clock s; schedule := schedule s; linearizer := l;
     last_decided := last; vset := vset s |}.

(** Step 6: the slot of the last decision, if there is one. *)
Definition advance_last_decided (s : SurgeDriver) (decided : list LeaderStatus) : Slot :=
  match last decided with
  | Some highest =>
      {| slot_round := LeaderStatus_round highest;
         slot_author := slot_author (elect_leader (schedule s) (LeaderStatus_round highest)) |}
  | None => last_decided s
  end.

(** Steps 4 to 6. *)
Definition run_pipeline (blake3 : list N → Hash) (s : SurgeDriver)
    : SurgeDriver * result ConsensusError (list CommitRec) :=
  match try_decide (last_decided s) (dag s) (vset s) (elect_leader (schedule s)) with
  | Err e => (s, Err e)
  | Ok decided =>
      match commit_leaders blake3 (linearizer s) decided (dag s) (vset s) with
      | ((l, d), Err e) => (set_pipeline l d (last_decided s) s, Err e)
      | ((l, d), Ok cs) => (set_pipeline l d (advance_last_decided s decided) s, Ok cs)
      end
  end.

Definition is_equivocation (o : InsertOutcome) : bool :=
  match o with OutcomeEquivocation _ _ _ _ => true | _ => false end.

Definition on_block (blake3 : list N → Hash) (self : SurgeDriver) (b : DagBlock) (sig_ok : bool)
    : SurgeDriver * result ConsensusError SurgeOutput :=
  match Dag_insert blake3 (dag self) b (vset self) sig_ok with
  | Err e => (self, Err e)
  | Ok (d1, out) =>
      let '(d2, drained) := drain_equivocations d1 in
      let eqs := if is_equivocation out then drained ++ [out] else drained in
      let s1 := set_dag d2 self in
      if negb (bool_decide (out = Accepted)) then
        (s1, Ok {| outcome := out; new_round := None; commits := []; equivocations := eqs |})
      else
      match add_block (clock s1) b (vset s1) with
      | Err e => (s1, Err e)
      | Ok (c, advanced) =>
          match run_pipeline blake3 (set_clock c s1) with
          | (s2, Err e) => (s2, Err e)
          | (s2, Ok cs) =>
              (s2, Ok {| outcome := out; new_round := advanced; commits := cs; equivocations := eqs |})
          end
      end
  end.

Definition SurgeDriver_advance_epoch (self : SurgeDriver) (new_vset : ValidatorSet)
    : SurgeDriver * result ConsensusError (list DagBlock) :=
  match LeaderSchedule_new new_vset with
  | Err e => (self, Err e)
  | Ok sched =>
      let buffered := (Dag_advance_epoch (dag self) (vs_epoch new_vset)).2 in
      ({| dag := Dag_new (vs_epoch new_vset); clock := ThresholdClock_new (total_power new_vset);
          schedule := sched; linearizer := Linearizer_new; last_decided := genesis_sentinel;
          vset := new_vset |}, Ok buffered)
  end.

(** ** Properties of the blocks a store holds *)

Section held.
Context (blake3 : list N → Hash) (vs : ValidatorSet) (P : DagBlock → Prop).

(** Every stored and every suspended block satisfies [P]. *)
Definition held (d : Dag) : Prop :=
  (∀ r b, blocks d !! r = Some b → P b) ∧ (∀ r b, suspended d !! r = Some b → P b).

Lemma held_sub d d' : blocks d' ⊆ blocks d → suspended d' ⊆ suspended d → held d → held d'.
Proof. intros Hb Hs [H1 H2]. split; intros r b Hr; [eapply H1|eapply H2]; by eapply lookup_weaken. Qed.

Lemma held_accept d r b : held d → P b → held (accept_block d r b).
Proof.
  intros [H1 H2] Hb. split; cbn; [|done]. intros r' b'.
  rewrite lookup_insert_Some. intros [[_ <-]|[_ ?]]; eauto.
Qed.

Lemma opt_fold_inv {A B} (I : A → Prop) (f : A → B → option A) a l a' :
  (∀ a x a', I a → f a x = Some a' → I a') → I a → opt_fold f a l = Some a' → I a'.
Proof.
  intros Hf. revert a. induction l as [|x l IH]; intros a Ha; cbn; [by intros [= <-]|].
  destruct (f a x) as [a1|] eqn:E; cbn; [|done]. apply IH. by eapply Hf.
Qed.

Lemma held_unsuspend_one rec d r d' :
  (∀ d r d', held d → rec d r = Some d' → held d') →
  held d → unsuspend_one rec vs d r = Some d' → held d'.
Proof.
  intros Hrec Hd. unfold unsuspend_one. destruct (suspended d !! r) as [b|] eqn:Hb; cbn [negb]; [|by intros [= <-]].
  destruct (forallb _ _); cbn [negb]; [|by intros [= <-]]. cbv zeta.
  assert (held (release d r b)) as Hrel by (eapply held_sub; [..|exact Hd]; [done|apply delete_subseteq]).
  fold (release d r b). destruct (_ && _).
  - apply Hrec, held_accept; [done|]. by apply (proj2 Hd r).
  - destruct (negb _); [|by intros [= <-]].
    destruct (block_at_slot _ _) as [e|]; [|by intros [= <-]].
    destruct (negb _); intros [= <-]; done.
Qed.

Lemma held_try_unsuspend n d r d' : held d → try_unsuspend n vs d r = Some d' → held d'.
Proof.
  revert d r d'. induction n as [|n IH]; intros d r d' Hd; cbn [try_unsuspend]; [done|].
  destruct (waiting_for d !! r) as [w|]; [|by intros [= <-]].
  apply opt_fold_inv; [|done]. intros d1 r1 d2. by apply held_unsuspend_one.
Qed.

Lemma held_insert d b sig_ok d' out :
  held d → P b → Dag_insert blake3 d b vs sig_ok = Ok (d', out) → held d'.
Proof.
  intros Hd Hb. unfold Dag_insert.
  destruct (contains d _); [by intros [= <- <-]|].
  destruct (dag_epoch d <? blk_epoch b).
  { destruct (blk_epoch b =? _); [|done]. case_decide; by intros [= <- <-]. }
  destruct (blk_epoch b <? dag_epoch d); [done|].
  intros (? & _ & (? & _ & (? & _ & H)%bind_Ok)%bind_Ok)%bind_Ok.
  case_bool_decide; cbn [negb] in H.
  - apply bind_Ok in H as (? & _ & H). destruct (validate_no_equivocation _ _) as [|e].
    + cbv zeta in H. assert (held (accept_block d (reference b) b)) by (by apply held_accept).
      destruct (try_unsuspend _ vs _ (reference b)) as [d2|] eqn:Ht; injection H as <- <-; [|done].
      by eapply held_try_unsuspend.
    + destruct e; try done. by injection H as <- <-.
  - case_decide; injection H as <- <-; [|done]. destruct Hd as [Hbl Hsu]. split; cbn; [done|].
    intros r' b'. rewrite lookup_insert_Some. intros [[_ <-]|[_ ?]]; eauto.
Qed.

Lemma held_commit d round : held d → held (set_last_committed_round d round).
Proof.
  intros Hd. unfold set_last_committed_round. destruct (_ <=? _); [done|].
  eapply held_sub; [..|exact Hd]; cbn; apply map_filter_subseteq.
Qed.
End held.

(** ** The pieces the driver composes *)

Lemma last_elem {A} (l : list A) x : last l = Some x → x ∈ l.
Proof. intros (l' & ->)%last_Some. set_solver. Qed.

Lemma add_block_total vs l c b : vset_wf vs → clock_inv vs l c → ∃ res, add_block c b vs = Ok res.
Proof.
  intros Hw Hc. unfold add_block. destruct (negb _); [by eauto|].
  destruct (members vs !! blk_author b) as [m|] eqn:Hm; [|by eauto].
  destruct (member_add_total vs (stake_at_round c) (blk_author b) m) as (agg & r & ->); [done| | |done|].
  { apply Hc. } { etrans; [apply (ci_counted _ _ _ Hc)|apply voters_members]. }
  cbn. destruct r; by eauto.
Qed.

Lemma highest_round_held blake3 vs d P :
  dag_inv blake3 vs d → held P d → highest_accepted_round d = 0 ∨ ∃ b, P b ∧ blk_round b = highest_accepted_round d.
Proof.
  intros Hd [Hh _]. unfold highest_accepted_round.
  destruct (last (bmap_keys (by_round d))) as [n|] eqn:E; [right|by left]. cbn.
  apply last_elem, elem_of_bmap_keys in E as [X HX].
  destruct (set_choose_L X) as [r Hr]; [by eapply inv_round_nonempty|].
  assert (r ∈ default ∅ (by_round d !! n)) as [[b Hb] Hn]%(inv_round _ _ _ Hd) by (by rewrite HX).
  exists b. split; [by eapply Hh|]. pose proof (inv_ref _ _ _ Hd r b Hb) as <-. done.
Qed.

Lemma StronglySorted_prefix {A} (R : relation A) l k : StronglySorted R (l ++ k) → StronglySorted R l.
Proof.
  induction l as [|x l IH]; cbn; [constructor|]. intros [Hs Hx]%StronglySorted_inv.
  rewrite Forall_app in Hx. constructor; [by apply IH|apply Hx].
Qed.

Lemma decides_commit_stored blake3 vs d leader_of rounds sts r :
  dag_inv blake3 vs d → decides d vs leader_of rounds sts → Commit r ∈ sts → is_Some (blocks d !! r).
Proof.
  intros Hd.
  assert (∀ s, block_at_slot d s = Some r → is_Some (blocks d !! r)) as Hst
    by (intros s [? _]%(inv_slot _ _ _ Hd); done).
  induction 1 as [|n rounds st above _ IH Hdir _|n rounds st above direct _ IH _ _ Hind];
    [by intros ?%not_elem_of_nil|..]; intros [<-|?]%elem_of_cons; try by apply IH.
  - apply (try_direct_decide_sound _ _ _ _ _ Hd) in Hdir as [Hs _]; eauto.
  - apply (try_indirect_decide_sound _ _ _ _ _ _ Hd) in Hind as [Hs _]; eauto.
Qed.

Lemma LeaderStatus_slot_round st : slot_round (LeaderStatus_slot st) = LeaderStatus_round st.
Proof. by destruct st. Qed.

(** What a successful [try_decide] gives its caller. *)
Lemma try_decide_output blake3 vs d leader_of last_dec out :
  dag_inv blake3 vs d → (∀ n, slot_round (leader_of n) = n) → slot_round last_dec < u64_max →
  try_decide last_dec d vs leader_of = Ok out →
  StronglySorted N.lt (slot_round last_dec :: (LeaderStatus_round <$> out))
  ∧ Forall (λ n, n <= highest_accepted_round d - 2 ∧ n mod WAVE_LENGTH = 0) (LeaderStatus_round <$> out)
  ∧ ∀ r, Commit r ∈ out → is_Some (blocks d !! r).
Proof.
  intros Hd Hlf Hl (sts & Hdec & ->)%try_decide_decides.
  rewrite wrapping_add64_small in Hdec by (unfold u64_max in *; lia).
  set (rounds := wave_rounds _ _) in Hdec. destruct (decided_prefix_prefix sts) as [k Hk].
  assert (rounds = (LeaderStatus_round <$> decided_prefix sts) ++ (LeaderStatus_round <$> k)) as Hr.
  { rewrite <-fmap_app, <-Hk. rewrite <-(list_fmap_id rounds).
    transitivity (slot_round <$> (leader_of <$> rounds)).
    - rewrite <-list_fmap_compose. apply list_fmap_ext. intros ? n _. cbn. by rewrite Hlf.
    - rewrite <-(decides_slots _ _ _ _ _ _ Hd Hdec), <-list_fmap_compose.
      apply list_fmap_ext. intros ? st _. apply LeaderStatus_slot_round. }
  assert (∀ n, n ∈ LeaderStatus_round <$> decided_prefix sts →
    slot_round last_dec + 1 <= n <= highest_accepted_round d - 2 ∧ n mod WAVE_LENGTH = 0) as Hin.
  { intros n Hn. apply wave_rounds_elem. fold rounds. rewrite Hr. set_solver. }
  split_and!.
  - constructor; [|apply Forall_forall; intros n Hn%Hin; lia].
    apply (StronglySorted_prefix N.lt _ (LeaderStatus_round <$> k)). rewrite <-Hr.
    destruct (N.le_gt_cases (slot_round last_dec + 1) (highest_accepted_round d - 2)); [by apply wave_rounds_sorted|].
    destruct rounds as [|n l] eqn:E; [constructor|].
    assert (n ∈ n :: l) as Hn by left. rewrite <-E in Hn. apply wave_rounds_elem in Hn. lia.
  - apply Forall_forall. intros n Hn%Hin. tauto.
  - intros r Hc. eapply decides_commit_stored; [done..|]. rewrite Hk. set_solver.
Qed.

Lemma committed_leaders_elem out r : r ∈ committed_leaders out ↔ Commit r ∈ out.
Proof.
  unfold committed_leaders. rewrite list_elem_of_omap. split.
  - intros ([] & ? & [= ->]); done.
  - intros ?. by exists (Commit r).
Qed.

Lemma committed_rounds_sorted n out :
  StronglySorted N.lt (n :: (LeaderStatus_round <$> out)) →
  StronglySorted N.lt (n :: (ref_round <$> committed_leaders out)).
Proof.
  revert n. induction out as [|st out IH]; intros n; [done|]. rewrite fmap_cons.
  intros [Hs Hn]%StronglySorted_inv. rewrite Forall_cons in Hn. destruct Hn as [Hn Hrest].
  assert (StronglySorted N.lt (n :: (LeaderStatus_round <$> out))) as Hskip.
  { apply StronglySorted_inv in Hs as [Hs _]. by constructor. }
  destruct st as [r|x|x]; cbn; [|by apply IH..].
  specialize (IH _ Hs). constructor; [exact IH|]. constructor; [done|].
  apply StronglySorted_inv in IH as [_ IH]. eapply Forall_impl; [exact IH|]. cbn in *. lia.
Qed.

Lemma sorted_le_last n l x : StronglySorted N.lt (n :: l) → x ∈ n :: l → x <= default n (last l).
Proof.
  revert n x. induction l as [|m l IH]; intros n x Hs; [intros ->%list_elem_of_singleton; cbn; lia|].
  apply StronglySorted_inv in Hs as [Hs Hn]. rewrite Forall_cons in Hn. destruct Hn as [Hn _].
  rewrite last_cons. intros Hx.
  assert (m <= default m (last l)) by (apply IH; [done|left]).
  assert (from_option id n (Some (default m (last l))) = default m (last l)) as Heq by done.
  destruct (last l) as [y|] eqn:E; cbn in *; apply elem_of_cons in Hx as [-> |Hx]; try lia.
  - specialize (IH m x Hs Hx). cbn in IH. lia.
  - specialize (IH m x Hs Hx). cbn in IH. lia.
Qed.

Lemma sorted_join (l k : list N) n :
  StronglySorted N.lt l → (∀ x, x ∈ l → x <= n) → StronglySorted N.lt (n :: k) → StronglySorted N.lt (l ++ k).
Proof.
  intros Hl Hn [Hk Hnk]%StronglySorted_inv. induction Hl as [|x l Hl IH Hx]; [done|]. cbn.
  constructor; [apply IH; intros; apply Hn; by right|]. apply Forall_app. split; [done|].
  eapply Forall_impl; [exact Hnk|]. cbn. intros y Hy. specialize (Hn x (list_elem_of_here _ _)). lia.
Qed.

Lemma chained_app blake3 i p t cs cs' :
  chained blake3 i p t cs →
  chained blake3 (Nat.iter (length cs) (λ i, wrapping_add64 i 1) i)
    (default p (Commit_digest blake3 <$> last cs)) (default t (timestamp_ms <$> last cs)) cs' →
  chained blake3 i p t (cs ++ cs').
Proof.
  revert i p t. induction cs as [|c cs IH]; intros i p t; [done|]. cbn [chained app].
  intros (Hi & Hp & Ht & Hc) Hc'. split_and!; [done..|]. apply IH; [done|].
  cbn [length] in Hc'. rewrite Nat.iter_succ_r, last_cons in Hc'. by destruct (last cs).
Qed.

Lemma elect_leader_round sched n : slot_round (elect_leader sched n) = n.
Proof. done. Qed.

(** ** The driver's invariant *)

(** What the proofs ask of incoming blocks and the validity rules do not check:
    the round is a [u64], the stake of the listed ancestors can be summed in 128
    bits, and ancestors are of earlier rounds. *)
Definition sane_block (vs : ValidatorSet) (b : DagBlock) : Prop :=
  blk_round b <= u64_max ∧ ancestors_fit vs b ∧ ∀ a, a ∈ ancestors b → ref_round a < blk_round b.

Section driver.
Context (blake3 : list N → Hash) (vs : ValidatorSet).
Hypothesis Hwf : vset_wf vs.

(** A driver created for [vs] and fed blocks; the commits it has returned. *)
Inductive surge_run : SurgeDriver → list CommitRec → Prop :=
  | run_new s : SurgeDriver_new vs = Ok s → surge_run s []
  | run_block s cs b sig_ok s' r :
      surge_run s cs → sane_block vs b → on_block blake3 s b sig_ok = (s', r) →
      surge_run s' (cs ++ match r with Ok out => commits out | Err _ => [] end).

Definition leader_round (c : CommitRec) : N := ref_round (leader c).

Record surge_inv (s : SurgeDriver) (cs : list CommitRec) : Prop := {
  si_vset : vset s = vs;
  si_sched : LeaderSchedule_new vs = Ok (schedule s);
  si_dag : dag_reachable blake3 vs (vs_epoch vs) (dag s);
  si_held : held (sane_block vs) (dag s);
  si_clock : ∃ l, clock_inv vs l (clock s);
  si_last : slot_round (last_decided s) < u64_max;
  si_wave : slot_round (last_decided s) mod WAVE_LENGTH = 0;
  si_chain : chained blake3 1 genesis_previous 0 cs;
  si_index : next_index (linearizer s) = Nat.iter (length cs) (λ i, wrapping_add64 i 1) 1;
  si_digest : last_digest (linearizer s) = default genesis_previous (Commit_digest blake3 <$> last cs);
  si_time : last_timestamp_ms (linearizer s) = default 0 (timestamp_ms <$> last cs);
  si_rounds : StronglySorted N.lt (0 :: (leader_round <$> cs));
  si_waves : Forall (λ c, leader_round c mod WAVE_LENGTH = 0) cs;
  si_bound x : x ∈ 0 :: (leader_round <$> cs) → x <= slot_round (last_decided s);
  si_committed : committed (linearizer s) = list_to_set (linearized cs);
  si_committed_bound x : x ∈ committed (linearizer s) → ref_round x <= slot_round (last_decided s);
  si_once : NoDup (linearized cs);
}.

Lemma surge_inv_new s : SurgeDriver_new vs = Ok s → surge_inv s [].
Proof.
  unfold SurgeDriver_new. intros (sched & Hs & [= <-])%bind_Ok. split; cbn; try done.
  - apply rtc_refl.
  - exists []. apply clock_inv_new.
  - by repeat constructor.
  - intros x ->%list_elem_of_singleton. done.
  - constructor.
Qed.

Lemma surge_inv_dag s cs d :
  dag_reachable blake3 vs (vs_epoch vs) d → held (sane_block vs) d → surge_inv s cs → surge_inv (set_dag d s) cs.
Proof. intros Hd Hh []. by split. Qed.

Lemma surge_inv_clock s cs l c : clock_inv vs l c → surge_inv s cs → surge_inv (set_clock c s) cs.
Proof. intros Hc []. split; cbn; eauto. Qed.

Lemma held_monotone d : dag_inv blake3 vs d → held (sane_block vs) d → round_monotone d.
Proof.
  intros Hd [Hh _] r b a Hb Ha. rewrite <-(inv_ref _ _ _ Hd r b Hb).
  destruct (Hh r b Hb) as (_ & _ & Hm). by apply Hm.
Qed.

Lemma commit_leaders_dag lin decided d lin' d' r :
  commit_leaders blake3 lin decided d vs = ((lin', d'), r) →
  dag_reachable blake3 vs (vs_epoch vs) d → held (sane_block vs) d →
  dag_reachable blake3 vs (vs_epoch vs) d' ∧ held (sane_block vs) d'.
Proof.
  unfold commit_leaders. destruct (commit_loop _ _ _ _ _) as [lin1 [cs|e]].
  - intros [= <- <- <-] Hd Hh. destruct (max_leader_round cs) as [n|]; [|done].
    split; [|by apply held_commit]. eapply rtc_r; [done|apply step_commit].
  - by intros [= <- <- <-].
Qed.

Lemma advance_last_decided_round s decided :
  slot_round (advance_last_decided s decided)
  = default (slot_round (last_decided s)) (last (LeaderStatus_round <$> decided)).
Proof. unfold advance_last_decided. rewrite fmap_last. by destruct (last decided). Qed.

Lemma decided_round_small d n :
  dag_inv blake3 vs d → held (sane_block vs) d → 0 < n → n <= highest_accepted_round d - 2 → n < u64_max.
Proof.
  intros Hd Hh Hn Hle. destruct (highest_round_held blake3 vs d _ Hd Hh) as [?|(b & (? & _) & ?)]; lia.
Qed.

(** The commit pipeline on a driver in a good state: neither the commit rule nor
    the linearizer fails. *)
Lemma run_pipeline_total s cs :
  surge_inv s cs → ∃ decided lin d new,
    run_pipeline blake3 s = (set_pipeline lin d (advance_last_decided s decided) s, Ok new)
    ∧ commit_loop blake3 vs (dag s) (linearizer s) decided = (lin, Ok new)
    ∧ dag_reachable blake3 vs (vs_epoch vs) d ∧ held (sane_block vs) d
    ∧ StronglySorted N.lt (slot_round (last_decided s) :: (LeaderStatus_round <$> decided))
    ∧ ∀ n, n ∈ LeaderStatus_round <$> decided → n < u64_max ∧ n mod WAVE_LENGTH = 0.
Proof.
  intros I. pose proof (dag_reachable_ok _ _ _ _ (si_dag _ _ I)) as [Hinv _].
  unfold run_pipeline. rewrite (si_vset _ _ I).
  destruct (try_decide_total vs (dag s) (elect_leader (schedule s)) (last_decided s) Hwf) as [decided Htd].
  rewrite Htd. apply (try_decide_output blake3) in Htd as (Hsort & Hrange & Hst); [|done|done|apply I].
  assert (∀ r, r ∈ committed_leaders decided → ∃ b, blocks (dag s) !! r = Some b ∧ ancestors_fit vs b) as Hfit.
  { intros r [b Hbk]%committed_leaders_elem%Hst. exists b. split; [done|]. by apply (proj1 (si_held _ _ I) r b Hbk). }
  destruct (commit_loop_total blake3 vs (dag s) Hwf decided (linearizer s) Hfit) as (lin' & new & Hl).
  destruct (commit_leaders blake3 (linearizer s) decided (dag s) vs) as [[l d'] res] eqn:Hcomm.
  pose proof (commit_leaders_dag _ _ _ _ _ _ Hcomm (si_dag _ _ I) (si_held _ _ I)) as [Hd' Hh'].
  unfold commit_leaders in Hcomm. rewrite Hl in Hcomm. injection Hcomm as <- <- <-.
  exists decided. do 3 eexists. split_and!; [done..|].
  rewrite Forall_forall in Hrange. intros n Hn. destruct (Hrange n Hn) as [? ?]. split; [|done].
  eapply decided_round_small; [exact Hinv|apply I| |done].
  apply StronglySorted_inv in Hsort as [_ Hlt]. rewrite Forall_forall in Hlt. specialize (Hlt n Hn). lia.
Qed.

Lemma run_pipeline_inv s cs :
  surge_inv s cs → ∃ s' new, run_pipeline blake3 s = (s', Ok new) ∧ surge_inv s' (cs ++ new).
Proof.
  intros I. destruct (run_pipeline_total s cs I) as (decided & lin & d & new & -> & Hl & Hd' & Hh' & Hsort & Hrange).
  destruct I as [Hv Hsch Hd Hh Hcl Hlast Hwave Hch Hix Hdig Htime Hr Hws Hb Hco Hcb Honce].
  pose proof (dag_reachable_ok _ _ _ _ Hd) as [Hinv _].
  pose proof (commit_loop_chained _ _ _ _ _ _ _ Hl) as (Hlead & Hchn & Hdn & Htn & Hin).
  pose proof (inv_ref _ _ _ Hinv) as Href. pose proof (held_monotone _ Hinv Hh) as Hmono.
  pose proof (committed_rounds_sorted _ _ Hsort) as Hcs.
  pose proof (commit_loop_once _ _ _ _ _ _ _ Href Hmono Hl _ Hcb Hcs) as (Hnd & Hfr & Hcb').
  pose proof (commit_loop_fresh _ _ _ _ _ _ _ Href Hl) as (Hco' & _).
  assert (leader_round <$> new = ref_round <$> committed_leaders decided) as Hlr.
  { rewrite <-Hlead, <-list_fmap_compose. done. }
  pose proof (advance_last_decided_round s decided) as Hadv.
  assert (slot_round (last_decided s) <= slot_round (advance_last_decided s decided)) as Hge.
  { rewrite Hadv. apply sorted_le_last; [done|left]. }
  assert (∀ x, x ∈ leader_round <$> new → x ∈ LeaderStatus_round <$> decided) as Hsub.
  { intros x. rewrite Hlr. intros (r & -> & Hr')%list_elem_of_fmap. apply list_elem_of_fmap.
    exists (Commit r). split; [done|]. by apply committed_leaders_elem. }
  do 2 eexists. split; [done|]. split; cbn; try done.
  - rewrite Hadv. destruct (last (LeaderStatus_round <$> decided)) as [n|] eqn:E; [|done].
    apply last_elem, Hrange in E. apply E.
  - rewrite Hadv. destruct (last (LeaderStatus_round <$> decided)) as [n|] eqn:E; [|done].
    apply last_elem, Hrange in E. apply E.
  - apply chained_app; [done|]. by rewrite <-Hix, <-Hdig, <-Htime.
  - rewrite Hin, Hix, length_app, Nat.add_comm. by rewrite Nat.iter_add.
  - rewrite Hdn, Hdig, last_app. by destruct (last new).
  - rewrite Htn, Htime, last_app. by destruct (last new).
  - rewrite fmap_app, app_comm_cons, Hlr. by eapply sorted_join.
  - apply Forall_app. split; [done|]. apply Forall_forall. intros c Hc.
    apply (Hrange (leader_round c)). apply Hsub. by apply list_elem_of_fmap_2.
  - intros x. rewrite fmap_app, app_comm_cons, elem_of_app. intros [Hx|Hx%Hsub].
    + specialize (Hb x Hx). lia.
    + rewrite Hadv. apply sorted_le_last; [done|by right].
  - rewrite Hco', Hco. unfold linearized. rewrite fmap_app, join_app, list_to_set_app_L. done.
  - intros x Hx%Hcb'. etrans; [exact Hx|]. rewrite <-Hlr, Hadv.
    destruct (last (leader_round <$> new)) as [m|] eqn:E; cbn; [|by rewrite <-Hadv].
    apply last_elem, Hsub in E. apply sorted_le_last; [done|by right].
  - unfold linearized. rewrite fmap_app, join_app. apply NoDup_app. split_and!; [done| |done].
    intros x Hx Hx'. apply (Hfr x Hx'). rewrite Hco. by apply elem_of_list_to_set.
Qed.

(** The outcome of [on_block] in a good state is that of the insertion. *)
Lemma on_block_inv s cs b sig_ok :
  surge_inv s cs → sane_block vs b →
  match Dag_insert blake3 (dag s) b vs sig_ok with
  | Err e => on_block blake3 s b sig_ok = (s, Err e)
  | Ok (d1, out) => ∃ s' o, on_block blake3 s b sig_ok = (s', Ok o) ∧ outcome o = out
      ∧ equivocations o = pending_equivocations d1 ++ (if is_equivocation out then [out] else [])
      ∧ (out ≠ Accepted → new_round o = None ∧ commits o = []) ∧ surge_inv s' (cs ++ commits o)
  end.
Proof.
  intros I Hb. destruct (Dag_insert blake3 (dag s) b vs sig_ok) as [[d1 out]|e] eqn:Hins;
    unfold on_block; rewrite (si_vset _ _ I), Hins; [|done].
  cbn [drain_equivocations]. set (d2 := set_pending_equivocations [] d1).
  assert (surge_inv (set_dag d2 s) cs) as I1.
  { apply surge_inv_dag; [..|done].
    - eapply rtc_r; [eapply rtc_r; [apply I|by eapply step_insert]|apply step_drain].
    - by apply (held_insert _ _ _ _ _ _ _ _ (si_held _ _ I) Hb Hins). }
  assert ((if is_equivocation out then pending_equivocations d1 ++ [out] else pending_equivocations d1)
    = pending_equivocations d1 ++ (if is_equivocation out then [out] else [])) as ->
    by (destruct (is_equivocation out); by rewrite ?app_nil_r).
  cbv zeta. case_bool_decide as Hout; cbn [negb].
  - destruct (si_clock _ _ I) as [l Hcl].
    destruct (add_block_total vs l (clock (set_dag d2 s)) b Hwf Hcl) as [[c adv] Hadd].
    rewrite (si_vset _ _ I1), Hadd. apply (add_block_step _ _ _ _ _ _ Hcl) in Hadd as [Hc _].
    destruct (run_pipeline_inv _ cs (surge_inv_clock _ _ _ _ Hc I1)) as (s' & new & -> & I').
    do 2 eexists. by split_and!.
  - do 2 eexists. split_and!; [done..|]. cbn. by rewrite app_nil_r.
Qed.

Lemma surge_run_inv s cs : surge_run s cs → surge_inv s cs.
Proof.
  induction 1 as [s Hs|s cs b sig_ok s' r _ I Hb Hon]; [by apply surge_inv_new|].
  pose proof (on_block_inv s cs b sig_ok I Hb) as H.
  destruct (Dag_insert _ _ _ _ _) as [[d1 out]|e].
  - destruct H as (s1 & o & Ho & _ & _ & _ & I'). rewrite Ho in Hon. by injection Hon as <- <-.
  - rewrite H in Hon. injection Hon as <- <-. by rewrite app_nil_r.
Qed.
End driver.

(** ** Theorems *)

(** The driver only fails by rejecting the block: on every driver reached by
    feeding blocks to a new one, [on_block] returns an error exactly when
    [Dag::insert] does, with that error and the driver unchanged; the clock, the
    commit rule and the linearizer never fail, and in particular no decided
    leader is ever missing.  Otherwise the outcome is that of the insertion,
    every equivocation it surfaced is reported once, and a block that is not
    accepted neither moves the clock nor commits anything. *)
Theorem on_block_fails_only_by_rejection blake3 vs s cs b sig_ok :
  vset_wf vs → surge_run blake3 vs s cs → sane_block vs b →
  match Dag_insert blake3 (dag s) b vs sig_ok with
  | Err e => on_block blake3 s b sig_ok = (s, Err e)
  | Ok (d1, out) => ∃ s' o, on_block blake3 s b sig_ok = (s', Ok o) ∧ outcome o = out
      ∧ equivocations o = pending_equivocations d1 ++ (if is_equivocation out then [out] else [])
      ∧ (out ≠ Accepted → new_round o = None ∧ commits o = [])
  end.
Proof.
  intros Hw Hr Hb. apply surge_run_inv in Hr; [|done].
  pose proof (on_block_inv blake3 vs Hw s cs b sig_ok Hr Hb) as H.
  destruct (Dag_insert _ _ _ _ _) as [[d1 out]|e]; [|done].
  destruct H as (s' & o & ? & ? & ? & ? & _). by exists s', o.
Qed.

(** C12. The commits of an epoch: for a validator set whose total is the sum of its
    powers, along every run of the driver on blocks whose ancestors are of earlier rounds, the records returned by all calls together
    form one chain from the genesis digest with consecutive indices from 1 and
    timestamps that never go back; their leaders are of strictly ascending
    rounds, each a multiple of the wave length and none above the last decided
    round; and no block is committed twice. *)
Theorem surge_commit_chain blake3 vs s cs :
  vset_wf vs → surge_run blake3 vs s cs →
  chained blake3 1 genesis_previous 0 cs ∧ NoDup (linearized cs)
  ∧ StronglySorted N.lt (0 :: (leader_round <$> cs))
  ∧ Forall (λ c, leader_round c mod WAVE_LENGTH = 0 ∧ leader_round c <= slot_round (last_decided s)) cs.
Proof.
  intros Hw Hr%surge_run_inv; [|done]. split_and!; try apply Hr.
  apply Forall_forall. intros c Hc. split.
  - pose proof (si_waves _ _ _ _ Hr) as H. rewrite Forall_forall in H. by apply H.
  - apply (si_bound _ _ _ _ Hr). right. by apply list_elem_of_fmap_2.
Qed.

(** [advance_epoch] starts the epoch afresh: on success the driver is the one
    [new] builds for the committee, and the buffered blocks of the next epoch
    are handed back in reference order exactly when the committee's epoch is the
    next one; it fails only on an empty committee and then changes nothing. *)
Theorem advance_epoch_resets self new_vset :
  match SurgeDriver_advance_epoch self new_vset with
  | (s', Ok bs) => SurgeDriver_new new_vset = Ok s'
      ∧ bs = (if vs_epoch new_vset =? wrapping_add64 (dag_epoch (dag self)) 1
              then (bmap_iter (next_epoch_buffer (dag self))).*2 else [])
  | (s', Err e) => s' = self ∧ members new_vset = ∅ ∧ e = EmptyCommittee (vs_epoch new_vset)
  end.
Proof.
  unfold SurgeDriver_advance_epoch, SurgeDriver_new, Dag_advance_epoch, LeaderSchedule_new, LeaderSchedule_with_swap.
  case_bool_decide; [done|]. cbn. by destruct (_ =? _).
Qed.
