(* ===== verification/SurgeExamples.v ===== *)
(** * Executions of the consensus driver

    Runs of [SurgeDriver] on the committee and blocks of [Scenario]: the first
    commit of an epoch, and a delivery order after which the round clock stays
    behind the store. *)
From S2P Require Import Prelude CoreTypes StakeAgg DagBlock DagGraph Scenario ThresholdClock Committer Leader Linearizer CommitFork Surge.

(** Feeding blocks to a driver, rejected or not, with the outputs in order. *)
Fixpoint feed (blake3 : list N → Hash) (s : SurgeDriver) (l : list DagBlock)
    : SurgeDriver * list (result ConsensusError SurgeOutput) :=
  match l with
  | [] => (s, [])
  | b :: l =>
      let '(s1, r) := on_block blake3 s b true in
      let '(s2, rs) := feed blake3 s1 l in (s2, r :: rs)
  end.

Definition driver4 : SurgeDriver :=
  {| dag := Dag_new 0; clock := ThresholdClock_new 4; schedule := schedule4; linearizer := Linearizer_new;
     last_decided := genesis_sentinel; vset := vset4 |}.

Lemma driver4_new : SurgeDriver_new vset4 = Ok driver4.
Proof. vm_compute. done. Qed.

Definition returned (rs : list (result ConsensusError SurgeOutput)) : list CommitRec :=
  mjoin ((λ r, match r with Ok out => commits out | Err _ => [] end) <$> rs).

Lemma feed_run blake3 vs s cs l s' rs :
  surge_run blake3 vs s cs → Forall (sane_block vs) l → feed blake3 s l = (s', rs) →
  surge_run blake3 vs s' (cs ++ returned rs).
Proof.
  intros Hr Hl. revert s cs s' rs Hr. induction Hl as [|b l Hb _ IH]; intros s cs s' rs Hr; cbn [feed].
  - intros [= <- <-]. by rewrite app_nil_r.
  - destruct (on_block blake3 s b true) as [s1 r] eqn:Hon. destruct (feed blake3 s1 l) as [s2 rs2] eqn:Hf.
    intros [= <- <-]. eapply IH in Hf; [|by eapply run_block].
    by rewrite <-app_assoc in Hf.
Qed.

Definition sane_check (vs : ValidatorSet) (b : DagBlock) : bool :=
  (blk_round b <=? u64_max) && (N.of_nat (length (ancestors b)) * total_power vs <=? u128_max)
  && forallb (λ a, ref_round a <? blk_round b) (ancestors b).

Lemma sane_check_sound vs l : forallb (sane_check vs) l = true → Forall (sane_block vs) l.
Proof.
  rewrite forallb_forall, Forall_forall. setoid_rewrite <-list_elem_of_In. intros H b Hb%H.
  unfold sane_check in Hb. bool_hyps. split_and!; [done..|]. intros a Ha. apply N.ltb_lt.
  rewrite forallb_forall in H1. apply H1. by apply list_elem_of_In.
Qed.

(** Rounds 0 to 5 with every validator active: the leader of round 3 commits. *)
Definition round4 : list DagBlock := Eval vm_compute in full_round 4 round3.
Definition round5 : list DagBlock := Eval vm_compute in full_round 5 round4.
Definition first_wave : list DagBlock := round0 ++ round1 ++ round2 ++ round3 ++ round4 ++ round5.

(** The blocks of validators 1 to 3 of rounds 0, 1 and 2. *)
Definition three_round0 : list DagBlock := Eval vm_compute in (λ a, mk_block 0 a []) <$> [1; 2; 3].
Definition three_round1 : list DagBlock := Eval vm_compute in (λ a, mk_block 1 a three_round0) <$> [1; 2; 3].
Definition three_round2 : list DagBlock := Eval vm_compute in (λ a, mk_block 2 a three_round1) <$> [1; 2; 3].

(** Round 1 arrives before round 0. *)
Definition late_genesis : list DagBlock := three_round1 ++ three_round0 ++ three_round2.

(** ** Proofs *)

(** The clock does not see blocks that the store accepts through the
    suspension buffer: fed the blocks of round 1, then those of round 0, then
    those of round 2, a new driver accepts all nine, its store holds a quorum of
    round 1 (and of round 2), and its clock stays at round 1; fed in the order
    of rounds, the same blocks take the clock to round 3. *)
Theorem clock_misses_unsuspended_blocks :
  let s := (feed test_hash driver4 late_genesis).1 in
  let s' := (feed test_hash driver4 (three_round0 ++ three_round1 ++ three_round2)).1 in
  Forall (λ b, blocks (dag s) !! reference b = Some b) late_genesis ∧
  (∃ agg, total_stake_at (dag s) 1 vset4 = Ok agg ∧ reached agg = true) ∧
  (∃ agg, total_stake_at (dag s) 2 vset4 = Ok agg ∧ reached agg = true) ∧
  clock_round (clock s) = 1 ∧ clock_round (clock s') = 3.
Proof.
  split_and!.
  - apply Forall_forall. intros b Hb. unfold late_genesis in Hb. revert b Hb. apply Forall_forall.
    repeat constructor; vm_compute; done.
  - eexists. split; vm_compute; done.
  - eexists. split; vm_compute; done.
  - vm_compute. done.
  - vm_compute. done.
Qed.
