(* ===== verification/Cert.v ===== *)
(** * Quorum certificates and commit acknowledgements
    ([crates/lemma-consensus/src/cert.rs], [commit_ack.rs])

    Verification of a [QuorumCert] against a committee, and the accumulator that
    assembles one from signed acknowledgements.  Signature checks are done by
    the node layer and passed in as booleans, as in the source. *)
From S2P Require Import Prelude CoreTypes StakeAgg DagBlock.

(** ** [cert.rs] *)

(** [CertError]; the prefix keeps the names apart from [ConsensusError]'s. *)
Inductive CertError :=
  | Cert_DigestMismatch (expected got : Hash)
  | Cert_NonMemberSigner (signer : Address)
  | Cert_InvalidSignature (signer : Address)
  | Cert_InsufficientQuorum (accumulated total : N)
  | Cert_StakeOverflow (source : ConsensusError).

(** The body of the loop over the signers. *)
Definition cert_step (vset : ValidatorSet) (sig_results : gmap Address bool) (agg : StakeAggregator)
    (addr : Address) : result CertError StakeAggregator :=
  member ← ok_or (Cert_NonMemberSigner addr) (members vset !! addr);
  if negb (default false (sig_results !! addr)) then Err (Cert_InvalidSignature addr) else
  '(agg', _) ← map_err Cert_StakeOverflow (StakeAggregator_add agg addr (power member));
  Ok agg'.

Definition verify_quorum_cert (qc : QuorumCert) (vset : ValidatorSet) (expected_digest : Hash)
    (sig_results : gmap Address bool) : result CertError () :=
  if negb (qc_header_digest qc =? expected_digest)
  then Err (Cert_DigestMismatch expected_digest (qc_header_digest qc)) else
  agg ← try_fold (cert_step vset sig_results) (StakeAggregator_quorum (total_power vset))
    (bmap_keys (signers qc));
  if negb (reached agg) then Err (Cert_InsufficientQuorum (accumulated agg) (total_power vset)) else
  Ok ().

(** ** [commit_ack.rs] *)

Record CommitAckPayload := {
  ack_height : N;
  ack_header_digest : Hash;
  ack_signer : Address;
  ack_signature : Signature;
}.

(** The bytes of ["commit-ack"]. *)
Definition COMMIT_ACK_DOMAIN : list N := [99; 111; 109; 109; 105; 116; 45; 97; 99; 107].

Definition commit_ack_preimage (height : N) (header_digest : Hash) : list N :=
  COMMIT_ACK_DOMAIN ++ le_bytes 8 height ++ Hash_as_bytes header_digest.

Definition commit_ack_message (blake3 : list N → Hash) (height : N) (header_digest : Hash) : Hash :=
  blake3 (commit_ack_preimage height header_digest).

Inductive CommitAckError :=
  | Ack_HeightMismatch (expected got : N)
  | Ack_DigestMismatch (expected got : Hash)
  | Ack_UnknownSigner (signer : Address)
  | Ack_InvalidSignature (signer : Address)
  | Ack_Equivocation (signer : Address)
  | Ack_StakeOverflow (source : ConsensusError).

Record CommitAckAccumulator := {
  acc_height : N;
  acc_header_digest : Hash;
  inner : StakeAggregator;
  acc_signers : gmap Address Signature;
  acc_total_power : Amount;
}.

Definition CommitAckAccumulator_new (height : N) (header_digest : Hash) (total : Amount) : CommitAckAccumulator :=
  {| acc_height := height; acc_header_digest := header_digest; inner := StakeAggregator_quorum total;
     acc_signers := ∅; acc_total_power := total |}.

Definition for_validator_set (height : N) (header_digest : Hash) (vset : ValidatorSet) : CommitAckAccumulator :=
  CommitAckAccumulator_new height header_digest (total_power vset).

(** Returns the updated accumulator and the answer; an [Err] changes nothing. *)
Definition CommitAckAccumulator_add (self : CommitAckAccumulator) (ack : CommitAckPayload)
    (vset : ValidatorSet) (sig_ok : bool) : result CommitAckError (CommitAckAccumulator * bool) :=
  if negb (ack_height ack =? acc_height self)
  then Err (Ack_HeightMismatch (acc_height self) (ack_height ack)) else
  if negb (ack_header_digest ack =? acc_header_digest self)
  then Err (Ack_DigestMismatch (acc_header_digest self) (ack_header_digest ack)) else
  member ← ok_or (Ack_UnknownSigner (ack_signer ack)) (members vset !! ack_signer ack);
  if negb sig_ok then Err (Ack_InvalidSignature (ack_signer ack)) else
  if bool_decide (is_Some (acc_signers self !! ack_signer ack))
  then Err (Ack_Equivocation (ack_signer ack)) else
  '(agg, r) ← map_err Ack_StakeOverflow (StakeAggregator_add (inner self) (ack_signer ack) (power member));
  Ok ({| acc_height := acc_height self; acc_header_digest := acc_header_digest self; inner := agg;
         acc_signers := <[ack_signer ack := ack_signature ack]> (acc_signers self);
         acc_total_power := acc_total_power self |}, r).

Definition try_build_qc (self : CommitAckAccumulator) : option QuorumCert :=
  if negb (reached (inner self)) then None else
  Some {| qc_height := acc_height self; qc_header_digest := acc_header_digest self;
          signers := acc_signers self |}.

(** Presenting acknowledgements with the results of their signature checks;
    rejected ones are dropped. *)
Definition run_acks (vset : ValidatorSet) : CommitAckAccumulator → list (CommitAckPayload * bool) → CommitAckAccumulator :=
  foldl (λ acc p, match CommitAckAccumulator_add acc p.1 vset p.2 with
                  | Ok (acc', _) => acc'
                  | Err _ => acc
                  end).

(** ** Proofs: certificates *)

Lemma cert_step_ok vset sigs agg a agg' :
  cert_step vset sigs agg a = Ok agg' ↔
  is_Some (members vset !! a) ∧ sigs !! a = Some true ∧ add_member vset agg a = Ok agg'.
Proof.
  unfold cert_step, add_member. destruct (members vset !! a) as [m|]; cbn; [|naive_solver].
  destruct (sigs !! a) as [[]|]; cbn; [|naive_solver..].
  destruct (StakeAggregator_add _ _ _) as [[agg1 r]|]; cbn; naive_solver.
Qed.

Lemma cert_loop_ok vset sigs agg l agg' :
  try_fold (cert_step vset sigs) agg l = Ok agg' ↔
  (∀ a, a ∈ l → is_Some (members vset !! a) ∧ sigs !! a = Some true)
  ∧ try_fold (add_member vset) agg l = Ok agg'.
Proof.
  revert agg. induction l as [|a l IH]; intros agg; cbn.
  - split; [intros [= <-]|by intros [_ [= <-]]]. split; [|done]. by intros ? ?%not_elem_of_nil.
  - rewrite !bind_Ok. setoid_rewrite cert_step_ok. setoid_rewrite IH. split.
    + intros (agg1 & (? & ? & ?) & Hl & ?). split; [|by eauto].
      intros x [-> |?]%elem_of_cons; [done|by apply Hl].
    + intros (Hl & agg1 & ? & ?). exists agg1. split_and!; [| |done| |done]; try apply Hl; try left.
      intros x ?. apply Hl. by right.
Qed.

Lemma voters_keys vset (m : gmap Address Signature) :
  dom m ⊆ dom (members vset) → voters vset (bmap_keys m) = dom m.
Proof.
  intros Hs. apply set_eq. intros a. rewrite elem_of_voters, elem_of_bmap_keys, <-!elem_of_dom. set_solver.
Qed.

(** What a verified certificate establishes. *)
Lemma verify_quorum_cert_sound qc vset expected sigs :
  verify_quorum_cert qc vset expected sigs = Ok () →
  qc_header_digest qc = expected ∧ (∀ a, a ∈ dom (signers qc) → sigs !! a = Some true)
  ∧ is_quorum vset (dom (signers qc)).
Proof.
  unfold verify_quorum_cert. destruct (N.eqb_spec (qc_header_digest qc) expected) as [Hd|]; cbn [negb]; [|done].
  intros (agg & (Hall & Ht)%cert_loop_ok & Hr)%bind_Ok. destruct (reached agg) eqn:E; [|done].
  assert (∀ a, a ∈ dom (signers qc) → is_Some (members vset !! a) ∧ sigs !! a = Some true) as Hin.
  { intros a Ha. apply Hall, elem_of_bmap_keys. by apply elem_of_dom. }
  split_and!; [done|intros a Ha; by apply Hin|].
  rewrite <-(voters_keys vset); [by eapply quorum_tally_reached|].
  intros a [Ha _]%Hin. by apply elem_of_dom.
Qed.

Lemma verify_quorum_cert_complete qc vset expected sigs :
  vset_wf vset → 3 * total_power vset <= u128_max →
  qc_header_digest qc = expected → (∀ a, a ∈ dom (signers qc) → sigs !! a = Some true) →
  is_quorum vset (dom (signers qc)) → verify_quorum_cert qc vset expected sigs = Ok ().
Proof.
  intros Hw Hm Hd Hs Hq. unfold verify_quorum_cert. rewrite Hd, N.eqb_refl. cbn [negb].
  destruct (quorum_tally_complete vset (bmap_keys (signers qc)) Hw Hm) as (agg & Ht & Hr).
  rewrite voters_keys in Hr by apply Hq.
  assert (try_fold (cert_step vset sigs) (StakeAggregator_quorum (total_power vset)) (bmap_keys (signers qc))
    = Ok agg) as ->.
  { apply cert_loop_ok. split; [|done]. intros a Ha%elem_of_bmap_keys%elem_of_dom.
    split; [|by apply Hs]. apply elem_of_dom. by apply Hq. }
  cbn. by rewrite (proj2 Hr Hq).
Qed.

(** ** Proofs: the accumulator *)

Section acks.
Context (vset : ValidatorSet) (height : N) (header_digest : Hash).

Definition ack_valid (p : CommitAckPayload * bool) : Prop :=
  ack_height p.1 = height ∧ ack_header_digest p.1 = header_digest
  ∧ is_Some (members vset !! ack_signer p.1) ∧ p.2 = true.

#[export] Instance ack_valid_dec p : Decision (ack_valid p).
Proof. unfold ack_valid. apply _. Defined.

(** The committee members with a valid acknowledgement in [l]. *)
Definition ackers (l : list (CommitAckPayload * bool)) : gset Address :=
  list_to_set ((λ p, ack_signer p.1) <$> filter ack_valid l).

Record ack_inv (l : list (CommitAckPayload * bool)) (acc : CommitAckAccumulator) : Prop := {
  ai_height : acc_height acc = height;
  ai_digest : acc_header_digest acc = header_digest;
  ai_rep : agg_rep (power_of vset) (inner acc);
  ai_total : agg_total_power (inner acc) = total_power vset;
  ai_thr : threshold (inner acc) = Quorum;
  ai_counted : counted (inner acc) = dom (acc_signers acc);
  ai_signers : dom (acc_signers acc) = ackers l;
  ai_sigs a s : acc_signers acc !! a = Some s →
    ∃ p, p ∈ l ∧ ack_valid p ∧ ack_signer p.1 = a ∧ ack_signature p.1 = s;
}.

Lemma ackers_snoc l p : ackers (l ++ [p]) = ackers l ∪ (if decide (ack_valid p) then {[ack_signer p.1]} else ∅).
Proof.
  unfold ackers. rewrite filter_app, fmap_app, list_to_set_app_L. f_equal.
  rewrite filter_cons, filter_nil. case_decide; cbn; set_solver.
Qed.

Lemma ackers_members l : ackers l ⊆ dom (members vset).
Proof.
  intros a. unfold ackers. rewrite elem_of_list_to_set, list_elem_of_fmap.
  intros (p & -> & [(_ & _ & ? & _) _]%list_elem_of_filter). by apply elem_of_dom.
Qed.

Lemma ack_inv_skip l acc p :
  ack_inv l acc → ackers (l ++ [p]) = ackers l → ack_inv (l ++ [p]) acc.
Proof.
  intros [] Hp. split; try done; [by rewrite Hp|]. intros a s (q & ? & ?)%ai_sigs0.
  exists q. rewrite elem_of_app. tauto.
Qed.

Lemma ack_add_inv l acc p :
  vset_wf vset → ack_inv l acc →
  ack_inv (l ++ [p]) (match CommitAckAccumulator_add acc p.1 vset p.2 with Ok (acc', _) => acc' | Err _ => acc end).
Proof.
  intros Hw I. destruct p as [ack ok]. cbn [fst snd]. pose proof (ackers_snoc l (ack, ok)) as Hsnoc.
  assert (¬ ack_valid (ack, ok) → ack_inv (l ++ [(ack, ok)]) acc) as Hskip.
  { intros Hn. apply ack_inv_skip; [done|]. rewrite Hsnoc, decide_False by done. set_solver. }
  unfold CommitAckAccumulator_add. rewrite (ai_height _ _ I), (ai_digest _ _ I).
  destruct (N.eqb_spec (ack_height ack) height) as [Hh|Hh]; cbn [negb]; [|apply Hskip; by intros (? & _)].
  destruct (N.eqb_spec (ack_header_digest ack) header_digest) as [Hd|Hd]; cbn [negb];
    [|apply Hskip; by intros (_ & ? & _)].
  destruct (members vset !! ack_signer ack) as [m|] eqn:Hm; cbn;
    [|apply Hskip; intros (_ & _ & [? ?] & _); cbn in *; congruence].
  destruct ok; cbn [negb]; [|apply Hskip; by intros (_ & _ & _ & ?)].
  assert (ack_valid (ack, true)) as Hv by (unfold ack_valid; cbn; rewrite Hm; eauto).
  rewrite decide_True in Hsnoc by done. cbn in Hsnoc.
  case_bool_decide as Hdup.
  { apply ack_inv_skip; [done|]. rewrite Hsnoc. apply elem_of_dom in Hdup.
    rewrite (ai_signers _ _ I) in Hdup. set_solver. }
  destruct (member_add_total vset (inner acc) (ack_signer ack) m) as (agg & r & Hadd); [done|apply I| |done|].
  { rewrite (ai_counted _ _ I), (ai_signers _ _ I). apply ackers_members. }
  rewrite Hadd. cbn. rewrite <-(power_of_member _ _ _ Hm) in Hadd.
  apply (add_rep (power_of vset)) in Hadd as (? & _ & Hc & Ht & Hth); [|apply I].
  split; cbn; [done|done|done|rewrite Ht; apply I|rewrite Hth; apply I|..].
  - rewrite Hc, (ai_counted _ _ I), dom_insert_L. done.
  - rewrite dom_insert_L, (ai_signers _ _ I), Hsnoc. set_solver.
  - intros a s. rewrite lookup_insert_Some. intros [[<- <-]|[_ Hs]].
    + exists (ack, true). split_and!; [set_solver|done..].
    + destruct (ai_sigs _ _ I a s Hs) as (q & ? & ?). exists q. rewrite elem_of_app. tauto.
Qed.

Lemma run_acks_inv l :
  vset_wf vset → ack_inv l (run_acks vset (for_validator_set height header_digest vset) l).
Proof.
  intros Hw. induction l as [|p l IH] using rev_ind.
  - split; cbn; try done. apply agg_rep_quorum.
  - unfold run_acks in *. rewrite foldl_app. cbn [foldl]. by apply ack_add_inv.
Qed.

Lemma ack_reached l acc :
  3 * total_power vset <= u128_max → ack_inv l acc →
  reached (inner acc) = true ↔ is_quorum vset (ackers l).
Proof.
  intros Hm I. rewrite (rep_reached _ _ (ai_rep _ _ I)), (rep_accumulated _ _ (ai_rep _ _ I)).
  rewrite (ai_counted _ _ I), (ai_signers _ _ I), (ai_total _ _ I), (ai_thr _ _ I). split.
  - intros Hr%exceeds_threshold_sound. split; [apply ackers_members|exact Hr].
  - intros [_ Hr]. by apply exceeds_threshold_complete.
Qed.
End acks.

(** ** Theorems *)

(** [verify_quorum_cert] accepts exactly the certificates that carry the
    expected digest, whose signers all have a valid signature, and whose signers
    are committee members holding strictly more than two thirds of the voting
    power. *)
Theorem verify_quorum_cert_exact qc vset expected sigs :
  vset_wf vset → 3 * total_power vset <= u128_max →
  verify_quorum_cert qc vset expected sigs = Ok () ↔
  qc_header_digest qc = expected ∧ (∀ a, a ∈ dom (signers qc) → sigs !! a = Some true)
  ∧ is_quorum vset (dom (signers qc)).
Proof.
  intros Hw Hm. split; [apply verify_quorum_cert_sound|].
  intros (? & ? & ?). by apply verify_quorum_cert_complete.
Qed.

(** C38. Certificates cannot conflict without a fault: if at most a third of the
    stake is faulty, any two verified certificates, for whichever digests, share
    a correct signer whose signature was valid in both. *)
Theorem verified_certs_share_honest_signer vset byz qc1 qc2 digest1 digest2 sigs1 sigs2 :
  vset_wf vset → byz_bounded vset byz →
  verify_quorum_cert qc1 vset digest1 sigs1 = Ok () → verify_quorum_cert qc2 vset digest2 sigs2 = Ok () →
  ∃ a, a ∉ byz ∧ is_Some (signers qc1 !! a) ∧ is_Some (signers qc2 !! a)
    ∧ sigs1 !! a = Some true ∧ sigs2 !! a = Some true.
Proof.
  intros Hw Hb (_ & Hs1 & Hq1)%verify_quorum_cert_sound (_ & Hs2 & Hq2)%verify_quorum_cert_sound.
  pose proof (stake_quorum_system vset byz Hw Hb).
  destruct (quorum_honest_overlap _ _ Hq1 Hq2) as (a & H1 & H2 & Ha).
  exists a. rewrite <-!elem_of_dom. split_and!; auto.
Qed.

(** C37. The accumulator refines the set of valid acknowledgements: for a validator
    set whose total is the sum of its powers, with three times the total within u128,
    whatever acknowledgements are presented, in whichever order and with duplicates, it
    builds a certificate exactly when the members with a valid acknowledgement
    of this height and digest form a quorum; the certificate then names exactly
    these members, each with a signature it sent, and passes
    [verify_quorum_cert] under the same signature results. *)
Theorem accumulated_cert_verifies vset height header_digest l :
  vset_wf vset → 3 * total_power vset <= u128_max →
  let X := ackers vset height header_digest l in
  match try_build_qc (run_acks vset (for_validator_set height header_digest vset) l) with
  | Some qc => is_quorum vset X ∧ qc_height qc = height ∧ qc_header_digest qc = header_digest
      ∧ dom (signers qc) = X
      ∧ (∀ a s, signers qc !! a = Some s → ∃ p, p ∈ l ∧ ack_valid vset height header_digest p
           ∧ ack_signer p.1 = a ∧ ack_signature p.1 = s)
      ∧ ∀ sigs, (∀ a, a ∈ X → sigs !! a = Some true) →
          verify_quorum_cert qc vset header_digest sigs = Ok ()
  | None => ~ is_quorum vset X
  end.
Proof.
  intros Hw Hm X. pose proof (run_acks_inv vset height header_digest l Hw) as I.
  set (acc := run_acks _ _ _) in *. unfold try_build_qc.
  pose proof (ack_reached _ _ _ _ _ Hm I) as Hr. fold X in Hr.
  destruct (reached (inner acc)); cbn [negb]; [|by intros ?%Hr].
  pose proof (proj1 Hr eq_refl) as Hq. pose proof (ai_signers _ _ _ _ _ I) as Hdom. fold X in Hdom. cbn.
  split_and!; [done|apply I|apply I|done|apply I|]. intros sigs Hs.
  apply verify_quorum_cert_complete; cbn; [done..|apply I|by rewrite Hdom|by rewrite Hdom].
Qed.

(** The signed acknowledgement message binds height and digest: two messages
    agree only for the same height and digest, unless BLAKE3 collides on the
    different pre-images. *)
Theorem commit_ack_message_binds blake3 h1 d1 h2 d2 :
  h1 < 2 ^ 64 → h2 < 2 ^ 64 → d1 < 2 ^ 256 → d2 < 2 ^ 256 →
  commit_ack_message blake3 h1 d1 = commit_ack_message blake3 h2 d2 →
  (h1 = h2 ∧ d1 = d2) ∨
  (commit_ack_preimage h1 d1 ≠ commit_ack_preimage h2 d2
   ∧ blake3 (commit_ack_preimage h1 d1) = blake3 (commit_ack_preimage h2 d2)).
Proof.
  intros Hh1 Hh2 Hd1 Hd2 Hm. destruct (decide (commit_ack_preimage h1 d1 = commit_ack_preimage h2 d2)) as [He|]; [left|by right].
  unfold commit_ack_preimage in He. apply app_inv_head in He.
  apply app_inj_1 in He as [He1 He2]; [|by rewrite !length_le_bytes].
  split; [apply (le_bytes_inj 8); [exact Hh1|exact Hh2|done]|apply (be_bytes_inj 32); [exact Hd1|exact Hd2|done]].
Qed.
