(* ===== verification/Fee.v ===== *)
(** * Block headers and the fee market
    ([crates/lemma-core/src/header.rs], [crates/lemma-consensus/src/fee.rs])

    The chain block header with its validation and canonical digest, the base
    fee of the next block and the split of a transaction's fee. *)
From S2P Require Import Prelude CoreTypes DagBlock.

(** ** [header.rs] *)

Record BlockHeader := {
  height : N;
  timestamp : N;
  parent_hash : Hash;
  transactions_root : Hash;
  state_root : Hash;
  receipts_root : Hash;
  proposer : Address;
  hdr_epoch : N;
  protocol_version : N;
  dag_round : N;
  dag_anchor : Hash;
  validators_hash : Hash;
  next_validators_hash : Hash;
  gas_limit : N;
  gas_used : N;
  base_fee : Amount;
  extra_data : list N;
}.

Inductive BlockError :=
  | GasLimitZero
  | InvalidHeight (expected got : N)
  | GasExceeded (used limit : N)
  | ReceiptCountMismatch (transactions receipts : N)
  | GasAccountingMismatch (header_gas_used receipts_gas_used : N).

Definition BlockHeader_validate (self : BlockHeader) : result BlockError () :=
  if gas_limit self =? 0 then Err GasLimitZero else
  if gas_limit self <? gas_used self then Err (GasExceeded (gas_used self) (gas_limit self)) else
  Ok ().

(** [new] fills the record from its arguments and validates it. *)
Definition BlockHeader_new (header : BlockHeader) : result BlockError BlockHeader :=
  _ ← BlockHeader_validate header; Ok header.

Definition is_above_target_gas (self : BlockHeader) : bool := gas_limit self / 2 <? gas_used self.

(** [gas_limit - gas_used] on [u64], wrapping in the release profile. *)
Definition gas_remaining (self : BlockHeader) : N := (gas_limit self + 2 ^ 64 - gas_used self) mod 2 ^ 64.

Definition header_preimage (h : BlockHeader) : list N :=
  be_bytes 8 (height h) ++ be_bytes 8 (timestamp h) ++ be_bytes 32 (parent_hash h)
  ++ be_bytes 32 (transactions_root h) ++ be_bytes 32 (state_root h) ++ be_bytes 32 (receipts_root h)
  ++ be_bytes 20 (proposer h) ++ be_bytes 8 (hdr_epoch h) ++ be_bytes 4 (protocol_version h)
  ++ be_bytes 8 (dag_round h) ++ be_bytes 32 (dag_anchor h) ++ be_bytes 32 (validators_hash h)
  ++ be_bytes 32 (next_validators_hash h) ++ be_bytes 8 (gas_limit h) ++ be_bytes 8 (gas_used h)
  ++ be_bytes 16 (base_fee h) ++ be_bytes 8 (N.of_nat (length (extra_data h))) ++ extra_data h.

Definition BlockHeader_digest (blake3 : list N → Hash) (self : BlockHeader) : Hash :=
  blake3 (header_preimage self).

(** ** [fee.rs] *)

Definition GAS_TARGET_DENOMINATOR : N := 2.
Definition BASE_FEE_CHANGE_DENOMINATOR : N := 8.
Definition MIN_BASE_FEE_DELTA_DROP : N := 1.
Definition MIN_BASE_FEE_DROP : N := 1000000000.

Record FeeDistribution := {
  burned : Amount;
  to_proposer : Amount;
}.

Definition compute_fee_delta (fee gas_diff target : N) : result AmountError N :=
  ok_or (Overflow fee gas_diff)
    ((λ n, n / target / BASE_FEE_CHANGE_DENOMINATOR) <$> checked_mul u128_max fee gas_diff).

Definition calculate_base_fee (parent : BlockHeader) : result AmountError Amount :=
  let fee := base_fee parent in
  let target := gas_limit parent / GAS_TARGET_DENOMINATOR in
  if target =? 0 then Ok (N.max fee MIN_BASE_FEE_DROP) else
  let used := gas_used parent in
  new_fee ← match used ?= target with
    | Eq => Ok fee
    | Gt =>
        delta ← compute_fee_delta fee (used - target) target;
        let delta := N.max delta MIN_BASE_FEE_DELTA_DROP in
        ok_or (Overflow fee delta) (checked_add u128_max fee delta)
    | Lt =>
        delta ← compute_fee_delta fee (target - used) target;
        Ok (saturating_sub fee delta)
    end;
  Ok (N.max new_fee MIN_BASE_FEE_DROP).

Definition distribute_fee (used : N) (fee gas_price : Amount) : result AmountError FeeDistribution :=
  tip_per_gas ← Amount_checked_sub gas_price fee;
  b ← Amount_checked_mul fee used;
  t ← Amount_checked_mul tip_per_gas used;
  Ok {| burned := b; to_proposer := t |}.

(** ** Proofs *)

Definition header_fits (h : BlockHeader) : Prop :=
  height h < 2 ^ 64 ∧ timestamp h < 2 ^ 64 ∧ parent_hash h < 2 ^ 256 ∧ transactions_root h < 2 ^ 256
  ∧ state_root h < 2 ^ 256 ∧ receipts_root h < 2 ^ 256 ∧ proposer h < 2 ^ 160 ∧ hdr_epoch h < 2 ^ 64
  ∧ protocol_version h < 2 ^ 32 ∧ dag_round h < 2 ^ 64 ∧ dag_anchor h < 2 ^ 256
  ∧ validators_hash h < 2 ^ 256 ∧ next_validators_hash h < 2 ^ 256 ∧ gas_limit h < 2 ^ 64
  ∧ gas_used h < 2 ^ 64 ∧ base_fee h < 2 ^ 128 ∧ N.of_nat (length (extra_data h)) < 2 ^ 64.

Lemma header_preimage_inj h1 h2 :
  header_fits h1 → header_fits h2 → header_preimage h1 = header_preimage h2 → h1 = h2.
Proof.
  destruct h1, h2. unfold header_fits, header_preimage; cbn. intros Hf1 Hf2 Heq. destruct_and!.
  split_fields. by subst.
Qed.

Lemma validate_ok h :
  BlockHeader_validate h = Ok () ↔ 0 < gas_limit h ∧ gas_used h <= gas_limit h.
Proof.
  unfold BlockHeader_validate. destruct (N.eqb_spec (gas_limit h) 0); [split; [done|lia]|].
  destruct (N.ltb_spec (gas_limit h) (gas_used h)); (split; [try done; lia|]); intros; [lia|done].
Qed.

(** The share of the fee a block moves, before and after the two divisions. *)
Lemma fee_delta_le fee diff target :
  0 < target → diff <= target → fee * diff / target / BASE_FEE_CHANGE_DENOMINATOR <= fee / 8.
Proof.
  intros Ht Hd. unfold BASE_FEE_CHANGE_DENOMINATOR. apply N.Div0.div_le_mono.
  transitivity (fee * target / target); [|by rewrite N.div_mul by lia].
  apply N.Div0.div_le_mono, N.mul_le_mono_l. done.
Qed.

Lemma compute_fee_delta_ok fee diff target :
  fee * diff <= u128_max →
  compute_fee_delta fee diff target = Ok (fee * diff / target / BASE_FEE_CHANGE_DENOMINATOR).
Proof. intros H. unfold compute_fee_delta, checked_mul. by rewrite (proj2 (N.leb_le _ _) H). Qed.

(** [calculate_base_fee] where nothing overflows and the target is not zero. *)
Lemma calculate_base_fee_eq parent :
  let fee := base_fee parent in
  let target := gas_limit parent / 2 in
  let up := N.max (fee * (gas_used parent - target) / target / 8) 1 in
  let down := fee * (target - gas_used parent) / target / 8 in
  0 < target → fee * gas_limit parent <= u128_max → gas_used parent <= gas_limit parent →
  fee + up <= u128_max →
  calculate_base_fee parent = Ok (N.max MIN_BASE_FEE_DROP
    (match gas_used parent ?= target with Eq => fee | Gt => fee + up | Lt => fee - down end)).
Proof.
  cbv zeta. intros Ht Hm Hv Hup. unfold calculate_base_fee, GAS_TARGET_DENOMINATOR.
  assert (gas_limit parent / 2 <= gas_limit parent) by (apply N.Div0.div_le_upper_bound; lia).
  rewrite (proj2 (N.eqb_neq _ _)) by lia.
  destruct (N.compare_spec (gas_used parent) (gas_limit parent / 2)) as [He|Hlt|Hgt]; cbn.
  - by rewrite N.max_comm.
  - rewrite compute_fee_delta_ok by (etrans; [apply N.mul_le_mono_l|exact Hm]; lia). cbn.
    by rewrite N.max_comm.
  - rewrite compute_fee_delta_ok by (etrans; [apply N.mul_le_mono_l|exact Hm]; lia). cbn.
    unfold MIN_BASE_FEE_DELTA_DROP, checked_add, BASE_FEE_CHANGE_DENOMINATOR.
    rewrite (proj2 (N.leb_le _ _)) by exact Hup. cbn. by rewrite N.max_comm.
Qed.

Lemma even_half n : n mod 2 = 0 → n = 2 * (n / 2).
Proof. intros H. pose proof (N.div_mod' n 2). lia. Qed.

(** ** Theorems *)

(** The base fee of the next block: for a validated parent header with an even
    gas limit and no overflow, [calculate_base_fee] returns a fee that is never
    below the anti-spam floor, moves by at most an eighth (and at least one Drop
    upwards) before that floor is applied, rises exactly when the parent is
    above half of its limit, never rises above the floored parent fee when it is
    below, and keeps it at exactly half. *)
Theorem base_fee_moves_by_an_eighth parent :
  BlockHeader_validate parent = Ok () → gas_limit parent mod 2 = 0 →
  base_fee parent * gas_limit parent <= u128_max → base_fee parent <= u128_max / 2 →
  let fee := base_fee parent in
  ∃ next, calculate_base_fee parent = Ok next ∧ MIN_BASE_FEE_DROP <= next
    ∧ fee - fee / 8 <= next <= N.max MIN_BASE_FEE_DROP (fee + N.max (fee / 8) 1)
    ∧ (gas_limit parent / 2 < gas_used parent → fee < next)
    ∧ (gas_used parent < gas_limit parent / 2 → next <= N.max MIN_BASE_FEE_DROP fee)
    ∧ (gas_used parent = gas_limit parent / 2 → next = N.max MIN_BASE_FEE_DROP fee).
Proof.
  intros [Hl Hu]%validate_ok He Hm Hf fee. apply even_half in He.
  set (target := gas_limit parent / 2) in *. assert (0 < target) as Ht by lia.
  assert (fee * (gas_used parent - target) / target / 8 <= fee / 8) as Hup by (apply fee_delta_le; lia).
  assert (fee * (target - gas_used parent) / target / 8 <= fee / 8) as Hdown by (apply fee_delta_le; lia).
  assert (fee / 8 <= fee) by (apply N.Div0.div_le_upper_bound; lia).
  eexists. split; [apply calculate_base_fee_eq; try done|]; fold target fee; change (base_fee parent) with fee in Hf;
    set (up := fee * (gas_used parent - target) / target / 8) in *;
    set (down := fee * (target - gas_used parent) / target / 8) in *; clearbody up down fee.
  - assert (fee / 8 + 1 <= u128_max / 2).
    { transitivity (u128_max / 2 / 8 + 1); [|by vm_compute]. apply N.add_le_mono_r, N.Div0.div_le_mono. exact Hf. }
    assert (u128_max / 2 + u128_max / 2 <= u128_max) by (by vm_compute). lia.
  - destruct (N.compare_spec (gas_used parent) target); split_and!; lia.
Qed.

(** The cap of an eighth does not hold for odd gas limits: half of the limit is
    rounded down, so a full block can exceed its target by more than the target.
    With a limit of 3, a validated full block raises the fee by a quarter. *)
Theorem odd_gas_limit_exceeds_cap parent :
  gas_limit parent = 3 → gas_used parent = 3 → base_fee parent = 8 * MIN_BASE_FEE_DROP →
  BlockHeader_validate parent = Ok () ∧ calculate_base_fee parent = Ok (10 * MIN_BASE_FEE_DROP).
Proof.
  intros Hl Hu Hf. split; [apply validate_ok; lia|]. unfold calculate_base_fee. rewrite Hl, Hu, Hf. by vm_compute.
Qed.

(** [distribute_fee] conserves the fee on every branch: on success the burned
    part is the base fee's share and burned and tip add up to what the sender
    pays; it fails only on a gas price below the base fee or when a product does
    not fit 128 bits, and the error carries the operands. *)
Theorem distribute_fee_conserves used fee gas_price :
  match distribute_fee used fee gas_price with
  | Ok d => fee <= gas_price ∧ burned d = fee * used
      ∧ burned d + to_proposer d = gas_price * used
      ∧ burned d <= u128_max ∧ to_proposer d <= u128_max
  | Err e => (gas_price < fee ∧ e = Underflow gas_price fee)
      ∨ (fee <= gas_price ∧ u128_max < fee * used ∧ e = Overflow fee used)
      ∨ (fee <= gas_price ∧ u128_max < (gas_price - fee) * used ∧ e = Overflow (gas_price - fee) used)
  end.
Proof.
  unfold distribute_fee, Amount_checked_sub, Amount_checked_mul, checked_sub, checked_mul.
  destruct (N.leb_spec fee gas_price) as [Hle|Hlt]; cbn; [|by left].
  destruct (N.leb_spec (fee * used) u128_max); cbn; [|by right; left].
  destruct (N.leb_spec ((gas_price - fee) * used) u128_max); cbn; [|by right; right].
  split_and!; [done..| |done|done]. rewrite <-N.mul_add_distr_r. f_equal. lia.
Qed.

(** [BlockHeader::digest] binds every field of the header, the variable-length
    extra data included: two headers with the same digest are equal unless BLAKE3
    collides on their different pre-images. *)
Theorem header_digest_binds_fields blake3 h1 h2 :
  header_fits h1 → header_fits h2 → BlockHeader_digest blake3 h1 = BlockHeader_digest blake3 h2 →
  h1 = h2 ∨ (header_preimage h1 ≠ header_preimage h2
    ∧ blake3 (header_preimage h1) = blake3 (header_preimage h2)).
Proof.
  intros Hf1 Hf2 Hd. destruct (decide (header_preimage h1 = header_preimage h2)); [left|by right].
  by apply header_preimage_inj.
Qed.
