(* ===== verification/Rewards.v ===== *)
(** * Epoch rewards ([crates/lemma-consensus/src/rewards.rs])

    The inflation minted for an epoch and its distribution to the committee.
    [distribute_rewards] credits validators one by one and may fail half-way, so
    its model returns the validator map next to the result. *)
From S2P Require Import Prelude CoreTypes.

Definition EPOCHS_PER_YEAR : N := 365.
Definition INFLATION_SCHEDULE_BPS : list N := [200; 170; 140; 120; 100; 80].

Inductive RewardError :=
  | InflationOverflow (source : AmountError)
  | DistributionOverflow (address : Address) (source : AmountError)
  | RemainderUnderflow (source : AmountError).

Record RewardOutcome := {
  distributed : Amount;
  burned_remainder : Amount;
}.

(** The rate of an epoch; the index is at most 5, so the default is never used. *)
Definition rate_bps (epoch_number : N) : N :=
  default 0 (INFLATION_SCHEDULE_BPS !! N.to_nat (N.min (epoch_number / EPOCHS_PER_YEAR) 5)).

Definition compute_epoch_inflation (total_supply : Amount) (epoch_number : N) : result RewardError Amount :=
  a ← map_err InflationOverflow (Amount_checked_mul total_supply (rate_bps epoch_number));
  b ← map_err InflationOverflow (Amount_checked_div a 10000);
  map_err InflationOverflow (Amount_checked_div b EPOCHS_PER_YEAR).

(** [v.self_stake.active = amount]. *)
Definition set_self_active (v : Validator) (amount : Amount) : Validator :=
  {| address := address v; consensus_pubkey := consensus_pubkey v; status := status v;
     tombstoned := tombstoned v;
     self_stake := {| active := amount; pending_active := pending_active (self_stake v);
                      pending_inactive := pending_inactive (self_stake v);
                      inactive := inactive (self_stake v) |};
     delegated := delegated v; commission_bps := commission_bps v; jailed_until := jailed_until v |}.

(** The share of a member, in Drop. *)
Definition reward_share (pool_drip total_power_drip : N) (addr : Address) (member : Member) : result RewardError Amount :=
  let power_drip := power member / DROPS_PER_DRIP in
  product ← ok_or (DistributionOverflow addr (Overflow pool_drip power_drip))
    (checked_mul u128_max pool_drip power_drip);
  map_err (DistributionOverflow addr) (Amount_checked_mul (product / total_power_drip) DROPS_PER_DRIP).

(** [if let Some(v) = validators.get_mut(addr) { .. }]. *)
Definition credit (validators : gmap Address Validator) (addr : Address) (share : Amount)
    : result RewardError (gmap Address Validator) :=
  match validators !! addr with
  | Some v =>
      a ← map_err (DistributionOverflow addr) (Amount_checked_add (active (self_stake v)) share);
      Ok (<[addr := set_self_active v a]> validators)
  | None => Ok validators
  end.

Fixpoint reward_loop (pool_drip total_power_drip : N) (validators : gmap Address Validator) (dist : Amount)
    (ms : list (Address * Member)) : gmap Address Validator * result RewardError Amount :=
  match ms with
  | [] => (validators, Ok dist)
  | (addr, member) :: ms =>
      match reward_share pool_drip total_power_drip addr member with
      | Err e => (validators, Err e)
      | Ok share =>
          match credit validators addr share with
          | Err e => (validators, Err e)
          | Ok validators' =>
              match map_err (DistributionOverflow addr) (Amount_checked_add dist share) with
              | Err e => (validators', Err e)
              | Ok dist' => reward_loop pool_drip total_power_drip validators' dist' ms
              end
          end
      end
  end.

Definition distribute_rewards (validators : gmap Address Validator) (vset : ValidatorSet) (pool : Amount)
    : gmap Address Validator * result RewardError RewardOutcome :=
  let total_power_drip := total_power vset / DROPS_PER_DRIP in
  if total_power_drip =? 0 then (validators, Ok {| distributed := 0; burned_remainder := pool |}) else
  let pool_drip := pool / DROPS_PER_DRIP in
  match reward_loop pool_drip total_power_drip validators 0 (bmap_iter (members vset)) with
  | (validators', Err e) => (validators', Err e)
  | (validators', Ok dist) =>
      (validators',
       rem ← map_err RemainderUnderflow (Amount_checked_sub pool dist);
       Ok {| distributed := dist; burned_remainder := rem |})
  end.

(** ** Proofs *)

(** The share without its overflow checks. *)
Definition ideal_share (vset : ValidatorSet) (pool : Amount) (a : Address) : Amount :=
  pool / DROPS_PER_DRIP * (power_of vset a / DROPS_PER_DRIP) / (total_power vset / DROPS_PER_DRIP)
  * DROPS_PER_DRIP.

Lemma DROPS_PER_DRIP_val : DROPS_PER_DRIP = 1000000000.
Proof. done. Qed.

(** Floors add up to at most the floor of the sum. *)
Lemma sum_div_le {A} (f : A → N) (d : N) (l : list A) :
  sumN ((λ x, f x / d) <$> l) <= sumN (f <$> l) / d.
Proof.
  destruct (decide (d = 0)) as [-> |Hd].
  { rewrite (N.div_0_r (sumN _)). induction l as [|x l IH]; [done|].
    cbn [fmap list_fmap sumN]. rewrite N.div_0_r. exact IH. }
  induction l as [|x l IH]; [apply N.le_0_l|]. cbn [fmap list_fmap sumN].
  etrans; [apply N.add_le_mono_l, IH|]. apply N.div_le_lower_bound; [done|].
  rewrite N.mul_add_distr_l. pose proof (N.Div0.mul_div_le (f x) d). pose proof (N.Div0.mul_div_le (sumN (f <$> l)) d). lia.
Qed.

Lemma sum_mul_r {A} (f : A → N) (c : N) (l : list A) : sumN ((λ x, f x * c) <$> l) = sumN (f <$> l) * c.
Proof. induction l as [|x l IH]; [done|]. cbn. rewrite IH. lia. Qed.

Lemma sum_mul_l {A} (f : A → N) (c : N) (l : list A) : sumN ((λ x, c * f x) <$> l) = c * sumN (f <$> l).
Proof. induction l as [|x l IH]; [cbn; lia|]. cbn. rewrite IH. lia. Qed.

Section shares.
Context (vset : ValidatorSet) (pool : Amount).
Hypothesis Hwf : vset_wf vset.

Let D := DROPS_PER_DRIP.
Let T := total_power vset / D.

Lemma member_power_sum : sumN (power_of vset <$> bmap_keys (members vset)) = total_power vset.
Proof.
  destruct Hwf as [-> _]. unfold stake_of, set_sum, bmap_keys. by rewrite bset_iter_perm.
Qed.

(** The shares of the committee never exceed the pool. *)
Lemma shares_le_pool : sumN (ideal_share vset pool <$> bmap_keys (members vset)) <= pool.
Proof.
  unfold ideal_share. fold D. fold T. set (keys := bmap_keys (members vset)).
  rewrite (sum_mul_r (λ a, pool / D * (power_of vset a / D) / T)).
  etrans; [apply N.mul_le_mono_r, (sum_div_le (λ a, pool / D * (power_of vset a / D)))|].
  rewrite (sum_mul_l (λ a, power_of vset a / D)).
  etrans; [apply N.mul_le_mono_r, N.Div0.div_le_mono, N.mul_le_mono_l, (sum_div_le (power_of vset))|].
  unfold keys. rewrite member_power_sum. fold T. destruct (decide (T = 0)) as [-> |HT].
  { rewrite N.div_0_r. lia. }
  rewrite N.div_mul by done. rewrite N.mul_comm. apply N.Div0.mul_div_le.
Qed.
End shares.

(** What crediting the members [keys] does to the validator map. *)
Definition credited (vset : ValidatorSet) (pool : Amount) (keys : list Address)
    (validators validators' : gmap Address Validator) : Prop :=
  ∀ a, validators' !! a =
    if decide (a ∈ keys)
    then (λ v, set_self_active v (active (self_stake v) + ideal_share vset pool a)) <$> validators !! a
    else validators !! a.

Section loop.
Context (vset : ValidatorSet) (pool : Amount).

Let P := pool / DROPS_PER_DRIP.
Let T := total_power vset / DROPS_PER_DRIP.

Lemma reward_share_spec a m :
  members vset !! a = Some m →
  match reward_share P T a m with
  | Ok share => share = ideal_share vset pool a
  | Err e => ∃ src, e = DistributionOverflow a src
  end.
Proof.
  intros Hm. unfold reward_share, ideal_share. rewrite (power_of_member _ _ _ Hm). fold P T.
  unfold checked_mul. destruct (_ <=? _); cbn; [|by eauto].
  unfold Amount_checked_mul, checked_mul. destruct (_ <=? _); cbn; by eauto.
Qed.

Lemma credit_spec vals a share :
  match credit vals a share with
  | Ok vals' => ∀ x, vals' !! x =
      if decide (x = a) then (λ v, set_self_active v (active (self_stake v) + share)) <$> vals !! a else vals !! x
  | Err e => ∃ src, e = DistributionOverflow a src
  end.
Proof.
  unfold credit. destruct (vals !! a) as [v|] eqn:Hv.
  - unfold Amount_checked_add, checked_add. destruct (_ <=? _); cbn; [|by eauto].
    intros x. rewrite lookup_insert. repeat case_decide; congruence.
  - intros x. case_decide; by subst.
Qed.

Lemma reward_loop_spec l vals dist :
  (∀ p, p ∈ l → members vset !! p.1 = Some p.2) → NoDup l.*1 →
  match reward_loop P T vals dist l with
  | (vals', Ok d) => d = dist + sumN (ideal_share vset pool <$> l.*1) ∧ credited vset pool l.*1 vals vals'
  | (_, Err e) => ∃ a src, e = DistributionOverflow a src ∧ a ∈ l.*1
  end.
Proof.
  revert vals dist. induction l as [|[a m] l IH]; intros vals dist Hl Hnd; cbn [reward_loop].
  { cbn. split; [lia|]. intros a. by rewrite decide_False by apply not_elem_of_nil. }
  pose proof (reward_share_spec a m (Hl (a, m) (list_elem_of_here _ _))) as Hs.
  destruct (reward_share P T a m) as [share|e]; [|destruct Hs as [src ->]; exists a, src; split; [done|left]].
  subst share. pose proof (credit_spec vals a (ideal_share vset pool a)) as Hc.
  destruct (credit _ _ _) as [vals1|e]; [|destruct Hc as [src ->]; exists a, src; split; [done|left]].
  unfold Amount_checked_add, checked_add. destruct (_ <=? _); cbn; [|do 2 eexists; split; [done|left]].
  rewrite fmap_cons in Hnd. apply NoDup_cons in Hnd as [Ha Hnd].
  specialize (IH vals1 (dist + ideal_share vset pool a) (λ p Hp, Hl p (list_elem_of_further _ _ _ Hp)) Hnd).
  destruct (reward_loop _ _ _ _ _) as [vals' [d|e]].
  - destruct IH as [-> Hcr]. split; [lia|]. intros x. rewrite Hcr, !Hc.
    destruct (decide (x = a)) as [-> |Hne].
    + rewrite (decide_False (P := a ∈ l.*1)) by done. by rewrite (decide_True (P := a ∈ a :: l.*1)) by left.
    + destruct (decide (x ∈ l.*1)); [by rewrite (decide_True (P := x ∈ a :: l.*1)) by (by right)|].
      by rewrite (decide_False (P := x ∈ a :: l.*1)) by (rewrite elem_of_cons; tauto).
  - destruct IH as (x & src & ? & ?). exists x, src. split; [done|by right].
Qed.

Lemma reward_share_total a m :
  vset_wf vset → members vset !! a = Some m → P * T <= u128_max → ideal_share vset pool a <= u128_max →
  reward_share P T a m = Ok (ideal_share vset pool a).
Proof.
  intros Hw Hm HPT. unfold reward_share, ideal_share. fold P T. rewrite (power_of_member _ _ _ Hm). intros Hs.
  assert (power m / DROPS_PER_DRIP <= T) as Hpow.
  { apply N.Div0.div_le_mono. rewrite <-(power_of_member _ _ _ Hm), <-(set_sum_singleton (power_of vset)).
    apply (stake_of_le_total vset {[a]} Hw), singleton_subseteq_l, elem_of_dom. eauto. }
  unfold checked_mul. rewrite (proj2 (N.leb_le _ u128_max)); [cbn|].
  - unfold Amount_checked_mul, checked_mul. by rewrite (proj2 (N.leb_le _ _) Hs).
  - etrans; [|exact HPT]. by apply N.mul_le_mono_l.
Qed.

Lemma credit_total vals a share :
  (∀ v, vals !! a = Some v → active (self_stake v) + share <= u128_max) → ∃ vals', credit vals a share = Ok vals'.
Proof.
  intros Hv. unfold credit. destruct (vals !! a) as [v|]; [|by eauto].
  unfold Amount_checked_add, checked_add. rewrite (proj2 (N.leb_le _ _)) by (by apply Hv). cbn. eauto.
Qed.

(** No overflow occurs when the pool is small. *)
Lemma reward_loop_total l vals dist :
  (∀ p, p ∈ l → members vset !! p.1 = Some p.2) → NoDup l.*1 → vset_wf vset →
  P * T <= u128_max → pool <= u128_max →
  (∀ a v, a ∈ l.*1 → vals !! a = Some v → active (self_stake v) + pool <= u128_max) →
  dist + sumN (ideal_share vset pool <$> l.*1) <= pool →
  ∃ vals' d, reward_loop P T vals dist l = (vals', Ok d).
Proof.
  intros Hl Hnd Hw HPT Hp. revert vals dist. induction l as [|[a m] l IH]; intros vals dist Hv Hd; [cbn; by eauto|].
  rewrite fmap_cons in Hnd. apply NoDup_cons in Hnd as [Ha Hnd].
  rewrite !fmap_cons in Hd. cbn [sumN fst] in Hd. cbn [reward_loop].
  rewrite reward_share_total; [|done|by apply (Hl (a, m)); left|done|lia].
  destruct (credit_total vals a (ideal_share vset pool a)) as [vals1 Hc].
  { intros v E. specialize (Hv a v). rewrite fmap_cons in Hv. specialize (Hv (list_elem_of_here _ _) E). lia. }
  pose proof (credit_spec vals a (ideal_share vset pool a)) as Hcs. rewrite Hc in *.
  unfold Amount_checked_add, checked_add. rewrite (proj2 (N.leb_le _ _)) by lia. cbn.
  apply IH; [intros p ?; apply Hl; by right|done| |lia].
  intros x v Hx. rewrite Hcs, decide_False by (by intros ->). apply Hv. rewrite fmap_cons. by right.
Qed.
End loop.

Lemma members_iter vset p : p ∈ bmap_iter (members vset) → members vset !! p.1 = Some p.2.
Proof. destruct p. by rewrite elem_of_bmap_iter. Qed.

Lemma members_iter_NoDup vset : NoDup (bmap_iter (members vset)).*1.
Proof. rewrite bmap_iter_keys. apply bmap_keys_NoDup. Qed.

(** *** The dust *)

Lemma sum_floor_lower {A} (f : A → N) (d : N) (l : list A) :
  d ≠ 0 → sumN (f <$> l) <= d * (sumN ((λ x, f x / d) <$> l) + N.of_nat (length l)).
Proof.
  intros Hd. induction l as [|x l IH]; [cbn; lia|]. cbn [fmap list_fmap sumN length]. rewrite Nat2N.inj_succ.
  pose proof (N.mul_succ_div_gt (f x) d Hd). rewrite N.mul_succ_r in H.
  rewrite !N.mul_add_distr_l in *. rewrite N.mul_succ_r. lia.
Qed.

Section dust.
Context (vset : ValidatorSet) (pool : Amount).
Hypothesis Hwf : vset_wf vset.
Let D := DROPS_PER_DRIP.
Let P := pool / D.
Let T := total_power vset / D.
Let keys := bmap_keys (members vset).
Let n := N.of_nat (length keys).

(** What the two roundings lose, in Drip, scaled by the total power. *)
Lemma share_loss : T ≠ 0 → P * T <= T * sumN ((λ a, P * (power_of vset a / D) / T) <$> keys) + n * (P + T).
Proof.
  intros HT.
  pose proof (sum_floor_lower (λ a, P * (power_of vset a / D)) T keys HT) as H1.
  rewrite (sum_mul_l (λ a, power_of vset a / D)) in H1. fold n in H1.
  pose proof (sum_floor_lower (power_of vset) D keys ltac:(done)) as H2.
  unfold keys in H2 at 1. rewrite (member_power_sum vset Hwf) in H2. fold n in H2.
  assert (T <= sumN ((λ a, power_of vset a / D) <$> keys) + n) as H3.
  { unfold T. apply N.Div0.div_le_upper_bound. exact H2. }
  apply (N.mul_le_mono_l _ _ P) in H3. rewrite N.mul_add_distr_l in H3. rewrite N.mul_add_distr_l in H1. lia.
Qed.

Lemma dust_bound rem :
  T ≠ 0 → P <= T → sumN (ideal_share vset pool <$> keys) + rem = pool → rem < (2 * n + 1) * D.
Proof.
  intros HT HPT. pose proof (share_loss HT) as Hl. unfold ideal_share. fold D P T.
  rewrite (sum_mul_r (λ a, P * (power_of vset a / D) / T)).
  set (S := sumN ((λ a, P * (power_of vset a / D) / T) <$> keys)) in *. intros Hrem.
  assert (P <= S + 2 * n) as HPS.
  { apply (N.mul_le_mono_pos_l _ _ T); [lia|]. rewrite N.mul_add_distr_l.
    assert (n * (P + T) <= T * (2 * n)); [|lia].
    transitivity (n * (T + T)); [apply N.mul_le_mono_l; lia|lia]. }
  pose proof (N.mul_succ_div_gt pool D ltac:(done)) as Hp. fold P in Hp. rewrite N.mul_succ_r in Hp.
  apply (N.mul_le_mono_l _ _ D) in HPS. lia.
Qed.
End dust.

(** *** The schedule *)

Definition rate_at (i : N) : N := default 0 (INFLATION_SCHEDULE_BPS !! N.to_nat i).

Lemma rate_at_facts i j : i <= j → j <= 5 → 80 <= rate_at j ∧ rate_at j <= rate_at i ∧ rate_at i <= 200.
Proof.
  intros Hij Hj.
  assert (∀ k, k <= 5 → k = 0 ∨ k = 1 ∨ k = 2 ∨ k = 3 ∨ k = 4 ∨ k = 5) as Hc by lia.
  destruct (Hc i (N.le_trans _ _ _ Hij Hj)) as [-> |[-> |[-> |[-> |[-> | ->]]]]];
    destruct (Hc j Hj) as [-> |[-> |[-> |[-> |[-> | ->]]]]]; first [lia|split_and!; by vm_compute].
Qed.

Lemma rate_bps_range epoch : 80 <= rate_bps epoch <= 200.
Proof. destruct (rate_at_facts (N.min (epoch / EPOCHS_PER_YEAR) 5) (N.min (epoch / EPOCHS_PER_YEAR) 5)) as (? & _ & ?); [lia..|]. done. Qed.

Lemma rate_bps_mono e1 e2 : e1 <= e2 → rate_bps e2 <= rate_bps e1.
Proof.
  intros He. destruct (rate_at_facts (N.min (e1 / EPOCHS_PER_YEAR) 5) (N.min (e2 / EPOCHS_PER_YEAR) 5)) as (_ & ? & _); [|lia|done].
  apply N.min_le_compat_r, N.Div0.div_le_mono. done.
Qed.

(** ** Theorems *)

(** Epoch inflation: [compute_epoch_inflation] mints the scheduled share of the
    supply rounded down, between 0.8 and 2 percent a year, and fails only when
    the supply times the rate does not fit 128 bits; the rate never rises with
    the epoch. *)
Theorem epoch_inflation_spec supply epoch later :
  80 <= rate_bps epoch <= 200 ∧ rate_bps (epoch + later) <= rate_bps epoch ∧
  match compute_epoch_inflation supply epoch with
  | Ok minted => minted = supply * rate_bps epoch / 10000 / 365 ∧ 3650000 * minted <= 200 * supply
  | Err e => u128_max < supply * rate_bps epoch ∧ e = InflationOverflow (Overflow supply (rate_bps epoch))
  end.
Proof.
  pose proof (rate_bps_range epoch) as Hr. split_and!; [lia|lia| |].
  - apply rate_bps_mono. lia.
  - unfold compute_epoch_inflation, Amount_checked_mul, checked_mul.
    destruct (N.leb_spec (supply * rate_bps epoch) u128_max); cbn; [|done]. split; [done|].
    pose proof (N.Div0.mul_div_le (supply * rate_bps epoch / 10000) 365).
    pose proof (N.Div0.mul_div_le (supply * rate_bps epoch) 10000).
    assert (supply * rate_bps epoch <= supply * 200) by (apply N.mul_le_mono_l; lia).
    unfold EPOCHS_PER_YEAR. lia.
Qed.

(** Reward distribution conserves the pool: when [distribute_rewards] succeeds,
    distributed and burned add up to the pool, the distributed amount is the sum
    of the members' shares, each member present in the validator map is credited
    exactly its share, nobody else changes, and, unless the pool exceeds the
    committee's stake, less than two Drips per member and one more are burned;
    when it fails, an addition or product overflowed, never the final
    subtraction: the shares cannot exceed the pool. *)
Theorem distribute_rewards_conserves validators vset pool :
  vset_wf vset →
  match distribute_rewards validators vset pool with
  | (vals', Ok o) =>
      distributed o + burned_remainder o = pool ∧
      (total_power vset / DROPS_PER_DRIP = 0 → distributed o = 0 ∧ vals' = validators) ∧
      (total_power vset / DROPS_PER_DRIP ≠ 0 →
         distributed o = sumN (ideal_share vset pool <$> bmap_keys (members vset))
         ∧ credited vset pool (bmap_keys (members vset)) validators vals'
         ∧ (pool <= total_power vset →
            burned_remainder o < (2 * N.of_nat (size (members vset)) + 1) * DROPS_PER_DRIP))
  | (_, Err e) => ∃ a src, e = DistributionOverflow a src ∧ is_Some (members vset !! a)
  end.
Proof.
  intros Hw. unfold distribute_rewards. destruct (N.eqb_spec (total_power vset / DROPS_PER_DRIP) 0) as [H0|H0].
  { cbn. split_and!; [lia|done|done]. }
  pose proof (reward_loop_spec vset pool (bmap_iter (members vset)) validators 0
    (members_iter vset) (members_iter_NoDup vset)) as Hl. rewrite bmap_iter_keys in Hl.
  destruct (reward_loop _ _ _ _ _) as [vals' [d|e]].
  - destruct Hl as [-> Hc]. rewrite N.add_0_l. pose proof (shares_le_pool vset pool Hw) as Hle.
    unfold Amount_checked_sub, checked_sub. rewrite (proj2 (N.leb_le _ _) Hle). cbn.
    split_and!; [lia|done|]. intros _. split_and!; [done..|]. intros Hp.
    replace (N.of_nat (size (members vset))) with (N.of_nat (length (bmap_keys (members vset)))).
    + apply (dust_bound vset pool Hw); [done|by apply N.Div0.div_le_mono|lia].
    + f_equal. unfold bmap_keys. rewrite bset_iter_perm. exact (size_dom (members vset)).
  - destruct Hl as (a & src & -> & Ha). exists a, src. split; [done|]. by apply elem_of_bmap_keys.
Qed.

(** Reward distribution succeeds: when the pool fits, the pool and the stake in
    Drip multiply within 128 bits and no member's stake overflows by adding the
    pool, [distribute_rewards] does not fail. *)
Theorem distribute_rewards_succeeds validators vset pool :
  vset_wf vset → pool <= u128_max →
  pool / DROPS_PER_DRIP * (total_power vset / DROPS_PER_DRIP) <= u128_max →
  (∀ a v, validators !! a = Some v → active (self_stake v) + pool <= u128_max) →
  ∃ vals' o, distribute_rewards validators vset pool = (vals', Ok o).
Proof.
  intros Hw Hp HPT Hv. unfold distribute_rewards. destruct (_ =? 0); [by eauto|].
  pose proof (shares_le_pool vset pool Hw) as Hle.
  destruct (reward_loop_total vset pool (bmap_iter (members vset)) validators 0
    (members_iter vset) (members_iter_NoDup vset) Hw HPT Hp) as (vals' & d & Hl).
  - intros a v _. apply Hv.
  - rewrite bmap_iter_keys. lia.
  - rewrite Hl. pose proof (reward_loop_spec vset pool (bmap_iter (members vset)) validators 0
      (members_iter vset) (members_iter_NoDup vset)) as Hs. rewrite Hl, bmap_iter_keys in Hs.
    destruct Hs as [-> _]. rewrite N.add_0_l. unfold Amount_checked_sub, checked_sub.
    rewrite (proj2 (N.leb_le _ _) Hle). cbn. eauto.
Qed.

(** Two members with one and a half Drips each. *)
Definition half_drip_vset : ValidatorSet :=
  let m := {| member_consensus_pubkey := {| classical := []; quantum := [] |}; power := 1500000000 |} in
  {| vs_epoch := 0; members := <[1 := m]> {[2 := m]}; total_power := 3000000000 |}.

(** The burned dust is not always below one Drip per member: two members with
    one and a half Drips each count as one Drip of the three, and a pool of two
    Drips is burned entirely. *)
Theorem reward_dust_reaches_one_drip_per_member :
  vset_wf half_drip_vset ∧
  distribute_rewards ∅ half_drip_vset (2 * DROPS_PER_DRIP)
  = (∅, Ok {| distributed := 0;
              burned_remainder := N.of_nat (size (members half_drip_vset)) * DROPS_PER_DRIP |}).
Proof. split; [split; by vm_compute|]. by vm_compute. Qed.
