(* ===== verification/Slashing.v ===== *)
(** * Slashing ([crates/lemma-consensus/src/slashing/mod.rs], [jail.rs],
    [liveness.rs], [evidence.rs])

    Proportional slashing of a validator's stake, jail and tombstone, the sliding
    window of signed blocks and the evidence of double signing.  [slash] computes
    everything before its first write, so an error leaves the validator as it
    was. *)
From S2P Require Import Prelude CoreTypes DagBlock.

(** ** [mod.rs] *)

Definition DOUBLE_SIGN_SLASH_BPS : N := 500.
Definition DOWNTIME_SLASH_BPS : N := 100.
Definition SHARE_WITHHOLDING_SLASH_BPS : N := 1000.
Definition MAX_FRACTION_BPS : N := 10000.
(** [epoch::UNBONDING_PERIOD_SECONDS]. *)
Definition UNBONDING_PERIOD_SECONDS : N := 14 * 24 * 60 * 60.
Definition EVIDENCE_MAX_AGE_SECONDS : N := UNBONDING_PERIOD_SECONDS.

Inductive SlashError :=
  | InvalidFraction (fraction_bps : N)
  | ComputeOverflow (address : Address) (source : AmountError)
  | ApplyOverflow (address : Address) (source : AmountError).

Definition set_balance (e : UnbondingEntry) (b : Amount) : UnbondingEntry :=
  {| initial_balance := b; start_height := start_height e; complete_time := complete_time e;
     on_hold := on_hold e |}.

(** Step 3: the entries after the slash and the amount taken from them. *)
Fixpoint slash_entries (addr : Address) (infraction_height fraction_bps : N) (from_pending : Amount)
    (l : list UnbondingEntry) : result SlashError (list UnbondingEntry * Amount) :=
  match l with
  | [] => Ok ([], from_pending)
  | e :: l =>
      if start_height e <=? infraction_height then
        '(l', p) ← slash_entries addr infraction_height fraction_bps from_pending l; Ok (e :: l', p)
      else
        a ← map_err (ApplyOverflow addr) (Amount_checked_mul (initial_balance e) fraction_bps);
        entry_slash ← map_err (ApplyOverflow addr) (Amount_checked_div a MAX_FRACTION_BPS);
        new_balance ← map_err (ApplyOverflow addr) (Amount_checked_sub (initial_balance e) entry_slash);
        from_pending' ← map_err (ApplyOverflow addr) (Amount_checked_add from_pending entry_slash);
        '(l', p) ← slash_entries addr infraction_height fraction_bps from_pending' l;
        Ok (set_balance e new_balance :: l', p)
  end.

Definition slash (v : Validator) (infraction_height : N) (validator_power : Amount) (fraction_bps : N)
    : result SlashError (Validator * Amount) :=
  if MAX_FRACTION_BPS <? fraction_bps then Err (InvalidFraction fraction_bps) else
  let addr := address v in
  let st := self_stake v in
  a ← map_err (ComputeOverflow addr) (Amount_checked_mul validator_power fraction_bps);
  intended ← map_err (ComputeOverflow addr) (Amount_checked_div a MAX_FRACTION_BPS);
  '(from_active, new_active) ←
    (if active st <? intended then Ok (active st, 0)
     else n ← map_err (ApplyOverflow addr) (Amount_checked_sub (active st) intended); Ok (intended, n));
  '(entries, from_pending) ← slash_entries addr infraction_height fraction_bps 0 (pending_inactive st);
  total_burned ← map_err (ApplyOverflow addr) (Amount_checked_add from_active from_pending);
  Ok (set_self_stake {| active := new_active; pending_active := pending_active st;
                        pending_inactive := entries; inactive := inactive st |} v, total_burned).

(** ** [jail.rs] *)

Definition tombstone (v : Validator) : Validator := set_tombstoned true v.

Definition jail (v : Validator) (until_time : N) : Validator :=
  set_jailed_until (Some (match jailed_until v with
                          | Some existing => N.max existing until_time
                          | None => until_time
                          end)) v.

(** ** [liveness.rs] *)

Definition SIGNED_BLOCKS_WINDOW : N := 345600.
Definition MAX_MISSED_BLOCKS : N := SIGNED_BLOCKS_WINDOW / 2.
Definition DOWNTIME_JAIL_DURATION_SECONDS : N := 24 * 60 * 60.
Definition SHARE_WITHHOLDING_JAIL_DURATION_SECONDS : N := DOWNTIME_JAIL_DURATION_SECONDS.

Record SignedBlocksWindow := {
  bits : list bool;
  missed_count : N;
  max_missed : N;
  last_breach_height : option N;
}.

(** [assert!(window_size > 0)]: [None] is the panic. *)
Definition SignedBlocksWindow_new (window_size max_miss : N) : option SignedBlocksWindow :=
  if window_size =? 0 then None else
  Some {| bits := replicate (N.to_nat window_size) true; missed_count := 0; max_missed := max_miss;
          last_breach_height := None |}.

(** The slot index is below the length, which is never zero. *)
Definition record_block (w : SignedBlocksWindow) (height : N) (signed : bool) : SignedBlocksWindow * option N :=
  let slot := N.to_nat (height mod N.of_nat (length (bits w))) in
  let previously_signed := default true (bits w !! slot) in
  let missed := match previously_signed, signed with
    | true, false => wrapping_add64 (missed_count w) 1
    | false, true => saturating_sub (missed_count w) 1
    | _, _ => missed_count w
    end in
  let bits' := <[slot := signed]> (bits w) in
  if (max_missed w <? missed) && negb (bool_decide (last_breach_height w = Some height)) then
    ({| bits := bits'; missed_count := missed; max_missed := max_missed w;
        last_breach_height := Some height |}, Some height)
  else
    ({| bits := bits'; missed_count := missed; max_missed := max_missed w;
        last_breach_height := last_breach_height w |}, None).

Definition SignedBlocksWindow_reset (w : SignedBlocksWindow) : SignedBlocksWindow :=
  {| bits := (λ _, true) <$> bits w; missed_count := 0; max_missed := max_missed w;
     last_breach_height := None |}.

(** The validator and the window after a downtime penalty; an error changes neither. *)
Definition apply_downtime (v : Validator) (breach_height : N) (validator_power : Amount) (block_time : N)
    (w : SignedBlocksWindow) : result SlashError (Validator * SignedBlocksWindow * Amount) :=
  '(v', b) ← slash v breach_height validator_power DOWNTIME_SLASH_BPS;
  Ok (jail v' (wrapping_add64 block_time DOWNTIME_JAIL_DURATION_SECONDS), SignedBlocksWindow_reset w, b).

(** ** [evidence.rs] *)

Record DoubleSignEvidence := {
  vote_a : DagBlockRef;
  vote_b : DagBlockRef;
  infraction_height : N;
  infraction_time : N;
  accused : Address;
  validator_power : Amount;
  ev_total_power : Amount;
}.

Inductive EvidenceError :=
  | SlotMismatch (a_round : N) (a_author : Address) (b_round : N) (b_author : Address)
  | IdenticalDigests
  | Ev_InvalidSignature (sig_a_ok sig_b_ok : bool)
  | NotInCommittee (validator : Address) (height : N)
  | Expired (time current : N)
  | Duplicate (validator : Address) (height : N)
  | SlashFailed (source : SlashError).

Definition verify_double_sign (e : DoubleSignEvidence) (vset : ValidatorSet) (sig_a_ok sig_b_ok : bool)
    (current_time : N) (dedup : gset (Address * N)) : result EvidenceError () :=
  if negb (ref_round (vote_a e) =? ref_round (vote_b e)) || negb (ref_author (vote_a e) =? ref_author (vote_b e))
  then Err (SlotMismatch (ref_round (vote_a e)) (ref_author (vote_a e)) (ref_round (vote_b e)) (ref_author (vote_b e)))
  else if ref_digest (vote_a e) =? ref_digest (vote_b e) then Err IdenticalDigests
  else if negb sig_a_ok || negb sig_b_ok then Err (Ev_InvalidSignature sig_a_ok sig_b_ok)
  else if negb (bool_decide (is_Some (members vset !! accused e)))
  then Err (NotInCommittee (accused e) (infraction_height e))
  else if EVIDENCE_MAX_AGE_SECONDS <=? saturating_sub current_time (infraction_time e)
  then Err (Expired (infraction_time e) current_time)
  else if bool_decide ((accused e, infraction_height e) ∈ dedup)
  then Err (Duplicate (accused e) (infraction_height e))
  else Ok ().

Definition apply_double_sign (v : Validator) (e : DoubleSignEvidence) : result EvidenceError (Validator * Amount) :=
  '(v', b) ← map_err SlashFailed (slash v (infraction_height e) (validator_power e) DOUBLE_SIGN_SLASH_BPS);
  Ok (tombstone v', b).

(** ** Proofs: slashing *)

Definition entry_slash (bps : N) (e : UnbondingEntry) : Amount := initial_balance e * bps / MAX_FRACTION_BPS.

(** Entries opened at or before the infraction are not touched. *)
Definition taken (h bps : N) (e : UnbondingEntry) : Amount :=
  if start_height e <=? h then 0 else entry_slash bps e.
Definition slashed_entry (h bps : N) (e : UnbondingEntry) : UnbondingEntry :=
  if start_height e <=? h then e else set_balance e (initial_balance e - entry_slash bps e).

(** The stake a slash can reach. *)
Definition slashable (v : Validator) : Amount :=
  active (self_stake v) + sumN (initial_balance <$> pending_inactive (self_stake v)).

Lemma entry_slash_le bps e : bps <= MAX_FRACTION_BPS → entry_slash bps e <= initial_balance e.
Proof.
  intros Hb. unfold entry_slash. apply N.Div0.div_le_upper_bound. rewrite N.mul_comm. by apply N.mul_le_mono_r.
Qed.

Lemma slashed_entry_balance h bps e :
  bps <= MAX_FRACTION_BPS → initial_balance (slashed_entry h bps e) + taken h bps e = initial_balance e.
Proof.
  intros Hb%(entry_slash_le _ e). unfold slashed_entry, taken. destruct (_ <=? _); [lia|]. unfold set_balance. cbn [initial_balance]. lia.
Qed.

Lemma slashed_entries_balance h bps l :
  bps <= MAX_FRACTION_BPS →
  sumN (initial_balance <$> (slashed_entry h bps <$> l)) + sumN (taken h bps <$> l) = sumN (initial_balance <$> l).
Proof.
  intros Hb. induction l as [|e l IH]; [done|]. rewrite !fmap_cons. cbn [sumN].
  pose proof (slashed_entry_balance h bps e Hb). lia.
Qed.

Lemma taken_le h bps l : bps <= MAX_FRACTION_BPS → sumN (taken h bps <$> l) <= sumN (initial_balance <$> l).
Proof. intros Hb. pose proof (slashed_entries_balance h bps l Hb). lia. Qed.

Lemma slash_entries_spec addr h bps p l :
  bps <= MAX_FRACTION_BPS →
  match slash_entries addr h bps p l with
  | Ok (l', p') => l' = slashed_entry h bps <$> l ∧ p' = p + sumN (taken h bps <$> l)
  | Err e => ∃ src, e = ApplyOverflow addr src
      ∧ (u128_max < sumN (initial_balance <$> l) * bps ∨ u128_max < p + sumN (taken h bps <$> l))
  end.
Proof.
  intros Hb. revert p. induction l as [|e l IH]; intros p; cbn [slash_entries]; [split; [done|cbn; lia]|].
  rewrite !fmap_cons. cbn [sumN]. pose proof (entry_slash_le bps e Hb) as Hle.
  destruct (start_height e <=? h) eqn:Eh.
  - specialize (IH p). unfold taken at 1 3, slashed_entry at 1. rewrite Eh.
    destruct (slash_entries addr h bps p l) as [[l' p']|err]; cbn.
    + destruct IH as [-> ->]. split; [done|lia].
    + destruct IH as (src & -> & H). exists src. split; [done|]. destruct H; [left|right; lia].
      rewrite N.mul_add_distr_r. lia.
  - unfold Amount_checked_mul, checked_mul. destruct (N.leb_spec (initial_balance e * bps) u128_max) as [Hm|Hm]; cbn.
    2: { eexists. split; [done|]. left. rewrite N.mul_add_distr_r. lia. }
    fold (entry_slash bps e). unfold Amount_checked_sub, checked_sub. rewrite (proj2 (N.leb_le _ _) Hle). cbn.
    unfold taken at 1 3, slashed_entry at 1. rewrite Eh.
    unfold Amount_checked_add, checked_add. destruct (N.leb_spec (p + entry_slash bps e) u128_max) as [Ha|Ha]; cbn.
    2: { eexists. split; [done|]. right. lia. }
    specialize (IH (p + entry_slash bps e)). destruct (slash_entries addr h bps _ l) as [[l' p']|err]; cbn.
    + destruct IH as [-> ->]. split; [done|lia].
    + destruct IH as (src & -> & H). exists src. split; [done|]. destruct H; [left|right; lia].
      rewrite N.mul_add_distr_r. lia.
Qed.

Lemma taken_zero h l : sumN (taken h 0 <$> l) = 0.
Proof.
  induction l as [|e l IH]; [done|]. rewrite fmap_cons. cbn [sumN]. rewrite IH. unfold taken, entry_slash.
  rewrite N.mul_0_r. by destruct (_ <=? _).
Qed.

Lemma slash_branches v h pw bps :
  match slash v h pw bps with
  | Ok (v', b) =>
      let st := self_stake v in
      let cut := N.min (active st) (pw * bps / MAX_FRACTION_BPS) in
      bps <= MAX_FRACTION_BPS ∧ b = cut + sumN (taken h bps <$> pending_inactive st)
      ∧ v' = set_self_stake {| active := active st - cut; pending_active := pending_active st;
                               pending_inactive := slashed_entry h bps <$> pending_inactive st;
                               inactive := inactive st |} v
  | Err (InvalidFraction f) => f = bps ∧ MAX_FRACTION_BPS < bps
  | Err (ComputeOverflow a _) => a = address v ∧ u128_max < pw * bps
  | Err (ApplyOverflow a _) => a = address v ∧ u128_max < slashable v * bps
  end.
Proof.
  unfold slash. destruct (N.ltb_spec MAX_FRACTION_BPS bps) as [Hb|Hb]; [done|]. cbv zeta.
  unfold Amount_checked_mul, checked_mul. destruct (N.leb_spec (pw * bps) u128_max) as [Hm|Hm]; cbn [ok_or map_err mbind result_bind]; [|done].
  change (Amount_checked_div (pw * bps) MAX_FRACTION_BPS) with (Ok (pw * bps / MAX_FRACTION_BPS) : result AmountError N).
  cbn [map_err mbind result_bind]. set (intended := pw * bps / MAX_FRACTION_BPS).
  pose proof (slash_entries_spec (address v) h bps 0 (pending_inactive (self_stake v)) Hb) as Hs.
  pose proof (taken_le h bps (pending_inactive (self_stake v)) Hb) as Htk. unfold slashable.
  assert (∃ n, (if active (self_stake v) <? intended then Ok (active (self_stake v), 0)
     else n ← map_err (ApplyOverflow (address v)) (Amount_checked_sub (active (self_stake v)) intended); Ok (intended, n))
     = Ok (N.min (active (self_stake v)) intended, n) ∧ n = active (self_stake v) - N.min (active (self_stake v)) intended)
    as (n & -> & ->).
  { destruct (N.ltb_spec (active (self_stake v)) intended).
    - eexists. rewrite N.min_l by lia. split; [done|lia].
    - unfold Amount_checked_sub, checked_sub. rewrite (proj2 (N.leb_le _ _)) by done. cbn.
      eexists. rewrite N.min_r by lia. done. }
  cbn [mbind result_bind]. set (cut := N.min _ _).
  assert (u128_max < cut + sumN (taken h bps <$> pending_inactive (self_stake v)) →
    u128_max < (active (self_stake v) + sumN (initial_balance <$> pending_inactive (self_stake v))) * bps) as Hover.
  { intros Ho. destruct (decide (bps = 0)) as [-> |Hnz]; [|nia].
    rewrite taken_zero in Ho. unfold cut, intended in Ho. rewrite N.mul_0_r in Ho.
    change (0 / MAX_FRACTION_BPS) with 0 in Ho. unfold u128_max in Ho. lia. }
  destruct (slash_entries _ _ _ _ _) as [[l' p']|err].
  - destruct Hs as [-> ->]. cbn [mbind result_bind]. rewrite N.add_0_l.
    unfold Amount_checked_add, checked_add. destruct (N.leb_spec (cut + sumN (taken h bps <$> pending_inactive (self_stake v))) u128_max); cbn; auto.
  - destruct Hs as (src & -> & Hs). cbn [mbind result_bind]. split; [done|].
    destruct Hs as [Hs|Hs]; [rewrite N.mul_add_distr_r; lia|apply Hover; lia].
Qed.

(** ** Proofs: the sliding window *)

Definition count_missed (l : list bool) : N := N.of_nat (length (filter (λ b, b = false) l)).

Lemma count_missed_cons b l : count_missed (b :: l) = (if b then 0 else 1) + count_missed l.
Proof. unfold count_missed. rewrite filter_cons. destruct b; case_decide; try done; cbn [length]; lia. Qed.

Lemma count_missed_app l1 l2 : count_missed (l1 ++ l2) = count_missed l1 + count_missed l2.
Proof. unfold count_missed. rewrite filter_app, length_app. lia. Qed.

Lemma count_missed_le l : count_missed l <= N.of_nat (length l).
Proof. unfold count_missed. pose proof (length_filter (λ b, b = false) l). lia. Qed.

Lemma count_missed_signed n : count_missed (replicate n true) = 0.
Proof. induction n; [done|]. cbn [replicate]. by rewrite count_missed_cons. Qed.

(** The last [n] elements. *)
Definition last_n {A} (n : nat) (l : list A) : list A := drop (length l - n) l.

(** Presenting a run of consecutive blocks; the breaches in order. *)
Fixpoint record_run (w : SignedBlocksWindow) (height : N) (l : list bool) : SignedBlocksWindow * list (option N) :=
  match l with
  | [] => (w, [])
  | b :: l =>
      let '(w1, r) := record_block w height b in
      let '(w2, rs) := record_run w1 (height + 1) l in (w2, r :: rs)
  end.

(** The slots hold the window [win], oldest block first: the slot of the next
    height holds its head. *)
Record win_inv (w : SignedBlocksWindow) (height : N) (win : list bool) : Prop := {
  wi_len : length (bits w) = length win;
  wi_bits j : (j < length win)%nat →
    bits w !! N.to_nat ((height + N.of_nat j) mod N.of_nat (length win)) = win !! j;
  wi_count : missed_count w = count_missed win;
  wi_breach h : last_breach_height w = Some h → h < height;
}.

Lemma mod_shift_ne (h W j : N) : 0 < j → j < W → (h + j) mod W ≠ h mod W.
Proof.
  intros Hj HW He. assert (W ≠ 0) as HW0 by lia.
  pose proof (N.div_mod (h + j) W HW0). pose proof (N.div_mod h W HW0). rewrite He in *.
  assert (W * ((h + j) / W) = W * (h / W) + j) as Hd by lia.
  assert ((h + j) / W ≠ h / W) by (intros E; rewrite E in Hd; lia). nia.
Qed.

Lemma record_block_inv w height b x win :
  (N.of_nat (length (x :: win)) <= u64_max) →
  win_inv w height (x :: win) →
  let '(w', r) := record_block w height b in
  win_inv w' (height + 1) (win ++ [b]) ∧ max_missed w' = max_missed w
  ∧ r = if max_missed w <? count_missed (win ++ [b]) then Some height else None.
Proof.
  intros HW [Hlen Hbits Hcount Hbr]. unfold record_block. cbv zeta. rewrite Hlen.
  set (W := length (x :: win)) in *. assert (W = S (length win)) as EW by done.
  set (slot := N.to_nat (height mod N.of_nat W)).
  assert (slot < length (bits w))%nat as Hslot.
  { unfold slot. pose proof (N.mod_lt height (N.of_nat W)). lia. }
  assert (bits w !! slot = Some x) as Hold.
  { pose proof (Hbits 0%nat ltac:(lia)) as H0. by rewrite N.add_0_r in H0. }
  rewrite Hold. change (default true (Some x)) with x.
  set (missed := match x, b with
    | true, false => wrapping_add64 (missed_count w) 1
    | false, true => saturating_sub (missed_count w) 1
    | _, _ => missed_count w
    end).
  assert (missed = count_missed (win ++ [b])) as Hm.
  { unfold missed. rewrite Hcount, count_missed_app, !count_missed_cons. change (count_missed []) with 0.
    pose proof (count_missed_le win). unfold wrapping_add64, saturating_sub.
    destruct x, b; rewrite ?N.mod_small; unfold u64_max in *; lia. }
  assert (∀ j, (j < length (win ++ [b]))%nat → <[slot:=b]> (bits w) !!
    N.to_nat ((height + 1 + N.of_nat j) mod N.of_nat (length (win ++ [b]))) = (win ++ [b]) !! j) as Hbits'.
  { intros j Hj. rewrite length_app in *. cbn in Hj.
    replace (N.of_nat (length win + length [b])) with (N.of_nat W) by (cbn; lia).
    destruct (decide (j = length win)) as [-> |Hne].
    - rewrite list_lookup_middle by done.
      replace (height + 1 + N.of_nat (length win)) with (height + 1 * N.of_nat W) by lia.
      rewrite N.Div0.mod_add. by apply list_lookup_insert_eq.
    - rewrite lookup_app_l by lia. replace (height + 1 + N.of_nat j) with (height + N.of_nat (S j)) by lia.
      rewrite list_lookup_insert_ne; [exact (Hbits (S j) ltac:(lia))|].
      unfold slot. intros E%(inj N.to_nat). symmetry in E. revert E. apply mod_shift_ne; lia. }
  rewrite (bool_decide_eq_false_2 (last_breach_height w = Some height)) by (intros E; specialize (Hbr _ E); lia).
  rewrite andb_true_r, Hm. destruct (max_missed w <? _); (split; [split|done]); cbn; try done.
  all: try (rewrite length_insert, length_app; cbn; lia).
  - intros ? [= <-]. lia.
  - intros h E. specialize (Hbr h E). lia.
Qed.

Lemma record_run_spec l w height win :
  (0 < length win)%nat → N.of_nat (length win) <= u64_max → win_inv w height win →
  let '(w', rs) := record_run w height l in
  win_inv w' (height + N.of_nat (length l)) (drop (length l) (win ++ l)) ∧ max_missed w' = max_missed w
  ∧ ∀ i, (i < length l)%nat → rs !! i =
      Some (if max_missed w <? count_missed (drop (S i) (win ++ take (S i) l)) then Some (height + N.of_nat i) else None).
Proof.
  revert w height win. induction l as [|b l IH]; intros w height [|x win] Hp HW Hinv; [cbn in Hp; lia|..]; [|cbn in Hp; lia|].
  { cbn [record_run length]. rewrite N.add_0_r, app_nil_r, drop_0. split_and!; [done..|]. intros i Hi. lia. }
  cbn [record_run]. pose proof (record_block_inv w height b x win HW Hinv) as Hr.
  destruct (record_block w height b) as [w1 r]. destruct Hr as (Hinv1 & Hmax1 & ->).
  specialize (IH w1 (height + 1) (win ++ [b])). destruct (record_run w1 (height + 1) l) as [w2 rs].
  rewrite length_app in IH. cbn [length] in *. destruct IH as (Hinv2 & Hmax2 & Hrs); [lia|lia|done|].
  assert (∀ n k, drop n ((win ++ [b]) ++ k) = drop (S n) ((x :: win) ++ b :: k)) as Hd
    by (intros n k; cbn; by rewrite <-app_assoc).
  rewrite Hd in Hinv2. replace (height + 1 + N.of_nat (length l)) with (height + N.of_nat (S (length l))) in Hinv2 by lia.
  split_and!; [done|congruence|]. intros [|i] Hi; cbn [lookup list_lookup].
  - cbn. rewrite drop_0, N.add_0_r. done.
  - specialize (Hrs i ltac:(lia)). rewrite Hd, Hmax1 in Hrs.
    replace (height + 1 + N.of_nat i) with (height + N.of_nat (S i)) in Hrs by lia. exact Hrs.
Qed.

Lemma win_inv_new W m height w :
  SignedBlocksWindow_new W m = Some w →
  win_inv w height (replicate (N.to_nat W) true) ∧ (0 < N.to_nat W)%nat ∧ max_missed w = m.
Proof.
  unfold SignedBlocksWindow_new. destruct (N.eqb_spec W 0); [done|]. intros [= <-].
  split_and!; [|lia|done]. split; cbn; try done.
  - intros j Hj. rewrite length_replicate in *. rewrite !lookup_replicate_2; [done|done|].
    pose proof (N.mod_lt (height + N.of_nat j) (N.of_nat (N.to_nat W))). lia.
  - by rewrite count_missed_signed.
Qed.

Lemma window_last_n W l :
  count_missed (drop (length l) (replicate W true ++ l)) = count_missed (last_n W l).
Proof.
  unfold last_n. destruct (decide (length l <= W)%nat).
  - replace (length l - W)%nat with 0%nat by lia. rewrite drop_0, drop_app_le by (rewrite length_replicate; lia).
    rewrite drop_replicate, count_missed_app, count_missed_signed. lia.
  - rewrite drop_app_ge by (rewrite length_replicate; lia). by rewrite length_replicate.
Qed.

(** ** Theorems *)

(** [slash] on every branch: on success the active stake loses the intended
    amount or all of it, every unbonding entry opened after the infraction loses
    the same fraction, earlier entries, pending and matured stake and all other
    fields are untouched, and the burned amount is exactly what the stake lost;
    it fails only on a fraction above 100 percent or when the validator's power
    or slashable stake times the fraction does not fit 128 bits. *)
Theorem slash_spec v h pw bps :
  match slash v h pw bps with
  | Ok (v', b) =>
      let st := self_stake v in
      let cut := N.min (active st) (pw * bps / MAX_FRACTION_BPS) in
      bps <= MAX_FRACTION_BPS ∧ b + slashable v' = slashable v ∧ cut <= b
      ∧ v' = set_self_stake {| active := active st - cut; pending_active := pending_active st;
                               pending_inactive := slashed_entry h bps <$> pending_inactive st;
                               inactive := inactive st |} v
  | Err (InvalidFraction f) => f = bps ∧ MAX_FRACTION_BPS < bps
  | Err (ComputeOverflow a _) => a = address v ∧ u128_max < pw * bps
  | Err (ApplyOverflow a _) => a = address v ∧ u128_max < slashable v * bps
  end.
Proof.
  pose proof (slash_branches v h pw bps) as H. destruct (slash v h pw bps) as [[v' b]|e]; [|done].
  cbv zeta in *. destruct H as (Hb & -> & ->). split_and!; [done| |lia|done].
  unfold slashable. cbn [self_stake set_self_stake active pending_inactive].
  pose proof (slashed_entries_balance h bps (pending_inactive (self_stake v)) Hb). lia.
Qed.

(** The signed-blocks window counts the last blocks: after any run of
    consecutive heights, the missed count is the number of missed blocks among
    the last [W] recorded, blocks before the first counting as signed, and a
    breach is reported at exactly the heights where that number exceeds the
    maximum. *)
Theorem window_counts_last_blocks W m w height l :
  SignedBlocksWindow_new W m = Some w → W <= u64_max →
  let '(w', rs) := record_run w height l in
  missed_count w' = count_missed (last_n (N.to_nat W) l)
  ∧ ∀ i, (i < length l)%nat → rs !! i =
      Some (if m <? count_missed (last_n (N.to_nat W) (take (S i) l)) then Some (height + N.of_nat i) else None).
Proof.
  intros Hw HW. destruct (win_inv_new W m height w Hw) as (Hinv & Hpos & Hm).
  pose proof (record_run_spec l w height (replicate (N.to_nat W) true)) as Hr. rewrite length_replicate in Hr.
  destruct (record_run w height l) as [w' rs]. destruct Hr as (Hinv' & _ & Hrs); [lia|lia|done|].
  split; [rewrite (wi_count _ _ _ Hinv'); apply window_last_n|].
  intros i Hi. rewrite (Hrs i Hi), Hm. rewrite <-(window_last_n (N.to_nat W) (take (S i) l)), length_take.
  by replace (S i `min` length l)%nat with (S i) by lia.
Qed.

(** A downtime penalty burns and jails and never shortens a sentence: on
    success the stake is slashed by one percent of the power, the validator is
    out of the active set with a sentence of at least a day from the block time
    (or its longer previous one), it is not tombstoned by it, and the window is
    that of a validator that missed nothing. *)
Theorem apply_downtime_spec v breach pw block_time w v' w' b :
  block_time + DOWNTIME_JAIL_DURATION_SECONDS <= u64_max →
  apply_downtime v breach pw block_time w = Ok (v', w', b) →
  Validator_is_active v' = false ∧ tombstoned v' = tombstoned v ∧ b + slashable v' = slashable v
  ∧ (∃ t, jailed_until v' = Some t ∧ block_time + DOWNTIME_JAIL_DURATION_SECONDS <= t
       ∧ ∀ old, jailed_until v = Some old → old <= t)
  ∧ missed_count w' = count_missed (bits w') ∧ missed_count w' = 0 ∧ length (bits w') = length (bits w).
Proof.
  intros Ht. unfold apply_downtime. intros ([v1 b1] & Hs & [= <- <- <-])%bind_Ok.
  rewrite wrapping_add64_small by done. pose proof (slash_branches v breach pw DOWNTIME_SLASH_BPS) as H.
  rewrite Hs in H. cbv zeta in H. destruct H as (Hb & -> & ->).
  split_and!; try done.
  - unfold Validator_is_active. cbn. by rewrite andb_false_r.
  - unfold slashable. cbn. pose proof (slashed_entries_balance breach DOWNTIME_SLASH_BPS (pending_inactive (self_stake v)) Hb). lia.
  - cbn. eexists. split; [done|]. destruct (jailed_until v) as [old|]; (split; [lia|]); intros ? [= <-]; lia.
  - cbn. induction (bits w) as [|x l IH]; [done|]. cbn. by rewrite count_missed_cons.
  - cbn. by rewrite length_fmap.
Qed.

(** [verify_double_sign] accepts exactly two different digests for one slot,
    both signed, against a committee member, younger than the evidence age and
    not processed before; and applying accepted evidence burns stake, tombstones
    the validator and takes it out of the active set whatever its status. *)
Theorem double_sign_evidence_spec e vset sig_a sig_b now dedup v :
  (verify_double_sign e vset sig_a sig_b now dedup = Ok () ↔
     DagBlockRef_slot (vote_a e) = DagBlockRef_slot (vote_b e) ∧ vote_a e ≠ vote_b e
     ∧ sig_a = true ∧ sig_b = true ∧ is_Some (members vset !! accused e)
     ∧ now - infraction_time e < EVIDENCE_MAX_AGE_SECONDS ∧ (accused e, infraction_height e) ∉ dedup) ∧
  match apply_double_sign v e with
  | Ok (v', b) => b + slashable v' = slashable v ∧ tombstoned v' = true ∧ Validator_is_active v' = false
  | Err err => ∃ src, err = SlashFailed src
  end.
Proof.
  split.
  - unfold verify_double_sign, saturating_sub, DagBlockRef_slot.
    destruct (vote_a e) as [r1 a1 d1], (vote_b e) as [r2 a2 d2]; cbn.
    destruct (N.eqb_spec r1 r2); cbn; [|split; [done|intros ([=] & _); done]].
    destruct (N.eqb_spec a1 a2); cbn; [|split; [done|intros ([=] & _); done]]. subst.
    destruct (N.eqb_spec d1 d2); [subst; split; [done|intros (_ & ? & _); done]|].
    destruct sig_a, sig_b; cbn; try (split; [done|intros (_ & _ & ? & ? & _); done]).
    case_bool_decide; cbn; [|split; [done|intros (_ & _ & _ & _ & ? & _); done]].
    destruct (N.leb_spec EVIDENCE_MAX_AGE_SECONDS (now - infraction_time e)); [split; [done|intros (_ & _ & _ & _ & _ & ? & _); lia]|].
    case_bool_decide; [split; [done|tauto]|]. split; [intros _|done]. split_and!; try done. congruence.
  - unfold apply_double_sign. pose proof (slash_branches v (infraction_height e) (validator_power e) DOUBLE_SIGN_SLASH_BPS) as H.
    destruct (slash _ _ _ _) as [[v' b]|err]; cbn; [|by eauto]. cbv zeta in H. destruct H as (Hb & -> & ->).
    split; [|split; [done|unfold Validator_is_active; cbn; by rewrite andb_false_r]].
    unfold slashable. cbn. pose proof (slashed_entries_balance (infraction_height e) DOUBLE_SIGN_SLASH_BPS (pending_inactive (self_stake v)) Hb). lia.
Qed.

(** Accepted evidence stays accepted when its unauthenticated fields change:
    naming another committee member as the accused, or another infraction height
    after the first submission was recorded, still passes all five checks; the
    votes' author and the accused are never compared, and the deduplication key
    can be varied. *)
Theorem evidence_not_bound_to_votes e vset now dedup other h :
  verify_double_sign e vset true true now dedup = Ok () →
  is_Some (members vset !! other) → (other, h) ∉ dedup → (other, h) ≠ (accused e, infraction_height e) →
  let e' := {| vote_a := vote_a e; vote_b := vote_b e; infraction_height := h; infraction_time := infraction_time e;
               accused := other; validator_power := validator_power e; ev_total_power := ev_total_power e |} in
  verify_double_sign e' vset true true now ({[(accused e, infraction_height e)]} ∪ dedup) = Ok ().
Proof.
  intros Hv Ho Hd Hne e'. unfold verify_double_sign in *. cbn.
  destruct (_ || _); [done|]. destruct (ref_digest _ =? ref_digest _); [done|]. cbn [negb orb] in *.
  destruct (bool_decide (is_Some (members vset !! accused e))); cbn [negb] in Hv; [|done].
  rewrite (bool_decide_eq_true_2 _ Ho). cbn [negb].
  destruct (_ <=? _); [done|]. rewrite bool_decide_eq_false_2; [done|]. set_solver.
Qed.
