(* ===== verification/Epoch.v ===== *)
(** * Epoch changes ([crates/lemma-consensus/src/epoch/mod.rs], [transition.rs],
    [proof.rs], [recovery.rs], [crates/lemma-core/src/epoch.rs])

    The settlement that closes an epoch and seats the next committee, the proof
    by which a client follows committees from epoch to epoch, and the recovery
    that closes a stuck epoch.  The settlement writes to the validator map as it
    goes, so its model returns the map next to the result. *)
From S2P Require Import Prelude CoreTypes StakeAgg DagBlock Leader Cert Fee Rewards.

(** ** [epoch.rs], [mod.rs] *)

Record Epoch := {
  number : N;
  epoch_start_height : N;
  start_timestamp : N;
  epoch_validators : ValidatorSet;
}.

Definition EPOCH_DURATION_SECONDS : N := 86400.
Definition GENESIS_MIN_VALIDATOR_STAKE_DROP : N := 20000000 * DROPS_PER_LEM.

Record EpochOutput := {
  out_epoch : Epoch;
  out_next_validators_hash : Hash;
  out_leader_schedule : LeaderSchedule;
  out_minted : Amount;
  out_burned_remainder : Amount;
}.

Inductive EpochError :=
  | SettlementOverflow (address : Address) (source : AmountError)
  | Epoch_PowerOverflow (address : Address) (source : AmountError)
  | EmptyNextCommittee (next_epoch : N)
  | EpochNumberOverflow (current : N)
  | ScheduleError (source : ConsensusError)
  | Reward (source : RewardError)
  | Internal.

(** ** [transition.rs] *)

Definition is_expired (block_time : N) (e : UnbondingEntry) : bool :=
  negb (on_hold e) && (complete_time e <=? block_time).

Definition set_pending_inactive (l : list UnbondingEntry) (i : Amount) (v : Validator) : Validator :=
  set_self_stake {| active := active (self_stake v); pending_active := pending_active (self_stake v);
                    pending_inactive := l; inactive := i |} v.

(** One validator.  [drain(..)] empties the entries first: an overflow leaves them empty. *)
Definition settle_one (block_time : N) (addr : Address) (v : Validator) : Validator * result EpochError () :=
  let st := self_stake v in
  let expired := filter (λ e, is_expired block_time e = true) (pending_inactive st) in
  let remaining := filter (λ e, is_expired block_time e = false) (pending_inactive st) in
  let settled :=
    matured ← try_fold (λ acc e, Amount_checked_add acc (initial_balance e)) 0 expired;
    Amount_checked_add (inactive st) matured in
  match settled with
  | Err e => (set_pending_inactive [] (inactive st) v, Err (SettlementOverflow addr e))
  | Ok i => (set_pending_inactive remaining i v, Ok ())
  end.

Definition activate_one (addr : Address) (v : Validator) : Validator * result EpochError () :=
  let st := self_stake v in
  match Amount_checked_add (active st) (pending_active st) with
  | Err e => (v, Err (SettlementOverflow addr e))
  | Ok a => (set_self_stake {| active := a; pending_active := 0; pending_inactive := pending_inactive st;
                               inactive := inactive st |} v, Ok ())
  end.

(** [for (addr, v) in validators.iter_mut()] with a body that may fail. *)
Fixpoint each_validator (f : Address → Validator → Validator * result EpochError ())
    (validators : gmap Address Validator) (l : list (Address * Validator))
    : gmap Address Validator * result EpochError () :=
  match l with
  | [] => (validators, Ok ())
  | (addr, v) :: l =>
      match f addr v with
      | (v', Err e) => (<[addr := v']> validators, Err e)
      | (v', Ok _) => each_validator f (<[addr := v']> validators) l
      end
  end.

Definition settle_expired_unbonding (validators : gmap Address Validator) (block_time : N)
    : gmap Address Validator * result EpochError () :=
  each_validator (settle_one block_time) validators (bmap_iter validators).

Definition activate_pending_stake (validators : gmap Address Validator)
    : gmap Address Validator * result EpochError () :=
  each_validator activate_one validators (bmap_iter validators).

Definition update_one (min_stake : Amount) (block_time : N) (v : Validator) : Validator :=
  let v := match jailed_until v with
    | Some t => if t <=? block_time then set_jailed_until None v else v
    | None => v
    end in
  if tombstoned v then v else
  match status v with
  | Unbonded => if min_stake <=? active (self_stake v) then set_status Bonded v else v
  | Bonded => if active (self_stake v) <? min_stake then set_status Unbonding v else v
  | Unbonding =>
      if (active (self_stake v) =? 0) && bool_decide (pending_inactive (self_stake v) = [])
      then set_status Unbonded v else v
  end.

Definition update_validator_status (validators : gmap Address Validator) (min_stake : Amount) (block_time : N)
    : gmap Address Validator :=
  update_one min_stake block_time <$> validators.

Definition build_next_validator_set (epoch_number : N) (validators : gmap Address Validator)
    : result EpochError ValidatorSet :=
  map_err (λ e, match e with
    | PowerOverflow a src => Epoch_PowerOverflow a src
    | EmptyValidatorSet epoch => EmptyNextCommittee epoch
    | _ => Internal
    end) (from_active_validators epoch_number validators).

Definition recompute_leader_schedule (vset : ValidatorSet) (commits : list CommitRec)
    : result EpochError LeaderSchedule :=
  let scores := from_commits commits in
  let f := ((size (members vset) - 1) / 3)%nat in
  let table := from_scores scores vset f in
  map_err ScheduleError (LeaderSchedule_with_swap vset LEADER_OFFSET table).

(** Steps 5, 6 and 9, which only read the settled map. *)
Definition assemble_epoch (blake3 : list N → Hash) (next_number : N) (validators : gmap Address Validator)
    (commits : list CommitRec) (block_time block_height minted burned : N) : result EpochError EpochOutput :=
  next_vset ← build_next_validator_set next_number validators;
  sched ← recompute_leader_schedule next_vset commits;
  Ok {| out_epoch := {| number := next_number; epoch_start_height := saturating_add u64_max block_height 1;
                        start_timestamp := block_time; epoch_validators := next_vset |};
        out_next_validators_hash := ValidatorSet_hash blake3 next_vset; out_leader_schedule := sched;
        out_minted := minted; out_burned_remainder := burned |}.

Definition advance_epoch (blake3 : list N → Hash) (current : Epoch) (validators : gmap Address Validator)
    (commits : list CommitRec) (total_supply : Amount) (block_time block_height : N) (min_stake : Amount)
    : gmap Address Validator * result EpochError EpochOutput :=
  match checked_add u64_max (number current) 1 with
  | None => (validators, Err (EpochNumberOverflow (number current)))
  | Some next_number =>
  match compute_epoch_inflation total_supply (number current) with
  | Err e => (validators, Err (Reward e))
  | Ok minted =>
  match distribute_rewards validators (epoch_validators current) minted with
  | (v1, Err e) => (v1, Err (Reward e))
  | (v1, Ok reward) =>
  match settle_expired_unbonding v1 block_time with
  | (v2, Err e) => (v2, Err e)
  | (v2, Ok _) =>
  match activate_pending_stake v2 with
  | (v3, Err e) => (v3, Err e)
  | (v3, Ok _) =>
      let v4 := update_validator_status v3 min_stake block_time in
      (v4, assemble_epoch blake3 next_number v4 commits block_time block_height minted (burned_remainder reward))
  end end end end end.

(** ** [proof.rs] *)

Inductive ProofError :=
  | EmptyProof
  | LengthMismatch (headers certs next_vsets : nat)
  | InjectedDataLengthMismatch (headers digests sig_maps : nat)
  | ValidatorSetHashMismatch (index : nat) (expected got : Hash)
  | NextValidatorSetHashMismatch (index : nat) (expected got : Hash)
  | CertFailed (index : nat) (source : CertError).

Record EpochChangeProof := {
  boundary_headers : list BlockHeader;
  boundary_certs : list QuorumCert;
  next_validator_sets : list ValidatorSet;
}.

Definition verify_full (blake3 : list N → Hash) (vset : ValidatorSet) (header : BlockHeader)
    (header_digest : Hash) (qc : QuorumCert) (sig_results : gmap Address bool) : result ProofError () :=
  let vset_hash := ValidatorSet_hash blake3 vset in
  if negb (vset_hash =? validators_hash header)
  then Err (ValidatorSetHashMismatch 0 vset_hash (validators_hash header)) else
  map_err (CertFailed 0) (verify_quorum_cert qc vset header_digest sig_results).

(** The loop; the five slices are read at index [i], all of the same length. *)
Fixpoint walk_boundaries (blake3 : list N → Hash) (i : nat) (current : ValidatorSet)
    (hs : list BlockHeader) (qcs : list QuorumCert) (nexts : list ValidatorSet)
    (digests : list Hash) (sigs : list (gmap Address bool)) : result ProofError () :=
  match hs, qcs, nexts, digests, sigs with
  | h :: hs, qc :: qcs, next :: nexts, dg :: digests, sg :: sigs =>
      let current_hash := ValidatorSet_hash blake3 current in
      if negb (current_hash =? validators_hash h)
      then Err (ValidatorSetHashMismatch i current_hash (validators_hash h)) else
      _ ← map_err (CertFailed i) (verify_quorum_cert qc current dg sg);
      let next_hash := ValidatorSet_hash blake3 next in
      if negb (next_hash =? next_validators_hash h)
      then Err (NextValidatorSetHashMismatch i (next_validators_hash h) next_hash) else
      walk_boundaries blake3 (S i) next hs qcs nexts digests sigs
  | _, _, _, _, _ => Ok ()
  end.

Definition verify_epoch_change (blake3 : list N → Hash) (proof : EpochChangeProof) (initial_vset : ValidatorSet)
    (header_digests : list Hash) (sig_results : list (gmap Address bool)) : result ProofError () :=
  let n := length (boundary_headers proof) in
  if (n =? 0)%nat then Err EmptyProof else
  if negb (length (boundary_certs proof) =? n)%nat || negb (length (next_validator_sets proof) =? n)%nat
  then Err (LengthMismatch n (length (boundary_certs proof)) (length (next_validator_sets proof))) else
  if negb (length header_digests =? n)%nat || negb (length sig_results =? n)%nat
  then Err (InjectedDataLengthMismatch n (length header_digests) (length sig_results)) else
  walk_boundaries blake3 0 initial_vset (boundary_headers proof) (boundary_certs proof)
    (next_validator_sets proof) header_digests sig_results.

(** ** [recovery.rs] *)

Inductive RecoveryError :=
  | Recovery_InsufficientQuorum (source : CertError)
  | RollbackForbidden (at_commit_index last_final_commit_index : N)
  | Recovery_Duplicate (epoch_number at_commit_index : N)
  | SettlementFailed (source : EpochError).

Record RecoveryOutput := {
  epoch_output : EpochOutput;
  recovery_cert : QuorumCert;
  recovery_at_commit_index : N;
}.

Definition force_epoch_close (blake3 : list N → Hash) (current : Epoch) (validators : gmap Address Validator)
    (commits : list CommitRec) (total_supply : Amount) (at_commit_index last_final_commit_index : N)
    (cert : QuorumCert) (cert_digest : Hash) (sig_results : gmap Address bool) (dedup : gset (N * N))
    (block_time block_height : N) (min_stake : Amount)
    : gmap Address Validator * result RecoveryError RecoveryOutput :=
  match verify_quorum_cert cert (epoch_validators current) cert_digest sig_results with
  | Err e => (validators, Err (Recovery_InsufficientQuorum e))
  | Ok _ =>
  if last_final_commit_index <? at_commit_index
  then (validators, Err (RollbackForbidden at_commit_index last_final_commit_index)) else
  if bool_decide ((number current, at_commit_index) ∈ dedup)
  then (validators, Err (Recovery_Duplicate (number current) at_commit_index)) else
  match advance_epoch blake3 current validators commits total_supply block_time block_height min_stake with
  | (v', Err e) => (v', Err (SettlementFailed e))
  | (v', Ok out) =>
      (v', Ok {| epoch_output := out; recovery_cert := cert; recovery_at_commit_index := at_commit_index |})
  end end.

(** ** Proofs: the settlement as a pure update of each validator *)

Definition settle_fn (block_time : N) (v : Validator) : Validator :=
  let st := self_stake v in
  set_pending_inactive (filter (λ e, is_expired block_time e = false) (pending_inactive st))
    (inactive st + sumN (initial_balance <$> filter (λ e, is_expired block_time e = true) (pending_inactive st))) v.

Definition activate_fn (v : Validator) : Validator :=
  let st := self_stake v in
  set_self_stake {| active := active st + pending_active st; pending_active := 0;
                    pending_inactive := pending_inactive st; inactive := inactive st |} v.

Lemma amount_fold_ok {A} (f : A → N) acc l r :
  try_fold (λ acc e, Amount_checked_add acc (f e)) acc l = Ok r → r = acc + sumN (f <$> l).
Proof.
  revert acc. induction l as [|e l IH]; intros acc; cbn; [intros [= <-]; lia|].
  intros (a & Ha & Hl)%bind_Ok. apply ok_or_Ok, checked_add_Some in Ha as [-> _]. apply IH in Hl. lia.
Qed.

Lemma settle_one_ok bt a v v' : settle_one bt a v = (v', Ok ()) → v' = settle_fn bt v.
Proof.
  unfold settle_one. cbv zeta. destruct (_ ≫= _) as [i|e] eqn:H; intros [= <-].
  apply bind_Ok in H as (m & Hm%amount_fold_ok & Hi). apply ok_or_Ok, checked_add_Some in Hi as [-> _].
  unfold settle_fn. by rewrite Hm, N.add_0_l.
Qed.

Lemma activate_one_ok a v v' : activate_one a v = (v', Ok ()) → v' = activate_fn v.
Proof.
  unfold activate_one, activate_fn. cbv zeta. unfold Amount_checked_add, checked_add.
  destruct (_ <=? _); cbn; by intros [= <-].
Qed.

Lemma each_validator_spec f (g : Validator → Validator) m l m' :
  (∀ a v v', f a v = (v', Ok ()) → v' = g v) → NoDup l.*1 →
  each_validator f m l = (m', Ok ()) →
  ∀ a, m' !! a = match (list_to_map l : gmap Address Validator) !! a with Some v => Some (g v) | None => m !! a end.
Proof.
  intros Hf. revert m. induction l as [|[a0 v0] l IH]; intros m Hnd; cbn [each_validator].
  { by intros [= <-]. }
  apply NoDup_cons in Hnd as [Ha0 Hnd]. destruct (f a0 v0) as [v1 [[]|e]] eqn:E; [|done].
  intros Hl a. rewrite (IH _ Hnd Hl a). cbn [list_to_map foldr].
  destruct (decide (a0 = a)) as [<- |Hne].
  - rewrite (not_elem_of_list_to_map_1 l a0 Ha0). cbn. rewrite !lookup_insert_eq. by rewrite (Hf _ _ _ E).
  - cbn. by rewrite !lookup_insert_ne by done.
Qed.

Lemma bmap_iter_to_map {V} (m : gmap Address V) : (list_to_map (bmap_iter m) : gmap Address V) = m.
Proof.
  apply map_eq. intros a. destruct (m !! a) as [v|] eqn:E.
  - apply elem_of_list_to_map_1; [rewrite bmap_iter_keys; apply bmap_keys_NoDup|]. by apply elem_of_bmap_iter.
  - apply not_elem_of_list_to_map_1. rewrite bmap_iter_keys, elem_of_bmap_keys, E. by intros [? ?].
Qed.

Lemma each_validator_map f g m m' :
  (∀ a v v', f a v = (v', Ok ()) → v' = g v) →
  each_validator f m (bmap_iter m) = (m', Ok ()) → m' = g <$> m.
Proof.
  intros Hf H. apply map_eq. intros a.
  assert (NoDup (bmap_iter m).*1) as Hnd by (rewrite bmap_iter_keys; apply bmap_keys_NoDup).
  rewrite (each_validator_spec f g m (bmap_iter m) m' Hf Hnd H a).
  rewrite bmap_iter_to_map, lookup_fmap. by destruct (m !! a).
Qed.

(** The validators after the rewards of a pool. *)
Definition reward_of (vset : ValidatorSet) (pool : Amount) (a : Address) : Amount :=
  if decide (is_Some (members vset !! a) ∧ total_power vset / DROPS_PER_DRIP ≠ 0)
  then ideal_share vset pool a else 0.

Definition credit_fn (share : Amount) (v : Validator) : Validator :=
  set_self_active v (active (self_stake v) + share).

Lemma credit_fn_zero v : credit_fn 0 v = v.
Proof. unfold credit_fn, set_self_active. rewrite N.add_0_r. by destruct v as [? ? ? ? [] ? ? ?]. Qed.

Lemma distribute_rewards_map m vset pool m' o :
  distribute_rewards m vset pool = (m', Ok o) →
  ∀ a, m' !! a = credit_fn (reward_of vset pool a) <$> m !! a.
Proof.
  unfold distribute_rewards, reward_of. destruct (N.eqb_spec (total_power vset / DROPS_PER_DRIP) 0) as [H0|H0].
  { intros [= <- _] a. rewrite decide_False by tauto. destruct (m !! a); cbn; [by rewrite credit_fn_zero|done]. }
  pose proof (reward_loop_spec vset pool (bmap_iter (members vset)) m 0 (members_iter vset) (members_iter_NoDup vset)) as Hl.
  destruct (reward_loop _ _ _ _ _) as [m1 [d|e]]; [|done]. intros [= <- _] a.
  destruct Hl as [_ Hc]. rewrite (Hc a), bmap_iter_keys.
  destruct (decide (a ∈ bmap_keys (members vset))) as [Hin|Hin]; rewrite elem_of_bmap_keys in Hin.
  - rewrite decide_True by done. done.
  - rewrite decide_False by tauto. destruct (m !! a); cbn; [by rewrite credit_fn_zero|done].
Qed.

(** What a successful settlement does to one validator. *)
Definition epoch_fn (vset : ValidatorSet) (pool min_stake block_time : N) (a : Address) (v : Validator) : Validator :=
  update_one min_stake block_time (activate_fn (settle_fn block_time (credit_fn (reward_of vset pool a) v))).

Lemma advance_epoch_ok blake3 current m commits supply bt bh min_stake m' out :
  advance_epoch blake3 current m commits supply bt bh min_stake = (m', Ok out) →
  number current < u64_max ∧
  compute_epoch_inflation supply (number current) = Ok (out_minted out) ∧
  (∀ a, m' !! a = epoch_fn (epoch_validators current) (out_minted out) min_stake bt a <$> m !! a) ∧
  (∃ o m1, distribute_rewards m (epoch_validators current) (out_minted out) = (m1, Ok o)
     ∧ burned_remainder o = out_burned_remainder out) ∧
  assemble_epoch blake3 (number current + 1) m' commits bt bh (out_minted out) (out_burned_remainder out) = Ok out.
Proof.
  unfold advance_epoch. destruct (checked_add u64_max (number current) 1) as [n|] eqn:Hn; [|done].
  apply checked_add_Some in Hn as [-> Hn].
  destruct (compute_epoch_inflation supply (number current)) as [minted|] eqn:Hi; [|done].
  destruct (distribute_rewards m (epoch_validators current) minted) as [m1 [o|]] eqn:Hd; [|done].
  destruct (settle_expired_unbonding m1 bt) as [m2 [[]|]] eqn:Hs; [|done].
  destruct (activate_pending_stake m2) as [m3 [[]|]] eqn:Ha; [|done].
  intros [= <- Has]. apply (each_validator_map _ (settle_fn bt)) in Hs; [|intros ? ? ?; apply settle_one_ok].
  apply (each_validator_map _ activate_fn) in Ha; [|intros ? ? ?; apply activate_one_ok].
  assert (out_minted out = minted ∧ out_burned_remainder out = burned_remainder o) as [-> ->].
  { unfold assemble_epoch in Has. apply bind_Ok in Has as (nv & _ & (sc & _ & [= <-])%bind_Ok). done. }
  split_and!; [lia|done| |by eauto|done]. intros a. unfold update_validator_status, epoch_fn.
  rewrite Ha, Hs, !lookup_fmap, (distribute_rewards_map _ _ _ _ _ Hd). by destruct (m !! a).
Qed.

(** All the stake of a validator, in whichever bucket. *)
Definition stake_total (v : Validator) : Amount :=
  let st := self_stake v in
  active st + pending_active st + sumN (initial_balance <$> pending_inactive st) + inactive st.

Lemma sum_filter_split (p : UnbondingEntry → bool) l :
  sumN (initial_balance <$> filter (λ e, p e = false) l) + sumN (initial_balance <$> filter (λ e, p e = true) l)
  = sumN (initial_balance <$> l).
Proof.
  induction l as [|e l IH]; [done|]. rewrite !filter_cons.
  destruct (p e); repeat case_decide; try done; rewrite !fmap_cons; cbn [sumN]; lia.
Qed.

Lemma settle_fn_total bt v : stake_total (settle_fn bt v) = stake_total v.
Proof.
  unfold stake_total, settle_fn. cbn. pose proof (sum_filter_split (is_expired bt) (pending_inactive (self_stake v))). lia.
Qed.

Lemma activate_fn_total v : stake_total (activate_fn v) = stake_total v.
Proof. unfold stake_total, activate_fn. cbn. lia. Qed.

Lemma credit_fn_total share v : stake_total (credit_fn share v) = stake_total v + share.
Proof. unfold stake_total, credit_fn. cbn. lia. Qed.

(** [update_one] only touches the status and the jail sentence. *)
Lemma update_one_frame ms bt v :
  let w := update_one ms bt v in
  self_stake w = self_stake v ∧ delegated w = delegated v ∧ tombstoned w = tombstoned v
  ∧ consensus_pubkey w = consensus_pubkey v ∧ address w = address v
  ∧ jailed_until w = (t ← jailed_until v; if t <=? bt then None else Some t)
  ∧ (tombstoned v = true → status w = status v) ∧ (status v = Bonded → status w ≠ Unbonded)
  ∧ (status w = Bonded → tombstoned w = false → ms <= active (self_stake w)).
Proof.
  unfold update_one. destruct (jailed_until v) as [t|] eqn:Hj; [destruct (t <=? bt) eqn:Ht|];
    cbn [tombstoned set_jailed_until]; destruct (tombstoned v) eqn:Htomb;
    try (cbn; rewrite ?Hj, ?Htomb, ?Ht; split_and!; done || (intros; congruence));
    cbn [status set_jailed_until self_stake]; destruct (status v) eqn:Hs;
    repeat match goal with
    | |- context [if ?b then _ else _] => destruct b eqn:?
    end; cbn; rewrite ?Hj, ?Htomb, ?Hs, ?Ht; bool_hyps; split_and!; intros; try done; lia || congruence.
Qed.

Lemma epoch_fn_eligible vset pool ms bt a v :
  let w := epoch_fn vset pool ms bt a v in
  status w = Bonded → tombstoned w = false → ms <= active (self_stake w).
Proof. cbv zeta. unfold epoch_fn. set (u := activate_fn _). apply (update_one_frame ms bt u). Qed.

(** ** Proofs: epoch-change proofs *)

(** A chain of committees, each vouched for by a quorum of the one before: what
    [verify_epoch_change] is meant to establish. *)
Inductive trusted_chain (blake3 : list N → Hash) : ValidatorSet → list BlockHeader → list QuorumCert →
    list ValidatorSet → list Hash → list (gmap Address bool) → Prop :=
  | chain_nil vset : trusted_chain blake3 vset [] [] [] [] []
  | chain_step vset h qc next dg sg hs qcs nexts dgs sgs :
      ValidatorSet_hash blake3 vset = validators_hash h →
      qc_header_digest qc = dg → (∀ a, a ∈ dom (signers qc) → sg !! a = Some true) →
      is_quorum vset (dom (signers qc)) →
      ValidatorSet_hash blake3 next = next_validators_hash h →
      trusted_chain blake3 next hs qcs nexts dgs sgs →
      trusted_chain blake3 vset (h :: hs) (qc :: qcs) (next :: nexts) (dg :: dgs) (sg :: sgs).

Lemma walk_boundaries_sound blake3 i vset hs qcs nexts dgs sgs :
  length qcs = length hs → length nexts = length hs → length dgs = length hs → length sgs = length hs →
  walk_boundaries blake3 i vset hs qcs nexts dgs sgs = Ok () → trusted_chain blake3 vset hs qcs nexts dgs sgs.
Proof.
  revert i vset qcs nexts dgs sgs.
  induction hs as [|h hs IH]; intros i vset [|qc qcs] [|next nexts] [|dg dgs] [|sg sgs]; try done; [constructor|].
  cbn. intros [= H1] [= H2] [= H3] [= H4]. destruct (N.eqb_spec (ValidatorSet_hash blake3 vset) (validators_hash h)); cbn; [|done].
  intros ([] & Hc%map_err_Ok & H)%bind_Ok. apply verify_quorum_cert_sound in Hc as (? & ? & ?).
  destruct (N.eqb_spec (ValidatorSet_hash blake3 next) (next_validators_hash h)); cbn in H; [|done].
  constructor; try done. by eapply IH.
Qed.

Lemma walk_boundaries_complete blake3 i vset hs qcs nexts dgs sgs :
  trusted_chain blake3 vset hs qcs nexts dgs sgs →
  Forall (λ v, vset_wf v ∧ 3 * total_power v <= u128_max) (vset :: nexts) →
  walk_boundaries blake3 i vset hs qcs nexts dgs sgs = Ok ().
Proof.
  intros Hc. revert i. induction Hc as [|vset h qc next dg sg hs qcs nexts dgs sgs He Hd Hs Hq Hn _ IH]; intros i Hw; [done|].
  apply Forall_cons in Hw as [[Hw Hm] Hrest]. cbn. rewrite He, Hn, !N.eqb_refl. cbn.
  rewrite (verify_quorum_cert_complete qc vset dg sg Hw Hm Hd Hs Hq). cbn. by apply IH.
Qed.

Lemma trusted_chain_length blake3 vset hs qcs nexts dgs sgs :
  trusted_chain blake3 vset hs qcs nexts dgs sgs →
  length qcs = length hs ∧ length nexts = length hs ∧ length dgs = length hs ∧ length sgs = length hs.
Proof. induction 1; cbn; [done|]. destruct_and!. split_and!; congruence. Qed.

(** ** Theorems *)

(** C40. A successful epoch settlement, validator by validator: nobody joins or
    leaves the map; each validator's total stake grows by exactly its reward
    share, whatever bucket it moves between; pending stake becomes active,
    matured unbonding entries that are not on hold become withdrawable and no
    others do; an elapsed jail sentence is cleared and no other; keys, delegation
    and tombstones do not change; a tombstoned validator keeps its status and a
    bonded one never goes straight to unbonded. *)
Theorem advance_epoch_settles blake3 current m commits supply bt bh min_stake m' out :
  advance_epoch blake3 current m commits supply bt bh min_stake = (m', Ok out) →
  dom m' = dom m ∧
  ∀ a v w, m !! a = Some v → m' !! a = Some w →
    stake_total w = stake_total v + reward_of (epoch_validators current) (out_minted out) a
    ∧ active (self_stake w) = active (self_stake v) + reward_of (epoch_validators current) (out_minted out) a
        + pending_active (self_stake v)
    ∧ pending_active (self_stake w) = 0
    ∧ pending_inactive (self_stake w) = filter (λ e, is_expired bt e = false) (pending_inactive (self_stake v))
    ∧ jailed_until w = (t ← jailed_until v; if t <=? bt then None else Some t)
    ∧ consensus_pubkey w = consensus_pubkey v ∧ delegated w = delegated v ∧ tombstoned w = tombstoned v
    ∧ (tombstoned v = true → status w = status v) ∧ (status v = Bonded → status w ≠ Unbonded).
Proof.
  intros (_ & _ & Hm & _)%advance_epoch_ok. split.
  - apply set_eq. intros a. rewrite !elem_of_dom, Hm. by rewrite fmap_is_Some.
  - intros a v w Hv Hw. rewrite Hm, Hv in Hw. injection Hw as <-. unfold epoch_fn.
    set (u := activate_fn _).
    destruct (update_one_frame min_stake bt u) as (Hst & Hdel & Htomb & Hkey & _ & Hj & Hts & Hb & _).
    rewrite Hdel, Htomb, Hkey, Hj. split_and!; try done.
    + unfold stake_total at 1. rewrite Hst. fold (stake_total u). unfold u.
      by rewrite activate_fn_total, settle_fn_total, credit_fn_total.
    + by rewrite Hst.
    + by rewrite Hst.
    + by rewrite Hst.
Qed.

(** The next committee: after a successful settlement the new epoch has the
    next number and starts after the boundary block, and its committee is
    exactly the validators of the settled map that are bonded, not tombstoned,
    not jailed and at least at the minimum self-stake, each with its own plus
    delegated stake; it is not empty, its recorded power is the sum of its
    members', the published hash is its hash and the leader schedule rotates over
    its members in address order. *)
Theorem next_committee_is_eligible blake3 current m commits supply bt bh min_stake m' out :
  advance_epoch blake3 current m commits supply bt bh min_stake = (m', Ok out) →
  let next := epoch_validators (out_epoch out) in
  number (out_epoch out) = number current + 1 ∧ epoch_start_height (out_epoch out) = N.min (bh + 1) u64_max
  ∧ vs_epoch next = number current + 1 ∧ members next ≠ ∅ ∧ vset_wf next
  ∧ out_next_validators_hash out = ValidatorSet_hash blake3 next
  ∧ committee_order (out_leader_schedule out) = bmap_keys (members next)
  ∧ ∀ a mem, members next !! a = Some mem ↔
      ∃ w, m' !! a = Some w ∧ status w = Bonded ∧ tombstoned w = false ∧ jailed_until w = None
        ∧ min_stake <= active (self_stake w) ∧ mem = member_of w.
Proof.
  intros (_ & _ & Hm & _ & Ha)%advance_epoch_ok.
  unfold assemble_epoch in Ha. apply bind_Ok in Ha as (nv & Hnv & (sc & Hsc & [= <-])%bind_Ok). cbn.
  unfold build_next_validator_set in Hnv. apply map_err_Ok, from_active_validators_ok in Hnv as (He & Hne & Hw & Hmem).
  unfold recompute_leader_schedule in Hsc. apply map_err_Ok, schedule_order in Hsc as (Hord & _).
  split_and!; [done..|]. intros a mem. rewrite Hmem. unfold Validator_is_active. split.
  - intros (w & Hw' & Hact & ->). exists w. apply Is_true_eq_true in Hact. bool_hyps. split_and!; try done.
    rewrite Hm in Hw'. destruct (m !! a) as [v|]; [|done]. injection Hw' as <-. by apply epoch_fn_eligible.
  - intros (w & Hw' & Hst & Htomb & Hj & _ & ->). exists w.
    split; [done|]. split; [|done]. by rewrite Hst, Htomb, Hj.
Qed.

(** C39. [verify_epoch_change] accepts exactly the chains of trust: for committees
    whose recorded power is exact and far from overflow, it succeeds if and only
    if the proof is not empty and every boundary header names the current
    committee by its hash, is certified by a quorum of it with valid signatures,
    and names the next committee by its hash. *)
Theorem verify_epoch_change_exact blake3 proof vset digests sigs :
  Forall (λ v, vset_wf v ∧ 3 * total_power v <= u128_max) (vset :: next_validator_sets proof) →
  verify_epoch_change blake3 proof vset digests sigs = Ok () ↔
  boundary_headers proof ≠ [] ∧
  trusted_chain blake3 vset (boundary_headers proof) (boundary_certs proof) (next_validator_sets proof) digests sigs.
Proof.
  intros Hw. unfold verify_epoch_change. cbv zeta. split.
  - destruct (Nat.eqb_spec (length (boundary_headers proof)) 0) as [|Hn]; [done|].
    destruct (Nat.eqb_spec (length (boundary_certs proof)) (length (boundary_headers proof))); cbn; [|done].
    destruct (Nat.eqb_spec (length (next_validator_sets proof)) (length (boundary_headers proof))); cbn; [|done].
    destruct (Nat.eqb_spec (length digests) (length (boundary_headers proof))); cbn; [|done].
    destruct (Nat.eqb_spec (length sigs) (length (boundary_headers proof))); cbn; [|done].
    intros H. split; [intros E; by rewrite E in Hn|]. by eapply walk_boundaries_sound.
  - intros [Hne Hc]. pose proof (trusted_chain_length _ _ _ _ _ _ _ Hc) as (-> & -> & -> & ->).
    rewrite Nat.eqb_refl. cbn. destruct (Nat.eqb_spec (length (boundary_headers proof)) 0) as [E|_].
    + by destruct (boundary_headers proof).
    + by apply walk_boundaries_complete.
Qed.

(** Forced closure is authorised: [force_epoch_close] returns an output only
    with a certificate of the stuck epoch's committee quorum over the given
    digest, at a final commit, for an epoch and commit not closed before, and
    then the output is that of the ordinary settlement; a refusal for one of
    these three reasons leaves the validators as they were. *)
Theorem force_epoch_close_authorised blake3 current m commits supply at_ix final cert digest sigs dedup bt bh min_stake :
  match force_epoch_close blake3 current m commits supply at_ix final cert digest sigs dedup bt bh min_stake with
  | (m', Ok out) =>
      qc_header_digest cert = digest ∧ (∀ a, a ∈ dom (signers cert) → sigs !! a = Some true)
      ∧ is_quorum (epoch_validators current) (dom (signers cert)) ∧ at_ix <= final
      ∧ (number current, at_ix) ∉ dedup ∧ recovery_cert out = cert ∧ recovery_at_commit_index out = at_ix
      ∧ advance_epoch blake3 current m commits supply bt bh min_stake = (m', Ok (epoch_output out))
  | (m', Err (SettlementFailed e)) =>
      advance_epoch blake3 current m commits supply bt bh min_stake = (m', Err e)
  | (m', Err _) => m' = m
  end.
Proof.
  unfold force_epoch_close. destruct (verify_quorum_cert _ _ _ _) as [[]|e] eqn:Hv; [|done].
  apply verify_quorum_cert_sound in Hv as (? & ? & ?).
  destruct (N.ltb_spec final at_ix); [done|]. case_bool_decide; [done|].
  destruct (advance_epoch _ _ _ _ _ _ _ _) as [m' [out|e]]; [|done]. by split_and!.
Qed.

(** A single bonded validator below the minimum stake. *)
Definition small_validator : Validator :=
  {| address := 1; consensus_pubkey := {| classical := []; quantum := [] |}; status := Bonded; tombstoned := false;
     self_stake := {| active := DROPS_PER_LEM; pending_active := 0; pending_inactive := []; inactive := 0 |};
     delegated := 0; commission_bps := 0; jailed_until := None |}.

Definition small_epoch : Epoch :=
  {| number := 0; epoch_start_height := 0; start_timestamp := 0;
     epoch_validators := {| vs_epoch := 0; members := {[1 := member_of small_validator]}; total_power := DROPS_PER_LEM |} |}.

Definition small_cert : QuorumCert := {| qc_height := 0; qc_header_digest := 7; signers := {[1 := Unsigned]} |}.

(** A failed recovery does not leave the validators as they were: with a valid
    certificate, a settlement that ends without an eligible validator reports
    [EmptyNextCommittee] after the epoch's rewards were credited and the status
    changed; running it again credits the rewards again. *)
Theorem failed_recovery_changes_validators :
  let supply := 1000000000 * DROPS_PER_LEM in
  let close m := force_epoch_close (λ _, 0) small_epoch m [] supply 5 5 small_cert 7
    {[1 := true]} ∅ 0 0 GENESIS_MIN_VALIDATOR_STAKE_DROP in
  let r1 := close {[1 := small_validator]} in
  let r2 := close r1.1 in
  let credited := supply * 200 / 10000 / 365 / DROPS_PER_DRIP * DROPS_PER_DRIP in
  r1.2 = Err (SettlementFailed (EmptyNextCommittee 1)) ∧ r2.2 = Err (SettlementFailed (EmptyNextCommittee 1)) ∧
  0 < credited ∧
  (λ v, (active (self_stake v), status v)) <$> r1.1 !! 1 = Some (DROPS_PER_LEM + credited, Unbonding) ∧
  (λ v, active (self_stake v)) <$> r2.1 !! 1 = Some (DROPS_PER_LEM + 2 * credited).
Proof. split_and!; vm_compute; done. Qed.
