(* ===== verification/Db.v ===== *)
(** * The key-value store ([lemma-storage/src/db.rs], [error.rs]) and codecs

    RocksDB, bincode and serde_json are packages the crate calls.  They enter as
    type classes: [Rocks] and [Codec] are the operations the code uses, and
    [RocksLaws] and [CodecLaws] the documented behaviour the theorems rely on (a
    write is read back and touches nothing else; decoding inverts encoding).
    [MemDb] is an in-memory store that satisfies the laws. *)
From stdpp Require Export strings.
From S2P Require Import Prelude CoreTypes.

Open Scope N_scope.

Notation bytes := (list N) (only parsing).

(** ** Column families *)

Inductive Cf :=
  | CF_STATE | CF_STORAGE | CF_BLOCKS | CF_BLOCK_HASH | CF_TRANSACTIONS
  | CF_RECEIPTS | CF_TRIE_NODES | CF_METADATA | CF_CODE.

#[export] Instance Cf_eq_dec : EqDecision Cf.
Proof. solve_decision. Defined.
#[export] Instance Cf_countable : Countable Cf.
Proof.
  refine (inj_countable' (λ c, match c with
    | CF_STATE => 0%nat | CF_STORAGE => 1%nat | CF_BLOCKS => 2%nat | CF_BLOCK_HASH => 3%nat
    | CF_TRANSACTIONS => 4%nat | CF_RECEIPTS => 5%nat | CF_TRIE_NODES => 6%nat | CF_METADATA => 7%nat
    | CF_CODE => 8%nat end)
    (λ n, match n with
    | 0%nat => CF_STATE | 1%nat => CF_STORAGE | 2%nat => CF_BLOCKS | 3%nat => CF_BLOCK_HASH
    | 4%nat => CF_TRANSACTIONS | 5%nat => CF_RECEIPTS | 6%nat => CF_TRIE_NODES | 7%nat => CF_METADATA
    | _ => CF_CODE end) _); by intros [].
Defined.

(** ** Errors.  A message built by [format!] is represented by what it is built from. *)

Inductive Corruption :=
  | NonceOverflow (address : Address)
  | LatestHashMissing.

Inductive SerializationReason :=
  | CodecMessage (message : string)
  | LatestHeightLength (got : nat)
  | LatestHashLength (got : nat).

Inductive StorageError :=
  | Database (reason : string)
  | ColumnFamilyNotFound (name : Cf)
  | BatchFailed (reason : string)
  | Corrupted (reason : Corruption)
  | KeyNotFound (key : string)
  | InvalidKeyLength (expected got : N)
  | TrieNodeNotFound (hash : Hash)
  | TrieRootMismatch (expected got : Hash)
  | InvalidProof (key : bytes)
  | AccountNotFound (address : Address)
  | SnapshotFailed (reason : string)
  | RestoreFailed (reason : string)
  | SerializationFailed (reason : SerializationReason).

(** ** RocksDB *)

Inductive BatchOp :=
  | BPut (cf : Cf) (key value : bytes)
  | BDelete (cf : Cf) (key : bytes).

Class Rocks (S : Type) := {
  cf_handle : S → Cf → bool;
  get_cf : S → Cf → bytes → result string (option bytes);
  put_cf : S → Cf → bytes → bytes → result string S;
  delete_cf : S → Cf → bytes → result string S;
  rocks_write : S → list BatchOp → result string S;
}.

(** The effect of one operation, and of a batch in order, on what a key reads. *)
Definition op_view (cf : Cf) (k : bytes) (r : result string (option bytes)) (op : BatchOp)
    : result string (option bytes) :=
  match op with
  | BPut cf' k' v => if decide (cf' = cf ∧ k' = k) then Ok (Some v) else r
  | BDelete cf' k' => if decide (cf' = cf ∧ k' = k) then Ok None else r
  end.
Definition batch_view (cf : Cf) (k : bytes) (ops : list BatchOp) (r : result string (option bytes))
    : result string (option bytes) := foldl (op_view cf k) r ops.

Class RocksLaws (S : Type) `{!Rocks S} : Prop := {
  put_cf_get s cf k v s' cf' k' :
    put_cf s cf k v = Ok s' → get_cf s' cf' k' = op_view cf' k' (get_cf s cf' k') (BPut cf k v);
  delete_cf_get s cf k s' cf' k' :
    delete_cf s cf k = Ok s' → get_cf s' cf' k' = op_view cf' k' (get_cf s cf' k') (BDelete cf k);
  rocks_write_get s ops s' cf' k' :
    rocks_write s ops = Ok s' → get_cf s' cf' k' = batch_view cf' k' ops (get_cf s cf' k');
  put_cf_handle s cf k v s' cf' : put_cf s cf k v = Ok s' → cf_handle s' cf' = cf_handle s cf';
  delete_cf_handle s cf k s' cf' : delete_cf s cf k = Ok s' → cf_handle s' cf' = cf_handle s cf';
  rocks_write_handle s ops s' cf' : rocks_write s ops = Ok s' → cf_handle s' cf' = cf_handle s cf';
}.

(** ** [LemmaDb] *)

Section db.
Context {S : Type} `{!Rocks S}.

Definition resolve_cf (s : S) (name : Cf) : result StorageError () :=
  if cf_handle s name then Ok () else Err (ColumnFamilyNotFound name).

Definition Db_get (s : S) (cf_name : Cf) (key : bytes) : result StorageError (option bytes) :=
  _ ← resolve_cf s cf_name; map_err Database (get_cf s cf_name key).

Definition Db_put (s : S) (cf_name : Cf) (key value : bytes) : result StorageError S :=
  _ ← resolve_cf s cf_name; map_err Database (put_cf s cf_name key value).

Definition Db_delete (s : S) (cf_name : Cf) (key : bytes) : result StorageError S :=
  _ ← resolve_cf s cf_name; map_err Database (delete_cf s cf_name key).

Definition new_batch : list BatchOp := [].

Definition batch_put (s : S) (batch : list BatchOp) (cf_name : Cf) (key value : bytes)
    : result StorageError (list BatchOp) :=
  _ ← resolve_cf s cf_name; Ok (batch ++ [BPut cf_name key value]).

Definition batch_delete (s : S) (batch : list BatchOp) (cf_name : Cf) (key : bytes)
    : result StorageError (list BatchOp) :=
  _ ← resolve_cf s cf_name; Ok (batch ++ [BDelete cf_name key]).

Definition write_batch (s : S) (batch : list BatchOp) : result StorageError S :=
  map_err BatchFailed (rocks_write s batch).
End db.

(** ** Serialization *)

Class Codec (A : Type) := {
  serialize : A → result string bytes;
  deserialize : bytes → result string A;
}.
Class CodecLaws (A : Type) `{!Codec A} : Prop :=
  deserialize_serialize (a : A) b : serialize a = Ok b → deserialize b = Ok a.

(** [StorageError::from(bincode::Error)] and [from(serde_json::Error)]. *)
Definition from_codec (message : string) : StorageError := SerializationFailed (CodecMessage message).

(** [lemma_crypto::hash_bytes] and [lemma_crypto::hash], the latter with the
    error conversion of its caller. *)
Definition hash_bytes (blake3 : bytes → Hash) (data : bytes) : Hash := blake3 data.
Definition crypto_hash {A} `{!Codec A} (blake3 : bytes → Hash) (data : A) : result StorageError Hash :=
  b ← map_err from_codec (serialize data); Ok (hash_bytes blake3 b).

(** Two byte strings with the same 32-byte digest. *)
Definition collides (blake3 : bytes → Hash) : Prop :=
  ∃ b1 b2, b1 ≠ b2 ∧ Hash_as_bytes (blake3 b1) = Hash_as_bytes (blake3 b2).

(** ** Reading after writing *)

Section laws.
Context {S : Type} `{!Rocks S, !RocksLaws S}.

Lemma Db_get_Ok (s : S) cf k o : Db_get s cf k = Ok o ↔ cf_handle s cf = true ∧ get_cf s cf k = Ok o.
Proof. unfold Db_get, resolve_cf. destruct (cf_handle s cf), (get_cf s cf k); cbn; naive_solver. Qed.

Lemma Db_put_Ok (s s' : S) cf k v : Db_put s cf k v = Ok s' ↔ cf_handle s cf = true ∧ put_cf s cf k v = Ok s'.
Proof. unfold Db_put, resolve_cf. destruct (cf_handle s cf), (put_cf s cf k v); cbn; naive_solver. Qed.

Lemma Db_delete_Ok (s s' : S) cf k :
  Db_delete s cf k = Ok s' ↔ cf_handle s cf = true ∧ delete_cf s cf k = Ok s'.
Proof. unfold Db_delete, resolve_cf. destruct (cf_handle s cf), (delete_cf s cf k); cbn; naive_solver. Qed.

Lemma Db_put_get (s s' : S) cf k v cf' k' :
  Db_put s cf k v = Ok s' →
  Db_get s' cf' k' = if decide (cf = cf' ∧ k = k') then Ok (Some v) else Db_get s cf' k'.
Proof.
  intros [Hh Hp]%Db_put_Ok. unfold Db_get, resolve_cf.
  rewrite (put_cf_handle _ _ _ _ _ cf' Hp), (put_cf_get _ _ _ _ _ cf' k' Hp). cbn.
  case_decide as H; [destruct H; subst; by rewrite Hh|done].
Qed.

Lemma Db_delete_get (s s' : S) cf k cf' k' :
  Db_delete s cf k = Ok s' →
  Db_get s' cf' k' = if decide (cf = cf' ∧ k = k') then Ok None else Db_get s cf' k'.
Proof.
  intros [Hh Hp]%Db_delete_Ok. unfold Db_get, resolve_cf.
  rewrite (delete_cf_handle _ _ _ _ cf' Hp), (delete_cf_get _ _ _ _ cf' k' Hp). cbn.
  case_decide as H; [destruct H; subst; by rewrite Hh|done].
Qed.

Lemma write_batch_get (s s' : S) ops cf k :
  write_batch s ops = Ok s' →
  Db_get s' cf k = (_ ← resolve_cf s cf; map_err Database (batch_view cf k ops (get_cf s cf k))).
Proof.
  unfold write_batch. intros Hw%map_err_Ok. unfold Db_get, resolve_cf.
  by rewrite (rocks_write_handle _ _ _ cf Hw), (rocks_write_get _ _ _ cf k Hw).
Qed.

(** A key no operation of the batch names reads as before. *)
Definition op_key (op : BatchOp) : Cf * bytes :=
  match op with BPut cf k _ => (cf, k) | BDelete cf k => (cf, k) end.

Lemma batch_view_other cf k ops r : (cf, k) ∉ op_key <$> ops → batch_view cf k ops r = r.
Proof.
  unfold batch_view. revert r. induction ops as [|op ops IH]; intros r Hn; [done|].
  cbn in *. apply not_elem_of_cons in Hn as [Hne Hn].
  rewrite IH by done. destruct op; cbn in *; (case_decide as H; [destruct H; subst; done|done]).
Qed.

Lemma write_batch_other (s s' : S) ops cf k :
  write_batch s ops = Ok s' → (cf, k) ∉ op_key <$> ops → Db_get s' cf k = Db_get s cf k.
Proof. intros Hw Hn. rewrite (write_batch_get _ _ _ _ _ Hw). by rewrite batch_view_other. Qed.
End laws.

(** ** An in-memory store *)

Record MemDb := { mem : gmap (Cf * bytes) bytes }.

Definition mem_op (m : gmap (Cf * bytes) bytes) (op : BatchOp) : gmap (Cf * bytes) bytes :=
  match op with BPut cf k v => <[(cf, k) := v]> m | BDelete cf k => delete (cf, k) m end.

#[export] Instance MemDb_rocks : Rocks MemDb := {|
  cf_handle _ _ := true;
  get_cf s cf k := Ok (mem s !! (cf, k));
  put_cf s cf k v := Ok {| mem := mem_op (mem s) (BPut cf k v) |};
  delete_cf s cf k := Ok {| mem := mem_op (mem s) (BDelete cf k) |};
  rocks_write s ops := Ok {| mem := foldl mem_op (mem s) ops |};
|}.

Lemma mem_op_view m op cf k :
  Ok (mem_op m op !! (cf, k)) = op_view cf k (Ok (m !! (cf, k))) op.
Proof.
  destruct op as [cf' k' v|cf' k']; cbn; case_decide as H.
  - destruct H; subst. by rewrite lookup_insert_eq.
  - rewrite lookup_insert_ne; [done|]. naive_solver.
  - destruct H; subst. by rewrite lookup_delete_eq.
  - rewrite lookup_delete_ne; [done|]. naive_solver.
Qed.

#[export] Instance MemDb_laws : RocksLaws MemDb.
Proof.
  split; try (intros; done).
  - intros s cf k v s' cf' k' [= <-]. exact (mem_op_view (mem s) (BPut cf k v) cf' k').
  - intros s cf k s' cf' k' [= <-]. exact (mem_op_view (mem s) (BDelete cf k) cf' k').
  - intros s ops s' cf' k' [= <-]. cbn. unfold batch_view. generalize (mem s).
    induction ops as [|op ops IH]; intros m; [done|]. cbn. rewrite IH. by rewrite mem_op_view.
Qed.
