(* ===== verification/Trie.v ===== *)
(** * The Merkle Patricia trie ([lemma-storage/src/trie/node.rs], [trie.rs])

    Nibble paths, trie nodes, lookup and insertion over the content-addressed
    node store, and the refinement of the trie by the map it stands for. *)
From S2P Require Import Prelude CoreTypes Db.

(** ** [NibblePath] *)

Notation NibblePath := (list N) (only parsing).

Definition NibblePath_from_bytes (key : bytes) : NibblePath :=
  mjoin ((λ byte, [N.shiftr byte 4; N.land byte 15]) <$> key).

Definition NibblePath_from_nibbles (nibbles : list N) : option NibblePath :=
  if existsb (λ n, 15 <? n) nibbles then None else Some nibbles.

Definition NibblePath_skip (self : NibblePath) (n : nat) : NibblePath :=
  drop (n `min` length self) self.

Definition NibblePath_take (self : NibblePath) (n : nat) : NibblePath :=
  take (n `min` length self) self.

Fixpoint common_prefix_len (self other : NibblePath) : nat :=
  match self, other with
  | a :: self, b :: other => if a =? b then S (common_prefix_len self other) else 0%nat
  | _, _ => 0%nat
  end.

Definition starts_with (self pre : NibblePath) : bool :=
  bool_decide (take (length pre) self = pre).

Definition NibblePath_concat (self other : NibblePath) : NibblePath := self ++ other.

Definition prepend_nibble (self : NibblePath) (nibble : N) : NibblePath := nibble :: self.

(** ** [TrieNode].  [children] is the array of 16 child hashes. *)

Inductive TrieNode :=
  | Branch (children : list (option Hash)) (value : option bytes)
  | Extension (prefix : NibblePath) (child : Hash)
  | Leaf (path : NibblePath) (value : bytes).

#[export] Instance TrieNode_eq_dec : EqDecision TrieNode.
Proof. solve_decision. Defined.

Definition empty_children : list (option Hash) := replicate 16 None.
Definition empty_branch : TrieNode := Branch empty_children None.

(** [None] when the node is not a branch or the nibble is out of range. *)
Definition set_child (self : TrieNode) (nibble : nat) (hash : Hash) : option TrieNode :=
  match self with
  | Branch children value =>
      if decide (nibble < length children)%nat then Some (Branch (<[nibble := Some hash]> children) value) else None
  | _ => None
  end.

Definition get_child (self : TrieNode) (nibble : nat) : option Hash :=
  match self with Branch children _ => c ← children !! nibble; c | _ => None end.

Definition child_count (self : TrieNode) : option nat :=
  match self with
  | Branch children _ => Some (length (filter is_Some children))
  | _ => None
  end.

(** [set_child] as a statement, its answer unused, and the write of a branch value. *)
Definition with_child (branch : TrieNode) (nibble : nat) (hash : Hash) : TrieNode :=
  default branch (set_child branch nibble hash).
Definition with_value (branch : TrieNode) (v : bytes) : TrieNode :=
  match branch with Branch children _ => Branch children (Some v) | n => n end.

(** A fuelled computation that may fail: [None] is "out of fuel". *)
Definition and_then {E A B} (r : option (result E A)) (k : A → option (result E B)) : option (result E B) :=
  match r with
  | None => None
  | Some (Err e) => Some (Err e)
  | Some (Ok a) => k a
  end.

(** ** [MerklePatriciaTrie] *)

Section trie.
Context {DB : Type} `{!Rocks DB} `{!Codec TrieNode} (blake3 : bytes → Hash).

Definition TrieNode_hash (self : TrieNode) : result StorageError Hash := crypto_hash blake3 self.

Definition load_node (s : DB) (hash : Hash) : result StorageError TrieNode :=
  o ← Db_get s CF_TRIE_NODES (Hash_as_bytes hash);
  b ← ok_or (TrieNodeNotFound hash) o;
  map_err from_codec (deserialize b).

Definition store_node (s : DB) (batch : list BatchOp) (node : TrieNode)
    : result StorageError (list BatchOp * Hash) :=
  hash ← TrieNode_hash node;
  encoded ← map_err from_codec (serialize node);
  batch' ← batch_put s batch CF_TRIE_NODES (Hash_as_bytes hash) encoded;
  Ok (batch', hash).

(** *** Lookup *)

Fixpoint get_recursive (fuel : nat) (s : DB) (node_hash : option Hash) (path : NibblePath)
    : option (result StorageError (option bytes)) :=
  match fuel with
  | O => None
  | S fuel' =>
      match node_hash with
      | None => Some (Ok None)
      | Some hash =>
          match load_node s hash with
          | Err e => Some (Err e)
          | Ok (Leaf lp value) => Some (Ok (if decide (lp = path) then Some value else None))
          | Ok (Extension pre child) =>
              if starts_with path pre
              then get_recursive fuel' s (Some child) (NibblePath_skip path (length pre))
              else Some (Ok None)
          | Ok (Branch children bv) =>
              match path with
              | [] => Some (Ok bv)
              | nibble :: _ =>
                  get_recursive fuel' s (default None (children !! N.to_nat nibble)) (NibblePath_skip path 1)
              end
          end
      end
  end.

(** *** Insertion *)

(** The branch where two paths that share [common] nibbles part.  [common] is
    at most the length of either, so [get(common)] is [None] exactly when the
    code's test [len() == common] holds. *)
Definition build_diverging_branch (s : DB) (batch : list BatchOp) (leaf_path : NibblePath) (leaf_value : bytes)
    (new_path : NibblePath) (new_value : bytes) (common : nat) : result StorageError (list BatchOp * Hash) :=
  '(batch1, branch1) ←
    (match leaf_path !! common with
     | None => Ok (batch, with_value empty_branch leaf_value)
     | Some n =>
         '(b, lh) ← store_node s batch (Leaf (NibblePath_skip leaf_path (common + 1)) leaf_value);
         Ok (b, with_child empty_branch (N.to_nat n) lh)
     end);
  '(batch2, branch2) ←
    (match new_path !! common with
     | None => Ok (batch1, with_value branch1 new_value)
     | Some n =>
         '(b, lh) ← store_node s batch1 (Leaf (NibblePath_skip new_path (common + 1)) new_value);
         Ok (b, with_child branch1 (N.to_nat n) lh)
     end);
  store_node s batch2 branch2.

Definition insert_at_leaf (s : DB) (batch : list BatchOp) (leaf_path : NibblePath) (leaf_value : bytes)
    (new_path : NibblePath) (new_value : bytes) : result StorageError (list BatchOp * Hash) :=
  let common := common_prefix_len leaf_path new_path in
  if decide (common = length leaf_path ∧ common = length new_path)
  then store_node s batch (Leaf leaf_path new_value) else
  let shared_prefix := NibblePath_take leaf_path common in
  '(batch1, bh) ← build_diverging_branch s batch leaf_path leaf_value new_path new_value common;
  if decide (0 < common)%nat then store_node s batch1 (Extension shared_prefix bh) else Ok (batch1, bh).

(** Out of range, [prefix.get(common).expect(..)] panics; the caller's guard
    keeps [common] below the length and the default unused. *)
Definition split_extension (s : DB) (batch : list BatchOp) (pre : NibblePath) (child : Hash) (path : NibblePath)
    (new_value : bytes) (common : nat) : result StorageError (list BatchOp * Hash) :=
  let ext_nibble := N.to_nat (default 0 (pre !! common)) in
  '(batch1, branch1) ←
    (if decide (common + 1 < length pre)%nat then
       '(b, sub_hash) ← store_node s batch (Extension (NibblePath_skip pre (common + 1)) child);
       Ok (b, with_child empty_branch ext_nibble sub_hash)
     else Ok (batch, with_child empty_branch ext_nibble child));
  '(batch2, branch2) ←
    (match path !! common with
     | None => Ok (batch1, with_value branch1 new_value)
     | Some n =>
         '(b, lh) ← store_node s batch1 (Leaf (NibblePath_skip path (common + 1)) new_value);
         Ok (b, with_child branch1 (N.to_nat n) lh)
     end);
  store_node s batch2 branch2.

Fixpoint insert_recursive (fuel : nat) (s : DB) (batch : list BatchOp) (node_hash : option Hash)
    (path : NibblePath) (value : bytes) : option (result StorageError (list BatchOp * Hash)) :=
  match fuel with
  | O => None
  | S fuel' =>
      match node_hash with
      | None => Some (store_node s batch (Leaf path value))
      | Some h =>
          match load_node s h with
          | Err e => Some (Err e)
          | Ok (Leaf lp lv) => Some (insert_at_leaf s batch lp lv path value)
          | Ok (Extension pre child) =>
              (* insert_at_extension *)
              let common := common_prefix_len path pre in
              if decide (common = length pre) then
                and_then (insert_recursive fuel' s batch (Some child) (NibblePath_skip path common) value)
                  (λ '(batch', nc), Some (store_node s batch' (Extension pre nc)))
              else Some (
                '(batch', branch_hash) ← split_extension s batch pre child path value common;
                if decide (0 < common)%nat
                then store_node s batch' (Extension (NibblePath_take pre common) branch_hash)
                else Ok (batch', branch_hash))
          | Ok (Branch children bv) =>
              (* insert_at_branch *)
              match path with
              | [] => Some (store_node s batch (Branch children (Some value)))
              | nibble :: _ =>
                  let i := N.to_nat nibble in
                  and_then (insert_recursive fuel' s batch (default None (children !! i)) (NibblePath_skip path 1) value)
                    (λ '(batch', new_child), Some (store_node s batch' (Branch (<[i := Some new_child]> children) bv)))
              end
          end
      end
  end.

(** One level per nibble, and one more. *)
Definition path_fuel (path : NibblePath) : nat := S (length path).

Definition Trie_get (s : DB) (root : option Hash) (key : bytes) : option (result StorageError (option bytes)) :=
  let path := NibblePath_from_bytes key in get_recursive (path_fuel path) s root path.

(** The store and the root after the call; an error leaves both as they were. *)
Definition Trie_insert (s : DB) (root : option Hash) (key value : bytes) : option (result StorageError (DB * Hash)) :=
  let path := NibblePath_from_bytes key in
  and_then (insert_recursive (path_fuel path) s new_batch root path value)
    (λ '(batch, new_root), Some (s' ← write_batch s batch; Ok (s', new_root))).
End trie.

(** ** The map a trie stands for *)

Definition nibbles_ok (path : NibblePath) : Prop := Forall (λ n, n < 16) path.

(** A path function: the value at every nibble path. *)
Notation pathmap := (NibblePath → option bytes) (only parsing).

Definition upd (f : pathmap) (path : NibblePath) (v : bytes) : pathmap :=
  λ q, if decide (q = path) then Some v else f q.

(** The rest of [q] after [pre]. *)
Definition strip (pre q : NibblePath) : option NibblePath :=
  if starts_with q pre then Some (drop (length pre) q) else None.

(** Two keys part at the first nibble (a key may also end there). *)
Definition diverges (f : pathmap) : Prop :=
  ∃ q1 q2, is_Some (f q1) ∧ is_Some (f q2) ∧ head q1 ≠ head q2.

Definition branch_fn (children : list (option Hash)) (v : option bytes) (g : nat → pathmap) : pathmap := λ q,
  match q with
  | [] => v
  | x :: r => match children !! N.to_nat x with Some (Some _) => g (N.to_nat x) r | _ => None end
  end.

Section spec.
Context {DB : Type} `{!Rocks DB, !RocksLaws DB} `{!Codec TrieNode, !CodecLaws TrieNode} (blake3 : bytes → Hash).
Implicit Types (s : DB) (f g : pathmap).

(** [n] is stored under its hash [h]. *)
Definition has s (h : Hash) (n : TrieNode) : Prop :=
  ∃ b, serialize n = Ok b ∧ h = blake3 b ∧ Db_get s CF_TRIE_NODES (Hash_as_bytes h) = Ok (Some b).

(** The trie at [h] stands for [f].  Besides lookup, the relation records the
    shape: extensions are not empty and lead to a branch, and a branch parts at
    least two keys. *)
Inductive stored s : Hash → pathmap → Prop :=
  | stored_leaf h p v f :
      has s h (Leaf p v) → nibbles_ok p → (∀ q, f q = if decide (q = p) then Some v else None) → stored s h f
  | stored_ext h p c g f :
      has s h (Extension p c) → p ≠ [] → nibbles_ok p → stored s c g → diverges g →
      (∀ q, f q = r ← strip p q; g r) → stored s h f
  | stored_branch h cs v (g : nat → pathmap) f :
      has s h (Branch cs v) → length cs = 16%nat →
      (∀ i c, cs !! i = Some (Some c) → stored s c (g i)) → diverges f →
      (∀ q, f q = branch_fn cs v g q) → stored s h f.

(** The same for a root that may be absent. *)
Definition stored_root s (root : option Hash) f : Prop :=
  match root with None => ∀ q, f q = None | Some h => stored s h f end.

Definition extends s s' : Prop := ∀ h n, has s h n → has s' h n.

(** *** Paths *)

Lemma skip_drop (p : NibblePath) n : NibblePath_skip p n = drop n p.
Proof.
  unfold NibblePath_skip. destruct (decide (n <= length p)%nat).
  - by rewrite Nat.min_l.
  - rewrite Nat.min_r by lia. rewrite !drop_ge; [done|lia..].
Qed.

Lemma take_take (p : NibblePath) n : NibblePath_take p n = take n p.
Proof.
  unfold NibblePath_take. destruct (decide (n <= length p)%nat).
  - by rewrite Nat.min_l.
  - rewrite Nat.min_r by lia. rewrite !take_ge; [done|lia..].
Qed.

Lemma starts_with_true q p : starts_with q p = true ↔ q = p ++ drop (length p) q.
Proof.
  unfold starts_with. rewrite bool_decide_eq_true. split; intros H.
  - rewrite <-H at 1. by rewrite take_drop.
  - rewrite H. by rewrite take_app_length.
Qed.

Lemma strip_Some p q r : strip p q = Some r ↔ q = p ++ r.
Proof.
  unfold strip. destruct (starts_with q p) eqn:E.
  - apply starts_with_true in E. split; [by intros [= <-]|].
    intros ->. by rewrite drop_app_length.
  - split; [done|]. intros ->. exfalso.
    assert (starts_with (p ++ r) p = true) as Ht by (apply starts_with_true; by rewrite drop_app_length).
    congruence.
Qed.

Lemma strip_None p q : strip p q = None ↔ ∀ r, q ≠ p ++ r.
Proof.
  destruct (strip p q) as [r|] eqn:E.
  - split; [done|]. intros H. apply strip_Some in E. by destruct (H r).
  - split; [|done]. intros _ r Hr. apply strip_Some in Hr. congruence.
Qed.

(** The common prefix, and how the two paths go on after it. *)
Lemma common_prefix_split p q :
  ∃ c p' q', p = c ++ p' ∧ q = c ++ q' ∧ common_prefix_len p q = length c
    ∧ (p' = [] ∨ q' = [] ∨ head p' ≠ head q').
Proof.
  revert q; induction p as [|a p IH]; intros q; [exists [], [], q; naive_solver|].
  destruct q as [|b q]; [exists [], (a :: p), []; naive_solver|]. cbn.
  destruct (N.eqb_spec a b) as [->|Hne].
  - destruct (IH q) as (c & p' & q' & -> & -> & Hl & H). exists (b :: c), p', q'.
    rewrite Hl. naive_solver.
  - exists [], (a :: p), (b :: q). split_and!; [done..|]. right; right. cbn. congruence.
Qed.

Lemma from_bytes_app k1 k2 :
  NibblePath_from_bytes (k1 ++ k2) = NibblePath_from_bytes k1 ++ NibblePath_from_bytes k2.
Proof. unfold NibblePath_from_bytes. by rewrite fmap_app, join_app. Qed.

Lemma from_bytes_ok k : Forall (λ b, b < 256) k → nibbles_ok (NibblePath_from_bytes k).
Proof.
  unfold nibbles_ok. induction 1 as [|b k Hb _ IH]; [constructor|].
  change (Forall (λ n, n < 16) (N.shiftr b 4 :: N.land b 15 :: NibblePath_from_bytes k)).
  constructor; [|constructor; [|done]].
  - rewrite N.shiftr_div_pow2. apply N.Div0.div_lt_upper_bound. lia.
  - change 15 with (N.ones 4). rewrite N.land_ones. apply N.mod_lt. done.
Qed.

(** A byte is determined by its two nibbles. *)
Lemma from_bytes_inj k1 k2 : NibblePath_from_bytes k1 = NibblePath_from_bytes k2 → k1 = k2.
Proof.
  revert k2; induction k1 as [|b1 k1 IH]; intros [|b2 k2]; [done..|].
  change (N.shiftr b1 4 :: N.land b1 15 :: NibblePath_from_bytes k1
    = N.shiftr b2 4 :: N.land b2 15 :: NibblePath_from_bytes k2 → b1 :: k1 = b2 :: k2).
  intros [= Hs Hl Hr]. f_equal; [|by apply IH].
  change 15 with (N.ones 4) in Hl. rewrite !N.land_ones in Hl. rewrite !N.shiftr_div_pow2 in Hs.
  rewrite (N.div_mod b1 (2 ^ 4)), (N.div_mod b2 (2 ^ 4)) by done. congruence.
Qed.
(** *** Basic facts on stored tries *)

Lemma has_load s h n : has s h n → load_node s h = Ok n.
Proof.
  intros (b & Hs & -> & Hg). unfold load_node. rewrite Hg. cbn.
  by rewrite (deserialize_serialize n b Hs).
Qed.

Lemma diverges_ext f g : diverges f → (∀ q, f q = g q) → diverges g.
Proof. intros (q1 & q2 & H1 & H2 & Hne) He. exists q1, q2. by rewrite <-!He. Qed.

Lemma stored_proper s h f g : stored s h f → (∀ q, f q = g q) → stored s h g.
Proof.
  intros Hst He. inversion Hst; subst.
  - eapply stored_leaf; [done..|]. intros q. by rewrite <-He.
  - eapply stored_ext; [done..|]. intros q. by rewrite <-He.
  - eapply stored_branch; [done..|by eapply diverges_ext|]. intros q. by rewrite <-He.
Qed.

Lemma stored_extends s s' h f : stored s h f → extends s s' → stored s' h f.
Proof.
  intros Hst Hx. induction Hst.
  - eapply stored_leaf; [by apply Hx|done..].
  - eapply stored_ext; [by apply Hx|done..].
  - eapply stored_branch; [by apply Hx|done|done|done|done].
Qed.

Lemma stored_nonempty s h f : stored s h f → ∃ q, is_Some (f q).
Proof.
  intros [? p v ? _ _ Hf|? p c g ? _ _ _ _ (q & _ & Hq & _) Hf|? ? ? ? ? _ _ _ (q & _ & Hq & _) _].
  - exists p. rewrite Hf, decide_True by done. eauto.
  - exists (p ++ q). rewrite Hf. by rewrite (proj2 (strip_Some p (p ++ q) q)).
  - by exists q.
Qed.

(** *** Lookup computes the map *)

Lemma get_recursive_stored s h f :
  stored s h f → ∀ fuel path, (length path < fuel)%nat → get_recursive fuel s (Some h) path = Some (Ok (f path)).
Proof.
  induction 1 as [h p v f Hh _ Hf|h p c g f Hh Hp _ _ IH _ Hf|h cs v g f Hh Hl _ IH _ Hf];
    intros [|fuel] path Hlen; [lia| |lia| |lia|];
    cbn [get_recursive]; rewrite (has_load _ _ _ Hh), Hf.
  - do 3 f_equal. apply decide_ext. naive_solver.
  - unfold strip. destruct (starts_with path p) eqn:E; [|done].
    apply starts_with_true in E. rewrite skip_drop, IH; [done|].
    apply (f_equal length) in E. rewrite length_app in E. rewrite length_drop in *.
    destruct p; [done|]. cbn [length] in *. lia.
  - destruct path as [|x r]; [done|]. rewrite skip_drop. cbn [branch_fn drop]. rewrite drop_0.
    destruct (cs !! N.to_nat x) as [[c|]|] eqn:E; cbn [default].
    + rewrite (IH _ _ E); [done|]. cbn [length] in Hlen. lia.
    + destruct fuel; [cbn [length] in Hlen; lia|done].
    + destruct fuel; [cbn [length] in Hlen; lia|done].
Qed.

(** *** Writing nodes *)

(** Errors an insertion into a well-formed trie may report. *)
Definition write_error (e : StorageError) : Prop :=
  match e with
  | SerializationFailed _ | ColumnFamilyNotFound _ | BatchFailed _ => True
  | _ => False
  end.

(** A node with its bytes, as [store_node] puts it into a batch. *)
Definition put_of (bn : bytes * TrieNode) : BatchOp :=
  BPut CF_TRIE_NODES (Hash_as_bytes (blake3 bn.1)) bn.1.
Definition encoded (nodes : list (bytes * TrieNode)) : Prop := Forall (λ bn, serialize bn.2 = Ok bn.1) nodes.
Definition nodes_in s (nodes : list (bytes * TrieNode)) : Prop := ∀ b n, (b, n) ∈ nodes → has s (blake3 b) n.

(** The result of an insertion that started from [batch]: it only adds nodes,
    and once these are written the hash stands for [f]. *)
Definition ins_post s (batch : list BatchOp) f (r : result StorageError (list BatchOp * Hash)) : Prop :=
  match r with
  | Ok (batch', h) => ∃ nodes, batch' = batch ++ (put_of <$> nodes) ∧ encoded nodes ∧
      ∀ s', extends s s' → nodes_in s' nodes → stored s' h f
  | Err e => write_error e
  end.

Lemma store_node_inv s batch n :
  match store_node blake3 s batch n with
  | Ok (batch', h) => ∃ b, serialize n = Ok b ∧ h = blake3 b ∧ batch' = batch ++ [put_of (b, n)]
  | Err e => write_error e
  end.
Proof.
  unfold store_node, TrieNode_hash, crypto_hash, batch_put, resolve_cf, hash_bytes, put_of.
  destruct (serialize n) as [b|]; cbn; [|done]. destruct (cf_handle s CF_TRIE_NODES); cbn; [|done]. eauto.
Qed.

(** The last step of an insertion: store the top node. *)
Lemma store_post s batch nodes n f :
  encoded nodes →
  (∀ s' h, extends s s' → nodes_in s' nodes → has s' h n → stored s' h f) →
  ins_post s batch f (store_node blake3 s (batch ++ (put_of <$> nodes)) n).
Proof.
  intros He H. pose proof (store_node_inv s (batch ++ (put_of <$> nodes)) n) as Hs.
  destruct (store_node blake3 s (batch ++ (put_of <$> nodes)) n) as [[batch' h]|e]; [|done].
  destruct Hs as (b & Hb & -> & ->). exists (nodes ++ [(b, n)]). split_and!.
  - by rewrite fmap_app, <-app_assoc.
  - apply Forall_app. split; [done|]. by apply Forall_singleton.
  - intros s' Hx Hn. apply H; [done| |].
    + intros b' n' Hin. apply Hn. set_solver.
    + apply Hn. set_solver.
Qed.

Lemma store_leaf_post s batch p v : nibbles_ok p → ins_post s batch (upd (λ _, None) p v) (store_node blake3 s batch (Leaf p v)).
Proof.
  intros Hp. pose proof (store_post s batch [] (Leaf p v) (upd (λ _, None) p v)) as H.
  cbn [fmap list_fmap] in H. rewrite app_nil_r in H. apply H; [constructor|].
  intros s' h _ _ Hh. by eapply stored_leaf.
Qed.

(** A step in the middle: store a node and go on with its hash. *)
Lemma bind_post {A} s batch f (r : result StorageError (list BatchOp * A)) k (P : list (bytes * TrieNode) → A → Prop) :
  match r with
  | Ok (batch', a) => ∃ nodes, batch' = batch ++ (put_of <$> nodes) ∧ encoded nodes ∧ P nodes a
  | Err e => write_error e
  end →
  (∀ nodes a, encoded nodes → P nodes a → ins_post s batch f (k (batch ++ (put_of <$> nodes), a))) →
  ins_post s batch f (r ≫= k).
Proof.
  destruct r as [[batch' a]|e]; [|done]. cbn. intros (nodes & -> & He & HP) Hk. by apply Hk.
Qed.

(** *** Branches with two arms *)

Inductive arm := Val (v : bytes) | Child (n : N) (h : Hash).
Definition arm_head (a : arm) : option N := match a with Val _ => None | Child n _ => Some n end.
Definition arm_ok s (a : arm) f : Prop :=
  match a with Val v => f [] = Some v | Child n h => n < 16 ∧ stored s h (λ r, f (n :: r)) end.
Definition set_arm (br : TrieNode) (a : arm) : TrieNode :=
  match a with Val v => with_value br v | Child n h => with_child br (N.to_nat n) h end.

Definition join_arms (a1 a2 : arm) (f1 f2 : pathmap) : pathmap := λ q,
  if decide (head q = arm_head a1) then f1 q else if decide (head q = arm_head a2) then f2 q else None.

Lemma stored_branch_intro s h cs v f :
  has s h (Branch cs v) → length cs = 16%nat → diverges f → f [] = v →
  (∀ x r, match cs !! N.to_nat x with
          | Some (Some c) => stored s c (λ r, f (x :: r))
          | _ => f (x :: r) = None
          end) →
  stored s h f.
Proof.
  intros Hh Hl Hd Hv Hc. apply (stored_branch s h cs v (λ i r, f (N.of_nat i :: r))); [done|done| |done|].
  - intros i c Hi. specialize (Hc (N.of_nat i) []). by rewrite Nnat.Nat2N.id, Hi in Hc.
  - intros [|x r]; [done|]. cbn. specialize (Hc x r).
    destruct (cs !! N.to_nat x) as [[c|]|]; [|done..]. by rewrite Nnat.N2Nat.id.
Qed.

Lemma arm_nonempty s a f : arm_ok s a f → ∃ q, is_Some (f q) ∧ head q = arm_head a.
Proof.
  destruct a as [v|n h]; cbn; [intros H; exists []; by rewrite H|].
  intros [_ (r & Hr)%stored_nonempty]. by exists (n :: r).
Qed.

Lemma lookup_empty_children i : empty_children !! i = if decide (i < 16)%nat then Some None else None.
Proof.
  unfold empty_children. case_decide; [by apply lookup_replicate_2|].
  apply lookup_ge_None_2. rewrite length_replicate. lia.
Qed.

Lemma lookup_set_child cs (n : N) h x :
  length cs = 16%nat → n < 16 →
  (<[N.to_nat n := Some h]> cs : list (option Hash)) !! N.to_nat x = if decide (x = n) then Some (Some h) else cs !! N.to_nat x.
Proof.
  intros Hl Hn. case_decide as E.
  - subst. apply list_lookup_insert_eq. lia.
  - apply list_lookup_insert_ne. lia.
Qed.

Lemma two_arms s h a1 a2 f1 f2 :
  arm_head a1 ≠ arm_head a2 → arm_ok s a1 f1 → arm_ok s a2 f2 →
  has s h (set_arm (set_arm empty_branch a1) a2) → stored s h (join_arms a1 a2 f1 f2).
Proof.
  intros Hne H1 H2 Hh.
  assert (diverges (join_arms a1 a2 f1 f2)) as Hd.
  { destruct (arm_nonempty _ _ _ H1) as (q1 & Hq1 & He1), (arm_nonempty _ _ _ H2) as (q2 & Hq2 & He2).
    exists q1, q2. unfold join_arms. rewrite He1, He2.
    rewrite decide_True by done. rewrite decide_False, decide_True by done. done. }
  assert (∀ n h' cs v, n < 16 → length cs = 16%nat →
    with_child (Branch cs v) (N.to_nat n) h' = Branch (<[N.to_nat n := Some h']> cs) v) as Hwc.
  { intros n h' cs v Hn Hl. unfold with_child, set_child. rewrite decide_True by lia. done. }
  destruct a1 as [v1|n1 h1], a2 as [v2|n2 h2]; [done|..]; cbn [set_arm arm_ok arm_head] in *;
    unfold empty_branch in Hh; cbn [with_value] in Hh.
  - destruct H2 as [Hn2 Hs2]. rewrite Hwc in Hh by done.
    eapply stored_branch_intro; [done|by rewrite length_insert|done|by unfold join_arms; cbn; rewrite decide_True|]. intros x r.
    rewrite lookup_set_child, lookup_empty_children by done. unfold join_arms; cbn [head arm_head].
    case_decide as E; [subst|].
    + eapply stored_proper; [done|]. intros q. cbn. by rewrite decide_False, decide_True.
    + rewrite (decide_False (P := Some x = None)), (decide_False (P := Some x = Some n2)) by congruence. by case_decide.
  - destruct H1 as [Hn1 Hs1]. rewrite Hwc in Hh by done. cbn [with_value] in Hh.
    eapply stored_branch_intro; [done|by rewrite length_insert|done|by unfold join_arms; cbn; rewrite decide_False, decide_True|]. intros x r.
    rewrite lookup_set_child, lookup_empty_children by done. unfold join_arms; cbn [head arm_head].
    case_decide as E; [subst|].
    + eapply stored_proper; [done|]. intros q. cbn. by rewrite decide_True.
    + rewrite (decide_False (P := Some x = Some n1)), (decide_False (P := Some x = None)) by congruence. by case_decide.
  - destruct H1 as [Hn1 Hs1], H2 as [Hn2 Hs2]. rewrite !Hwc in Hh by (rewrite ?length_insert; done).
    assert (n2 ≠ n1) by congruence.
    eapply stored_branch_intro; [done|by rewrite !length_insert|done|by unfold join_arms; cbn; rewrite !decide_False|]. intros x r.
    rewrite !lookup_set_child, lookup_empty_children by (rewrite ?length_insert; done). unfold join_arms; cbn [head arm_head].
    case_decide as E; [subst|case_decide as E'; [subst|]].
    + eapply stored_proper; [done|]. intros q. cbn. by rewrite decide_False, decide_True by congruence.
    + eapply stored_proper; [done|]. intros q. cbn. by rewrite decide_True.
    + rewrite (decide_False (P := Some x = Some n1)), (decide_False (P := Some x = Some n2)) by congruence. by case_decide.
Qed.

(** *** Insertion at a leaf and at an extension *)

Definition single (p : NibblePath) (v : bytes) : pathmap := upd (λ _, None) p v.

Lemma single_hit p v : single p v p = Some v.
Proof. unfold single, upd. by rewrite decide_True. Qed.

Lemma single_tail n p v r : single (n :: p) v (n :: r) = single p v r.
Proof. unfold single, upd. apply decide_ext. naive_solver. Qed.

(** What the code computes for one arm: a new leaf below the branch or the
    value of the branch. *)
Definition arm_step s (batch : list BatchOp) (br : TrieNode) (path : NibblePath) (common : nat) (v : bytes)
    : result StorageError (list BatchOp * TrieNode) :=
  match path !! common with
  | None => Ok (batch, with_value br v)
  | Some n =>
      '(b, lh) ← store_node blake3 s batch (Leaf (NibblePath_skip path (common + 1)) v);
      Ok (b, with_child br (N.to_nat n) lh)
  end.

Definition arm_post s (batch : list BatchOp) (br : TrieNode) (x : option N) f
    (r : result StorageError (list BatchOp * TrieNode)) : Prop :=
  match r with
  | Ok (batch', br') => ∃ nodes, batch' = batch ++ (put_of <$> nodes) ∧ encoded nodes ∧
      ∃ a, br' = set_arm br a ∧ arm_head a = x ∧ ∀ s', extends s s' → nodes_in s' nodes → arm_ok s' a f
  | Err e => write_error e
  end.

Lemma arm_step_post s batch br c p v :
  nibbles_ok p → arm_post s batch br (head p) (single p v) (arm_step s batch br (c ++ p) (length c) v).
Proof.
  intros Hok. unfold arm_step. rewrite lookup_app_r, Nat.sub_diag by lia. destruct p as [|n p]; cbn [lookup list_lookup].
  - exists []. rewrite app_nil_r. split_and!; [done|constructor|]. exists (Val v).
    split_and!; [done..|]. intros s' _ _. apply single_hit.
  - rewrite skip_drop, drop_app_add. cbn [drop]. rewrite drop_0.
    pose proof (store_node_inv s batch (Leaf p v)) as Hs.
    destruct (store_node blake3 s batch (Leaf p v)) as [[b lh]|e]; cbn; [|done].
    destruct Hs as (enc & Henc & -> & ->). exists [(enc, Leaf p v)].
    split_and!; [done|by apply Forall_singleton|]. exists (Child n (blake3 enc)). split_and!; [done..|].
    apply Forall_cons in Hok as [Hn1 Hp]. intros s' _ Hn. cbn. split; [done|].
    eapply stored_leaf; [apply Hn; by apply list_elem_of_singleton|done|].
    intros q. by rewrite single_tail.
Qed.

(** Two arms, then the branch. *)
Lemma branch_post s batch r1 r2 f1 f2 f x1 x2 :
  x1 ≠ x2 → arm_post s batch empty_branch x1 f1 r1 →
  (∀ batch' br, arm_post s batch' br x2 f2 (r2 batch' br)) →
  (∀ a1 a2 q, arm_head a1 = x1 → arm_head a2 = x2 → join_arms a1 a2 f1 f2 q = f q) →
  ins_post s batch f ('(batch1, br1) ← r1; '(batch2, br2) ← r2 batch1 br1; store_node blake3 s batch2 br2).
Proof.
  intros Hne H1 H2 Hf. destruct r1 as [[batch1 br1]|]; [|done]. cbn.
  destruct H1 as (nodes1 & -> & He1 & a1 & -> & Ha1 & Hok1).
  specialize (H2 (batch ++ (put_of <$> nodes1)) (set_arm empty_branch a1)).
  destruct (r2 _ _) as [[batch2 br2]|]; [|done]. cbn.
  destruct H2 as (nodes2 & -> & He2 & a2 & -> & Ha2 & Hok2).
  rewrite <-app_assoc, <-fmap_app. apply store_post; [by apply Forall_app|].
  intros s' h Hx Hn Hh.
  assert (nodes_in s' nodes1 ∧ nodes_in s' nodes2) as [Hn1 Hn2].
  { split; intros b n Hin; apply Hn; set_solver. }
  eapply stored_proper; [|intros q; by apply (Hf a1 a2)].
  apply two_arms; [congruence|by apply Hok1|by apply Hok2|done].
Qed.

(** A path that shares only a proper prefix with another: both go on
    differently. *)
Lemma heads_differ (p q : NibblePath) :
  p = [] ∨ q = [] ∨ head p ≠ head q → ¬ (p = [] ∧ q = []) → head p ≠ head q.
Proof. destruct p, q; cbn; naive_solver. Qed.

Lemma single_head p v q : head q ≠ head p → single p v q = None.
Proof. unfold single, upd. intros H. rewrite decide_False; [done|]. by intros ->. Qed.

Lemma join_single a1 a2 f1 p v q :
  arm_head a1 ≠ arm_head a2 → arm_head a2 = head p →
  (∀ q, head q ≠ arm_head a1 → f1 q = None) →
  join_arms a1 a2 f1 (single p v) q = upd f1 p v q.
Proof.
  intros Hne Ha2 Hf1. unfold join_arms, upd. case_decide as E1.
  - rewrite decide_False; [done|]. intros ->. congruence.
  - case_decide as E2.
    + unfold single, upd. case_decide; [done|]. by rewrite Hf1.
    + rewrite decide_False, Hf1 by naive_solver congruence. done.
Qed.

(** Wrapping a branch below a shared prefix. *)
Lemma prefix_post s batch c f f' r :
  nibbles_ok c → ins_post s batch f r → diverges f → (∀ q, f' q = r ← strip c q; f r) →
  ins_post s batch f' ('(batch1, bh) ← r;
    if decide (0 < length c)%nat then store_node blake3 s batch1 (Extension c bh) else Ok (batch1, bh)).
Proof.
  intros Hok Hr Hd Hf. destruct r as [[batch1 bh]|]; [|done]. cbn.
  destruct Hr as (nodes & -> & He & Hst). case_decide as Hc.
  - apply store_post; [done|]. intros s' h Hx Hn Hh.
    eapply stored_ext; [done| |done|by apply Hst|done|done]. intros ->. cbn in Hc. lia.
  - exists nodes. split_and!; [done..|]. intros s' Hx Hn. eapply stored_proper; [by apply Hst|].
    intros q. destruct c; [|cbn in Hc; lia]. rewrite Hf. unfold strip, starts_with. cbn.
    by rewrite bool_decide_true.
Qed.

Lemma upd_diverges f p v q : is_Some (f q) → head q ≠ head p → diverges (upd f p v).
Proof.
  intros Hq Hne. exists q, p. unfold upd. rewrite (decide_True (P := p = p)) by done.
  rewrite decide_False by (by intros ->). split_and!; [done|eauto|done].
Qed.

Lemma upd_strip c f p v q : upd (λ q, r ← strip c q; f r) (c ++ p) v q = (r ← strip c q; upd f p v r).
Proof.
  unfold upd. case_decide as E.
  - subst. rewrite (proj2 (strip_Some c (c ++ p) p)) by done. cbn. by rewrite decide_True.
  - destruct (strip c q) as [r|] eqn:Er; [|done]. apply strip_Some in Er as ->. cbn.
    rewrite decide_False; [done|]. intros ->. done.
Qed.

Lemma insert_at_leaf_post s batch lp lv path v f :
  nibbles_ok lp → nibbles_ok path → (∀ q, f q = single lp lv q) →
  ins_post s batch (upd f path v) (insert_at_leaf blake3 s batch lp lv path v).
Proof.
  intros Hlp Hp Hf. unfold insert_at_leaf.
  destruct (common_prefix_split lp path) as (c & p & q & -> & -> & -> & Hpq).
  rewrite !length_app. case_decide as E.
  - destruct p; [|cbn in E; lia]. destruct q; [|cbn in E; lia]. rewrite !app_nil_r in *.
    pose proof (store_post s batch [] (Leaf c v) (upd f c v)) as H.
    cbn [fmap list_fmap] in H. rewrite app_nil_r in H. apply H; [constructor|].
    intros s' h _ _ Hh. eapply stored_leaf; [done..|]. intros q. unfold upd. case_decide; [done|].
    rewrite Hf. unfold single, upd. by rewrite decide_False.
  - apply Forall_app in Hlp as [Hc Hp1]. apply Forall_app in Hp as [_ Hq1].
    assert (head p ≠ head q) as Hne.
    { apply heads_differ; [done|]. intros [-> ->]. cbn in E. lia. }
    rewrite take_take, take_app_length.
    apply (prefix_post _ _ _ (upd (single p lv) q v)); [done|..].
    + apply (branch_post s batch (arm_step s batch empty_branch (c ++ p) (length c) lv)
        (λ b br, arm_step s b br (c ++ q) (length c) v) (single p lv) (single q v) _ (head p) (head q));
        [done|by apply arm_step_post|by intros; apply arm_step_post|].
      intros a1 a2 r Ha1 Ha2. apply join_single; [congruence|done|]. intros r' Hr'. apply single_head. congruence.
    + apply (upd_diverges _ _ _ p); [|done]. rewrite single_hit. eauto.
    + intros r. rewrite <-upd_strip. unfold upd. case_decide; [done|]. rewrite Hf.
      destruct (strip c r) as [r'|] eqn:Er; cbn.
      * apply strip_Some in Er as ->. unfold single, upd. apply decide_ext. naive_solver.
      * unfold single, upd. rewrite decide_False; [done|]. intros ->. by apply (proj1 (strip_None _ _) Er p).
Qed.

Lemma split_extension_post s batch c n p child g path v :
  nibbles_ok (n :: p) → nibbles_ok path → head path ≠ Some n → stored s child g → diverges g →
  ins_post s batch (upd (λ q, r ← strip (n :: p) q; g r) path v)
    (split_extension blake3 s batch (c ++ n :: p) child (c ++ path) v (length c)).
Proof.
  intros Hnp Hpath Hne Hst Hd. apply Forall_cons in Hnp as [Hn Hp]. unfold split_extension.
  assert ((c ++ n :: p) !! length c = Some n) as -> by (by rewrite lookup_app_r, Nat.sub_diag by lia).
  cbn [default]. set (f1 := λ q, r ← strip (n :: p) q; g r).
  assert (∀ r, f1 (n :: r) = r' ← strip p r; g r') as Hf1.
  { intros r. unfold f1. destruct (strip p r) as [r'|] eqn:Er.
    - apply strip_Some in Er as ->. by rewrite (proj2 (strip_Some (n :: p) (n :: p ++ r') r')).
    - rewrite (proj2 (strip_None (n :: p) (n :: r))); [done|]. intros r' [= ->].
      by apply (proj1 (strip_None _ _) Er r'). }
  apply (branch_post s batch
    (if decide (length c + 1 < length (c ++ n :: p))%nat
     then '(b, sub_hash) ← store_node blake3 s batch (Extension (NibblePath_skip (c ++ n :: p) (length c + 1)) child);
          Ok (b, with_child empty_branch (N.to_nat n) sub_hash)
     else Ok (batch, with_child empty_branch (N.to_nat n) child))
    (λ b br, arm_step s b br (c ++ path) (length c) v) f1 (single path v) _ (Some n) (head path)); [done| |by intros; apply arm_step_post|].
  - rewrite skip_drop, drop_app_add. cbn [drop]. rewrite drop_0, length_app. cbn [length].
    case_decide as E.
    + pose proof (store_node_inv s batch (Extension p child)) as Hs.
      destruct (store_node blake3 s batch (Extension p child)) as [[b sh]|e]; cbn; [|done].
      destruct Hs as (enc & Henc & -> & ->). exists [(enc, Extension p child)].
      split_and!; [done|by apply Forall_singleton|]. exists (Child n (blake3 enc)). split_and!; [done..|].
      intros s' Hx Hn'. split; [done|].
      eapply stored_ext; [apply Hn'; by apply list_elem_of_singleton| |done|by eapply stored_extends|done|done].
      intros ->. cbn in E. lia.
    + exists []. rewrite app_nil_r. split_and!; [done|constructor|]. exists (Child n child). split_and!; [done..|].
      intros s' Hx _. split; [done|]. eapply stored_proper; [by eapply stored_extends|].
      intros r. rewrite Hf1. destruct p; [|cbn in E; lia]. unfold strip, starts_with. cbn. by rewrite bool_decide_true.
  - intros a1 a2 q Ha1 Ha2. apply join_single; [congruence|done|]. intros q' Hq'. unfold f1.
    rewrite (proj2 (strip_None _ _)); [done|]. intros r ->. cbn in Hq'. congruence.
Qed.

Lemma diverges_upd f p v : diverges f → diverges (upd f p v).
Proof.
  intros (q1 & q2 & H1 & H2 & Hne). exists q1, q2. unfold upd. by split_and!; [case_decide..|].
Qed.

Lemma ins_post_proper s batch f g r : ins_post s batch f r → (∀ q, f q = g q) → ins_post s batch g r.
Proof.
  intros Hr He. destruct r as [[batch' h]|]; [|done].
  destruct Hr as (nodes & -> & Hn & Hst). exists nodes. split_and!; [done..|].
  intros s' Hx Hin. eapply stored_proper; [by apply Hst|done].
Qed.

(** Going on after a recursive call. *)
Lemma and_then_post s batch g f r n :
  (∃ x, r = Some x ∧ ins_post s batch g x) →
  (∀ nodes h s' h', encoded nodes → extends s s' → stored s' h g → has s' h' (n h) → stored s' h' f) →
  ∃ x, and_then r (λ '(batch', h), Some (store_node blake3 s batch' (n h))) = Some x ∧ ins_post s batch f x.
Proof.
  intros (x & -> & Hx) H. destruct x as [[batch' h]|e]; cbn; [|by exists (Err e)].
  eexists; split; [done|]. destruct Hx as (nodes & -> & He & Hst).
  apply store_post; [done|]. intros s' h' Hext Hn Hh. eapply H; [done..|by apply Hst|done].
Qed.

(** An extension whose prefix the path leaves. *)
Lemma split_post s batch c q n p child g f v :
  nibbles_ok c → nibbles_ok (n :: p) → nibbles_ok q → head q ≠ Some n → stored s child g → diverges g →
  (∀ q, f q = r ← strip (c ++ n :: p) q; g r) →
  ins_post s batch (upd f (c ++ q) v) (
    '(batch', bh) ← split_extension blake3 s batch (c ++ n :: p) child (c ++ q) v (length c);
    if decide (0 < length c)%nat then store_node blake3 s batch' (Extension c bh) else Ok (batch', bh)).
Proof.
  intros Hc Hnp Hq Hne Hst Hd Hf.
  apply (prefix_post _ _ _ (upd (λ q, r ← strip (n :: p) q; g r) q v)); [done|by apply split_extension_post|..].
  - destruct Hd as (q1 & _ & Hq1 & _). apply (upd_diverges _ _ _ (n :: p ++ q1)); [|by apply not_eq_sym].
    by rewrite (proj2 (strip_Some (n :: p) (n :: p ++ q1) q1)).
  - intros r. rewrite <-upd_strip. unfold upd. case_decide; [done|]. rewrite Hf.
    destruct (strip (c ++ n :: p) r) as [r'|] eqn:Er; cbn.
    + apply strip_Some in Er as ->. rewrite <-app_assoc, (proj2 (strip_Some c _ _)) by done. cbn.
      by rewrite (proj2 (strip_Some (n :: p) (n :: p ++ r') r')).
    + destruct (strip c r) as [r2|] eqn:E2; [|done]. cbn. apply strip_Some in E2 as ->.
      rewrite (proj2 (strip_None _ _)); [done|]. intros r3 ->.
      apply (proj1 (strip_None _ _) Er r3). by rewrite <-app_assoc.
Qed.

(** A branch with one child replaced. *)
Lemma branch_child_stored s s' h cs bv (g : nat → pathmap) f x hc r v :
  length cs = 16%nat → x < 16 → (∀ i c, cs !! i = Some (Some c) → stored s c (g i)) → diverges f →
  (∀ q, f q = branch_fn cs bv g q) → extends s s' → stored s' hc (upd (λ q, f (x :: q)) r v) →
  has s' h (Branch (<[N.to_nat x := Some hc]> cs) bv) → stored s' h (upd f (x :: r) v).
Proof.
  intros Hl Hx Hcs Hd Hf Hext Hc Hh.
  eapply stored_branch_intro; [done|by rewrite length_insert|by apply diverges_upd| |].
  - unfold upd. rewrite decide_False by done. apply Hf.
  - intros y q. rewrite lookup_set_child by done. case_decide as E; [subst y|].
    + eapply stored_proper; [done|]. intros q'. unfold upd. apply decide_ext. naive_solver.
    + assert (∀ q', upd f (x :: r) v (y :: q') = branch_fn cs bv g (y :: q')) as Hupd.
      { intros q'. unfold upd. rewrite decide_False by congruence. apply Hf. }
      cbn in Hupd. destruct (cs !! N.to_nat y) as [[c|]|] eqn:Ec; [|apply Hupd..].
      eapply stored_proper; [eapply stored_extends, Hext; by apply Hcs|]. intros q'. by rewrite Hupd.
Qed.

Lemma insert_recursive_stored s h f :
  stored s h f → ∀ fuel batch path v, (length path < fuel)%nat → nibbles_ok path →
  ∃ r, insert_recursive blake3 fuel s batch (Some h) path v = Some r ∧ ins_post s batch (upd f path v) r.
Proof.
  induction 1 as [h p pv f Hh Hp Hf|h p c g f Hh Hp0 Hp Hst IH Hd Hf|h cs bv g f Hh Hl Hcs IH Hd Hf];
    intros [|fuel] batch path v Hlen Hok; [lia| |lia| |lia|];
    cbn [insert_recursive]; rewrite (has_load _ _ _ Hh).
  - eexists; split; [done|]. by apply insert_at_leaf_post.
  - destruct (common_prefix_split path p) as (c' & q & p' & -> & -> & -> & Hqp).
    rewrite length_app. apply Forall_app in Hok as [_ Hq]. apply Forall_app in Hp as [Hc Hp'].
    case_decide as E.
    + destruct p'; [|cbn in E; lia]. rewrite app_nil_r in *. rewrite skip_drop, drop_app_length.
      eapply and_then_post; [apply IH; [|done]|].
      { rewrite length_app in Hlen. destruct c'; [done|cbn [length] in Hlen; lia]. }
      intros nodes hc s' h' _ Hx Hsc Hh'. eapply stored_ext; [done|done|done|done|by apply diverges_upd|].
      intros r. rewrite <-upd_strip. unfold upd. case_decide; [done|]. apply Hf.
    + eexists; split; [done|]. destruct p' as [|n p']; [cbn in E; lia|].
      rewrite take_take, take_app_length. apply (split_post _ _ _ _ _ _ _ g); [done..| |done|done|done].
      destruct Hqp as [->|[|Hqp]]; [done..|]. exact Hqp.
  - destruct path as [|x r].
    + eexists; split; [done|]. rewrite <-(app_nil_r batch) at 2.
      apply (store_post s batch []); [constructor|]. intros s' h' Hx _ Hh'.
      eapply stored_branch; [done|done|intros; by eapply stored_extends, Hx; eauto|by apply diverges_upd|].
      intros [|y q]; unfold upd; [done|]. rewrite decide_False by done. apply Hf.
    + apply Forall_cons in Hok as [Hx Hr]. rewrite skip_drop. cbn [drop]. rewrite drop_0.
      cbn [length] in Hlen. eapply (and_then_post _ _ (upd (λ q, f (x :: q)) r v));
        [|intros; by eapply branch_child_stored].
      destruct (cs !! N.to_nat x) as [[c|]|] eqn:Ec; cbn [default].
      * destruct (IH _ _ Ec fuel batch r v) as (y & Hy & Hpost); [lia|done|].
        exists y. split; [done|]. eapply ins_post_proper; [done|]. intros q. unfold upd.
        case_decide; [done|]. rewrite Hf. cbn. by rewrite Ec.
      * destruct fuel; [lia|]. eexists; split; [done|].
        eapply ins_post_proper; [by apply store_leaf_post|]. intros q. unfold upd.
        case_decide; [done|]. rewrite Hf. cbn. by rewrite Ec.
      * apply lookup_ge_None in Ec. lia.
Qed.

(** *** Writing the batch *)

(** Two different contents with one digest, the first written by the batch, the
    other written by it too or already in the store. *)
Definition clash s (bs : list bytes) : Prop :=
  ∃ b1 b2, b1 ≠ b2 ∧ Hash_as_bytes (blake3 b1) = Hash_as_bytes (blake3 b2) ∧ b1 ∈ bs ∧
    (b2 ∈ bs ∨ get_cf s CF_TRIE_NODES (Hash_as_bytes (blake3 b2)) = Ok (Some b2)).

Lemma Forall_or_fail {A} (P : A → Prop) (Q : Prop) l : (∀ a, a ∈ l → Q ∨ P a) → Q ∨ Forall P l.
Proof.
  intros H. induction l as [|a l IH]; [by right; constructor|].
  destruct (H a) as [?|Ha]; [set_solver|by left|]. destruct IH as [?|IH]; [set_solver|by left|].
  right. by constructor.
Qed.

(** Either two contents clash, or every key of the batch names one content. *)
Lemma clash_dec s (bs : list bytes) :
  clash s bs ∨
  (Forall (λ b, Forall (λ b0, Hash_as_bytes (blake3 b0) = Hash_as_bytes (blake3 b) → b0 = b) bs) bs ∧
   Forall (λ b, match get_cf s CF_TRIE_NODES (Hash_as_bytes (blake3 b)) with
                | Ok (Some b0) => Hash_as_bytes (blake3 b0) = Hash_as_bytes (blake3 b) → b0 = b
                | _ => True
                end) bs).
Proof.
  match goal with |- _ ∨ Forall ?P bs ∧ Forall ?Q bs =>
    assert (clash s bs ∨ Forall P bs) as [?|H1]; [|by left|];
    [|assert (clash s bs ∨ Forall Q bs) as [?|H2]; [|by left|right; done]]
  end.
  - apply Forall_or_fail. intros b Hb. apply Forall_or_fail. intros b0 Hb0.
    destruct (decide (b0 = b)); [by right|]. destruct (decide (Hash_as_bytes (blake3 b0) = Hash_as_bytes (blake3 b)));
      [|by right]. left. exists b0, b. by eauto.
  - apply Forall_or_fail. intros b Hb. cbn. destruct (get_cf s CF_TRIE_NODES _) as [[b0|]|] eqn:E; [|by right..].
    destruct (decide (b0 = b)); [by right|]. destruct (decide (Hash_as_bytes (blake3 b0) = Hash_as_bytes (blake3 b))) as [Ek|];
      [|by right]. left. exists b, b0. split_and!; [done..|]. right. by rewrite Ek.
Qed.

(** Reading a node key after the batch. *)
Lemma view_puts (bs : list bytes) b r :
  Forall (λ b0, Hash_as_bytes (blake3 b0) = Hash_as_bytes (blake3 b) → b0 = b) bs →
  batch_view CF_TRIE_NODES (Hash_as_bytes (blake3 b)) ((λ b, BPut CF_TRIE_NODES (Hash_as_bytes (blake3 b)) b) <$> bs) r =
    if decide (Exists (λ b0, Hash_as_bytes (blake3 b0) = Hash_as_bytes (blake3 b)) bs) then Ok (Some b) else r.
Proof.
  intros Hbs. revert r. induction Hbs as [|b0 bs Hb0 _ IH]; intros r.
  - rewrite decide_False; [done|]. intros H; inversion H.
  - unfold batch_view in *. cbn [fmap list_fmap foldl]. rewrite IH. cbn [op_view].
    destruct (decide (Exists _ bs)) as [E|E].
    + rewrite decide_True by (by apply Exists_cons; right). done.
    + case_decide as Ek.
      * rewrite decide_True by (apply Exists_cons; left; naive_solver). f_equal. f_equal. naive_solver.
      * rewrite decide_False; [done|]. rewrite Exists_cons. naive_solver.
Qed.

Lemma write_nodes s s' nodes :
  encoded nodes → write_batch s (put_of <$> nodes) = Ok s' →
  clash s nodes.*1 ∨ (extends s s' ∧ (cf_handle s CF_TRIE_NODES = true → nodes_in s' nodes)).
Proof.
  intros He Hw. set (bs := nodes.*1).
  assert (put_of <$> nodes = (λ b, BPut CF_TRIE_NODES (Hash_as_bytes (blake3 b)) b) <$> bs) as Hops.
  { unfold bs. by rewrite <-list_fmap_compose. }
  destruct (clash_dec s bs) as [?|[H1 H2]]; [by left|]. right.
  rewrite Forall_forall in H1, H2.
  assert (∀ b, b ∈ bs → cf_handle s CF_TRIE_NODES = true →
    Db_get s' CF_TRIE_NODES (Hash_as_bytes (blake3 b)) = Ok (Some b)) as Hget.
  { intros b Hb Hh. rewrite (write_batch_get _ _ _ _ _ Hw), Hops, view_puts by (by apply H1).
    rewrite decide_True by (apply Exists_exists; eauto). unfold resolve_cf. by rewrite Hh. }
  split.
  - intros h n (b & Hb & -> & [Hh Hg]%Db_get_Ok). exists b. split_and!; [done..|].
    destruct (decide (Exists (λ b0, Hash_as_bytes (blake3 b0) = Hash_as_bytes (blake3 b)) bs)) as [E|E].
    + apply Exists_exists in E as (b0 & Hb0 & Ek). specialize (H2 b0 Hb0). rewrite Ek, Hg in H2.
      specialize (H2 eq_refl). subst b0. by apply Hget.
    + rewrite (write_batch_other _ _ _ _ _ Hw); [by apply Db_get_Ok|].
      rewrite Hops, <-list_fmap_compose. intros (b0 & Hk & Hb0)%list_elem_of_fmap. apply E, Exists_exists.
      exists b0. split; [done|]. cbn in Hk. congruence.
  - intros Hh b n Hin. unfold encoded in He. rewrite Forall_forall in He. exists b.
    split_and!; [exact (He _ Hin)|done|]. apply Hget; [|done]. apply list_elem_of_fmap. by exists (b, n).
Qed.
End spec.
