(* ===== verification/TrieRoot.v ===== *)
(** * What the trie promises: lookup, insertion, and the root as a commitment

    [Trie_get] and [Trie_insert] of [lemma-storage/src/trie/trie.rs] against
    the map a trie stands for, sequences of insertions, and that the root hash
    is a function of that map alone. *)
From S2P Require Import Prelude CoreTypes Db Trie.

Definition bytes_ok (k : bytes) : Prop := Forall (λ b, b < 256) k.

(** The contents a batch puts into the node column family. *)
Definition node_puts (batch : list BatchOp) : list bytes :=
  omap (λ op, match op with BPut CF_TRIE_NODES _ b => Some b | _ => None end) batch.

Section root.
Context {DB : Type} `{!Rocks DB, !RocksLaws DB} `{!Codec TrieNode, !CodecLaws TrieNode} (blake3 : bytes → Hash).
Implicit Types (s : DB) (f g : NibblePath → option bytes).

Lemma node_puts_put_of nodes : node_puts (put_of blake3 <$> nodes) = nodes.*1.
Proof. induction nodes as [|n nodes IH]; [done|]. cbn. by f_equal. Qed.

Lemma stored_handle s h f : stored blake3 s h f → cf_handle s CF_TRIE_NODES = true.
Proof.
  assert (∀ h n, has blake3 s h n → cf_handle s CF_TRIE_NODES = true) as H.
  { by intros h' n (b & _ & _ & [Hh _]%Db_get_Ok). }
  intros [? ? ? ? Hh|? ? ? ? ? Hh|? ? ? ? ? Hh]; by eapply H.
Qed.

Lemma insert_root s root f batch path v :
  stored_root blake3 s root f → nibbles_ok path →
  ∃ r, insert_recursive blake3 (path_fuel path) s batch root path v = Some r ∧
    ins_post blake3 s batch (upd f path v) r ∧ (∀ x, r = Ok x → cf_handle s CF_TRIE_NODES = true).
Proof.
  intros Hst Hok. unfold path_fuel. destruct root as [h|]; cbn [stored_root] in Hst.
  - edestruct (insert_recursive_stored blake3) as (r & Hr & Hpost); [done|..|exists r; split_and!; [done..|]];
      [lia|done|]. intros. by eapply stored_handle.
  - cbn [insert_recursive]. eexists; split_and!; [done| |].
    + eapply ins_post_proper; [by apply store_leaf_post|]. intros q. unfold upd. case_decide; [done|]. by rewrite Hst.
    + intros x. unfold store_node, batch_put, resolve_cf, TrieNode_hash, crypto_hash.
      destruct (serialize _); [|done]. cbn. by destruct (cf_handle s CF_TRIE_NODES).
Qed.

Lemma Trie_get_stored s root f key :
  stored_root blake3 s root f → Trie_get s root key = Some (Ok (f (NibblePath_from_bytes key))).
Proof.
  unfold Trie_get, path_fuel. destruct root as [h|]; cbn [stored_root].
  - intros Hst. apply (get_recursive_stored blake3); [done|lia].
  - intros Hf. cbn. by rewrite Hf.
Qed.

(** What an insertion leaves: the new root stands for the updated map and every
    node that was stored still is, unless the batch wrote a content whose digest
    another content already has. *)
Definition insert_post s root f key value (r : result StorageError (DB * Hash)) : Prop :=
  match r with
  | Ok (s', h) =>
      ∃ batch, insert_recursive blake3 (path_fuel (NibblePath_from_bytes key)) s new_batch root
          (NibblePath_from_bytes key) value = Some (Ok (batch, h)) ∧ write_batch s batch = Ok s' ∧
        (clash blake3 s (node_puts batch) ∨
         (stored blake3 s' h (upd f (NibblePath_from_bytes key) value) ∧ extends blake3 s s'))
  | Err e => write_error e
  end.

Lemma Trie_insert_post s root f key value :
  stored_root blake3 s root f → bytes_ok key →
  ∃ r, Trie_insert blake3 s root key value = Some r ∧ insert_post s root f key value r.
Proof.
  intros Hst Hk. unfold Trie_insert.
  destruct (insert_root s root f new_batch (NibblePath_from_bytes key) value) as (r & Hr & Hpost & Hh);
    [done|by apply from_bytes_ok|]. rewrite Hr.
  destruct r as [[batch h]|e]; [|by eexists]. cbn [and_then]. eexists; split; [done|].
  destruct Hpost as (nodes & -> & He & Hn). unfold new_batch. cbn [app].
  destruct (write_batch s (put_of blake3 <$> nodes)) as [s'|e] eqn:Hw; cbn.
  - exists (put_of blake3 <$> nodes). split_and!; [done..|]. rewrite node_puts_put_of.
    destruct (write_nodes blake3 s s' nodes) as [?|[Hx Hin]]; [done..|by left|]. right.
    split; [|done]. apply Hn; [done|]. by eapply Hin, Hh.
  - unfold write_batch in Hw. by destruct (rocks_write s _) as [|m]; [|injection Hw as <-].
Qed.

Lemma upd_get f key value key' :
  upd f (NibblePath_from_bytes key) value (NibblePath_from_bytes key')
    = if decide (key' = key) then Some value else f (NibblePath_from_bytes key').
Proof. unfold upd. apply decide_ext. split; [by intros ->%from_bytes_inj|by intros ->]. Qed.

(** C3. Insertion refines the update of the map: from a root that stands for
    [f], [Trie::insert] returns (the fuel of one level per nibble is enough).
    On success [Trie::get] at the new root answers the new value for the key and
    [f] for every other key, and at the old root it still answers [f]; the only
    way out is that the batch it wrote holds a content with the BLAKE3 digest of
    a different content of the batch or of the store.  On failure the error is
    one of encoding, column family or batch write, never a missing node. *)
Theorem Trie_insert_refines s root f key value :
  stored_root blake3 s root f → bytes_ok key →
  ∃ r, Trie_insert blake3 s root key value = Some r ∧
    match r with
    | Ok (s', h) =>
        ∃ batch, insert_recursive blake3 (path_fuel (NibblePath_from_bytes key)) s new_batch root
            (NibblePath_from_bytes key) value = Some (Ok (batch, h)) ∧
          (clash blake3 s (node_puts batch) ∨
           ∀ key', Trie_get s' (Some h) key'
                     = Some (Ok (if decide (key' = key) then Some value else f (NibblePath_from_bytes key')))
                   ∧ Trie_get s' root key' = Some (Ok (f (NibblePath_from_bytes key'))))
    | Err e => write_error e
    end.
Proof.
  intros Hst Hk. destruct (Trie_insert_post s root f key value) as (r & Hr & Hpost); [done..|].
  exists r. split; [done|]. destruct r as [[s' h]|e]; [|done].
  destruct Hpost as (batch & Hb & _ & [?|[Hst' Hx]]); exists batch; [by eauto|]. split; [done|]. right. intros key'. split.
  - rewrite (Trie_get_stored s' (Some h) (upd f (NibblePath_from_bytes key) value)) by done. by rewrite upd_get.
  - apply Trie_get_stored. destruct root as [h0|]; cbn in *; [by eapply stored_extends|done].
Qed.

(** *** The root is a function of the map *)

Lemma has_inj s1 s2 h1 h2 n : has blake3 s1 h1 n → has blake3 s2 h2 n → h1 = h2.
Proof. intros (b1 & H1 & -> & _) (b2 & H2 & -> & _). congruence. Qed.

(** The part of an extension's prefix is the longest common prefix of the keys. *)
Lemma strip_unique f p1 p2 g1 g2 :
  (∀ q, f q = r ← strip p1 q; g1 r) → (∀ q, f q = r ← strip p2 q; g2 r) →
  diverges g1 → diverges g2 → p1 = p2.
Proof.
  assert (∀ p1 p2 g1 g2, (∀ q, f q = r ← strip p1 q; g1 r) → (∀ q, f q = r ← strip p2 q; g2 r) →
    diverges g1 → ∃ k, p1 = p2 ++ k) as Hpre.
  { clear. intros p1 p2 g1 g2 H1 H2 (q1 & q2 & Hq1 & Hq2 & Hne).
    assert (∀ q, is_Some (g1 q) → ∃ r, p1 ++ q = p2 ++ r) as Hk.
    { intros q Hq. specialize (H1 (p1 ++ q)). rewrite (proj2 (strip_Some p1 _ q)) in H1 by done. cbn in H1.
      rewrite <-H1, H2 in Hq. destruct (strip p2 (p1 ++ q)) as [r|] eqn:Er; [|by destruct Hq].
      apply strip_Some in Er. eauto. }
    destruct (Hk _ Hq1) as (r1 & Hr1), (Hk _ Hq2) as (r2 & Hr2).
    destruct (app_eq_inv _ _ _ _ Hr1) as [(k & Hk1 & Hk2)|(k & Hk1 & Hk2)]; [by exists k|].
    destruct k as [|x k]; [exists []; by rewrite Hk1, !app_nil_r|]. exfalso. subst p2 q1.
    rewrite <-app_assoc in Hr2. apply app_inv_head in Hr2. subst q2. done. }
  intros H1 H2 Hd1 Hd2. destruct (Hpre _ _ _ _ H1 H2 Hd1) as (k1 & ->).
  destruct (Hpre _ _ _ _ H2 H1 Hd2) as (k2 & Hk2).
  apply (f_equal length) in Hk2. rewrite !length_app in Hk2.
  destruct k1; [by rewrite app_nil_r|cbn in Hk2; lia].
Qed.

Lemma single_not_diverges f p v : (∀ q, f q = if decide (q = p) then Some v else None) → ¬ diverges f.
Proof.
  intros Hf (q1 & q2 & H1 & H2 & Hne). rewrite Hf in H1, H2.
  case_decide; [|by destruct H1]. case_decide; [|by destruct H2]. subst. done.
Qed.

Lemma ext_not_diverges f p g : p ≠ [] → (∀ q, f q = r ← strip p q; g r) → ¬ diverges f.
Proof.
  intros Hp Hf (q1 & q2 & H1 & H2 & Hne). rewrite Hf in H1, H2.
  destruct (strip p q1) eqn:E1; [|by destruct H1]. destruct (strip p q2) eqn:E2; [|by destruct H2].
  apply strip_Some in E1, E2. subst. destruct p; [done|]. by apply Hne.
Qed.

Lemma ext_not_single f p g p' v :
  diverges g → (∀ q, f q = r ← strip p q; g r) → ¬ (∀ q, f q = if decide (q = p') then Some v else None).
Proof.
  intros (q1 & q2 & H1 & H2 & Hne) Hf Hs.
  assert (∀ q, is_Some (g q) → p ++ q = p') as H.
  { intros q Hq. specialize (Hf (p ++ q)). rewrite (proj2 (strip_Some p _ q)) in Hf by done. cbn in Hf.
    rewrite <-Hf, Hs in Hq. case_decide; [done|by destruct Hq]. }
  apply H in H1, H2. subst. apply app_inv_head in H2. by subst.
Qed.

Lemma stored_unique s1 h1 f1 :
  stored blake3 s1 h1 f1 → ∀ s2 h2 f2, stored blake3 s2 h2 f2 → (∀ q, f1 q = f2 q) → h1 = h2.
Proof.
  induction 1 as [h p v f Hh _ Hf|h p c g f Hh Hp _ Hst IH Hd Hf|h cs v g f Hh Hl Hst IH Hd Hf];
    intros s2 h2 f2 H2 He; destruct H2 as [h2 p2 v2 f2 Hh2 _ Hf2|h2 p2 c2 g2 f2 Hh2 Hp2 _ Hst2 Hd2 Hf2|h2 cs2 v2 g2 f2 Hh2 Hl2 Hst2 Hd2 Hf2].
  - pose proof (He p) as Hep. rewrite Hf, Hf2, decide_True in Hep by done. case_decide; [|done]. simplify_eq.
    by eapply has_inj.
  - exfalso. eapply (ext_not_single f); [exact Hd2|intros q; by rewrite He|exact Hf].
  - exfalso. eapply single_not_diverges; [exact Hf|by eapply diverges_ext; [exact Hd2|]].
  - exfalso. eapply (ext_not_single f); [exact Hd|exact Hf|intros q; by rewrite He].
  - assert (p = p2) as ->. { apply (strip_unique f p p2 g g2); [done|intros q; by rewrite He|done..]. }
    assert (c = c2) as ->; [|by eapply has_inj]. apply (IH _ _ _ Hst2). intros q.
    specialize (He (p2 ++ q)). by rewrite Hf, Hf2, (proj2 (strip_Some p2 _ q)) in He.
  - exfalso. eapply ext_not_diverges; [exact Hp|exact Hf|by eapply diverges_ext; [exact Hd2|]].
  - exfalso. eapply single_not_diverges; [exact Hf2|by eapply diverges_ext].
  - exfalso. eapply ext_not_diverges; [exact Hp2|exact Hf2|by eapply diverges_ext; [exact Hd|]].
  - assert (v = v2) as ->. { specialize (He []). by rewrite Hf, Hf2 in He. }
    assert (cs = cs2) as ->; [|by eapply has_inj]. apply list_eq. intros i.
    assert (∀ r, branch_fn cs v2 g (N.of_nat i :: r) = branch_fn cs2 v2 g2 (N.of_nat i :: r)) as Hi.
    { intros r. by rewrite <-Hf, <-Hf2. }
    cbn in Hi. rewrite Nnat.Nat2N.id in Hi.
    destruct (decide (i < 16)%nat).
    2: { rewrite !(proj2 (lookup_ge_None _ _)) by lia. done. }
    destruct (lookup_lt_is_Some_2 cs i) as [o Ho]; [lia|]. destruct (lookup_lt_is_Some_2 cs2 i) as [o2 Ho2]; [lia|].
    rewrite Ho, Ho2 in *. f_equal. destruct o as [c|], o2 as [c2|]; [|..|done].
    + f_equal. by apply (IH _ _ Ho _ _ _ (Hst2 _ _ Ho2)).
    + destruct (stored_nonempty _ _ _ _ (Hst _ _ Ho)) as [q Hq]. rewrite Hi in Hq. by destruct Hq.
    + destruct (stored_nonempty _ _ _ _ (Hst2 _ _ Ho2)) as [q Hq]. rewrite <-Hi in Hq. by destruct Hq.
Qed.

(** The root commits to the contents and to nothing else: two tries (over
    any two stores) that stand for the same map have the same root hash, however
    they were built. *)
Lemma stored_root_unique s1 s2 r1 r2 f1 f2 :
  stored_root blake3 s1 r1 f1 → stored_root blake3 s2 r2 f2 → (∀ q, f1 q = f2 q) → r1 = r2.
Proof.
  intros H1 H2 He. destruct r1 as [h1|], r2 as [h2|]; cbn in H1, H2; [|..|done].
  - f_equal. by eapply stored_unique.
  - destruct (stored_nonempty _ _ _ _ H1) as [q Hq]. rewrite He, H2 in Hq. by destruct Hq.
  - destruct (stored_nonempty _ _ _ _ H2) as [q Hq]. rewrite <-He, H1 in Hq. by destruct Hq.
Qed.

(** *** Sequences of insertions *)

(** A run of successful insertions in which no batch clashes. *)
Inductive inserts : DB → option Hash → list (bytes * bytes) → DB → option Hash → Prop :=
  | inserts_nil s root : inserts s root [] s root
  | inserts_cons s root k v s1 h kvs s2 root2 batch :
      bytes_ok k →
      insert_recursive blake3 (path_fuel (NibblePath_from_bytes k)) s new_batch root (NibblePath_from_bytes k) v
        = Some (Ok (batch, h)) →
      ¬ clash blake3 s (node_puts batch) →
      Trie_insert blake3 s root k v = Some (Ok (s1, h)) →
      inserts s1 (Some h) kvs s2 root2 →
      inserts s root ((k, v) :: kvs) s2 root2.

Definition last_write (f : NibblePath → option bytes) (kvs : list (bytes * bytes)) : NibblePath → option bytes :=
  foldl (λ f kv, upd f (NibblePath_from_bytes kv.1) kv.2) f kvs.

Lemma inserts_stored s root kvs s' root' :
  inserts s root kvs s' root' → ∀ f, stored_root blake3 s root f → stored_root blake3 s' root' (last_write f kvs).
Proof.
  induction 1 as [s root|s root k v s1 h kvs s2 root2 batch Hk Hr Hc Hi _ IH]; intros f Hst; [done|].
  apply IH. cbn. destruct (Trie_insert_post s root f k v) as (r & Hr' & Hpost); [done..|].
  rewrite Hi in Hr'. injection Hr' as <-. destruct Hpost as (batch' & Hb & _ & [?|[? _]]); [|done].
  rewrite Hr in Hb. by injection Hb as <-.
Qed.

(** The last pair written under a key, or the value before. *)
Fixpoint lookup_last (d : option bytes) (kvs : list (bytes * bytes)) (key : bytes) : option bytes :=
  match kvs with
  | [] => d
  | (k, v) :: kvs => lookup_last (if decide (k = key) then Some v else d) kvs key
  end.

Lemma last_write_lookup f kvs key :
  last_write f kvs (NibblePath_from_bytes key) = lookup_last (f (NibblePath_from_bytes key)) kvs key.
Proof.
  revert f; induction kvs as [|[k v] kvs IH]; intros f; [done|]. cbn [lookup_last].
  change (last_write (upd f (NibblePath_from_bytes k) v) kvs (NibblePath_from_bytes key) =
    lookup_last (if decide (k = key) then Some v else f (NibblePath_from_bytes key)) kvs key).
  rewrite IH, upd_get. f_equal. apply decide_ext. naive_solver.
Qed.

Lemma last_write_image f kvs q : last_write f kvs q = f q ∨ ∃ key, q = NibblePath_from_bytes key.
Proof.
  revert f; induction kvs as [|[k v] kvs IH]; intros f; [by left|].
  change (last_write (upd f (NibblePath_from_bytes k) v) kvs q = f q ∨ ∃ key, q = NibblePath_from_bytes key).
  destruct (IH (upd f (NibblePath_from_bytes k) v)) as [->|?]; [|by right]. cbn. unfold upd.
  case_decide; [right; by exists k|by left].
Qed.

(** Insert/lookup round trip: after any run of insertions from the empty
    trie, [get] of any key returns the value of the last insertion under exactly
    that key, and nothing for a key never inserted (keys of different lengths,
    and keys that are prefixes of each other, included). *)
Theorem inserts_get s kvs s' root' key :
  inserts s None kvs s' root' → Trie_get s' root' key = Some (Ok (lookup_last None kvs key)).
Proof.
  intros H. rewrite (Trie_get_stored s' root' (last_write (λ _, None) kvs)).
  - by rewrite last_write_lookup.
  - by eapply inserts_stored.
Qed.

(** C16. Insertion order does not show in the root: two runs of insertions from
    the empty trie (over any stores), in which no two written nodes have the same
    digest, that leave the same last value under every key end in the same root hash, overwrites and repeated keys included. *)
Theorem inserts_root_order_independent s1 s2 kvs1 kvs2 s1' s2' r1 r2 :
  inserts s1 None kvs1 s1' r1 → inserts s2 None kvs2 s2' r2 →
  (∀ key, lookup_last None kvs1 key = lookup_last None kvs2 key) → r1 = r2.
Proof.
  intros H1 H2 He.
  eapply stored_root_unique; [by apply (inserts_stored _ _ _ _ _ H1 (λ _, None))|
    by apply (inserts_stored _ _ _ _ _ H2 (λ _, None))|]. intros q.
  assert (∀ key, last_write (λ _, None) kvs1 (NibblePath_from_bytes key) = last_write (λ _, None) kvs2 (NibblePath_from_bytes key))
    as Hk by (intros key; by rewrite !last_write_lookup).
  destruct (last_write_image (λ _, None) kvs1 q) as [H|[key ->]]; [|done].
  destruct (last_write_image (λ _, None) kvs2 q) as [H'|[key ->]]; [|done]. congruence.
Qed.
End root.
