(* ===== verification/TrieProof.v ===== *)
(** * Merkle proofs ([lemma-storage/src/trie/proof.rs], [generate_proof] of [trie.rs])

    Generation and offline verification of inclusion and non-inclusion proofs:
    a generated proof verifies, a verified non-inclusion proof is sound, and a
    verified inclusion proof is sound when the extensions it passes match the
    key, which the code does not test. *)
From S2P Require Import Prelude CoreTypes Db Trie TrieRoot.

Inductive ProofNode :=
  | PBranch (children : list (option Hash)) (value : option bytes)
  | PExtension (prefix : NibblePath) (child : Hash)
  | PLeaf (path : NibblePath) (value : bytes).

Record MerkleProof := {
  mp_key : bytes;
  mp_value : option bytes;
  mp_nodes : list ProofNode;
}.

Definition as_trie_node (self : ProofNode) : TrieNode :=
  match self with
  | PBranch children value => Branch children value
  | PExtension prefix child => Extension prefix child
  | PLeaf path value => Leaf path value
  end.

Section proof.
Context {DB : Type} `{!Rocks DB} `{!Codec TrieNode} (blake3 : bytes → Hash).

Definition ProofNode_hash (self : ProofNode) : result StorageError Hash := TrieNode_hash blake3 (as_trie_node self).

(** *** Generation *)

Fixpoint collect_proof (fuel : nat) (s : DB) (node_hash : Hash) (path : NibblePath) (out : list ProofNode)
    : option (result StorageError (list ProofNode * option bytes)) :=
  match fuel with
  | O => None
  | S fuel' =>
      match load_node s node_hash with
      | Err e => Some (Err e)
      | Ok (Leaf leaf_path leaf_val) =>
          Some (Ok (out ++ [PLeaf leaf_path leaf_val], if decide (leaf_path = path) then Some leaf_val else None))
      | Ok (Extension prefix child) =>
          let out := out ++ [PExtension prefix child] in
          if starts_with path prefix
          then collect_proof fuel' s child (NibblePath_skip path (length prefix)) out
          else Some (Ok (out, None))
      | Ok (Branch children branch_val) =>
          let out := out ++ [PBranch children branch_val] in
          match path with
          | [] => Some (Ok (out, branch_val))
          | nibble :: _ =>
              match default None (children !! N.to_nat nibble) with
              | Some child_hash => collect_proof fuel' s child_hash (NibblePath_skip path 1) out
              | None => Some (Ok (out, None))
              end
          end
      end
  end.

Definition generate_proof (s : DB) (root : option Hash) (key : bytes) : option (result StorageError MerkleProof) :=
  match root with
  | None => Some (Err (InvalidProof key))
  | Some root =>
      let path := NibblePath_from_bytes key in
      and_then (collect_proof (path_fuel path) s root path [])
        (λ '(nodes, value), Some (Ok {| mp_key := key; mp_value := value; mp_nodes := nodes |}))
  end.

(** *** Verification *)

(** Nibbles a node consumes before its child. *)
Definition node_advance (node : ProofNode) : nat :=
  match node with PBranch _ _ => 1 | PExtension prefix _ => length prefix | PLeaf _ _ => 0 end.

Definition depths_step (acc : list nat * list Hash * nat) (node : ProofNode)
    : result StorageError (list nat * list Hash * nat) :=
  let '(depths, hashes, d) := acc in
  h ← ProofNode_hash node;
  Ok (depths ++ [d], hashes ++ [h], d + node_advance node)%nat.

Definition compute_depths_and_hashes (nodes : list ProofNode) : result StorageError (list nat * list Hash) :=
  '(depths, hashes, _) ← try_fold depths_step ([], [], 0%nat) nodes;
  Ok (depths, hashes).

Definition verify_child_linkage (parent : ProofNode) (expected_child_hash : Hash) (path : NibblePath) (depth : nat)
    (key_hex : bytes) : result StorageError () :=
  match parent with
  | PBranch children _ =>
      nibble ← ok_or (InvalidProof key_hex) (path !! depth);
      actual ← ok_or (InvalidProof key_hex) (default None (children !! N.to_nat nibble));
      if actual =? expected_child_hash then Ok () else Err (InvalidProof key_hex)
  | PExtension _ child =>
      if child =? expected_child_hash then Ok () else Err (InvalidProof key_hex)
  | PLeaf _ _ => Err (InvalidProof key_hex)
  end.

Definition verify_terminal_node (nodes : list ProofNode) (value : option bytes) (full_path : NibblePath)
    (terminal_depth : nat) (key_hex : bytes) : result StorageError () :=
  last_node ← ok_or (InvalidProof key_hex) (last nodes);
  let remaining := NibblePath_skip full_path terminal_depth in
  match last_node, value with
  | PLeaf leaf_path leaf_val, Some claimed =>
      if bool_decide (leaf_path ≠ remaining ∨ leaf_val ≠ claimed) then Err (InvalidProof key_hex) else Ok ()
  | PBranch _ (Some branch_val), Some claimed =>
      if bool_decide (remaining ≠ []) then Err (InvalidProof key_hex) else
      if bool_decide (branch_val ≠ claimed) then Err (InvalidProof key_hex) else Ok ()
  | PLeaf leaf_path _, None =>
      if bool_decide (leaf_path = remaining) then Err (InvalidProof key_hex) else Ok ()
  | PBranch children branch_val, None =>
      match remaining with
      | [] => if bool_decide (is_Some branch_val) then Err (InvalidProof key_hex) else Ok ()
      | nibble :: _ =>
          if bool_decide (is_Some (default None (children !! N.to_nat nibble)))
          then Err (InvalidProof key_hex) else Ok ()
      end
  | PExtension prefix _, None =>
      if starts_with remaining prefix then Err (InvalidProof key_hex) else Ok ()
  | _, _ => Err (InvalidProof key_hex)
  end.

(** The loop pairs [nodes[i]] and [depths[i]] with [hashes[i + 1]]; [hashes] and
    [depths] have one entry per node, so the defaults are not used. *)
Definition verify (self : MerkleProof) (expected_root : Hash) : result StorageError () :=
  let key_hex := mp_key self in
  match mp_nodes self with
  | [] => Err (InvalidProof key_hex)
  | nodes =>
      let full_path := NibblePath_from_bytes (mp_key self) in
      '(depths, hashes) ← compute_depths_and_hashes nodes;
      _ ← try_fold (λ _ '(node, depth, child_hash), verify_child_linkage node child_hash full_path depth key_hex)
            () (zip (zip nodes depths) (tail hashes));
      let root_hash := default 0 (head hashes) in
      if negb (root_hash =? expected_root) then Err (TrieRootMismatch expected_root root_hash) else
      verify_terminal_node nodes (mp_value self) full_path (default 0%nat (last depths)) key_hex
  end.
End proof.

(** ** Completeness and soundness *)

Section theorems.
Context {DB : Type} `{!Rocks DB, !RocksLaws DB} `{!Codec TrieNode, !CodecLaws TrieNode} (blake3 : bytes → Hash).
Implicit Types (s : DB) (f g : NibblePath → option bytes).

(** A chain of nodes from depth [d] down: every node but the last links to the
    next one, and the last decides the claim. *)
Fixpoint chain (key : bytes) (path : NibblePath) (value : option bytes) (d : nat) (n : ProofNode) (nodes : list ProofNode)
    : result StorageError () :=
  match nodes with
  | [] => verify_terminal_node [n] value path d key
  | n' :: nodes =>
      h ← ProofNode_hash blake3 n';
      _ ← verify_child_linkage n h path d key;
      chain key path value (d + node_advance n) n' nodes
  end.

Lemma depths_step_eq depths hashes d n :
  depths_step blake3 (depths, hashes, d) n =
    (h ← ProofNode_hash blake3 n; Ok (depths ++ [d], hashes ++ [h], d + node_advance n)%nat).
Proof. done. Qed.

Lemma depths_acc nodes depths0 hashes0 d :
  try_fold (depths_step blake3) (depths0, hashes0, d) nodes =
    ('(depths, hashes, d') ← try_fold (depths_step blake3) ([], [], d) nodes;
     Ok (depths0 ++ depths, hashes0 ++ hashes, d')).
Proof.
  revert depths0 hashes0 d. induction nodes as [|n nodes IH]; intros depths0 hashes0 d; cbn [try_fold].
  - cbn. by rewrite !app_nil_r.
  - rewrite !depths_step_eq. destruct (ProofNode_hash blake3 n) as [h|e]; [|done]. cbn.
    rewrite IH, (IH [d] [h]). destruct (try_fold _ _ nodes) as [[[depths hashes] d']|e]; [|done]. cbn.
    by rewrite <-!app_assoc.
Qed.

Lemma depths_cons n nodes d :
  try_fold (depths_step blake3) ([], [], d) (n :: nodes) =
    (h ← ProofNode_hash blake3 n;
     '(depths, hashes, d') ← try_fold (depths_step blake3) ([], [], d + node_advance n)%nat nodes;
     Ok (d :: depths, h :: hashes, d')).
Proof.
  cbn [try_fold]. rewrite depths_step_eq. destruct (ProofNode_hash blake3 n) as [h|e]; [|done]. cbn.
  by rewrite depths_acc.
Qed.

Definition link_step (key : bytes) (path : NibblePath) : () → ProofNode * nat * Hash → result StorageError () :=
  λ _ '(node, depth, child_hash), verify_child_linkage node child_hash path depth key.

Lemma verify_chain_from key path value nodes n d h :
  (∃ ds hs d', try_fold (depths_step blake3) ([], [], d) (n :: nodes) = Ok (ds, hs, d') ∧
     try_fold (link_step key path) () (zip (zip (n :: nodes) ds) (tail hs)) = Ok () ∧ head hs = Some h ∧
     verify_terminal_node (n :: nodes) value path (default 0%nat (last ds)) key = Ok ())
  ↔ ProofNode_hash blake3 n = Ok h ∧ chain key path value d n nodes = Ok ().
Proof.
  revert n d h. induction nodes as [|n' nodes IH]; intros n d h; rewrite depths_cons.
  - cbn [chain try_fold]. destruct (ProofNode_hash blake3 n) as [h'|e]; cbn; naive_solver.
  - cbn [chain]. destruct (ProofNode_hash blake3 n) as [h0|e];
      [|split; [by intros (? & ? & ? & [=] & _)|by intros [[=] _]]]. cbn [mbind result_bind]. split.
    + intros (ds & hs & d' & Heq & Hl & Hh & Ht). apply bind_Ok in Heq as ([[ds' hs'] d''] & Hf & [= <- <- <-]).
      cbn in Hh. injection Hh as <-. split; [done|].
      pose proof Hf as Hf0. rewrite depths_cons in Hf0. apply bind_Ok in Hf0 as (h' & Hh' & Hf0).
      apply bind_Ok in Hf0 as ([[ds2 hs2] d2] & _ & [= <- <- <-]).
      cbn in Hl. apply bind_Ok in Hl as ([] & Hl1 & Hl2).
      apply bind_Ok. exists h'. split; [done|]. apply bind_Ok. exists (). split; [done|]. apply (IH n' _ h').
      exists (d + node_advance n :: ds2)%nat, (h' :: hs2), d2. split_and!; [done..|].
      by rewrite last_cons_cons in Ht.
    + intros ([= ->] & Hc). apply bind_Ok in Hc as (h' & Hh' & Hc). apply bind_Ok in Hc as ([] & Hl & Hc).
      destruct (proj2 (IH n' (d + node_advance n)%nat h') (conj Hh' Hc)) as (ds & hs & d' & Hf & Hl' & Hh & Ht).
      rewrite Hf. exists (d :: ds), (h :: hs), d'. split_and!; [done| |done|].
      * destruct hs as [|h2 hs]; [done|]. cbn in Hh. injection Hh as ->. cbn. by rewrite Hl.
      * destruct ds as [|d0 ds]; [|by rewrite last_cons_cons].
        rewrite depths_cons, Hh' in Hf. apply bind_Ok in Hf as (? & _ & Hf).
        by apply bind_Ok in Hf as ([[? ?] ?] & _ & [=]).
Qed.

Lemma verify_chain proof root :
  verify blake3 proof root = Ok () ↔
  ∃ n nodes, mp_nodes proof = n :: nodes ∧ ProofNode_hash blake3 n = Ok root ∧
    chain (mp_key proof) (NibblePath_from_bytes (mp_key proof)) (mp_value proof) 0 n nodes = Ok ().
Proof.
  unfold verify. destruct (mp_nodes proof) as [|n nodes]; [naive_solver|].
  unfold compute_depths_and_hashes. fold (link_step (mp_key proof) (NibblePath_from_bytes (mp_key proof))).
  split.
  - intros H. exists n, nodes. split; [done|]. apply verify_chain_from.
    apply bind_Ok in H as ([ds hs] & H1 & H). apply bind_Ok in H1 as ([[ds' hs'] d'] & H1 & [= -> ->]).
    apply bind_Ok in H as ([] & H2 & H). exists ds, hs, d'. split_and!; [done..| |].
    + destruct (default 0 (head hs) =? root) eqn:E; [|done]. apply N.eqb_eq in E. subst root.
      destruct hs; [|done]. rewrite depths_cons in H1. apply bind_Ok in H1 as (? & _ & H1).
      by apply bind_Ok in H1 as ([[? ?] ?] & _ & [=]).
    + by destruct (default 0 (head hs) =? root).
  - intros (n' & nodes' & [= <- <-] & Hc). apply verify_chain_from in Hc as (ds & hs & d' & H1 & H2 & H3 & H4).
    rewrite H1. cbn [mbind result_bind]. rewrite H2, H3. cbn [mbind result_bind default]. by rewrite N.eqb_refl.
Qed.

(** *** Completeness *)

Definition proof_node (n : TrieNode) : ProofNode :=
  match n with
  | Branch children value => PBranch children value
  | Extension prefix child => PExtension prefix child
  | Leaf path value => PLeaf path value
  end.

Lemma has_hash s h n : has blake3 s h n → ProofNode_hash blake3 (proof_node n) = Ok h.
Proof.
  intros (b & Hb & -> & _). unfold ProofNode_hash, TrieNode_hash, crypto_hash.
  assert (as_trie_node (proof_node n) = n) as -> by (by destruct n). by rewrite Hb.
Qed.

Lemma skip_pre (pre path : NibblePath) : NibblePath_skip (pre ++ path) (length pre) = path.
Proof. by rewrite skip_drop, drop_app_length. Qed.

Lemma lookup_pre (pre path : NibblePath) : (pre ++ path) !! length pre = head path.
Proof. rewrite lookup_app_r, Nat.sub_diag by lia. by destruct path. Qed.

(** The walk collects a chain and returns what the map has at the path. *)
Definition collected s (key : bytes) (pre path : NibblePath) (h : Hash) (out : list ProofNode) (v : option bytes)
    (r : option (result StorageError (list ProofNode * option bytes))) : Prop :=
  ∃ n nodes, r = Some (Ok (out ++ n :: nodes, v)) ∧ ProofNode_hash blake3 n = Ok h ∧
    chain key (pre ++ path) v (length pre) n nodes = Ok ().

(** The node the walk passes, then the rest of the chain. *)
Lemma collected_cons s key pre a path h n c out v r :
  ProofNode_hash blake3 n = Ok h → node_advance n = length a →
  verify_child_linkage n c (pre ++ a ++ path) (length pre) key = Ok () →
  collected s key (pre ++ a) path c (out ++ [n]) v r → collected s key pre (a ++ path) h out v r.
Proof.
  intros Hh Ha Hl (n' & nodes & -> & Hh' & Hc). exists n, (n' :: nodes). split_and!.
  - by rewrite <-app_assoc.
  - done.
  - cbn [chain]. rewrite Hh'. cbn. rewrite Hl. cbn. by rewrite Ha, app_assoc, <-length_app.
Qed.

Lemma collected_last s key pre path h n out v :
  ProofNode_hash blake3 n = Ok h → verify_terminal_node [n] v (pre ++ path) (length pre) key = Ok () →
  collected s key pre path h out v (Some (Ok (out ++ [n], v))).
Proof. intros Hh Ht. by exists n, []. Qed.

Lemma collect_proof_collected s h f :
  stored blake3 s h f → ∀ fuel key pre path out, (length path < fuel)%nat →
  collected s key pre path h out (f path) (collect_proof fuel s h path out).
Proof.
  induction 1 as [h p v f Hh _ Hf|h p c g f Hh Hp _ _ IH _ Hf|h cs v g f Hh Hl _ IH _ Hf];
    intros [|fuel] key pre path out Hlen; [lia| |lia| |lia|];
    cbn [collect_proof]; rewrite (has_load _ _ _ _ Hh), Hf; apply has_hash in Hh; cbn [proof_node] in Hh.
  - rewrite (decide_ext (path = p) (p = path)) by naive_solver.
    apply collected_last; [done|]. unfold verify_terminal_node. cbn. rewrite skip_pre.
    case_decide as E; by rewrite bool_decide_false by naive_solver.
  - unfold strip. destruct (starts_with path p) eqn:E; cbn [mbind option_bind].
    + apply starts_with_true in E. remember (drop (length p) path) as q. subst path.
      rewrite skip_pre. eapply collected_cons; [done|done|cbn; by rewrite N.eqb_refl|].
      apply IH. rewrite length_app in Hlen. destruct p; [done|cbn in Hlen; lia].
    + apply collected_last; [done|]. unfold verify_terminal_node. cbn. by rewrite skip_pre, E.
  - destruct path as [|x r]; cbn [branch_fn].
    + apply collected_last; [done|]. unfold verify_terminal_node. cbn. rewrite skip_pre.
      destruct v; [by rewrite !bool_decide_false by (intros Hn; by apply Hn)|done].
    + rewrite skip_drop. cbn [drop]. rewrite drop_0.
      assert (∀ o, cs !! N.to_nat x = o → default None o = None →
        collected s key pre (x :: r) h out None (Some (Ok (out ++ [PBranch cs v], None)))) as Hnone.
      { intros o Ho Hd. apply collected_last; [done|]. unfold verify_terminal_node. cbn. rewrite skip_pre, Ho, Hd.
        destruct v; by rewrite bool_decide_false by (by intros []). }
      destruct (cs !! N.to_nat x) as [[c|]|] eqn:Ec; cbn [default]; [|by apply (Hnone _ eq_refl)..].
      apply (collected_cons s key pre [x] r h (PBranch cs v) c); [done|done| |].
      * cbn [verify_child_linkage]. rewrite lookup_pre. cbn. rewrite Ec. cbn. by rewrite N.eqb_refl.
      * apply IH; [done|]. cbn in Hlen. lia.
Qed.

Lemma generate_proof_ok s root f key :
  stored blake3 s root f →
  ∃ proof, generate_proof s (Some root) key = Some (Ok proof) ∧ mp_key proof = key ∧
    mp_value proof = f (NibblePath_from_bytes key) ∧ verify blake3 proof root = Ok ().
Proof.
  intros Hst. cbn [generate_proof].
  destruct (collect_proof_collected s root f Hst (path_fuel (NibblePath_from_bytes key)) key []
    (NibblePath_from_bytes key) []) as (n & nodes & -> & Hh & Hc); [unfold path_fuel; lia|].
  eexists; split_and!; [done..|]. apply verify_chain. by exists n, nodes.
Qed.

(** C17. Proof completeness: for a non-empty trie reached by insertions,
    [generate_proof] returns a proof for every key; its claimed value is that of
    the last insertion under the key (an inclusion proof when the key is present
    and a non-inclusion proof when it is absent), and the proof verifies against
    the trie's root. *)
Theorem generate_proof_verifies s kvs s' root key :
  inserts blake3 s None kvs s' (Some root) →
  ∃ proof, generate_proof s' (Some root) key = Some (Ok proof) ∧ mp_key proof = key ∧
    mp_value proof = lookup_last None kvs key ∧ verify blake3 proof root = Ok ().
Proof.
  intros Hi. pose proof (inserts_stored blake3 _ _ _ _ _ Hi (λ _, None) (λ _, eq_refl)) as Hst. cbn in Hst.
  destruct (generate_proof_ok _ _ _ key Hst) as (proof & ? & ? & Hv & ?).
  exists proof. by rewrite <-(last_write_lookup blake3 (λ _, None)).
Qed.

(** *** Soundness *)

(** A node of the proof has the digest of a different content of the store. *)
Definition proof_clash s (nodes : list ProofNode) : Prop :=
  ∃ n b1 b2, n ∈ nodes ∧ serialize (as_trie_node n) = Ok b1 ∧ b1 ≠ b2 ∧ blake3 b1 = blake3 b2 ∧
    Db_get s CF_TRIE_NODES (Hash_as_bytes (blake3 b2)) = Ok (Some b2).

(** Every extension the proof passes through (all nodes but the last) matches
    the key's path at its depth. *)
Fixpoint exts_match (path : NibblePath) (nodes : list ProofNode) : bool :=
  match nodes with
  | n :: ((_ :: _) as rest) =>
      (match n with PExtension prefix _ => starts_with path prefix | _ => true end)
      && exts_match (drop (node_advance n) path) rest
  | _ => true
  end.

Definition claim_holds f (path : NibblePath) (value : option bytes) (nodes : list ProofNode) : Prop :=
  match value with
  | None => f path = None
  | Some v => exts_match path nodes = true → f path = Some v
  end.

Lemma has_proof_node s h node n nodes :
  has blake3 s h node → ProofNode_hash blake3 n = Ok h → proof_clash s (n :: nodes) ∨ n = proof_node node.
Proof.
  intros (b2 & Hb2 & -> & Hg) Hn. unfold ProofNode_hash, TrieNode_hash, crypto_hash in Hn.
  destruct (serialize (as_trie_node n)) as [b1|] eqn:Hb1; [|done]. cbn in Hn. unfold hash_bytes in Hn.
  injection Hn as Hn. destruct (decide (b1 = b2)) as [->|Hne].
  - right. apply deserialize_serialize in Hb1, Hb2. rewrite Hb1 in Hb2. injection Hb2 as Hb2. subst node. by destruct n.
  - left. exists n, b1, b2. split_and!; [set_solver|done..].
Qed.

Lemma proof_clash_cons s n nodes : proof_clash s nodes → proof_clash s (n :: nodes).
Proof. intros (n' & b1 & b2 & ? & ?). exists n', b1, b2. split; [set_solver|done]. Qed.

Lemma chain_sound s h f :
  stored blake3 s h f → ∀ key value pre path n nodes,
  ProofNode_hash blake3 n = Ok h → chain key (pre ++ path) value (length pre) n nodes = Ok () →
  proof_clash s (n :: nodes) ∨ claim_holds f path value (n :: nodes).
Proof.
  induction 1 as [h p v f Hh _ Hf|h p c g f Hh Hp _ _ IH _ Hf|h cs v g f Hh Hl _ IH _ Hf];
    intros key value pre path n nodes Hn Hc;
    (destruct (has_proof_node _ _ _ _ nodes Hh Hn) as [?|Hnode]; [by left|]); subst n; clear Hn;
    cbn [proof_node] in *; destruct nodes as [|n' nodes]; cbn [chain] in Hc.
  2,4,6: apply bind_Ok in Hc as (h' & Hn' & Hc); apply bind_Ok in Hc as ([] & Hl' & Hc); cbn [verify_child_linkage] in Hl'.
  - right. unfold verify_terminal_node in Hc. cbn in Hc. rewrite skip_pre in Hc. unfold claim_holds.
    rewrite Hf. destruct value as [v'|]; case_bool_decide as E; [done| |done|].
    + intros _. rewrite decide_True by (destruct (decide (p = path)); naive_solver).
      f_equal. destruct (decide (v = v')); naive_solver.
    + rewrite decide_False; [done|]. naive_solver.
  - done.
  - destruct (N.eqb_spec c h') as [<-|]; [|done]. cbn [node_advance] in Hc.
    unfold claim_holds. cbn [exts_match node_advance]. rewrite Hf. unfold strip.
    destruct (starts_with path p) eqn:E; cbn [mbind option_bind andb]; [|right; by destruct value].
    apply starts_with_true in E. remember (drop (length p) path) as q. subst path.
    rewrite app_assoc, <-length_app in Hc. rewrite Heqq in *.
    destruct (IH _ _ _ _ _ _ Hn' Hc) as [?|Hcl]; [left; by apply proof_clash_cons|right]. exact Hcl.
  - rewrite lookup_pre in Hl'. destruct path as [|x r]; [done|]. cbn in Hl'.
    destruct (cs !! N.to_nat x) as [[c|]|] eqn:Ec; [|done..]. cbn in Hl'.
    destruct (N.eqb_spec c h') as [<-|]; [|done]. cbn [node_advance] in Hc.
    replace (pre ++ x :: r) with ((pre ++ [x]) ++ r) in Hc by (by rewrite <-app_assoc).
    replace (length pre + 1)%nat with (length (pre ++ [x])) in Hc by (by rewrite length_app).
    destruct (IH _ _ Ec _ _ _ _ _ _ Hn' Hc) as [?|Hcl]; [left; by apply proof_clash_cons|right].
    unfold claim_holds in *. cbn [exts_match node_advance andb drop]. rewrite drop_0, Hf. cbn [branch_fn]. by rewrite Ec.
  - right. unfold verify_terminal_node in Hc. cbn in Hc. rewrite skip_pre in Hc.
    destruct value as [v'|]; [done|]. unfold claim_holds. rewrite Hf. unfold strip. by destruct (starts_with path p).
  - right. unfold verify_terminal_node in Hc. cbn in Hc. rewrite skip_pre in Hc. unfold claim_holds. rewrite Hf.
    destruct path as [|x r]; cbn [branch_fn].
    + destruct v as [bv|], value as [v'|]; try done. rewrite bool_decide_false in Hc by (intros Hn; by apply Hn).
      case_bool_decide as E; [done|]. intros _. f_equal. destruct (decide (bv = v')); naive_solver.
    + destruct value as [v'|]; [destruct v; [by rewrite bool_decide_true in Hc|done]|].
      destruct (cs !! N.to_nat x) as [[c|]|]; [|done..]. cbn in Hc. by destruct v.
Qed.

(** C18. Proof soundness: a proof that [verify] accepts against the root of a
    trie that stands for [f] tells the truth, unless one of its nodes has the
    digest of a different stored content.  A non-inclusion claim is always true;
    an inclusion claim is true when every extension the proof passes through
    matches the key, a condition [verify_child_linkage] does not test. *)
Theorem verify_sound s root f proof :
  stored blake3 s root f → verify blake3 proof root = Ok () →
  proof_clash s (mp_nodes proof) ∨
  match mp_value proof with
  | None => f (NibblePath_from_bytes (mp_key proof)) = None
  | Some v => exts_match (NibblePath_from_bytes (mp_key proof)) (mp_nodes proof) = true →
              f (NibblePath_from_bytes (mp_key proof)) = Some v
  end.
Proof.
  intros Hst (n & nodes & -> & Hn & Hc)%verify_chain.
  exact (chain_sound s root f Hst _ _ [] _ _ _ Hn Hc).
Qed.

(** *** The gap in [verify_child_linkage] *)

Lemma drop_more (p p' : NibblePath) d n : drop d p = drop d p' → drop (d + n) p = drop (d + n) p'.
Proof. intros H. by rewrite <-!drop_drop, H. Qed.

Lemma terminal_suffix nodes value p p' d k k' :
  drop d p = drop d p' → verify_terminal_node nodes value p d k = Ok () → verify_terminal_node nodes value p' d k' = Ok ().
Proof.
  intros Hd. unfold verify_terminal_node. rewrite !skip_drop, Hd. destruct (last nodes) as [n|]; cbn; [|done].
  repeat case_match; done.
Qed.

(** The walk below depth [d] reads the key only from [d] on. *)
Lemma chain_suffix nodes value k k' p p' d n :
  drop d p = drop d p' → chain k p value d n nodes = Ok () → chain k' p' value d n nodes = Ok ().
Proof.
  revert n d. induction nodes as [|n' nodes IH]; intros n d Hd; cbn [chain]; [by apply terminal_suffix|].
  rewrite !bind_Ok. intros (h & Hh & Hc). apply bind_Ok in Hc as ([] & Hl & Hc).
  exists h. split; [done|]. apply bind_Ok. exists (). split; [|by eapply IH; [by apply drop_more|]].
  destruct n as [cs v|q c|q v]; cbn [verify_child_linkage] in *; [|by destruct (c =? h)|done].
  assert (p !! d = p' !! d) as Hpd.
  { pose proof (lookup_drop p d 0) as H1. pose proof (lookup_drop p' d 0) as H2.
    rewrite Nat.add_0_r in H1, H2. by rewrite <-H1, <-H2, Hd. }
  rewrite <-Hpd. destruct (p !! d) as [x|]; [|done]. cbn in *.
  destruct (default None (cs !! N.to_nat x)) as [c|]; [|done]. cbn in *. by destruct (c =? h).
Qed.

(** C19. A forged inclusion proof is accepted: when an accepted proof starts with
    an extension node and goes on below it, the same nodes and value are
    accepted for every key whose nibbles agree after the extension's prefix,
    whatever they are inside the prefix, because [verify_child_linkage] checks
    the child hash of an extension and not that the key follows its prefix. *)
Theorem forged_key_accepted proof root prefix child n rest key' :
  verify blake3 proof root = Ok () → mp_nodes proof = PExtension prefix child :: n :: rest →
  drop (length prefix) (NibblePath_from_bytes key') = drop (length prefix) (NibblePath_from_bytes (mp_key proof)) →
  verify blake3 {| mp_key := key'; mp_value := mp_value proof; mp_nodes := mp_nodes proof |} root = Ok ().
Proof.
  intros (n0 & nodes & Hn & Hh & Hc)%verify_chain Hnodes Hd. rewrite Hnodes in Hn. injection Hn as <- <-.
  apply verify_chain. exists (PExtension prefix child), (n :: rest). split_and!; [done..|]. cbn [mp_key mp_value].
  cbn [chain] in *. apply bind_Ok in Hc as (h & Hh' & Hc). apply bind_Ok in Hc as ([] & Hl & Hc).
  rewrite Hh'. cbn in *. destruct (child =? h); [|done]. cbn. by eapply chain_suffix; [|exact Hc].
Qed.
End theorems.
