(* ===== verification/TrieExamples.v ===== *)
(** * Concrete tries

    A codec and a digest that run, for evaluating the storage model on concrete
    keys.  The codec writes a tag, lengths and contents; the digest is a
    polynomial modulo [2^32], written twice so that the part that becomes an
    address is not constant. *)
From S2P Require Import Prelude CoreTypes Db Trie TrieRoot TrieProof.

Definition poly_fold (b : bytes) : N := foldl (λ acc x, N.land (acc * 33 + x + 1) 4294967295) 7 b.
Definition poly_digest (b : bytes) : Hash := let v := poly_fold b in v + N.shiftl v 96.

Definition enc_opt (o : option Hash) : bytes := match o with None => [0] | Some h => [1; h] end.

Definition enc_node (n : TrieNode) : bytes :=
  match n with
  | Branch cs v =>
      0 :: (match v with None => [0] | Some v => 1 :: N.of_nat (length v) :: v end) ++ mjoin (enc_opt <$> cs)
  | Extension p c => 1 :: c :: p
  | Leaf p v => 2 :: N.of_nat (length p) :: p ++ v
  end.

Fixpoint dec_opts (b : bytes) : list (option Hash) :=
  match b with
  | 0 :: b => None :: dec_opts b
  | _ :: h :: b => Some h :: dec_opts b
  | _ => []
  end.

Definition dec_node (b : bytes) : result string TrieNode :=
  match b with
  | 0 :: 0 :: b => Ok (Branch (dec_opts b) None)
  | 0 :: _ :: n :: b => Ok (Branch (dec_opts (drop (N.to_nat n) b)) (Some (take (N.to_nat n) b)))
  | 1 :: c :: p => Ok (Extension p c)
  | 2 :: n :: b => Ok (Leaf (take (N.to_nat n) b) (drop (N.to_nat n) b))
  | _ => Err "tag"%string
  end.

#[export] Instance node_codec : Codec TrieNode := {| serialize n := Ok (enc_node n); deserialize := dec_node |}.

Lemma dec_enc_opts cs : dec_opts (mjoin (enc_opt <$> cs)) = cs.
Proof. induction cs as [|[h|] cs IH]; [done|..]; cbn; f_equal; exact IH. Qed.

#[export] Instance node_codec_laws : CodecLaws TrieNode.
Proof.
  intros n b [= <-]. cbn. destruct n as [cs [v|]|p c|p v]; cbn [enc_node dec_node app].
  - rewrite Nnat.Nat2N.id, drop_app_length, take_app_length. by rewrite dec_enc_opts.
  - by rewrite dec_enc_opts.
  - done.
  - by rewrite Nnat.Nat2N.id, drop_app_length, take_app_length.
Qed.

Definition db0 : MemDb := {| mem := ∅ |}.

(** Insertions one after another. *)
Fixpoint trie_insert_all (s : MemDb) (root : option Hash) (kvs : list (bytes * bytes)) : option (MemDb * option Hash) :=
  match kvs with
  | [] => Some (s, root)
  | (k, v) :: kvs =>
      match Trie_insert poly_digest s root k v with
      | Some (Ok (s', h)) => trie_insert_all s' (Some h) kvs
      | _ => None
      end
  end.

(** Two keys that differ in the last nibble, below an extension of three. *)
Definition two_keys : list (bytes * bytes) := [([18; 52], [7]); ([18; 53], [8])].

Definition db_two : MemDb := default db0 (fst <$> trie_insert_all db0 None two_keys).
Definition root_two : option Hash := default None (snd <$> trie_insert_all db0 None two_keys).

Example two_keys_get :
  (λ k, Trie_get db_two root_two k) <$> [[18; 52]; [18; 53]; [18; 54]; [18]; [242; 52]]
  = [Some (Ok (Some [7])); Some (Ok (Some [8])); Some (Ok None); Some (Ok None); Some (Ok None)].
Proof. vm_compute. reflexivity. Qed.

(** The clash test, executable. *)
Definition clash_b (s : MemDb) (bs : list bytes) : bool :=
  existsb (λ b1, existsb (λ b2, bool_decide (b1 ≠ b2 ∧ Hash_as_bytes (poly_digest b1) = Hash_as_bytes (poly_digest b2)))
    (bs ++ (snd <$> map_to_list (mem s)))) bs.

Lemma clash_b_spec s bs : clash_b s bs = false → ¬ clash poly_digest s bs.
Proof.
  intros Hb (b1 & b2 & Hne & Hd & H1 & H2). apply not_true_iff_false in Hb. apply Hb.
  apply existsb_exists. exists b1. split; [by apply list_elem_of_In|].
  apply existsb_exists. exists b2. split; [|by apply bool_decide_eq_true].
  apply list_elem_of_In, elem_of_app. destruct H2 as [|H2]; [by left|right].
  cbn in H2. injection H2 as H2. apply list_elem_of_fmap.
  exists (CF_TRIE_NODES, Hash_as_bytes (poly_digest b2), b2). split; [done|]. by apply elem_of_map_to_list.
Qed.

Fixpoint inserts_b (s : MemDb) (root : option Hash) (kvs : list (bytes * bytes)) : bool :=
  match kvs with
  | [] => true
  | (k, v) :: kvs =>
      bool_decide (Forall (λ b, b < 256) k) &&
      match insert_recursive poly_digest (path_fuel (NibblePath_from_bytes k)) s new_batch root (NibblePath_from_bytes k) v,
            Trie_insert poly_digest s root k v with
      | Some (Ok (batch, h)), Some (Ok (s', h')) =>
          (h =? h') && negb (clash_b s (node_puts batch)) && inserts_b s' (Some h) kvs
      | _, _ => false
      end
  end.

Lemma inserts_b_spec kvs s root s' root' :
  inserts_b s root kvs = true → trie_insert_all s root kvs = Some (s', root') → inserts poly_digest s root kvs s' root'.
Proof.
  revert s root. induction kvs as [|[k v] kvs IH]; intros s root; cbn [inserts_b trie_insert_all].
  - intros _ [= <- <-]. constructor.
  - intros [Hk%bool_decide_eq_true Hi]%andb_true_iff. destruct (insert_recursive _ _ _ _ _ _ _) as [[[batch h]|]|] eqn:E1; try done.
    destruct (Trie_insert _ _ _ _ _) as [[[s1 h1]|]|] eqn:E2; try done.
    apply andb_true_iff in Hi as [[<-%N.eqb_eq Hc%negb_true_iff]%andb_true_iff Hi]. intros Ha.
    eapply inserts_cons; [done|done|by apply clash_b_spec|done|by apply IH].
Qed.

(** The run of an insertion list over the empty store. *)
Lemma inserts_run kvs :
  inserts_b db0 None kvs = true →
  inserts poly_digest db0 None kvs (default db0 (fst <$> trie_insert_all db0 None kvs))
    (default None (snd <$> trie_insert_all db0 None kvs)).
Proof.
  intros Hb. assert (∀ s root, inserts_b s root kvs = true → is_Some (trie_insert_all s root kvs)) as Hall.
  { clear Hb. induction kvs as [|[k v] kvs IH]; intros s root; cbn [inserts_b trie_insert_all]; [by eauto|].
    intros [_ Hi]%andb_true_iff. destruct (insert_recursive _ _ _ _ _ _ _) as [[[batch h]|]|]; try done.
    destruct (Trie_insert _ _ _ _ _) as [[[s1 h1]|]|]; try done.
    apply andb_true_iff in Hi as [[<-%N.eqb_eq _]%andb_true_iff Hi]. by apply IH. }
  destruct (Hall db0 None Hb) as [[s' root'] E]. rewrite E. cbn. by apply inserts_b_spec.
Qed.
