(* ===== verification/Transaction.v ===== *)
(** * Transactions, blocks, gas and genesis
    ([lemma-core/src/transaction.rs], [block.rs], [gas.rs], [genesis.rs])

    The chain's data types with their constructors and structural validation. *)
From stdpp Require Import strings.
From S2P Require Import Prelude CoreTypes DagBlock Fee.

Notation bytes := (list N) (only parsing).

(** ** [transaction.rs] *)

Inductive TxType := Transfer | ContractCall | ContractDeploy | Stake_ | Unstake | GovernanceVote.

#[export] Instance TxType_eq_dec : EqDecision TxType.
Proof. solve_decision. Defined.

Definition TxType_fmt (self : TxType) : string :=
  match self with
  | Transfer => "Transfer"
  | ContractCall => "ContractCall"
  | ContractDeploy => "ContractDeploy"
  | Stake_ => "Stake"
  | Unstake => "Unstake"
  | GovernanceVote => "GovernanceVote"
  end.

Definition TxType_is_contract_deploy (self : TxType) : bool :=
  match self with ContractDeploy => true | _ => false end.
Definition requires_recipient (self : TxType) : bool :=
  negb (match self with ContractDeploy => true | _ => false end).
Definition requires_calldata (self : TxType) : bool :=
  match self with ContractCall | ContractDeploy | GovernanceVote => true | _ => false end.

Record Log := {
  log_address : Address;
  topics : list Hash;
  log_data : bytes;
}.

Definition Log_new (address : Address) (topics : list Hash) (data : bytes) : Log :=
  {| log_address := address; topics := topics; log_data := data |}.
Definition Log_topic (self : Log) (index : nat) : option Hash := topics self !! index.

Inductive TransactionError :=
  | MissingRecipient (tx_type : string)
  | UnexpectedRecipient
  | MissingCalldata (tx_type : string)
  | ZeroGasLimit
  | HashMismatch (stored computed : Hash).

Record Transaction := {
  tx_hash : Hash;
  sender : Address;
  to : option Address;
  nonce : N;
  chain_id : N;
  value : Amount;
  tx_gas_limit : N;
  gas_price : Amount;
  tx_type : TxType;
  data : bytes;
  signature : Signature;
  session_key : option bytes;
  owner_cosignature : option bytes;
}.

#[export] Instance Log_eq_dec : EqDecision Log.
Proof. solve_decision. Defined.
#[export] Instance Transaction_eq_dec : EqDecision Transaction.
Proof. solve_decision. Defined.

Definition Transaction_validate (self : Transaction) : result TransactionError () :=
  if tx_gas_limit self =? 0 then Err ZeroGasLimit else
  if requires_recipient (tx_type self) && bool_decide (to self = None)
  then Err (MissingRecipient (TxType_fmt (tx_type self))) else
  if TxType_is_contract_deploy (tx_type self) && bool_decide (is_Some (to self))
  then Err UnexpectedRecipient else
  if requires_calldata (tx_type self) && bool_decide (data self = [])
  then Err (MissingCalldata (TxType_fmt (tx_type self))) else
  Ok ().

Definition Transaction_new (hash : Hash) (sender : Address) (to : option Address) (nonce chain_id : N)
    (value : Amount) (gas_limit : N) (gas_price : Amount) (tx_type : TxType) (data : bytes)
    (signature : Signature) : result TransactionError Transaction :=
  let tx := {| tx_hash := hash; sender := sender; to := to; nonce := nonce; chain_id := chain_id;
               value := value; tx_gas_limit := gas_limit; gas_price := gas_price; tx_type := tx_type;
               data := data; signature := signature; session_key := None; owner_cosignature := None |} in
  _ ← Transaction_validate tx; Ok tx.

Definition Signature_is_signed (self : Signature) : bool :=
  match self with Unsigned => false | _ => true end.
Definition is_unsigned (self : Signature) : bool :=
  match self with Unsigned => true | _ => false end.
Definition is_hybrid (self : Signature) : bool :=
  match self with Hybrid _ _ => true | _ => false end.
Definition as_classical_bytes (self : Signature) : option bytes :=
  match self with Classical bytes => Some bytes | Hybrid classical _ => Some classical | _ => None end.
Definition as_quantum_bytes (self : Signature) : option bytes :=
  match self with PostQuantum bytes => Some bytes | Hybrid _ quantum => Some quantum | _ => None end.

Definition Transaction_is_signed (self : Transaction) : bool := Signature_is_signed (signature self).
Definition Transaction_is_contract_deploy (self : Transaction) : bool := TxType_is_contract_deploy (tx_type self).
Definition has_owner_cosignature (self : Transaction) : bool := bool_decide (is_Some (owner_cosignature self)).

Record TransactionReceipt := {
  rc_tx_hash : Hash;
  success : bool;
  rc_gas_used : N;
  logs : list Log;
}.

#[export] Instance TransactionReceipt_eq_dec : EqDecision TransactionReceipt.
Proof. solve_decision. Defined.

Definition TransactionReceipt_new (tx_hash : Hash) (success : bool) (gas_used : N) (logs : list Log) : TransactionReceipt :=
  {| rc_tx_hash := tx_hash; success := success; rc_gas_used := gas_used; logs := logs |}.
Definition is_success (self : TransactionReceipt) : bool := success self.
Definition log_count (self : TransactionReceipt) : nat := length (logs self).

(** ** [block.rs] *)

Record Block := {
  header : BlockHeader;
  transactions : list Transaction;
  receipts : list TransactionReceipt;
  quorum_cert : option QuorumCert;
}.

(** [iter().sum()] of [u64], wrapping in the release profile. *)
Definition receipts_gas (receipts : list TransactionReceipt) : N :=
  foldl (λ acc r, wrapping_add64 acc (rc_gas_used r)) 0 receipts.

Definition Block_validate (self : Block) : result BlockError () :=
  if negb (length (receipts self) =? length (transactions self))%nat
  then Err (ReceiptCountMismatch (N.of_nat (length (transactions self))) (N.of_nat (length (receipts self)))) else
  _ ← BlockHeader_validate (header self);
  let receipts_gas := receipts_gas (receipts self) in
  if negb (gas_used (header self) =? receipts_gas)
  then Err (GasAccountingMismatch (gas_used (header self)) receipts_gas) else
  Ok ().

Definition Block_new (header : BlockHeader) (transactions : list Transaction) (receipts : list TransactionReceipt)
    (quorum_cert : option QuorumCert) : result BlockError Block :=
  let block := {| header := header; transactions := transactions; receipts := receipts; quorum_cert := quorum_cert |} in
  _ ← Block_validate block; Ok block.

Definition Block_is_empty (self : Block) : bool := bool_decide (transactions self = []).
Definition BlockHeader_is_genesis (self : BlockHeader) : bool := height self =? 0.
Definition Block_is_genesis (self : Block) : bool := BlockHeader_is_genesis (header self).
Definition transaction_count (self : Block) : nat := length (transactions self).
Definition Block_height (self : Block) : N := height (header self).
Definition Block_timestamp (self : Block) : N := timestamp (header self).

(** ** [gas.rs] *)

Notation Gas := N (only parsing).
Definition Gas_checked_add (self rhs : Gas) : option Gas := checked_add u64_max self rhs.
Definition Gas_checked_sub (self rhs : Gas) : option Gas := checked_sub self rhs.
Definition Gas_saturating_sub (self rhs : Gas) : Gas := saturating_sub self rhs.
Definition forwardable (self : Gas) : Gas := self - self / 64.

Record GasSchedule := {
  tx_base : Gas; tx_calldata_per_byte : Gas;
  storage_read_cold : Gas; storage_read_warm : Gas; storage_write_create : Gas; storage_write_update : Gas;
  storage_delete : Gas; storage_delete_refund : Gas;
  call_base : Gas; call_value_transfer : Gas;
  hash_blake3_base : Gas; hash_blake3_per_byte : Gas; hash_keccak256_base : Gas; hash_keccak256_per_byte : Gas;
  verify_ed25519 : Gas; verify_mldsa65 : Gas;
  emit_event_base : Gas; emit_event_per_byte : Gas;
  deploy_base : Gas; deploy_per_byte : Gas; deploy_storage_per_byte : Gas;
  code_cold_surcharge : Gas; memory_grow_per_page : Gas; context_query : Gas; memory_copy_per_byte : Gas;
  invariant_check : Gas; warden_check : Gas;
}.

Definition GasSchedule_devnet : GasSchedule := {|
  tx_base := 21000; tx_calldata_per_byte := 16;
  storage_read_cold := 2100; storage_read_warm := 100; storage_write_create := 22100; storage_write_update := 5000;
  storage_delete := 5000; storage_delete_refund := 4800;
  call_base := 2100; call_value_transfer := 9000;
  hash_blake3_base := 30; hash_blake3_per_byte := 6; hash_keccak256_base := 30; hash_keccak256_per_byte := 6;
  verify_ed25519 := 3000; verify_mldsa65 := 30000;
  emit_event_base := 375; emit_event_per_byte := 8;
  deploy_base := 32000; deploy_per_byte := 200; deploy_storage_per_byte := 200;
  code_cold_surcharge := 100000; memory_grow_per_page := 3; context_query := 3; memory_copy_per_byte := 3;
  invariant_check := 5000; warden_check := 7500;
|}.

(** ** [genesis.rs] *)

Inductive AddressError :=
  | InvalidAddressLength (got : N)
  | InvalidBech32 (reason : string)
  | InvalidHrp (got : string)
  | UnknownAddressType (byte : N)
  | InvalidPayloadLength (got : N).
Inductive HashError :=
  | InvalidHashLength (got : N)
  | InvalidHex (reason : string).
Inductive SerializationError :=
  | Json (reason : string)
  | Binary (reason : string).

Inductive CoreError :=
  | CoreAddress (e : AddressError)
  | CoreHash (e : HashError)
  | CoreSerialization (e : SerializationError)
  | CoreTransaction (e : TransactionError)
  | CoreBlock (e : BlockError)
  | CoreAmount (e : AmountError)
  | CoreValidator (e : ValidatorError).

Record GenesisConfig := {
  gen_chain_id : N;
  genesis_timestamp : N;
  initial_gas_limit : N;
  initial_base_fee : Amount;
  initial_balances : gmap Address Amount;
  genesis_validators : gmap Address Validator;
}.

Definition GenesisConfig_validate (self : GenesisConfig) : result CoreError () :=
  if initial_gas_limit self =? 0 then Err (CoreBlock GasLimitZero) else
  if bool_decide (genesis_validators self = ∅) then Err (CoreValidator EmptyGenesisValidators) else
  try_fold (λ _ '(addr, val),
    if active (self_stake val) =? 0 then Err (CoreValidator (ZeroGenesisStake addr)) else Ok ())
    () (bmap_iter (genesis_validators self)).

Definition GenesisConfig_is_empty (self : GenesisConfig) : bool := bool_decide (initial_balances self = ∅).
Definition account_count (self : GenesisConfig) : nat := size (initial_balances self).
Definition balance_of (self : GenesisConfig) (address : Address) : option Amount := initial_balances self !! address.

(** ** Theorems *)

(** The recipient and calldata rules of a transaction type, as a predicate. *)
Definition tx_shape (tx : Transaction) : Prop :=
  0 < tx_gas_limit tx ∧
  (match tx_type tx with ContractDeploy => to tx = None | _ => is_Some (to tx) end) ∧
  (match tx_type tx with ContractCall | ContractDeploy | GovernanceVote => data tx ≠ [] | _ => True end).

Lemma Transaction_validate_Ok tx : Transaction_validate tx = Ok () ↔ tx_shape tx.
Proof.
  unfold Transaction_validate, tx_shape. destruct (N.eqb_spec (tx_gas_limit tx) 0) as [->|]; [split; [done|lia]|].
  destruct (tx_type tx), (to tx), (data tx); cbn; repeat case_bool_decide;
    split; intros; naive_solver (eauto || lia).
Qed.

(** Wrapping sums agree with the sum modulo [2^64]. *)
Lemma receipts_gas_mod rs : receipts_gas rs = sumN (rc_gas_used <$> rs) mod 2 ^ 64.
Proof.
  unfold receipts_gas. induction rs as [|r rs IH] using rev_ind; [done|].
  rewrite foldl_app, fmap_app. cbn [foldl]. rewrite IH. unfold wrapping_add64.
  rewrite sumN_app. cbn. rewrite N.add_0_r, N.Div0.add_mod_idemp_l. done.
Qed.

(** What an accepted block satisfies: one receipt per transaction, a
    positive gas limit that bounds the gas used, and the header's gas used is
    the sum of the receipts' gas modulo [2^64]. *)
Theorem Block_validate_spec b :
  gas_used (header b) <= u64_max →
  (Block_validate b = Ok () ↔
   length (receipts b) = length (transactions b) ∧ 0 < gas_limit (header b) ∧
   gas_used (header b) <= gas_limit (header b) ∧
   gas_used (header b) = sumN (rc_gas_used <$> receipts b) mod 2 ^ 64).
Proof.
  intros Hu. unfold Block_validate. rewrite receipts_gas_mod.
  destruct (Nat.eqb_spec (length (receipts b)) (length (transactions b))) as [Hl|Hl]; cbn [negb]; [|naive_solver].
  rewrite bind_Ok. pose proof (validate_ok (header b)) as Hv.
  destruct (N.eqb_spec (gas_used (header b)) (sumN (rc_gas_used <$> receipts b) mod 2 ^ 64)) as [Hg|Hg]; cbn [negb].
  - split; [intros ([] & Hh & _); naive_solver|]. intros (_ & ? & ? & _). exists (). split; [|done]. by apply Hv.
  - naive_solver.
Qed.

(** The receipt gas sum wraps at [2^64] in the release profile: a block
    whose header reports no gas used is accepted with two receipts that used
    [2^63] each, far above its gas limit. *)
Theorem Block_validate_gas_wraps h tx1 tx2 :
  0 < gas_limit h → gas_used h = 0 →
  Block_validate {| header := h; transactions := [tx1; tx2];
    receipts := [TransactionReceipt_new (tx_hash tx1) true (2 ^ 63) []; TransactionReceipt_new (tx_hash tx2) true (2 ^ 63) []];
    quorum_cert := None |} = Ok ().
Proof.
  intros Hl Hu. unfold Block_validate. cbn [receipts transactions header length Nat.eqb negb].
  rewrite (proj2 (validate_ok h)) by lia. cbn. by rewrite Hu.
Qed.
