(* ===== verification/WorldState.v ===== *)
(** * World state ([lemma-storage/src/account.rs], [state.rs])

    Accounts in the state trie, contract storage and code in their column
    families, and the abstract account map the state refines. *)
From S2P Require Import Prelude CoreTypes Db Trie TrieRoot TrieProof.

(** ** [account.rs] *)

Record Account := {
  acc_nonce : N;
  balance : Amount;
  code_hash : Hash;
  storage_root : Hash;
  staked : Amount;
}.

Definition new_eoa (balance : Amount) : Account :=
  {| acc_nonce := 0; balance := balance; code_hash := Hash_zero; storage_root := Hash_zero; staked := 0 |}.
Definition new_contract (code_hash : Hash) : Account :=
  {| acc_nonce := 0; balance := 0; code_hash := code_hash; storage_root := Hash_zero; staked := 0 |}.
Definition Account_default : Account :=
  {| acc_nonce := 0; balance := 0; code_hash := Hash_zero; storage_root := Hash_zero; staked := 0 |}.
Definition is_eoa (self : Account) : bool := code_hash self =? Hash_zero.
Definition is_contract (self : Account) : bool := negb (code_hash self =? Hash_zero).
Definition is_zero_balance (self : Account) : bool := balance self =? 0.
Definition available_balance (self : Account) : Amount := balance self.
Definition set_nonce (n : N) (a : Account) : Account :=
  {| acc_nonce := n; balance := balance a; code_hash := code_hash a; storage_root := storage_root a; staked := staked a |}.

(** ** [state.rs] *)

Section state.
Context {DB : Type} `{!Rocks DB} `{!Codec TrieNode} `{!Codec Account} (blake3 : bytes → Hash).

Record WorldState := { db : DB; ws_root : option Hash }.

Definition WorldState_new (db : DB) : WorldState := {| db := db; ws_root := None |}.
Definition with_state_root (db : DB) (root : Hash) : WorldState := {| db := db; ws_root := Some root |}.

Definition commit (self : WorldState) : result StorageError Hash :=
  ok_or (KeyNotFound "(state trie is empty — no accounts written)") (ws_root self).

Definition get_account (self : WorldState) (address : Address) : option (result StorageError (option Account)) :=
  match ws_root self with
  | None => Some (Ok None)
  | Some root =>
      and_then (Trie_get (db self) (Some root) (Address_as_bytes address)) (λ o,
        match o with
        | None => Some (Ok None)
        | Some bytes => Some (account ← map_err from_codec (deserialize bytes); Ok (Some account))
        end)
  end.

Definition put_account (self : WorldState) (address : Address) (account : Account)
    : option (result StorageError WorldState) :=
  match map_err from_codec (serialize account) with
  | Err e => Some (Err e)
  | Ok bytes =>
      and_then (Trie_insert blake3 (db self) (ws_root self) (Address_as_bytes address) bytes) (λ '(db', root),
        Some (Ok {| db := db'; ws_root := Some root |}))
  end.

Definition get_balance (self : WorldState) (address : Address) : option (result StorageError Amount) :=
  and_then (get_account self address) (λ o, Some (Ok (from_option balance 0 o))).

Definition get_nonce (self : WorldState) (address : Address) : option (result StorageError N) :=
  and_then (get_account self address) (λ o, Some (Ok (from_option acc_nonce 0 o))).

Definition increment_nonce (self : WorldState) (address : Address) : option (result StorageError WorldState) :=
  and_then (get_account self address) (λ o,
    let account := default Account_default o in
    match checked_add u64_max (acc_nonce account) 1 with
    | None => Some (Err (Corrupted (NonceOverflow address)))
    | Some n => put_account self address (set_nonce n account)
    end).

Definition storage_key (address : Address) (slot : Hash) : bytes := Address_as_bytes address ++ Hash_as_bytes slot.

Definition get_storage (self : WorldState) (address : Address) (slot : Hash) : result StorageError (option bytes) :=
  Db_get (db self) CF_STORAGE (storage_key address slot).

Definition with_db (self : WorldState) (db' : DB) : WorldState := {| db := db'; ws_root := ws_root self |}.

Definition put_storage (self : WorldState) (address : Address) (slot : Hash) (value : bytes)
    : result StorageError WorldState :=
  with_db self <$> Db_put (db self) CF_STORAGE (storage_key address slot) value.

Definition delete_storage (self : WorldState) (address : Address) (slot : Hash) : result StorageError WorldState :=
  with_db self <$> Db_delete (db self) CF_STORAGE (storage_key address slot).

Definition put_code (self : WorldState) (code_hash : Hash) (bytecode : bytes) : result StorageError WorldState :=
  o ← Db_get (db self) CF_CODE (Hash_as_bytes code_hash);
  match o with
  | Some _ => Ok self
  | None => with_db self <$> Db_put (db self) CF_CODE (Hash_as_bytes code_hash) bytecode
  end.

Definition get_code (self : WorldState) (code_hash : Hash) : result StorageError (option bytes) :=
  Db_get (db self) CF_CODE (Hash_as_bytes code_hash).

Definition generate_account_proof (self : WorldState) (address : Address) : option (result StorageError MerkleProof) :=
  match ws_root self with
  | None => Some (Err (InvalidProof (Address_as_bytes address)))
  | Some root => generate_proof (db self) (Some root) (Address_as_bytes address)
  end.
End state.
Arguments WorldState : clear implicits.

(** ** The abstract account map *)

Section refinement.
Context {DB : Type} `{!Rocks DB, !RocksLaws DB} `{!Codec TrieNode, !CodecLaws TrieNode}.
Context `{!Codec Account, !CodecLaws Account} (blake3 : bytes → Hash).
Implicit Types (w : WorldState DB) (A : gmap Address Account).

Definition is_address (a : Address) : Prop := a < 256 ^ 20.
Definition account_path (a : Address) : NibblePath := NibblePath_from_bytes (Address_as_bytes a).

(** The trie under the root holds exactly the encodings of [A] at addresses. *)
Definition holds w A : Prop := ∃ f, stored_root blake3 (db w) (ws_root w) f ∧
  ∀ a, is_address a →
    match A !! a with
    | None => f (account_path a) = None
    | Some x => ∃ b, serialize x = Ok b ∧ f (account_path a) = Some b
    end.

Lemma le_bytes_ok n x : bytes_ok (le_bytes n x).
Proof.
  revert x; induction n as [|n IH]; intros x; cbn; [constructor|].
  constructor; [|apply IH]. apply N.mod_lt. done.
Qed.

Lemma address_bytes_ok a : bytes_ok (Address_as_bytes a).
Proof. unfold Address_as_bytes, be_bytes, bytes_ok. apply Forall_reverse, le_bytes_ok. Qed.

Lemma account_path_inj a a' : is_address a → is_address a' → account_path a = account_path a' → a = a'.
Proof. intros Ha Ha' H%from_bytes_inj. by apply (be_bytes_inj 20). Qed.

Lemma get_account_holds w A a : holds w A → is_address a → get_account w a = Some (Ok (A !! a)).
Proof.
  intros (f & Hst & Hf) Ha. specialize (Hf a Ha). unfold get_account.
  destruct (ws_root w) as [root|] eqn:Hr.
  - rewrite (Trie_get_stored blake3 _ _ f) by done. cbn. fold (account_path a).
    destruct (A !! a) as [x|]; [|by rewrite Hf]. destruct Hf as (b & Hb & ->).
    by rewrite (deserialize_serialize _ _ Hb).
  - cbn in Hst. destruct (A !! a); [|done]. destruct Hf as (b & _ & Hb). by rewrite Hst in Hb.
Qed.

(** A successful write, unless contents clash. *)
Definition put_post w A a x w' : Prop :=
  (∃ b batch h, serialize x = Ok b ∧
     insert_recursive blake3 (path_fuel (account_path a)) (db w) new_batch (ws_root w) (account_path a) b
       = Some (Ok (batch, h)) ∧ clash blake3 (db w) (node_puts batch)) ∨
  (holds w' (<[a := x]> A) ∧ extends blake3 (db w) (db w')).

Lemma put_account_holds w A a x :
  holds w A → is_address a →
  ∃ r, put_account blake3 w a x = Some r ∧
    match r with Ok w' => put_post w A a x w' | Err e => write_error e end.
Proof.
  intros (f & Hst & Hf) Ha. unfold put_account. destruct (serialize x) as [b|e] eqn:Hb; cbn; [|by eexists].
  destruct (Trie_insert_post blake3 (db w) (ws_root w) f (Address_as_bytes a) b) as (r & -> & Hpost);
    [done|apply address_bytes_ok|].
  destruct r as [[s' h]|e]; [|by eexists]. eexists; split; [done|]. cbn in *.
  destruct Hpost as (batch & Hi & _ & [Hc|[Hst' Hx]]); [left; by exists b, batch, h|right].
  split; [|done]. exists (upd f (account_path a) b). split; [done|]. intros a' Ha'. unfold upd.
  destruct (decide (a = a')) as [->|Hne].
  - rewrite lookup_insert_eq. exists b. by rewrite decide_True.
  - rewrite lookup_insert_ne by done. rewrite decide_False; [by apply Hf|].
    intros ?%account_path_inj; congruence.
Qed.

(** C20. World state reads and writes refine an account map.  When the trie
    holds the map [A]: [get_account], [get_balance] and [get_nonce] answer from
    [A] (absent accounts read as zero); [put_account] returns, and on success
    the new state holds [A] with the account replaced, while a state opened at
    the old root still holds [A] (unless written contents clash); an error is
    one of encoding, column family or batch write. *)
Theorem world_state_refines w A a x :
  holds w A → is_address a →
  get_account w a = Some (Ok (A !! a)) ∧
  get_balance w a = Some (Ok (from_option balance 0 (A !! a))) ∧
  get_nonce w a = Some (Ok (from_option acc_nonce 0 (A !! a))) ∧
  ∃ r, put_account blake3 w a x = Some r ∧
    match r with
    | Ok w' => (∃ b batch h, serialize x = Ok b ∧
          insert_recursive blake3 (path_fuel (account_path a)) (db w) new_batch (ws_root w) (account_path a) b
            = Some (Ok (batch, h)) ∧ clash blake3 (db w) (node_puts batch)) ∨
        (holds w' (<[a := x]> A) ∧ holds {| db := db w'; ws_root := ws_root w |} A)
    | Err e => write_error e
    end.
Proof.
  intros Hw Ha. unfold get_balance, get_nonce. rewrite (get_account_holds w A) by done.
  split_and!; [done..|]. destruct (put_account_holds w A a x Hw Ha) as (r & Hr & Hpost).
  exists r. split; [done|]. destruct r as [w'|]; [|done].
  destruct Hpost as [?|[Hw' Hx]]; [by left|right]. split; [done|].
  destruct Hw as (f & Hst & Hf). exists f. split; [|done]. cbn.
  destruct (ws_root w); cbn in *; [by eapply stored_extends|done].
Qed.

(** [increment_nonce] on a state that holds [A]: an account at the maximal
    nonce is refused as corruption; otherwise exactly that account's nonce
    grows by one (an absent account is created with nonce one, zero balance),
    and no other account changes. *)
Theorem increment_nonce_refines w A a :
  holds w A → is_address a →
  let acct := default Account_default (A !! a) in
  if u64_max <? acc_nonce acct + 1
  then increment_nonce blake3 w a = Some (Err (Corrupted (NonceOverflow a)))
  else ∃ r, increment_nonce blake3 w a = Some r ∧
    match r with
    | Ok w' => put_post w A a (set_nonce (acc_nonce acct + 1) acct) w'
    | Err e => write_error e
    end.
Proof.
  intros Hw Ha acct. unfold increment_nonce. rewrite (get_account_holds w A) by done. cbn. fold acct.
  unfold checked_add. destruct (N.ltb_spec u64_max (acc_nonce acct + 1)).
  - rewrite (proj2 (N.leb_gt _ _)) by lia. done.
  - rewrite (proj2 (N.leb_le _ _)) by lia. by apply put_account_holds.
Qed.

(** The proof of an account verifies against the committed root: on a state
    that holds [A] and is not empty, [commit] returns the root,
    [generate_account_proof] returns a proof whose value is the encoding of the
    account, or nothing when there is none, and the proof verifies against the
    committed root. *)
Theorem account_proof_verifies w A a root :
  holds w A → is_address a → ws_root w = Some root →
  commit w = Ok root ∧
  ∃ proof, generate_account_proof w a = Some (Ok proof) ∧ verify blake3 proof root = Ok () ∧
    match A !! a with
    | None => mp_value proof = None
    | Some x => ∃ b, serialize x = Ok b ∧ mp_value proof = Some b
    end.
Proof.
  intros (f & Hst & Hf) Ha Hr. unfold commit, generate_account_proof. rewrite Hr in *. split; [done|].
  destruct (generate_proof_ok blake3 (db w) root f (Address_as_bytes a) Hst) as (proof & -> & _ & Hv & Hok).
  exists proof. split_and!; [done..|]. specialize (Hf a Ha). rewrite Hv. exact Hf.
Qed.

(** *** Contract storage and code *)

Lemma storage_key_inj a1 a2 s1 s2 :
  is_address a1 → is_address a2 → s1 < 256 ^ 32 → s2 < 256 ^ 32 →
  storage_key a1 s1 = storage_key a2 s2 → a1 = a2 ∧ s1 = s2.
Proof.
  intros Ha1 Ha2 Hs1 Hs2 H. unfold storage_key in H.
  apply app_inj_1 in H as [H1 H2]; [|by unfold Address_as_bytes; rewrite !length_be_bytes].
  split; [by apply (be_bytes_inj 20)|by apply (be_bytes_inj 32)].
Qed.

Lemma holds_other_cf w db' A :
  holds w A → (∀ k, Db_get db' CF_TRIE_NODES k = Db_get (db w) CF_TRIE_NODES k) → holds (with_db w db') A.
Proof.
  intros (f & Hst & Hf) Hdb. exists f. split; [|done]. cbn. destruct (ws_root w) as [h|]; cbn in *; [|done].
  eapply stored_extends; [done|]. intros h' n (b & Hb & -> & Hg). exists b. by rewrite Hdb.
Qed.

(** Contract storage is a map from (contract, slot): after [put_storage]
    that slot of that contract reads the new value, after [delete_storage] it
    reads as absent, and every other slot of this or any other contract reads as
    before (the 52-byte key never confuses two pairs); accounts are untouched. *)
Theorem storage_roundtrip w A a slot v w1 w2 a' slot' :
  is_address a → is_address a' → slot < 256 ^ 32 → slot' < 256 ^ 32 → holds w A →
  put_storage w a slot v = Ok w1 → delete_storage w1 a slot = Ok w2 →
  get_storage w1 a' slot' = (if decide (a' = a ∧ slot' = slot) then Ok (Some v) else get_storage w a' slot') ∧
  get_storage w2 a' slot' = (if decide (a' = a ∧ slot' = slot) then Ok None else get_storage w a' slot') ∧
  holds w1 A ∧ holds w2 A.
Proof.
  intros Ha Ha' Hs Hs' Hw Hp Hd. unfold put_storage in Hp. unfold delete_storage in Hd.
  destruct (Db_put (db w) _ _ _) as [d1|] eqn:E1; cbn in Hp; [|done]. injection Hp as <-.
  cbn in Hd. destruct (Db_delete d1 _ _) as [d2|] eqn:E2; cbn in Hd; [|done]. injection Hd as <-.
  assert (∀ k, Db_get d1 CF_TRIE_NODES k = Db_get (db w) CF_TRIE_NODES k) as Hk1.
  { intros k. rewrite (Db_put_get _ _ _ _ _ _ _ E1). by rewrite decide_False by naive_solver. }
  assert (∀ k, Db_get d2 CF_TRIE_NODES k = Db_get (db w) CF_TRIE_NODES k) as Hk2.
  { intros k. rewrite (Db_delete_get _ _ _ _ _ _ E2). by rewrite decide_False by naive_solver. }
  assert (∀ X (x y : X), (if decide (CF_STORAGE = CF_STORAGE ∧ storage_key a slot = storage_key a' slot') then x else y)
    = if decide (a' = a ∧ slot' = slot) then x else y) as Hdec.
  { intros X x y. apply decide_ext. split; [|naive_solver]. intros [_ [-> ->]%storage_key_inj]; done. }
  unfold get_storage. cbn. rewrite (Db_delete_get _ _ _ _ _ _ E2), (Db_put_get _ _ _ _ _ _ _ E1), !Hdec.
  split_and!; [done|by repeat case_decide|by eapply holds_other_cf|]. by eapply (holds_other_cf w).
Qed.

(** Code is write-once: after [put_code] the hash reads the bytes it had
    before, or the new bytes when it had none, and every other hash reads as
    before, so a deployed contract's code can never be replaced. *)
Theorem put_code_once w h code w' h' :
  h < 256 ^ 32 → h' < 256 ^ 32 → put_code w h code = Ok w' →
  ∃ old, get_code w h = Ok old ∧
    get_code w' h' = if decide (h' = h) then Ok (Some (default code old)) else get_code w h'.
Proof.
  intros Hh Hh' Hp. unfold put_code in Hp. apply bind_Ok in Hp as (old & Hg & Hp).
  exists old. split; [done|]. unfold get_code. destruct old as [c|].
  - injection Hp as <-. case_decide as E; [by subst|done].
  - destruct (Db_put _ _ _ _) as [d|] eqn:E; cbn in Hp; [|done]. injection Hp as <-. cbn.
    rewrite (Db_put_get _ _ _ _ _ _ _ E). apply decide_ext.
    split; [intros [_ H%be_bytes_inj]; done|by intros ->].
Qed.
End refinement.
