(* ===== verification/ChainStore.v ===== *)
(** * The block store ([lemma-storage/src/chain.rs])

    Blocks by height and by hash, the chain tip, and range reads, against an
    abstract chain. *)
From S2P Require Import Prelude CoreTypes DagBlock Fee Transaction Db.

(** The big-endian number of a byte string ([u64::from_be_bytes], [Hash::from_bytes]). *)
Definition from_be_bytes (b : bytes) : N := foldl (λ acc x, acc * 256 + x) 0 b.


(** b"latest_height" and b"latest_hash" *)
Definition META_LATEST_HEIGHT : bytes := [108; 97; 116; 101; 115; 116; 95; 104; 101; 105; 103; 104; 116].
Definition META_LATEST_HASH : bytes := [108; 97; 116; 101; 115; 116; 95; 104; 97; 115; 104].

Section chain.
Context {DB : Type} `{!Rocks DB} `{!Codec Block} (blake3 : bytes → Hash).

Definition height_key (height : N) : bytes := be_bytes 8 height.

(** The body shared by the typed reads: [None] when absent, else decoded. *)
Definition read_block (s : DB) (cf : Cf) (key : bytes) : result StorageError (option Block) :=
  o ← Db_get s cf key;
  match o with
  | None => Ok None
  | Some bytes => block ← map_err from_codec (deserialize bytes); Ok (Some block)
  end.

Definition get_block_by_height (s : DB) (height : N) : result StorageError (option Block) :=
  read_block s CF_BLOCKS (height_key height).

Definition get_block_by_hash (s : DB) (hash : Hash) : result StorageError (option Block) :=
  read_block s CF_BLOCK_HASH (Hash_as_bytes hash).

Definition get_block_with_hash_by_height (s : DB) (height : N) : result StorageError (option (Block * Hash)) :=
  o ← Db_get s CF_BLOCKS (height_key height);
  match o with
  | None => Ok None
  | Some bytes =>
      block ← map_err from_codec (deserialize bytes);
      Ok (Some (block, hash_bytes blake3 bytes))
  end.

Definition latest_height (s : DB) : result StorageError (option N) :=
  o ← Db_get s CF_METADATA META_LATEST_HEIGHT;
  match o with
  | None => Ok None
  | Some bytes =>
      if (length bytes =? 8)%nat then Ok (Some (from_be_bytes bytes))
      else Err (SerializationFailed (LatestHeightLength (length bytes)))
  end.

Definition latest_hash (s : DB) : result StorageError (option Hash) :=
  o ← Db_get s CF_METADATA META_LATEST_HASH;
  match o with
  | None => Ok None
  | Some bytes =>
      if (length bytes =? 32)%nat then Ok (Some (from_be_bytes bytes))
      else Err (SerializationFailed (LatestHashLength (length bytes)))
  end.

Definition tip (s : DB) : result StorageError (option (N * Hash)) :=
  o ← latest_height s;
  match o with
  | None => Ok None
  | Some height =>
      h ← latest_hash s;
      hash ← ok_or (Corrupted LatestHashMissing) h;
      Ok (Some (height, hash))
  end.

Definition put_block (s : DB) (block : Block) (hash : Hash) : result StorageError DB :=
  block_bytes ← map_err from_codec (serialize block);
  let height := Block_height block in
  let key := height_key height in
  b1 ← batch_put s new_batch CF_BLOCKS key block_bytes;
  b2 ← batch_put s b1 CF_BLOCK_HASH (Hash_as_bytes hash) block_bytes;
  latest ← latest_height s;
  let advance := match latest with None => true | Some current => current <=? height end in
  b4 ← (if advance then
          b3 ← batch_put s b2 CF_METADATA META_LATEST_HEIGHT key;
          batch_put s b3 CF_METADATA META_LATEST_HASH (Hash_as_bytes hash)
        else Ok b2);
  write_batch s b4.

(** The loop over [from..=to]; [count] is the number of heights left. *)
Fixpoint range_from (s : DB) (height : N) (count : nat) : result StorageError (list Block) :=
  match count with
  | O => Ok []
  | S count' =>
      o ← get_block_by_height s height;
      match o with
      | None => Ok []
      | Some block => blocks ← range_from s (height + 1) count'; Ok (block :: blocks)
      end
  end.

(** The reserved capacity has no effect on the result and is left out. *)
Definition get_range (s : DB) (from to : N) : result StorageError (list Block) :=
  if to <? from then Ok [] else range_from s from (N.to_nat (to - from + 1)).
End chain.

(** ** The abstract chain *)

Record Chain := {
  by_height : gmap N Block;
  by_hash : gmap Hash Block;
  chain_tip : option (N * Hash);
}.

Definition chain_put (C : Chain) (block : Block) (hash : Hash) : Chain := {|
  by_height := <[Block_height block := block]> (by_height C);
  by_hash := <[hash := block]> (by_hash C);
  chain_tip := match chain_tip C with
    | Some (t, th) => if t <=? Block_height block then Some (Block_height block, hash) else Some (t, th)
    | None => Some (Block_height block, hash)
    end;
|}.

(** The tip is the highest block, and its hash finds that block. *)
Definition chain_wf (C : Chain) : Prop :=
  (∀ h b, by_height C !! h = Some b → Block_height b = h ∧ ∃ t th, chain_tip C = Some (t, th) ∧ h <= t) ∧
  (∀ t th, chain_tip C = Some (t, th) → ∃ b, by_height C !! t = Some b ∧ by_hash C !! th = Some b).

Lemma from_be_le n x : x < 256 ^ N.of_nat n → foldr (λ y acc, acc * 256 + y) 0 (le_bytes n x) = x.
Proof.
  revert x; induction n as [|n IH]; intros x Hx.
  - change (256 ^ N.of_nat 0) with 1 in Hx. assert (x = 0) as -> by lia. done.
  - change (le_bytes (S n) x) with (x mod 256 :: le_bytes n (x / 256)). cbn [foldr]. rewrite Nat2N.inj_succ, N.pow_succ_r' in Hx.
    rewrite IH by (apply N.Div0.div_lt_upper_bound; lia). pose proof (N.div_mod' x 256). lia.
Qed.

Lemma from_be_bytes_be n x : x < 256 ^ N.of_nat n → from_be_bytes (be_bytes n x) = x.
Proof.
  intros Hx. rewrite <-(from_be_le n x Hx) at 2. unfold from_be_bytes, be_bytes.
  induction (le_bytes n x) as [|y l IH]; [done|]. rewrite reverse_cons, foldl_app. cbn. by rewrite IH.
Qed.

Section refinement.
Context {DB : Type} `{!Rocks DB, !RocksLaws DB} `{!Codec Block, !CodecLaws Block}.
Implicit Types (s : DB) (C : Chain).

(** The bytes under a key are the encoding of a block, or there are none. *)
Definition reads s (cf : Cf) (key : bytes) (o : option Block) : Prop :=
  match o with
  | None => Db_get s cf key = Ok None
  | Some b => ∃ bs, serialize b = Ok bs ∧ Db_get s cf key = Ok (Some bs)
  end.

Definition chain_holds s C : Prop :=
  (∀ h, h <= u64_max → reads s CF_BLOCKS (height_key h) (by_height C !! h)) ∧
  (∀ h, h < 256 ^ 32 → reads s CF_BLOCK_HASH (Hash_as_bytes h) (by_hash C !! h)) ∧
  match chain_tip C with
  | None => Db_get s CF_METADATA META_LATEST_HEIGHT = Ok None
  | Some (t, th) => t <= u64_max ∧ th < 256 ^ 32 ∧
      Db_get s CF_METADATA META_LATEST_HEIGHT = Ok (Some (height_key t)) ∧
      Db_get s CF_METADATA META_LATEST_HASH = Ok (Some (Hash_as_bytes th))
  end.

Lemma read_block_reads s cf key o : reads s cf key o → read_block s cf key = Ok o.
Proof.
  unfold reads, read_block. destruct o as [b|]; [|by intros ->].
  intros (bs & Hb & ->). cbn. by rewrite (deserialize_serialize _ _ Hb).
Qed.

Lemma latest_height_holds s C : chain_holds s C → latest_height s = Ok (fst <$> chain_tip C).
Proof.
  intros (_ & _ & Ht). unfold latest_height. destruct (chain_tip C) as [[t th]|]; [|by rewrite Ht].
  destruct Ht as (Hl & _ & -> & _). cbn. unfold height_key. rewrite length_be_bytes. cbn.
  by rewrite from_be_bytes_be by (unfold u64_max in Hl; lia).
Qed.

Lemma tip_holds s C : chain_holds s C → tip s = Ok (chain_tip C).
Proof.
  intros HC. unfold tip. rewrite (latest_height_holds s C HC). destruct HC as (_ & _ & Ht).
  destruct (chain_tip C) as [[t th]|]; [|done]. cbn. unfold latest_hash.
  destruct Ht as (_ & Hth & _ & ->). cbn. unfold Hash_as_bytes. rewrite length_be_bytes. cbn.
  by rewrite from_be_bytes_be.
Qed.

(** The batch of [put_block]. *)
Definition block_batch (block : Block) (hash : Hash) (bs : bytes) (advance : bool) : list BatchOp :=
  [BPut CF_BLOCKS (height_key (Block_height block)) bs; BPut CF_BLOCK_HASH (Hash_as_bytes hash) bs] ++
  if advance then [BPut CF_METADATA META_LATEST_HEIGHT (height_key (Block_height block));
                   BPut CF_METADATA META_LATEST_HASH (Hash_as_bytes hash)] else [].

Definition advances C (block : Block) : bool :=
  match chain_tip C with None => true | Some (t, _) => t <=? Block_height block end.

Lemma put_block_batch s C block hash :
  chain_holds s C →
  match put_block s block hash with
  | Ok s' => ∃ bs, serialize block = Ok bs ∧ write_batch s (block_batch block hash bs (advances C block)) = Ok s'
      ∧ ∀ cf, cf ∈ [CF_BLOCKS; CF_BLOCK_HASH; CF_METADATA] → cf_handle s cf = true
  | Err e => match e with SerializationFailed _ | ColumnFamilyNotFound _ | BatchFailed _ => True | _ => False end
  end.
Proof.
  intros HC. assert (cf_handle s CF_METADATA = true) as Hm.
  { destruct HC as (_ & _ & Ht). destruct (chain_tip C) as [[t th]|]; [destruct Ht as (_ & _ & Ht & _)|];
      by apply Db_get_Ok in Ht as [? _]. }
  unfold put_block. destruct (serialize block) as [bs|e]; cbn; [|done].
  unfold batch_put, resolve_cf. destruct (cf_handle s CF_BLOCKS) eqn:H1; cbn; [|done].
  destruct (cf_handle s CF_BLOCK_HASH) eqn:H2; cbn; [|done].
  rewrite (latest_height_holds s C HC). cbn.
  assert ((match fst <$> chain_tip C with None => true | Some current => current <=? Block_height block end)
    = advances C block) as -> by (unfold advances; by destruct (chain_tip C) as [[]|]).
  assert (∀ (r : result StorageError DB), (∃ ops, r = write_batch s ops) → match r with Ok _ => True | Err e =>
    match e with SerializationFailed _ | ColumnFamilyNotFound _ | BatchFailed _ => True | _ => False end end) as Herr.
  { intros r [ops ->]. unfold write_batch. by destruct (rocks_write s ops). }
  destruct (advances C block) eqn:Ha; rewrite ?Hm; cbn; unfold block_batch; cbn;
    match goal with |- context [write_batch s ?ops] =>
      pose proof (Herr _ (ex_intro _ ops eq_refl)); destruct (write_batch s ops) eqn:Hw; [|done] end;
    (exists bs; split_and!; [done|done|]); intros cf; rewrite !elem_of_cons, elem_of_nil; naive_solver.
Qed.

Lemma height_key_inj h h' : h <= u64_max → h' <= u64_max → height_key h = height_key h' → h = h'.
Proof. unfold u64_max. intros ? ? H. apply (be_bytes_inj 8) in H; [done|lia..]. Qed.

Lemma put_block_holds s C block hash s' :
  chain_holds s C → Block_height block <= u64_max → hash < 256 ^ 32 → put_block s block hash = Ok s' →
  chain_holds s' (chain_put C block hash).
Proof.
  intros HC Hh Hash Hp. pose proof (put_block_batch s C block hash HC) as Hb. rewrite Hp in Hb.
  destruct Hb as (bs & Hs & Hw & Hcf). destruct HC as (H1 & H2 & H3).
  assert (∀ cf k, cf ∈ [CF_BLOCKS; CF_BLOCK_HASH; CF_METADATA] → Db_get s' cf k =
    map_err Database (batch_view cf k (block_batch block hash bs (advances C block)) (get_cf s cf k))) as Hg.
  { intros cf k Hin. rewrite (write_batch_get _ _ _ _ _ Hw). unfold resolve_cf. by rewrite (Hcf _ Hin). }
  assert (∀ cf k, cf ∈ [CF_BLOCKS; CF_BLOCK_HASH; CF_METADATA] → map_err Database (get_cf s cf k) = Db_get s cf k) as Hg0.
  { intros cf k Hin. unfold Db_get, resolve_cf. by rewrite (Hcf _ Hin). }
  split_and!.
  - intros h Hle. cbn [chain_put by_height]. unfold reads. rewrite Hg by set_solver.
    unfold block_batch, batch_view. rewrite foldl_app. cbn [foldl op_view].
    assert (∀ (l : bool) r, foldl (op_view CF_BLOCKS (height_key h)) r (if l then [BPut CF_METADATA META_LATEST_HEIGHT (height_key (Block_height block));
                   BPut CF_METADATA META_LATEST_HASH (Hash_as_bytes hash)] else []) = r) as Hmeta by (by intros []).
    rewrite Hmeta. rewrite (decide_False (P := CF_BLOCK_HASH = CF_BLOCKS ∧ _)) by naive_solver.
    destruct (decide (h = Block_height block)) as [->|Hne].
    + rewrite lookup_insert_eq. rewrite decide_True by done. by exists bs.
    + rewrite lookup_insert_ne by done. rewrite decide_False by (intros [_ ?%height_key_inj]; naive_solver).
      rewrite Hg0 by set_solver. exact (H1 h Hle).
  - intros h Hle. cbn [chain_put by_hash]. unfold reads. rewrite Hg by set_solver.
    unfold block_batch, batch_view. rewrite foldl_app. cbn [foldl op_view].
    assert (∀ (l : bool) r, foldl (op_view CF_BLOCK_HASH (Hash_as_bytes h)) r (if l then [BPut CF_METADATA META_LATEST_HEIGHT (height_key (Block_height block));
                   BPut CF_METADATA META_LATEST_HASH (Hash_as_bytes hash)] else []) = r) as Hmeta by (by intros []).
    rewrite Hmeta. rewrite (decide_False (P := CF_BLOCKS = CF_BLOCK_HASH ∧ _)) by naive_solver.
    destruct (decide (h = hash)) as [->|Hne].
    + rewrite lookup_insert_eq. rewrite decide_True by done. by exists bs.
    + rewrite lookup_insert_ne by done.
      rewrite decide_False by (intros [_ E]; apply Hne; symmetry; by apply (be_bytes_inj 32)).
      rewrite Hg0 by set_solver. exact (H2 h Hle).
  - unfold chain_put; cbn [chain_tip]. rewrite !Hg by set_solver. unfold block_batch, batch_view, advances.
    destruct (chain_tip C) as [[t th]|]; [destruct (t <=? Block_height block)|].
    + cbn. by split_and!.
    + destruct H3 as (Ht & Hth & H3 & H4). cbn [app foldl op_view batch_view].
      rewrite !(decide_False (P := _ = CF_METADATA ∧ _)) by naive_solver. rewrite !Hg0 by set_solver. by split_and!.
    + cbn. by split_and!.
Qed.

Lemma chain_put_wf C block hash :
  chain_wf C → (∀ b, by_hash C !! hash = Some b → b = block) → chain_wf (chain_put C block hash).
Proof.
  intros [Hmax Htip] Hfresh. split; cbn.
  - intros h b. destruct (decide (Block_height block = h)) as [<-|Hne].
    + rewrite lookup_insert_eq. intros [= <-]. split; [done|].
      destruct (chain_tip C) as [[t th]|]; [|by eexists _, _].
      destruct (N.leb_spec t (Block_height block)); eexists _, _; (split; [done|lia]).
    + rewrite lookup_insert_ne by done. intros (Hb & t & th & -> & Hle)%Hmax. split; [done|].
      destruct (N.leb_spec t (Block_height block)); eexists _, _; (split; [done|lia]).
  - intros t' th'. destruct (chain_tip C) as [[t th]|].
    + destruct (N.leb_spec t (Block_height block)).
      * intros [= <- <-]. exists block. by rewrite !lookup_insert_eq.
      * intros [= <- <-]. destruct (Htip t th eq_refl) as (b & Hb1 & Hb2). exists b.
        rewrite lookup_insert_ne by lia. split; [done|]. destruct (decide (hash = th)) as [->|].
        -- rewrite lookup_insert_eq. f_equal. symmetry. by apply Hfresh.
        -- by rewrite lookup_insert_ne.
    + intros [= <- <-]. exists block. by rewrite !lookup_insert_eq.
Qed.

(** C21. [put_block] and the reads refine an abstract chain: on success every
    read (by height, by hash, [tip]) answers from the chain with the block
    added, where the tip moves only to a height at least as high; the tip stays
    the highest stored height and its hash finds the block at that height (as
    long as a hash names one block).  An error is one of encoding, column family
    or batch write. *)
Theorem put_block_refines s C block hash :
  chain_holds s C → chain_wf C → Block_height block <= u64_max → hash < 256 ^ 32 →
  (∀ b, by_hash C !! hash = Some b → b = block) →
  match put_block s block hash with
  | Ok s' =>
      let C' := chain_put C block hash in
      chain_holds s' C' ∧ chain_wf C' ∧ tip s' = Ok (chain_tip C') ∧
      (∀ h, h <= u64_max → get_block_by_height s' h = Ok (by_height C' !! h)) ∧
      (∀ h, h < 256 ^ 32 → get_block_by_hash s' h = Ok (by_hash C' !! h))
  | Err e => match e with SerializationFailed _ | ColumnFamilyNotFound _ | BatchFailed _ => True | _ => False end
  end.
Proof.
  intros HC Hwf Hh Hash Hfresh. pose proof (put_block_batch s C block hash HC) as Hb.
  destruct (put_block s block hash) as [s'|e] eqn:Hp; [|done]. clear Hb.
  pose proof (put_block_holds s C block hash s' HC Hh Hash Hp) as HC'. cbv zeta. split_and!; [done|by apply chain_put_wf|by apply tip_holds|..].
  - intros h Hle. by apply read_block_reads, HC'.
  - intros h Hle. by apply read_block_reads, HC'.
Qed.

Lemma range_from_spec s C n : ∀ from,
  chain_holds s C → from + N.of_nat n <= u64_max + 1 →
  ∃ bs, range_from s from n = Ok bs ∧ (length bs <= n)%nat ∧
    (∀ i, (i < length bs)%nat → by_height C !! (from + N.of_nat i) = bs !! i) ∧
    ((length bs < n)%nat → by_height C !! (from + N.of_nat (length bs)) = None).
Proof.
  induction n as [|n IH]; intros from HC Hle; cbn [range_from]; [exists []; split_and!; cbn; [done|lia|lia|lia]|].
  assert (get_block_by_height s from = Ok (by_height C !! from)) as ->.
  { apply read_block_reads, HC. lia. }
  cbn. destruct (by_height C !! from) as [b|] eqn:Hb.
  - destruct (IH (from + 1)) as (bs & -> & Hl & Hi & Hn); [done|lia|]. cbn. exists (b :: bs). cbn. split_and!; [done|lia|..].
    + intros [|i] Hlt; [by rewrite N.add_0_r|]. cbn. rewrite <-Hi by lia. f_equal. lia.
    + intros Hlt. rewrite <-Hn by lia. f_equal. lia.
  - exists []. split_and!; cbn; [done|lia|lia|]. intros _. by rewrite N.add_0_r.
Qed.

(** [get_range] returns the longest contiguous run of stored blocks from
    [from], cut at [to]: the blocks it returns are those at the consecutive
    heights, and when it returns fewer than the range asks for, the next height
    is missing. *)
Theorem get_range_prefix s C from to :
  chain_holds s C → to <= u64_max →
  ∃ bs, get_range s from to = Ok bs ∧ N.of_nat (length bs) <= to + 1 - from ∧
    (∀ i, (i < length bs)%nat → by_height C !! (from + N.of_nat i) = bs !! i) ∧
    (N.of_nat (length bs) < to + 1 - from → by_height C !! (from + N.of_nat (length bs)) = None).
Proof.
  intros HC Hto. unfold get_range. destruct (N.ltb_spec to from).
  - exists []. split_and!; cbn; [done|lia|lia|lia].
  - destruct (range_from_spec s C (N.to_nat (to - from + 1)) from HC) as (bs & Hr & Hl & Hi & Hn); [lia|].
    exists bs. split_and!; [done|lia|done|]. intros. apply Hn. lia.
Qed.
End refinement.
