(* ===== verification/Crypto.v ===== *)
(** * Keys and signatures ([lemma-crypto/src/keypair.rs], [signing.rs], [error.rs])

    Ed25519 and ML-DSA-65 are packages the crate calls: the class [Hybrid65]
    holds the operations the code uses and [Hybrid65Laws] what it relies on.
    Hybrid signing and verification, transaction hashes, personal messages and
    the keystore format are the crate's own. *)
From stdpp Require Import strings pretty.
From S2P Require Import Prelude CoreTypes DagBlock Fee Transaction Db.

(** ** [error.rs].  A reason rendered from an underlying error is that error's text. *)

Inductive CryptoError :=
  | ClassicalVerificationFailed
  | QuantumVerificationFailed
  | HybridSignatureRequired (got : string)
  | UnsignedTransaction
  | InvalidClassicalSignatureLength (got : nat)
  | InvalidQuantumSignatureLength (expected got : nat)
  | InvalidPublicKeyBytes (reason : string)
  | InvalidQuantumPublicKeyBytes (reason : string)
  | KeyGenerationFailed (reason : string)
  | CryptoSerializationFailed (reason : string)
  | InvalidKeystoreLength (expected got : nat)
  | InvalidKeystoreKeyMaterial (which reason : string).

(** ** The signature packages *)

Class Hybrid65 := {
  ed_sk : Type; pq_sk : Type; pq_pk : Type;
  ed_sk_bytes : ed_sk → bytes;
  ed_sk_from_bytes : bytes → ed_sk;
  ed_verifying_key : ed_sk → bytes;
  ed_vk_from_bytes : bytes → result string bytes;
  ed_sign : ed_sk → bytes → bytes;
  ed_verify : bytes → bytes → bytes → bool;
  pq_sk_bytes : pq_sk → bytes;
  pq_sk_from_bytes : bytes → result string pq_sk;
  pq_pk_bytes : pq_pk → bytes;
  pq_pk_from_bytes : bytes → result string pq_pk;
  pq_sign : bytes → pq_sk → bytes;
  pq_sig_from_bytes : bytes → result string bytes;
  pq_verify : bytes → bytes → pq_pk → bool;
  pq_signature_bytes : nat;
  pq_pair : pq_sk → pq_pk → Prop;
}.

Class Hybrid65Laws `{!Hybrid65} : Prop := {
  ed_vk_len sk : length (ed_verifying_key sk) = 32%nat;
  ed_vk_decodes sk : ed_vk_from_bytes (ed_verifying_key sk) = Ok (ed_verifying_key sk);
  ed_sig_len sk m : length (ed_sign sk m) = 64%nat;
  ed_sign_verifies sk m : ed_verify (ed_verifying_key sk) m (ed_sign sk m) = true;
  pq_pk_decodes pk : pq_pk_from_bytes (pq_pk_bytes pk) = Ok pk;
  pq_sk_decodes sk : pq_sk_from_bytes (pq_sk_bytes sk) = Ok sk;
  pq_sig_decodes sk m : pq_sig_from_bytes (pq_sign m sk) = Ok (pq_sign m sk);
  pq_sign_verifies sk pk m : pq_pair sk pk → pq_verify (pq_sign m sk) m pk = true;
  ed_sk_len sk : length (ed_sk_bytes sk) = 32%nat;
  ed_sk_decodes sk : ed_sk_from_bytes (ed_sk_bytes sk) = sk;
  pq_sk_len sk : length (pq_sk_bytes sk) = 4032%nat;
  pq_pk_len pk : length (pq_pk_bytes pk) = 1952%nat;
}.

(** ** [keypair.rs] *)

Record PublicKey := { pk_classical : bytes; pk_quantum : bytes }.
Record HybridSignature := { hs_classical : bytes; hs_quantum : bytes }.

Definition to_lemma_signature (self : HybridSignature) : Signature :=
  Hybrid (hs_classical self) (hs_quantum self).

Definition from_consensus_key (ck : ConsensusKey) : PublicKey :=
  {| pk_classical := classical ck; pk_quantum := quantum ck |}.
Definition to_consensus_key (pk : PublicKey) : ConsensusKey :=
  {| classical := pk_classical pk; quantum := pk_quantum pk |}.

Definition ED_SK_LEN : nat := 32.
Definition ML_SK_LEN : nat := 4032.
Definition ML_PK_LEN : nat := 1952.
Definition KEYSTORE_BYTE_LEN : nat := ED_SK_LEN + ML_SK_LEN + ML_PK_LEN.

Section keys.
Context `{!Hybrid65} (blake3 : bytes → Hash).

Definition classical_verifying_key (self : PublicKey) : result CryptoError bytes :=
  if (length (pk_classical self) =? 32)%nat
  then map_err InvalidPublicKeyBytes (ed_vk_from_bytes (pk_classical self))
  else Err (InvalidPublicKeyBytes ("expected 32 bytes, got " +:+ pretty (length (pk_classical self)))).

Definition quantum_public_key (self : PublicKey) : result CryptoError pq_pk :=
  map_err InvalidQuantumPublicKeyBytes (pq_pk_from_bytes (pk_quantum self)).

Definition to_address (self : PublicKey) : option Address :=
  if (length (pk_classical self) =? 32)%nat
  then Some (Address_from_public_key blake3 (pk_classical self)) else None.

Record KeyPair := {
  kp_classical : ed_sk;
  kp_quantum_sk : pq_sk;
  kp_quantum_pk : pq_pk;
  kp_address : Address;
}.

Definition public_key (self : KeyPair) : PublicKey :=
  {| pk_classical := ed_verifying_key (kp_classical self); pk_quantum := pq_pk_bytes (kp_quantum_pk self) |}.

Definition sign (self : KeyPair) (message : bytes) : HybridSignature :=
  {| hs_classical := ed_sign (kp_classical self) message; hs_quantum := pq_sign message (kp_quantum_sk self) |}.

Definition sign_to_lemma (self : KeyPair) (message : bytes) : Signature := to_lemma_signature (sign self message).

Definition to_keystore_bytes (self : KeyPair) : bytes :=
  ed_sk_bytes (kp_classical self) ++ pq_sk_bytes (kp_quantum_sk self) ++ pq_pk_bytes (kp_quantum_pk self).

Definition from_keystore_bytes (b : bytes) : result CryptoError KeyPair :=
  if negb (length b =? KEYSTORE_BYTE_LEN)%nat
  then Err (InvalidKeystoreLength KEYSTORE_BYTE_LEN (length b)) else
  let ed_bytes := take ED_SK_LEN b in
  let rest := drop ED_SK_LEN b in
  let ml_sk_bytes := take ML_SK_LEN rest in
  let ml_pk_bytes := drop ML_SK_LEN rest in
  let classical := ed_sk_from_bytes ed_bytes in
  let address := Address_from_public_key blake3 (ed_verifying_key classical) in
  quantum_sk ← map_err (InvalidKeystoreKeyMaterial "ML-DSA-65 secret key") (pq_sk_from_bytes ml_sk_bytes);
  quantum_pk ← map_err (InvalidKeystoreKeyMaterial "ML-DSA-65 public key") (pq_pk_from_bytes ml_pk_bytes);
  Ok {| kp_classical := classical; kp_quantum_sk := quantum_sk; kp_quantum_pk := quantum_pk; kp_address := address |}.

Definition verify_hybrid (pubkey : PublicKey) (message : bytes) (sig : HybridSignature) : result CryptoError () :=
  vk ← classical_verifying_key pubkey;
  _ ← (if (length (hs_classical sig) =? 64)%nat then Ok ()
       else Err (InvalidClassicalSignatureLength (length (hs_classical sig))));
  _ ← (if ed_verify vk message (hs_classical sig) then Ok () else Err ClassicalVerificationFailed);
  pq_pub ← quantum_public_key pubkey;
  pq_sig ← map_err (λ _, InvalidQuantumSignatureLength pq_signature_bytes (length (hs_quantum sig)))
             (pq_sig_from_bytes (hs_quantum sig));
  if pq_verify pq_sig message pq_pub then Ok () else Err QuantumVerificationFailed.

(** ** [signing.rs] *)

Record TxSigningBody := {
  b_sender : Address; b_to : option Address; b_nonce : N; b_chain_id : N; b_value : Amount; b_gas_limit : N;
  b_gas_price : Amount; b_tx_type : TxType; b_data : bytes; b_session_key : option bytes;
}.

Definition from_tx (tx : Transaction) : TxSigningBody := {|
  b_sender := sender tx; b_to := to tx; b_nonce := nonce tx; b_chain_id := chain_id tx; b_value := value tx;
  b_gas_limit := tx_gas_limit tx; b_gas_price := gas_price tx; b_tx_type := tx_type tx; b_data := data tx;
  b_session_key := session_key tx;
|}.

Context `{!Codec TxSigningBody}.

(** [lemma_crypto::hash]. *)
Definition hash_body (body : TxSigningBody) : result CryptoError Hash :=
  b ← map_err CryptoSerializationFailed (serialize body); Ok (hash_bytes blake3 b).

Definition compute_tx_hash (tx : Transaction) : result CryptoError Hash := hash_body (from_tx tx).

Definition with_hash_sig (tx : Transaction) (h : Hash) (sig : Signature) : Transaction :=
  {| tx_hash := h; sender := sender tx; to := to tx; nonce := nonce tx; chain_id := chain_id tx; value := value tx;
     tx_gas_limit := tx_gas_limit tx; gas_price := gas_price tx; tx_type := tx_type tx; data := data tx;
     signature := sig; session_key := session_key tx; owner_cosignature := owner_cosignature tx |}.

Definition sign_transaction (tx : Transaction) (keypair : KeyPair) : result CryptoError Transaction :=
  h ← hash_body (from_tx tx);
  let sig := sign keypair (Hash_as_bytes h) in
  Ok (with_hash_sig tx h (to_lemma_signature sig)).

Definition verify_transaction (tx : Transaction) (pubkey : PublicKey) : result CryptoError () :=
  hybrid_sig ← match signature tx with
    | Unsigned => Err UnsignedTransaction
    | Classical _ => Err (HybridSignatureRequired "Classical")
    | PostQuantum _ => Err (HybridSignatureRequired "PostQuantum")
    | Hybrid classical quantum => Ok {| hs_classical := classical; hs_quantum := quantum |}
    end;
  h ← compute_tx_hash tx;
  verify_hybrid pubkey (Hash_as_bytes h) hybrid_sig.

(** b"\x19Lemma Signed Message:\n" *)
Definition PERSONAL_SIGN_DOMAIN : bytes :=
  [25; 76; 101; 109; 109; 97; 32; 83; 105; 103; 110; 101; 100; 32; 77; 101; 115; 115; 97; 103; 101; 58; 10].

Definition message_preimage (message : bytes) : bytes :=
  PERSONAL_SIGN_DOMAIN ++ le_bytes 8 (N.of_nat (length message)) ++ message.

Definition compute_message_hash (message : bytes) : Hash := blake3 (message_preimage message).

Definition sign_message (message : bytes) (keypair : KeyPair) : HybridSignature :=
  sign keypair (Hash_as_bytes (compute_message_hash message)).

Definition verify_message (message : bytes) (signature : HybridSignature) (pubkey : PublicKey) : result CryptoError () :=
  verify_hybrid pubkey (Hash_as_bytes (compute_message_hash message)) signature.
End keys.

(** ** Theorems *)

Section theorems.
Context `{!Hybrid65, !Hybrid65Laws} `{!Codec TxSigningBody} (blake3 : bytes → Hash).

Lemma from_tx_with_hash_sig tx h sig : from_tx (with_hash_sig tx h sig) = from_tx tx.
Proof. done. Qed.

Lemma verify_sign kp m :
  pq_pair (kp_quantum_sk kp) (kp_quantum_pk kp) → verify_hybrid (public_key kp) m (sign kp m) = Ok ().
Proof.
  intros Hp. unfold verify_hybrid, classical_verifying_key, quantum_public_key. cbn.
  rewrite ed_vk_len, ed_vk_decodes. cbn. rewrite ed_sig_len, ed_sign_verifies. cbn.
  rewrite pq_pk_decodes, pq_sig_decodes. cbn. by rewrite pq_sign_verifies.
Qed.

(** Signing round trips: a transaction signed with a key pair verifies under
    its public key and carries its recomputed hash, and so does a personal
    message. *)
Theorem sign_verify_roundtrip kp tx tx' m :
  pq_pair (kp_quantum_sk kp) (kp_quantum_pk kp) → sign_transaction blake3 tx kp = Ok tx' →
  verify_transaction blake3 tx' (public_key kp) = Ok () ∧ compute_tx_hash blake3 tx' = Ok (tx_hash tx') ∧
  verify_message blake3 m (sign_message blake3 m kp) (public_key kp) = Ok ().
Proof.
  intros Hp Hs. unfold sign_transaction in Hs. apply bind_Ok in Hs as (h & Hh & [= <-]).
  unfold verify_transaction, compute_tx_hash, verify_message, sign_message. rewrite !from_tx_with_hash_sig, !Hh.
  split_and!; [|done|by apply verify_sign]. exact (verify_sign kp (Hash_as_bytes h) Hp).
Qed.

(** Keystore round trip: decoding the bytes of a key pair whose address is
    the one of its Ed25519 key gives the key pair back, and a file of any other
    length is refused with both lengths. *)
Theorem keystore_roundtrip kp b :
  kp_address kp = Address_from_public_key blake3 (ed_verifying_key (kp_classical kp)) →
  from_keystore_bytes blake3 (to_keystore_bytes kp) = Ok kp ∧
  (length b ≠ KEYSTORE_BYTE_LEN →
   from_keystore_bytes blake3 b = Err (InvalidKeystoreLength KEYSTORE_BYTE_LEN (length b))).
Proof.
  intros Ha. unfold from_keystore_bytes. split.
  - unfold to_keystore_bytes. rewrite !length_app, ed_sk_len, pq_sk_len, pq_pk_len.
    replace (32 + (4032 + 1952) =? KEYSTORE_BYTE_LEN)%nat with true by done. cbn [negb].
    rewrite take_app_length' by (by rewrite ed_sk_len). rewrite drop_app_length' by (by rewrite ed_sk_len).
    rewrite take_app_length' by (by rewrite pq_sk_len). rewrite drop_app_length' by (by rewrite pq_sk_len).
    rewrite ed_sk_decodes, pq_sk_decodes, pq_pk_decodes. cbn. rewrite <-Ha. by destruct kp.
  - intros Hl. by rewrite (proj2 (Nat.eqb_neq _ _) Hl).
Qed.

Lemma message_preimage_inj m1 m2 : message_preimage m1 = message_preimage m2 → m1 = m2.
Proof.
  unfold message_preimage. intros Hm. apply app_inv_head in Hm.
  apply app_inj_1 in Hm as [_ Hm]; [done|]. by rewrite !length_le_bytes.
Qed.

(** Domain separation of personal messages: two messages that hash alike are
    equal or their pre-images collide, and the pre-image of a message is never
    the encoding of a transaction body whose second byte is zero (which the
    string length prefix of the encoded sender address makes it), so that a
    signature on a message is a signature on a transaction only through a
    collision. *)
Theorem message_domain_separated m1 m2 body b0 rest :
  serialize body = Ok (b0 :: 0 :: rest) →
  (compute_message_hash blake3 m1 = compute_message_hash blake3 m2 →
   m1 = m2 ∨ (message_preimage m1 ≠ message_preimage m2 ∧ blake3 (message_preimage m1) = blake3 (message_preimage m2))) ∧
  (hash_body blake3 body = Ok (compute_message_hash blake3 m1) →
   (b0 :: 0 :: rest) ≠ message_preimage m1 ∧ blake3 (b0 :: 0 :: rest) = blake3 (message_preimage m1)).
Proof.
  intros Hb. split.
  - intros Hh. destruct (decide (message_preimage m1 = message_preimage m2)) as [He|]; [left|by right].
    by apply message_preimage_inj.
  - unfold hash_body. rewrite Hb. cbn. intros [= Hh]. split; [|done]. unfold message_preimage. cbn. by intros [=].
Qed.

(** Transaction verification does not read the stored hash: replacing the
    [hash] field by any value leaves the verdict as it was, because
    [verify_transaction] recomputes the hash and never compares. *)
Theorem verify_ignores_hash tx pk h :
  verify_transaction blake3 (with_hash_sig tx h (signature tx)) pk = verify_transaction blake3 tx pk.
Proof. done. Qed.

(** The quantum key is not bound to the account: an address depends on the
    Ed25519 key alone, so whoever controls only the Ed25519 half of an account
    signs for it with a fresh ML-DSA key pair of their own, and the signature
    verifies under the public key that maps to the account's address. *)
Theorem quantum_key_unbound kp sk' pk' tx tx' :
  pq_pair sk' pk' →
  let forger := {| kp_classical := kp_classical kp; kp_quantum_sk := sk'; kp_quantum_pk := pk';
                   kp_address := kp_address kp |} in
  sign_transaction blake3 tx forger = Ok tx' →
  to_address blake3 (public_key forger) = to_address blake3 (public_key kp) ∧
  verify_transaction blake3 tx' (public_key forger) = Ok ().
Proof.
  intros Hp forger Hs. split; [done|]. unfold sign_transaction in Hs. apply bind_Ok in Hs as (h & Hh & [= <-]).
  unfold verify_transaction, compute_tx_hash. rewrite from_tx_with_hash_sig, Hh.
  exact (verify_sign forger (Hash_as_bytes h) Hp).
Qed.
End theorems.
