(* ===== verification/MempoolPolicy.v ===== *)
(** * Mempool admission policy
    ([lemma-mempool/src/circuit_breaker.rs], [qos.rs], [express.rs], [local_fees.rs])

    Load tiers, the stake-weighted priority, the Express classification and the
    per-contract fee market. *)
From stdpp Require Import strings.
From S2P Require Import Prelude CoreTypes DagBlock Fee Transaction.

(** ** [circuit_breaker.rs] *)

Definition BUSY_THRESHOLD_PCT : N := 70.
Definition CRITICAL_THRESHOLD_PCT : N := 90.
Definition EMERGENCY_THRESHOLD_PCT : N := 100.

Inductive NetworkTier := Normal | Busy | Critical | Emergency.

#[export] Instance NetworkTier_eq_dec : EqDecision NetworkTier.
Proof. solve_decision. Defined.

Definition from_load (pending_count capacity : N) : NetworkTier :=
  if capacity =? 0 then Emergency else
  let load_pct := saturating_mul u64_max pending_count 100 / capacity in
  if load_pct <? BUSY_THRESHOLD_PCT then Normal else
  if load_pct <? CRITICAL_THRESHOLD_PCT then Busy else
  if load_pct <? EMERGENCY_THRESHOLD_PCT then Critical else Emergency.

Definition admits (self : NetworkTier) (tx_type : TxType) : bool :=
  match self with
  | Normal => true
  | Busy => match tx_type with Transfer | ContractCall | Stake_ | Unstake | GovernanceVote => true | _ => false end
  | Critical => match tx_type with Transfer | Stake_ | Unstake | GovernanceVote => true | _ => false end
  | Emergency => match tx_type with Stake_ | Unstake => true | _ => false end
  end.

Definition rejection_reason (self : NetworkTier) : string :=
  match self with
  | Normal => "Normal: all transaction types accepted"
  | Busy => "Busy: ContractDeploy deferred; resubmit when load normalises"
  | Critical => "Critical: only Transfer, Stake, Unstake, GovernanceVote accepted"
  | Emergency => "Emergency: only Stake and Unstake accepted"
  end.

Definition is_admitted (tx_type : TxType) (pending_count capacity : N) : bool :=
  admits (from_load pending_count capacity) tx_type.

(** ** [qos.rs] *)

Notation Priority := N (only parsing).
Definition STAKE_UNIT : N := DROPS_PER_LEM.
Definition MAX_STAKE_BONUS : N := 1000000.

Definition saturating_u128_to_u64 (v : N) : N := N.min v u64_max.

Definition stake_bonus (sender_stake : Amount) : N :=
  let raw_bonus := sender_stake / STAKE_UNIT in
  N.min (saturating_u128_to_u64 raw_bonus) MAX_STAKE_BONUS.

Definition priority_score (gas_price sender_stake : Amount) : Priority :=
  let gas_component := saturating_u128_to_u64 gas_price in
  let bonus := stake_bonus sender_stake in
  saturating_add u64_max gas_component bonus.

(** ** [express.rs] *)

Record ExpressHint := {
  is_express_eligible : bool;
  reads_shared_state : bool;
  is_private : bool;
}.

Definition ExpressHint_new (is_express_eligible reads_shared_state is_private : bool) : ExpressHint :=
  {| is_express_eligible := is_express_eligible; reads_shared_state := reads_shared_state; is_private := is_private |}.
Definition ExpressHint_eligible : ExpressHint := ExpressHint_new true false false.

Inductive FallbackReason := MissingHint | NotCompilerEligible | SharedStateRead | PrivateTx | IneligibleTxType.

Inductive ExpressEligibility := Eligible | Fallback (reason : FallbackReason).

Definition is_eligible (self : ExpressEligibility) : bool :=
  match self with Eligible => true | _ => false end.
Definition fallback_reason (self : ExpressEligibility) : option FallbackReason :=
  match self with Eligible => None | Fallback reason => Some reason end.

Definition is_allowed_tx_type (tx_type : TxType) : bool :=
  match tx_type with Transfer => true | _ => false end.

Definition classify (tx_type : TxType) (hint : option ExpressHint) : ExpressEligibility :=
  if negb (is_allowed_tx_type tx_type) then Fallback IneligibleTxType else
  match hint with
  | None => Fallback MissingHint
  | Some hint =>
      if negb (is_express_eligible hint) then Fallback NotCompilerEligible else
      if reads_shared_state hint then Fallback SharedStateRead else
      if is_private hint then Fallback PrivateTx else
      Eligible
  end.

(** ** [local_fees.rs] *)

Definition DECAY_NUM : N := 7.
Definition DECAY_DEN : N := 8.
Definition HIGH_DEMAND_THRESHOLD : N := 800.
Definition SCALE_FACTOR : N := 400.
Definition MAX_SURCHARGE_MULTIPLIER : N := 10.

Record ContractLoad := { ema_load : N; current_block_count : N }.

Notation LocalFeeMarket := (gmap Address ContractLoad) (only parsing).

Definition LocalFeeMarket_new : LocalFeeMarket := ∅.

Definition record (self : LocalFeeMarket) (contract : Address) : LocalFeeMarket :=
  let load := default {| ema_load := 0; current_block_count := 0 |} (self !! contract) in
  <[contract := {| ema_load := ema_load load;
                   current_block_count := saturating_add u64_max (current_block_count load) 1 |}]> self.

Definition tick_load (load : ContractLoad) : ContractLoad :=
  let numerator := saturating_add u128_max (saturating_mul u128_max (ema_load load) DECAY_NUM) (current_block_count load) in
  let new_ema := numerator / DECAY_DEN in
  {| ema_load := N.min new_ema u64_max; current_block_count := 0 |}.

Definition tick (self : LocalFeeMarket) : LocalFeeMarket := tick_load <$> self.

Definition prune_idle (self : LocalFeeMarket) : LocalFeeMarket :=
  filter (λ kv, 0 < ema_load kv.2 ∨ 0 < current_block_count kv.2) self.

Definition contract_load (self : LocalFeeMarket) (contract : Address) : N :=
  from_option ema_load 0 (self !! contract).

Definition fee_at (ema global_base : N) : N :=
  let excess := saturating_sub ema HIGH_DEMAND_THRESHOLD in
  let numerator := saturating_add u128_max SCALE_FACTOR excess in
  let cap := saturating_mul u128_max SCALE_FACTOR MAX_SURCHARGE_MULTIPLIER in
  let capped := N.min numerator cap in
  let fee := saturating_mul u128_max global_base capped / SCALE_FACTOR in
  N.min fee u64_max.

Definition local_base_fee (self : LocalFeeMarket) (contract : Address) (global_base : N) : N :=
  fee_at (contract_load self contract) global_base.

Definition tracked_contracts (self : LocalFeeMarket) : nat := size self.

(** ** Theorems *)

Definition tier_rank (t : NetworkTier) : nat :=
  match t with Normal => 0 | Busy => 1 | Critical => 2 | Emergency => 3 end.

(** Load shedding is monotone: a transaction type admitted at some load is
    admitted at every lower load, and stake and unstake transactions are
    admitted at every load. *)
Theorem admission_monotone ty n1 n2 capacity :
  n1 <= n2 → is_admitted ty n2 capacity = true →
  is_admitted ty n1 capacity = true ∧ is_admitted Stake_ n2 capacity = true ∧ is_admitted Unstake n2 capacity = true.
Proof.
  intros Hle Ha. split; [|by unfold is_admitted; destruct (from_load n2 capacity)].
  assert (tier_rank (from_load n1 capacity) <= tier_rank (from_load n2 capacity))%nat as Hr.
  { unfold from_load. destruct (N.eqb_spec capacity 0); [done|].
    assert (saturating_mul u64_max n1 100 / capacity <= saturating_mul u64_max n2 100 / capacity) as Hd.
    { apply N.Div0.div_le_mono. unfold saturating_mul. lia. }
    unfold BUSY_THRESHOLD_PCT, CRITICAL_THRESHOLD_PCT, EMERGENCY_THRESHOLD_PCT.
    repeat case_match; bool_hyps; cbn; lia. }
  unfold is_admitted in *. destruct (from_load n1 capacity), (from_load n2 capacity); cbn in Hr; try lia; by destruct ty.
Qed.

(** Priority never decreases with the offered gas price or with the stake,
    and stake adds at most the capped bonus. *)
Theorem priority_score_monotone p1 p2 s1 s2 :
  p1 <= p2 → s1 <= s2 →
  priority_score p1 s1 <= priority_score p2 s2 ∧ priority_score p2 s2 <= N.min p2 u64_max + MAX_STAKE_BONUS.
Proof.
  intros Hp Hs. unfold priority_score, stake_bonus, saturating_u128_to_u64, saturating_add.
  assert (s1 / STAKE_UNIT <= s2 / STAKE_UNIT) by (by apply N.Div0.div_le_mono). lia.
Qed.

(** Express is only for transfers that the compiler marked eligible, that
    read no shared state and are not private; in every other case there is a
    fallback reason. *)
Theorem classify_eligible ty hint :
  classify ty hint = Eligible ↔ ty = Transfer ∧ hint = Some ExpressHint_eligible.
Proof.
  unfold classify. destruct ty, hint as [[[] [] []]|]; cbn; naive_solver.
Qed.

(** The local fee is the global fee up to the demand threshold, never below
    the global fee, never above ten times it, and does not decrease with load
    (for global fees that leave room for the cap in 64 bits). *)
Theorem local_base_fee_bounds loads c1 c2 g :
  g * MAX_SURCHARGE_MULTIPLIER <= u64_max → contract_load loads c1 <= contract_load loads c2 →
  g <= local_base_fee loads c1 g <= local_base_fee loads c2 g ∧
  local_base_fee loads c2 g <= g * MAX_SURCHARGE_MULTIPLIER ∧
  (contract_load loads c1 <= HIGH_DEMAND_THRESHOLD → local_base_fee loads c1 g = g).
Proof.
  unfold local_base_fee. generalize (contract_load loads c1), (contract_load loads c2). intros e1 e2.
  unfold MAX_SURCHARGE_MULTIPLIER. intros Hg He.
  assert (∀ e, fee_at e g = g * N.min (400 + (e - 800)) 4000 / 400) as Hfee.
  { intros e. unfold fee_at, saturating_mul, saturating_add, saturating_sub, SCALE_FACTOR, HIGH_DEMAND_THRESHOLD, MAX_SURCHARGE_MULTIPLIER.
    change (N.min (400 * 10) u128_max) with 4000.
    assert (N.min (N.min (400 + (e - 800)) u128_max) 4000 = N.min (400 + (e - 800)) 4000) as ->.
    { assert (4000 <= u128_max) by done. lia. }
    assert (g * N.min (400 + (e - 800)) 4000 <= g * 10 * 400) as Hm by nia.
    assert (u64_max * 400 <= u128_max) by done.
    rewrite (N.min_l (g * _)) by nia. apply N.min_l.
    transitivity (g * 10 * 400 / 400); [by apply N.Div0.div_le_mono|]. rewrite N.div_mul by done. done. }
  rewrite !Hfee. assert (g * 400 / 400 = g) as Hg0 by (by apply N.div_mul). split_and!.
  - rewrite <-Hg0 at 1. apply N.Div0.div_le_mono. nia.
  - apply N.Div0.div_le_mono. nia.
  - transitivity (g * 10 * 400 / 400); [apply N.Div0.div_le_mono; nia|]. by rewrite N.div_mul.
  - intros Hle. unfold HIGH_DEMAND_THRESHOLD in Hle. replace (400 + (e1 - 800)) with 400 by lia. by rewrite N.min_l.
Qed.

(** One block at a constant rate of [x] transactions. *)
Definition ema_step (x e : N) : N := ema_load (tick_load {| ema_load := e; current_block_count := x |}).

Lemma ema_step_eq x e : x <= u64_max → e <= u64_max → ema_step x e = (7 * e + x) / 8.
Proof.
  intros Hx He. unfold ema_step, tick_load, saturating_add, saturating_mul, DECAY_NUM, DECAY_DEN. cbn.
  assert (u64_max * 8 <= u128_max) by done.
  rewrite (N.min_l (e * 7)) by lia. rewrite (N.min_l (e * 7 + x)) by lia.
  rewrite N.min_l; [f_equal; lia|]. apply N.Div0.div_le_upper_bound. lia.
Qed.

(** The moving average under a constant rate [x], from a contract with no
    load, grows strictly to [x - 7] and stops there: it never reaches the rate,
    and a contract with at most seven transactions per block never shows any
    load. *)
Theorem ema_steady_state x n :
  7 <= x → x <= u64_max →
  let e := Nat.iter n (ema_step x) 0 in
  e <= x - 7 ∧ (e < x - 7 → e < ema_step x e) ∧ (e = x - 7 → ema_step x e = e).
Proof.
  intros H7 Hx. assert (∀ e, e <= x - 7 → ema_step x e <= x - 7) as Hinv.
  { intros e He. rewrite ema_step_eq by lia. apply N.lt_succ_r. apply N.Div0.div_lt_upper_bound. lia. }
  assert (Nat.iter n (ema_step x) 0 <= x - 7) as He by (induction n; cbn; [lia|by apply Hinv]).
  cbv zeta. split_and!; [done|..].
  - intros Hlt. rewrite ema_step_eq by lia. apply N.lt_le_trans with (Nat.iter n (ema_step x) 0 + 1); [lia|].
    apply N.div_le_lower_bound; lia.
  - intros ->. rewrite ema_step_eq by lia. symmetry. apply (N.div_unique _ _ _ 7); lia.
Qed.

Lemma lookup_tick (loads : gmap Address ContractLoad) c : tick loads !! c = tick_load <$> loads !! c.
Proof. unfold tick. by rewrite lookup_fmap. Qed.

(** An idle contract is forgotten: with no new transactions the average of a
    contract decays to nothing within as many blocks as its value, and the
    contract is then dropped by the pruning that follows the tick. *)
Theorem idle_contract_pruned loads c load :
  loads !! c = Some load → current_block_count load = 0 → ema_load load <= u64_max →
  prune_idle (Nat.iter (S (N.to_nat (ema_load load))) tick loads) !! c = None.
Proof.
  intros Hl Hc He.
  assert (∀ n loads load, loads !! c = Some load → current_block_count load = 0 → ema_load load <= N.of_nat n →
    ema_load load <= u64_max → Nat.iter n tick loads !! c = Some {| ema_load := 0; current_block_count := 0 |}) as Hiter.
  { clear. induction n as [|n IH]; intros loads load Hl Hc Hn Hu.
    - destruct load as [e k]. cbn in *. subst k. assert (e = 0) as -> by lia. done.
    - rewrite Nat.iter_succ_r.
      assert (tick loads !! c = Some (tick_load load)) as Ht by (by rewrite lookup_tick, Hl).
      destruct load as [e k]. cbn in Hc, Hn, Hu. subst k.
      pose proof (ema_step_eq 0 e) as Hs. unfold ema_step in Hs.
      apply (IH _ (tick_load {| ema_load := e; current_block_count := 0 |})); [done|done|..].
      + rewrite Hs by done. destruct (decide (e = 0)) as [->|]; [change ((7 * 0 + 0) / 8) with 0; lia|].
        apply N.lt_succ_r. apply N.lt_le_trans with e; [|lia]. apply N.Div0.div_lt_upper_bound. lia.
      + rewrite Hs by done. apply N.Div0.div_le_upper_bound. lia. }
  unfold prune_idle. apply map_lookup_filter_None_2. right. intros x Hx.
  rewrite Nat.iter_succ, lookup_tick in Hx. rewrite (Hiter _ loads load) in Hx; [|done|done|lia|done]. injection Hx as <-. vm_compute. intros [H|H]; discriminate H.
Qed.
