(* ===== verification/RateLimit.v ===== *)
(** * Per-account rate limiting ([lemma-mempool/src/rate_limit.rs])

    Token buckets on [f64].  Floating point is the IEEE binary64 arithmetic of
    the Standard Library's [SpecFloat] (53 bits of precision, exponents below
    1024), so the model computes the code's numbers bit for bit. *)
From Stdlib Require Import SpecFloat ZArith.
From S2P Require Import Prelude CoreTypes.

(** ** [f64] *)

Definition f64_prec : Z := 53.
Definition f64_emax : Z := 1024.
Notation f64 := spec_float (only parsing).

(** [n as f64] for an unsigned integer. *)
Definition f64_of_N (n : N) : f64 := binary_normalize f64_prec f64_emax (Z.of_N n) 0 false.
Definition f64_add (a b : f64) : f64 := SFadd f64_prec f64_emax a b.
Definition f64_sub (a b : f64) : f64 := SFsub f64_prec f64_emax a b.
Definition f64_mul (a b : f64) : f64 := SFmul f64_prec f64_emax a b.
Definition f64_div (a b : f64) : f64 := SFdiv f64_prec f64_emax a b.
Definition f64_ge (a b : f64) : bool := SFleb b a.

Definition is_nan (a : f64) : bool := match a with S754_nan => true | _ => false end.

(** [f64::min] and [f64::max]: the other operand when one is not a number. *)
Definition f64_min (a b : f64) : f64 := if is_nan a then b else if SFltb b a then b else a.
Definition f64_max (a b : f64) : f64 := if is_nan a then b else if SFltb a b then b else a.

(** [f64::ceil]. *)
Definition f64_ceil (a : f64) : f64 :=
  match a with
  | S754_finite s m e =>
      if (0 <=? e)%Z then a else
      let d := Z.shiftl 1 (- e) in
      let v := if s then Z.neg m else Z.pos m in
      binary_normalize f64_prec f64_emax (- ((- v) / d)) 0 s
  | _ => a
  end.

(** [x as u64]: truncation, saturating, zero when not a number. *)
Definition f64_as_u64 (a : f64) : N :=
  match a with
  | S754_finite false m e =>
      N.min (Z.to_N (if (0 <=? e)%Z then Z.shiftl (Z.pos m) e else Z.shiftr (Z.pos m) (- e))) u64_max
  | S754_infinity false => u64_max
  | _ => 0
  end.

(** An [Instant] in nanoseconds; [Duration::as_secs_f64]. *)
Notation Instant := N (only parsing).
Definition as_secs_f64 (nanos : N) : f64 :=
  f64_add (f64_of_N (nanos / 1000000000)) (f64_div (f64_of_N (nanos mod 1000000000)) (f64_of_N 1000000000)).

(** ** Token buckets *)

Definition DEFAULT_BUCKET_CAPACITY : f64 := f64_of_N 20.
Definition DEFAULT_REFILL_PER_SEC : f64 := f64_of_N 5.

Record TokenBucket := { tokens : f64; last_refill : Instant }.

Definition TokenBucket_new (capacity : f64) (now : Instant) : TokenBucket :=
  {| tokens := capacity; last_refill := now |}.

(** The tokens after the refill for the time since the last one. *)
Definition refilled (self : TokenBucket) (capacity refill_per_sec : f64) (now : Instant) : f64 :=
  let elapsed_secs := as_secs_f64 (saturating_sub now (last_refill self)) in
  f64_min (f64_add (tokens self) (f64_mul elapsed_secs refill_per_sec)) capacity.

(** The error is the number of milliseconds to wait. *)
Definition try_consume (self : TokenBucket) (capacity refill_per_sec : f64) (now : Instant)
    : TokenBucket * result N () :=
  let t := refilled self capacity refill_per_sec now in
  if f64_ge t (f64_of_N 1)
  then ({| tokens := f64_sub t (f64_of_N 1); last_refill := now |}, Ok ())
  else
    let needed := f64_sub (f64_of_N 1) t in
    let wait_secs := f64_div needed refill_per_sec in
    let retry_ms := f64_as_u64 (f64_min (f64_ceil (f64_mul wait_secs (f64_of_N 1000))) (f64_of_N (2 ^ 64))) in
    ({| tokens := t; last_refill := now |}, Err retry_ms).

Definition TokenBucket_is_full (self : TokenBucket) (capacity : f64) : bool := f64_ge (tokens self) capacity.

Record RateLimiter := {
  buckets : gmap Address TokenBucket;
  rl_capacity : f64;
  refill_per_sec : f64;
}.

Definition RateLimiter_new (capacity refill_per_sec : f64) : RateLimiter := {|
  buckets := ∅;
  rl_capacity := f64_max capacity (f64_of_N 1);
  refill_per_sec := f64_max refill_per_sec (f64_of_N 1);
|}.

Definition with_defaults : RateLimiter := RateLimiter_new DEFAULT_BUCKET_CAPACITY DEFAULT_REFILL_PER_SEC.

Definition set_buckets (self : RateLimiter) (b : gmap Address TokenBucket) : RateLimiter :=
  {| buckets := b; rl_capacity := rl_capacity self; refill_per_sec := refill_per_sec self |}.

(** The error is the [retry_after_ms] of [MempoolError::RateLimited]. *)
Definition try_acquire (self : RateLimiter) (account : Address) (now : Instant) : RateLimiter * result N () :=
  let bucket := default (TokenBucket_new (rl_capacity self) now) (buckets self !! account) in
  let '(bucket', r) := try_consume bucket (rl_capacity self) (refill_per_sec self) now in
  (set_buckets self (<[account := bucket']> (buckets self)), r).

Definition prune_full (self : RateLimiter) (now : Instant) : RateLimiter :=
  let touch (b : TokenBucket) :=
    {| tokens := refilled b (rl_capacity self) (refill_per_sec self) now; last_refill := now |} in
  set_buckets self (filter (λ kv, TokenBucket_is_full kv.2 (rl_capacity self) = false) (touch <$> buckets self)).

Definition tracked_accounts (self : RateLimiter) : nat := size (buckets self).

(** ** Theorems *)

(** Acquisitions one after another at one instant, with their results. *)
Fixpoint acquire_n (n : nat) (rl : RateLimiter) (a : Address) (now : Instant) : RateLimiter * list (result N ()) :=
  match n with
  | O => (rl, [])
  | S n => let '(rl1, r) := try_acquire rl a now in let '(rl2, rs) := acquire_n n rl1 a now in (rl2, r :: rs)
  end.

(** The same on a single bucket. *)
Fixpoint consume_n (n : nat) (b : TokenBucket) (capacity refill : f64) (now : Instant) : TokenBucket * list (result N ()) :=
  match n with
  | O => (b, [])
  | S n => let '(b1, r) := try_consume b capacity refill now in let '(b2, rs) := consume_n n b1 capacity refill now in (b2, r :: rs)
  end.

Lemma acquire_consume n rl a now b :
  buckets rl !! a = Some b →
  (acquire_n n rl a now).2 = (consume_n n b (rl_capacity rl) (refill_per_sec rl) now).2 ∧
  buckets (acquire_n n rl a now).1 !! a = Some (consume_n n b (rl_capacity rl) (refill_per_sec rl) now).1 ∧
  rl_capacity (acquire_n n rl a now).1 = rl_capacity rl ∧ refill_per_sec (acquire_n n rl a now).1 = refill_per_sec rl.
Proof.
  revert rl b. induction n as [|n IH]; intros rl b Hb; [done|]. cbn [acquire_n consume_n].
  unfold try_acquire. rewrite Hb. cbn [from_option].
  change (id b) with b.
  destruct (try_consume b (rl_capacity rl) (refill_per_sec rl) now) as [b1 r] eqn:E.
  destruct (IH (set_buckets rl (<[a := b1]> (buckets rl))) b1) as (H1 & H2 & H3 & H4); [cbn; apply lookup_insert_eq|].
  cbn [rl_capacity refill_per_sec set_buckets] in *.
  destruct (acquire_n n _ a now) as [rl2 rs], (consume_n n b1 _ _ now) as [b2 rs2]. cbn in *. subst. by split_and!.
Qed.

(** Only the elapsed time matters. *)
Lemma refilled_shift b cap r now :
  refilled b cap r now = refilled {| tokens := tokens b; last_refill := 0 |} cap r (now - last_refill b).
Proof. unfold refilled. cbn. unfold saturating_sub. by rewrite N.sub_0_r. Qed.

Lemma consume_now n t now cap r :
  (consume_n n {| tokens := t; last_refill := now |} cap r now).2
    = (consume_n n {| tokens := t; last_refill := 0 |} cap r 0).2 ∧
  (consume_n n {| tokens := t; last_refill := now |} cap r now).1
    = {| tokens := tokens (consume_n n {| tokens := t; last_refill := 0 |} cap r 0).1; last_refill := now |}.
Proof.
  revert t. induction n as [|n IH]; intros t; [done|]. cbn [consume_n]. unfold try_consume.
  rewrite (refilled_shift _ _ _ now). cbn [tokens last_refill]. rewrite N.sub_diag.
  destruct (f64_ge _ _); cbn [fst snd];
    match goal with |- context [consume_n n {| tokens := ?t'; last_refill := now |} cap r now] =>
      destruct (IH t') as [H1 H2] end;
    destruct (consume_n n {| tokens := _; last_refill := now |} cap r now), (consume_n n {| tokens := _; last_refill := 0 |} cap r 0);
    cbn in *; by subst.
Qed.

(** A fresh account behaves as one with a full bucket. *)
Lemma acquire_fresh n rl a now :
  buckets rl !! a = None →
  acquire_n (S n) rl a now
    = acquire_n (S n) (set_buckets rl (<[a := TokenBucket_new (rl_capacity rl) now]> (buckets rl))) a now.
Proof.
  intros Hb. cbn [acquire_n]. unfold try_acquire. rewrite Hb. cbn [buckets set_buckets rl_capacity refill_per_sec].
  rewrite lookup_insert_eq. cbn [from_option]. change (id ?x) with x.
  destruct (try_consume _ _ _ now) as [b1 r]. unfold set_buckets. cbn. by rewrite insert_insert_eq.
Qed.

(** The default limiter on an account it does not know: at one instant
    exactly twenty acquisitions succeed and the next one is refused with a wait
    of 200 ms; after 199 ms the account is still refused and after the announced
    200 ms it is served again. *)
Theorem rate_limit_burst rl a now :
  rl_capacity rl = DEFAULT_BUCKET_CAPACITY → refill_per_sec rl = DEFAULT_REFILL_PER_SEC → buckets rl !! a = None →
  let '(rl', rs) := acquire_n 21 rl a now in
  rs = replicate 20 (Ok ()) ++ [Err 200] ∧
  is_ok (try_acquire rl' a (now + 199000000)).2 = false ∧
  is_ok (try_acquire rl' a (now + 200000000)).2 = true.
Proof.
  intros Hc Hr Hb. rewrite (acquire_fresh 20) by done.
  match goal with |- context [acquire_n 21 ?rl1 a now] =>
    destruct (acquire_consume 21 rl1 a now (TokenBucket_new (rl_capacity rl) now)) as (H1 & H2 & H3 & H4);
      [cbn; apply lookup_insert_eq|]; destruct (acquire_n 21 rl1 a now) as [rl' rs] end.
  cbn [fst snd rl_capacity refill_per_sec set_buckets] in *. rewrite Hc, Hr in *.
  destruct (consume_now 21 DEFAULT_BUCKET_CAPACITY now DEFAULT_BUCKET_CAPACITY DEFAULT_REFILL_PER_SEC) as [E1 E2].
  unfold TokenBucket_new in *. rewrite E1 in H1. rewrite E2 in H2.
  split; [by rewrite H1; vm_compute|].
  unfold try_acquire. rewrite H2, H3, H4. cbn [from_option]. change (id ?x) with x. unfold try_consume.
  rewrite !(refilled_shift _ _ _ (now + _)). cbn [tokens last_refill]. rewrite !(N.add_comm now), !N.add_sub.
  split; vm_compute; reflexivity.
Qed.

Lemma SFltb_irrefl c : SFltb c c = false.
Proof.
  unfold SFltb, SFcompare. destruct c as [s|s| |s m e]; [done|by destruct s|done|].
  rewrite Z.compare_refl. change (Pos.compare_cont Eq m m) with (m ?= m)%positive.
  rewrite Pos.compare_refl. by destruct s.
Qed.

(** Accounts do not share tokens: an acquisition of one account leaves every
    other account's bucket as it was, and it succeeds exactly when the refilled
    bucket, which never exceeds the capacity, holds a whole token. *)
Theorem try_acquire_isolated rl a now :
  let b := default (TokenBucket_new (rl_capacity rl) now) (buckets rl !! a) in
  let t := refilled b (rl_capacity rl) (refill_per_sec rl) now in
  (∀ a', a' ≠ a → buckets (try_acquire rl a now).1 !! a' = buckets rl !! a') ∧
  (is_ok (try_acquire rl a now).2 = true ↔ f64_ge t (f64_of_N 1) = true) ∧
  SFltb (rl_capacity rl) t = false.
Proof.
  intros b t. unfold try_acquire. fold b. unfold try_consume. fold t.
  split_and!.
  - intros a' Ha. destruct (f64_ge t (f64_of_N 1)); cbn; by rewrite lookup_insert_ne.
  - by destruct (f64_ge t (f64_of_N 1)).
  - unfold t, refilled, f64_min. destruct (is_nan _); [apply SFltb_irrefl|].
    match goal with |- context [if ?c then _ else _] => destruct c eqn:E end; [apply SFltb_irrefl|done].
Qed.
