(* ===== verification/Mempool.v ===== *)
(** * The mempool ([lemma-mempool/src/error.rs], [validation.rs], [pool.rs])

    Ingress validation against the world state and the pool of pending
    transactions with its three indexes. *)
From stdpp Require Import strings.
From S2P Require Import Prelude CoreTypes DagBlock Fee Transaction Db Trie TrieRoot TrieProof WorldState Crypto MempoolPolicy RateLimit.

(** ** [error.rs] *)

Inductive MempoolError :=
  | InvalidSignature (tx_hash : Hash)
  | NonceTooLow (sender : Address) (tx_nonce account_nonce : N)
  | NonceGapTooLarge (sender : Address) (tx_nonce account_nonce max_gap : N)
  | InsufficientBalance (sender : Address) (required available : N)
  | MpZeroGasLimit (tx_hash : Hash)
  | GasPriceTooLow (tx_hash : Hash) (provided base_fee : N)
  | ChainIdMismatch (tx_hash : Hash) (tx_chain_id expected_chain_id : N)
  | TransactionTooLarge (tx_hash : Hash) (size max_size : N)
  | PoolFull (tx_hash : Hash) (capacity : N)
  | ReplacementUnderpriced (sender : Address) (nonce old_price new_price min_bump_bps : N)
  | RateLimited (sender : Address) (retry_after_ms : N)
  | CircuitBreakerRejected (tx_hash : Hash) (reason : string)
  | TransactionNotFound (tx_hash : Hash)
  | StateLookupFailed (address : Address) (source : StorageError)
  | MpCryptoError (tx_hash : Hash) (source : CryptoError).

Definition is_invalid_tx (self : MempoolError) : bool :=
  match self with
  | InvalidSignature _ | NonceTooLow _ _ _ | NonceGapTooLarge _ _ _ _ | InsufficientBalance _ _ _
  | MpZeroGasLimit _ | GasPriceTooLow _ _ _ | ChainIdMismatch _ _ _ | TransactionTooLarge _ _ _
  | ReplacementUnderpriced _ _ _ _ _ => true
  | _ => false
  end.
Definition is_retriable (self : MempoolError) : bool :=
  match self with PoolFull _ _ | RateLimited _ _ | CircuitBreakerRejected _ _ => true | _ => false end.
Definition is_internal (self : MempoolError) : bool :=
  match self with StateLookupFailed _ _ | MpCryptoError _ _ => true | _ => false end.

(** ** [validation.rs] *)

Definition MAX_TX_SIZE : N := 128 * 1024.
Definition MAX_NONCE_GAP : N := 64.

Record ValidationContext := { vc_chain_id : N; vc_base_fee : Amount }.

Section validation.
Context {DB : Type} `{!Rocks DB} `{!Codec TrieNode} `{!Codec Account} `{!Hybrid65} `{!Codec TxSigningBody}.
Context (blake3 : bytes → Hash) (serialized_size : Transaction → result string N).

Definition validate_size (tx : Transaction) : result MempoolError () :=
  let size_u64 := match serialized_size tx with Ok n => n | Err _ => u64_max end in
  if MAX_TX_SIZE <? size_u64 then Err (TransactionTooLarge (tx_hash tx) size_u64 MAX_TX_SIZE) else Ok ().

Definition validate_pubkey_matches_sender (tx : Transaction) (sender_pubkey : PublicKey) : result MempoolError () :=
  derived ← ok_or (InvalidSignature (tx_hash tx)) (to_address blake3 sender_pubkey);
  if negb (derived =? sender tx) then Err (InvalidSignature (tx_hash tx)) else Ok ().

Definition validate_signature (tx : Transaction) (sender_pubkey : PublicKey) : result MempoolError () :=
  map_err (λ source,
    match source with
    | ClassicalVerificationFailed | QuantumVerificationFailed | UnsignedTransaction | HybridSignatureRequired _
    | InvalidClassicalSignatureLength _ | InvalidQuantumSignatureLength _ _
    | InvalidPublicKeyBytes _ | InvalidQuantumPublicKeyBytes _ => InvalidSignature (tx_hash tx)
    | source => MpCryptoError (tx_hash tx) source
    end) (verify_transaction blake3 tx sender_pubkey).

Definition validate_nonce (tx : Transaction) (account_nonce : N) : result MempoolError () :=
  if nonce tx <? account_nonce then Err (NonceTooLow (sender tx) (nonce tx) account_nonce) else
  let gap := nonce tx - account_nonce in
  if MAX_NONCE_GAP <? gap then Err (NonceGapTooLarge (sender tx) (nonce tx) account_nonce MAX_NONCE_GAP) else Ok ().

Definition validate_balance (tx : Transaction) (account_balance : Amount) : result MempoolError () :=
  gas_cost ← map_err (λ _, InsufficientBalance (sender tx) u128_max account_balance)
    (Amount_checked_mul (gas_price tx) (tx_gas_limit tx));
  total_cost ← map_err (λ _, InsufficientBalance (sender tx) u128_max account_balance)
    (Amount_checked_add gas_cost (value tx));
  if account_balance <? total_cost then Err (InsufficientBalance (sender tx) total_cost account_balance) else Ok ().

Definition validate_gas_price (tx : Transaction) (base_fee : Amount) : result MempoolError () :=
  if gas_price tx <? base_fee then Err (GasPriceTooLow (tx_hash tx) (gas_price tx) base_fee) else Ok ().

Definition validate_transaction (tx : Transaction) (sender_pubkey : PublicKey) (state : WorldState DB)
    (ctx : ValidationContext) : option (result MempoolError ()) :=
  match (
    if tx_gas_limit tx =? 0 then Err (MpZeroGasLimit (tx_hash tx)) else
    if negb (chain_id tx =? vc_chain_id ctx)
    then Err (ChainIdMismatch (tx_hash tx) (chain_id tx) (vc_chain_id ctx)) else
    _ ← validate_size tx;
    _ ← validate_pubkey_matches_sender tx sender_pubkey;
    validate_signature tx sender_pubkey)
  with
  | Err e => Some (Err e)
  | Ok _ =>
      lookup ← get_account state (sender tx);
      Some (
        account ← map_err (StateLookupFailed (sender tx)) lookup;
        let '(account_nonce, account_balance) :=
          match account with Some a => (acc_nonce a, balance a) | None => (0, 0) end in
        _ ← validate_nonce tx account_nonce;
        _ ← validate_balance tx account_balance;
        validate_gas_price tx (vc_base_fee ctx))
  end.
End validation.

(** ** [pool.rs] *)

Definition MIN_REPLACE_BUMP_BPS : N := 1000.
Definition DEFAULT_CAPACITY : N := 5000.

Record AdmitContext := { ac_chain_id : N; ac_base_fee : Amount; ac_now : Instant }.

Record PoolEntry := {
  pe_tx : Transaction;
  pe_priority : Priority;
  pe_seq : N;
  pe_express : ExpressEligibility;
}.

Inductive AdmitOutcome := Inserted | Replaced (replaced_hash : Hash).

(** Tuples compare lexicographically. *)
Definition pair_le (a b : N * N) : Prop := a.1 < b.1 ∨ (a.1 = b.1 ∧ a.2 <= b.2).

#[export] Instance pair_le_dec : RelDecision pair_le.
Proof. intros a b. unfold pair_le. apply _. Defined.
#[export] Instance pair_le_total : Total pair_le.
Proof. intros [a1 a2] [b1 b2]. unfold pair_le. cbn. lia. Qed.
#[export] Instance pair_le_trans : Transitive pair_le.
Proof. intros [a1 a2] [b1 b2] [c1 c2]. unfold pair_le. cbn. lia. Qed.
#[export] Instance pair_le_antisym : AntiSymm (=) pair_le.
Proof. intros [a1 a2] [b1 b2]. unfold pair_le. cbn. intros. f_equal; lia. Qed.
#[export] Program Instance pair_bord : BOrd (N * N) := {| ble := pair_le |}.

Record Mempool := {
  entries : gmap Hash PoolEntry;
  priority_index : gmap (Priority * N) Hash;
  by_sender : gmap Address (gmap N Hash);
  next_seq : N;
  capacity : N;
  rate_limiter : RateLimiter;
  local_fees : gmap Address ContractLoad;
}.

Definition with_rate_limiter (capacity : N) (rate_limiter : RateLimiter) : Mempool := {|
  entries := ∅; priority_index := ∅; by_sender := ∅; next_seq := 0; capacity := capacity;
  rate_limiter := rate_limiter; local_fees := LocalFeeMarket_new;
|}.
Definition Mempool_new (capacity : N) : Mempool := with_rate_limiter capacity with_defaults.

Definition set_rate_limiter (self : Mempool) (rl : RateLimiter) : Mempool :=
  {| entries := entries self; priority_index := priority_index self; by_sender := by_sender self;
     next_seq := next_seq self; capacity := capacity self; rate_limiter := rl; local_fees := local_fees self |}.
Definition set_local_fees (self : Mempool) (lf : gmap Address ContractLoad) : Mempool :=
  {| entries := entries self; priority_index := priority_index self; by_sender := by_sender self;
     next_seq := next_seq self; capacity := capacity self; rate_limiter := rate_limiter self; local_fees := lf |}.
Definition set_by_sender (self : Mempool) (bs : gmap Address (gmap N Hash)) : Mempool :=
  {| entries := entries self; priority_index := priority_index self; by_sender := bs;
     next_seq := next_seq self; capacity := capacity self; rate_limiter := rate_limiter self; local_fees := local_fees self |}.

(** Forget a nonce, and the sender with the last one. *)
Definition drop_nonce (bs : gmap Address (gmap N Hash)) (sender : Address) (nonce : N) : gmap Address (gmap N Hash) :=
  match bs !! sender with
  | None => bs
  | Some nonces =>
      let nonces' := delete nonce nonces in
      if decide (nonces' = ∅) then delete sender bs else <[sender := nonces']> bs
  end.

Definition remove_internal (self : Mempool) (hash : Hash) (priority : Priority) (seq : N) : Mempool * option PoolEntry :=
  let entry := entries self !! hash in
  ({| entries := delete hash (entries self);
      priority_index := delete (priority, seq) (priority_index self);
      by_sender := match entry with
        | Some e => drop_nonce (by_sender self) (sender (pe_tx e)) (nonce (pe_tx e))
        | None => by_sender self
        end;
      next_seq := next_seq self; capacity := capacity self; rate_limiter := rate_limiter self;
      local_fees := local_fees self |}, entry).

Definition rbf_min_price (old_price : Amount) (bump_bps : N) : Amount :=
  match checked_mul u128_max old_price (10000 + bump_bps) with Some v => v / 10000 | None => u128_max end.

(** Make room in a full pool: the lowest entry goes if the newcomer beats it. *)
Definition evict_for (self : Mempool) (tx : Transaction) (priority : Priority) : result MempoolError Mempool :=
  if N.of_nat (size (entries self)) <? capacity self then Ok self else
  match head (bmap_iter (priority_index self)) with
  | Some ((min_p, min_seq), evict_hash) =>
      if min_p <? priority then Ok (remove_internal self evict_hash min_p min_seq).1
      else Err (PoolFull (tx_hash tx) (capacity self))
  | None => Err (PoolFull (tx_hash tx) (capacity self))
  end.

(** Record the contract load, classify, and insert into all indexes. *)
Definition insert_entry (self : Mempool) (tx : Transaction) (priority : Priority) (hint : option ExpressHint) : Mempool :=
  let fees :=
    match to tx with
    | Some contract_addr =>
        match tx_type tx with
        | ContractCall | ContractDeploy => record (local_fees self) contract_addr
        | _ => local_fees self
        end
    | None => local_fees self
    end in
  let express := classify (tx_type tx) hint in
  let seq := next_seq self in
  let hash := tx_hash tx in
  {| entries := <[hash := {| pe_tx := tx; pe_priority := priority; pe_seq := seq; pe_express := express |}]> (entries self);
     priority_index := <[(priority, seq) := hash]> (priority_index self);
     by_sender := <[sender tx := <[nonce tx := hash]> (default ∅ (by_sender self !! sender tx))]> (by_sender self);
     next_seq := saturating_add u64_max seq 1;
     capacity := capacity self; rate_limiter := rate_limiter self; local_fees := fees |}.

Definition admit_as_new (self : Mempool) (tx : Transaction) (priority : Priority) (hint : option ExpressHint)
    : Mempool * result MempoolError AdmitOutcome :=
  match evict_for self tx priority with
  | Err e => (self, Err e)
  | Ok self => (insert_entry self tx priority hint, Ok Inserted)
  end.

(** [Mempool::admit] after validation, circuit breaker and rate limiter. *)
Definition admit_checked (self : Mempool) (tx : Transaction) (priority : Priority) (hint : option ExpressHint)
    : Mempool * result MempoolError AdmitOutcome :=
  let existing := nonces ← by_sender self !! sender tx; nonces !! nonce tx in
  match existing with
  | Some old_hash =>
      match entries self !! old_hash with
      | None => admit_as_new (set_by_sender self (drop_nonce (by_sender self) (sender tx) (nonce tx))) tx priority hint
      | Some e =>
          let old_gas_price := gas_price (pe_tx e) in
          if gas_price tx <? rbf_min_price old_gas_price MIN_REPLACE_BUMP_BPS
          then (self, Err (ReplacementUnderpriced (sender tx) (nonce tx) old_gas_price (gas_price tx) MIN_REPLACE_BUMP_BPS))
          else
            let self := (remove_internal self old_hash (pe_priority e) (pe_seq e)).1 in
            (insert_entry self tx priority hint, Ok (Replaced old_hash))
      end
  | None =>
      match evict_for self tx priority with
      | Err e => (self, Err e)
      | Ok self => (insert_entry self tx priority hint, Ok Inserted)
      end
  end.

Section pool.
Context {DB : Type} `{!Rocks DB} `{!Codec TrieNode} `{!Codec Account} `{!Hybrid65} `{!Codec TxSigningBody}.
Context (blake3 : bytes → Hash) (serialized_size : Transaction → result string N).

(** The pool after the call and the answer; [None] only when the trie walk runs
    out of fuel. *)
Definition Mempool_admit (self : Mempool) (tx : Transaction) (sender_pubkey : PublicKey) (sender_stake : Amount)
    (hint : option ExpressHint) (state : WorldState DB) (ctx : AdmitContext)
    : option (Mempool * result MempoolError AdmitOutcome) :=
  v ← validate_transaction blake3 serialized_size tx sender_pubkey state
        {| vc_chain_id := ac_chain_id ctx; vc_base_fee := ac_base_fee ctx |};
  match v with
  | Err e => Some (self, Err e)
  | Ok _ =>
      let tier := from_load (N.of_nat (size (entries self))) (capacity self) in
      if negb (admits tier (tx_type tx))
      then Some (self, Err (CircuitBreakerRejected (tx_hash tx) (rejection_reason tier))) else
      let '(rl, r) := try_acquire (rate_limiter self) (sender tx) (ac_now ctx) in
      let self := set_rate_limiter self rl in
      match r with
      | Err retry_after_ms => Some (self, Err (RateLimited (sender tx) retry_after_ms))
      | Ok _ => Some (admit_checked self tx (priority_score (gas_price tx) sender_stake) hint)
      end
  end.
End pool.

Definition Mempool_remove (self : Mempool) (hash : Hash) : Mempool * option PoolEntry :=
  match entries self !! hash with
  | None => (self, None)
  | Some e => remove_internal self hash (pe_priority e) (pe_seq e)
  end.

Definition Mempool_get (self : Mempool) (hash : Hash) : option PoolEntry := entries self !! hash.
Definition Mempool_contains (self : Mempool) (hash : Hash) : bool := bool_decide (is_Some (entries self !! hash)).
Definition Mempool_len (self : Mempool) : nat := size (entries self).
Definition Mempool_is_empty (self : Mempool) : bool := bool_decide (entries self = ∅).
Definition Mempool_is_full (self : Mempool) : bool := capacity self <=? N.of_nat (size (entries self)).

Definition pending_by_priority (self : Mempool) (limit : nat) : list Transaction :=
  omap (λ kh, pe_tx <$> entries self !! kh.2) (take limit (reverse (bmap_iter (priority_index self)))).

Definition on_new_block (self : Mempool) (now : Instant) : Mempool :=
  let self := set_rate_limiter self (prune_full (rate_limiter self) now) in
  let self := set_local_fees self (tick (local_fees self)) in
  set_local_fees self (prune_idle (local_fees self)).

Definition Mempool_local_base_fee (self : Mempool) (contract : Address) (global_base : N) : N :=
  local_base_fee (local_fees self) contract global_base.
