(* ===== verification/MempoolInv.v ===== *)
(** * Correctness of the mempool

    The index invariant of the pool and its preservation, the order of pending
    transactions, what admission guarantees, and what an unchecked transaction
    hash does to the indexes. *)
From stdpp Require Import strings.
From S2P Require Import Prelude CoreTypes DagBlock Fee Transaction Db Trie TrieRoot TrieProof WorldState Crypto MempoolPolicy RateLimit Mempool.

(** The hash pending for a sender's nonce. *)
Definition slot (bs : gmap Address (gmap N Hash)) (a : Address) (n : N) : option Hash := m ← bs !! a; m !! n.

(** The three indexes agree, and the pool respects its capacity. *)
Record pool_wf (P : Mempool) : Prop := {
  wf_entry h e : entries P !! h = Some e →
    tx_hash (pe_tx e) = h ∧ priority_index P !! (pe_priority e, pe_seq e) = Some h ∧
    slot (by_sender P) (sender (pe_tx e)) (nonce (pe_tx e)) = Some h ∧ pe_seq e < next_seq P;
  wf_index k h : priority_index P !! k = Some h → ∃ e, entries P !! h = Some e ∧ k = (pe_priority e, pe_seq e);
  wf_slot a n h : slot (by_sender P) a n = Some h →
    ∃ e, entries P !! h = Some e ∧ sender (pe_tx e) = a ∧ nonce (pe_tx e) = n;
  wf_nonempty a m : by_sender P !! a = Some m → m ≠ ∅;
  wf_capacity : N.of_nat (size (entries P)) <= capacity P;
}.

Lemma slot_drop bs a n a' n' :
  slot (drop_nonce bs a n) a' n' = if decide (a' = a ∧ n' = n) then None else slot bs a' n'.
Proof.
  unfold slot, drop_nonce. destruct (bs !! a) as [m|] eqn:Hm.
  - destruct (decide (a' = a)) as [->|Ha].
    + case_decide as Hd.
      * rewrite lookup_delete_eq, Hm. cbn. case_decide as E; [done|].
        assert (delete n m !! n' = None) as Hn by (by rewrite Hd, lookup_empty).
        rewrite lookup_delete_ne in Hn by naive_solver. done.
      * rewrite lookup_insert_eq, Hm. cbn. case_decide as E.
        -- destruct E as [_ ->]. by rewrite lookup_delete_eq.
        -- by rewrite lookup_delete_ne by naive_solver.
    + rewrite (decide_False (P := a' = a ∧ n' = n)) by naive_solver.
      case_decide; [by rewrite lookup_delete_ne|by rewrite lookup_insert_ne].
  - case_decide as E; [|done]. destruct E as [-> ->]. by rewrite Hm.
Qed.

Lemma drop_nonempty bs a n :
  (∀ a m, bs !! a = Some m → m ≠ ∅) → ∀ a' m, drop_nonce bs a n !! a' = Some m → m ≠ ∅.
Proof.
  intros Hbs a' m. unfold drop_nonce. destruct (bs !! a) as [m0|] eqn:Hm; [|apply Hbs].
  case_decide as E.
  - intros [_ H]%lookup_delete_Some. by eapply Hbs.
  - intros [[_ <-]|[_ H]]%lookup_insert_Some; [done|by eapply Hbs].
Qed.

(** *** Removal *)

Lemma remove_internal_wf P h e :
  pool_wf P → entries P !! h = Some e →
  let P' := (remove_internal P h (pe_priority e) (pe_seq e)).1 in
  pool_wf P' ∧ N.of_nat (size (entries P')) + 1 = N.of_nat (size (entries P)).
Proof.
  intros HP He P'. destruct (wf_entry P HP h e He) as (Hh & Hi & Hs & _).
  assert (entries P' = delete h (entries P)) as HE by done.
  assert (priority_index P' = delete (pe_priority e, pe_seq e) (priority_index P)) as HI by done.
  assert (by_sender P' = drop_nonce (by_sender P) (sender (pe_tx e)) (nonce (pe_tx e))) as HB.
  { unfold P', remove_internal. by rewrite He. }
  assert (size (entries P') + 1 = size (entries P))%nat as Hsz.
  { rewrite HE, map_size_delete, He. assert (size (entries P) ≠ 0%nat); [|cbn; lia].
    intros Hz%map_size_empty_iff. by rewrite Hz, lookup_empty in He. }
  split; [|lia]. split; rewrite ?HE, ?HI, ?HB.
  - intros h' e' [Hne He']%lookup_delete_Some. destruct (wf_entry P HP h' e' He') as (Hh' & Hi' & Hs' & Hq').
    split_and!; [done|..|done].
    + rewrite lookup_delete_ne; [done|]. intros Heq. rewrite Heq in Hi. congruence.
    + rewrite slot_drop, decide_False; [done|]. intros [E1 E2]. rewrite E1, E2 in Hs'. congruence.
  - intros k h' [Hne Hk]%lookup_delete_Some. destruct (wf_index P HP k h' Hk) as (e' & He' & ->).
    exists e'. split; [|done]. rewrite lookup_delete_ne; [done|]. intros <-. naive_solver.
  - intros a n h'. rewrite slot_drop. case_decide as E; [done|]. intros Hs'.
    destruct (wf_slot P HP a n h' Hs') as (e' & He' & Ha & Hn). exists e'. split_and!; [|done..].
    rewrite lookup_delete_ne; [done|]. intros <-. rewrite He in He'. injection He' as <-. naive_solver.
  - apply drop_nonempty, HP.
  - pose proof (wf_capacity P HP). change (capacity P') with (capacity P). rewrite <-HE. lia.
Qed.

(** *** Insertion *)

Lemma slot_insert bs a n h a' n' :
  slot (<[a := <[n := h]> (default ∅ (bs !! a))]> bs) a' n' = if decide (a' = a ∧ n' = n) then Some h else slot bs a' n'.
Proof.
  unfold slot. destruct (decide (a' = a)) as [->|Ha].
  - rewrite lookup_insert_eq. cbn. case_decide as E.
    + destruct E as [_ ->]. by rewrite lookup_insert_eq.
    + rewrite lookup_insert_ne by naive_solver. by destruct (bs !! a).
  - rewrite lookup_insert_ne by done. by rewrite decide_False by naive_solver.
Qed.

Lemma insert_entry_wf P tx p hint :
  pool_wf P → entries P !! tx_hash tx = None → slot (by_sender P) (sender tx) (nonce tx) = None →
  next_seq P < u64_max → N.of_nat (size (entries P)) < capacity P →
  pool_wf (insert_entry P tx p hint).
Proof.
  intros HP Hh Hs Hq Hc. unfold insert_entry. split; cbn.
  - intros h e. unfold saturating_add. rewrite N.min_l by lia.
    intros [[<- <-]|[Hne He]]%lookup_insert_Some; cbn.
    + split_and!; [done|by rewrite lookup_insert_eq|by rewrite slot_insert, decide_True|lia].
    + destruct (wf_entry P HP h e He) as (E1 & E2 & E3 & E4). split_and!; [done|..|lia].
      * rewrite lookup_insert_ne; [done|]. intros [= _ E]. lia.
      * rewrite slot_insert, decide_False; [done|]. intros [Ea En]. rewrite Ea, En in E3. congruence.
  - intros k h [[<- <-]|[Hne Hk]]%lookup_insert_Some.
    + eexists. by rewrite lookup_insert_eq.
    + destruct (wf_index P HP k h Hk) as (e & He & ->). exists e. split; [|done].
      rewrite lookup_insert_ne; [done|]. intros <-. congruence.
  - intros a n h. rewrite slot_insert. case_decide as E.
    + intros [= <-]. destruct E as [-> ->]. eexists. by rewrite lookup_insert_eq.
    + intros Hk. destruct (wf_slot P HP a n h Hk) as (e & He & Ha & Hn). exists e. split_and!; [|done..].
      rewrite lookup_insert_ne; [done|]. intros <-. congruence.
  - intros a m [[_ <-]|[_ Hm]]%lookup_insert_Some; [|by eapply wf_nonempty].
    intros E. by apply (insert_non_empty (default ∅ (by_sender P !! sender tx)) (nonce tx) (tx_hash tx)).
  - rewrite map_size_insert_None by done. lia.
Qed.

Lemma set_rate_limiter_wf P rl : pool_wf P → pool_wf (set_rate_limiter P rl).
Proof. intros [????]. by split. Qed.
Lemma set_local_fees_wf P lf : pool_wf P → pool_wf (set_local_fees P lf).
Proof. intros [????]. by split. Qed.

(** *** Eviction *)

Lemma head_iter_min P k h :
  head (bmap_iter (priority_index P)) = Some (k, h) →
  priority_index P !! k = Some h ∧ ∀ k' h', priority_index P !! k' = Some h' → pair_le k k'.
Proof.
  intros Hh. destruct (bmap_iter (priority_index P)) as [|[k0 h0] l] eqn:E; [done|]. injection Hh as -> ->.
  split; [apply elem_of_bmap_iter; rewrite E; left|].
  intros k' h' Hk'. pose proof (bset_iter_sorted (dom (priority_index P))) as Hs.
  fold (bmap_keys (priority_index P)) in Hs. rewrite <-bmap_iter_keys, E in Hs. cbn in Hs.
  apply elem_of_bmap_iter in Hk'. rewrite E in Hk'. apply elem_of_cons in Hk' as [[= -> ->]|Hin].
  - unfold pair_le. lia.
  - apply StronglySorted_inv in Hs as [_ Hs]. rewrite Forall_forall in Hs. apply Hs.
    apply list_elem_of_fmap. by exists (k', h').
Qed.

(** What [evict_for] does to a well-formed pool: nothing when there is room; the
    entry with the lowest priority leaves when the newcomer beats it. *)
Lemma evict_for_wf P tx p :
  pool_wf P →
  match evict_for P tx p with
  | Ok P' => pool_wf P' ∧ N.of_nat (size (entries P')) < capacity P' ∧ next_seq P' = next_seq P ∧
      (P' = P ∨ ∃ h e, entries P !! h = Some e ∧ P' = (remove_internal P h (pe_priority e) (pe_seq e)).1 ∧
        pe_priority e < p ∧ ∀ h' e', entries P !! h' = Some e' → pe_priority e <= pe_priority e')
  | Err e => e = PoolFull (tx_hash tx) (capacity P) ∧ N.of_nat (size (entries P)) = capacity P ∧
      ∀ h' e', entries P !! h' = Some e' → p <= pe_priority e'
  end.
Proof.
  intros HP. unfold evict_for. pose proof (wf_capacity P HP) as Hc.
  destruct (N.ltb_spec (N.of_nat (size (entries P))) (capacity P)); [split_and!; by auto|].
  destruct (head (bmap_iter (priority_index P))) as [[[mp ms] h]|] eqn:Hh.
  - apply head_iter_min in Hh as [Hi Hmin]. destruct (wf_index P HP _ _ Hi) as (e & He & [= -> ->]).
    assert (∀ h' e', entries P !! h' = Some e' → pe_priority e <= pe_priority e') as Hlow.
    { intros h' e' He'. destruct (wf_entry P HP h' e' He') as (_ & Hi' & _). apply Hmin in Hi'.
      unfold pair_le in Hi'. cbn in Hi'. lia. }
    destruct (N.ltb_spec (pe_priority e) p).
    + destruct (remove_internal_wf P h e HP He) as [HP' Hsz]. cbn in *.
      split_and!; [done|lia|done|]. right. by exists h, e.
    + split_and!; [done|lia|]. intros h' e' He'. specialize (Hlow h' e' He'). lia.
  - split_and!; [done|lia|]. intros h' e' He'. destruct (wf_entry P HP h' e' He') as (_ & Hi' & _).
    apply elem_of_bmap_iter in Hi'. by destruct (bmap_iter (priority_index P)); [apply not_elem_of_nil in Hi'|].
Qed.

(** *** Admission *)

(** The stored hash belongs to this transaction: no pending transaction of
    another sender or nonce is filed under it. *)
Definition hash_honest (P : Mempool) (tx : Transaction) : Prop :=
  ∀ e, entries P !! tx_hash tx = Some e → sender (pe_tx e) = sender tx ∧ nonce (pe_tx e) = nonce tx.

Definition new_entry (P : Mempool) (tx : Transaction) (p : Priority) (hint : option ExpressHint) : PoolEntry :=
  {| pe_tx := tx; pe_priority := p; pe_seq := next_seq P; pe_express := classify (tx_type tx) hint |}.

(** Everything but the rate limiter. *)
Definition same_pool (P P' : Mempool) : Prop :=
  entries P' = entries P ∧ priority_index P' = priority_index P ∧ by_sender P' = by_sender P ∧
  next_seq P' = next_seq P ∧ capacity P' = capacity P ∧ local_fees P' = local_fees P.

Definition admitted (P P' : Mempool) (tx : Transaction) (p : Priority) (hint : option ExpressHint)
    (r : result MempoolError AdmitOutcome) : Prop :=
  match r with
  | Ok Inserted =>
      slot (by_sender P) (sender tx) (nonce tx) = None ∧
      ((N.of_nat (size (entries P)) < capacity P ∧ entries P' = <[tx_hash tx := new_entry P tx p hint]> (entries P)) ∨
       ∃ h e, entries P !! h = Some e ∧ pe_priority e < p ∧
         (∀ h' e', entries P !! h' = Some e' → pe_priority e <= pe_priority e') ∧
         entries P' = <[tx_hash tx := new_entry P tx p hint]> (delete h (entries P)))
  | Ok (Replaced h) =>
      ∃ e, entries P !! h = Some e ∧ sender (pe_tx e) = sender tx ∧ nonce (pe_tx e) = nonce tx ∧
        rbf_min_price (gas_price (pe_tx e)) MIN_REPLACE_BUMP_BPS <= gas_price tx ∧
        entries P' = <[tx_hash tx := new_entry P tx p hint]> (delete h (entries P))
  | Err _ => same_pool P P'
  end.

Lemma admit_checked_spec P tx p hint :
  pool_wf P → next_seq P < u64_max → hash_honest P tx →
  let '(P', r) := admit_checked P tx p hint in pool_wf P' ∧ admitted P P' tx p hint r.
Proof.
  intros HP Hq Hhon. unfold admit_checked. fold (slot (by_sender P) (sender tx) (nonce tx)).
  destruct (slot (by_sender P) (sender tx) (nonce tx)) as [old|] eqn:Hs.
  - destruct (wf_slot P HP _ _ _ Hs) as (e & He & Ea & En). rewrite He.
    destruct (N.ltb_spec (gas_price tx) (rbf_min_price (gas_price (pe_tx e)) MIN_REPLACE_BUMP_BPS)); [done|].
    destruct (remove_internal_wf P old e HP He) as [HP' Hsz]. cbn in Hsz.
    pose proof (wf_capacity P HP). split; [|exists e; by split_and!].
    apply insert_entry_wf; [done|..|done|cbn; lia].
    + cbn. destruct (entries P !! tx_hash tx) as [e'|] eqn:He'.
      * destruct (Hhon e' He') as [Ha Hn]. destruct (wf_entry P HP _ _ He') as (_ & _ & Hs' & _).
        rewrite Ha, Hn, Hs in Hs'. injection Hs' as ->. apply lookup_delete_eq.
      * by rewrite lookup_delete_None; right.
    + cbn. rewrite He, slot_drop. by rewrite decide_True.
  - assert (entries P !! tx_hash tx = None) as Hnone.
    { destruct (entries P !! tx_hash tx) as [e'|] eqn:He'; [|done].
      destruct (Hhon e' He') as [Ha Hn]. destruct (wf_entry P HP _ _ He') as (_ & _ & Hs' & _). congruence. }
    pose proof (evict_for_wf P tx p HP) as Hev. destruct (evict_for P tx p) as [P1|err] eqn:Ee; [|done].
    destruct Hev as (HP1 & Hsz & Hnq & Hcase).
    assert (slot (by_sender P1) (sender tx) (nonce tx) = None ∧ entries P1 !! tx_hash tx = None) as [Hs1 Hn1].
    { destruct Hcase as [->|(h & e & He & -> & _)]; [done|]. cbn. rewrite He, slot_drop, lookup_delete_None.
      split; [by case_decide|by right]. }
    split; [apply insert_entry_wf; by rewrite ?Hnq|]. split; [done|].
    destruct Hcase as [->|(h & e & He & -> & Hlt & Hmin)]; [left|right].
    + split; [|done]. unfold evict_for in Ee. destruct (N.ltb_spec (N.of_nat (size (entries P))) (capacity P)); [done|lia].
    + by exists h, e.
Qed.

Section admission.
Context {DB : Type} `{!Rocks DB} `{!Codec TrieNode} `{!Codec Account} `{!Hybrid65} `{!Codec TxSigningBody}.
Context (blake3 : bytes → Hash) (serialized_size : Transaction → result string N).
Implicit Types (state : WorldState DB).

(** The errors of the checks that precede the rate limiter. *)
Definition early_error (e : MempoolError) : Prop :=
  match e with
  | PoolFull _ _ | ReplacementUnderpriced _ _ _ _ _ | RateLimited _ _ => False
  | _ => True
  end.

Lemma validate_early tx pk state ctx e :
  validate_transaction blake3 serialized_size tx pk state ctx = Some (Err e) → early_error e.
Proof.
  unfold validate_transaction, validate_size, validate_pubkey_matches_sender, validate_signature.
  destruct (tx_gas_limit tx =? 0); [by intros [= <-]|]. destruct (negb _); [by intros [= <-]|].
  destruct (MAX_TX_SIZE <? _); cbn; [by intros [= <-]|].
  destruct (to_address blake3 pk) as [d|]; cbn; [|by intros [= <-]].
  destruct (negb (d =? sender tx)); cbn; [by intros [= <-]|].
  destruct (verify_transaction blake3 tx pk) as [[]|ce]; cbn; [|intros [= <-]; by destruct ce].
  destruct (get_account state (sender tx)) as [[acct|se]|]; cbn; [|by intros [= <-]|done].
  destruct (match acct with Some a => (acc_nonce a, balance a) | None => (0, 0) end) as [an ab].
  unfold validate_nonce, validate_balance, validate_gas_price.
  destruct (nonce tx <? an); cbn; [by intros [= <-]|]. destruct (MAX_NONCE_GAP <? _); cbn; [by intros [= <-]|].
  destruct (Amount_checked_mul _ _) as [gc|]; cbn; [|by intros [= <-]].
  destruct (Amount_checked_add _ _) as [tc|]; cbn; [|by intros [= <-]].
  destruct (ab <? tc); cbn; [by intros [= <-]|]. destruct (gas_price tx <? _); cbn; [by intros [= <-]|done].
Qed.

Lemma admit_cases P tx pk stake hint state ctx P' r :
  Mempool_admit blake3 serialized_size P tx pk stake hint state ctx = Some (P', r) →
  (P' = P ∧ ∃ e, r = Err e ∧ early_error e) ∨
  (∃ ms, P' = set_rate_limiter P (try_acquire (rate_limiter P) (sender tx) (ac_now ctx)).1 ∧ r = Err (RateLimited (sender tx) ms)) ∨
  (P', r) = admit_checked (set_rate_limiter P (try_acquire (rate_limiter P) (sender tx) (ac_now ctx)).1) tx
    (priority_score (gas_price tx) stake) hint.
Proof.
  unfold Mempool_admit. destruct (validate_transaction _ _ _ _ _ _) as [[[]|e]|] eqn:Ev; cbn;
    [|intros [= <- <-]; left; by eauto using validate_early|done].
  destruct (negb _); [intros [= <- <-]; left; split; [done|]; by eexists|].
  destruct (try_acquire _ _ _) as [rl [[]|ms]]; intros Heq; [right; right; cbn; congruence|].
  injection Heq as <- <-. right; left. by exists ms.
Qed.

(** C6. Admission keeps the pool's indexes consistent and does exactly what its
    answer says.  From a well-formed pool that has not used up its u64 sequence
    numbers, for a transaction whose hash is not filed for another sender or nonce: the pool stays well-formed (every entry
    is in both indexes, every index points at an entry, at most the capacity);
    [Inserted] means the slot was free and either there was room or the entry
    with the lowest priority, strictly lower than the newcomer's, left;
    [Replaced] means the same sender's transaction with the same nonce left and
    the price bump was met; an error leaves everything but the rate limiter as
    it was. *)
Theorem admit_refines P tx pk stake hint state ctx P' r :
  pool_wf P → next_seq P < u64_max → hash_honest P tx →
  Mempool_admit blake3 serialized_size P tx pk stake hint state ctx = Some (P', r) →
  pool_wf P' ∧ admitted P P' tx (priority_score (gas_price tx) stake) hint r.
Proof.
  intros HP Hq Hh Ha. apply admit_cases in Ha as [(-> & e & -> & _)|[(ms & -> & ->)|Ha]].
  - by split.
  - split; [by apply set_rate_limiter_wf|done].
  - pose proof (admit_checked_spec (set_rate_limiter P (try_acquire (rate_limiter P) (sender tx) (ac_now ctx)).1) tx
      (priority_score (gas_price tx) stake) hint) as Hs.
    rewrite <-Ha in Hs. apply Hs; [by apply set_rate_limiter_wf|done|done].
Qed.

(** A rejection by price or capacity is not free: the code documents that on
    an error the pool is unchanged, but when the replacement is underpriced or
    the pool is full, the sender's bucket has already been charged for the
    attempt (and stays so, since admission does not give the token back). *)
Theorem late_rejection_charged P tx pk stake hint state ctx P' e :
  pool_wf P → Mempool_admit blake3 serialized_size P tx pk stake hint state ctx = Some (P', Err e) →
  match e with ReplacementUnderpriced _ _ _ _ _ | PoolFull _ _ => True | _ => False end →
  P' = set_rate_limiter P (try_acquire (rate_limiter P) (sender tx) (ac_now ctx)).1.
Proof.
  intros HP Ha He. apply admit_cases in Ha as [(_ & e' & [= <-] & He')|[(ms & -> & _)|Ha]]; [by destruct e|done|].
  set (P1 := set_rate_limiter P _) in *. assert (pool_wf P1) as HP1 by (by apply set_rate_limiter_wf).
  unfold admit_checked in Ha. fold (slot (by_sender P1) (sender tx) (nonce tx)) in Ha.
  destruct (slot (by_sender P1) (sender tx) (nonce tx)) as [old|] eqn:Hs.
  - destruct (wf_slot P1 HP1 _ _ _ Hs) as (oe & Ho & _). rewrite Ho in Ha. destruct (gas_price tx <? _); congruence.
  - destruct (evict_for P1 tx _); congruence.
Qed.

(** An accepted transaction was payable: when admission answers with an
    outcome, the transaction names this chain, its nonce is at most the gap
    above the account's, the account's balance covers the value plus the whole
    gas limit at the offered price, and the price is at least the base fee. *)
Theorem admitted_validated P tx pk stake hint state ctx P' o A :
  RocksLaws DB → CodecLaws TrieNode → CodecLaws Account → holds blake3 state A → is_address (sender tx) →
  Mempool_admit blake3 serialized_size P tx pk stake hint state ctx = Some (P', Ok o) →
  let acct := default Account_default (A !! sender tx) in
  chain_id tx = ac_chain_id ctx ∧ 0 < tx_gas_limit tx ∧
  acc_nonce acct <= nonce tx <= acc_nonce acct + MAX_NONCE_GAP ∧
  gas_price tx * tx_gas_limit tx + value tx <= balance acct ∧ ac_base_fee ctx <= gas_price tx ∧
  to_address blake3 pk = Some (sender tx) ∧ verify_transaction blake3 tx pk = Ok ().
Proof.
  intros HR HT HA Hold Haddr Ha. unfold Mempool_admit in Ha.
  destruct (validate_transaction _ _ _ _ _ _) as [[[]|e]|] eqn:Hv; cbn in Ha; [clear Ha|done..].
  unfold validate_transaction, validate_size, validate_pubkey_matches_sender, validate_signature in Hv. cbn [vc_chain_id vc_base_fee] in Hv.
  destruct (N.eqb_spec (tx_gas_limit tx) 0); [done|].
  destruct (N.eqb_spec (chain_id tx) (ac_chain_id ctx)) as [Hc|]; cbn in Hv; [|done].
  destruct (MAX_TX_SIZE <? _); cbn in Hv; [done|].
  destruct (to_address blake3 pk) as [d|] eqn:Hd; cbn in Hv; [|done].
  destruct (N.eqb_spec d (sender tx)) as [->|]; cbn in Hv; [|done].
  destruct (verify_transaction blake3 tx pk) as [[]|]; cbn in Hv; [|done].
  rewrite (get_account_holds blake3 state A) in Hv by done. cbn in Hv.
  assert ((match A !! sender tx with Some a => (acc_nonce a, balance a) | None => (0, 0) end) =
    (acc_nonce (default Account_default (A !! sender tx)), balance (default Account_default (A !! sender tx)))) as Hacct
    by (by destruct (A !! sender tx)).
  rewrite Hacct in Hv. cbv zeta. set (acct := default Account_default (A !! sender tx)) in *.
  unfold validate_nonce, validate_balance, validate_gas_price, Amount_checked_mul, Amount_checked_add in Hv. cbn in Hv.
  destruct (N.ltb_spec (nonce tx) (acc_nonce acct)); [done|].
  destruct (N.ltb_spec MAX_NONCE_GAP (nonce tx - acc_nonce acct)); [done|]. cbn in Hv.
  destruct (checked_mul u128_max (gas_price tx) (tx_gas_limit tx)) as [gc|] eqn:Hm; [|done]. cbn in Hv.
  destruct (checked_add u128_max gc (value tx)) as [tc|] eqn:Hs; [|done]. cbn in Hv.
  apply checked_mul_Some in Hm as [-> _]. apply checked_add_Some in Hs as [-> _].
  destruct (N.ltb_spec (balance acct) (gas_price tx * tx_gas_limit tx + value tx)); [done|]. cbn in Hv.
  destruct (N.ltb_spec (gas_price tx) (ac_base_fee ctx)); [done|]. split_and!; by try lia.
Qed.

(** C22. Index poisoning by a forged hash.  Validation recomputes the hash for the
    signature but never compares it with the transaction's [hash] field, and the
    pool files by that field: when an attacker's transaction carries the hash of
    a pending transaction of another sender and is inserted into a pool with
    room, the victim's entry is gone, while both the victim's nonce slot and the
    victim's place in the priority order now lead to the attacker's transaction,
    so the index invariant is broken. *)
Theorem forged_hash_poisons P tx pk stake hint state ctx P' victim :
  pool_wf P → entries P !! tx_hash tx = Some victim → sender (pe_tx victim) ≠ sender tx →
  N.of_nat (size (entries P)) < capacity P →
  Mempool_admit blake3 serialized_size P tx pk stake hint state ctx = Some (P', Ok Inserted) →
  pe_tx <$> entries P' !! tx_hash tx = Some tx ∧
  slot (by_sender P') (sender (pe_tx victim)) (nonce (pe_tx victim)) = Some (tx_hash tx) ∧
  priority_index P' !! (pe_priority victim, pe_seq victim) = Some (tx_hash tx) ∧ ¬ pool_wf P'.
Proof.
  intros HP Hv Hne Hroom Ha. destruct (wf_entry P HP _ _ Hv) as (_ & Hi & Hs & Hq).
  apply admit_cases in Ha as [(_ & e & [=] & _)|[(ms & _ & [=])|Ha]].
  unfold admit_checked in Ha. cbn [by_sender set_rate_limiter entries] in Ha.
  destruct (nonces ← by_sender P !! sender tx; nonces !! nonce tx) as [old|] eqn:Hold.
  { destruct (wf_slot P HP _ _ _ Hold) as (oe & Ho & _). rewrite Ho in Ha. by destruct (gas_price tx <? _). }
  unfold evict_for in Ha. cbn [entries capacity set_rate_limiter] in Ha.
  rewrite (proj2 (N.ltb_lt _ _) Hroom) in Ha. injection Ha as ->.
  assert (slot (by_sender (insert_entry (set_rate_limiter P (try_acquire (rate_limiter P) (sender tx) (ac_now ctx)).1) tx
    (priority_score (gas_price tx) stake) hint)) (sender (pe_tx victim)) (nonce (pe_tx victim)) = Some (tx_hash tx)) as Hs'.
  { cbn [by_sender insert_entry set_rate_limiter]. rewrite slot_insert, decide_False; [done|]. naive_solver. }
  split_and!; [cbn; by rewrite lookup_insert_eq|done|..].
  - cbn. rewrite lookup_insert_ne; [done|]. intros [= _ E]. lia.
  - intros HP'. destruct (wf_slot _ HP' _ _ _ Hs') as (e' & He' & Ha' & _). cbn in He'.
    rewrite lookup_insert_eq in He'. injection He' as <-. by apply Hne.
Qed.
End admission.

(** *** Reachable pools *)

Section reach.
Context {DB : Type} `{!Rocks DB} `{!Codec TrieNode} `{!Codec Account} `{!Hybrid65} `{!Codec TxSigningBody}.
Context (blake3 : bytes → Hash) (serialized_size : Transaction → result string N).

(** Pools reached from an empty one by admissions (of transactions whose hash is
    their own), removals and block ticks. *)
Inductive pool_reach : Mempool → Prop :=
  | reach_new c rl : pool_reach (with_rate_limiter c rl)
  | reach_admit P tx pk stake hint (state : WorldState DB) ctx P' r :
      pool_reach P → next_seq P < u64_max → hash_honest P tx →
      Mempool_admit blake3 serialized_size P tx pk stake hint state ctx = Some (P', r) → pool_reach P'
  | reach_remove P h : pool_reach P → pool_reach (Mempool_remove P h).1
  | reach_block P now : pool_reach P → pool_reach (on_new_block P now).

Lemma with_rate_limiter_wf c rl : pool_wf (with_rate_limiter c rl).
Proof.
  split; unfold slot; cbn; [..|rewrite map_size_empty; lia]; intros *; by rewrite lookup_empty.
Qed.

Lemma Mempool_remove_wf P h : pool_wf P → pool_wf (Mempool_remove P h).1.
Proof.
  intros HP. unfold Mempool_remove. destruct (entries P !! h) as [e|] eqn:He; [|done].
  by apply remove_internal_wf.
Qed.

Lemma pool_reach_wf P : pool_reach P → pool_wf P.
Proof.
  induction 1 as [| P tx pk stake hint state ctx P' r _ IH Hq Hh Ha| |].
  - apply with_rate_limiter_wf.
  - apply admit_cases in Ha as [(-> & _)|[(ms & -> & _)|Ha]]; [done|by apply set_rate_limiter_wf|].
    pose proof (admit_checked_spec (set_rate_limiter P (try_acquire (rate_limiter P) (sender tx) (ac_now ctx)).1) tx
      (priority_score (gas_price tx) stake) hint) as Hs.
    rewrite <-Ha in Hs. apply Hs; [by apply set_rate_limiter_wf|done|done].
  - by apply Mempool_remove_wf.
  - unfold on_new_block. by apply set_local_fees_wf, set_local_fees_wf, set_rate_limiter_wf.
Qed.

(** In every reachable pool a sender has at most one pending transaction per
    nonce, two different entries never share their place in the priority order,
    and the pool holds at most its capacity. *)
Theorem pool_reach_unique P h1 h2 e1 e2 :
  pool_reach P → entries P !! h1 = Some e1 → entries P !! h2 = Some e2 →
  (sender (pe_tx e1) = sender (pe_tx e2) ∧ nonce (pe_tx e1) = nonce (pe_tx e2)) ∨
    (pe_priority e1, pe_seq e1) = (pe_priority e2, pe_seq e2) →
  h1 = h2 ∧ e1 = e2 ∧ N.of_nat (size (entries P)) <= capacity P.
Proof.
  intros HP%pool_reach_wf H1 H2 Hsame.
  destruct (wf_entry P HP _ _ H1) as (_ & Hi1 & Hs1 & _), (wf_entry P HP _ _ H2) as (_ & Hi2 & Hs2 & _).
  assert (h1 = h2) as ->. { destruct Hsame as [[Ha Hn]|Hk]; [rewrite Ha, Hn in Hs1|rewrite Hk in Hi1]; congruence. }
  split_and!; [done|congruence|apply HP].
Qed.
End reach.

(** *** The order of pending transactions *)

Definition entry_key (e : PoolEntry) : N * N := (pe_priority e, pe_seq e).

(** The entries behind [pending_by_priority]. *)
Definition pending_entries (P : Mempool) (limit : nat) : list PoolEntry :=
  omap (λ kh, entries P !! kh.2) (take limit (reverse (bmap_iter (priority_index P)))).

Lemma pending_pending P limit : pending_by_priority P limit = pe_tx <$> pending_entries P limit.
Proof.
  unfold pending_by_priority, pending_entries. induction (take limit _) as [|[k h] l IH]; [done|]. cbn.
  destruct (entries P !! h); cbn; [by f_equal|done].
Qed.

Lemma omap_entries P (l : list ((N * N) * Hash)) :
  pool_wf P → (∀ k h, (k, h) ∈ l → priority_index P !! k = Some h) →
  entry_key <$> omap (λ kh, entries P !! kh.2) l = l.*1.
Proof.
  intros HP. induction l as [|[k h] l IH]; intros Hl; [done|]. cbn.
  destruct (wf_index P HP k h) as (e & He & ->); [apply Hl; left|]. rewrite He. cbn. f_equal.
  apply IH. intros. apply Hl. by right.
Qed.

Lemma StronglySorted_reverse {A} (R : relation A) l : StronglySorted R l → StronglySorted (flip R) (reverse l).
Proof.
  induction 1 as [|x l Hl IH Hx]; [constructor|]. rewrite reverse_cons. apply StronglySorted_app.
  split; [|split; [done|repeat constructor]].
  intros y z Hy ->%list_elem_of_singleton. rewrite elem_of_reverse in Hy. rewrite Forall_forall in Hx. exact (Hx y Hy).
Qed.

Lemma StronglySorted_fmap_1 {A B} (f : A → B) (R : relation B) l :
  StronglySorted R (f <$> l) → StronglySorted (λ a b, R (f a) (f b)) l.
Proof.
  induction l as [|a l IH]; [constructor|]. cbn. intros [Ha Hl]%StronglySorted_cons.
  constructor; [by apply IH|]. by rewrite Forall_fmap in Ha.
Qed.

Lemma StronglySorted_strict {A} (R : relation A) l :
  StronglySorted R l → NoDup l → StronglySorted (λ x y, R x y ∧ x ≠ y) l.
Proof.
  induction 1 as [|x l Hl IH Hx]; [constructor|]. intros [Hn Hnd]%NoDup_cons. constructor; [by apply IH|].
  rewrite Forall_forall in *. intros y Hy. split; [by apply Hx|]. by intros ->.
Qed.

(** The index and the store have the same number of entries. *)
Lemma index_size P : pool_wf P → length (bmap_iter (priority_index P)) = size (entries P).
Proof.
  intros HP. rewrite <-(length_fmap snd (bmap_iter _)).
  assert ((bmap_iter (priority_index P)).*2 ≡ₚ elements (dom (entries P))) as ->; [|by rewrite <-size_dom].
  apply NoDup_Permutation; [|apply NoDup_elements|].
  - apply NoDup_alt. intros i j h Hi Hj. rewrite list_lookup_fmap in Hi, Hj.
    destruct (bmap_iter (priority_index P) !! i) as [[k1 h1]|] eqn:E1; [|done].
    destruct (bmap_iter (priority_index P) !! j) as [[k2 h2]|] eqn:E2; [|done].
    cbn in Hi, Hj. injection Hi as ->. injection Hj as ->.
    pose proof (list_elem_of_lookup_2 _ _ _ E1) as H1%elem_of_bmap_iter.
    pose proof (list_elem_of_lookup_2 _ _ _ E2) as H2%elem_of_bmap_iter.
    destruct (wf_index P HP _ _ H1) as (e1 & He1 & ->), (wf_index P HP _ _ H2) as (e2 & He2 & ->).
    rewrite He1 in He2. injection He2 as <-.
    pose proof (bmap_keys_NoDup (priority_index P)) as Hnd. rewrite <-bmap_iter_keys in Hnd.
    eapply (NoDup_lookup _ _ _ (entry_key e1) Hnd); by rewrite list_lookup_fmap, ?E1, ?E2.
  - intros h. rewrite elem_of_elements, elem_of_dom, list_elem_of_fmap. split.
    + intros ([k h'] & -> & Hk%elem_of_bmap_iter). destruct (wf_index P HP _ _ Hk) as (e & He & _). eauto.
    + intros [e He]. destruct (wf_entry P HP _ _ He) as (_ & Hi & _). exists (entry_key e, h).
      split; [done|]. by apply elem_of_bmap_iter.
Qed.

(** [pending_by_priority] returns the pending transactions by descending
    priority, the most recently inserted first among equals, at most as many as
    asked; each belongs to one entry, none twice, and an entry that is left out
    ranks below all that are returned. *)
Theorem pending_sorted P limit :
  pool_wf P →
  ∃ es, pending_by_priority P limit = pe_tx <$> es ∧ length es = (limit `min` size (entries P))%nat ∧
    NoDup es ∧ (∀ e, e ∈ es → entries P !! tx_hash (pe_tx e) = Some e) ∧
    StronglySorted (λ e1 e2, pe_priority e2 < pe_priority e1 ∨ (pe_priority e2 = pe_priority e1 ∧ pe_seq e2 < pe_seq e1)) es ∧
    (∀ h e, entries P !! h = Some e → e ∈ es ∨ ∀ e', e' ∈ es → pair_le (entry_key e) (entry_key e')).
Proof.
  intros HP. exists (pending_entries P limit). rewrite pending_pending. split; [done|].
  set (it := bmap_iter (priority_index P)). set (es := pending_entries P limit).
  assert (∀ k h, (k, h) ∈ take limit (reverse it) → priority_index P !! k = Some h) as Hin.
  { intros k h (i & Hi & _)%elem_of_take. apply list_elem_of_lookup_2 in Hi. rewrite elem_of_reverse in Hi.
    by apply elem_of_bmap_iter. }
  pose proof (omap_entries P _ HP Hin : entry_key <$> es = _) as Hkeys. rewrite fmap_take, fmap_reverse in Hkeys.
  unfold it in Hkeys. rewrite bmap_iter_keys in Hkeys. set (ks := bmap_keys (priority_index P)) in *.
  assert (NoDup (reverse ks)) as Hnd by (rewrite reverse_Permutation; apply bmap_keys_NoDup).
  assert (StronglySorted (flip pair_le) (reverse ks)) as Hsort 
    by exact (StronglySorted_reverse _ _ (bset_iter_sorted (dom (priority_index P)))).
  assert (length ks = size (entries P)) as Hlen.
  { unfold ks. by rewrite <-bmap_iter_keys, length_fmap, index_size. }
  rewrite <-(take_drop limit (reverse ks)) in Hsort, Hnd.
  pose proof Hnd as (Hnd1 & _ & _)%NoDup_app.
  split_and!.
  - rewrite <-(length_fmap entry_key es), Hkeys, length_take, length_reverse. lia.
  - apply (NoDup_fmap_1 entry_key). by rewrite Hkeys.
  - intros e ([k h] & _ & He)%list_elem_of_omap. cbn in He. by destruct (wf_entry P HP _ _ He) as (-> & _).
  - pose proof (StronglySorted_app_1_l _ _ _ Hsort) as Hs. rewrite <-Hkeys in Hs, Hnd1.
    apply StronglySorted_strict in Hs; [|done]. apply StronglySorted_fmap_1 in Hs. revert Hs. clear.
    induction 1 as [|e es _ IH He]; constructor; [done|]. eapply Forall_impl; [done|].
    intros e' [Hle Hne]. unfold flip, pair_le, entry_key in *. cbn in *.
    destruct (decide (pe_seq e' = pe_seq e)) as [Hq|]; [|lia]. rewrite Hq in *.
    destruct (decide (pe_priority e' = pe_priority e)) as [Hp|]; [|lia]. by rewrite Hp in Hne.
  - intros h e He. destruct (wf_entry P HP _ _ He) as (_ & Hi & _).
    assert (entry_key e ∈ take limit (reverse ks) ++ drop limit (reverse ks)) as Hk.
    { rewrite take_drop, elem_of_reverse. unfold ks. apply elem_of_bmap_keys. eauto. }
    apply elem_of_app in Hk as [Hk|Hk]; [left|right].
    + rewrite <-Hkeys in Hk. apply list_elem_of_fmap in Hk as (e' & Hk & He').
      pose proof He' as ([k h'] & _ & Hh')%list_elem_of_omap. cbn in Hh'.
      destruct (wf_entry P HP _ _ Hh') as (_ & Hi' & _). unfold entry_key in Hk. rewrite Hk in Hi.
      assert (h' = h) as -> by congruence. rewrite He in Hh'. by injection Hh' as ->.
    + intros e' He'. apply (StronglySorted_app_1_elem_of _ _ _ _ _ Hsort); [|done].
      rewrite <-Hkeys. by apply list_elem_of_fmap_2.
Qed.

(** *** Replacement *)

(** The replacement price is ten percent above the old one, rounded down: a
    price of at least ten must be exceeded, but below ten the minimum is the old
    price itself, so an equal offer replaces (and never a lower one). *)
Theorem rbf_min_price_bounds p :
  p * 11000 <= u128_max →
  p * 11 < (rbf_min_price p MIN_REPLACE_BUMP_BPS + 1) * 10 ∧ rbf_min_price p MIN_REPLACE_BUMP_BPS * 10 <= p * 11 ∧
  (10 <= p → p < rbf_min_price p MIN_REPLACE_BUMP_BPS) ∧ (p < 10 → rbf_min_price p MIN_REPLACE_BUMP_BPS = p).
Proof.
  intros Hp. unfold rbf_min_price, MIN_REPLACE_BUMP_BPS. change (10000 + 1000) with 11000.
  unfold checked_mul. rewrite (proj2 (N.leb_le _ _) Hp). cbv iota.
  pose proof (N.div_mod' (p * 11000) 10000). assert (p * 11000 mod 10000 < 10000) by (by apply N.mod_lt).
  set (q := p * 11000 / 10000) in *. set (r := (p * 11000) mod 10000) in *. clearbody q r. clear Hp.
  split_and!; lia.
Qed.
