(* ===== verification/VmState.v ===== *)
(** * Execution state ([lemma-vm/src/state.rs], [parallel/mvstate.rs],
      [parallel/mvview.rs], [parallel/conflict.rs])

    The state interface contracts run against, the in-memory state, the
    multi-version store of the parallel executor, the per-transaction view over
    it with its recorded reads, and read validation.  Methods that take [&self]
    but write through a [RefCell] return the new state. *)
From stdpp Require Import strings.
From S2P Require Import Prelude CoreTypes DagBlock Fee Transaction.

Definition u32_max : N := 2 ^ 32 - 1.

(** ** [ContractStateView] *)

Class ContractStateView (S : Type) := {
  sv_read : S → Address → bytes → S * option bytes;
  sv_write : S → Address → bytes → bytes → S;
  sv_delete : S → Address → bytes → S;
  sv_exists : S → Address → bytes → S * bool;
  sv_balance : S → Address → S * Amount;
  sv_set_balance : S → Address → Amount → S;
  sv_nonce : S → Address → S * N;
  sv_set_nonce : S → Address → N → S;
  sv_code : S → Address → S * option bytes;
  sv_set_code : S → Address → bytes → S;
  sv_has_code_hash : S → Hash → bool;
}.

(** ** [InMemoryStateView] *)

Record InMemoryStateView := {
  im_storage : gmap (Address * bytes) bytes;
  im_balances : gmap Address Amount;
  im_nonces : gmap Address N;
  im_code : gmap Address bytes;
  im_code_by_hash : gmap Hash bytes;
}.

Definition InMemoryStateView_new : InMemoryStateView :=
  {| im_storage := ∅; im_balances := ∅; im_nonces := ∅; im_code := ∅; im_code_by_hash := ∅ |}.
Definition with_balances (balances : gmap Address Amount) : InMemoryStateView :=
  {| im_storage := ∅; im_balances := balances; im_nonces := ∅; im_code := ∅; im_code_by_hash := ∅ |}.

Definition set_im_storage (s : InMemoryStateView) (m : gmap (Address * bytes) bytes) : InMemoryStateView :=
  {| im_storage := m; im_balances := im_balances s; im_nonces := im_nonces s; im_code := im_code s;
     im_code_by_hash := im_code_by_hash s |}.

Definition im_view (blake3 : bytes → Hash) : ContractStateView InMemoryStateView := {|
  sv_read s c k := (s, im_storage s !! (c, k));
  sv_write s c k v := set_im_storage s (<[(c, k) := v]> (im_storage s));
  sv_delete s c k := set_im_storage s (delete (c, k) (im_storage s));
  sv_exists s c k := (s, bool_decide (is_Some (im_storage s !! (c, k))));
  sv_balance s a := (s, default 0 (im_balances s !! a));
  sv_set_balance s a v := {| im_storage := im_storage s; im_balances := <[a := v]> (im_balances s);
    im_nonces := im_nonces s; im_code := im_code s; im_code_by_hash := im_code_by_hash s |};
  sv_nonce s a := (s, default 0 (im_nonces s !! a));
  sv_set_nonce s a n := {| im_storage := im_storage s; im_balances := im_balances s;
    im_nonces := <[a := n]> (im_nonces s); im_code := im_code s; im_code_by_hash := im_code_by_hash s |};
  sv_code s a := (s, im_code s !! a);
  sv_set_code s a code := {| im_storage := im_storage s; im_balances := im_balances s; im_nonces := im_nonces s;
    im_code := <[a := code]> (im_code s); im_code_by_hash := <[blake3 code := code]> (im_code_by_hash s) |};
  sv_has_code_hash s h := bool_decide (is_Some (im_code_by_hash s !! h));
|}.

(** ** [mvstate.rs] *)

Record Version := { txn_idx : N; incarnation : N }.
#[export] Instance Version_eq_dec : EqDecision Version.
Proof. solve_decision. Defined.

Inductive StateKey :=
  | KStorage (contract : Address) (key : bytes)
  | KBalance (a : Address)
  | KNonce (a : Address)
  | KCode (a : Address).

Inductive StateValue :=
  | VStorage (v : option bytes)
  | VBalance (v : Amount)
  | VNonce (v : N)
  | VCode (v : option bytes).

#[export] Instance StateKey_eq_dec : EqDecision StateKey.
Proof. solve_decision. Defined.
#[export] Instance StateKey_countable : Countable StateKey.
Proof.
  refine (inj_countable'
    (λ k, match k with KStorage c k => (0%nat, c, k) | KBalance a => (1%nat, a, [])
                     | KNonce a => (2%nat, a, []) | KCode a => (3%nat, a, []) end)
    (λ '(t, a, k), match t with 0%nat => KStorage a k | 1%nat => KBalance a | 2%nat => KNonce a | _ => KCode a end) _).
  by intros [].
Defined.
#[export] Instance StateValue_eq_dec : EqDecision StateValue.
Proof. solve_decision. Defined.

Record Entry := { e_incarnation : N; e_value : StateValue; is_estimate : bool }.
Definition Entry_new (incarnation : N) (value : StateValue) : Entry :=
  {| e_incarnation := incarnation; e_value := value; is_estimate := false |}.

Inductive MvReadResult :=
  | MvValue (version : Version) (value : StateValue)
  | MvEstimate (blocking_txn : N)
  | MvNotFound.

Definition shifted (txn_idx : N) : N := saturating_add u32_max txn_idx 1.

Notation MvState := (gmap StateKey (gmap N Entry)) (only parsing).

(** [range(0..=txn_idx).next_back()] *)
Definition latest (versions : gmap N Entry) (txn_idx : N) : option (N * Entry) :=
  last (filter (λ kv, kv.1 <= txn_idx) (bmap_iter versions)).

Definition mv_read (mv : MvState) (key : StateKey) (txn_idx : N) : MvReadResult :=
  match mv !! key with
  | None => MvNotFound
  | Some versions =>
      match latest versions txn_idx with
      | None => MvNotFound
      | Some (slot, entry) =>
          if is_estimate entry then MvEstimate (saturating_sub slot 1)
          else MvValue {| txn_idx := saturating_sub slot 1; incarnation := e_incarnation entry |} (e_value entry)
      end
  end.

Definition mv_write (mv : MvState) (key : StateKey) (version : Version) (value : StateValue) : MvState :=
  let slot := shifted (txn_idx version) in
  <[key := <[slot := Entry_new (incarnation version) value]> (default ∅ (mv !! key))]> mv.

(** One key of the loop of [mark_estimate], and of [remove_writes]. *)
Definition mark_one (mv : MvState) (txn_idx : N) (key : StateKey) : MvState :=
  match mv !! key with
  | None => mv
  | Some versions =>
      match versions !! shifted txn_idx with
      | None => mv
      | Some e => <[key := <[shifted txn_idx := {| e_incarnation := e_incarnation e; e_value := e_value e; is_estimate := true |}]> versions]> mv
      end
  end.
Definition mark_estimate (mv : MvState) (txn_idx : N) (keys : list StateKey) : MvState :=
  foldl (λ mv k, mark_one mv txn_idx k) mv keys.

Definition remove_one (mv : MvState) (txn_idx : N) (key : StateKey) : MvState :=
  match mv !! key with
  | None => mv
  | Some versions => <[key := delete (shifted txn_idx) versions]> mv
  end.
Definition remove_writes (mv : MvState) (txn_idx : N) (keys : list StateKey) : MvState :=
  foldl (λ mv k, remove_one mv txn_idx k) mv keys.

Definition snapshot_committed_into_btreemap (mv : MvState) : gmap StateKey StateValue :=
  omap (λ versions, (λ kv, e_value kv.2) <$> last (bmap_iter versions)) mv.

(** ** [conflict.rs] *)

Inductive ObservedRead :=
  | Versioned (version : Version) (value : StateValue)
  | BaseFallthrough.

Notation CapturedReads := (list (StateKey * ObservedRead)) (only parsing).

Definition read_still_matches (mv : MvState) (txn_idx : N) (key : StateKey) (observed : ObservedRead) : bool :=
  match mv_read mv key txn_idx, observed with
  | MvValue version value, Versioned ov oval => bool_decide (version = ov) && bool_decide (value = oval)
  | MvNotFound, BaseFallthrough => true
  | _, _ => false
  end.

Definition validate (reads : CapturedReads) (mv : MvState) (txn_idx : N) : bool :=
  forallb (λ '(key, observed), read_still_matches mv txn_idx key observed) reads.

(** ** [mvview.rs].  The store is shared, so it is an argument of the reads. *)

Record MvStateView := {
  captured : CapturedReads;
  writes : gmap StateKey StateValue;
  min_blocking_txn : option N;
}.

Definition MvStateView_new : MvStateView := {| captured := []; writes := ∅; min_blocking_txn := None |}.
Definition into_parts (self : MvStateView) : gmap StateKey StateValue * CapturedReads := (writes self, captured self).

Definition note_blocking (self : MvStateView) (txn : N) : MvStateView :=
  {| captured := captured self; writes := writes self;
     min_blocking_txn := Some (match min_blocking_txn self with Some cur => N.min cur txn | None => txn end) |}.

Definition capture (self : MvStateView) (key : StateKey) (o : ObservedRead) : MvStateView :=
  {| captured := captured self ++ [(key, o)]; writes := writes self; min_blocking_txn := min_blocking_txn self |}.

Definition resolve (mv : MvState) (txn_idx : N) (self : MvStateView) (key : StateKey) : MvStateView * option StateValue :=
  match writes self !! key with
  | Some v => (self, Some v)
  | None =>
      match mv_read mv key txn_idx with
      | MvValue version value => (capture self key (Versioned version value), Some value)
      | MvEstimate blocking_txn => (capture (note_blocking self blocking_txn) key BaseFallthrough, None)
      | MvNotFound => (capture self key BaseFallthrough, None)
      end
  end.

Definition buffer (self : MvStateView) (key : StateKey) (value : StateValue) : MvStateView :=
  {| captured := captured self; writes := <[key := value]> (writes self); min_blocking_txn := min_blocking_txn self |}.

(** The view of one transaction over the current store and a base state. *)
Definition mv_view {S} `{!ContractStateView S} (mv : MvState) (txn_idx : N) (base : S) : ContractStateView MvStateView := {|
  sv_read self c k :=
    let '(self, r) := resolve mv txn_idx self (KStorage c k) in
    (self, match r with Some (VStorage v) => v | Some _ => None | None => (sv_read base c k).2 end);
  sv_write self c k v := buffer self (KStorage c k) (VStorage (Some v));
  sv_delete self c k := buffer self (KStorage c k) (VStorage None);
  sv_exists self c k :=
    let '(self, r) := resolve mv txn_idx self (KStorage c k) in
    (self, match r with Some (VStorage v) => bool_decide (is_Some v) | Some _ => false | None => (sv_exists base c k).2 end);
  sv_balance self a :=
    let '(self, r) := resolve mv txn_idx self (KBalance a) in
    (self, match r with Some (VBalance v) => v | Some _ => 0 | None => (sv_balance base a).2 end);
  sv_set_balance self a v := buffer self (KBalance a) (VBalance v);
  sv_nonce self a :=
    let '(self, r) := resolve mv txn_idx self (KNonce a) in
    (self, match r with Some (VNonce v) => v | Some _ => 0 | None => (sv_nonce base a).2 end);
  sv_set_nonce self a v := buffer self (KNonce a) (VNonce v);
  sv_code self a :=
    let '(self, r) := resolve mv txn_idx self (KCode a) in
    (self, match r with Some (VCode v) => v | Some _ => None | None => (sv_code base a).2 end);
  sv_set_code self a code := buffer self (KCode a) (VCode (Some code));
  sv_has_code_hash _ h := sv_has_code_hash base h;
|}.

(** ** What a read of the store returns *)

(** The slots a transaction may see, in increasing order. *)
Lemma latest_spec versions i :
  match latest versions i with
  | Some (s, e) => versions !! s = Some e ∧ s <= i ∧ ∀ s' e', versions !! s' = Some e' → s' <= i → s' <= s
  | None => ∀ s e, versions !! s = Some e → i < s
  end.
Proof.
  unfold latest. set (l := filter (λ kv, kv.1 <= i) (bmap_iter versions)).
  assert (∀ s e, (s, e) ∈ l ↔ versions !! s = Some e ∧ s <= i) as Hl.
  { intros s e. unfold l. rewrite list_elem_of_filter, elem_of_bmap_iter. cbn. naive_solver. }
  assert (StronglySorted N.le l.*1) as Hs.
  { clear Hl. subst l. pose proof (bset_iter_sorted (dom versions)) as Hk. fold (bmap_keys versions) in Hk.
    rewrite <-bmap_iter_keys in Hk. induction (bmap_iter versions) as [|[s e] r IH]; [constructor|].
    cbn in Hk. apply StronglySorted_cons in Hk as [Hf Hk]. rewrite filter_cons. case_decide; [|by apply IH].
    cbn. constructor; [by apply IH|]. apply Forall_forall. intros s' Hs'. apply list_elem_of_fmap in Hs' as ([s'' e''] & -> & Hin).
    rewrite Forall_forall in Hf. apply Hf. apply list_elem_of_fmap. exists (s'', e''). split; [done|].
    apply list_elem_of_filter in Hin as [_ Hin]. done. }
  destruct (last l) as [[s e]|] eqn:El.
  - apply last_Some in El as [l' El]. assert ((s, e) ∈ l) as Hin by (rewrite El; set_solver).
    apply Hl in Hin as [Hv Hi]. split_and!; [done..|]. intros s' e' Hv' Hi'.
    assert ((s', e') ∈ l) as Hin' by (by apply Hl). rewrite El in Hs, Hin'. rewrite fmap_app in Hs. cbn in Hs.
    apply elem_of_app in Hin' as [Hin'|Hin'%list_elem_of_singleton]; [|by simplify_eq].
    apply (StronglySorted_app_1_elem_of _ _ _ s' s Hs); [|set_solver]. apply list_elem_of_fmap. by exists (s', e').
  - apply last_None in El. intros s e Hv. destruct (decide (i < s)) as [|Hn]; [done|].
    assert ((s, e) ∈ l) as Hin by (apply Hl; split; [done|lia]). rewrite El in Hin. by apply not_elem_of_nil in Hin.
Qed.
