(* ===== verification/Flux.v ===== *)
(** * Flux: the block schedulers ([lemma-vm/src/parallel/scheduler.rs],
      [parallel/scheduler/state.rs], [parallel/scheduler/worker.rs])

    A transaction is what the executor does with the state view it is given: a
    tree of reads and writes that ends in a receipt.  The sequential scheduler
    runs one after another; the parallel one is a transition system in which
    every worker moves by one access to the shared store or one critical
    section at a time, in any order. *)
From stdpp Require Import strings.
From S2P Require Import Prelude CoreTypes DagBlock Fee Transaction VmState.

(** ** Executions as clients of the state view *)

(** [PGet] and [PPut] are the methods of the view.  [PPeek] is a read through a
    clone of the view, as contract code makes it through [ScratchSnapshot]: it
    returns the same value but is recorded in the clone only.  [PWarm] inserts
    into the executor's [warm_code] set and learns whether the hash is new. *)
Inductive Prog :=
  | PGet (k : StateKey) (cont : StateValue → Prog)
  | PPut (k : StateKey) (v : StateValue) (p : Prog)
  | PPeek (k : StateKey) (cont : StateValue → Prog)
  | PWarm (h : Hash) (cont : bool → Prog)
  | PDone (receipt : TransactionReceipt).

(** Only recorded reads and buffered writes. *)
Fixpoint tracked (p : Prog) : Prop :=
  match p with
  | PGet _ cont => ∀ v, tracked (cont v)
  | PPut _ _ p => tracked p
  | PDone _ => True
  | PPeek _ _ | PWarm _ _ => False
  end.

(** The base state as the view falls back to it. *)
Definition base_value {S} `{!ContractStateView S} (base : S) (k : StateKey) : StateValue :=
  match k with
  | KStorage c k => VStorage (sv_read base c k).2
  | KBalance a => VBalance (sv_balance base a).2
  | KNonce a => VNonce (sv_nonce base a).2
  | KCode a => VCode (sv_code base a).2
  end.

(** ** [scheduler/state.rs] *)

Record TxnState := {
  ts_incarnation : N;
  executed : bool;
  write_keys : list StateKey;
  ts_reads : list (StateKey * ObservedRead);
  ts_receipt : option TransactionReceipt;
}.
Definition TxnState_default : TxnState :=
  {| ts_incarnation := 0; executed := false; write_keys := []; ts_reads := []; ts_receipt := None |}.

Inductive Task := TExecute (txn_idx incarnation : N) | TIdle | TDone.

Record SchedulerState := {
  num_txns : N;
  next_to_execute : N;
  commit_idx : N;
  commit_in_flight : bool;
  txns : list TxnState;
}.

Definition SchedulerState_new (num_txns : N) : SchedulerState :=
  {| num_txns := num_txns; next_to_execute := 0; commit_idx := 0; commit_in_flight := false;
     txns := replicate (N.to_nat num_txns) TxnState_default |}.

(** [self.txns[i]]; out of range, which panics, does not occur. *)
Definition txn (s : SchedulerState) (i : N) : TxnState := default TxnState_default (txns s !! N.to_nat i).
Definition set_txn (s : SchedulerState) (i : N) (t : TxnState) : SchedulerState :=
  {| num_txns := num_txns s; next_to_execute := next_to_execute s; commit_idx := commit_idx s;
     commit_in_flight := commit_in_flight s; txns := <[N.to_nat i := t]> (txns s) |}.

Definition is_done (self : SchedulerState) : bool := num_txns self <=? commit_idx self.

Definition claim_commit (self : SchedulerState) : SchedulerState * option N :=
  if is_done self || commit_in_flight self then (self, None) else
  let idx := commit_idx self in
  if negb (executed (txn self idx)) then (self, None) else
  ({| num_txns := num_txns self; next_to_execute := next_to_execute self; commit_idx := commit_idx self;
      commit_in_flight := true; txns := txns self |}, Some idx).

Definition next_task (self : SchedulerState) : SchedulerState * Task :=
  if is_done self then (self, TDone) else
  if next_to_execute self <? num_txns self then
    let txn_idx := next_to_execute self in
    ({| num_txns := num_txns self; next_to_execute := next_to_execute self + 1; commit_idx := commit_idx self;
        commit_in_flight := commit_in_flight self; txns := txns self |},
     TExecute txn_idx (ts_incarnation (txn self txn_idx)))
  else (self, TIdle).

Definition record_execution (self : SchedulerState) (txn_idx : N) (write_keys : list StateKey)
    (reads : list (StateKey * ObservedRead)) (receipt : TransactionReceipt) : SchedulerState :=
  set_txn self txn_idx {| ts_incarnation := ts_incarnation (txn self txn_idx); executed := true;
    write_keys := write_keys; ts_reads := reads; ts_receipt := Some receipt |}.

Definition sched_commit (self : SchedulerState) : SchedulerState :=
  {| num_txns := num_txns self; next_to_execute := next_to_execute self; commit_idx := commit_idx self + 1;
     commit_in_flight := false; txns := txns self |}.

Definition abort (self : SchedulerState) (txn_idx : N) : SchedulerState * list StateKey :=
  let st := txn self txn_idx in
  (set_txn self txn_idx {| ts_incarnation := ts_incarnation st + 1; executed := false; write_keys := [];
     ts_reads := ts_reads st; ts_receipt := ts_receipt st |}, write_keys st).

(** ** [scheduler.rs] *)

Record BlockOutput := { receipts_out : list TransactionReceipt; writes_out : gmap StateKey StateValue }.

Section flux.
Context (base : StateKey → StateValue).

(** A read of the view, with the base state for what the store does not have. *)
Definition view_get (mv : gmap StateKey (gmap N Entry)) (idx : N) (view : MvStateView) (k : StateKey)
    : MvStateView * StateValue :=
  let '(view, r) := resolve mv idx view k in (view, default (base k) r).

(** An execution that nothing interrupts. *)
Fixpoint run_view (mv : gmap StateKey (gmap N Entry)) (idx : N) (warm : gset Hash) (view : MvStateView) (p : Prog)
    : gset Hash * MvStateView * TransactionReceipt :=
  match p with
  | PGet k cont => let '(view, v) := view_get mv idx view k in run_view mv idx warm view (cont v)
  | PPut k v p => run_view mv idx warm (buffer view k v) p
  | PPeek k cont => run_view mv idx warm view (cont (view_get mv idx view k).2)
  | PWarm h cont => run_view mv idx ({[h]} ∪ warm) view (cont (bool_decide (h ∉ warm)))
  | PDone receipt => (warm, view, receipt)
  end.

Definition publish (mv : gmap StateKey (gmap N Entry)) (version : Version) (ws : gmap StateKey StateValue)
    : gmap StateKey (gmap N Entry) :=
  foldl (λ mv kv, mv_write mv kv.1 version kv.2) mv (map_to_list ws).

Definition run_incarnation (mv : gmap StateKey (gmap N Entry)) (warm : gset Hash) (tx : Prog) (txn_idx incarnation : N)
    : gmap StateKey (gmap N Entry) * gset Hash * (list StateKey * list (StateKey * ObservedRead) * TransactionReceipt) :=
  let '(warm, view, receipt) := run_view mv txn_idx warm MvStateView_new tx in
  let '(ws, reads) := into_parts view in
  let version := {| txn_idx := txn_idx; incarnation := incarnation |} in
  (publish mv version ws, warm, ((map_to_list ws).*1, reads, receipt)).

(** The loop of [SequentialScheduler::execute_block]. *)
Fixpoint sequential_from (mv : gmap StateKey (gmap N Entry)) (warm : gset Hash) (idx : N) (txs : list Prog)
    : gmap StateKey (gmap N Entry) * list TransactionReceipt :=
  match txs with
  | [] => (mv, [])
  | tx :: txs =>
      let '(mv, warm, (_, _, receipt)) := run_incarnation mv warm tx idx 0 in
      let '(mv, receipts) := sequential_from mv warm (idx + 1) txs in
      (mv, receipt :: receipts)
  end.

Definition execute_sequential (txs : list Prog) : BlockOutput :=
  let '(mv, receipts) := sequential_from ∅ ∅ 0 txs in
  {| receipts_out := receipts; writes_out := snapshot_committed_into_btreemap mv |}.

(** ** [scheduler/worker.rs]: the parallel scheduler *)

(** Where a worker is between two accesses to shared state.  [fin] marks the
    re-execution that the committing worker runs. *)
Inductive Worker :=
  | WLoop
  | WRun (idx inc : N) (fin : bool) (view : MvStateView) (p : Prog)
  | WPublish (idx inc : N) (fin : bool) (todo : gmap StateKey StateValue) (keys : list StateKey)
      (reads : list (StateKey * ObservedRead)) (receipt : TransactionReceipt)
  | WTryCommit
  | WValidate (idx : N) (rest : list (StateKey * ObservedRead))
  | WCommit (idx : N)
  | WAbort (idx : N)
  | WMark (idx : N) (old_keys todo : list StateKey)
  | WRemove (idx : N) (todo : list StateKey)
  | WFinished.

Record Shared := { sh_mv : gmap StateKey (gmap N Entry); sh_sched : SchedulerState; sh_warm : gset Hash }.
Definition set_mv (g : Shared) (mv : gmap StateKey (gmap N Entry)) : Shared :=
  {| sh_mv := mv; sh_sched := sh_sched g; sh_warm := sh_warm g |}.
Definition set_sched (g : Shared) (s : SchedulerState) : Shared :=
  {| sh_mv := sh_mv g; sh_sched := s; sh_warm := sh_warm g |}.
Definition set_warm (g : Shared) (w : gset Hash) : Shared :=
  {| sh_mv := sh_mv g; sh_sched := sh_sched g; sh_warm := w |}.

(** One move of a worker. *)
Inductive wstep (txs : list Prog) : Shared → Worker → Shared → Worker → Prop :=
  | w_task g idx inc s' p :
      next_task (sh_sched g) = (s', TExecute idx inc) → txs !! N.to_nat idx = Some p →
      wstep txs g WLoop (set_sched g s') (WRun idx inc false MvStateView_new p)
  | w_idle g s' : next_task (sh_sched g) = (s', TIdle) → wstep txs g WLoop (set_sched g s') WTryCommit
  | w_done g s' : next_task (sh_sched g) = (s', TDone) → wstep txs g WLoop (set_sched g s') WFinished
  | w_get g idx inc fin view k cont view' v :
      view_get (sh_mv g) idx view k = (view', v) →
      wstep txs g (WRun idx inc fin view (PGet k cont)) g (WRun idx inc fin view' (cont v))
  | w_put g idx inc fin view k v p :
      wstep txs g (WRun idx inc fin view (PPut k v p)) g (WRun idx inc fin (buffer view k v) p)
  | w_peek g idx inc fin view k cont :
      wstep txs g (WRun idx inc fin view (PPeek k cont)) g (WRun idx inc fin view (cont (view_get (sh_mv g) idx view k).2))
  | w_warm g idx inc fin view h cont :
      wstep txs g (WRun idx inc fin view (PWarm h cont)) (set_warm g ({[h]} ∪ sh_warm g))
        (WRun idx inc fin view (cont (bool_decide (h ∉ sh_warm g))))
  | w_end g idx inc fin view r :
      wstep txs g (WRun idx inc fin view (PDone r)) g
        (WPublish idx inc fin (writes view) ((map_to_list (writes view)).*1) (captured view) r)
  | w_publish g idx inc fin todo keys reads r k v :
      todo !! k = Some v →
      wstep txs g (WPublish idx inc fin todo keys reads r)
        (set_mv g (mv_write (sh_mv g) k {| txn_idx := idx; incarnation := inc |} v))
        (WPublish idx inc fin (delete k todo) keys reads r)
  | w_record g idx inc fin keys reads r :
      wstep txs g (WPublish idx inc fin ∅ keys reads r)
        (set_sched g (record_execution (sh_sched g) idx keys reads r)) (if fin then WCommit idx else WLoop)
  | w_claim_none g s' : claim_commit (sh_sched g) = (s', None) → wstep txs g WTryCommit (set_sched g s') WLoop
  | w_claim g s' idx :
      claim_commit (sh_sched g) = (s', Some idx) →
      wstep txs g WTryCommit (set_sched g s') (WValidate idx (ts_reads (txn s' idx)))
  | w_valid g idx : wstep txs g (WValidate idx []) g (WCommit idx)
  | w_check g idx k o rest :
      wstep txs g (WValidate idx ((k, o) :: rest)) g
        (if read_still_matches (sh_mv g) idx k o then WValidate idx rest else WAbort idx)
  | w_commit g idx : wstep txs g (WCommit idx) (set_sched g (sched_commit (sh_sched g))) WLoop
  | w_abort g idx s' old :
      abort (sh_sched g) idx = (s', old) → wstep txs g (WAbort idx) (set_sched g s') (WMark idx old old)
  | w_mark g idx old k todo :
      wstep txs g (WMark idx old (k :: todo)) (set_mv g (mark_one (sh_mv g) idx k)) (WMark idx old todo)
  | w_marked g idx old : wstep txs g (WMark idx old []) g (WRemove idx old)
  | w_remove g idx k todo :
      wstep txs g (WRemove idx (k :: todo)) (set_mv g (remove_one (sh_mv g) idx k)) (WRemove idx todo)
  | w_rerun g idx p :
      txs !! N.to_nat idx = Some p →
      wstep txs g (WRemove idx []) g (WRun idx (ts_incarnation (txn (sh_sched g) idx)) true MvStateView_new p).

(** Any worker may move next. *)
Inductive step (txs : list Prog) : Shared * list Worker → Shared * list Worker → Prop :=
  | step_worker g ws i w g' w' :
      ws !! i = Some w → wstep txs g w g' w' → step txs (g, ws) (g', <[i := w']> ws).

Definition par_init (txs : list Prog) (num_workers : nat) : Shared * list Worker :=
  ({| sh_mv := ∅; sh_sched := SchedulerState_new (N.of_nat (length txs)); sh_warm := ∅ |}, replicate num_workers WLoop).

(** [collect_receipts]: a missing receipt becomes a failed one. *)
Definition collect_receipts (s : SchedulerState) (hashes : list Hash) : list TransactionReceipt :=
  imap (λ i h, default (TransactionReceipt_new h false 0 []) (ts_receipt (txn s (N.of_nat i)))) hashes.

(** The output once every worker has finished. *)
Definition par_output (hashes : list Hash) (g : Shared) : BlockOutput :=
  {| receipts_out := collect_receipts (sh_sched g) hashes;
     writes_out := snapshot_committed_into_btreemap (sh_mv g) |}.
End flux.
