(* ===== verification/FluxProof.v ===== *)
(** * Parallel execution equals sequential execution

    For transactions whose reads are all recorded, every interleaving of the
    parallel scheduler ends with the receipts and writes of the sequential one. *)
From stdpp Require Import strings.
From S2P Require Import Prelude CoreTypes DagBlock Fee Transaction VmState Flux.

(** ** The store, slot by slot *)

Definition at_ (mv : gmap StateKey (gmap N Entry)) (k : StateKey) (s : N) : option Entry := m ← mv !! k; m !! s.

Lemma at_write mv k ver v k' s :
  at_ (mv_write mv k ver v) k' s =
    if decide (k' = k ∧ s = shifted (txn_idx ver)) then Some (Entry_new (incarnation ver) v) else at_ mv k' s.
Proof.
  unfold at_, mv_write. destruct (decide (k' = k)) as [->|Hk].
  - rewrite lookup_insert_eq. cbn. case_decide as E.
    + destruct E as [_ ->]. by rewrite lookup_insert_eq.
    + rewrite lookup_insert_ne by naive_solver. by destruct (mv !! k).
  - rewrite lookup_insert_ne by done. by rewrite decide_False by naive_solver.
Qed.

Lemma at_remove mv i k k' s :
  at_ (remove_one mv i k) k' s = if decide (k' = k ∧ s = shifted i) then None else at_ mv k' s.
Proof.
  unfold at_, remove_one. destruct (mv !! k) as [m|] eqn:Hm.
  - destruct (decide (k' = k)) as [->|Hk].
    + rewrite lookup_insert_eq, Hm. cbn. case_decide as E.
      * destruct E as [_ ->]. by rewrite lookup_delete_eq.
      * by rewrite lookup_delete_ne by naive_solver.
    + rewrite lookup_insert_ne by done. by rewrite decide_False by naive_solver.
  - case_decide as E; [|done]. destruct E as [-> _]. by rewrite Hm.
Qed.

Lemma at_mark mv i k k' s :
  (s ≠ shifted i → at_ (mark_one mv i k) k' s = at_ mv k' s) ∧
  (at_ (mark_one mv i k) k' s = None ↔ at_ mv k' s = None).
Proof.
  unfold at_, mark_one. destruct (mv !! k) as [m|] eqn:Hm; [|done].
  destruct (m !! shifted i) as [e|] eqn:He; [|done].
  destruct (decide (k' = k)) as [->|Hk]; [|by rewrite lookup_insert_ne].
  rewrite lookup_insert_eq, Hm. cbn. split; [intros; by rewrite lookup_insert_ne|].
  destruct (decide (s = shifted i)) as [->|]; [rewrite lookup_insert_eq, He; naive_solver|by rewrite lookup_insert_ne].
Qed.

(** What a read returns, by slots. *)
Lemma mv_read_at mv k i :
  (mv_read mv k i = MvNotFound ∧ ∀ s e, at_ mv k s = Some e → i < s) ∨
  (∃ s e, at_ mv k s = Some e ∧ s <= i ∧ (∀ s' e', at_ mv k s' = Some e' → s' <= i → s' <= s) ∧
    mv_read mv k i = if is_estimate e then MvEstimate (s - 1)
                     else MvValue {| txn_idx := s - 1; incarnation := e_incarnation e |} (e_value e)).
Proof.
  unfold mv_read, at_. destruct (mv !! k) as [m|]; [|by left]. cbn.
  pose proof (latest_spec m i) as Hl. destruct (latest m i) as [[s e]|]; [right|by left].
  destruct Hl as (H1 & H2 & H3). exists s, e. by split_and!.
Qed.

Section flux.
Context (base : StateKey → StateValue) (txs : list Prog).
Hypothesis few_txs : N.of_nat (length txs) < u32_max.
Hypothesis all_tracked : Forall tracked txs.

Lemma shifted_small i : i < N.of_nat (length txs) → shifted i = i + 1.
Proof. intros. unfold shifted, saturating_add. lia. Qed.

(** ** The reference: one transaction after another on plain maps *)

(** The value of a key after the given write sets. *)
Definition cur (ws : list (gmap StateKey StateValue)) (k : StateKey) : StateValue :=
  foldl (λ v w, default v (w !! k)) (base k) ws.

Fixpoint prun (val : StateKey → StateValue) (p : Prog) (w : gmap StateKey StateValue)
    : gmap StateKey StateValue * TransactionReceipt :=
  match p with
  | PGet k cont | PPeek k cont => prun val (cont (default (val k) (w !! k))) w
  | PPut k v p => prun val p (<[k := v]> w)
  | PWarm _ cont => prun val (cont true) w
  | PDone r => (w, r)
  end.

Fixpoint seq_run (ws : list (gmap StateKey StateValue)) (ps : list Prog)
    : list (gmap StateKey StateValue * TransactionReceipt) :=
  match ps with
  | [] => []
  | p :: ps => let r := prun (cur ws) p ∅ in r :: seq_run (ws ++ [r.1]) ps
  end.

Definition res : list (gmap StateKey StateValue * TransactionReceipt) := seq_run [] txs.
Definition wset (i : N) : gmap StateKey StateValue := default ∅ (fst <$> res !! N.to_nat i).
Definition val (i : N) : StateKey → StateValue := cur (take (N.to_nat i) res.*1).

Lemma seq_run_lookup ps ws i p :
  ps !! i = Some p → seq_run ws ps !! i = Some (prun (cur (ws ++ take i (seq_run ws ps).*1)) p ∅).
Proof.
  revert ws i. induction ps as [|p0 ps IH]; intros ws i Hp; [done|]. cbn [seq_run]. destruct i as [|i].
  - cbn in *. injection Hp as ->. by rewrite app_nil_r.
  - cbn [lookup list_lookup] in *. rewrite (IH _ _ Hp). cbn. by rewrite <-app_assoc.
Qed.

Lemma length_seq_run ps ws : length (seq_run ws ps) = length ps.
Proof. revert ws. induction ps as [|p ps IH]; intros ws; cbn; [done|by rewrite IH]. Qed.

Lemma res_lookup i p : txs !! N.to_nat i = Some p → res !! N.to_nat i = Some (prun (val i) p ∅).
Proof. intros Hp. unfold res, val. by rewrite (seq_run_lookup _ _ _ _ Hp). Qed.

Lemma wset_lookup i p : txs !! N.to_nat i = Some p → wset i = (prun (val i) p ∅).1.
Proof. intros Hp. unfold wset. by rewrite (res_lookup _ _ Hp). Qed.

Lemma cur_none ws k : (∀ w, w ∈ ws → w !! k = None) → cur ws k = base k.
Proof.
  induction ws as [|w ws IH] using rev_ind; intros H; [done|]. unfold cur in *. rewrite foldl_app. cbn.
  rewrite (H w) by set_solver. cbn. apply IH. set_solver.
Qed.

Lemma cur_last ws k j w v :
  ws !! j = Some w → w !! k = Some v → (∀ j' w', (j < j')%nat → ws !! j' = Some w' → w' !! k = None) → cur ws k = v.
Proof.
  induction ws as [|w0 ws IH] using rev_ind; intros Hj Hv Hn; [done|]. unfold cur in *. rewrite foldl_app. cbn.
  apply lookup_app_Some in Hj as [Hj|[Hle Hj]].
  - pose proof (lookup_lt_Some _ _ _ Hj) as Hlt. rewrite (Hn (length ws) w0);
      [|lia|by rewrite lookup_app_r, Nat.sub_diag]. cbn.
    apply IH; [done..|]. intros j' w' Hj' Hw'. apply (Hn j'); [done|]. by apply lookup_app_l_Some.
  - apply list_lookup_singleton_Some in Hj as [_ ->]. by rewrite Hv.
Qed.

(** The entries of a transaction's slot are a given write set. *)
Definition slot_is (mv : gmap StateKey (gmap N Entry)) (i : N) (w : gmap StateKey StateValue) : Prop :=
  ∀ k, match w !! k with
       | Some v => ∃ inc, at_ mv k (i + 1) = Some (Entry_new inc v)
       | None => at_ mv k (i + 1) = None
       end.

Lemma take_wsets i j w :
  take (N.to_nat i) res.*1 !! j = Some w ↔ (j < N.to_nat i)%nat ∧ (j < length txs)%nat ∧ w = wset (N.of_nat j).
Proof.
  rewrite lookup_take_Some, list_lookup_fmap, fmap_Some. unfold wset. rewrite Nat2N.id. split.
  - intros [([w' r] & Hr & ->) Hj]. pose proof (lookup_lt_Some _ _ _ Hr) as Hlt. unfold res in Hlt. rewrite length_seq_run in Hlt.
    by rewrite Hr.
  - intros (Hj & Hl & ->). split; [|done]. destruct (lookup_lt_is_Some_2 res j) as [[w r] Hr]; [by unfold res; rewrite length_seq_run|].
    exists (w, r). by rewrite Hr.
Qed.

(** Once all earlier transactions are in the store with their reference writes,
    a read returns the reference value. *)
Lemma read_committed mv i k :
  i <= N.of_nat (length txs) → (∀ k', at_ mv k' 0 = None) → (∀ j, j < i → slot_is mv j (wset j)) →
  (∃ ver, mv_read mv k i = MvValue ver (val i k)) ∨ (mv_read mv k i = MvNotFound ∧ val i k = base k).
Proof.
  intros Hi H0 Hslots. destruct (mv_read_at mv k i) as [[-> Hnone]|(s & e & He & Hs & Hmax & ->)].
  - right. split; [done|]. unfold val. apply cur_none. intros w [j Hj]%list_elem_of_lookup_1.
    apply take_wsets in Hj as (Hj & _ & ->). specialize (Hslots (N.of_nat j)). unfold slot_is in Hslots.
    destruct (wset (N.of_nat j) !! k) as [v|] eqn:Hv; [|done].
    specialize (Hslots ltac:(lia) k). rewrite Hv in Hslots. destruct Hslots as [inc Hat]. apply Hnone in Hat. lia.
  - left. assert (s ≠ 0) as Hs0 by (intros ->; by rewrite H0 in He).
    pose proof (Hslots (s - 1) ltac:(lia) k) as Hsl. replace (s - 1 + 1) with s in Hsl by lia. rewrite He in Hsl.
    destruct (wset (s - 1) !! k) as [v|] eqn:Hv; [|done]. destruct Hsl as [inc [= ->]]. cbn.
    eexists. f_equal. symmetry. unfold val. apply (cur_last _ _ (N.to_nat (s - 1)) (wset (s - 1))); [|done|].
    + apply take_wsets. rewrite N2Nat.id. split_and!; [lia|lia|done].
    + intros j' w' Hlt Hj'. apply take_wsets in Hj' as (Hj' & _ & ->).
      destruct (wset (N.of_nat j') !! k) as [v'|] eqn:Hv'; [|done].
      pose proof (Hslots (N.of_nat j') ltac:(lia) k) as Hsl'. rewrite Hv' in Hsl'. destruct Hsl' as [inc' Hat].
      apply Hmax in Hat; lia.
Qed.

(** ** Executions and their recorded reads *)

Definition obs (k : StateKey) (o : ObservedRead) : StateValue :=
  match o with Versioned _ v => v | BaseFallthrough => base k end.

(** [ptrace p w rs p' w']: from program [p] with buffered writes [w], with the
    recorded reads [rs] answered as recorded, the execution gets to [p'] and
    [w']. *)
Inductive ptrace : Prog → gmap StateKey StateValue → list (StateKey * ObservedRead) →
    Prog → gmap StateKey StateValue → Prop :=
  | pt_nil p w : ptrace p w [] p w
  | pt_own k cont w v rs p' w' :
      w !! k = Some v → ptrace (cont v) w rs p' w' → ptrace (PGet k cont) w rs p' w'
  | pt_get k cont w o rs p' w' :
      w !! k = None → ptrace (cont (obs k o)) w rs p' w' → ptrace (PGet k cont) w ((k, o) :: rs) p' w'
  | pt_put k v p w rs p' w' : ptrace p (<[k := v]> w) rs p' w' → ptrace (PPut k v p) w rs p' w'.

Lemma ptrace_trans p w rs p' w' rs' p'' w'' :
  ptrace p w rs p' w' → ptrace p' w' rs' p'' w'' → ptrace p w (rs ++ rs') p'' w''.
Proof.
  induction 1; intros Ht; cbn; [done|eapply pt_own|eapply pt_get|eapply pt_put]; eauto.
Qed.

Lemma ptrace_prun val p w rs p' w' :
  ptrace p w rs p' w' → (∀ k o, (k, o) ∈ rs → obs k o = val k) → prun val p w = prun val p' w'.
Proof.
  induction 1 as [|k cont w v rs p' w' Hw _ IH|k cont w o rs p' w' Hw _ IH|k v p w rs p' w' _ IH]; intros Hrs; cbn; [done|..].
  - rewrite Hw. by apply IH.
  - rewrite Hw. cbn. rewrite <-(Hrs k o) by set_solver. apply IH. set_solver.
  - by apply IH.
Qed.

Lemma ptrace_tracked p w rs p' w' : ptrace p w rs p' w' → tracked p → tracked p'.
Proof. induction 1; cbn; eauto. Qed.

(** One read of the view extends the trace. *)
Lemma view_get_trace mv i view k view' v p0 cont :
  view_get base mv i view k = (view', v) → ptrace p0 ∅ (captured view) (PGet k cont) (writes view) →
  ptrace p0 ∅ (captured view') (cont v) (writes view') ∧
  ∀ k' o, (k', o) ∈ captured view' → (k', o) ∈ captured view ∨
    (k' = k ∧ ((∃ ver, o = Versioned ver v ∧ mv_read mv k i = MvValue ver v)
               ∨ (o = BaseFallthrough ∧ v = base k ∧ ∀ ver v', mv_read mv k i ≠ MvValue ver v'))).
Proof.
  intros Hg Ht. unfold view_get, resolve in Hg. destruct (writes view !! k) as [v0|] eqn:Hw.
  - injection Hg as <- <-. cbn. split; [|by left]. rewrite <-(app_nil_r (captured view)).
    eapply ptrace_trans; [done|]. by eapply pt_own, pt_nil.
  - destruct (mv_read mv k i) as [ver v1|b|] eqn:Hr; injection Hg as <- <-; cbn.
    + split; [eapply ptrace_trans; [done|]; by eapply (pt_get _ _ _ (Versioned ver v1)), pt_nil|].
      intros k' o [?|[= -> ->]%list_elem_of_singleton]%elem_of_app; [by left|right; eauto].
    + split; [eapply ptrace_trans; [done|]; by eapply (pt_get _ _ _ BaseFallthrough), pt_nil|].
      intros k' o [?|[= -> ->]%list_elem_of_singleton]%elem_of_app; [by left|right; eauto 10].
    + split; [eapply ptrace_trans; [done|]; by eapply (pt_get _ _ _ BaseFallthrough), pt_nil|].
      intros k' o [?|[= -> ->]%list_elem_of_singleton]%elem_of_app; [by left|right; eauto 10].
Qed.

Lemma put_trace view k v p p0 :
  ptrace p0 ∅ (captured view) (PPut k v p) (writes view) →
  ptrace p0 ∅ (captured (buffer view k v)) p (writes (buffer view k v)).
Proof.
  intros Ht. cbn. rewrite <-(app_nil_r (captured view)). eapply ptrace_trans; [done|]. by apply pt_put, pt_nil.
Qed.

(** ** The invariant of the parallel scheduler *)

Notation n := (N.of_nat (length txs)).

(** The recorded reads show what the reference execution reads. *)
Definition agree (i : N) (rs : list (StateKey * ObservedRead)) : Prop := ∀ k o, (k, o) ∈ rs → obs k o = val i k.

Definition recp (i : N) : option TransactionReceipt := snd <$> res !! N.to_nat i.

(** A complete execution of transaction [i] with writes [w]. *)
Definition execution (i : N) (rs : list (StateKey * ObservedRead)) (r : TransactionReceipt)
    (w : gmap StateKey StateValue) : Prop :=
  ∃ p, txs !! N.to_nat i = Some p ∧ ptrace p ∅ rs (PDone r) w.

Lemma execution_agree i rs r w : execution i rs r w → agree i rs → w = wset i ∧ recp i = Some r.
Proof.
  intros (p & Hp & Ht) Ha. pose proof (ptrace_prun (val i) _ _ _ _ _ Ht Ha) as E. cbn in E.
  rewrite (wset_lookup _ _ Hp), E. unfold recp. by rewrite (res_lookup _ _ Hp), E.
Qed.

Definition slot_empty (g : Shared) (i : N) : Prop := ∀ k, at_ (sh_mv g) k (i + 1) = None.

(** What the shared state says of transaction [j]. *)
Record txn_inv (g : Shared) (j : N) : Prop := {
  ti_committed : j < commit_idx (sh_sched g) →
    slot_is (sh_mv g) j (wset j) ∧ ts_receipt (txn (sh_sched g) j) = recp j;
  ti_executed : commit_idx (sh_sched g) <= j → executed (txn (sh_sched g) j) = true →
    j < next_to_execute (sh_sched g) ∧ ∃ r w, execution j (ts_reads (txn (sh_sched g) j)) r w ∧
      ts_receipt (txn (sh_sched g) j) = Some r ∧ write_keys (txn (sh_sched g) j) = (map_to_list w).*1 ∧
      slot_is (sh_mv g) j w;
  ti_waiting : next_to_execute (sh_sched g) <= j → slot_empty g j;
}.

Record glob (g : Shared) : Prop := {
  gl_num : num_txns (sh_sched g) = n;
  gl_len : length (txns (sh_sched g)) = length txs;
  gl_commit : commit_idx (sh_sched g) <= next_to_execute (sh_sched g);
  gl_next : next_to_execute (sh_sched g) <= n;
  gl_zero : ∀ k, at_ (sh_mv g) k 0 = None;
  gl_txn : ∀ j, txn_inv g j;
}.

Definition committing (g : Shared) (i : N) : Prop :=
  commit_in_flight (sh_sched g) = true ∧ i = commit_idx (sh_sched g) ∧ i < next_to_execute (sh_sched g).

Definition running (g : Shared) (i : N) (fin : bool) : Prop :=
  commit_idx (sh_sched g) <= i ∧ i < next_to_execute (sh_sched g) ∧ executed (txn (sh_sched g) i) = false ∧
  (fin = true → committing g i).

(** What a worker knows of the transaction it works on. *)
Definition winv (g : Shared) (w : Worker) : Prop :=
  match w with
  | WLoop | WTryCommit => True
  | WFinished => is_done (sh_sched g) = true
  | WRun i _ fin view p => running g i fin ∧ slot_empty g i ∧
      (∃ p0, txs !! N.to_nat i = Some p0 ∧ ptrace p0 ∅ (captured view) p (writes view)) ∧
      (fin = true → agree i (captured view))
  | WPublish i _ fin todo keys reads r => running g i fin ∧
      ∃ w, execution i reads r w ∧ (fin = true → agree i reads) ∧ todo ⊆ w ∧ keys = (map_to_list w).*1 ∧
        slot_is (sh_mv g) i (w ∖ todo)
  | WValidate i rest => committing g i ∧ executed (txn (sh_sched g) i) = true ∧
      ∃ done, ts_reads (txn (sh_sched g) i) = done ++ rest ∧ agree i done
  | WCommit i => committing g i ∧ executed (txn (sh_sched g) i) = true ∧
      slot_is (sh_mv g) i (wset i) ∧ ts_receipt (txn (sh_sched g) i) = recp i
  | WAbort i => committing g i ∧ executed (txn (sh_sched g) i) = true
  | WMark i old todo => committing g i ∧ executed (txn (sh_sched g) i) = false ∧
      ∀ k, at_ (sh_mv g) k (i + 1) ≠ None → k ∈ old
  | WRemove i todo => committing g i ∧ executed (txn (sh_sched g) i) = false ∧
      ∀ k, at_ (sh_mv g) k (i + 1) ≠ None → k ∈ todo
  end.

(** The transaction a worker works on, and whether it holds the commit claim. *)
Definition active (w : Worker) : option N :=
  match w with
  | WLoop | WTryCommit | WFinished => None
  | WRun i _ _ _ _ | WPublish i _ _ _ _ _ _ | WValidate i _ | WCommit i | WAbort i | WMark i _ _ | WRemove i _ => Some i
  end.
Definition claims (w : Worker) : bool :=
  match w with
  | WLoop | WTryCommit | WFinished => false
  | WRun _ _ fin _ _ | WPublish _ _ fin _ _ _ _ => fin
  | WValidate _ _ | WCommit _ | WAbort _ | WMark _ _ _ | WRemove _ _ => true
  end.

Lemma slot_is_ext mv mv' i w : (∀ k, at_ mv' k (i + 1) = at_ mv k (i + 1)) → slot_is mv i w → slot_is mv' i w.
Proof. intros E H k. rewrite E. apply H. Qed.

(** *** A change to one transaction leaves the others as they are *)

Record frame (g g' : Shared) (i : N) : Prop := {
  fr_num : num_txns (sh_sched g') = num_txns (sh_sched g);
  fr_next : next_to_execute (sh_sched g) <= next_to_execute (sh_sched g');
  fr_txn : ∀ j, j ≠ i → txn (sh_sched g') j = txn (sh_sched g) j;
  fr_mv : ∀ j k, j ≠ i → at_ (sh_mv g') k (j + 1) = at_ (sh_mv g) k (j + 1);
  fr_commit :
    (commit_idx (sh_sched g') = commit_idx (sh_sched g) ∧
     (commit_in_flight (sh_sched g) = true → commit_in_flight (sh_sched g') = true)) ∨
    (i = commit_idx (sh_sched g) ∧ commit_idx (sh_sched g') = commit_idx (sh_sched g) + 1);
}.

Lemma frame_committing g g' i j : frame g g' i → j ≠ i → committing g j → committing g' j.
Proof.
  intros [_ Hn _ _ Hc] Hj (Hf & Hi & Hlt). unfold committing.
  destruct Hc as [[-> Hf']|[-> _]]; [split_and!; [auto|done|lia]|done].
Qed.

Lemma frame_running g g' i j fin : frame g g' i → j ≠ i → running g j fin → running g' j fin.
Proof.
  intros Hfr Hj (H1 & H2 & H3 & H4). pose proof (fr_next _ _ _ Hfr). unfold running. split_and!; [|lia|..].
  - destruct (fr_commit _ _ _ Hfr) as [[-> _]|[-> ->]]; lia.
  - by rewrite (fr_txn _ _ _ Hfr).
  - intros Hfin. eapply frame_committing; eauto.
Qed.

Lemma frame_empty g g' i j : frame g g' i → j ≠ i → slot_empty g j → slot_empty g' j.
Proof. intros Hfr Hj He k. by rewrite (fr_mv _ _ _ Hfr). Qed.

Lemma frame_slot g g' i j w : frame g g' i → j ≠ i → slot_is (sh_mv g) j w → slot_is (sh_mv g') j w.
Proof. intros Hfr Hj. apply slot_is_ext. intros k. by apply (fr_mv _ _ _ Hfr). Qed.

Lemma frame_winv g g' i w : frame g g' i → active w ≠ Some i → winv g w → winv g' w.
Proof.
  intros Hfr Ha. assert (∀ j, active w = Some j → j ≠ i) as Hne by (intros j Hj ->; done).
  destruct w as [|j inc fin v p|j inc fin todo ks rs r| |j rest|j|j|j old todo|j todo|]; cbn in *; try done;
    [specialize (Hne j eq_refl); rewrite ?(fr_txn _ _ _ Hfr) by done..|].
  - intros (? & ? & ? & ?). split_and!; eauto using frame_running, frame_empty.
  - intros (? & w & ? & ? & ? & ? & ?). split; [eauto using frame_running|]. exists w. split_and!; eauto using frame_slot.
  - intros (? & ? & ?). split_and!; eauto using frame_committing.
  - intros (? & ? & ? & ?). split_and!; eauto using frame_committing, frame_slot.
  - intros (? & ?). eauto using frame_committing.
  - intros (? & ? & H). split_and!; [eauto using frame_committing|done|]. intros k. rewrite (fr_mv _ _ _ Hfr) by done. apply H.
  - intros (? & ? & H). split_and!; [eauto using frame_committing|done|]. intros k. rewrite (fr_mv _ _ _ Hfr) by done. apply H.
  - unfold is_done. rewrite (fr_num _ _ _ Hfr), !N.leb_le. destruct (fr_commit _ _ _ Hfr) as [[-> _]|[_ ->]]; lia.
Qed.

Lemma frame_txn_inv g g' i j : frame g g' i → j ≠ i → txn_inv g j → txn_inv g' j.
Proof.
  intros Hfr Hj [Hc He Hw]. pose proof (fr_next _ _ _ Hfr).
  assert (j < commit_idx (sh_sched g') ↔ j < commit_idx (sh_sched g)) as Hlt.
  { destruct (fr_commit _ _ _ Hfr) as [[-> _]|[-> ->]]; [done|lia]. }
  split; rewrite ?(fr_txn _ _ _ Hfr) by done.
  - rewrite Hlt. intros [? ?]%Hc. eauto using frame_slot.
  - intros H1 H2. destruct He as (? & r & w & ? & ? & ? & ?); [lia|done|]. split; [lia|].
    exists r, w. split_and!; eauto using frame_slot.
  - intros H1. apply (frame_empty g g' i j); [done..|]. apply Hw. lia.
Qed.

Lemma frame_glob g g' i :
  glob g → frame g g' i → length (txns (sh_sched g')) = length (txns (sh_sched g)) →
  commit_idx (sh_sched g') <= next_to_execute (sh_sched g') → next_to_execute (sh_sched g') <= n →
  (∀ k, at_ (sh_mv g') k 0 = at_ (sh_mv g) k 0) → txn_inv g' i → glob g'.
Proof.
  intros [Hnum Hlen Hc Hn H0 Ht] Hfr Hl Hc' Hn' H0' Hi. split; [|congruence|done..| |].
  - by rewrite (fr_num _ _ _ Hfr).
  - intros k. by rewrite H0'.
  - intros j. destruct (decide (j = i)) as [->|]; [done|]. by eapply frame_txn_inv.
Qed.

(** *** One move *)

(** Worker [w], which works on [i] or on nothing, has become [w'], the only
    other one that may work on [i]. *)
Record moved (g : Shared) (w : Worker) (g' : Shared) (w' : Worker) (i : N) : Prop := {
  mo_glob : glob g';
  mo_winv : winv g' w';
  mo_frame : frame g g' i;
  mo_mine : active w = Some i ∨ active w = None ∧ ∀ u, winv g u → active u ≠ Some i;
  mo_next : active w' = Some i ∨ active w' = None;
  mo_cover : commit_idx (sh_sched g') <= i → i < next_to_execute (sh_sched g') →
    executed (txn (sh_sched g') i) = false → active w' = Some i;
  mo_task : next_to_execute (sh_sched g') = next_to_execute (sh_sched g) ∨
    i = next_to_execute (sh_sched g) ∧ next_to_execute (sh_sched g') = next_to_execute (sh_sched g) + 1;
  mo_claim : commit_in_flight (sh_sched g') = true →
    claims w' = true ∨ commit_in_flight (sh_sched g) = true ∧ claims w = false;
}.

Lemma frame_refl g i : frame g g i.
Proof. split; try done. by left. Qed.

Lemma active_range g w i :
  winv g w → active w = Some i →
  i < next_to_execute (sh_sched g) ∧ (executed (txn (sh_sched g) i) = false ∨ commit_in_flight (sh_sched g) = true).
Proof. destruct w; cbn; intros Hw [= ->]; destruct_and?; unfold running, committing in *; destruct_and?; auto. Qed.

Lemma moved_same g w w' i :
  glob g → winv g w' → active w = Some i → active w' = Some i → claims w' = claims w → moved g w g w' i.
Proof.
  intros Hg Hw Ha Ha' Hc. split; auto using frame_refl. intros Hf. rewrite Hc. destruct (claims w); auto.
Qed.

Lemma moved_idle g w w' :
  glob g → winv g w' → active w = None → active w' = None → claims w = false →
  moved g w g w' (next_to_execute (sh_sched g)).
Proof.
  intros Hg Hw Ha Ha' Hc. split; auto using frame_refl.
  - right. split; [done|]. intros u Hu Hau. destruct (active_range _ _ _ Hu Hau). lia.
  - lia.
Qed.

Lemma set_sched_eta g : set_sched g (sh_sched g) = g.
Proof. by destruct g. Qed.

Lemma txn_set g i t j :
  glob g → i < n → txn (set_txn (sh_sched g) i t) j = if decide (j = i) then t else txn (sh_sched g) j.
Proof.
  intros Hg Hi. unfold txn, set_txn. cbn. case_decide as E.
  - subst. rewrite list_lookup_insert_eq; [done|]. rewrite (gl_len _ Hg). lia.
  - rewrite list_lookup_insert_ne; [done|]. lia.
Qed.

Lemma glob_next_n g i : glob g → i < next_to_execute (sh_sched g) → i < n.
Proof. intros Hg. pose proof (gl_next _ Hg). lia. Qed.

(** A write to the slot of a transaction that is not executed. *)
Lemma moved_mv g w w' i mv :
  glob g → winv (set_mv g mv) w' → active w = Some i → active w' = Some i → claims w' = claims w →
  commit_idx (sh_sched g) <= i → i < next_to_execute (sh_sched g) → executed (txn (sh_sched g) i) = false →
  (∀ k s, s ≠ i + 1 → at_ mv k s = at_ (sh_mv g) k s) → moved g w (set_mv g mv) w' i.
Proof.
  intros Hg Hw Ha Ha' Hc H1 H2 H3 Hmv.
  assert (frame g (set_mv g mv) i) as Hfr.
  { split; cbn; [done..| |by left]. intros j k Hj. apply Hmv. lia. }
  split; auto; [|intros Hf; rewrite Hc; destruct (claims w); auto].
  apply (frame_glob g _ i); try done; try apply Hg.
  - intros k. apply Hmv. lia.
  - split; cbn; intros; [lia|congruence|lia].
Qed.

(** A change to the scheduler's record of a transaction. *)
Lemma frame_set_txn g i t : glob g → i < n → frame g (set_sched g (set_txn (sh_sched g) i t)) i.
Proof.
  intros Hg Hi. split; cbn; try done; [|by left].
  intros j Hj. rewrite txn_set by done. by rewrite decide_False.
Qed.

Lemma glob_set_txn g i t :
  glob g → i < n → txn_inv (set_sched g (set_txn (sh_sched g) i t)) i → glob (set_sched g (set_txn (sh_sched g) i t)).
Proof.
  intros Hg Hi Ht. apply (frame_glob g _ i); try done; try apply Hg; [by apply frame_set_txn|].
  cbn. by rewrite length_insert.
Qed.

Lemma moved_task g i inc s' p :
  glob g → next_task (sh_sched g) = (s', TExecute i inc) → txs !! N.to_nat i = Some p →
  moved g WLoop (set_sched g s') (WRun i inc false MvStateView_new p) i.
Proof.
  intros Hg Hn Hp. unfold next_task in Hn. destruct (is_done _); [done|]. case_match eqn:Hlt; [|done].
  injection Hn as <- <- _. apply N.ltb_lt in Hlt. rewrite (gl_num _ Hg) in Hlt.
  set (i := next_to_execute (sh_sched g)) in *. pose proof (gl_commit _ Hg) as Hc. fold i in Hc.
  pose proof (gl_txn _ Hg i) as [_ He Hw]. fold i in He, Hw.
  assert (executed (txn (sh_sched g) i) = false) as Hex.
  { destruct (executed _); [|done]. destruct He; [done..|lia]. }
  match goal with |- moved _ _ ?x _ _ => set (g' := x) end.
  assert (frame g g' i) as Hfr by (split; cbn; try done; [lia|by left]).
  split; cbn; auto.
  - apply (frame_glob g _ i); cbn; try done; try apply Hg; try lia.
    split; cbn; [lia| |lia]. intros _ Hx. change (executed (txn (sh_sched g) i) = true) in Hx. congruence.
  - split_and!; [unfold running; cbn; split_and!; [done|lia|done|done]|by apply Hw| |done].
    exists p. split; [done|]. constructor.
  - right. split; [done|]. intros u Hu Hau. destruct (active_range _ _ _ Hu Hau). unfold i in *. lia.
Qed.

Lemma moved_claim g s' i :
  glob g → claim_commit (sh_sched g) = (s', Some i) →
  moved g WTryCommit (set_sched g s') (WValidate i (ts_reads (txn s' i))) i.
Proof.
  intros Hg Hn. unfold claim_commit in Hn. destruct (is_done _ || _) eqn:Hd; [done|].
  apply orb_false_iff in Hd as [_ Hf]. destruct (negb _) eqn:He; [done|]. apply negb_false_iff in He.
  injection Hn as <- <-. set (i := commit_idx (sh_sched g)) in *.
  pose proof (gl_txn _ Hg i) as [Ht1 Ht2 Ht3]. destruct (Ht2 ltac:(unfold i; lia) He) as [Hlt Hx].
  match goal with |- moved _ _ ?x _ _ => set (g' := x) end.
  assert (frame g g' i) as Hfr by (split; cbn; try done; by left).
  split; cbn; auto.
  - apply (frame_glob g _ i); cbn; try done; apply Hg.
  - split_and!; [|done|]; [unfold committing; cbn; split_and!; done|]. exists []. split; [done|]. by intros k o ?%not_elem_of_nil.
  - right. split; [done|]. intros u Hu Hau. destruct (active_range _ _ _ Hu Hau) as [_ [?|?]]; unfold i in *; congruence.
Qed.

Lemma moved_commit g i :
  glob g → winv g (WCommit i) → moved g (WCommit i) (set_sched g (sched_commit (sh_sched g))) WLoop i.
Proof.
  intros Hg ((Hf & -> & Hlt) & He & Hs & Hr). set (i := commit_idx (sh_sched g)) in *.
  match goal with |- moved _ _ ?x _ _ => set (g' := x) end.
  assert (frame g g' i) as Hfr by (split; cbn; try done; by right).
  split; cbn; auto; [|unfold i; lia].
  apply (frame_glob g _ i); cbn; try done; try apply Hg; [unfold i in *; lia|].
  split; cbn; intros; [by split|unfold i in *; lia|unfold i in *; lia].
Qed.

Lemma read_agree g i k :
  glob g → i = commit_idx (sh_sched g) → i < n →
  (∃ ver, mv_read (sh_mv g) k i = MvValue ver (val i k)) ∨ (mv_read (sh_mv g) k i = MvNotFound ∧ val i k = base k).
Proof.
  intros Hg -> Hn. apply read_committed; [lia|apply Hg|].
  intros j Hj. by apply (ti_committed _ _ (gl_txn _ Hg j)).
Qed.

Lemma tracked_lookup i p : txs !! i = Some p → tracked p.
Proof. intros Hp. rewrite Forall_lookup in all_tracked. eauto. Qed.

Lemma moved_get g i inc fin view k cont view' v :
  glob g → winv g (WRun i inc fin view (PGet k cont)) → view_get base (sh_mv g) i view k = (view', v) →
  winv g (WRun i inc fin view' (cont v)).
Proof.
  intros Hg (Hr & He & (p0 & Hp & Ht) & Ha) Hv. destruct (view_get_trace _ _ _ _ _ _ _ _ Hv Ht) as [Ht' Hc].
  split_and!; [done..|by exists p0|]. intros Hfin k' o [Hin|[-> Ho]]%Hc; [by apply Ha|].
  destruct Hr as (_ & Hlt & _ & Hfr). destruct (Hfr Hfin) as (_ & Hi & _).
  destruct (read_agree g i k Hg Hi (glob_next_n _ _ Hg Hlt)) as [[ver Hm]|[Hm Hb]].
  - destruct Ho as [(ver' & -> & Hm')|(_ & _ & Hno)]; [|by apply Hno in Hm]. rewrite Hm in Hm'. by injection Hm' as _ <-.
  - destruct Ho as [(ver' & -> & Hm')|(-> & _ & _)]; [congruence|by rewrite Hb].
Qed.

Lemma moved_publish g i inc fin todo keys reads r k v :
  glob g → winv g (WPublish i inc fin todo keys reads r) → todo !! k = Some v →
  winv (set_mv g (mv_write (sh_mv g) k {| txn_idx := i; incarnation := inc |} v))
    (WPublish i inc fin (delete k todo) keys reads r).
Proof.
  intros Hg (Hr & w & Hx & Ha & Hsub & -> & Hs) Hk. split; [done|]. exists w. split_and!; [done..| |done|].
  - etrans; [apply delete_subseteq|done].
  - pose proof (glob_next_n _ _ Hg (proj1 (proj2 Hr))) as Hn. intros k'. specialize (Hs k'). cbn in *. rewrite at_write.
    cbn. rewrite shifted_small by done. rewrite lookup_difference in *. destruct (decide (k' = k)) as [->|Hne].
    + rewrite decide_True by done. rewrite lookup_delete_eq. rewrite (lookup_weaken _ _ _ _ Hk Hsub). by eexists.
    + rewrite decide_False by naive_solver. by rewrite lookup_delete_ne by done.
Qed.

Lemma moved_record g i inc fin keys reads r :
  glob g → winv g (WPublish i inc fin ∅ keys reads r) →
  moved g (WPublish i inc fin ∅ keys reads r) (set_sched g (record_execution (sh_sched g) i keys reads r))
    (if fin then WCommit i else WLoop) i.
Proof.
  intros Hg ((H1 & H2 & H3 & H4) & w & Hx & Ha & _ & Hk & Hs). pose proof (glob_next_n _ _ Hg H2) as Hn.
  rewrite map_difference_empty in Hs. unfold record_execution. set (t := Build_TxnState _ _ _ _ _).
  assert (txn (set_txn (sh_sched g) i t) i = t) as Ht by (rewrite txn_set by done; by rewrite decide_True).
  split; [|..].
  - apply glob_set_txn; [done..|]. split; cbn; rewrite ?Ht; cbn; [lia| |lia].
    intros _ _. split; [done|]. exists r, w. by split_and!.
  - destruct fin; [|done]. cbn. rewrite Ht. destruct (execution_agree _ _ _ _ Hx (Ha eq_refl)) as [-> Hr]. split_and!; [|done..].
    destruct (H4 eq_refl) as (? & ? & ?). by split_and!.
  - by apply frame_set_txn.
  - by left.
  - destruct fin; auto.
  - cbn. rewrite Ht. done.
  - by left.
  - cbn. destruct fin; auto.
Qed.

Lemma moved_check g i k o rest :
  glob g → winv g (WValidate i ((k, o) :: rest)) →
  winv g (if read_still_matches (sh_mv g) i k o then WValidate i rest else WAbort i).
Proof.
  intros Hg (Hc & He & done & Hd & Ha). destruct (read_still_matches _ _ _ _) eqn:Hm; [|by split_and!].
  split_and!; [done..|]. exists (done ++ [(k, o)]). split; [by rewrite <-app_assoc|].
  intros k' o' [Hin|[= -> ->]%list_elem_of_singleton]%elem_of_app; [by apply Ha|].
  destruct Hc as (_ & Hi & Hlt). unfold read_still_matches in Hm.
  destruct (read_agree g i k Hg Hi (glob_next_n _ _ Hg Hlt)) as [[ver Hr]|[Hr Hb]]; rewrite Hr in Hm; destruct o as [ver' v'|]; try done.
  by apply andb_true_iff in Hm as [_ <-%bool_decide_eq_true].
Qed.

Lemma moved_valid g i : glob g → winv g (WValidate i []) → winv g (WCommit i).
Proof.
  intros Hg (Hc & He & done & Hd & Ha). rewrite app_nil_r in Hd. destruct Hc as (Hf & Hi & Hlt).
  destruct (ti_executed _ _ (gl_txn _ Hg i)) as (_ & r & w & Hx & Hr & _ & Hs); [lia|done|].
  rewrite Hd in Hx. destruct (execution_agree _ _ _ _ Hx Ha) as [-> Hrr]. split_and!; [|done..|congruence]. by split_and!.
Qed.

Lemma moved_abort g i s' old :
  glob g → winv g (WAbort i) → Flux.abort (sh_sched g) i = (s', old) →
  moved g (WAbort i) (set_sched g s') (WMark i old old) i.
Proof.
  intros Hg [(Hf & Hi & Hlt) He] [= <- <-]. pose proof (glob_next_n _ _ Hg Hlt) as Hn.
  set (t := Build_TxnState _ _ _ _ _).
  assert (txn (set_txn (sh_sched g) i t) i = t) as Ht by (rewrite txn_set by done; by rewrite decide_True).
  destruct (ti_executed _ _ (gl_txn _ Hg i)) as (_ & r & w & _ & _ & Hk & Hs); [lia|done|].
  split; cbn; rewrite ?Ht; auto.
  - apply glob_set_txn; [done..|]. split; cbn; rewrite ?Ht; cbn; [lia|done|lia].
  - split_and!; [by split_and!|done|]. intros k Hat. rewrite Hk. specialize (Hs k). destruct (w !! k) as [v|] eqn:Hw; [|done].
    apply list_elem_of_fmap. exists (k, v). split; [done|]. by apply elem_of_map_to_list.
  - by apply frame_set_txn.
Qed.

Lemma wstep_moved g w g' w' : glob g → winv g w → wstep base txs g w g' w' → ∃ i, moved g w g' w' i.
Proof.
  intros Hg Hw Hs. destruct Hs.
  - eexists. by apply moved_task.
  - assert (s' = sh_sched g) as -> by (unfold next_task in *; repeat case_match; by simplify_eq).
    rewrite set_sched_eta. eexists. by apply moved_idle.
  - assert (s' = sh_sched g) as -> by (unfold next_task in *; repeat case_match; by simplify_eq).
    rewrite set_sched_eta. eexists. apply moved_idle; try done. cbn.
    unfold next_task in *. by repeat case_match.
  - exists idx. apply moved_same; [done| |done..]. by eapply moved_get.
  - exists idx. apply moved_same; [done| |done..]. destruct Hw as (? & ? & (p0 & ? & ?) & ?).
    split_and!; [done..| |done]. exists p0. split; [done|]. by apply put_trace.
  - exfalso. destruct Hw as (_ & _ & (p0 & Hp & Ht) & _). by apply (ptrace_tracked _ _ _ _ _ Ht), (tracked_lookup _ _ Hp).
  - exfalso. destruct Hw as (_ & _ & (p0 & Hp & Ht) & _). by apply (ptrace_tracked _ _ _ _ _ Ht), (tracked_lookup _ _ Hp).
  - exists idx. apply moved_same; [done| |done..]. destruct Hw as (? & He & (p0 & ? & ?) & ?).
    split; [done|]. exists (writes view). split_and!; [by exists p0|done..|]. intros k. rewrite lookup_difference.
    destruct (writes view !! k); apply He.
  - exists idx. pose proof Hw as ((? & Hlt & ? & _) & _). apply moved_mv; try done; [by apply moved_publish|].
    intros k' s Hne. rewrite at_write. cbn. rewrite shifted_small by (by eapply glob_next_n). by rewrite decide_False by naive_solver.
  - exists idx. by apply moved_record.
  - assert (s' = sh_sched g) as -> by (unfold claim_commit in *; repeat case_match; by simplify_eq).
    rewrite set_sched_eta. eexists. by apply moved_idle.
  - eexists. by apply moved_claim.
  - exists idx. apply moved_same; [done| |done..]. by apply moved_valid.
  - exists idx. apply moved_same; [done| |done|by case_match|by case_match]. by apply moved_check.
  - exists idx. by apply moved_commit.
  - exists idx. by apply moved_abort.
  - exists idx. pose proof Hw as ((? & Hi & Hlt) & ? & Hk). pose proof (glob_next_n _ _ Hg Hlt) as Hn.
    apply moved_mv; try done; [|lia|].
    + split_and!; [done..|]. cbn. intros k'. rewrite (proj2 (at_mark _ _ _ _ _)). apply Hk.
    + intros k' s Hne. apply at_mark. by rewrite shifted_small.
  - exists idx. apply moved_same; [done| |done..]. done.
  - exists idx. pose proof Hw as ((? & Hi & Hlt) & ? & Hk). pose proof (glob_next_n _ _ Hg Hlt) as Hn.
    apply moved_mv; try done; [|lia|].
    + split_and!; [done..|]. cbn. intros k'. rewrite at_remove, shifted_small by done. case_decide; [done|].
      intros [->|?]%Hk%elem_of_cons; [naive_solver|done].
    + intros k' s Hne. rewrite at_remove, shifted_small by done. by rewrite decide_False by naive_solver.
  - exists idx. apply moved_same; [done| |done..]. destruct Hw as ((Hf & Hi & Hlt) & He & Hk).
    split_and!; [split_and!; [lia|done|done|by intros]| | |].
    + intros k. destruct (at_ _ _ _) eqn:E; [|done]. exfalso. by apply (not_elem_of_nil k), Hk; rewrite E.
    + exists p. split; [done|]. constructor.
    + by intros _ k o ?%not_elem_of_nil.
Qed.
End flux.
