(* ===== verification/FluxEquiv.v ===== *)
(** * Flux: every schedule gives the sequential result

    The invariant of [FluxProof] over all workers, the sequential scheduler
    against the same reference, and the two theorems: a finished parallel run
    has the output of the sequential scheduler, and every run can finish. *)
From stdpp Require Import strings.
From S2P Require Import Prelude CoreTypes DagBlock Fee Transaction VmState Flux FluxProof.

Section equiv.
Context (base : StateKey → StateValue) (txs : list Prog).
Hypothesis few_txs : N.of_nat (length txs) < u32_max.
Hypothesis all_tracked : Forall tracked txs.

Notation n := (N.of_nat (length txs)).

Record inv (g : Shared) (ws : list Worker) : Prop := {
  in_glob : glob base txs g;
  in_winv : ∀ i w, ws !! i = Some w → winv base txs g w;
  in_unique : ∀ i i' w w' x, ws !! i = Some w → ws !! i' = Some w' →
    active w = Some x → active w' = Some x → i = i';
  in_cover : ∀ j, commit_idx (sh_sched g) <= j → j < next_to_execute (sh_sched g) →
    executed (txn (sh_sched g) j) = false → ∃ i w, ws !! i = Some w ∧ active w = Some j;
  in_claim : commit_in_flight (sh_sched g) = true → ∃ i w, ws !! i = Some w ∧ claims w = true;
}.

Lemma inv_init m : inv (par_init txs m).1 (par_init txs m).2.
Proof.
  cbn. split; cbn.
  - split; cbn; [done|by rewrite length_replicate, Nat2N.id|lia|lia| |].
    + done.
    + intros j. split; cbn; [lia| |by intros _ k].
      intros _. unfold txn. cbn. destruct (replicate _ _ !! _) as [t|] eqn:E; [|done].
      apply lookup_replicate in E as [-> _]. done.
  - intros i w [-> _]%lookup_replicate. done.
  - intros i i' w w' x [-> _]%lookup_replicate. done.
  - lia.
  - done.
Qed.

Lemma inv_step s s' : inv s.1 s.2 → step base txs s s' → inv s'.1 s'.2.
Proof.
  intros Hi Hs. destruct Hs as [g ws x w g' w' Hx Hw]. cbn in *.
  destruct (wstep_moved base txs few_txs all_tracked _ _ _ _ (in_glob _ _ Hi) (in_winv _ _ Hi _ _ Hx) Hw) as [i Hm].
  pose proof (lookup_lt_Some _ _ _ Hx) as Hlt.
  assert (∀ y u, y ≠ x → ws !! y = Some u → active u ≠ Some i) as Hoth.
  { intros y u Hy Hu Hau. destruct (mo_mine _ _ _ _ _ _ _ Hm) as [Ha|[_ Ha]].
    - by apply Hy, (in_unique _ _ Hi y x u w i).
    - by apply (Ha u); [apply (in_winv _ _ Hi y)|]. }
  assert (∀ y u, <[x:=w']> ws !! y = Some u → (y = x ∧ u = w') ∨ (y ≠ x ∧ ws !! y = Some u)) as Hcases.
  { intros y u Hu. destruct (decide (y = x)) as [->|Hy]; [left; rewrite list_lookup_insert_eq in Hu by done; by simplify_eq|].
    right. by rewrite list_lookup_insert_ne in Hu by done. }
  assert (∀ y u, y ≠ x → ws !! y = Some u → <[x:=w']> ws !! y = Some u) as Hkeep.
  { intros y u Hy Hu. by rewrite list_lookup_insert_ne by done. }
  split.
  - by apply Hm.
  - intros y u [[-> ->]|[Hy Hu]]%Hcases; [apply Hm|].
    apply (frame_winv base txs few_txs g _ i); [apply Hm|by eapply Hoth|by apply (in_winv _ _ Hi y)].
  - intros y y' u u' j Hu Hu' Ha Ha'.
    destruct (Hcases _ _ Hu) as [[-> ->]|[Hy Hu0]], (Hcases _ _ Hu') as [[-> ->]|[Hy' Hu0']]; [done|..|by eapply in_unique].
    + exfalso. destruct (mo_next _ _ _ _ _ _ _ Hm) as [E|E]; [|congruence].
      apply (Hoth y' u'); [done..|congruence].
    + exfalso. destruct (mo_next _ _ _ _ _ _ _ Hm) as [E|E]; [|congruence].
      apply (Hoth y u); [done..|congruence].
  - intros j H1 H2 H3. destruct (decide (j = i)) as [->|Hj].
    + exists x, w'. split; [by apply list_lookup_insert_eq|by apply (mo_cover _ _ _ _ _ _ _ Hm)].
    + pose proof (mo_frame _ _ _ _ _ _ _ Hm) as Hfr. rewrite (fr_txn _ _ _ Hfr) in H3 by done.
      destruct (in_cover _ _ Hi j) as (y & u & Hu & Hau); [| |done|].
      * destruct (fr_commit _ _ _ Hfr) as [[<- _]|[-> E]]; lia.
      * destruct (mo_task _ _ _ _ _ _ _ Hm) as [<-|[-> E]]; lia.
      * exists y, u. split; [|done]. apply Hkeep; [|done]. intros ->. rewrite Hx in Hu. injection Hu as ->.
        destruct (mo_mine _ _ _ _ _ _ _ Hm) as [E|[E _]]; congruence.
  - intros Hf. destruct (mo_claim _ _ _ _ _ _ _ Hm Hf) as [Hc|[Hf' Hc]].
    + exists x, w'. split; [by apply list_lookup_insert_eq|done].
    + destruct (in_claim _ _ Hi Hf') as (y & u & Hu & Hcu). exists y, u. split; [|done]. apply Hkeep; [|done].
      intros ->. rewrite Hx in Hu. injection Hu as ->. congruence.
Qed.

Lemma inv_reach m s : rtc (step base txs) (par_init txs m) s → inv s.1 s.2.
Proof.
  intros Hr. pose proof (inv_init m) as Hi. induction Hr as [|s1 s2 s3 Hs _ IH]; [done|]. apply IH. by eapply inv_step.
Qed.

(** ** The final store determines the output *)

(** All transactions are in the store with their reference writes, and nothing else is. *)
Definition complete (mv : gmap StateKey (gmap N Entry)) : Prop :=
  (∀ j, j < n → slot_is mv j (wset base txs j)) ∧ ∀ k s, s = 0 ∨ n < s → at_ mv k s = None.

Lemma list_filter_all {A} (P : A → Prop) `{∀ x, Decision (P x)} (l : list A) : (∀ x, x ∈ l → P x) → filter P l = l.
Proof.
  induction l as [|x l IH]; intros Hl; [done|]. rewrite filter_cons_True by (apply Hl; set_solver).
  f_equal. apply IH. set_solver.
Qed.

Lemma snapshot_read mv k :
  (∀ s, n < s → at_ mv k s = None) →
  snapshot_committed_into_btreemap mv !! k =
    match mv_read mv k n with MvValue _ v => Some v
    | MvEstimate _ => snapshot_committed_into_btreemap mv !! k | MvNotFound => None end.
Proof.
  intros Hn. unfold snapshot_committed_into_btreemap, mv_read. rewrite lookup_omap. unfold at_ in Hn.
  destruct (mv !! k) as [m|]; [|done]. cbn in *.
  assert (latest m n = last (bmap_iter m)) as ->.
  { unfold latest. f_equal. apply list_filter_all. intros [s e] Hin%elem_of_bmap_iter. cbn.
    destruct (decide (s <= n)) as [|Hs]; [done|]. rewrite Hn in Hin by lia. done. }
  destruct (last (bmap_iter m)) as [[s e]|]; [|done]. cbn. by destruct (is_estimate e).
Qed.

Lemma complete_snapshot mv :
  complete mv → ∀ k v, snapshot_committed_into_btreemap mv !! k = Some v ↔
    ∃ j, j < n ∧ wset base txs j !! k = Some v ∧ ∀ j', j < j' → j' < n → wset base txs j' !! k = None.
Proof.
  intros [Hs H0] k v. rewrite snapshot_read by (intros; apply H0; lia).
  assert (∀ j, j < n → wset base txs j !! k = None ↔ at_ mv k (j + 1) = None) as Hnone.
  { intros j Hj. specialize (Hs j Hj k). destruct (wset base txs j !! k); [destruct Hs as [inc ->]; naive_solver|naive_solver]. }
  destruct (mv_read_at mv k n) as [[-> Hno]|(s & e & He & Hle & Hmax & ->)].
  - split; [done|]. intros (j & Hj & Hv & _). specialize (Hs j Hj k). rewrite Hv in Hs. destruct Hs as [inc Hat].
    apply Hno in Hat. lia.
  - assert (s ≠ 0) as Hs0 by (intros ->; by rewrite H0 in He; [|left]).
    pose proof (Hs (s - 1) ltac:(lia) k) as Hsl. replace (s - 1 + 1) with s in Hsl by lia. rewrite He in Hsl.
    destruct (wset base txs (s - 1) !! k) as [v'|] eqn:Hv; [|done]. destruct Hsl as [inc [= ->]]. cbn. split.
    + intros [= <-]. exists (s - 1). split_and!; [lia|done|]. intros j' Hlt Hj'. apply Hnone; [done|].
      destruct (at_ mv k (j' + 1)) eqn:E; [|done]. apply Hmax in E; lia.
    + intros (j & Hj & Hvj & Hl). f_equal. destruct (N.lt_trichotomy j (s - 1)) as [Hlt|[->|Hlt]]; [|congruence|].
      * rewrite Hl in Hv by lia. done.
      * pose proof (Hs j Hj k) as Hsj. rewrite Hvj in Hsj. destruct Hsj as [inc' Hat]. apply Hmax in Hat; lia.
Qed.

Lemma complete_unique mv mv' :
  complete mv → complete mv' → snapshot_committed_into_btreemap mv = snapshot_committed_into_btreemap mv'.
Proof.
  intros H H'. apply map_eq. intros k. apply option_eq. intros v. by rewrite !complete_snapshot.
Qed.

(** ** The sequential scheduler *)

Definition complete_to (mv : gmap StateKey (gmap N Entry)) (i : N) : Prop :=
  (∀ j, j < i → slot_is mv j (wset base txs j)) ∧ ∀ k s, s = 0 ∨ i < s → at_ mv k s = None.

Lemma run_view_trace mv i p0 p : ∀ warm view warm' view' r,
  i <= n → complete_to mv i → tracked p → ptrace base p0 ∅ (captured view) p (writes view) →
  agree base txs i (captured view) → run_view base mv i warm view p = (warm', view', r) →
  ptrace base p0 ∅ (captured view') (PDone r) (writes view') ∧ agree base txs i (captured view').
Proof.
  intros warm view warm' view' r Hi Hc. revert view. induction p as [k cont IH|k v p IH|k cont|h cont|r0]; cbn; intros view Ht Hp Ha Hr; try done.
  - destruct (view_get base mv i view k) as [view1 v] eqn:Hg.
    destruct (view_get_trace _ _ _ _ _ _ _ _ _ Hg Hp) as [Hp' Hcap].
    apply (IH v view1); [apply Ht|done| |done]. intros k' o [Hin|[-> Ho]]%Hcap; [by apply Ha|].
    destruct (read_committed base txs few_txs all_tracked mv i k Hi) as [[ver Hm]|[Hm Hb]]; [intros; apply Hc; by left|apply Hc|..].
    + destruct Ho as [(ver' & -> & Hm')|(_ & _ & Hno)]; [|by apply Hno in Hm]. rewrite Hm in Hm'. by injection Hm' as _ <-.
    + destruct Ho as [(ver' & -> & Hm')|(-> & _ & _)]; [congruence|by rewrite Hb].
  - apply (IH (buffer view k v)); [done|by apply put_trace|done|done].
  - by injection Hr as <- <- <-.
Qed.

Lemma publish_list_at l mv ver k s :
  NoDup l.*1 →
  at_ (foldl (λ mv (kv : StateKey * StateValue), mv_write mv kv.1 ver kv.2) mv l) k s =
    if decide (s = shifted (txn_idx ver)) then
      match (list_to_map l : gmap StateKey StateValue) !! k with Some v => Some (Entry_new (incarnation ver) v) | None => at_ mv k s end
    else at_ mv k s.
Proof.
  revert mv. induction l as [|[k0 v0] l IH]; intros mv Hd; [cbn; by destruct (decide _)|]. rewrite list_to_map_cons. cbn [foldl fst snd].
  cbn in Hd. apply NoDup_cons in Hd as [Hnin Hd]. rewrite IH by done. rewrite at_write.
  destruct (decide (s = shifted (txn_idx ver))) as [->|Hs]; [|by rewrite decide_False by naive_solver].
  destruct (decide (k = k0)) as [->|Hk].
  - rewrite decide_True by done. rewrite lookup_insert_eq. by rewrite not_elem_of_list_to_map_1.
  - rewrite decide_False by naive_solver. by rewrite lookup_insert_ne by done.
Qed.

Lemma publish_at mv ver ws k s :
  at_ (publish mv ver ws) k s =
    if decide (s = shifted (txn_idx ver)) then
      match ws !! k with Some v => Some (Entry_new (incarnation ver) v) | None => at_ mv k s end
    else at_ mv k s.
Proof. unfold publish. rewrite publish_list_at by apply NoDup_fst_map_to_list. by rewrite list_to_map_to_list. Qed.

Lemma publish_complete mv i inc w :
  i < n → complete_to mv i → w = wset base txs i →
  complete_to (publish mv {| txn_idx := i; incarnation := inc |} w) (i + 1).
Proof.
  intros Hi [Hs H0] ->. split.
  - intros j Hj k. rewrite publish_at. cbn. rewrite (shifted_small txs few_txs) by done. destruct (decide (j = i)) as [->|Hne].
    + rewrite decide_True by done. destruct (wset base txs i !! k); [by eexists|]. apply H0. lia.
    + rewrite decide_False by lia. apply Hs. lia.
  - intros k s Hk. rewrite publish_at. cbn. rewrite (shifted_small txs few_txs) by done. rewrite decide_False by lia. apply H0. lia.
Qed.

Lemma sequential_from_complete ps : ∀ mv warm i mv' rs,
  drop (N.to_nat i) txs = ps → i <= n → complete_to mv i → sequential_from base mv warm i ps = (mv', rs) →
  complete_to mv' n ∧ rs = (drop (N.to_nat i) (res base txs)).*2.
Proof.
  induction ps as [|p ps IH]; intros mv warm i mv' rs Hd Hi Hc Hr; cbn in Hr.
  - injection Hr as <- <-. assert (i = n) as -> by (apply (f_equal length) in Hd; rewrite length_drop in Hd; cbn in Hd; lia).
    split; [done|]. rewrite drop_ge; [done|]. unfold res. rewrite length_seq_run. lia.
  - assert (txs !! N.to_nat i = Some p) as Hp.
    { rewrite <-(Nat.add_0_r (N.to_nat i)), <-lookup_drop, Hd. done. }
    assert (i < n) as Hlt by (apply lookup_lt_Some in Hp; lia).
    unfold run_incarnation in Hr. destruct (run_view base mv i warm MvStateView_new p) as [[warm1 view1] r] eqn:Hv.
    destruct (run_view_trace mv i p p warm MvStateView_new warm1 view1 r) as [Ht Ha];
      [done|done|rewrite Forall_lookup in all_tracked; eauto|constructor|by intros k o ?%not_elem_of_nil|done|].
    assert (execution base txs i (captured view1) r (writes view1)) as Hx by (by exists p).
    destruct (execution_agree base txs few_txs all_tracked _ _ _ _ Hx Ha) as [Hw Hrec].
    cbn in Hr. destruct (sequential_from _ _ _ _ _) as [mv1 rs1] eqn:Hr1. injection Hr as <- <-.
    apply IH in Hr1 as [Hc1 ->]; [|by rewrite N2Nat.inj_add, <-drop_drop, Hd|lia|by apply publish_complete].
    split; [done|]. unfold recp in Hrec. apply fmap_Some in Hrec as ([w' r'] & Hres & ->).
    rewrite (drop_S _ _ _ Hres). cbn. f_equal. f_equal. f_equal. lia.
Qed.

Lemma sequential_output :
  receipts_out (execute_sequential base txs) = (res base txs).*2 ∧
  ∃ mv, complete mv ∧ writes_out (execute_sequential base txs) = snapshot_committed_into_btreemap mv.
Proof.
  unfold execute_sequential. destruct (sequential_from base ∅ ∅ 0 txs) as [mv rs] eqn:Hr.
  apply sequential_from_complete in Hr as [Hc ->]; [|done|lia|split; [lia|done]].
  split; [done|]. by exists mv.
Qed.

Lemma glob_complete g : glob base txs g → commit_idx (sh_sched g) = n → complete (sh_mv g).
Proof.
  intros Hg Hc. split.
  - intros j Hj. apply (ti_committed _ _ _ _ (gl_txn _ _ _ Hg j)). lia.
  - intros k s [->|Hs]; [apply Hg|].
    pose proof (ti_waiting _ _ _ _ (gl_txn _ _ _ Hg (s - 1))) as He. pose proof (gl_next _ _ _ Hg).
    specialize (He ltac:(lia) k). by replace (s - 1 + 1) with s in He by lia.
Qed.

(** ** Every run can finish *)

Definition wrel (s s' : Shared * Worker) : Prop := wstep base txs s.1 s.2 s'.1 s'.2.

Lemma lift_rtc g w g' w' ws x :
  rtc wrel (g, w) (g', w') → ws !! x = Some w → rtc (step base txs) (g, ws) (g', <[x := w']> ws).
Proof.
  remember (g, w) as s1 eqn:E1. remember (g', w') as s2 eqn:E2. intros Hr. revert g w ws E1.
  induction Hr as [s|s1 [g1 w1] s3 Hs _ IH]; intros g w ws -> Hx; [simplify_eq; by rewrite list_insert_id|].
  eapply rtc_l; [by eapply step_worker|]. rewrite <-(list_insert_insert_eq ws x w' w1). apply (IH E2 _ _ _ eq_refl).
  apply list_lookup_insert_eq. by eapply lookup_lt_Some.
Qed.

(** What a worker's moves do to the progress of the block. *)
Definition progress (g g' : Shared) (d : N) : Prop :=
  num_txns (sh_sched g') = num_txns (sh_sched g) ∧ next_to_execute (sh_sched g') = next_to_execute (sh_sched g) ∧
  commit_idx (sh_sched g') = commit_idx (sh_sched g) + d.

Definition drives (g : Shared) (w : Worker) (w' : Worker) (d : N) : Prop :=
  ∃ g', rtc wrel (g, w) (g', w') ∧ progress g g' d.

Lemma drives_l g w g1 w1 w' d :
  wstep base txs g w g1 w1 → progress g g1 0 → drives g1 w1 w' d → drives g w w' d.
Proof.
  intros Hs (H1 & H2 & H3) (g' & Hr & H4 & H5 & H6). exists g'. split; [by eapply rtc_l; [|done]|].
  split_and!; [congruence..|lia].
Qed.

Lemma progress_refl g : progress g g 0.
Proof. split_and!; [done..|lia]. Qed.
Hint Resolve progress_refl : core.

Lemma drive_commit g i : drives g (WCommit i) WLoop 1.
Proof. eexists. split; [apply rtc_once; constructor|done]. Qed.

Lemma drive_publish todo g i inc (fin : bool) keys reads r :
  drives g (WPublish i inc fin todo keys reads r) WLoop (if fin then 1 else 0).
Proof.
  revert g. induction todo as [|k v todo Hk IH] using map_ind; intros g.
  - eapply drives_l; [apply w_record|by split_and!; cbn; lia|].
    destruct fin; [apply drive_commit|]. eexists. split; [apply rtc_refl|done].
  - eapply drives_l; [apply (w_publish _ _ _ _ _ _ _ _ _ _ k v), lookup_insert_eq|by split_and!; cbn; lia|].
    rewrite delete_insert_id by done. apply IH.
Qed.

Lemma drive_run p g i inc (fin : bool) view : drives g (WRun i inc fin view p) WLoop (if fin then 1 else 0).
Proof.
  revert g view. induction p as [k cont IH|k v p IH|k cont IH|h cont IH|r]; intros g view.
  - destruct (view_get base (sh_mv g) i view k) eqn:E. eapply drives_l; [by apply w_get|done|apply IH].
  - eapply drives_l; [constructor|done|apply IH].
  - eapply drives_l; [constructor|done|apply IH].
  - eapply drives_l; [constructor|by split_and!; cbn; lia|apply IH].
  - eapply drives_l; [constructor|done|apply drive_publish].
Qed.

Lemma drive_remove todo g i : i < n → drives g (WRemove i todo) WLoop 1.
Proof.
  intros Hi. revert g. induction todo as [|k todo IH]; intros g.
  - destruct (lookup_lt_is_Some_2 txs (N.to_nat i)) as [p Hp]; [lia|].
    eapply drives_l; [by apply w_rerun|done|]. apply (drive_run p g i _ true).
  - eapply drives_l; [constructor|by split_and!; cbn; lia|apply IH].
Qed.

Lemma drive_mark todo old g i : i < n → drives g (WMark i old todo) WLoop 1.
Proof.
  intros Hi. revert g. induction todo as [|k todo IH]; intros g.
  - eapply drives_l; [constructor|done|by apply drive_remove].
  - eapply drives_l; [constructor|by split_and!; cbn; lia|apply IH].
Qed.

Lemma drive_abort g i : i < n → drives g (WAbort i) WLoop 1.
Proof. intros Hi. eapply drives_l; [by constructor|by split_and!; cbn; lia|by apply drive_mark]. Qed.

Lemma drive_validate rest g i : i < n → drives g (WValidate i rest) WLoop 1.
Proof.
  intros Hi. revert g. induction rest as [|[k o] rest IH]; intros g.
  - eapply drives_l; [constructor|done|apply drive_commit].
  - eapply drives_l; [constructor|done|]. destruct (read_still_matches _ _ _ _); [apply IH|by apply drive_abort].
Qed.

Lemma claim_sched s s' o : claim_commit s = (s', o) →
  num_txns s' = num_txns s ∧ next_to_execute s' = next_to_execute s ∧ commit_idx s' = commit_idx s ∧
  ∀ i, o = Some i → i = commit_idx s ∧ i < num_txns s.
Proof.
  unfold claim_commit, is_done. destruct (N.leb_spec (num_txns s) (commit_idx s)); cbn; [by intros [= <- <-]|].
  repeat case_match; intros [= <- <-]; cbn; split_and!; try done; intros i Hi; by simplify_eq.
Qed.

Definition resting (w : Worker) : Prop := w = WLoop ∨ w = WFinished.

(** Any worker can be brought back to its loop. *)
Lemma drive g w : glob base txs g → winv base txs g w → ∃ w' d, drives g w w' d ∧ resting w'.
Proof.
  intros Hg Hw.
  assert (∀ i, active w = Some i → i < n) as Hn.
  { intros i Hi. apply (glob_next_n base txs few_txs g); [done|]. by apply (active_range _ _ _ _ _ Hw Hi). }
  destruct w; try (specialize (Hn _ eq_refl)).
  - exists WLoop, 0. split; [|by left]. eexists. split; [apply rtc_refl|done].
  - eexists _, _. split; [apply drive_run|by left].
  - eexists _, _. split; [apply drive_publish|by left].
  - destruct (claim_commit (sh_sched g)) as [s' [i|]] eqn:E; pose proof (claim_sched _ _ _ E) as (H1 & H2 & H3 & H4).
    + exists WLoop, 1. split; [|by left]. eapply drives_l; [by apply w_claim|by split_and!; cbn; lia|].
      apply drive_validate. destruct (H4 i eq_refl) as [_ ?]. by rewrite <-(gl_num _ _ _ Hg).
    + exists WLoop, 0. split; [|by left]. eexists. split; [apply rtc_once; by apply w_claim_none|split_and!; cbn; lia].
  - eexists _, _. split; [by apply drive_validate|by left].
  - eexists _, _. split; [by apply drive_commit|by left].
  - eexists _, _. split; [by apply drive_abort|by left].
  - eexists _, _. split; [by apply drive_mark|by left].
  - eexists _, _. split; [by apply drive_remove|by left].
  - exists WFinished, 0. split; [|by right]. eexists. split; [apply rtc_refl|done].
Qed.

Lemma inv_rtc s s' : inv s.1 s.2 → rtc (step base txs) s s' → inv s'.1 s'.2.
Proof. intros Hi Hr. induction Hr as [|s1 s2 s3 Hs _ IH]; [done|]. apply IH. by eapply inv_step. Qed.

(** All workers can be brought back to their loops. *)
Lemma drive_all g ws : inv g ws → ∃ g' ws', rtc (step base txs) (g, ws) (g', ws') ∧ length ws' = length ws ∧ Forall resting ws'.
Proof.
  intros Hi.
  assert (∀ k, (k <= length ws)%nat → ∃ g' ws', rtc (step base txs) (g, ws) (g', ws') ∧ length ws' = length ws ∧
    Forall resting (take k ws')) as Hk.
  { induction k as [|k IH]; intros Hk; [exists g, ws; split_and!; [apply rtc_refl|done|constructor]|].
    destruct IH as (g1 & ws1 & Hr & Hl & Hf); [lia|]. pose proof (inv_rtc (g, ws) _ Hi Hr) as Hi1.
    destruct (lookup_lt_is_Some_2 ws1 k) as [w Hw]; [lia|].
    destruct (drive g1 w (in_glob _ _ Hi1) (in_winv _ _ Hi1 _ _ Hw)) as (w' & d & (g2 & Hr2 & _) & Hrest).
    exists g2, (<[k:=w']> ws1). split_and!; [etrans; [done|by apply lift_rtc with w]|by rewrite length_insert|].
    rewrite (take_S_r _ _ w') by (apply list_lookup_insert_eq; lia).
    rewrite take_insert_ge by lia. apply Forall_app. by split; [|constructor]. }
  destruct (Hk (length ws)) as (g' & ws' & Hr & Hl & Hf); [lia|]. exists g', ws'.
  rewrite take_ge in Hf by lia. by split_and!.
Qed.

Lemma resting_active w : resting w → active w = None ∧ claims w = false.
Proof. by intros [->| ->]. Qed.

Lemma loop_idle g : next_task (sh_sched g) = (sh_sched g, TIdle) → wstep base txs g WLoop g WTryCommit.
Proof. intros Ht. apply (w_idle base txs g) in Ht. by rewrite set_sched_eta in Ht. Qed.

Lemma loop_done g : next_task (sh_sched g) = (sh_sched g, TDone) → wstep base txs g WLoop g WFinished.
Proof. intros Ht. apply (w_done base txs g) in Ht. by rewrite set_sched_eta in Ht. Qed.

Lemma rtc_length s s' : rtc (step base txs) s s' → length s'.2 = length s.2.
Proof. induction 1 as [|s1 s2 s3 [] _ IH]; [done|]. rewrite IH. cbn. by rewrite length_insert. Qed.

(** From a state at rest that is not done, the first worker can move the block on. *)
Lemma advance g w ws :
  inv g (w :: ws) → Forall resting (w :: ws) → is_done (sh_sched g) = false →
  ∃ g' w', rtc wrel (g, w) (g', w') ∧ resting w' ∧
    (n - next_to_execute (sh_sched g') + (n - commit_idx (sh_sched g')) <
     n - next_to_execute (sh_sched g) + (n - commit_idx (sh_sched g))).
Proof.
  intros Hi Hf Hd. pose proof (in_glob _ _ Hi) as Hg. pose proof (gl_num _ _ _ Hg) as Hnum.
  pose proof (gl_next _ _ _ Hg) as Hnx. pose proof Hd as Hc. apply N.leb_gt in Hc. rewrite Hnum in Hc.
  assert (w = WLoop) as ->.
  { apply Forall_cons in Hf as [[->| ->] _]; [done|]. pose proof (in_winv _ _ Hi 0%nat _ eq_refl) as Hw. cbn in Hw. congruence. }
  assert (∀ x u, (WLoop :: ws) !! x = Some u → active u = None ∧ claims u = false) as Hrest.
  { intros x u Hu. apply resting_active. rewrite Forall_lookup in Hf. eauto. }
  destruct (decide (next_to_execute (sh_sched g) < n)) as [Hlt|Hge].
  - destruct (lookup_lt_is_Some_2 txs (N.to_nat (next_to_execute (sh_sched g)))) as [p Hp]; [lia|].
    destruct (next_task (sh_sched g)) as [s1 t] eqn:Ht. pose proof Ht as Ht'. unfold next_task in Ht'.
    rewrite Hd, Hnum, (proj2 (N.ltb_lt _ _)) in Ht' by done. injection Ht' as Hs1 <-.
    destruct (drive_run p (set_sched g s1) (next_to_execute (sh_sched g))
      (ts_incarnation (txn (sh_sched g) (next_to_execute (sh_sched g)))) false MvStateView_new) as (g' & Hr & H1 & H2 & H3).
    exists g', WLoop. split_and!; [|by left|subst s1; cbn in *; lia].
    eapply rtc_l; [|exact Hr]. by apply (w_task base txs g).
  - assert (next_to_execute (sh_sched g) = n) as Hnn by lia.
    assert (executed (txn (sh_sched g) (commit_idx (sh_sched g))) = true) as He.
    { destruct (executed _) eqn:E; [done|]. destruct (in_cover _ _ Hi (commit_idx (sh_sched g))) as (x & u & Hu & Ha); [lia..|done|].
      apply Hrest in Hu as [? _]. congruence. }
    assert (commit_in_flight (sh_sched g) = false) as Hfl.
    { destruct (commit_in_flight _) eqn:E; [|done]. destruct (in_claim _ _ Hi E) as (x & u & Hu & Ha).
      apply Hrest in Hu as [_ ?]. congruence. }
    destruct (claim_commit (sh_sched g)) as [s1 o] eqn:Hcl. pose proof (claim_sched _ _ _ Hcl) as (_ & Hn1 & Hc1 & _).
    assert (o = Some (commit_idx (sh_sched g))) as -> by (unfold claim_commit in Hcl; rewrite Hd, Hfl, He in Hcl; by simplify_eq/=).
    destruct (drive_validate (ts_reads (txn s1 (commit_idx (sh_sched g)))) (set_sched g s1) (commit_idx (sh_sched g)) Hc)
      as (g' & Hr & H1 & H2 & H3).
    exists g', WLoop. split_and!; [|by left|cbn in *; lia].
    apply rtc_l with (g, WTryCommit); [|eapply rtc_l; [|exact Hr]; by apply (w_claim base txs g)]. apply (loop_idle g).
    unfold next_task. rewrite Hd, Hnum, Hnn. by rewrite (proj2 (N.ltb_ge _ _)) by lia.
Qed.

Lemma finish_loop k : ∀ g ws,
  (N.to_nat (n - next_to_execute (sh_sched g) + (n - commit_idx (sh_sched g))) < k)%nat →
  inv g ws → ws ≠ [] → Forall resting ws →
  ∃ g' ws', rtc (step base txs) (g, ws) (g', ws') ∧ is_done (sh_sched g') = true ∧ Forall resting ws'.
Proof.
  induction k as [|k IH]; intros g ws Hk Hi Hne Hf; [lia|].
  destruct (is_done (sh_sched g)) eqn:Hd; [exists g, ws; split_and!; [apply rtc_refl|done..]|].
  destruct ws as [|w ws]; [done|]. destruct (advance g w ws) as (g1 & w1 & Hr & Hrest & Hm); [done..|].
  pose proof (lift_rtc _ _ _ _ (w :: ws) 0%nat Hr eq_refl) as Hs. cbn in Hs. apply Forall_cons in Hf as [_ Hf].
  destruct (IH g1 (w1 :: ws)) as (g' & ws' & Hr' & Hd' & Hf'); [lia|by apply (inv_rtc (g, w :: ws) (g1, w1 :: ws))|done|by constructor|].
  exists g', ws'. split_and!; [|done..]. etrans; done.
Qed.

Lemma finish_workers g : is_done (sh_sched g) = true → ∀ ws, Forall resting ws →
  ∀ pre, rtc (step base txs) (g, pre ++ ws) (g, pre ++ replicate (length ws) WFinished).
Proof.
  intros Hd. induction ws as [|w ws IH]; intros Hf pre; [apply rtc_refl|]. apply Forall_cons in Hf as [Hw Hf].
  specialize (IH Hf (pre ++ [WFinished])). rewrite <-!app_assoc in IH. cbn in *. destruct Hw as [->| ->]; [|done].
  eapply rtc_l; [|exact IH].
  assert (pre ++ WFinished :: ws = <[length pre := WFinished]> (pre ++ WLoop :: ws)) as ->.
  { rewrite <-(Nat.add_0_r (length pre)) at 1. by rewrite insert_app_r. }
  apply step_worker with WLoop; [by rewrite lookup_app_r, Nat.sub_diag by lia|].
  apply loop_done. unfold next_task. by rewrite Hd.
Qed.

Lemma done_output m hashes s :
  length hashes = length txs → rtc (step base txs) (par_init txs m) s → is_done (sh_sched s.1) = true →
  par_output hashes s.1 = execute_sequential base txs.
Proof.
  intros Hh Hr Hd. pose proof (in_glob _ _ (inv_reach m s Hr)) as Hg. apply N.leb_le in Hd.
  pose proof (gl_num _ _ _ Hg). pose proof (gl_commit _ _ _ Hg). pose proof (gl_next _ _ _ Hg).
  assert (commit_idx (sh_sched s.1) = n) as Hc by lia.
  destruct sequential_output as (Hrec & mv & Hmv & Hw). destruct (execute_sequential base txs) as [rs w]. cbn in *. subst.
  unfold par_output. f_equal; [|by apply complete_unique; [apply glob_complete|]].
  unfold collect_receipts. apply list_eq. intros i. rewrite list_lookup_imap, list_lookup_fmap.
  destruct (decide (i < length txs)%nat) as [Hi|Hi].
  - destruct (lookup_lt_is_Some_2 hashes i) as [h ->]; [lia|]. cbn.
    pose proof (ti_committed _ _ _ _ (gl_txn _ _ _ Hg (N.of_nat i))) as [_ ->]; [lia|]. unfold recp. rewrite Nat2N.id.
    destruct (res base txs !! i) eqn:E; [done|]. apply lookup_ge_None in E. unfold res in E. rewrite length_seq_run in E. lia.
  - rewrite (lookup_ge_None_2 hashes) by lia. rewrite lookup_ge_None_2; [done|]. unfold res. rewrite length_seq_run. lia.
Qed.

(** The states any interleaving of [m] workers can reach. *)
Definition reachable (m : nat) (s : Shared * list Worker) : Prop := rtc (step base txs) (par_init txs m) s.

(** C2. Serialization guarantee of the parallel scheduler: take a block whose
    transactions access the state only through their view, with recorded reads
    and buffered writes.  Whatever the number of workers and whatever their
    interleaving, once every transaction is committed the receipts and the
    final writes are those of the sequential scheduler. *)
Theorem parallel_equals_sequential m hashes s :
  length hashes = length txs → reachable m s → is_done (sh_sched s.1) = true →
  par_output hashes s.1 = execute_sequential base txs.
Proof. apply done_output. Qed.

(** C14. The parallel scheduler cannot get stuck or lose work: with at least one
    worker, from every state that any interleaving can reach there is a way to
    go on in which every transaction is committed and every worker returns, and
    then the receipts and the final writes are those of the sequential
    scheduler. *)
Theorem parallel_can_finish m hashes s :
  (0 < m)%nat → length hashes = length txs → reachable m s →
  ∃ g ws, rtc (step base txs) s (g, ws) ∧ ws ≠ [] ∧ Forall (eq WFinished) ws ∧
    par_output hashes g = execute_sequential base txs.
Proof.
  intros Hm Hh Hr. pose proof (inv_reach m s Hr) as Hi.
  pose proof (rtc_length _ _ Hr) as Hl. cbn in Hl. rewrite length_replicate in Hl.
  destruct s as [g0 ws0]. destruct (drive_all g0 ws0 Hi) as (g1 & ws1 & Hr1 & Hl1 & Hf1).
  destruct (finish_loop (S (N.to_nat (n - next_to_execute (sh_sched g1) + (n - commit_idx (sh_sched g1))))) g1 ws1)
    as (g2 & ws2 & Hr2 & Hd2 & Hf2); [lia|by apply (inv_rtc (g0, ws0) (g1, ws1))|by intros ->; cbn in *; lia|done|].
  assert (rtc (step base txs) (g0, ws0) (g2, replicate (length ws2) WFinished)) as Hrr.
  { etrans; [exact Hr1|]. etrans; [exact Hr2|]. by apply (finish_workers g2 Hd2 ws2 Hf2 []). }
  exists g2, (replicate (length ws2) WFinished). split_and!; [done| | |].
  - apply rtc_length in Hrr. cbn in *. intros E. rewrite E in Hrr. cbn in Hrr. lia.
  - apply Forall_replicate. done.
  - apply (done_output m hashes (g2, replicate (length ws2) WFinished)); [done|by etrans|done].
Qed.
End equiv.
