(* ===== verification/FluxExamples.v ===== *)
(** * Flux: running given schedules, and what recorded reads cannot see

    A deterministic run of the parallel scheduler under a given schedule of
    worker moves, a schedule with other receipts than the sequential ones, since
    the shared [warm_code] set is outside what validation checks, and the blocks
    that copy a key, for which it matters whether the read goes through the view
    or through a clone of it. *)
From stdpp Require Import strings.
From S2P Require Import Prelude CoreTypes DagBlock Fee Transaction VmState Flux FluxProof FluxEquiv.

Section run.
Context (base : StateKey → StateValue) (txs : list Prog).

(** The next move of a worker, [None] when it has returned. *)
Definition wnext (g : Shared) (w : Worker) : option (Shared * Worker) :=
  match w with
  | WLoop =>
      let '(s', t) := next_task (sh_sched g) in
      match t with
      | TExecute idx inc => p ← txs !! N.to_nat idx; Some (set_sched g s', WRun idx inc false MvStateView_new p)
      | TIdle => Some (set_sched g s', WTryCommit)
      | TDone => Some (set_sched g s', WFinished)
      end
  | WRun idx inc fin view (PGet k cont) =>
      let '(view', v) := view_get base (sh_mv g) idx view k in Some (g, WRun idx inc fin view' (cont v))
  | WRun idx inc fin view (PPut k v p) => Some (g, WRun idx inc fin (buffer view k v) p)
  | WRun idx inc fin view (PPeek k cont) => Some (g, WRun idx inc fin view (cont (view_get base (sh_mv g) idx view k).2))
  | WRun idx inc fin view (PWarm h cont) =>
      Some (set_warm g ({[h]} ∪ sh_warm g), WRun idx inc fin view (cont (bool_decide (h ∉ sh_warm g))))
  | WRun idx inc fin view (PDone r) =>
      Some (g, WPublish idx inc fin (writes view) ((map_to_list (writes view)).*1) (captured view) r)
  | WPublish idx inc fin todo keys reads r =>
      match map_to_list todo with
      | (k, v) :: _ => Some (set_mv g (mv_write (sh_mv g) k {| txn_idx := idx; incarnation := inc |} v),
          WPublish idx inc fin (delete k todo) keys reads r)
      | [] => Some (set_sched g (record_execution (sh_sched g) idx keys reads r), if fin then WCommit idx else WLoop)
      end
  | WTryCommit =>
      let '(s', o) := claim_commit (sh_sched g) in
      match o with
      | Some idx => Some (set_sched g s', WValidate idx (ts_reads (txn s' idx)))
      | None => Some (set_sched g s', WLoop)
      end
  | WValidate idx [] => Some (g, WCommit idx)
  | WValidate idx ((k, o) :: rest) =>
      Some (g, if read_still_matches (sh_mv g) idx k o then WValidate idx rest else WAbort idx)
  | WCommit idx => Some (set_sched g (sched_commit (sh_sched g)), WLoop)
  | WAbort idx => let '(s', old) := Flux.abort (sh_sched g) idx in Some (set_sched g s', WMark idx old old)
  | WMark idx old (k :: todo) => Some (set_mv g (mark_one (sh_mv g) idx k), WMark idx old todo)
  | WMark idx old [] => Some (g, WRemove idx old)
  | WRemove idx (k :: todo) => Some (set_mv g (remove_one (sh_mv g) idx k), WRemove idx todo)
  | WRemove idx [] =>
      p ← txs !! N.to_nat idx; Some (g, WRun idx (ts_incarnation (txn (sh_sched g) idx)) true MvStateView_new p)
  | WFinished => None
  end.

(** Workers move in the order given; a worker that has returned stays put. *)
Fixpoint run_schedule (sch : list nat) (s : Shared * list Worker) : Shared * list Worker :=
  match sch with
  | [] => s
  | i :: sch =>
      run_schedule sch
        (match w ← s.2 !! i; wnext s.1 w with Some (g', w') => (g', <[i := w']> s.2) | None => s end)
  end.

Lemma wnext_sound g w g' w' : wnext g w = Some (g', w') → wstep base txs g w g' w'.
Proof.
  destruct w as [|idx inc fin view p|idx inc fin todo keys reads r| |idx rest|idx|idx|idx old todo|idx todo|]; cbn; [..|done].
  - destruct (next_task (sh_sched g)) as [s' [idx inc| |]] eqn:Ht; cbn.
    + destruct (txs !! N.to_nat idx) as [p|] eqn:Hp; cbn; [|done]. intros [= <- <-]. by constructor.
    + intros [= <- <-]. by constructor.
    + intros [= <- <-]. by constructor.
  - destruct p; [destruct (view_get _ _ _ _ _) eqn:Hv|..]; intros [= <- <-]; by constructor.
  - destruct (map_to_list todo) as [|[k v] l] eqn:Hm; intros [= <- <-].
    + apply map_to_list_empty_iff in Hm as ->. apply w_record.
    + apply w_publish. apply elem_of_map_to_list. rewrite Hm. set_solver.
  - destruct (claim_commit (sh_sched g)) as [s' [idx|]] eqn:Hc; intros [= <- <-]; by constructor.
  - destruct rest as [|[k o] rest]; intros [= <- <-]; constructor.
  - intros [= <- <-]. constructor.
  - intros [= <- <-]. by constructor.
  - destruct todo; intros [= <- <-]; constructor.
  - destruct todo as [|k todo]; [|intros [= <- <-]; constructor].
    destruct (txs !! N.to_nat idx) as [p|] eqn:Hp; cbn; [|done]. intros [= <- <-]. by constructor.
Qed.

Lemma run_schedule_sound sch s : rtc (step base txs) s (run_schedule sch s).
Proof.
  revert s. induction sch as [|i sch IH]; intros [g ws]; cbn; [done|].
  destruct (ws !! i) as [w|] eqn:Hw; cbn; [|apply IH].
  destruct (wnext g w) as [[g' w']|] eqn:Hn; [|apply IH].
  eapply rtc_l; [by eapply step_worker; [|apply wnext_sound]|apply IH].
Qed.
End run.

(** ** Two transactions that call the same code *)

Definition zero_base (k : StateKey) : StateValue :=
  match k with KStorage _ _ => VStorage None | KBalance _ => VBalance 0 | KNonce _ => VNonce 0 | KCode _ => VCode None end.

(** The call pays the surcharge exactly when it is the first to insert the hash. *)
Definition warm_call (tx_hash code_hash : Hash) : Prog :=
  PWarm code_hash (λ cold, PDone (TransactionReceipt_new tx_hash true (if cold : bool then 100 else 10) [])).
Definition warm_block : list Prog := [warm_call 1 9; warm_call 2 9].

(** Worker 0 takes transaction 0 and stops; worker 1 runs transaction 1 first. *)
Definition warm_schedule : list nat := [0; 1; 1; 0]%nat ++ replicate 40 0%nat ++ replicate 10 1%nat ++ replicate 3 0%nat.

(** The [warm_code] set is shared by all workers and is not part of what
    validation checks: a block of two calls to the same code finishes under some
    interleaving with the cold-code surcharge on the second transaction, so with
    other receipts than the sequential scheduler gives. *)
Theorem warm_code_breaks_serialization :
  ∃ txs hashes s, length hashes = length txs ∧ rtc (step zero_base txs) (par_init txs 2) s ∧
    Forall (eq WFinished) s.2 ∧ receipts_out (par_output hashes s.1) ≠ receipts_out (execute_sequential zero_base txs).
Proof.
  exists warm_block, [1; 2], (run_schedule zero_base warm_block warm_schedule (par_init warm_block 2)).
  split_and!; [done|apply run_schedule_sound|change (Forall (eq WFinished) [WFinished; WFinished]); by repeat constructor|by vm_compute].
Qed.

(** ** A transaction that copies what the one before it writes *)

Section copy.
Context (base : StateKey → StateValue) (k k' : StateKey) (v : StateValue) (r1 r2 : TransactionReceipt).
(** [read] is [PGet] or [PPeek]. *)
Definition copy_block (read : StateKey → (StateValue → Prog) → Prog) : list Prog :=
  [PPut k v (PDone r1); read k (λ x, PPut k' x (PDone r2))].
Definition ver (i : N) : Version := {| txn_idx := i; incarnation := 0 |}.

Lemma publish_one mv ver x y : publish mv ver (<[x := y]> ∅) = mv_write mv x ver y.
Proof. unfold publish. by rewrite insert_empty, map_to_list_singleton. Qed.
Lemma snapshot_written mv x y :
  mv !! x = None → snapshot_committed_into_btreemap (mv_write mv x (ver 1) y) !! x = Some y.
Proof.
  intros Hn. unfold snapshot_committed_into_btreemap, mv_write. rewrite lookup_omap, lookup_insert_eq, Hn. by vm_compute.
Qed.
Lemma snapshot_unwritten mv x ver y z : z ≠ x →
  snapshot_committed_into_btreemap (mv_write mv x ver y) !! z = snapshot_committed_into_btreemap mv !! z.
Proof. intros Hn. unfold snapshot_committed_into_btreemap, mv_write. by rewrite !lookup_omap, lookup_insert_ne. Qed.
Lemma read_written x y : (view_get base (mv_write ∅ x (ver 0) y) 1 MvStateView_new x).2 = y.
Proof.
  unfold view_get, resolve, mv_read, mv_write. cbn [writes MvStateView_new]. rewrite lookup_empty, lookup_insert_eq, lookup_empty. by vm_compute.
Qed.
Lemma read_unwritten x : (view_get base ∅ 1 MvStateView_new x).2 = base x.
Proof. unfold view_get, resolve, mv_read. cbn [writes MvStateView_new]. by rewrite !lookup_empty. Qed.

(** One after the other, either read gives what was written. *)
Lemma copy_sequential read : read = PGet ∨ read = PPeek → k ≠ k' →
  writes_out (execute_sequential base (copy_block read)) !! k' = Some v.
Proof.
  intros Hr Hk. unfold execute_sequential, copy_block. cbn [sequential_from]. unfold run_incarnation at 1.
  cbn [run_view into_parts buffer MvStateView_new writes]. rewrite publish_one. fold (ver 0).
  assert (∀ warm, ∃ view, run_view base (mv_write ∅ k (ver 0) v) (0 + 1) warm MvStateView_new (read k (λ x, PPut k' x (PDone r2)))
    = (warm, view, r2) ∧ writes view = <[k' := v]> ∅) as Hrun.
  { intros warm. pose proof (read_written k v) as Hv. destruct Hr as [->| ->]; cbn [run_view].
    - destruct (view_get _ _ _ _ _) as [w x] eqn:E. cbn in Hv. subst x. eexists. split; [done|]. cbn.
      assert (writes w = ∅) as ->; [|done]. unfold view_get, resolve in E. cbn [writes MvStateView_new] in E. rewrite lookup_empty in E.
      destruct (mv_read _ _ _); by injection E as <- _.
    - change (0 + 1) with 1. rewrite Hv. by eexists. }
  unfold run_incarnation. destruct (Hrun ∅) as (view & -> & Hw). cbn [into_parts]. unfold into_parts. rewrite Hw, publish_one. cbn.
  apply snapshot_written. unfold mv_write. by rewrite lookup_insert_ne.
Qed.
Ltac worker i c := eapply rtc_l; [eapply (step_worker _ _ _ _ i); [reflexivity|eapply c; try reflexivity]|cbn -[mv_write view_get buffer map_to_list delete]].
Lemma buffered x y : delete x (writes (buffer MvStateView_new x y)) = ∅ ∧ writes (buffer MvStateView_new x y) !! x = Some y.
Proof. cbn [writes buffer MvStateView_new]. rewrite insert_empty. split; [apply delete_singleton_eq|apply lookup_singleton_eq]. Qed.
(** Worker 1 reads before worker 0 has written. *)
Lemma copy_stale : k ≠ k' →
  ∃ s, rtc (step base (copy_block PPeek)) (par_init (copy_block PPeek) 2) s ∧ Forall (eq WFinished) s.2 ∧
    is_done (sh_sched s.1) = true ∧ ∀ hashes, writes_out (par_output hashes s.1) !! k' = Some (base k).
Proof.
  intros Hk. eexists. split.
  - unfold par_init. cbn [replicate].
    worker 0%nat w_task. worker 1%nat w_task. worker 1%nat w_peek. rewrite read_unwritten.
    worker 1%nat w_put. worker 1%nat w_end. worker 1%nat w_publish; [apply buffered|]. rewrite (proj1 (buffered _ _)). worker 1%nat w_record.
    worker 0%nat w_put. worker 0%nat w_end. worker 0%nat w_publish; [apply buffered|]. rewrite (proj1 (buffered _ _)). worker 0%nat w_record.
    do 2 (worker 0%nat w_idle; worker 0%nat w_claim; worker 0%nat w_valid; worker 0%nat w_commit).
    worker 0%nat w_done. worker 1%nat w_done. reflexivity.
  - split; [by repeat constructor|]. split; [done|]. intros hashes. cbn -[mv_write snapshot_committed_into_btreemap].
    rewrite snapshot_unwritten by done. by apply snapshot_written.
Qed.
End copy.

(** C15. A read through a clone of the view is not validated, although one through the
    view is.  Take any block of two transactions, of which the first writes a key and the
    second copies that key to another one, whatever the values.  When the copy is made
    through a cloned view, some interleaving of two workers commits both transactions with
    the value from before the block in the copy, while the sequential scheduler gives the
    written value.  When it is made through the view itself, every interleaving of any
    number of workers that commits the block gives the written value. *)
Theorem cloned_view_breaks_serialization base k k' v r1 r2 hashes :
  k ≠ k' → length hashes = 2%nat →
  (∃ s, reachable base (copy_block k k' v r1 r2 PPeek) 2 s ∧ Forall (eq WFinished) s.2 ∧ is_done (sh_sched s.1) = true ∧
     writes_out (par_output hashes s.1) !! k' = Some (base k)) ∧
  writes_out (execute_sequential base (copy_block k k' v r1 r2 PPeek)) !! k' = Some v ∧
  (∀ m s, reachable base (copy_block k k' v r1 r2 PGet) m s → is_done (sh_sched s.1) = true →
     writes_out (par_output hashes s.1) !! k' = Some v).
Proof.
  intros Hk Hh. split_and!.
  - destruct (copy_stale base k k' v r1 r2 Hk) as (s & H1 & H2 & H3 & H4). by exists s.
  - apply copy_sequential; [by right|done].
  - intros m s Hr Hd. rewrite (done_output base (copy_block k k' v r1 r2 PGet) eq_refl) with (m := m); [|by repeat constructor|done..].
    apply copy_sequential; [by left|done].
Qed.
