(* ===== verification/VmGas.v ===== *)
(** * Gas metering and VM errors ([lemma-vm/src/gas.rs], [error.rs])

    The reason texts of the errors are left out. *)
From stdpp Require Import strings.
From S2P Require Import Prelude CoreTypes DagBlock Fee Transaction.

Inductive VmError :=
  | CompilationFailed
  | InstantiationFailed
  | OutOfGas
  | StackOverflow
  | CallDepthExceeded
  | Reentrancy (addr : Address)
  | InvalidModule
  | ContractTooLarge (size limit : N)
  | UnsupportedHostAbi (deployed_abi max_supported : N)
  | HoneypotInvariantViolation
  | TrapUnknown
  | InsufficientFunds (required available : Amount)
  | VmPolicyViolation
  | InvalidParameter
  | EngineSetupFailed.

#[export] Instance VmError_eq_dec : EqDecision VmError.
Proof. solve_decision. Defined.

(** ** [FuelMeter] *)

Record FuelMeter := { remaining : Gas; refund_accumulator : Gas }.
Definition FuelMeter_new (budget : Gas) : FuelMeter := {| remaining := budget; refund_accumulator := 0 |}.
Definition set_remaining (self : FuelMeter) (gas : Gas) : FuelMeter :=
  {| remaining := gas; refund_accumulator := refund_accumulator self |}.

Definition charge (self : FuelMeter) (cost : Gas) : result VmError FuelMeter :=
  new_remaining ← ok_or OutOfGas (Gas_checked_sub (remaining self) cost);
  Ok (set_remaining self new_remaining).

Definition charge_per_byte (self : FuelMeter) (base per_byte : Gas) (len : N) : result VmError FuelMeter :=
  byte_cost ← ok_or OutOfGas (checked_mul u64_max per_byte len);
  total ← ok_or OutOfGas (Gas_checked_add base byte_cost);
  charge self total.

Definition refund (self : FuelMeter) (amount : Gas) : FuelMeter :=
  {| remaining := remaining self; refund_accumulator := saturating_add u64_max (refund_accumulator self) amount |}.

Definition capped_refund (self : FuelMeter) : Gas := N.min (refund_accumulator self) (remaining self / 2).
Definition meter_forwardable (self : FuelMeter) : Gas := forwardable (remaining self).
Definition gas_used (initial remaining : Gas) : option Gas := Gas_checked_sub initial remaining.

(** ** Lemmas *)

Lemma charge_Ok m c m' :
  charge m c = Ok m' ↔ c <= remaining m ∧ m' = set_remaining m (remaining m - c).
Proof.
  unfold charge, Gas_checked_sub, checked_sub. destruct (N.leb_spec c (remaining m)); cbn.
  - split; [by intros [= <-]|by intros [_ ->]].
  - split; [done|intros [? _]; lia].
Qed.

Lemma charge_Err m c e : charge m c = Err e ↔ remaining m < c ∧ e = OutOfGas.
Proof.
  unfold charge, Gas_checked_sub, checked_sub. destruct (N.leb_spec c (remaining m)); cbn; naive_solver lia.
Qed.

(** The total a per-byte charge takes. *)
Lemma charge_per_byte_Ok m b p len m' :
  charge_per_byte m b p len = Ok m' ↔
    p * len <= u64_max ∧ b + p * len <= u64_max ∧ b + p * len <= remaining m ∧
    m' = set_remaining m (remaining m - (b + p * len)).
Proof.
  unfold charge_per_byte, Gas_checked_add, checked_mul, checked_add.
  destruct (N.leb_spec (p * len) u64_max); cbn; [|naive_solver lia].
  destruct (N.leb_spec (b + p * len) u64_max); cbn; [|naive_solver lia].
  rewrite charge_Ok. naive_solver.
Qed.

Lemma charge_le m c m' : charge m c = Ok m' → remaining m' <= remaining m.
Proof. intros [_ ->]%charge_Ok. cbn. lia. Qed.

Lemma charge_per_byte_le m b p len m' : charge_per_byte m b p len = Ok m' → remaining m' <= remaining m.
Proof. intros (_ & _ & _ & ->)%charge_per_byte_Ok. cbn. lia. Qed.

#[export] Hint Resolve charge_le charge_per_byte_le : lemma_db.
