(* ===== verification/Scratch.v ===== *)
(** * Per-transaction state ([lemma-vm/src/executor/scratch.rs])

    The overlay a transaction executes against, the owned snapshot a contract
    runs on, and how they go back into the state.  What a view holds is stated
    through its contents; [ViewLaws] is the contract of a state view towards the
    executor, discharged by the in-memory state, by the overlay and by the view
    of the parallel executor. *)
From stdpp Require Import strings.
From S2P Require Import Prelude CoreTypes DagBlock Fee Transaction VmState.

(** ** Contents of a view *)

Record Contents := {
  c_storage : Address → bytes → option bytes;
  c_balance : Address → Amount;
  c_nonce : Address → N;
  c_code : Address → option bytes;
}.

#[export] Instance Contents_equiv : Equiv Contents := λ a b,
  (∀ c k, c_storage a c k = c_storage b c k) ∧ (∀ x, c_balance a x = c_balance b x) ∧
  (∀ x, c_nonce a x = c_nonce b x) ∧ (∀ x, c_code a x = c_code b x).
#[export] Instance Contents_equivalence : Equivalence (≡@{Contents}).
Proof.
  split.
  - intros a. by split_and!.
  - intros a b (H1 & H2 & H3 & H4). by split_and!.
  - intros a b c (H1 & H2 & H3 & H4) (H1' & H2' & H3' & H4').
    split_and!; intros; by rewrite ?H1, ?H2, ?H3, ?H4, ?H1', ?H2', ?H3', ?H4'.
Qed.

Definition with_storage (a : Contents) (c : Address) (k : bytes) (v : option bytes) : Contents :=
  {| c_storage := λ c' k', if decide (c' = c ∧ k' = k) then v else c_storage a c' k';
     c_balance := c_balance a; c_nonce := c_nonce a; c_code := c_code a |}.
Definition with_balance (a : Contents) (x : Address) (v : Amount) : Contents :=
  {| c_storage := c_storage a; c_balance := λ y, if decide (y = x) then v else c_balance a y;
     c_nonce := c_nonce a; c_code := c_code a |}.
Definition with_nonce (a : Contents) (x : Address) (v : N) : Contents :=
  {| c_storage := c_storage a; c_balance := c_balance a;
     c_nonce := λ y, if decide (y = x) then v else c_nonce a y; c_code := c_code a |}.
Definition with_code (a : Contents) (x : Address) (v : option bytes) : Contents :=
  {| c_storage := c_storage a; c_balance := c_balance a; c_nonce := c_nonce a;
     c_code := λ y, if decide (y = x) then v else c_code a y |}.

(** Pointwise equality of contents. *)
Ltac contents_tac :=
  repeat match goal with H : @equiv Contents _ _ _ |- _ => destruct H as (? & ? & ? & ?) end;
  split_and!; intros; cbn in *; repeat case_decide; auto; congruence.

#[export] Instance with_storage_proper : Proper ((≡) ==> (=) ==> (=) ==> (=) ==> (≡)) with_storage.
Proof. intros a b H ?? <- ?? <- ?? <-. contents_tac. Qed.
#[export] Instance with_balance_proper : Proper ((≡) ==> (=) ==> (=) ==> (≡)) with_balance.
Proof. intros a b H ?? <- ?? <-. contents_tac. Qed.
#[export] Instance with_nonce_proper : Proper ((≡) ==> (=) ==> (=) ==> (≡)) with_nonce.
Proof. intros a b H ?? <- ?? <-. contents_tac. Qed.
#[export] Instance with_code_proper : Proper ((≡) ==> (=) ==> (=) ==> (≡)) with_code.
Proof. intros a b H ?? <- ?? <-. contents_tac. Qed.

(** What a state view promises to the executor. *)
Class ViewLaws (S : Type) `{!ContractStateView S} := {
  contents : S → Contents;
  read_law s c k : (sv_read s c k).2 = c_storage (contents s) c k;
  read_keep s c k : contents (sv_read s c k).1 ≡ contents s;
  exists_law s c k : (sv_exists s c k).2 = bool_decide (is_Some (c_storage (contents s) c k));
  exists_keep s c k : contents (sv_exists s c k).1 ≡ contents s;
  balance_law s a : (sv_balance s a).2 = c_balance (contents s) a;
  balance_keep s a : contents (sv_balance s a).1 ≡ contents s;
  nonce_law s a : (sv_nonce s a).2 = c_nonce (contents s) a;
  nonce_keep s a : contents (sv_nonce s a).1 ≡ contents s;
  code_law s a : (sv_code s a).2 = c_code (contents s) a;
  code_keep s a : contents (sv_code s a).1 ≡ contents s;
  write_law s c k v : contents (sv_write s c k v) ≡ with_storage (contents s) c k (Some v);
  delete_law s c k : contents (sv_delete s c k) ≡ with_storage (contents s) c k None;
  set_balance_law s a v : contents (sv_set_balance s a v) ≡ with_balance (contents s) a v;
  set_nonce_law s a v : contents (sv_set_nonce s a v) ≡ with_nonce (contents s) a v;
}.

(** A committed state also stores code under the address it is given. *)
Class CodeLaws (S : Type) `{!ContractStateView S, !ViewLaws S} :=
  set_code_law s a code : contents (sv_set_code s a code) ≡ with_code (contents s) a (Some code).

(** ** [ScratchState] *)

Record ScratchState (S : Type) := {
  inner : S;
  storage_writes : gmap (Address * bytes) (option bytes);
  balance_writes : gmap Address Amount;
  nonce_writes : gmap Address N;
  code_writes : gmap Address bytes;
  code_hash_writes : gmap Address Hash;
  code_store_writes : gmap Hash bytes;
}.
Arguments inner {S} _.
Arguments storage_writes {S} _.
Arguments balance_writes {S} _.
Arguments nonce_writes {S} _.
Arguments code_writes {S} _.
Arguments code_hash_writes {S} _.
Arguments code_store_writes {S} _.

Section scratch.
Context {S : Type} `{!ContractStateView S}.

Definition ScratchState_new (inner : S) : ScratchState S :=
  {| inner := inner; storage_writes := ∅; balance_writes := ∅; nonce_writes := ∅; code_writes := ∅;
     code_hash_writes := ∅; code_store_writes := ∅ |}.

Definition set_inner (self : ScratchState S) (s : S) : ScratchState S :=
  {| inner := s; storage_writes := storage_writes self; balance_writes := balance_writes self;
     nonce_writes := nonce_writes self; code_writes := code_writes self;
     code_hash_writes := code_hash_writes self; code_store_writes := code_store_writes self |}.
Definition set_storage_writes (self : ScratchState S) (m : gmap (Address * bytes) (option bytes)) : ScratchState S :=
  {| inner := inner self; storage_writes := m; balance_writes := balance_writes self;
     nonce_writes := nonce_writes self; code_writes := code_writes self;
     code_hash_writes := code_hash_writes self; code_store_writes := code_store_writes self |}.
Definition set_balance_writes (self : ScratchState S) (m : gmap Address Amount) : ScratchState S :=
  {| inner := inner self; storage_writes := storage_writes self; balance_writes := m;
     nonce_writes := nonce_writes self; code_writes := code_writes self;
     code_hash_writes := code_hash_writes self; code_store_writes := code_store_writes self |}.
Definition set_nonce_writes (self : ScratchState S) (m : gmap Address N) : ScratchState S :=
  {| inner := inner self; storage_writes := storage_writes self; balance_writes := balance_writes self;
     nonce_writes := m; code_writes := code_writes self;
     code_hash_writes := code_hash_writes self; code_store_writes := code_store_writes self |}.
Definition set_code_maps (self : ScratchState S) (cw : gmap Address bytes) (ch : gmap Address Hash) (cs : gmap Hash bytes)
    : ScratchState S :=
  {| inner := inner self; storage_writes := storage_writes self; balance_writes := balance_writes self;
     nonce_writes := nonce_writes self; code_writes := cw; code_hash_writes := ch; code_store_writes := cs |}.

Definition put_code_content (self : ScratchState S) (hash : Hash) (code : bytes) : ScratchState S :=
  set_code_maps self (code_writes self) (code_hash_writes self) (<[hash := code]> (code_store_writes self)).
Definition set_code_hash_ptr (self : ScratchState S) (addr : Address) (hash : Hash) : ScratchState S :=
  set_code_maps self (code_writes self) (<[addr := hash]> (code_hash_writes self)) (code_store_writes self).

Definition ptr_code (self : ScratchState S) (addr : Address) : option bytes :=
  hash ← code_hash_writes self !! addr; code_store_writes self !! hash.

Definition resolve_code (self : ScratchState S) (addr : Address) : ScratchState S * option bytes :=
  match ptr_code self addr with
  | Some code => (self, Some code)
  | None => let '(s, r) := sv_code (inner self) addr in (set_inner self s, r)
  end.

#[export] Instance scratch_view : ContractStateView (ScratchState S) := {|
  sv_read self c k :=
    match storage_writes self !! (c, k) with
    | Some v => (self, v)
    | None => let '(s, r) := sv_read (inner self) c k in (set_inner self s, r)
    end;
  sv_write self c k v := set_storage_writes self (<[(c, k) := Some v]> (storage_writes self));
  sv_delete self c k := set_storage_writes self (<[(c, k) := None]> (storage_writes self));
  sv_exists self c k :=
    match storage_writes self !! (c, k) with
    | Some v => (self, bool_decide (is_Some v))
    | None => let '(s, r) := sv_exists (inner self) c k in (set_inner self s, r)
    end;
  sv_balance self a :=
    match balance_writes self !! a with
    | Some v => (self, v)
    | None => let '(s, r) := sv_balance (inner self) a in (set_inner self s, r)
    end;
  sv_set_balance self a v := set_balance_writes self (<[a := v]> (balance_writes self));
  sv_nonce self a :=
    match nonce_writes self !! a with
    | Some v => (self, v)
    | None => let '(s, r) := sv_nonce (inner self) a in (set_inner self s, r)
    end;
  sv_set_nonce self a v := set_nonce_writes self (<[a := v]> (nonce_writes self));
  sv_code self a :=
    match ptr_code self a with
    | Some code => (self, Some code)
    | None =>
        match code_writes self !! a with
        | Some code => (self, Some code)
        | None => let '(s, r) := sv_code (inner self) a in (set_inner self s, r)
        end
    end;
  sv_set_code self a code :=
    set_code_maps self (<[a := code]> (code_writes self)) (code_hash_writes self) (code_store_writes self);
  sv_has_code_hash self h := bool_decide (is_Some (code_store_writes self !! h)) || sv_has_code_hash (inner self) h;
|}.

(** The maps are iterated by key; the keys differ, so the order does not matter. *)
Definition flush_storage (s : S) (m : gmap (Address * bytes) (option bytes)) : S :=
  map_fold (λ '(c, k) v s, match v with Some v => sv_write s c k v | None => sv_delete s c k end) s m.
Definition flush_balances (s : S) (m : gmap Address Amount) : S := map_fold (λ a v s, sv_set_balance s a v) s m.
Definition flush_nonces (s : S) (sender : Address) (m : gmap Address N) : S :=
  map_fold (λ a v s, if decide (a = sender) then s else sv_set_nonce s a v) s m.
Definition flush_code (s : S) (m : gmap Address bytes) : S := map_fold (λ a v s, sv_set_code s a v) s m.
Definition flush_code_ptrs (s : S) (ptrs : gmap Address Hash) (store : gmap Hash bytes) : S :=
  map_fold (λ a h s, match store !! h with Some code => sv_set_code s a code | None => s end) s ptrs.

Definition commit_with_nonce (self : ScratchState S) (sender : Address) : S :=
  let s := flush_storage (inner self) (storage_writes self) in
  let s := flush_balances s (balance_writes self) in
  let s := flush_nonces s sender (nonce_writes self) in
  let s := flush_code s (code_writes self) in
  let s := flush_code_ptrs s (code_hash_writes self) (code_store_writes self) in
  let '(s, current) := sv_nonce s sender in
  sv_set_nonce s sender (saturating_add u64_max current 1).

Definition discard (self : ScratchState S) : S := inner self.
End scratch.

(** ** [ScratchSnapshot] *)

Record ScratchSnapshot (S : Type) := {
  sn_storage : gmap (Address * bytes) bytes;
  sn_storage_deletes : gset (Address * bytes);
  sn_balances : gmap Address Amount;
  sn_nonces : gmap Address N;
  sn_code : gmap Address bytes;
  sn_code_hashes : gmap Address Hash;
  sn_code_store : gmap Hash bytes;
  canonical : S;
}.
Arguments sn_storage {S} _.
Arguments sn_storage_deletes {S} _.
Arguments sn_balances {S} _.
Arguments sn_nonces {S} _.
Arguments sn_code {S} _.
Arguments sn_code_hashes {S} _.
Arguments sn_code_store {S} _.
Arguments canonical {S} _.

Section snapshot.
Context {S : Type} `{!ContractStateView S}.

Definition snapshot (self : ScratchState S) : ScratchSnapshot S := {|
  sn_storage := omap id (storage_writes self);
  sn_storage_deletes := dom (filter (λ kv, kv.2 = None) (storage_writes self));
  sn_balances := balance_writes self; sn_nonces := nonce_writes self; sn_code := code_writes self;
  sn_code_hashes := code_hash_writes self; sn_code_store := code_store_writes self;
  canonical := inner self;
|}.

(** Insertions into the maps, the last one of a key winning. *)
Definition merge_snapshot (self : ScratchState S) (snap : ScratchSnapshot S) : ScratchState S := {|
  inner := inner self;
  storage_writes := gset_to_gmap None (sn_storage_deletes snap) ∪ ((Some <$> sn_storage snap) ∪ storage_writes self);
  balance_writes := sn_balances snap ∪ balance_writes self;
  nonce_writes := sn_nonces snap ∪ nonce_writes self;
  code_writes := sn_code snap ∪ code_writes self;
  code_hash_writes := sn_code_hashes snap ∪ code_hash_writes self;
  code_store_writes := sn_code_store snap ∪ code_store_writes self;
|}.

Definition sn_set_storage (self : ScratchSnapshot S) (m : gmap (Address * bytes) bytes) (d : gset (Address * bytes))
    : ScratchSnapshot S :=
  {| sn_storage := m; sn_storage_deletes := d; sn_balances := sn_balances self; sn_nonces := sn_nonces self;
     sn_code := sn_code self; sn_code_hashes := sn_code_hashes self; sn_code_store := sn_code_store self;
     canonical := canonical self |}.
Definition sn_set_canonical (self : ScratchSnapshot S) (s : S) : ScratchSnapshot S :=
  {| sn_storage := sn_storage self; sn_storage_deletes := sn_storage_deletes self; sn_balances := sn_balances self;
     sn_nonces := sn_nonces self; sn_code := sn_code self; sn_code_hashes := sn_code_hashes self;
     sn_code_store := sn_code_store self; canonical := s |}.
Definition sn_set_accounts (self : ScratchSnapshot S) (b : gmap Address Amount) (n : gmap Address N) (c : gmap Address bytes)
    : ScratchSnapshot S :=
  {| sn_storage := sn_storage self; sn_storage_deletes := sn_storage_deletes self; sn_balances := b; sn_nonces := n;
     sn_code := c; sn_code_hashes := sn_code_hashes self; sn_code_store := sn_code_store self; canonical := canonical self |}.

#[export] Instance snapshot_view : ContractStateView (ScratchSnapshot S) := {|
  sv_read self c k :=
    match sn_storage self !! (c, k) with
    | Some v => (self, Some v)
    | None => if bool_decide ((c, k) ∈ sn_storage_deletes self) then (self, None) else
        let '(s, r) := sv_read (canonical self) c k in (sn_set_canonical self s, r)
    end;
  sv_write self c k v :=
    sn_set_storage self (<[(c, k) := v]> (sn_storage self)) (sn_storage_deletes self ∖ {[(c, k)]});
  sv_delete self c k :=
    sn_set_storage self (delete (c, k) (sn_storage self)) ({[(c, k)]} ∪ sn_storage_deletes self);
  sv_exists self c k :=
    match sn_storage self !! (c, k) with
    | Some v => (self, true)
    | None => if bool_decide ((c, k) ∈ sn_storage_deletes self) then (self, false) else
        let '(s, r) := sv_exists (canonical self) c k in (sn_set_canonical self s, r)
    end;
  sv_balance self a :=
    match sn_balances self !! a with
    | Some v => (self, v)
    | None => let '(s, r) := sv_balance (canonical self) a in (sn_set_canonical self s, r)
    end;
  sv_set_balance self a v := sn_set_accounts self (<[a := v]> (sn_balances self)) (sn_nonces self) (sn_code self);
  sv_nonce self a := (self, default 0 (sn_nonces self !! a));
  sv_set_nonce self a v := sn_set_accounts self (sn_balances self) (<[a := v]> (sn_nonces self)) (sn_code self);
  sv_code self a :=
    match (hash ← sn_code_hashes self !! a; sn_code_store self !! hash) with
    | Some code => (self, Some code)
    | None =>
        match sn_code self !! a with
        | Some code => (self, Some code)
        | None => let '(s, r) := sv_code (canonical self) a in (sn_set_canonical self s, r)
        end
    end;
  sv_set_code self a code := sn_set_accounts self (sn_balances self) (sn_nonces self) (<[a := code]> (sn_code self));
  sv_has_code_hash self h := bool_decide (is_Some (sn_code_store self !! h));
|}.

(** [merge_into]: the writes of a callee applied to the caller's state. *)
Definition merge_into {T} `{!ContractStateView T} (self : ScratchSnapshot S) (target : T) : T :=
  let t := map_fold (λ '(c, k) v t, sv_write t c k v) target (sn_storage self) in
  let t := set_fold (λ '(c, k) t, sv_delete t c k) t (sn_storage_deletes self) in
  let t := flush_balances t (sn_balances self) in
  let t := map_fold (λ a v t, sv_set_nonce t a v) t (sn_nonces self) in
  let t := flush_code t (sn_code self) in
  flush_code_ptrs t (sn_code_hashes self) (sn_code_store self).
End snapshot.

(** ** The views keep the contract *)

(** An update of a map seen through its contents. *)
Ltac update_tac :=
  split_and!; try done; intros; cbn; case_decide as E;
  [destruct_and?; subst; by rewrite ?lookup_insert_eq, ?lookup_delete_eq
  |by rewrite ?lookup_insert_ne, ?lookup_delete_ne by naive_solver].

#[export] Program Instance im_laws blake3 : @ViewLaws InMemoryStateView (im_view blake3) := {|
  contents s := {| c_storage := λ c k, im_storage s !! (c, k); c_balance := λ a, default 0 (im_balances s !! a);
                   c_nonce := λ a, default 0 (im_nonces s !! a); c_code := λ a, im_code s !! a |} |}.
Solve Obligations with try done.
Next Obligation.
  intros blake3 s c k v. update_tac.
Qed.
Next Obligation.
  intros blake3 s c k. update_tac.
Qed.
Next Obligation.
  intros blake3 s a v. update_tac.
Qed.
Next Obligation.
  intros blake3 s a v. update_tac.
Qed.

#[export] Instance im_code_laws blake3 : @CodeLaws InMemoryStateView (im_view blake3) (im_laws blake3).
Proof.
  intros s a code. update_tac.
Qed.

Section scratch_laws.
Context {S : Type} `{!ContractStateView S, !ViewLaws S}.

Definition scratch_contents (s : ScratchState S) : Contents := {|
  c_storage := λ c k, default (c_storage (contents (inner s)) c k) (storage_writes s !! (c, k));
  c_balance := λ a, default (c_balance (contents (inner s)) a) (balance_writes s !! a);
  c_nonce := λ a, default (c_nonce (contents (inner s)) a) (nonce_writes s !! a);
  c_code := λ a, default (default (c_code (contents (inner s)) a) (Some <$> code_writes s !! a)) (Some <$> ptr_code s a);
|}.

Lemma scratch_inner_keep s s' : contents s' ≡ contents (inner s) → scratch_contents (set_inner s s') ≡ scratch_contents s.
Proof.
  intros (H1 & H2 & H3 & H4). split_and!; intros; cbn; rewrite ?H1, ?H2, ?H3, ?H4; try done.
Qed.

#[export] Program Instance scratch_laws : ViewLaws (ScratchState S) := {| contents := scratch_contents |}.
Next Obligation.
  intros s c k. cbn. destruct (storage_writes s !! (c, k)); [done|]. cbn. rewrite <-read_law. by destruct (sv_read _ _ _).
Qed.
Next Obligation.
  intros s c k. cbn. destruct (storage_writes s !! (c, k)); [done|]. cbn.
  pose proof (read_keep (inner s) c k) as Hk. destruct (sv_read _ _ _). by apply scratch_inner_keep.
Qed.
Next Obligation.
  intros s c k. cbn. destruct (storage_writes s !! (c, k)); [done|]. cbn. rewrite <-exists_law. by destruct (sv_exists _ _ _).
Qed.
Next Obligation.
  intros s c k. cbn. destruct (storage_writes s !! (c, k)); [done|]. cbn.
  pose proof (exists_keep (inner s) c k) as Hk. destruct (sv_exists _ _ _). by apply scratch_inner_keep.
Qed.
Next Obligation.
  intros s a. cbn. destruct (balance_writes s !! a); [done|]. cbn. rewrite <-balance_law. by destruct (sv_balance _ _).
Qed.
Next Obligation.
  intros s a. cbn. destruct (balance_writes s !! a); [done|]. cbn.
  pose proof (balance_keep (inner s) a) as Hk. destruct (sv_balance _ _). by apply scratch_inner_keep.
Qed.
Next Obligation.
  intros s a. cbn. destruct (nonce_writes s !! a); [done|]. cbn. rewrite <-nonce_law. by destruct (sv_nonce _ _).
Qed.
Next Obligation.
  intros s a. cbn. destruct (nonce_writes s !! a); [done|]. cbn.
  pose proof (nonce_keep (inner s) a) as Hk. destruct (sv_nonce _ _). by apply scratch_inner_keep.
Qed.
Next Obligation.
  intros s a. cbn. destruct (ptr_code s a); [done|]. destruct (code_writes s !! a); [done|]. cbn.
  rewrite <-code_law. by destruct (sv_code _ _).
Qed.
Next Obligation.
  intros s a. cbn. destruct (ptr_code s a); [done|]. destruct (code_writes s !! a); [done|]. cbn.
  pose proof (code_keep (inner s) a) as Hk. destruct (sv_code _ _). by apply scratch_inner_keep.
Qed.
Next Obligation.
  intros s c k v. update_tac.
Qed.
Next Obligation.
  intros s c k. update_tac.
Qed.
Next Obligation.
  intros s a v. update_tac.
Qed.
Next Obligation.
  intros s a v. update_tac.
Qed.
End scratch_laws.

(** The view of the parallel executor, over a base state that keeps the contract. *)
Section mv_laws.
Context {S : Type} `{!ContractStateView S, !ViewLaws S}.
Context (mv : gmap StateKey (gmap N Entry)) (idx : N) (base : S).

Definition mv_lookup (s : MvStateView) (k : StateKey) : option StateValue :=
  match writes s !! k with
  | Some v => Some v
  | None => match mv_read mv k idx with MvValue _ v => Some v | _ => None end
  end.

Lemma resolve_lookup s k : (resolve mv idx s k).2 = mv_lookup s k ∧ writes (resolve mv idx s k).1 = writes s.
Proof. unfold resolve, mv_lookup. destruct (writes s !! k); [done|]. by destruct (mv_read mv k idx). Qed.

Definition mv_contents (s : MvStateView) : Contents := {|
  c_storage := λ c k, match mv_lookup s (KStorage c k) with
    | Some (VStorage v) => v | Some _ => None | None => c_storage (contents base) c k end;
  c_balance := λ a, match mv_lookup s (KBalance a) with
    | Some (VBalance v) => v | Some _ => 0 | None => c_balance (contents base) a end;
  c_nonce := λ a, match mv_lookup s (KNonce a) with
    | Some (VNonce v) => v | Some _ => 0 | None => c_nonce (contents base) a end;
  c_code := λ a, match mv_lookup s (KCode a) with
    | Some (VCode v) => v | Some _ => None | None => c_code (contents base) a end;
|}.

Lemma mv_contents_writes s s' : writes s' = writes s → mv_contents s' ≡ mv_contents s.
Proof. intros E. unfold mv_contents, mv_lookup. rewrite E. done. Qed.

Lemma mv_lookup_buffer s k v k' : mv_lookup (buffer s k v) k' = if decide (k' = k) then Some v else mv_lookup s k'.
Proof.
  unfold mv_lookup. cbn. case_decide; [subst; by rewrite lookup_insert_eq|by rewrite lookup_insert_ne by done].
Qed.

(** A read of the view and its effect. *)
Ltac mv_read_tac s k :=
  destruct (resolve_lookup s k) as [El Ew]; cbn; destruct (resolve mv idx s k) as [s' r] eqn:Er; cbn in *.

Ltac mv_write_tac := split_and!; intros; cbn; rewrite !mv_lookup_buffer; repeat case_decide; naive_solver.

#[export] Program Instance mv_laws : @ViewLaws MvStateView (mv_view mv idx base) := {| contents := mv_contents |}.
Next Obligation. intros s c k. mv_read_tac s (KStorage c k). rewrite <-El. destruct r as [[]|]; try done. apply read_law. Qed.
Next Obligation. intros s c k. mv_read_tac s (KStorage c k). by apply mv_contents_writes. Qed.
Next Obligation. intros s c k. mv_read_tac s (KStorage c k). rewrite <-El. destruct r as [[]|]; try done. apply exists_law. Qed.
Next Obligation. intros s c k. mv_read_tac s (KStorage c k). by apply mv_contents_writes. Qed.
Next Obligation. intros s a. mv_read_tac s (KBalance a). rewrite <-El. destruct r as [[]|]; try done. apply balance_law. Qed.
Next Obligation. intros s a. mv_read_tac s (KBalance a). by apply mv_contents_writes. Qed.
Next Obligation. intros s a. mv_read_tac s (KNonce a). rewrite <-El. destruct r as [[]|]; try done. apply nonce_law. Qed.
Next Obligation. intros s a. mv_read_tac s (KNonce a). by apply mv_contents_writes. Qed.
Next Obligation. intros s a. mv_read_tac s (KCode a). rewrite <-El. destruct r as [[]|]; try done. apply code_law. Qed.
Next Obligation. intros s a. mv_read_tac s (KCode a). by apply mv_contents_writes. Qed.
Next Obligation. intros s c k v. mv_write_tac. Qed.
Next Obligation. intros s c k. mv_write_tac. Qed.
Next Obligation. intros s a v. mv_write_tac. Qed.
Next Obligation. intros s a v. mv_write_tac. Qed.

#[export] Instance mv_code_laws : @CodeLaws MvStateView (mv_view mv idx base) mv_laws.
Proof. intros s a code. mv_write_tac. Qed.
End mv_laws.

(** ** Committing the overlay *)

Section commit.
Context {S : Type} `{!ContractStateView S, !ViewLaws S, !CodeLaws S}.

Lemma flush_storage_contents (s : S) m :
  contents (flush_storage s m) ≡
    {| c_storage := λ c k, default (c_storage (contents s) c k) (m !! (c, k)); c_balance := c_balance (contents s);
       c_nonce := c_nonce (contents s); c_code := c_code (contents s) |}.
Proof.
  unfold flush_storage. apply (map_fold_weak_ind (λ r m, contents r ≡
    {| c_storage := λ c k, default (c_storage (contents s) c k) (m !! (c, k)); c_balance := c_balance (contents s);
       c_nonce := c_nonce (contents s); c_code := c_code (contents s) |})); [done|].
  intros [c k] v m' r _ IH. destruct v as [v|]; [rewrite write_law|rewrite delete_law]; rewrite IH;
    (split_and!; try done; intros c' k'; cbn; case_decide as E;
     [destruct E as [-> ->]; by rewrite lookup_insert_eq|by rewrite lookup_insert_ne by naive_solver]).
Qed.

Lemma flush_balances_contents (s : S) m :
  contents (flush_balances s m) ≡
    {| c_storage := c_storage (contents s); c_balance := λ a, default (c_balance (contents s) a) (m !! a);
       c_nonce := c_nonce (contents s); c_code := c_code (contents s) |}.
Proof.
  unfold flush_balances. apply (map_fold_weak_ind (λ r m, contents r ≡
    {| c_storage := c_storage (contents s); c_balance := λ a, default (c_balance (contents s) a) (m !! a);
       c_nonce := c_nonce (contents s); c_code := c_code (contents s) |})); [done|].
  intros a v m' r _ IH. rewrite set_balance_law, IH. update_tac.
Qed.

Lemma flush_nonces_contents (s : S) sender m :
  contents (flush_nonces s sender m) ≡
    {| c_storage := c_storage (contents s); c_balance := c_balance (contents s);
       c_nonce := λ a, if decide (a = sender) then c_nonce (contents s) a else default (c_nonce (contents s) a) (m !! a);
       c_code := c_code (contents s) |}.
Proof.
  unfold flush_nonces. apply (map_fold_weak_ind (λ r m, contents r ≡
    {| c_storage := c_storage (contents s); c_balance := c_balance (contents s);
       c_nonce := λ a, if decide (a = sender) then c_nonce (contents s) a else default (c_nonce (contents s) a) (m !! a);
       c_code := c_code (contents s) |})).
  - split_and!; try done. intros x. cbn. by case_decide.
  - intros a v m' r _ IH. case_decide as E; [|rewrite set_nonce_law]; rewrite IH; split_and!; try done; intros x; cbn;
      repeat case_decide; try done; subst; by rewrite ?lookup_insert_eq, ?lookup_insert_ne by naive_solver.
Qed.

Lemma flush_code_contents (s : S) m :
  contents (flush_code s m) ≡
    {| c_storage := c_storage (contents s); c_balance := c_balance (contents s); c_nonce := c_nonce (contents s);
       c_code := λ a, default (c_code (contents s) a) (Some <$> m !! a) |}.
Proof.
  unfold flush_code. apply (map_fold_weak_ind (λ r m, contents r ≡
    {| c_storage := c_storage (contents s); c_balance := c_balance (contents s); c_nonce := c_nonce (contents s);
       c_code := λ a, default (c_code (contents s) a) (Some <$> m !! a) |})); [done|].
  intros a v m' r _ IH. rewrite set_code_law, IH. update_tac.
Qed.

Lemma flush_code_ptrs_contents (s : S) ptrs store :
  contents (flush_code_ptrs s ptrs store) ≡
    {| c_storage := c_storage (contents s); c_balance := c_balance (contents s); c_nonce := c_nonce (contents s);
       c_code := λ a, default (c_code (contents s) a) (Some <$> (h ← ptrs !! a; store !! h)) |}.
Proof.
  unfold flush_code_ptrs. apply (map_fold_weak_ind (λ r ptrs, contents r ≡
    {| c_storage := c_storage (contents s); c_balance := c_balance (contents s); c_nonce := c_nonce (contents s);
       c_code := λ a, default (c_code (contents s) a) (Some <$> (h ← ptrs !! a; store !! h)) |})); [done|].
  intros a h m' r Hn IH. destruct (store !! h) as [code|] eqn:Hs; [rewrite set_code_law|]; rewrite IH.
  - split_and!; try done. intros x. cbn. case_decide; subst; [by rewrite lookup_insert_eq; cbn; rewrite Hs|].
    by rewrite lookup_insert_ne.
  - split_and!; try done. intros x. cbn. destruct (decide (x = a)) as [->|].
    + by rewrite Hn, lookup_insert_eq; cbn; rewrite Hs.
    + by rewrite lookup_insert_ne.
Qed.

(** Committing an overlay makes the state hold exactly what the overlay
    shows: every storage slot, balance and code, and every nonce except the
    sender's, which becomes one more (saturating at the 64-bit limit) than
    before the transaction, whatever the overlay wrote there. *)
Theorem commit_refines (s : ScratchState S) sender :
  contents (commit_with_nonce s sender) ≡
    with_nonce (contents s) sender (saturating_add u64_max (c_nonce (contents (inner s)) sender) 1).
Proof.
  unfold commit_with_nonce.
  set (s1 := flush_storage _ _). set (s2 := flush_balances _ _). set (s3 := flush_nonces _ _ _).
  set (s4 := flush_code _ _). set (s5 := flush_code_ptrs _ _ _).
  assert (contents s5 ≡ {| c_storage := c_storage (contents s); c_balance := c_balance (contents s);
    c_nonce := λ a, if decide (a = sender) then c_nonce (contents (inner s)) a else c_nonce (contents s) a;
    c_code := c_code (contents s) |}) as H5.
  { unfold s5. rewrite flush_code_ptrs_contents.
    destruct (flush_code_contents s3 (code_writes s)) as (A1 & A2 & A3 & A4).
    destruct (flush_nonces_contents s2 sender (nonce_writes s)) as (B1 & B2 & B3 & B4).
    destruct (flush_balances_contents s1 (balance_writes s)) as (C1 & C2 & C3 & C4).
    destruct (flush_storage_contents (inner s) (storage_writes s)) as (D1 & D2 & D3 & D4).
    fold s4 in A1, A2, A3, A4. fold s3 in B1, B2, B3, B4. fold s2 in C1, C2, C3, C4. fold s1 in D1, D2, D3, D4. cbn in *.
    split_and!; intros; cbn.
    - by rewrite A1, B1, C1, D1.
    - by rewrite A2, B2, C2, D2.
    - rewrite A3, B3, C3, D3. by case_decide.
    - by rewrite A4, B4, C4, D4. }
  destruct (sv_nonce s5 sender) as [s6 n] eqn:Hn. rewrite set_nonce_law.
  pose proof (nonce_keep s5 sender) as Hk. pose proof (nonce_law s5 sender) as Hv. rewrite Hn in Hk, Hv. cbn in Hk, Hv.
  destruct H5 as (E1 & E2 & E3 & E4). destruct Hk as (F1 & F2 & F3 & F4). cbn in *.
  rewrite E3, decide_True in Hv by done. subst n.
  split_and!; intros; cbn; rewrite ?F1, ?F2, ?F3, ?F4, ?E1, ?E2, ?E3, ?E4; try done. by case_decide.
Qed.
End commit.

(** ** Running on a snapshot *)

(** The accesses contract code makes to its state. *)
Inductive Guest (A : Type) :=
  | GRet (a : A)
  | GRead (c : Address) (k : bytes) (cont : option bytes → Guest A)
  | GExists (c : Address) (k : bytes) (cont : bool → Guest A)
  | GWrite (c : Address) (k v : bytes) (g : Guest A)
  | GDelete (c : Address) (k : bytes) (g : Guest A)
  | GBalance (a : Address) (cont : Amount → Guest A)
  | GSetBalance (a : Address) (v : Amount) (g : Guest A)
  | GCode (a : Address) (cont : option bytes → Guest A).
Arguments GRet {A} _.
Arguments GRead {A} _ _ _.
Arguments GExists {A} _ _ _.
Arguments GWrite {A} _ _ _ _.
Arguments GDelete {A} _ _ _.
Arguments GBalance {A} _ _.
Arguments GSetBalance {A} _ _ _.
Arguments GCode {A} _ _.

Fixpoint run_guest {T A} `{!ContractStateView T} (g : Guest A) (t : T) : T * A :=
  match g with
  | GRet a => (t, a)
  | GRead c k cont => let '(t, r) := sv_read t c k in run_guest (cont r) t
  | GExists c k cont => let '(t, r) := sv_exists t c k in run_guest (cont r) t
  | GWrite c k v g => run_guest g (sv_write t c k v)
  | GDelete c k g => run_guest g (sv_delete t c k)
  | GBalance a cont => let '(t, r) := sv_balance t a in run_guest (cont r) t
  | GSetBalance a v g => run_guest g (sv_set_balance t a v)
  | GCode a cont => let '(t, r) := sv_code t a in run_guest (cont r) t
  end.

Section simulation.
Context {S : Type} `{!ContractStateView S, !ViewLaws S}.

(** A snapshot that runs in step with an overlay. *)
Record in_step (p : ScratchSnapshot S) (s : ScratchState S) : Prop := {
  is_storage : ∀ key v, sn_storage p !! key = Some v ↔ storage_writes s !! key = Some (Some v);
  is_deletes : ∀ key, key ∈ sn_storage_deletes p ↔ storage_writes s !! key = Some None;
  is_balances : sn_balances p = balance_writes s;
  is_nonces : sn_nonces p = nonce_writes s;
  is_code : sn_code p = code_writes s;
  is_hashes : sn_code_hashes p = code_hash_writes s;
  is_store : sn_code_store p = code_store_writes s;
  is_canonical : contents (canonical p) ≡ contents (inner s);
}.

Lemma snapshot_in_step s : in_step (snapshot s) s.
Proof.
  split; try done; cbn.
  - intros key v. rewrite lookup_omap. destruct (storage_writes s !! key) as [[]|]; cbn; naive_solver.
  - intros key. rewrite elem_of_dom. split.
    + intros [v Hv]. apply map_lookup_filter_Some in Hv as [Hv E]. cbn in E. by rewrite Hv, E.
    + intros Hv. exists None. by apply map_lookup_filter_Some.
Qed.

(** Where the snapshot finds a slot. *)
Lemma in_step_slot p s key : in_step p s →
  match storage_writes s !! key with
  | Some (Some v) => sn_storage p !! key = Some v
  | Some None => sn_storage p !! key = None ∧ key ∈ sn_storage_deletes p
  | None => sn_storage p !! key = None ∧ key ∉ sn_storage_deletes p
  end.
Proof.
  intros Hs. pose proof (is_storage _ _ Hs key) as H1. pose proof (is_deletes _ _ Hs key) as H2.
  destruct (storage_writes s !! key) as [[v|]|] eqn:E; [by apply H1|..];
    (split; [|naive_solver]; destruct (sn_storage p !! key) as [v'|] eqn:E'; [|done]; naive_solver).
Qed.

(** The fall-through to the state, on either side. *)
Lemma in_step_inner p s c' s' :
  in_step p s → contents c' ≡ contents (canonical p) → contents s' ≡ contents (inner s) →
  in_step (sn_set_canonical p c') (set_inner s s').
Proof. intros [] H1 H2. split; try done. cbn. by rewrite H1, H2. Qed.

Lemma in_step_read p s c k : in_step p s →
  (sv_read p c k).2 = (sv_read s c k).2 ∧ in_step (sv_read p c k).1 (sv_read s c k).1.
Proof.
  intros Hs. pose proof (in_step_slot p s (c, k) Hs) as Hk. cbn.
  destruct (storage_writes s !! (c, k)) as [[v|]|]; [by rewrite Hk|..]; destruct Hk as [-> Hd].
  - by rewrite bool_decide_eq_true_2.
  - rewrite bool_decide_eq_false_2 by done. pose proof (read_law (canonical p) c k) as L1. pose proof (read_law (inner s) c k) as L2.
    pose proof (read_keep (canonical p) c k) as K1. pose proof (read_keep (inner s) c k) as K2.
    destruct (is_canonical _ _ Hs) as (C & _). rewrite C, <-L2 in L1.
    destruct (sv_read (canonical p) c k), (sv_read (inner s) c k). split; [done|by apply in_step_inner].
Qed.

Lemma in_step_exists p s c k : in_step p s →
  (sv_exists p c k).2 = (sv_exists s c k).2 ∧ in_step (sv_exists p c k).1 (sv_exists s c k).1.
Proof.
  intros Hs. pose proof (in_step_slot p s (c, k) Hs) as Hk. cbn.
  destruct (storage_writes s !! (c, k)) as [[v|]|]; [by rewrite Hk|..]; destruct Hk as [-> Hd].
  - by rewrite bool_decide_eq_true_2.
  - rewrite bool_decide_eq_false_2 by done. pose proof (exists_law (canonical p) c k) as L1. pose proof (exists_law (inner s) c k) as L2.
    pose proof (exists_keep (canonical p) c k) as K1. pose proof (exists_keep (inner s) c k) as K2.
    destruct (is_canonical _ _ Hs) as (C & _). rewrite C, <-L2 in L1.
    destruct (sv_exists (canonical p) c k), (sv_exists (inner s) c k). split; [done|by apply in_step_inner].
Qed.

Lemma in_step_balance p s a : in_step p s →
  (sv_balance p a).2 = (sv_balance s a).2 ∧ in_step (sv_balance p a).1 (sv_balance s a).1.
Proof.
  intros Hs. cbn. rewrite (is_balances _ _ Hs). destruct (balance_writes s !! a); [done|].
  pose proof (balance_law (canonical p) a) as L1. pose proof (balance_law (inner s) a) as L2.
  pose proof (balance_keep (canonical p) a) as K1. pose proof (balance_keep (inner s) a) as K2.
  destruct (is_canonical _ _ Hs) as (_ & C & _). rewrite C, <-L2 in L1.
  destruct (sv_balance (canonical p) a), (sv_balance (inner s) a). split; [done|by apply in_step_inner].
Qed.

Lemma in_step_code p s a : in_step p s →
  (sv_code p a).2 = (sv_code s a).2 ∧ in_step (sv_code p a).1 (sv_code s a).1.
Proof.
  intros Hs. cbn. unfold ptr_code. rewrite (is_hashes _ _ Hs), (is_store _ _ Hs), (is_code _ _ Hs).
  destruct (hash ← _; _); [done|]. destruct (code_writes s !! a); [done|].
  pose proof (code_law (canonical p) a) as L1. pose proof (code_law (inner s) a) as L2.
  pose proof (code_keep (canonical p) a) as K1. pose proof (code_keep (inner s) a) as K2.
  destruct (is_canonical _ _ Hs) as (_ & _ & _ & C). rewrite C, <-L2 in L1.
  destruct (sv_code (canonical p) a), (sv_code (inner s) a). split; [done|by apply in_step_inner].
Qed.

Lemma in_step_write p s c k v : in_step p s → in_step (sv_write p c k v) (sv_write s c k v).
Proof.
  intros Hs. destruct Hs as [H1 H2 ? ? ? ? ? ?]. split; try done; cbn; intros key.
  - intros v'. destruct (decide (key = (c, k))) as [->|]; [rewrite !lookup_insert_eq; naive_solver|rewrite !lookup_insert_ne by done; apply H1].
  - rewrite elem_of_difference, elem_of_singleton. destruct (decide (key = (c, k))) as [->|].
    + rewrite lookup_insert_eq. naive_solver.
    + rewrite lookup_insert_ne by done. rewrite H2. naive_solver.
Qed.

Lemma in_step_delete p s c k : in_step p s → in_step (sv_delete p c k) (sv_delete s c k).
Proof.
  intros Hs. destruct Hs as [H1 H2 ? ? ? ? ? ?]. split; try done; cbn; intros key.
  - intros v'. destruct (decide (key = (c, k))) as [->|].
    + rewrite lookup_insert_eq, lookup_delete_eq. naive_solver.
    + rewrite lookup_insert_ne, lookup_delete_ne by done. apply H1.
  - rewrite elem_of_union, elem_of_singleton. destruct (decide (key = (c, k))) as [->|].
    + rewrite lookup_insert_eq. naive_solver.
    + rewrite lookup_insert_ne by done. rewrite H2. naive_solver.
Qed.

Lemma in_step_set_balance p s a v : in_step p s → in_step (sv_set_balance p a v) (sv_set_balance s a v).
Proof. intros []. split; try done. cbn. congruence. Qed.

(** The overlay keeps every key it has. *)
Definition grows (s s' : ScratchState S) : Prop :=
  dom (storage_writes s) ⊆ dom (storage_writes s') ∧ dom (balance_writes s) ⊆ dom (balance_writes s') ∧
  nonce_writes s' = nonce_writes s ∧ code_writes s' = code_writes s ∧
  code_hash_writes s' = code_hash_writes s ∧ code_store_writes s' = code_store_writes s.

Lemma grows_refl s : grows s s.
Proof. by split_and!. Qed.
Lemma grows_trans s1 s2 s3 : grows s1 s2 → grows s2 s3 → grows s1 s3.
Proof. intros (? & ? & ? & ? & ? & ?) (? & ? & ? & ? & ? & ?). split_and!; [set_solver|set_solver|congruence..]. Qed.

Lemma grows_read s c k : grows s (sv_read s c k).1.
Proof. cbn. destruct (storage_writes s !! _); [apply grows_refl|]. by destruct (sv_read _ _ _). Qed.
Lemma grows_exists s c k : grows s (sv_exists s c k).1.
Proof. cbn. destruct (storage_writes s !! _); [apply grows_refl|]. by destruct (sv_exists _ _ _). Qed.
Lemma grows_balance s a : grows s (sv_balance s a).1.
Proof. cbn. destruct (balance_writes s !! _); [apply grows_refl|]. by destruct (sv_balance _ _). Qed.
Lemma grows_code s a : grows s (sv_code s a).1.
Proof. cbn. destruct (ptr_code s a); [apply grows_refl|]. destruct (code_writes s !! _); [apply grows_refl|]. by destruct (sv_code _ _). Qed.

Lemma run_guest_in_step {A} (g : Guest A) : ∀ p s, in_step p s →
  (run_guest g p).2 = (run_guest g s).2 ∧ in_step (run_guest g p).1 (run_guest g s).1 ∧ grows s (run_guest g s).1.
Proof.
  induction g as [a|c k cont IH|c k cont IH|c k v g IH|c k g IH|a cont IH|a v g IH|a cont IH]; intros p s Hs; cbn [run_guest].
  - split_and!; [done..|apply grows_refl].
  - destruct (in_step_read p s c k Hs) as [E H]. pose proof (grows_read s c k) as Hg.
    destruct (sv_read p c k) as [p' r], (sv_read s c k) as [s' r']. cbn in *. subst r'.
    destruct (IH r p' s' H) as (? & ? & ?). split_and!; eauto using grows_trans.
  - destruct (in_step_exists p s c k Hs) as [E H]. pose proof (grows_exists s c k) as Hg.
    destruct (sv_exists p c k) as [p' r], (sv_exists s c k) as [s' r']. cbn in *. subst r'.
    destruct (IH r p' s' H) as (? & ? & ?). split_and!; eauto using grows_trans.
  - destruct (IH _ _ (in_step_write p s c k v Hs)) as (? & ? & ?). split_and!; [done..|].
    eapply grows_trans; [|done]. split_and!; try done. cbn. set_solver.
  - destruct (IH _ _ (in_step_delete p s c k Hs)) as (? & ? & ?). split_and!; [done..|].
    eapply grows_trans; [|done]. split_and!; try done. cbn. set_solver.
  - destruct (in_step_balance p s a Hs) as [E H]. pose proof (grows_balance s a) as Hg.
    destruct (sv_balance p a) as [p' r], (sv_balance s a) as [s' r']. cbn in *. subst r'.
    destruct (IH r p' s' H) as (? & ? & ?). split_and!; eauto using grows_trans.
  - destruct (IH _ _ (in_step_set_balance p s a v Hs)) as (? & ? & ?). split_and!; [done..|].
    eapply grows_trans; [|done]. split_and!; try done. cbn. set_solver.
  - destruct (in_step_code p s a Hs) as [E H]. pose proof (grows_code s a) as Hg.
    destruct (sv_code p a) as [p' r], (sv_code s a) as [s' r']. cbn in *. subst r'.
    destruct (IH r p' s' H) as (? & ? & ?). split_and!; eauto using grows_trans.
Qed.

(** Merging a snapshot that runs in step with [s'] into the overlay it was taken from. *)
Lemma merge_in_step p s s' : in_step p s' → grows s s' → 
  merge_snapshot s p = set_inner s' (inner s).
Proof.
  intros Hs (G1 & G2 & G3 & G4 & G5 & G6). unfold merge_snapshot, set_inner. f_equal.
  - apply map_eq. intros key. pose proof (in_step_slot p s' key Hs) as Hk.
    rewrite !lookup_union, lookup_gset_to_gmap, lookup_fmap.
    destruct (storage_writes s' !! key) as [[v|]|] eqn:E.
    + rewrite option_guard_False; [rewrite Hk; by destruct (storage_writes s !! key)|]. rewrite (is_deletes _ _ Hs), E. done.
    + destruct Hk as [-> Hd]. rewrite option_guard_True by done. by destruct (storage_writes s !! key).
    + destruct Hk as [-> Hd]. rewrite option_guard_False by done. cbn.
      assert (key ∉ dom (storage_writes s)) as Hn by (intros Hin; apply G1, elem_of_dom in Hin; rewrite E in Hin; by destruct Hin).
      by apply not_elem_of_dom in Hn as ->.
  - rewrite (is_balances _ _ Hs). apply map_eq. intros a. rewrite lookup_union.
    destruct (balance_writes s' !! a) as [v|] eqn:E; [by destruct (balance_writes s !! a)|].
    assert (a ∉ dom (balance_writes s)) as Hn by (intros Hin; apply G2, elem_of_dom in Hin; rewrite E in Hin; by destruct Hin).
    by apply not_elem_of_dom in Hn as ->.
  - rewrite (is_nonces _ _ Hs), G3. apply map_union_idemp.
  - rewrite (is_code _ _ Hs), G4. apply map_union_idemp.
  - rewrite (is_hashes _ _ Hs), G5. apply map_union_idemp.
  - rewrite (is_store _ _ Hs), G6. apply map_union_idemp.
Qed.

Lemma run_guest_inner {A} (g : Guest A) : ∀ s : ScratchState S, contents (inner (run_guest g s).1) ≡ contents (inner s).
Proof.
  induction g as [a|c k cont IH|c k cont IH|c k v g IH|c k g IH|a cont IH|a v g IH|a cont IH]; intros s; cbn [run_guest]; try done.
  - cbn. destruct (storage_writes s !! _); [apply IH|]. pose proof (read_keep (inner s) c k).
    destruct (sv_read (inner s) c k). by rewrite IH.
  - cbn. destruct (storage_writes s !! _); [apply IH|]. pose proof (exists_keep (inner s) c k).
    destruct (sv_exists (inner s) c k). by rewrite IH.
  - by rewrite IH.
  - by rewrite IH.
  - cbn. destruct (balance_writes s !! _); [apply IH|]. pose proof (balance_keep (inner s) a).
    destruct (sv_balance (inner s) a). by rewrite IH.
  - by rewrite IH.
  - cbn. destruct (ptr_code s a); [apply IH|]. destruct (code_writes s !! _); [apply IH|]. pose proof (code_keep (inner s) a).
    destruct (sv_code (inner s) a). by rewrite IH.
Qed.

(** C29. Running contract code on a snapshot and merging the snapshot back is the
    same as running it on the overlay itself: it sees the same values at every
    read, and the overlay afterwards shows the same contents. *)
Theorem snapshot_run_refines {A} (g : Guest A) (s : ScratchState S) :
  let '(p', a) := run_guest g (snapshot s) in
  let '(s', a') := run_guest g s in
  a = a' ∧ contents (merge_snapshot s p') ≡ contents s'.
Proof.
  destruct (run_guest_in_step g _ _ (snapshot_in_step s)) as (Ha & Hi & Hg). pose proof (run_guest_inner g s) as Hn.
  destruct (run_guest g (snapshot s)) as [p' a], (run_guest g s) as [s' a']. cbn in *. split; [done|].
  rewrite (merge_in_step _ _ _ Hi Hg). symmetry in Hn. by apply scratch_inner_keep.
Qed.
End simulation.
