(* ===== verification/SafetyManifest.v ===== *)
(** * Runtime safety constraints ([lemma-vm/src/safety_manifest.rs])

    The constraints a contract declares and their check over the writes of a
    transaction.  The reads of the state before the transaction go through its
    view, which the functions thread. *)
From stdpp Require Import strings.
From S2P Require Import Prelude CoreTypes DagBlock Fee Transaction VmState VmGas Scratch.

Inductive SafetyConstraint :=
  | RatchetBool (key locked_value : bytes)
  | RatchetOff (key : bytes)
  | FeeCap (fee_keys : list bytes) (max_sum_bps : N)
  | RatchetUp (key : bytes).

#[export] Instance SafetyConstraint_eq_dec : EqDecision SafetyConstraint.
Proof. solve_decision. Defined.

Record SafetyManifest := { constraints : list SafetyConstraint }.
Definition SafetyManifest_default : SafetyManifest := {| constraints := [] |}.

(** Little-endian, missing high bytes are zero. *)
Fixpoint from_le_bytes (b : bytes) : N := match b with [] => 0 | x :: b => x + 256 * from_le_bytes b end.

Definition bytes_to_u64 (b : bytes) : result VmError N :=
  if (8 <? length b)%nat then Err HoneypotInvariantViolation else Ok (from_le_bytes b).
Definition bytes_to_u128 (b : bytes) : result VmError N :=
  if (16 <? length b)%nat then Err HoneypotInvariantViolation else Ok (from_le_bytes b).
Definition is_truthy (b : bytes) : bool := existsb (λ x, negb (x =? 0)) b.

Section checks.
Context {S : Type} `{!ContractStateView S}.

Notation Writes := (gmap (Address * bytes) (option bytes)) (only parsing).

Definition validate_ratchet_bool (contract_addr : Address) (key locked_value : bytes) (ws : Writes) (canonical : S)
    : S * result VmError () :=
  match ws !! (contract_addr, key) with
  | None => (canonical, Ok ())
  | Some None => (canonical, Ok ())
  | Some (Some new_value) =>
      if negb (bool_decide (new_value = locked_value)) then (canonical, Ok ()) else
      let '(canonical, old_value) := sv_read canonical contract_addr key in
      (canonical, match old_value with
                  | Some old => if bool_decide (old = locked_value) then Ok () else Err HoneypotInvariantViolation
                  | None => Ok ()
                  end)
  end.

Definition validate_ratchet_off (contract_addr : Address) (key : bytes) (ws : Writes) (canonical : S)
    : S * result VmError () :=
  match ws !! (contract_addr, key) with
  | None => (canonical, Ok ())
  | Some None => (canonical, Ok ())
  | Some (Some new_value) =>
      if negb (is_truthy new_value) then (canonical, Ok ()) else
      let '(canonical, old_value) := sv_read canonical contract_addr key in
      (canonical, match old_value with
                  | Some old => if negb (is_truthy old) then Err HoneypotInvariantViolation else Ok ()
                  | None => Ok ()
                  end)
  end.

(** The loop of [validate_fee_cap]. *)
Fixpoint fee_sum (contract_addr : Address) (fee_keys : list bytes) (ws : Writes) (canonical : S) (sum : N)
    : S * result VmError N :=
  match fee_keys with
  | [] => (canonical, Ok sum)
  | fk :: rest =>
      let '(canonical, value_bytes) :=
        match ws !! (contract_addr, fk) with
        | Some (Some v) => (canonical, v)
        | Some None => (canonical, [])
        | None => let '(canonical, r) := sv_read canonical contract_addr fk in (canonical, default [] r)
        end in
      match bytes_to_u64 value_bytes with
      | Ok v => fee_sum contract_addr rest ws canonical (saturating_add u64_max sum v)
      | Err e => (canonical, Err e)
      end
  end.

Definition validate_fee_cap (contract_addr : Address) (fee_keys : list bytes) (max_sum_bps : N) (ws : Writes) (canonical : S)
    : S * result VmError () :=
  let any_written := existsb (λ fk, bool_decide (is_Some (ws !! (contract_addr, fk)))) fee_keys in
  if negb any_written then (canonical, Ok ()) else
  let '(canonical, r) := fee_sum contract_addr fee_keys ws canonical 0 in
  (canonical, sum ← r; if max_sum_bps <? sum then Err HoneypotInvariantViolation else Ok ()).

Definition validate_ratchet_up (contract_addr : Address) (key : bytes) (ws : Writes) (canonical : S)
    : S * result VmError () :=
  match ws !! (contract_addr, key) with
  | None => (canonical, Ok ())
  | Some None =>
      let '(canonical, old_value) := sv_read canonical contract_addr key in
      (canonical, match old_value with
                  | Some old => old_num ← bytes_to_u128 old; if 0 <? old_num then Err HoneypotInvariantViolation else Ok ()
                  | None => Ok ()
                  end)
  | Some (Some new_value) =>
      let '(canonical, old_value) := sv_read canonical contract_addr key in
      (canonical, match old_value with
                  | Some old =>
                      old_num ← bytes_to_u128 old; new_num ← bytes_to_u128 new_value;
                      if new_num <? old_num then Err HoneypotInvariantViolation else Ok ()
                  | None => Ok ()
                  end)
  end.

Definition validate_constraint (contract_addr : Address) (ws : Writes) (canonical : S) (c : SafetyConstraint)
    : S * result VmError () :=
  match c with
  | RatchetBool key locked_value => validate_ratchet_bool contract_addr key locked_value ws canonical
  | RatchetOff key => validate_ratchet_off contract_addr key ws canonical
  | FeeCap fee_keys max_sum_bps => validate_fee_cap contract_addr fee_keys max_sum_bps ws canonical
  | RatchetUp key => validate_ratchet_up contract_addr key ws canonical
  end.

Fixpoint validate_constraints (cs : list SafetyConstraint) (contract_addr : Address) (ws : Writes) (canonical : S)
    : S * result VmError () :=
  match cs with
  | [] => (canonical, Ok ())
  | c :: cs =>
      let '(canonical, r) := validate_constraint contract_addr ws canonical c in
      match r with
      | Ok _ => validate_constraints cs contract_addr ws canonical
      | Err e => (canonical, Err e)
      end
  end.
Definition validate_safety_invariants (manifest : SafetyManifest) (contract_addr : Address) (ws : Writes) (canonical : S)
    : S * result VmError () :=
  validate_constraints (constraints manifest) contract_addr ws canonical.
End checks.

(** ** What a successful check means *)

(** The value of a slot after the writes of a transaction. *)
Definition after (old : option bytes) (w : option (option bytes)) : option bytes := default old w.

(** The meaning of a constraint: the old value of a slot to its new one. *)
Definition constraint_holds (c : SafetyConstraint) (old : bytes → option bytes) (w : bytes → option (option bytes)) : Prop :=
  match c with
  | RatchetBool key locked =>
      ∀ v, old key = Some v → after (old key) (w key) = Some locked → v = locked
  | RatchetOff key =>
      ∀ v v', old key = Some v → is_truthy v = false → after (old key) (w key) = Some v' → is_truthy v' = false
  | FeeCap keys cap =>
      (∃ k, k ∈ keys ∧ is_Some (w k)) →
      Forall (λ k, (length (default [] (after (old k) (w k))) <= 8)%nat) keys ∧
      N.min (sumN ((λ k, from_le_bytes (default [] (after (old k) (w k)))) <$> keys)) u64_max <= cap
  | RatchetUp key =>
      is_Some (w key) → ∀ v, old key = Some v →
      (length v <= 16)%nat ∧ (length (default [] (after (old key) (w key))) <= 16)%nat ∧
      from_le_bytes v <= from_le_bytes (default [] (after (old key) (w key)))
  end.

Lemma bytes_to_u128_cases b :
  (16 < length b)%nat ∧ bytes_to_u128 b = Err HoneypotInvariantViolation ∨
  (length b <= 16)%nat ∧ bytes_to_u128 b = Ok (from_le_bytes b).
Proof. unfold bytes_to_u128. destruct (Nat.ltb_spec 16 (length b)); auto. Qed.

Lemma bytes_to_u64_cases b :
  (8 < length b)%nat ∧ bytes_to_u64 b = Err HoneypotInvariantViolation ∨
  (length b <= 8)%nat ∧ bytes_to_u64 b = Ok (from_le_bytes b).
Proof. unfold bytes_to_u64. destruct (Nat.ltb_spec 8 (length b)); auto. Qed.

Section exact.
Context {S : Type} `{!ContractStateView S, !ViewLaws S}.
Context (c : Address) (ws : gmap (Address * bytes) (option bytes)).

Notation old s := (c_storage (contents s) c).
Notation w := (λ k, ws !! (c, k)).

(** A check that reads one slot: state kept, result determined by the slot. *)
Lemma read_then (s : S) k :
  ∃ s', sv_read s c k = (s', old s k) ∧ contents s' ≡ contents s.
Proof.
  pose proof (read_law s c k) as L. pose proof (read_keep s c k) as K. destruct (sv_read s c k) as [s' r]. cbn in *. subst. by exists s'.
Qed.

Lemma ratchet_bool_exact s key locked :
  contents (validate_ratchet_bool c key locked ws s).1 ≡ contents s ∧
  ((validate_ratchet_bool c key locked ws s).2 = Ok () ↔ constraint_holds (RatchetBool key locked) (old s) w).
Proof.
  unfold validate_ratchet_bool, constraint_holds, after. destruct (ws !! (c, key)) as [[v|]|]; cbn; try naive_solver.
  case_bool_decide as E; cbn; [|naive_solver]. subst. destruct (read_then s key) as (s' & -> & K). cbn. split; [done|].
  destruct (old s key) as [o|]; [|naive_solver]. case_bool_decide; naive_solver.
Qed.

Lemma ratchet_off_exact s key :
  contents (validate_ratchet_off c key ws s).1 ≡ contents s ∧
  ((validate_ratchet_off c key ws s).2 = Ok () ↔ constraint_holds (RatchetOff key) (old s) w).
Proof.
  unfold validate_ratchet_off, constraint_holds, after. destruct (ws !! (c, key)) as [[v|]|]; cbn; try naive_solver.
  destruct (is_truthy v) eqn:E; cbn; [|naive_solver]. destruct (read_then s key) as (s' & -> & K). cbn. split; [done|].
  destruct (old s key) as [o|]; [|naive_solver]. destruct (is_truthy o) eqn:Eo; cbn.
  - split; [|done]. intros _ v0 v' [= <-]. congruence.
  - split; [done|]. intros H. specialize (H o v eq_refl Eo eq_refl). congruence.
Qed.

Ltac ratchet_up_tac :=
  cbn; split;
  [try done; intros _ _ ? [= <-]; split_and!; cbn in *; lia
  |intros Hall; first [done | destruct (Hall (mk_is_Some _ _ eq_refl) _ eq_refl) as (? & ? & ?); cbn in *; lia]].

Lemma ratchet_up_exact s key :
  contents (validate_ratchet_up c key ws s).1 ≡ contents s ∧
  ((validate_ratchet_up c key ws s).2 = Ok () ↔ constraint_holds (RatchetUp key) (old s) w).
Proof.
  unfold validate_ratchet_up, constraint_holds, after. destruct (ws !! (c, key)) as [[v|]|]; cbn.
  - destruct (read_then s key) as (s' & -> & K). cbn. split; [done|]. destruct (old s key) as [o|]; [|naive_solver].
    destruct (bytes_to_u128_cases o) as [[? ->]|[? ->]]; [ratchet_up_tac|]. cbn.
    destruct (bytes_to_u128_cases v) as [[? ->]|[? ->]]; [ratchet_up_tac|]. cbn.
    destruct (N.ltb_spec (from_le_bytes v) (from_le_bytes o)); ratchet_up_tac.
  - destruct (read_then s key) as (s' & -> & K). cbn. split; [done|]. destruct (old s key) as [o|]; [|naive_solver].
    destruct (bytes_to_u128_cases o) as [[? ->]|[? ->]]; [ratchet_up_tac|]. cbn.
    destruct (N.ltb_spec 0 (from_le_bytes o)); ratchet_up_tac.
  - split; [done|]. split; [|done]. intros _ [? [=]].
Qed.

Definition fee_of (s : S) (k : bytes) : bytes := default [] (after (old s k) (ws !! (c, k))).

Lemma fee_sum_exact keys : ∀ (s : S) sum, sum <= u64_max →
  contents (fee_sum c keys ws s sum).1 ≡ contents s ∧
  (fee_sum c keys ws s sum).2 =
    if bool_decide (Forall (λ k, (length (fee_of s k) <= 8)%nat) keys)
    then Ok (N.min (sum + sumN ((λ k, from_le_bytes (fee_of s k)) <$> keys)) u64_max)
    else Err HoneypotInvariantViolation.
Proof.
  induction keys as [|k keys IH]; intros s sum Hsum; cbn [fee_sum].
  - split; [done|]. rewrite bool_decide_eq_true_2 by constructor. cbn. f_equal. lia.
  - assert (∃ s', match ws !! (c, k) with Some (Some v) => (s, v) | Some None => (s, [])
      | None => let '(s', r) := sv_read s c k in (s', default [] r) end = (s', fee_of s k) ∧ contents s' ≡ contents s) as (s' & -> & K).
    { unfold fee_of, after. destruct (ws !! (c, k)) as [[v|]|]; cbn; [by eexists..|].
      destruct (read_then s k) as (s' & -> & K). by exists s'. }
    assert (∀ k', fee_of s' k' = fee_of s k') as Hf by (intros k'; unfold fee_of; by rewrite (proj1 K)).
    destruct (bytes_to_u64_cases (fee_of s k)) as [[Hl ->]|[Hl ->]]; cbn [fst snd].
    + split; [done|]. rewrite bool_decide_eq_false_2; [done|]. intros [? _]%Forall_cons. lia.
    + destruct (IH s' (saturating_add u64_max sum (from_le_bytes (fee_of s k)))) as [IH1 IH2]; [unfold saturating_add; lia|].
      split; [by rewrite IH1|]. rewrite IH2.
      assert (Forall (λ k, (length (fee_of s' k) <= 8)%nat) keys ↔ Forall (λ k, (length (fee_of s k) <= 8)%nat) (k :: keys)) as Hall.
      { rewrite Forall_cons. setoid_rewrite Hf. naive_solver. }
      destruct (decide (Forall (λ k, (length (fee_of s k) <= 8)%nat) (k :: keys))) as [Hd|Hd].
      * rewrite !bool_decide_eq_true_2 by naive_solver. f_equal. cbn. unfold saturating_add.
        rewrite (list_fmap_ext (λ k', from_le_bytes (fee_of s' k')) (λ k', from_le_bytes (fee_of s k')) keys) by (intros; by rewrite Hf).
        lia.
      * by rewrite !bool_decide_eq_false_2 by naive_solver.
Qed.

Lemma fee_cap_exact s keys cap :
  contents (validate_fee_cap c keys cap ws s).1 ≡ contents s ∧
  ((validate_fee_cap c keys cap ws s).2 = Ok () ↔ constraint_holds (FeeCap keys cap) (old s) w).
Proof.
  unfold validate_fee_cap. cbn [constraint_holds].
  destruct (existsb _ keys) eqn:Ex; cbn [negb].
  - destruct (fee_sum_exact keys s 0) as [K R]; [lia|]. destruct (fee_sum c keys ws s 0) as [s' r]. cbn [fst snd] in K, R.
    rewrite N.add_0_l in R. split; [done|].
    assert (∃ k, k ∈ keys ∧ is_Some (ws !! (c, k))) as Hw.
    { apply existsb_exists in Ex as (k & Hk & Hb). exists k. split; [by apply list_elem_of_In|by apply bool_decide_eq_true in Hb]. }
    cbn [snd]. subst r. unfold fee_of. case_bool_decide as Hf; cbn [mbind result_bind].
    + match goal with |- context [cap <? ?x] => destruct (N.ltb_spec cap x) as [Hc|Hc] end.
      * split; [done|]. intros H. destruct (H Hw) as [_ Hle]. lia.
      * split; [|done]. intros _ _. done.
    + split; [done|]. intros H. by destruct (H Hw).
  - split; [done|]. split; [|done]. intros _ (k & Hk & Hs). exfalso.
    assert (existsb (λ fk, bool_decide (is_Some (ws !! (c, fk)))) keys = true) as E; [|congruence].
    apply existsb_exists. exists k. split; [by apply list_elem_of_In|by apply bool_decide_eq_true].
Qed.

Lemma constraint_exact s cn :
  contents (validate_constraint c ws s cn).1 ≡ contents s ∧
  ((validate_constraint c ws s cn).2 = Ok () ↔ constraint_holds cn (old s) w).
Proof.
  destruct cn; cbn [validate_constraint]; eauto using ratchet_bool_exact, ratchet_off_exact, fee_cap_exact, ratchet_up_exact.
Qed.

Lemma constraint_holds_proper cn o o' w' : (∀ k, o k = o' k) → constraint_holds cn o w' → constraint_holds cn o' w'.
Proof.
  intros E. destruct cn; cbn; rewrite ?E; [done..| |done].
  intros H Hx. destruct (H Hx) as [H1 H2]. split.
  - eapply Forall_impl; [exact H1|]. intros k. cbn. by rewrite E.
  - rewrite (list_fmap_ext _ (λ k, from_le_bytes (default [] (after (o k) (w' k)))) fee_keys) by (intros; cbn; by rewrite E). done.
Qed.

Lemma validate_constraints_exact cs : ∀ s : S,
  contents (validate_constraints cs c ws s).1 ≡ contents s ∧
  ((validate_constraints cs c ws s).2 = Ok () ↔ Forall (λ cn, constraint_holds cn (old s) w) cs).
Proof.
  induction cs as [|cn cs IH]; intros s; cbn [validate_constraints].
  - by rewrite Forall_nil.
  - rewrite Forall_cons. destruct (constraint_exact s cn) as [K R]. destruct (validate_constraint c ws s cn) as [s' [[]|e]]; cbn in *.
    + destruct (IH s') as [IH1 IH2]. split; [by rewrite IH1|]. rewrite IH2.
      assert (∀ k, old s' k = old s k) as Eo by (intros; apply K). split.
      * intros H. split; [by apply R|]. eapply Forall_impl; [done|]. intros x. by apply constraint_holds_proper.
      * intros [_ H]. eapply Forall_impl; [done|]. intros x. by apply constraint_holds_proper.
    + split; [done|]. split; [done|]. intros [H _]. by apply R in H.
Qed.

Lemma safety_check_keep (s : S) m : contents (validate_safety_invariants m c ws s).1 ≡ contents s.
Proof. apply validate_constraints_exact. Qed.

(** C30. The runtime check of a contract's safety constraints accepts a transaction
    exactly when every declared constraint holds between the state before it and
    its writes (a ratchet gate not re-locked, a capability not re-enabled, the fee
    sum within its cap, a limit not lowered), and it leaves the state as it was. *)
Theorem safety_check_exact (s : S) m :
  contents (validate_safety_invariants m c ws s).1 ≡ contents s ∧
  ((validate_safety_invariants m c ws s).2 = Ok () ↔
   Forall (λ cn, constraint_holds cn (c_storage (contents s) c) (λ k, ws !! (c, k))) (constraints m)).
Proof. apply validate_constraints_exact. Qed.
End exact.

(** ** Ratchets over several transactions *)

Definition slot_state (v : option bytes) : InMemoryStateView :=
  {| im_storage := from_option (λ b, {[(1, [7]) := b]}) ∅ v; im_balances := ∅; im_nonces := ∅; im_code := ∅; im_code_by_hash := ∅ |}.
Definition slot_check (cn : SafetyConstraint) (old : option bytes) (w : option bytes) : result VmError () :=
  (@validate_safety_invariants _ (im_view (λ _, 0)) {| constraints := [cn] |} 1 {[(1, [7]) := w]} (slot_state old)).2.

(** The gates are ratchets only within one transaction: deleting the slot is
    accepted, and an absent slot takes any value, so two accepted transactions
    re-lock a gate that was open and re-enable a capability that was off, while
    the direct transitions are rejected. *)
Theorem ratchet_reset_by_deletion :
  (slot_check (RatchetBool [7] [0]) (Some [1]) (Some [0]) = Err HoneypotInvariantViolation ∧
   slot_check (RatchetBool [7] [0]) (Some [1]) None = Ok () ∧
   slot_check (RatchetBool [7] [0]) None (Some [0]) = Ok ()) ∧
  (slot_check (RatchetOff [7]) (Some [0]) (Some [1]) = Err HoneypotInvariantViolation ∧
   slot_check (RatchetOff [7]) (Some [0]) None = Ok () ∧
   slot_check (RatchetOff [7]) None (Some [1]) = Ok ()).
Proof. vm_compute. by split_and!. Qed.
