(* ===== verification/Agent.v ===== *)
(** * Agent policies ([lemma-core/src/agent.rs])

    The policy of a session key: allowed actions and targets, budgets, category
    caps, anomaly history, the violations and the mandate receipt.  Names of
    categories are byte strings in their order. *)
From stdpp Require Import strings.
From S2P Require Import Prelude CoreTypes DagBlock Fee Transaction Db.

(** ** Byte strings in lexicographic order *)

Fixpoint bytes_le (a b : bytes) : Prop :=
  match a, b with
  | [], _ => True
  | _ :: _, [] => False
  | x :: a, y :: b => x < y ∨ (x = y ∧ bytes_le a b)
  end.
#[export] Instance bytes_le_dec : RelDecision bytes_le.
Proof.
  intros a. induction a as [|x a IH]; intros [|y b]; [by left|by left|right; cbn; tauto|]. cbn.
  destruct (decide (x < y)); [left; by left|]. destruct (decide (x = y)) as [->|]; [|right; naive_solver].
  destruct (IH b); [left; by right|right; naive_solver].
Defined.
#[export] Instance bytes_le_total : Total bytes_le.
Proof.
  intros a. induction a as [|x a IH]; intros [|y b]; cbn; [by left|by left|by right|].
  destruct (N.lt_trichotomy x y) as [|[->|]]; [by left; left| |by right; left].
  destruct (IH b); [left; by right|right; by right].
Qed.
#[export] Instance bytes_le_trans : Transitive bytes_le.
Proof.
  intros a. induction a as [|x a IH]; intros [|y b] [|z c]; cbn; try done.
  intros [Hxy|[-> Hab]] [Hyz|[-> Hbc]]; [left; lia|by left|by left|right; split; [done|by eapply IH]].
Qed.
#[export] Instance bytes_le_antisym : AntiSymm (=) bytes_le.
Proof.
  intros a. induction a as [|x a IH]; intros [|y b]; cbn; try done.
  intros [?|[-> H1]] [?|[? H2]]; try lia. f_equal. by apply IH.
Qed.
#[export] Instance bytes_bord : BOrd bytes := {| ble := bytes_le |}.

(** ** Actions and targets *)

Definition REPUTATION_SCORE_MAX : N := 100.

Inductive Action := ATransfer | AContractCall | AContractDeploy | AStake | AUnstake | AGovernanceVote | APayAgent.
#[export] Instance Action_eq_dec : EqDecision Action.
Proof. solve_decision. Defined.
#[export] Instance Action_countable : Countable Action.
Proof.
  refine (inj_countable'
    (λ a, match a with ATransfer => 0 | AContractCall => 1 | AContractDeploy => 2 | AStake => 3 | AUnstake => 4
                     | AGovernanceVote => 5 | APayAgent => 6 end)%nat
    (λ n, match n with 0 => ATransfer | 1 => AContractCall | 2 => AContractDeploy | 3 => AStake | 4 => AUnstake
                     | 5 => AGovernanceVote | _ => APayAgent end)%nat _).
  by intros [].
Defined.

Record ActionMask := { allowed : gset Action }.
Definition from_actions (actions : list Action) : ActionMask := {| allowed := list_to_set actions |}.
Definition ActionMask_all : ActionMask :=
  from_actions [ATransfer; AContractCall; AContractDeploy; AStake; AUnstake; AGovernanceVote; APayAgent].
Definition ActionMask_none : ActionMask := {| allowed := ∅ |}.
Definition permits (self : ActionMask) (action : Action) : bool := bool_decide (action ∈ allowed self).

Inductive AllowList := AnyTarget | Specific (targets : gset Address).
Definition from_targets (addrs : list Address) : AllowList := Specific (list_to_set addrs).
Definition AllowList_contains (self : AllowList) (addr : Address) : bool :=
  match self with AnyTarget => true | Specific targets => bool_decide (addr ∈ targets) end.

(** ** Category caps *)

Definition MAX_CATEGORIES : nat := 8.
Record CategoryBudget := { cap : Amount; spent : Amount; actions : gset Action }.
Notation CategoryCaps := (gmap bytes CategoryBudget) (only parsing).

Definition CategoryCaps_insert (self : CategoryCaps) (name : bytes) (budget : CategoryBudget) : CategoryCaps * bool :=
  if (MAX_CATEGORIES <=? size self)%nat then (self, false) else (<[name := budget]> self, true).
Definition category_of (self : CategoryCaps) (action : Action) : option bytes :=
  fst <$> list_find (λ kv, action ∈ actions kv.2) (bmap_iter self) ≫= λ r, Some r.2.
Definition category_spent (self : CategoryCaps) (category : bytes) : Amount := default 0 (spent <$> self !! category).
Definition category_cap (self : CategoryCaps) (category : bytes) : Amount := default 0 (cap <$> self !! category).
Definition with_spent (b : CategoryBudget) (v : Amount) : CategoryBudget :=
  {| cap := cap b; spent := v; actions := actions b |}.
Definition add_spent (self : CategoryCaps) (category : bytes) (value : Amount) : CategoryCaps :=
  match self !! category with
  | None => self
  | Some budget =>
      <[category := with_spent budget (match Amount_checked_add (spent budget) value with Ok v => v | Err _ => u128_max end)]> self
  end.
Definition reset_epoch (self : CategoryCaps) : CategoryCaps := (λ b, with_spent b 0) <$> self.

(** ** The policy *)

Record EpochRange := { start_epoch : N; end_epoch : N }.
Record AutoRevoke := { max_violations_per_epoch : N; violations_this_epoch : N }.

Definition MAX_SEEN_TARGETS : nat := 16.
Definition ANOMALY_SPIKE_RATIO_DEFAULT : N := 500.
Definition ANOMALY_BURST_RATIO_DEFAULT : N := 300.
Definition ANOMALY_NOVEL_TARGET_HIGH_VALUE_PCT : N := 50.

Record AnomalyConfig := { enabled : bool; spike_ratio : N; burst_ratio : N }.
Definition AnomalyConfig_default : AnomalyConfig :=
  {| enabled := false; spike_ratio := ANOMALY_SPIKE_RATIO_DEFAULT; burst_ratio := ANOMALY_BURST_RATIO_DEFAULT |}.

Record AnomalyHistory := {
  avg_value_ema : Amount;
  tx_count_this_epoch : N;
  avg_tx_count_ema : N;
  has_history : bool;
  seen_targets : gset Address;
}.
Definition AnomalyHistory_default : AnomalyHistory :=
  {| avg_value_ema := 0; tx_count_this_epoch := 0; avg_tx_count_ema := 0; has_history := false; seen_targets := ∅ |}.

Inductive KyaTier := KyaNone | Identified | Verified.
#[export] Instance KyaTier_eq_dec : EqDecision KyaTier.
Proof. solve_decision. Defined.
Definition kya_rank (t : KyaTier) : N := match t with KyaNone => 0 | Identified => 1 | Verified => 2 end.

Record AgentIdentity := { id_owner : Address; id_kya_tier : KyaTier; reputation_score : N }.

Record AgentPolicy := {
  ap_session_key : bytes;
  expiry_epoch : N;
  budget_total : Amount;
  per_tx_cap : Amount;
  per_epoch_cap : Amount;
  allowed_targets : AllowList;
  allowed_actions : ActionMask;
  spent_total : Amount;
  spent_this_epoch : Amount;
  last_epoch : N;
  refill_per_epoch : Amount;
  budget_ceiling : option Amount;
  categories : CategoryCaps;
  active_window : option EpochRange;
  cosign_threshold : option Amount;
  auto_revoke : AutoRevoke;
  anomaly : AnomalyConfig;
  history : AnomalyHistory;
  required_kya_tier : KyaTier;
  min_counterparty_reputation : N;
  kya_tier : KyaTier;
}.

Inductive PolicyViolation :=
  | PolicyNotFound
  | Expired (expiry current : N)
  | ActionDenied (action : Action)
  | TargetDenied (target : Address)
  | PerTxExceeded (v c : Amount)
  | PerEpochExceeded (epoch_total c : Amount)
  | BudgetExceeded (lifetime_total budget : Amount)
  | PolicyOverflow
  | OutsideWindow (current start end_ : N)
  | CategoryExceeded (category : bytes) (s c : Amount)
  | AgentsPaused
  | AnomalyHold (reason : string)
  | CounterpartyRejected (reason : string) (required_tier actual_tier : KyaTier) (required_reputation actual_reputation : N)
  | MissingCounterparty (target : Address).
#[export] Instance PolicyViolation_eq_dec : EqDecision PolicyViolation.
Proof. solve_decision. Defined.

Inductive WardenOutcome := Applied | PendingOwnerCosign.

Record MandateReceipt := {
  mr_owner : Address;
  mr_session_key : bytes;
  mr_policy_hash : Hash;
  mr_action : Action;
  mr_target : option Address;
  mr_value : Amount;
  mr_budget_remaining : Amount;
  mr_epoch : N;
  mr_kya_tier : KyaTier;
  mr_cosigned : bool;
}.

(** The bytes of an ASCII string. *)
Definition ascii_bytes (s : string) : bytes := (λ a, N.of_nat (Ascii.nat_of_ascii a)) <$> String.list_ascii_of_string s.

Definition MANDATE_RECEIPT_EVENT_SIG : bytes :=
  ascii_bytes "MandateReceipt(address,bytes,bytes32,string,address,uint128,uint128,uint64,string,bool)".

Section system.
Context (blake3 : bytes → Hash).

(** The first twenty bytes of the digest, as an address. *)
Definition Address_registry : Address := Address_from_public_key blake3 (ascii_bytes "lemma:system:registry").
Definition Address_warden : Address := Address_from_public_key blake3 (ascii_bytes "lemma:system:warden").

Definition to_log `{!Codec MandateReceipt} (self : MandateReceipt) : Log :=
  Log_new Address_warden [blake3 MANDATE_RECEIPT_EVENT_SIG] (match serialize self with Ok b => b | Err _ => [] end).
End system.
