(* ===== verification/Warden.v ===== *)
(** * Warden: policy enforcement for agent transactions
    ([lemma-vm/src/warden.rs], [agent_registry.rs])

    Policies and identities are stored as JSON under system addresses; the codec
    is a parameter.  [warden_check] threads the state it reads and writes. *)
From stdpp Require Import strings.
From S2P Require Import Prelude CoreTypes DagBlock Fee Transaction Db VmState VmGas Scratch Agent.

Definition POLICY_KEY_PREFIX : bytes := ascii_bytes "warden:policy:".
Definition OWNER_PAUSE_KEY_PREFIX : bytes := ascii_bytes "warden:paused:".
Definition AGENT_IDENTITY_KEY_PREFIX : bytes := ascii_bytes "agent:identity:".

Definition owner_pause_key (owner : Address) : bytes := OWNER_PAUSE_KEY_PREFIX ++ Address_as_bytes owner.
Definition policy_state_key (owner : Address) (session_key : bytes) : bytes :=
  POLICY_KEY_PREFIX ++ Address_as_bytes owner ++ session_key.
Definition agent_identity_key (agent : Address) : bytes := AGENT_IDENTITY_KEY_PREFIX ++ Address_as_bytes agent.

Definition classify_action (tx : Transaction) : Action :=
  match tx_type tx with
  | Transfer => ATransfer | ContractCall => AContractCall | ContractDeploy => AContractDeploy
  | Stake_ => AStake | Unstake => AUnstake | GovernanceVote => AGovernanceVote
  end.

(** ** Changes to a policy *)

Definition upd_policy (p : AgentPolicy) (expiry budget stotal sepoch lepoch : N) (cats : gmap bytes CategoryBudget)
    (ar : AutoRevoke) (h : AnomalyHistory) : AgentPolicy :=
  {| ap_session_key := ap_session_key p; expiry_epoch := expiry; budget_total := budget; per_tx_cap := per_tx_cap p;
     per_epoch_cap := per_epoch_cap p; allowed_targets := allowed_targets p; allowed_actions := allowed_actions p;
     spent_total := stotal; spent_this_epoch := sepoch; last_epoch := lepoch; refill_per_epoch := refill_per_epoch p;
     budget_ceiling := budget_ceiling p; categories := cats; active_window := active_window p;
     cosign_threshold := cosign_threshold p; auto_revoke := ar; anomaly := anomaly p; history := h;
     required_kya_tier := required_kya_tier p; min_counterparty_reputation := min_counterparty_reputation p;
     kya_tier := kya_tier p |}.

Definition u32_sat_mul (a b : N) : N := saturating_mul u32_max a b.
Definition u128_sat_mul (a b : N) : N := saturating_mul u128_max a b.

Definition anomaly_detected (policy : AgentPolicy) (tx : Transaction) : option string :=
  let h := history policy in
  if (0 <? avg_value_ema h) && (u128_sat_mul (avg_value_ema h) (spike_ratio (anomaly policy)) <? u128_sat_mul (value tx) 100)
  then Some "value spike: tx value exceeds spike_ratio x historical average"%string else
  if (0 <? avg_tx_count_ema h) && (u32_sat_mul (avg_tx_count_ema h) (burst_ratio (anomaly policy)) <? u32_sat_mul (tx_count_this_epoch h) 100)
  then Some "burst rate: tx count exceeds burst_ratio x historical average"%string else
  match to tx with
  | None => None
  | Some target =>
      if (size (seen_targets h) <? MAX_SEEN_TARGETS)%nat && negb (bool_decide (target ∈ seen_targets h)) &&
         (u128_sat_mul (per_tx_cap policy) ANOMALY_NOVEL_TARGET_HIGH_VALUE_PCT <=? u128_sat_mul (value tx) 100)
      then Some "novel high-value target: never-before-seen target at >= 50% of per-tx cap"%string else None
  end.

Definition update_history (h : AnomalyHistory) (tx : Transaction) (value : Amount) : AnomalyHistory :=
  let old := avg_value_ema h in
  {| avg_value_ema := saturating_add u128_max (saturating_sub old (N.shiftr old 3)) (N.shiftr value 3);
     tx_count_this_epoch := saturating_add u16_max (tx_count_this_epoch h) 1;
     avg_tx_count_ema := avg_tx_count_ema h; has_history := has_history h;
     seen_targets := match to tx with
       | Some target => if (size (seen_targets h) <? MAX_SEEN_TARGETS)%nat then {[target]} ∪ seen_targets h else seen_targets h
       | None => seen_targets h
       end |}.

Definition apply_epoch_reset (p : AgentPolicy) (epoch : N) : AgentPolicy :=
  let budget :=
    if 0 <? refill_per_epoch p then
      let refilled := match Amount_checked_add (budget_total p) (refill_per_epoch p) with Ok v => v | Err _ => budget_total p end in
      match budget_ceiling p with
      | Some ceiling => if ceiling <? refilled then ceiling else refilled
      | None => refilled
      end
    else budget_total p in
  let h := history p in
  let completed := tx_count_this_epoch h in
  let old_avg := avg_tx_count_ema h in
  upd_policy p (expiry_epoch p) budget (spent_total p) 0 epoch (reset_epoch (categories p))
    {| max_violations_per_epoch := max_violations_per_epoch (auto_revoke p); violations_this_epoch := 0 |}
    {| avg_value_ema := avg_value_ema h; tx_count_this_epoch := 0;
       avg_tx_count_ema := saturating_add u16_max (saturating_sub old_avg (N.shiftr old_avg 3)) (N.shiftr completed 3);
       has_history := has_history h || (0 <? completed); seen_targets := seen_targets h |}.

Definition epoch_reset (p : AgentPolicy) (epoch : N) : AgentPolicy :=
  if last_epoch p <? epoch then apply_epoch_reset p epoch else p.

(** ** The checks of [warden_check], in its order *)

(** Steps 1 to 3: expiry, window, action, target. *)
Definition check_permissions (policy : AgentPolicy) (tx : Transaction) (epoch : N) : result PolicyViolation () :=
  if expiry_epoch policy <=? epoch then Err (Expired (expiry_epoch policy) epoch) else
  _ ← match active_window policy with
      | Some w => if (epoch <? start_epoch w) || (end_epoch w <? epoch)
                  then Err (OutsideWindow epoch (start_epoch w) (end_epoch w)) else Ok ()
      | None => Ok ()
      end;
  let action := classify_action tx in
  if negb (permits (allowed_actions policy) action) then Err (ActionDenied action) else
  match to tx with
  | Some target => if AllowList_contains (allowed_targets policy) target then Ok () else Err (TargetDenied target)
  | None => Ok ()
  end.

(** Step 3b: what the registry says of the payee. *)
Definition check_counterparty (policy : AgentPolicy) (target : Address) (payee_identity : option AgentIdentity)
    : result PolicyViolation () :=
  let a2a_required := (0 <? kya_rank (required_kya_tier policy)) || (0 <? min_counterparty_reputation policy) in
  match payee_identity with
  | Some identity =>
      if negb (permits (allowed_actions policy) APayAgent) then Err (ActionDenied APayAgent) else
      if (0 <? kya_rank (required_kya_tier policy)) && (kya_rank (id_kya_tier identity) <? kya_rank (required_kya_tier policy))
      then Err (CounterpartyRejected "counterparty KYA tier below required minimum" (required_kya_tier policy)
                  (id_kya_tier identity) (min_counterparty_reputation policy) (reputation_score identity)) else
      if (0 <? min_counterparty_reputation policy) && (reputation_score identity <? min_counterparty_reputation policy)
      then Err (CounterpartyRejected "counterparty reputation score below required minimum" (required_kya_tier policy)
                  (id_kya_tier identity) (min_counterparty_reputation policy) (reputation_score identity)) else Ok ()
  | None => if a2a_required then Err (MissingCounterparty target) else Ok ()
  end.

(** Steps 4 to 7: the caps, the co-signature and the anomaly guard; [Ok None] is
    a transaction that waits for its co-signature. *)
Definition check_limits (policy : AgentPolicy) (tx : Transaction) (epoch : N) : result PolicyViolation (option AgentPolicy) :=
  let v := value tx in
  if per_tx_cap policy <? v then Err (PerTxExceeded v (per_tx_cap policy)) else
  let policy := epoch_reset policy epoch in
  let matched_category := category_of (categories policy) (classify_action tx) in
  _ ← match matched_category with
      | Some cat =>
          cat_after ← map_err (λ _, PolicyOverflow) (Amount_checked_add (category_spent (categories policy) cat) v);
          let cat_cap := category_cap (categories policy) cat in
          if cat_cap <? cat_after then Err (CategoryExceeded cat cat_after cat_cap) else Ok ()
      | None => Ok ()
      end;
  epoch_after ← map_err (λ _, PolicyOverflow) (Amount_checked_add (spent_this_epoch policy) v);
  if per_epoch_cap policy <? epoch_after then Err (PerEpochExceeded epoch_after (per_epoch_cap policy)) else
  total_after ← map_err (λ _, PolicyOverflow) (Amount_checked_add (spent_total policy) v);
  if budget_total policy <? total_after then Err (BudgetExceeded total_after (budget_total policy)) else
  let pending := match cosign_threshold policy with
                 | Some threshold => (threshold <=? v) && negb (has_owner_cosignature tx)
                 | None => false
                 end in
  if pending then Ok None else
  match (if enabled (anomaly policy) && has_history (history policy) then anomaly_detected policy tx else None) with
  | Some reason => Err (AnomalyHold reason)
  | None =>
      Ok (Some (upd_policy policy (expiry_epoch policy) (budget_total policy) total_after epoch_after (last_epoch policy)
        (match matched_category with Some cat => add_spent (categories policy) cat v | None => categories policy end)
        (auto_revoke policy)
        (if enabled (anomaly policy) then update_history (history policy) tx v else history policy)))
  end.

(** [handle_violation] on the policy. *)
Definition violation_policy (policy : AgentPolicy) (epoch : N) : option AgentPolicy :=
  if max_violations_per_epoch (auto_revoke policy) =? 0 then None else
  let policy := epoch_reset policy epoch in
  let ar := auto_revoke policy in
  let violations := saturating_add u32_max (violations_this_epoch ar) 1 in
  let expiry := if max_violations_per_epoch ar <=? violations then epoch else expiry_epoch policy in
  Some (upd_policy policy expiry (budget_total policy) (spent_total policy) (spent_this_epoch policy) (last_epoch policy)
    (categories policy) {| max_violations_per_epoch := max_violations_per_epoch ar; violations_this_epoch := violations |}
    (history policy)).

Section warden.
Context (blake3 : bytes → Hash) `{!Codec AgentPolicy, !Codec AgentIdentity, !Codec MandateReceipt}.
Context {S : Type} `{!ContractStateView S}.

Notation warden_system_addr := (Address_warden blake3).

Definition read_owner_paused (state : S) (owner : Address) : S * bool :=
  sv_exists state warden_system_addr (owner_pause_key owner).

Definition read_policy (state : S) (owner : Address) (session_key : bytes) : S * option AgentPolicy :=
  let '(state, r) := sv_read state warden_system_addr (policy_state_key owner session_key) in
  (state, b ← r; match deserialize b with Ok policy => Some policy | Err _ => None end).

Definition write_policy (state : S) (owner : Address) (session_key : bytes) (policy : AgentPolicy) : S * bool :=
  match serialize policy with
  | Ok b => (sv_write state warden_system_addr (policy_state_key owner session_key) b, true)
  | Err _ => (state, false)
  end.

Definition read_agent_identity (state : S) (agent : Address) : S * option AgentIdentity :=
  let '(state, r) := sv_read state (Address_registry blake3) (agent_identity_key agent) in
  (state, b ← r; match deserialize b with Ok identity => Some identity | Err _ => None end).

Definition warden_check (tx : Transaction) (session_key : bytes) (epoch : N) (state : S)
    : S * result PolicyViolation WardenOutcome :=
  let '(state, paused) := read_owner_paused state (sender tx) in
  if paused : bool then (state, Err AgentsPaused) else
  let '(state, r) := read_policy state (sender tx) session_key in
  match r with
  | None => (state, Err PolicyNotFound)
  | Some policy =>
      match check_permissions policy tx epoch with
      | Err e => (state, Err e)
      | Ok _ =>
          let '(state, r) :=
            match to tx with
            | Some target =>
                let '(state, payee_identity) := read_agent_identity state target in
                (state, check_counterparty policy target payee_identity)
            | None => (state, Ok ())
            end in
          match (_ ← r; check_limits policy tx epoch) with
          | Err e => (state, Err e)
          | Ok None => (state, Ok PendingOwnerCosign)
          | Ok (Some policy) => ((write_policy state (sender tx) session_key policy).1, Ok Applied)
          end
      end
  end.

Definition build_mandate_receipt_log (tx : Transaction) (session_key : bytes) (epoch : N) (action : Action) (state : S)
    : S * option Log :=
  let '(state, r) := read_policy state (sender tx) session_key in
  (state,
   policy ← r;
   let policy_bytes := match serialize policy with Ok b => b | Err _ => [] end in
   let budget_remaining := match Amount_checked_sub (budget_total policy) (spent_total policy) with Ok v => v | Err _ => 0 end in
   Some (to_log blake3 {| mr_owner := sender tx; mr_session_key := session_key; mr_policy_hash := hash_bytes blake3 policy_bytes;
     mr_action := action; mr_target := to tx; mr_value := value tx; mr_budget_remaining := budget_remaining;
     mr_epoch := epoch; mr_kya_tier := kya_tier policy; mr_cosigned := has_owner_cosignature tx |})).

Definition handle_violation (tx : Transaction) (session_key : bytes) (epoch : N) (state : S) : S :=
  let '(state, r) := read_policy state (sender tx) session_key in
  match r ≫= λ policy, violation_policy policy epoch with
  | Some policy => (write_policy state (sender tx) session_key policy).1
  | None => state
  end.
End warden.
