(* ===== verification/WardenSpec.v ===== *)
(** * What Warden guarantees

    [warden_check] against the decision it takes on the stored policy, and the
    policy over a whole history of transactions: epoch caps, lifetime budget,
    revocation. *)
From stdpp Require Import strings.
From S2P Require Import Prelude CoreTypes DagBlock Fee Transaction Db VmState VmGas Scratch Agent Warden.

(** ** The decision *)

Definition decide_policy (policy : AgentPolicy) (payee : option AgentIdentity) (tx : Transaction) (epoch : N)
    : result PolicyViolation (option AgentPolicy) :=
  _ ← check_permissions policy tx epoch;
  _ ← match to tx with Some target => check_counterparty policy target payee | None => Ok () end;
  check_limits policy tx epoch.

Definition warden_spec (paused : bool) (policy : option AgentPolicy) (payee : option AgentIdentity) (tx : Transaction) (epoch : N)
    : result PolicyViolation (option AgentPolicy) :=
  if paused then Err AgentsPaused else
  match policy with Some policy => decide_policy policy payee tx epoch | None => Err PolicyNotFound end.

Section refine.
Context (blake3 : bytes → Hash) `{!Codec AgentPolicy, !Codec AgentIdentity}.
Context {S : Type} `{!ContractStateView S, !ViewLaws S}.

(** What the state stores. *)
Definition stored {A} `{!Codec A} (a : Contents) (c : Address) (k : bytes) : option A :=
  b ← c_storage a c k; match deserialize b with Ok x => Some x | Err _ => None end.
Definition policy_at (a : Contents) (owner : Address) (sk : bytes) : option AgentPolicy :=
  stored a (Address_warden blake3) (policy_state_key owner sk).
Definition identity_at (a : Contents) (agent : Address) : option AgentIdentity :=
  stored a (Address_registry blake3) (agent_identity_key agent).
Definition paused_at (a : Contents) (owner : Address) : bool :=
  bool_decide (is_Some (c_storage a (Address_warden blake3) (owner_pause_key owner))).
Definition put_policy (a : Contents) (owner : Address) (sk : bytes) (p : AgentPolicy) : Contents :=
  match serialize p with
  | Ok b => with_storage a (Address_warden blake3) (policy_state_key owner sk) (Some b)
  | Err _ => a
  end.

Lemma read_policy_spec (s : S) owner sk :
  ∃ s', read_policy blake3 s owner sk = (s', policy_at (contents s) owner sk) ∧ contents s' ≡ contents s.
Proof.
  unfold read_policy, policy_at, stored. pose proof (read_law s (Address_warden blake3) (policy_state_key owner sk)) as L.
  pose proof (read_keep s (Address_warden blake3) (policy_state_key owner sk)) as K.
  destruct (sv_read _ _ _) as [s' r]. cbn in *. subst. by exists s'.
Qed.

Lemma read_identity_spec (s : S) agent :
  ∃ s', read_agent_identity blake3 s agent = (s', identity_at (contents s) agent) ∧ contents s' ≡ contents s.
Proof.
  unfold read_agent_identity, identity_at, stored. pose proof (read_law s (Address_registry blake3) (agent_identity_key agent)) as L.
  pose proof (read_keep s (Address_registry blake3) (agent_identity_key agent)) as K.
  destruct (sv_read _ _ _) as [s' r]. cbn in *. subst. by exists s'.
Qed.

Lemma read_paused_spec (s : S) owner :
  ∃ s', read_owner_paused blake3 s owner = (s', paused_at (contents s) owner) ∧ contents s' ≡ contents s.
Proof.
  unfold read_owner_paused, paused_at. pose proof (exists_law s (Address_warden blake3) (owner_pause_key owner)) as L.
  pose proof (exists_keep s (Address_warden blake3) (owner_pause_key owner)) as K.
  destruct (sv_exists _ _ _) as [s' r]. cbn in *. subst. by exists s'.
Qed.

Lemma write_policy_spec (s : S) owner sk p :
  contents (write_policy blake3 s owner sk p).1 ≡ put_policy (contents s) owner sk p.
Proof. unfold write_policy, put_policy. destruct (serialize p); [apply write_law|done]. Qed.

Lemma put_policy_proper a b owner sk p : a ≡ b → put_policy a owner sk p ≡ put_policy b owner sk p.
Proof. intros E. unfold put_policy. destruct (serialize p); [by rewrite E|done]. Qed.

Lemma policy_at_proper a b owner sk : a ≡ b → policy_at a owner sk = policy_at b owner sk.
Proof. intros (E & _). unfold policy_at, stored. by rewrite E. Qed.

Lemma warden_check_decides (tx : Transaction) sk epoch (s : S) :
  let d := warden_spec (paused_at (contents s) (sender tx)) (policy_at (contents s) (sender tx) sk)
             (to tx ≫= identity_at (contents s)) tx epoch in
  let '(s', r) := warden_check blake3 tx sk epoch s in
  match d with
  | Err e => r = Err e ∧ contents s' ≡ contents s
  | Ok None => r = Ok PendingOwnerCosign ∧ contents s' ≡ contents s
  | Ok (Some p) => r = Ok Applied ∧ contents s' ≡ put_policy (contents s) (sender tx) sk p
  end.
Proof.
  intros d. unfold d, warden_spec. clear d. unfold warden_check. destruct (read_paused_spec s (sender tx)) as (s1 & -> & K1).
  destruct (paused_at _ _); [done|]. destruct (read_policy_spec s1 (sender tx) sk) as (s2 & -> & K2).
  rewrite (policy_at_proper _ _ _ _ K1). destruct (policy_at (contents s) _ _) as [p|]; [|split; [done|by rewrite K2]].
  unfold decide_policy. destruct (check_permissions p tx epoch) as [[]|e]; cbn; [|split; [done|by rewrite K2]].
  assert (∃ s3, match to tx with Some target => let '(st, i) := read_agent_identity blake3 s2 target in (st, check_counterparty p target i)
      | None => (s2, Ok ()) end = (s3, match to tx with Some target => check_counterparty p target (to tx ≫= identity_at (contents s)) | None => Ok () end)
      ∧ contents s3 ≡ contents s) as (s3 & -> & K3).
  { destruct (to tx) as [t|]; cbn; [|exists s2; split; [done|by rewrite K2]].
    destruct (read_identity_spec s2 t) as (s3 & -> & K3). exists s3. split; [|by rewrite K3, K2].
    do 2 f_equal. unfold identity_at, stored. by rewrite (proj1 K2), (proj1 K1). }
  destruct (match to tx with Some _ => _ | None => _ end) as [[]|e]; cbn; [|done].
  destruct (check_limits p tx epoch) as [[p'|]|e]; cbn; [|done..]. split; [done|].
  rewrite write_policy_spec. by apply put_policy_proper.
Qed.


Lemma handle_violation_spec tx sk epoch (s : S) :
  contents (handle_violation blake3 tx sk epoch s) ≡
    match policy_at (contents s) (sender tx) sk ≫= λ p, violation_policy p epoch with
    | Some p => put_policy (contents s) (sender tx) sk p
    | None => contents s
    end.
Proof.
  unfold handle_violation. destruct (read_policy_spec s (sender tx) sk) as (s' & -> & K).
  destruct (policy_at _ _ _ ≫= _); [|done]. rewrite write_policy_spec. by apply put_policy_proper.
Qed.
End refine.

(** ** A history of transactions under one policy *)

Record AgentEvent := {
  ev_tx : Transaction;
  ev_epoch : N;
  ev_payee : option AgentIdentity;
  ev_succeeds : bool;  (* the execution after an approval *)
}.

(** A failed execution discards the policy update with the rest of the overlay;
    a violation is counted. *)
Definition agent_step (p : AgentPolicy) (ev : AgentEvent) : AgentPolicy * option (N * Amount) :=
  match decide_policy p (ev_payee ev) (ev_tx ev) (ev_epoch ev) with
  | Ok (Some p') => if ev_succeeds ev then (p', Some (ev_epoch ev, value (ev_tx ev))) else (p, None)
  | Ok None => (p, None)
  | Err _ => (default p (violation_policy p (ev_epoch ev)), None)
  end.

Fixpoint agent_run (p : AgentPolicy) (evs : list AgentEvent) : AgentPolicy * list (N * Amount) :=
  match evs with
  | [] => (p, [])
  | ev :: evs =>
      let '(p, spent) := agent_step p ev in
      let '(p, rest) := agent_run p evs in
      (p, option_list spent ++ rest)
  end.

Definition spent_in (e : N) (l : list (N * Amount)) : Amount := sumN (snd <$> filter (λ x, x.1 = e) l).

(** Epochs do not go back. *)
Fixpoint epochs_from (e : N) (evs : list AgentEvent) : Prop :=
  match evs with [] => True | ev :: evs => e <= ev_epoch ev ∧ epochs_from (ev_epoch ev) evs end.

Definition carry (e : N) (p : AgentPolicy) : Amount := if e =? last_epoch p then spent_this_epoch p else 0.

(** An approval, in numbers. *)
Lemma decide_applied p payee tx e p' :
  last_epoch p <= e → decide_policy p payee tx e = Ok (Some p') →
  value tx <= per_tx_cap p ∧ last_epoch p' = e ∧ spent_this_epoch p' = carry e p + value tx ∧
  spent_this_epoch p' <= per_epoch_cap p ∧ spent_total p' = spent_total p + value tx ∧
  spent_total p' <= budget_total p' ∧ budget_total p' = budget_total (epoch_reset p e) ∧
  per_epoch_cap p' = per_epoch_cap p ∧ refill_per_epoch p' = refill_per_epoch p ∧ e < expiry_epoch p.
Proof.
  intros Hle Hd. unfold decide_policy in Hd. apply bind_Ok in Hd as ([] & Hperm & Hd). apply bind_Ok in Hd as ([] & _ & Hd).
  assert (e < expiry_epoch p) as Hexp by (unfold check_permissions in Hperm; destruct (N.leb_spec (expiry_epoch p) e); [done|lia]).
  unfold check_limits in Hd. destruct (N.ltb_spec (per_tx_cap p) (value tx)); [done|].
  assert (spent_this_epoch (epoch_reset p e) = carry e p ∧ spent_total (epoch_reset p e) = spent_total p ∧
    last_epoch (epoch_reset p e) = e ∧ per_epoch_cap (epoch_reset p e) = per_epoch_cap p ∧
    refill_per_epoch (epoch_reset p e) = refill_per_epoch p) as (R1 & R2 & R3 & R4 & R5).
  { unfold epoch_reset, carry. destruct (N.ltb_spec (last_epoch p) e), (N.eqb_spec e (last_epoch p)); try lia; by split_and!. }
  set (q := epoch_reset p e) in *. apply bind_Ok in Hd as ([] & _ & Hd). apply bind_Ok in Hd as (ea & Hea & Hd).
  destruct (N.ltb_spec (per_epoch_cap q) ea); [done|]. apply bind_Ok in Hd as (ta & Hta & Hd).
  destruct (N.ltb_spec (budget_total q) ta); [done|].
  assert (ea = spent_this_epoch q + value tx) as ->.
  { unfold Amount_checked_add, checked_add in Hea. destruct (_ <=? u128_max); cbn in Hea; [by injection Hea|done]. }
  assert (ta = spent_total q + value tx) as ->.
  { unfold Amount_checked_add, checked_add in Hta. destruct (_ <=? u128_max); cbn in Hta; [by injection Hta|done]. }
  repeat case_match; try done; injection Hd as <-; cbn; rewrite <-?R1, <-?R2; split_and!; try done; congruence || lia.
Qed.

Lemma violation_last p e : last_epoch p <= e →
  let p' := default p (violation_policy p e) in
  per_epoch_cap p' = per_epoch_cap p ∧ refill_per_epoch p' = refill_per_epoch p ∧ spent_total p' = spent_total p ∧
  (last_epoch p' = last_epoch p ∧ spent_this_epoch p' = spent_this_epoch p ∧ budget_total p' = budget_total p ∨
   last_epoch p < e ∧ last_epoch p' = e ∧ spent_this_epoch p' = 0 ∧ budget_total p' = budget_total (epoch_reset p e)).
Proof.
  intros Hle. unfold violation_policy. destruct (_ =? 0); [cbn; split_and!; auto|]. cbn [default].
  unfold epoch_reset. destruct (N.ltb_spec (last_epoch p) e); cbn; split_and!; auto.
Qed.

Lemma epoch_reset_budget p e E : last_epoch p <= e → e <= E →
  budget_total (epoch_reset p e) + refill_per_epoch p * (E - e) <= budget_total p + refill_per_epoch p * (E - last_epoch p).
Proof.
  intros H1 H2. unfold epoch_reset. destruct (N.ltb_spec (last_epoch p) e) as [Hlt|Hge].
  - cbn. assert (refill_per_epoch p * (E - e) + refill_per_epoch p <= refill_per_epoch p * (E - last_epoch p)).
    { replace (E - last_epoch p) with ((E - e) + 1 + (e - last_epoch p - 1)) by lia. nia. }
    unfold Amount_checked_add, checked_add. repeat case_match; cbn in *; simplify_eq; bool_hyps; try lia.
  - replace e with (last_epoch p) by lia. lia.
Qed.

(** One step: what it does to the counters. *)
Lemma agent_step_spec p ev p' o :
  last_epoch p <= ev_epoch ev → agent_step p ev = (p', o) →
  per_epoch_cap p' = per_epoch_cap p ∧ refill_per_epoch p' = refill_per_epoch p ∧ last_epoch p <= last_epoch p' ∧ last_epoch p' <= ev_epoch ev ∧
  (∀ E, ev_epoch ev <= E →
     budget_total p' + refill_per_epoch p * (E - last_epoch p') <= budget_total p + refill_per_epoch p * (E - last_epoch p)) ∧
  match o with
  | Some (e, v) => e = ev_epoch ev ∧ last_epoch p' = e ∧ spent_this_epoch p' = carry e p + v ∧ spent_this_epoch p' <= per_epoch_cap p ∧
      spent_total p' = spent_total p + v ∧ spent_total p' <= budget_total p'
  | None => spent_total p' = spent_total p ∧ ∀ e, carry e p' = carry e p ∨ e = last_epoch p ∧ e < ev_epoch ev ∧ carry e p' = 0
  end.
Proof.
  intros Hle Hs. unfold agent_step in Hs. destruct (decide_policy p (ev_payee ev) (ev_tx ev) (ev_epoch ev)) as [[q|]|viol] eqn:Hd.
  - destruct (ev_succeeds ev); injection Hs as <- <-.
    + destruct (decide_applied _ _ _ _ _ Hle Hd) as (H1 & H2 & H3 & H4 & H5 & H6 & H7 & H8 & H9 & _).
      rewrite H2, H7. split_and!; try done; try lia. intros E HE. by apply epoch_reset_budget.
    + split_and!; try done; try lia; auto.
  - injection Hs as <- <-. split_and!; try done; try lia; auto.
  - injection Hs as <- <-. pose proof (violation_last p (ev_epoch ev) Hle) as (V1 & V2 & V3 & V4). set (q := default p _) in *.
    destruct V4 as [(A1 & A2 & A3)|(B0 & B1 & B2 & B3)].
    + rewrite A1, A3. split_and!; try done; try lia. intros e. left. unfold carry. by rewrite A1, A2.
    + rewrite B1, B3. split_and!; try done; try lia; [intros E HE; by apply epoch_reset_budget|].
      intros e. unfold carry. rewrite B1, B2. destruct (N.eqb_spec e (ev_epoch ev)), (N.eqb_spec e (last_epoch p)); subst; try lia; auto.
Qed.

Lemma spent_in_app e l1 l2 : spent_in e (l1 ++ l2) = spent_in e l1 + spent_in e l2.
Proof. unfold spent_in. rewrite filter_app, fmap_app. induction (filter _ l1) as [|x l IH]; cbn; [lia|]. rewrite IH. lia. Qed.

Lemma spent_in_one e o : spent_in e (option_list o) = match o with Some (e', v) => if e =? e' then v else 0 | None => 0 end.
Proof.
  destruct o as [[e' v]|]; [|done]. change (option_list (Some (e', v))) with [(e', v)].
  unfold spent_in. rewrite filter_cons. cbn [fst].
  destruct (N.eqb_spec e e'); [subst; rewrite decide_True by done|rewrite decide_False by done]; cbn; lia.
Qed.

Lemma agent_run_past evs p e0 e : epochs_from e0 evs → last_epoch p <= e0 → e < e0 → spent_in e (agent_run p evs).2 = 0.
Proof.
  revert p e0. induction evs as [|ev evs IH]; intros p e0 He Hl Hlt; [done|]. destruct He as [H1 H2]. cbn [agent_run].
  destruct (agent_step p ev) as [p1 o] eqn:Hs. destruct (agent_step_spec p ev p1 o) as (_ & _ & _ & Hl1 & _ & Ho); [lia|done|].
  specialize (IH p1 (ev_epoch ev) H2 Hl1 ltac:(lia)). destruct (agent_run p1 evs) as [p2 l]. cbn [fst snd] in *.
  rewrite spent_in_app, IH, spent_in_one. destruct o as [[e' v]|]; [|done]. destruct Ho as [-> _].
  destruct (N.eqb_spec e (ev_epoch ev)); lia.
Qed.

Lemma agent_run_capped evs : ∀ p e0 e,
  last_epoch p <= e0 → epochs_from e0 evs →
  spent_in e (agent_run p evs).2 + carry e p <= N.max (per_epoch_cap p) (carry e p).
Proof.
  induction evs as [|ev evs IH]; intros p e0 e Hl He; [cbn; lia|]. destruct He as [H1 H2]. cbn [agent_run].
  destruct (agent_step p ev) as [p1 o] eqn:Hs.
  destruct (agent_step_spec p ev p1 o) as (Hcap & _ & _ & Hl1 & _ & Ho); [lia|done|].
  specialize (IH p1 (ev_epoch ev) e Hl1 H2). pose proof (agent_run_past evs p1 (ev_epoch ev) e H2 Hl1) as Hpast.
  destruct (agent_run p1 evs) as [p2 l]. cbn [fst snd] in *. rewrite spent_in_app, spent_in_one. rewrite Hcap in IH.
  destruct o as [[e' v]|].
  - destruct Ho as (-> & Hl' & Hsp & Hle & _). assert (carry e p1 = if e =? ev_epoch ev then carry e p + v else 0) as Hc.
    { unfold carry at 1. rewrite Hl', Hsp. by destruct (N.eqb_spec e (ev_epoch ev)) as [->|]. }
    rewrite Hc in IH. destruct (N.eqb_spec e (ev_epoch ev)) as [->|Hne].
    + rewrite Hsp in Hle. lia.
    + unfold carry in *. destruct (N.eqb_spec e (last_epoch p)) as [->|]; [rewrite Hpast by lia; lia|lia].
  - destruct Ho as [_ Hc]. destruct (Hc e) as [Hc'|(-> & Hlt & Hc')]; rewrite Hc' in IH; [lia|]. rewrite Hpast by done. lia.
Qed.

Lemma agent_run_budget evs : ∀ p e0 E,
  last_epoch p <= e0 → epochs_from e0 evs → Forall (λ ev, ev_epoch ev <= E) evs →
  let '(p', l) := agent_run p evs in
  spent_total p' = spent_total p + sumN l.*2 ∧
  spent_total p' <= N.max (spent_total p) (budget_total p + refill_per_epoch p * (E - last_epoch p)).
Proof.
  induction evs as [|ev evs IH]; intros p e0 E Hl He HE; [cbn; lia|]. destruct He as [H1 H2]. apply Forall_cons in HE as [HE1 HE2]. cbn [agent_run].
  destruct (agent_step p ev) as [p1 o] eqn:Hs.
  destruct (agent_step_spec p ev p1 o) as (_ & Hrf & _ & Hl1 & Hbud & Ho); [lia|done|].
  specialize (IH p1 (ev_epoch ev) E Hl1 H2 HE2). specialize (Hbud E HE1). rewrite Hrf in IH.
  destruct (agent_run p1 evs) as [p2 l]. destruct IH as [IH1 IH2]. rewrite fmap_app.
  assert (∀ l1 l2, sumN (l1 ++ l2) = sumN l1 + sumN l2) as Happ by (intros l1 l2; induction l1; cbn; lia). rewrite Happ.
  set (X := refill_per_epoch p * (E - last_epoch p)) in *. set (Y := refill_per_epoch p * (E - last_epoch p1)) in *.
  destruct o as [[e v]|].
  - destruct Ho as (_ & _ & _ & _ & Ht & Hb). change ((option_list (Some (e, v))).*2) with [v]. cbn [sumN]. lia.
  - destruct Ho as [Ht _]. change ((option_list (@None (N * Amount))).*2) with (@nil N). cbn [sumN]. lia.
Qed.

(** C13. An agent cannot outspend its policy: over any history of its transactions
    (failed executions, violations and epoch changes in between) the values it
    transfers in one epoch stay within the epoch cap, and all of them together
    stay within what is left of the lifetime budget plus one refill per elapsed
    epoch. *)
Theorem agent_spending_capped p evs e0 E e :
  last_epoch p <= e0 → epochs_from e0 evs → Forall (λ ev, ev_epoch ev <= E) evs →
  let spends := (agent_run p evs).2 in
  spent_in e spends <= per_epoch_cap p ∧
  sumN spends.*2 <= budget_total p + refill_per_epoch p * (E - last_epoch p) - spent_total p.
Proof.
  intros Hl He HE. pose proof (agent_run_capped evs p e0 e Hl He) as Hc. pose proof (agent_run_budget evs p e0 E Hl He HE) as Hb.
  destruct (agent_run p evs) as [p' l]. cbn in *. destruct Hb as [H1 H2]. lia.
Qed.

(** *** Revocation *)

Lemma agent_expired p ev : expiry_epoch p <= ev_epoch ev →
  agent_step p ev = (default p (violation_policy p (ev_epoch ev)), None).
Proof.
  intros H. unfold agent_step, decide_policy, check_permissions. by rewrite (proj2 (N.leb_le _ _) H).
Qed.

Lemma violation_expiry p e : expiry_epoch p <= e → expiry_epoch (default p (violation_policy p e)) <= e.
Proof.
  intros H. unfold violation_policy, epoch_reset. repeat case_match; cbn; lia.
Qed.

Lemma expired_forever evs : ∀ p e0, expiry_epoch p <= e0 → epochs_from e0 evs → (agent_run p evs).2 = [].
Proof.
  induction evs as [|ev evs IH]; intros p e0 H He; [done|]. destruct He as [H1 H2]. cbn. rewrite agent_expired by lia.
  pose proof (IH (default p (violation_policy p (ev_epoch ev))) (ev_epoch ev) (violation_expiry p (ev_epoch ev) ltac:(lia)) H2) as IH'.
  destruct (agent_run _ evs). cbn in *. done.
Qed.

Definition violates (p : AgentPolicy) (ev : AgentEvent) : Prop :=
  ∃ v, decide_policy p (ev_payee ev) (ev_tx ev) (ev_epoch ev) = Err v.
Fixpoint all_violate (p : AgentPolicy) (evs : list AgentEvent) : Prop :=
  match evs with [] => True | ev :: evs => violates p ev ∧ all_violate (agent_step p ev).1 evs end.

Definition violations_at (e : N) (p : AgentPolicy) : N :=
  if e =? last_epoch p then violations_this_epoch (auto_revoke p) else 0.

(** One more violation. *)
Lemma violation_step p e :
  last_epoch p <= e → 0 < max_violations_per_epoch (auto_revoke p) →
  ∃ p', violation_policy p e = Some p' ∧ last_epoch p' = e ∧
    max_violations_per_epoch (auto_revoke p') = max_violations_per_epoch (auto_revoke p) ∧
    violations_at e p' = N.min (violations_at e p + 1) u32_max ∧
    (max_violations_per_epoch (auto_revoke p) <= violations_at e p' → expiry_epoch p' = e).
Proof.
  intros Hl Hm. unfold violation_policy. rewrite (proj2 (N.eqb_neq _ _)) by lia. eexists. split; [done|].
  unfold violations_at, epoch_reset. destruct (N.ltb_spec (last_epoch p) e); cbn.
  - rewrite N.eqb_refl, (proj2 (N.eqb_neq e (last_epoch p))) by lia. split_and!; try done. intros Hle.
    by rewrite (proj2 (N.leb_le _ _) Hle).
  - assert (last_epoch p = e) as -> by lia. rewrite N.eqb_refl. split_and!; try done. intros Hle.
    by rewrite (proj2 (N.leb_le _ _) Hle).
Qed.

Lemma violations_revoke_aux e vs : ∀ p,
  last_epoch p <= e → 0 < max_violations_per_epoch (auto_revoke p) → max_violations_per_epoch (auto_revoke p) <= u32_max →
  violations_at e p < max_violations_per_epoch (auto_revoke p) ∨ expiry_epoch p <= e →
  max_violations_per_epoch (auto_revoke p) <= violations_at e p + N.of_nat (length vs) →
  Forall (λ ev, ev_epoch ev = e) vs → all_violate p vs →
  expiry_epoch (agent_run p vs).1 <= e.
Proof.
  induction vs as [|ev vs IH]; intros p Hl Hm Hu Hc Hlen Hev Hv; [cbn in *; lia|].
  apply Forall_cons in Hev as [<- Hev]. destruct Hv as [[v Hd] Hv]. cbn.
  destruct (violation_step p (ev_epoch ev) Hl Hm) as (p1 & Hp1 & H1 & H2 & H3 & H4).
  assert (agent_step p ev = (p1, None)) as Hs by (unfold agent_step; by rewrite Hd, Hp1).
  rewrite Hs in *. cbn in Hv. specialize (IH p1). destruct (agent_run p1 vs) as [p2 l]. cbn in *. apply IH; [lia|lia|lia| |lia|done..].
  rewrite H2. destruct Hc as [Hc|Hc].
  - destruct (decide (max_violations_per_epoch (auto_revoke p) <= violations_at (ev_epoch ev) p1)) as [Hle|]; [right; rewrite H4 by done; lia|left; lia].
  - right. pose proof (violation_expiry p _ Hc) as He. by rewrite Hp1 in He.
Qed.

Lemma agent_run_app p l1 l2 :
  agent_run p (l1 ++ l2) = let '(p1, r1) := agent_run p l1 in let '(p2, r2) := agent_run p1 l2 in (p2, r1 ++ r2).
Proof.
  revert p. induction l1 as [|ev l1 IH]; intros p; cbn; [by destruct (agent_run p l2)|].
  destruct (agent_step p ev) as [p1 o]. rewrite IH. destruct (agent_run p1 l1) as [p2 r1]. destruct (agent_run p2 l2). by rewrite app_assoc.
Qed.

Lemma all_violate_spends p vs : all_violate p vs → (agent_run p vs).2 = [].
Proof.
  revert p. induction vs as [|ev vs IH]; intros p Hv; [done|]. destruct Hv as [[v Hd] Hv]. cbn.
  unfold agent_step in *. rewrite Hd in *. cbn in Hv. specialize (IH _ Hv). by destruct (agent_run _ vs).
Qed.

(** Dead-man's switch: once a policy with a limit of [k] violations per epoch
    has seen [k] of them in one epoch, it is spent: no transaction of that epoch
    or of a later one is approved any more. *)
Theorem violations_revoke p e vs evs :
  last_epoch p <= e → 0 < max_violations_per_epoch (auto_revoke p) → max_violations_per_epoch (auto_revoke p) <= u32_max →
  violations_this_epoch (auto_revoke p) < max_violations_per_epoch (auto_revoke p) →
  N.of_nat (length vs) = max_violations_per_epoch (auto_revoke p) →
  Forall (λ ev, ev_epoch ev = e) vs → all_violate p vs → epochs_from e evs →
  (agent_run p (vs ++ evs)).2 = [].
Proof.
  intros Hl Hm Hu Hc Hlen Hev Hv He. rewrite agent_run_app. pose proof (all_violate_spends p vs Hv) as Hr.
  assert (expiry_epoch (agent_run p vs).1 <= e) as Hx.
  { apply violations_revoke_aux; try done; [|lia]. left. unfold violations_at. case_match; lia. }
  destruct (agent_run p vs) as [p1 r1]. cbn in *. subst r1.
  pose proof (expired_forever evs p1 e Hx He) as Hf. destruct (agent_run p1 evs). done.
Qed.
