(* ===== verification/Host.v ===== *)
(** * The host side of contract execution ([lemma-vm/src/host.rs],
      [executor/linker.rs])

    Call depth and reentrancy tracking, the host functions with their gas
    charges, guest memory access and cross-contract calls.  The WebAssembly
    engine is a parameter. *)
From stdpp Require Import strings.
From S2P Require Import Prelude CoreTypes DagBlock Fee Transaction Db Crypto VmState VmGas Scratch.

Definition MAX_CALL_DEPTH : N := 64.

Record BlockContext := {
  bc_height : N;
  bc_timestamp : N;
  bc_msg_sender : Address;
  bc_msg_value : Amount;
  bc_tx_origin : Address;
  bc_contract : Address;
  bc_epoch : N;
  bc_active_features : gset N;
}.
Definition with_frame (b : BlockContext) (contract msg_sender : Address) : BlockContext :=
  {| bc_height := bc_height b; bc_timestamp := bc_timestamp b; bc_msg_sender := msg_sender; bc_msg_value := bc_msg_value b;
     bc_tx_origin := bc_tx_origin b; bc_contract := contract; bc_epoch := bc_epoch b; bc_active_features := bc_active_features b |}.

(** ** [CallContext] *)

Record CallContext := { cc_depth : N; cc_active : gset Address }.
Definition CallContext_new : CallContext := {| cc_depth := 0; cc_active := ∅ |}.
Definition enter_call (self : CallContext) (callee : Address) : result VmError CallContext :=
  if MAX_CALL_DEPTH <=? cc_depth self then Err CallDepthExceeded else
  if bool_decide (callee ∈ cc_active self) then Err (Reentrancy callee) else
  Ok {| cc_depth := cc_depth self + 1; cc_active := {[callee]} ∪ cc_active self |}.
Definition exit_call (self : CallContext) (callee : Address) : CallContext :=
  {| cc_depth := saturating_sub (cc_depth self) 1; cc_active := cc_active self ∖ {[callee]} |}.

(** ** [HostState] *)

Record HostState (S : Type) := {
  h_meter : FuelMeter;
  h_schedule : GasSchedule;
  h_call_ctx : CallContext;
  h_block : BlockContext;
  h_state : S;
  h_events : list Log;
  h_warm_keys : gset (Address * bytes);
  h_registers : gmap N bytes;
  h_calldata : bytes;
  h_return_data : bytes;
}.
Arguments h_meter {S} _.
Arguments h_schedule {S} _.
Arguments h_call_ctx {S} _.
Arguments h_block {S} _.
Arguments h_state {S} _.
Arguments h_events {S} _.
Arguments h_warm_keys {S} _.
Arguments h_registers {S} _.
Arguments h_calldata {S} _.
Arguments h_return_data {S} _.

Section host.
Context {S : Type} `{!ContractStateView S}.

Definition HostState_new (meter : FuelMeter) (schedule : GasSchedule) (call_ctx : CallContext) (block : BlockContext)
    (state : S) (calldata : bytes) : HostState S :=
  {| h_meter := meter; h_schedule := schedule; h_call_ctx := call_ctx; h_block := block; h_state := state; h_events := [];
     h_warm_keys := ∅; h_registers := ∅; h_calldata := calldata; h_return_data := [] |}.

Definition set_host (h : HostState S) (meter : FuelMeter) (ctx : CallContext) (state : S) (events : list Log)
    (warm : gset (Address * bytes)) (registers : gmap N bytes) : HostState S :=
  {| h_meter := meter; h_schedule := h_schedule h; h_call_ctx := ctx; h_block := h_block h; h_state := state;
     h_events := events; h_warm_keys := warm; h_registers := registers; h_calldata := h_calldata h;
     h_return_data := h_return_data h |}.
Definition set_meter (h : HostState S) (m : FuelMeter) : HostState S :=
  set_host h m (h_call_ctx h) (h_state h) (h_events h) (h_warm_keys h) (h_registers h).
Definition set_ctx (h : HostState S) (c : CallContext) : HostState S :=
  set_host h (h_meter h) c (h_state h) (h_events h) (h_warm_keys h) (h_registers h).
Definition set_state (h : HostState S) (s : S) : HostState S :=
  set_host h (h_meter h) (h_call_ctx h) s (h_events h) (h_warm_keys h) (h_registers h).
Definition set_events (h : HostState S) (l : list Log) : HostState S :=
  set_host h (h_meter h) (h_call_ctx h) (h_state h) l (h_warm_keys h) (h_registers h).
Definition set_registers (h : HostState S) (r : gmap N bytes) : HostState S :=
  set_host h (h_meter h) (h_call_ctx h) (h_state h) (h_events h) (h_warm_keys h) r.

Definition is_warm (h : HostState S) (contract : Address) (key : bytes) : bool :=
  bool_decide ((contract, key) ∈ h_warm_keys h).
Definition mark_warm (h : HostState S) (contract : Address) (key : bytes) : HostState S :=
  set_host h (h_meter h) (h_call_ctx h) (h_state h) (h_events h) ({[(contract, key)]} ∪ h_warm_keys h) (h_registers h).

(** ** [HostFunctions].  A function returns the state with its result, so that an
    error keeps what was done before it. *)

(** [self.meter.charge(cost)?] *)
Definition charging {A} (h : HostState S) (cost : Gas) (k : HostState S → HostState S * result VmError A)
    : HostState S * result VmError A :=
  match charge (h_meter h) cost with Ok m => k (set_meter h m) | Err e => (h, Err e) end.
Definition charging_bytes {A} (h : HostState S) (base per_byte : Gas) (len : nat) (k : HostState S → HostState S * result VmError A)
    : HostState S * result VmError A :=
  match charge_per_byte (h_meter h) base per_byte (N.of_nat len) with Ok m => k (set_meter h m) | Err e => (h, Err e) end.

Definition storage_read (h : HostState S) (key : bytes) : HostState S * result VmError (option bytes) :=
  let contract := bc_contract (h_block h) in
  let cost := if is_warm h contract key then storage_read_warm (h_schedule h) else storage_read_cold (h_schedule h) in
  charging h cost (λ h,
    let h := mark_warm h contract key in
    let '(s, r) := sv_read (h_state h) contract key in (set_state h s, Ok r)).

Definition storage_write (h : HostState S) (key value : bytes) : HostState S * result VmError () :=
  let contract := bc_contract (h_block h) in
  let '(s, ex) := sv_exists (h_state h) contract key in
  let h := set_state h s in
  let cost := if ex : bool then storage_write_update (h_schedule h) else storage_write_create (h_schedule h) in
  charging h cost (λ h, (mark_warm (set_state h (sv_write (h_state h) contract key value)) contract key, Ok ())).

Definition storage_delete_fn (h : HostState S) (key : bytes) : HostState S * result VmError () :=
  let contract := bc_contract (h_block h) in
  charging h (storage_delete (h_schedule h)) (λ h,
    let h := set_state h (sv_delete (h_state h) contract key) in
    let h := set_meter h (refund (h_meter h) (storage_delete_refund (h_schedule h))) in
    (mark_warm h contract key, Ok ())).

Definition host_transfer (h : HostState S) (dest : Address) (amount : Amount) : HostState S * result VmError () :=
  charging h (call_value_transfer (h_schedule h)) (λ h,
    let from := bc_contract (h_block h) in
    let '(s, from_balance) := sv_balance (h_state h) from in
    let h := set_state h s in
    match Amount_checked_sub from_balance amount with
    | Err _ => (h, Err (InsufficientFunds amount from_balance))
    | Ok new_from =>
        let s := sv_set_balance (h_state h) from new_from in
        let '(s, to_balance) := sv_balance s dest in
        match Amount_checked_add to_balance amount with
        | Err _ => (set_state h (sv_set_balance s from from_balance), Err InvalidParameter)
        | Ok new_to => (set_state h (sv_set_balance s dest new_to), Ok ())
        end
    end).

Definition host_balance_of (h : HostState S) (addr : Address) : HostState S * result VmError Amount :=
  charging h (storage_read_cold (h_schedule h)) (λ h,
    let '(s, b) := sv_balance (h_state h) addr in (set_state h s, Ok b)).

Definition hash_blake3 (blake3 : bytes → Hash) (h : HostState S) (d : bytes) : HostState S * result VmError Hash :=
  charging_bytes h (hash_blake3_base (h_schedule h)) (hash_blake3_per_byte (h_schedule h)) (length d) (λ h, (h, Ok (hash_bytes blake3 d))).
Definition hash_keccak256 (keccak256 : bytes → Hash) (h : HostState S) (d : bytes) : HostState S * result VmError Hash :=
  charging_bytes h (hash_keccak256_base (h_schedule h)) (hash_keccak256_per_byte (h_schedule h)) (length d) (λ h, (h, Ok (keccak256 d))).

Definition verify_signature `{!Hybrid65, !Codec PublicKey, !Codec HybridSignature} (h : HostState S) (pubkey msg sig : bytes)
    : HostState S * result VmError bool :=
  match Gas_checked_add (verify_ed25519 (h_schedule h)) (verify_mldsa65 (h_schedule h)) with
  | None => (h, Err OutOfGas)
  | Some hybrid_cost =>
      charging h hybrid_cost (λ h,
        (h, pk ← map_err (λ _, InvalidParameter) (deserialize pubkey);
            hybrid_sig ← map_err (λ _, InvalidParameter) (deserialize sig);
            Ok (is_ok (verify_hybrid pk msg hybrid_sig))))
  end.

Definition emit_event (h : HostState S) (topics : list Hash) (d : bytes) : HostState S * result VmError () :=
  charging_bytes h (emit_event_base (h_schedule h)) (emit_event_per_byte (h_schedule h)) (length d) (λ h,
    (set_events h (h_events h ++ [Log_new (bc_contract (h_block h)) topics d]), Ok ())).

(** [call_contract] of the trait: it charges for the call and returns no data;
    the linker dispatches the call itself. *)
Definition call_contract (h : HostState S) (addr : Address) (gas : Gas) : HostState S * result VmError bytes :=
  match enter_call (h_call_ctx h) addr with
  | Err e => (h, Err e)
  | Ok ctx =>
      let h := set_ctx h ctx in
      let leave h := set_ctx h (exit_call (h_call_ctx h) addr) in
      match charge (h_meter h) (call_base (h_schedule h)) with
      | Err e => (leave h, Err e)
      | Ok m =>
          let h := set_meter h m in
          match charge m (N.min gas (meter_forwardable m)) with
          | Err e => (leave h, Err e)
          | Ok m => (leave (set_meter h m), Ok [])
          end
      end
  end.

(** ** Guest memory *)

Definition charge_fuel (fuel cost : N) : option N := checked_sub fuel cost.
Definition read_guest_bytes (h : HostState S) (fuel : N) (mem : bytes) (ptr len : N) : N * option bytes :=
  match checked_mul u64_max (memory_copy_per_byte (h_schedule h)) len with
  | None => (fuel, None)
  | Some copy_cost =>
      match charge_fuel fuel copy_cost with
      | None => (fuel, None)
      | Some fuel => (fuel, if ptr + len <=? N.of_nat (length mem) then Some (take (N.to_nat len) (drop (N.to_nat ptr) mem)) else None)
      end
  end.
End host.

(** ** Cross-contract calls *)

Inductive CallMode := CallNormal | CallStatic | CallDelegate.

(** The engine: compilation, exports, instantiation (which may run a start
    function) and a run of an entry point, both on the fuel of the store, ending
    in a trap or with the fuel left and the host state after it. *)
Class Engine := {
  Module_ : Type;
  compile_module : bytes → result VmError Module_;
  has_func_export : Module_ → string → bool;
  has_typed_func : Module_ → string → bool;
  instantiate : ∀ {S} `{!ContractStateView S}, Module_ → Gas → HostState S → result VmError (Gas * HostState S);
  wasm_run : ∀ {S} `{!ContractStateView S}, Module_ → string → Gas → HostState S → result VmError (Gas * HostState S);
}.

Definition CURRENT_HOST_ABI_VERSION : N := 1.
Definition MAX_SUPPORTED_HOST_ABI : N := CURRENT_HOST_ABI_VERSION.
Definition build_linker_for_abi (abi : N) : result VmError () :=
  if abi =? 1 then Ok () else Err (UnsupportedHostAbi abi MAX_SUPPORTED_HOST_ABI).

Definition ENTRY_POINT : string := "call".
Definition INIT_ENTRY_POINT : string := "init".

Section calls.
Context `{!Engine}.
Context {S : Type} `{!ContractStateView S}.

(** [run_wasm_call]: a module without the entry point is an error. *)
Definition run_wasm_call (abi : N) (module : Module_) (host : HostState S) : result VmError (Gas * HostState S) :=
  let initial_fuel := remaining (h_meter host) in
  _ ← build_linker_for_abi abi;
  '(fuel, host) ← instantiate module initial_fuel host;
  if negb (has_typed_func module ENTRY_POINT) then Err InstantiationFailed else
  '(fuel_remaining, host) ← wasm_run module ENTRY_POINT fuel host;
  Ok (saturating_sub initial_fuel fuel_remaining, host).

(** [run_wasm_with_entry]: a module without the entry point does nothing more. *)
Definition run_wasm_with_entry (abi : N) (module : Module_) (host : HostState S) (entry_point : string)
    : result VmError (Gas * HostState S) :=
  let initial_fuel := remaining (h_meter host) in
  _ ← build_linker_for_abi abi;
  '(fuel, host) ← instantiate module initial_fuel host;
  if negb (has_typed_func module entry_point) then Ok (0, host) else
  '(fuel_remaining, host) ← wasm_run module entry_point fuel host;
  Ok (saturating_sub initial_fuel fuel_remaining, host).
End calls.

Section dispatch.
Context `{!Engine} (parse_host_abi : bytes → N).
Context {S : Type} `{!ContractStateView S}.

Definition unwind_call (h : HostState (ScratchSnapshot S)) (addr : Address) : HostState (ScratchSnapshot S) * Gas :=
  let h := set_ctx h (exit_call (h_call_ctx h) addr) in (h, remaining (h_meter h)).

(** [dispatch_call] after the address has been read from guest memory; the
    result is the new state and fuel, and the register or -1, or a trap. *)
Definition dispatch_call (h : HostState (ScratchSnapshot S)) (fuel : Gas) (addr : Address) (data_reg gas : N) (mode : CallMode)
    : HostState (ScratchSnapshot S) * Gas * result () (option N) :=
  let calldata := default [] (h_registers h !! data_reg) in
  let h := set_meter h (set_remaining (h_meter h) fuel) in
  match enter_call (h_call_ctx h) addr with
  | Err _ => (h, remaining (h_meter h), Err ())
  | Ok ctx =>
      let h := set_ctx h ctx in
      match charge (h_meter h) (call_base (h_schedule h)) with
      | Err _ => (unwind_call h addr, Err ())
      | Ok m =>
          let h := set_meter h m in
          let to_callee := N.min gas (meter_forwardable m) in
          match charge m to_callee with
          | Err _ => (unwind_call h addr, Err ())
          | Ok m =>
              let h := set_meter h m in
              let '(s, code) := sv_code (h_state h) addr in
              let h := set_state h s in
              match code with
              | None => (unwind_call h addr, Ok None)
              | Some bytecode =>
                  match compile_module bytecode with
                  | Err _ => (unwind_call h addr, Err ())
                  | Ok module =>
                      let callee_block :=
                        match mode with
                        | CallNormal | CallStatic => with_frame (h_block h) addr (bc_contract (h_block h))
                        | CallDelegate => h_block h
                        end in
                      let callee_host := HostState_new (FuelMeter_new to_callee) (h_schedule h) (h_call_ctx h) callee_block (h_state h) calldata in
                      match run_wasm_call (parse_host_abi bytecode) module callee_host with
                      | Err _ => (unwind_call h addr, Ok None)
                      | Ok (_, callee_after) =>
                          let h := match mode with
                            | CallStatic => h
                            | CallNormal | CallDelegate =>
                                set_events (set_state h (merge_into (h_state callee_after) (h_state h))) (h_events h ++ h_events callee_after)
                            end in
                          let h := set_registers h (<[0 := h_return_data callee_after]> (h_registers h)) in
                          (unwind_call h addr, Ok (Some 0))
                      end
                  end
              end
          end
      end
  end.
End dispatch.

(** ** Call depth and reentrancy *)

(** The contracts with a live frame, the innermost first, and the context the
    innermost one runs with; the outermost one is the contract the transaction
    calls, which starts from a new context. *)
Inductive live : list Address → CallContext → Prop :=
  | live_entry c : live [c] CallContext_new
  | live_call frames ctx callee ctx' :
      live frames ctx → enter_call ctx callee = Ok ctx' → live (callee :: frames) ctx'.

Lemma enter_call_Ok ctx a ctx' :
  enter_call ctx a = Ok ctx' ↔
    cc_depth ctx < MAX_CALL_DEPTH ∧ a ∉ cc_active ctx ∧ ctx' = {| cc_depth := cc_depth ctx + 1; cc_active := {[a]} ∪ cc_active ctx |}.
Proof.
  unfold enter_call. destruct (N.leb_spec MAX_CALL_DEPTH (cc_depth ctx)); [naive_solver lia|].
  case_bool_decide; naive_solver.
Qed.

Lemma exit_enter ctx a ctx' : enter_call ctx a = Ok ctx' → exit_call ctx' a = ctx.
Proof.
  intros (_ & Hn & ->)%enter_call_Ok. destruct ctx as [d act]. unfold exit_call. cbn in *. f_equal; [unfold saturating_sub; lia|set_solver].
Qed.

Lemma live_frames frames ctx : live frames ctx →
  ∃ entry called, frames = called ++ [entry] ∧ NoDup called ∧ cc_active ctx = list_to_set called ∧
    cc_depth ctx = N.of_nat (length called) ∧ (length called <= N.to_nat MAX_CALL_DEPTH)%nat.
Proof.
  induction 1 as [c|frames ctx callee ctx' _ IH He].
  - exists c, []. split_and!; [done|constructor|done|done|cbn; lia].
  - destruct IH as (entry & called & -> & Hnd & Ha & Hd & Hl). apply enter_call_Ok in He as (Hlt & Hn & ->).
    exists entry, (callee :: called). cbn. rewrite Ha in Hn. split_and!; [done|constructor; [set_solver|done]|by rewrite Ha|lia|lia].
Qed.

(** The call context bounds the depth and forbids re-entering a contract that
    was called: in every call chain the callees are pairwise different, at most
    64, recorded exactly in the context, and leaving a call restores the context
    it was entered with. *)
Theorem call_chain_guarded frames ctx :
  live frames ctx →
  (∃ entry called, frames = called ++ [entry] ∧ NoDup called ∧ cc_active ctx = list_to_set called ∧
     cc_depth ctx = N.of_nat (length called) ∧ (length called <= 64)%nat) ∧
  ∀ callee ctx', enter_call ctx callee = Ok ctx' → exit_call ctx' callee = ctx.
Proof. intros H. split; [exact (live_frames _ _ H)|]. intros callee ctx'. apply exit_enter. Qed.

(** The contract a transaction calls is never recorded as live: it can be
    re-entered once by a contract it calls, with two frames of it on the stack. *)
Theorem entry_contract_reentrant a b : a ≠ b → ∃ ctx, live [a; b; a] ctx.
Proof.
  intros Hab. eexists. eapply live_call; [eapply live_call; [apply live_entry|]|]; apply enter_call_Ok; cbn.
  - split_and!; [done|set_solver|done].
  - split_and!; [done|set_solver|done].
Qed.

(** ** What a cross-contract call does to its caller *)

#[local] Opaque snapshot_view.

Section dispatch_spec.
Context `{!Engine} (parse_host_abi : bytes → N).
Context {S : Type} `{!ContractStateView S}.

(** A cross-contract call leaves the caller's call context as it was and never
    leaves it more fuel than it had; a static call leaves its storage, balances
    and events as they were (its state view differs at most by a code lookup),
    and a call whose callee fails does so too. *)
Theorem dispatch_call_frame (h : HostState (ScratchSnapshot S)) fuel addr reg gas mode h' fuel' r :
  dispatch_call parse_host_abi h fuel addr reg gas mode = (h', fuel', r) →
  h_call_ctx h' = h_call_ctx h ∧ fuel' <= fuel ∧ h_block h' = h_block h ∧
  (mode = CallStatic ∨ r ≠ Ok (Some 0) → h_events h' = h_events h ∧
     (h_state h' = h_state h ∨ h_state h' = (sv_code (h_state h) addr).1)).
Proof.
  unfold dispatch_call. cbn. destruct (enter_call (h_call_ctx h) addr) as [ctx|e] eqn:He.
  - pose proof (exit_enter _ _ _ He) as Hx. unfold unwind_call.
    destruct (charge _ (call_base _)) as [m1|e1] eqn:Hc1; cbn; [|intros E; injection E as <- <- <-; cbn; rewrite Hx; split_and!; auto; lia].
    apply charge_Ok in Hc1 as [Hle1 ->]. cbn in Hle1. cbn.
    destruct (charge _ (N.min gas _)) as [m2|e2] eqn:Hc2; cbn; [|intros E; injection E as <- <- <-; cbn; rewrite Hx; split_and!; auto; lia].
    apply charge_Ok in Hc2 as [Hle2 ->]. cbn in Hle2. 
    destruct (sv_code (h_state h) addr) as [s code] eqn:Hs. cbn.
    destruct code as [bytecode|]; cbn; [|intros E; injection E as <- <- <-; cbn; rewrite Hx; split_and!; auto; lia].
    destruct (compile_module bytecode) as [module|e3]; cbn; [|intros E; injection E as <- <- <-; cbn; rewrite Hx; split_and!; auto; lia].
    destruct (run_wasm_call _ _ _) as [[gas' callee]|e4]; cbn; [|intros E; injection E as <- <- <-; cbn; rewrite Hx; split_and!; auto; lia].
    intros E; injection E as <- <- <-. destruct mode; cbn; rewrite Hx; split_and!; auto; try lia; intros [?|?]; done.
  - cbn. intros E; injection E as <- <- <-. cbn. split_and!; auto; lia.
Qed.
End dispatch_spec.
