(* ===== verification/Executor.v ===== *)
(** * The transaction executor ([lemma-vm/src/executor.rs], [executor/deploy.rs],
      [executor/call.rs], [executor/settle.rs])

    [execute_transaction] with its intrinsic charge, the agent check, the three
    kinds of execution and the settlement.  The executor's two shared caches are
    explicit state.  Module metadata ([lemma.meta], read by wasmparser and
    serde_json) is a parameter. *)
From stdpp Require Import strings.
From S2P Require Import Prelude CoreTypes DagBlock Fee Transaction Db Crypto VmState VmGas Scratch SafetyManifest Agent Warden WardenSpec Host.

Definition MAX_CONTRACT_WASM_SIZE : N := 2 * 1024 * 1024.
Definition ITOKEN_EXPORTS : list string := ["transfer"; "transferFrom"; "balanceOf"; "approve"]%string.

(** The parts of [RawContractMetadata] the executor uses. *)
Record RawContractMetadata := { raw_safety_constraints : option (list SafetyConstraint); raw_host_abi : option N }.

Record ExecutorCaches := { warm_code : gset Hash; safety_manifests : gmap Address SafetyManifest }.
Definition ExecutorCaches_new : ExecutorCaches := {| warm_code := ∅; safety_manifests := ∅ |}.

(** The last eight bytes of the preimage are the nonce, big-endian. *)
Definition Address_from_deployer (blake3 : bytes → Hash) (deployer : Address) (nonce : N) : Address :=
  blake3 (Address_as_bytes deployer ++ be_bytes 8 nonce) / 2 ^ 96.

(** The JSON text of a token's registry entry; 34 is the quotation mark. *)
Definition hex_digit (n : N) : N := if n <? 10 then 48 + n else 87 + n.
Definition hex_of (b : bytes) : bytes := b ≫= λ x, [hex_digit (x / 16); hex_digit (x mod 16)].
Definition registry_metadata (a : Address) : bytes :=
  [123; 34] ++ ascii_bytes "address" ++ [34; 58; 34] ++ hex_of (Address_as_bytes a) ++ [34; 44; 34] ++
  ascii_bytes "is_token" ++ [34; 58] ++ ascii_bytes "true" ++ [125].

Section executor.
Context (blake3 : bytes → Hash) (schedule : GasSchedule) `{!Engine}.
Context (find_lemma_meta_section : bytes → option bytes).
Context `{!Codec RawContractMetadata, !Codec AgentPolicy, !Codec AgentIdentity, !Codec MandateReceipt}.

Definition parse_safety_manifest (wasm : bytes) : SafetyManifest :=
  match find_lemma_meta_section wasm with
  | None => SafetyManifest_default
  | Some payload =>
      match deserialize payload with
      | Err _ => SafetyManifest_default
      | Ok raw => match raw_safety_constraints raw with Some cs => {| constraints := cs |} | None => SafetyManifest_default end
      end
  end.

Definition parse_host_abi (wasm : bytes) : N :=
  match find_lemma_meta_section wasm with
  | None => 1
  | Some payload => match deserialize payload with Err _ => 1 | Ok raw => default 1 (raw_host_abi raw) end
  end.

Context {S : Type} `{!ContractStateView S}.

Notation ExecResult := (result VmError (list Log) * option (Address * SafetyManifest))%type (only parsing).

Definition intrinsic_gas (tx : Transaction) : Gas :=
  let tmp := FuelMeter_new u64_max in
  let tmp := match charge_per_byte tmp (tx_base schedule) (tx_calldata_per_byte schedule) (N.of_nat (length (data tx))) with
             | Ok m => m | Err _ => tmp end in
  saturating_sub u64_max (remaining tmp).

(** ** Transfers *)

Definition execute_transfer (tx : Transaction) (scratch : ScratchState S) (meter : FuelMeter)
    : ScratchState S * FuelMeter * result VmError (list Log) :=
  match charge meter (call_value_transfer schedule) with
  | Err e => (scratch, meter, Err e)
  | Ok meter =>
      match to tx with
      | None => (scratch, meter, Err InvalidParameter)
      | Some dest =>
          let '(scratch, from_balance) := sv_balance scratch (sender tx) in
          match Amount_checked_sub from_balance (value tx) with
          | Err _ => (scratch, meter, Err (InsufficientFunds (value tx) from_balance))
          | Ok new_from =>
              let scratch := sv_set_balance scratch (sender tx) new_from in
              let '(scratch, to_balance) := sv_balance scratch dest in
              match Amount_checked_add to_balance (value tx) with
              | Ok new_to => (sv_set_balance scratch dest new_to, meter, Ok [])
              | Err _ => (sv_set_balance scratch (sender tx) from_balance, meter, Err InvalidParameter)
              end
          end
      end
  end.

(** ** Deployments *)

(** The registry entry of a token. *)
Definition try_write_registry_entry (module : Module_) (contract_addr : Address) (scratch : ScratchState S) : ScratchState S :=
  if existsb (has_func_export module) ITOKEN_EXPORTS then
    let registry_addr := Address_registry blake3 in
    sv_write scratch registry_addr (Address_as_bytes registry_addr ++ Address_as_bytes contract_addr) (registry_metadata contract_addr)
  else scratch.

(** [let _ = meter.charge(cost)] *)
Definition charge_quietly (meter : FuelMeter) (cost : Gas) : FuelMeter :=
  match charge meter cost with Ok m => m | Err _ => meter end.

Definition deploy_charge (meter : FuelMeter) (is_first_deployer : bool) (len : N) : result VmError FuelMeter :=
  if is_first_deployer then charge_per_byte meter (deploy_base schedule) (deploy_storage_per_byte schedule) len
  else charge meter (deploy_base schedule).

Definition charge_invariants (meter : FuelMeter) (manifest : SafetyManifest) : result VmError FuelMeter :=
  if bool_decide (constraints manifest = []) then Ok meter else charge meter (invariant_check schedule).

Definition execute_deploy (caches : ExecutorCaches) (tx : Transaction) (block : BlockContext) (scratch : ScratchState S) (meter : FuelMeter)
    : ExecutorCaches * ScratchState S * FuelMeter * ExecResult :=
  let len := N.of_nat (length (data tx)) in
  if MAX_CONTRACT_WASM_SIZE <? len then (caches, scratch, meter, (Err (ContractTooLarge len MAX_CONTRACT_WASM_SIZE), None)) else
  let code_hash := hash_bytes blake3 (data tx) in
  let '(scratch, current_nonce) := sv_nonce scratch (sender tx) in
  let contract_addr := Address_from_deployer blake3 (sender tx) current_nonce in
  let '(scratch, code) := sv_code scratch contract_addr in
  if bool_decide (is_Some code) then (caches, scratch, meter, (Err InvalidParameter, None)) else
  match compile_module (data tx) with
  | Err e => (caches, scratch, meter, (Err e, None))
  | Ok module =>
      let host_abi := parse_host_abi (data tx) in
      if MAX_SUPPORTED_HOST_ABI <? host_abi
      then (caches, scratch, meter, (Err (UnsupportedHostAbi host_abi MAX_SUPPORTED_HOST_ABI), None)) else
      match deploy_charge meter (negb (sv_has_code_hash scratch code_hash)) len with
      | Err e => (caches, scratch, meter, (Err e, None))
      | Ok meter =>
          let scratch := put_code_content scratch code_hash (data tx) in
          let scratch := set_code_hash_ptr scratch contract_addr code_hash in
          let init_host := HostState_new (FuelMeter_new (remaining meter)) schedule CallContext_new
            (with_frame block contract_addr (sender tx)) (snapshot scratch) [] in
          match run_wasm_with_entry host_abi module init_host INIT_ENTRY_POINT with
          | Err e => (caches, scratch, meter, (Err e, None))
          | Ok (init_consumed, init_host_after) =>
              let scratch := merge_snapshot scratch (h_state init_host_after) in
              let meter := charge_quietly meter init_consumed in
              let scratch := try_write_registry_entry module contract_addr scratch in
              let manifest := parse_safety_manifest (data tx) in
              match charge_invariants meter manifest with
              | Err e => (caches, scratch, meter, (Err e, Some (contract_addr, manifest)))
              | Ok meter =>
                  let caches := {| warm_code := warm_code caches; safety_manifests := <[contract_addr := manifest]> (safety_manifests caches) |} in
                  (caches, scratch, meter, (Ok [], Some (contract_addr, manifest)))
              end
          end
      end
  end.

(** ** Calls *)

Definition execute_call (caches : ExecutorCaches) (tx : Transaction) (block : BlockContext) (scratch : ScratchState S) (meter : FuelMeter)
    : ExecutorCaches * ScratchState S * FuelMeter * ExecResult :=
  match to tx with
  | None => (caches, scratch, meter, (Err InvalidParameter, None))
  | Some contract_addr =>
      let '(scratch, code) := resolve_code scratch contract_addr in
      match code with
      | None => (caches, scratch, meter, (Err InvalidParameter, None))
      | Some bytecode =>
          let host_abi := parse_host_abi bytecode in
          let code_hash := hash_bytes blake3 bytecode in
          let manifest := default (parse_safety_manifest bytecode) (safety_manifests caches !! contract_addr) in
          let caches := {| warm_code := warm_code caches; safety_manifests := <[contract_addr := manifest]> (safety_manifests caches) |} in
          let m := Some (contract_addr, manifest) in
          match charge_invariants meter manifest with
          | Err e => (caches, scratch, meter, (Err e, m))
          | Ok meter =>
              let cold := bool_decide (code_hash ∉ warm_code caches) in
              let caches := {| warm_code := {[code_hash]} ∪ warm_code caches; safety_manifests := safety_manifests caches |} in
              match (if cold then charge meter (code_cold_surcharge schedule) else Ok meter) with
              | Err e => (caches, scratch, meter, (Err e, m))
              | Ok meter =>
                  match compile_module bytecode with
                  | Err e => (caches, scratch, meter, (Err e, m))
                  | Ok module =>
                      let host := HostState_new (FuelMeter_new (remaining meter)) schedule CallContext_new
                        (with_frame block contract_addr (bc_msg_sender block)) (snapshot scratch) (data tx) in
                      match run_wasm_with_entry host_abi module host ENTRY_POINT with
                      | Err e => (caches, scratch, meter, (Err e, m))
                      | Ok (wasm_consumed, host_after) =>
                          if (wasm_consumed =? 0) && negb (has_func_export module ENTRY_POINT)
                          then (caches, scratch, meter, (Err InstantiationFailed, m)) else
                          let scratch := merge_snapshot scratch (h_state host_after) in
                          let meter := charge_quietly meter wasm_consumed in
                          (caches, scratch, meter, (Ok (h_events host_after), m))
                      end
                  end
              end
          end
      end
  end.

(** ** Settlement *)

Definition bump_nonce (s : S) (a : Address) : S :=
  let '(s, current_nonce) := sv_nonce s a in sv_set_nonce s a (saturating_add u64_max current_nonce 1).

Definition clamped_gas (tx : Transaction) (meter : FuelMeter) : N :=
  N.min (default 0 (gas_used (tx_gas_limit tx) (remaining meter))) (tx_gas_limit tx).

Definition failed_receipt (tx : Transaction) (gas : N) : TransactionReceipt := TransactionReceipt_new (tx_hash tx) false gas [].

Definition settle (tx : Transaction) (res : result VmError (list Log)) (manifest : option (Address * SafetyManifest))
    (mandate_log : option Log) (scratch : ScratchState S) (meter : FuelMeter) : S * TransactionReceipt :=
  let gas := clamped_gas tx meter in
  match res with
  | Ok logs =>
      let '(s, checked) :=
        match manifest with
        | Some (contract_addr, m) =>
            if bool_decide (constraints m = []) then (inner scratch, Ok ())
            else validate_safety_invariants m contract_addr (storage_writes scratch) (inner scratch)
        | None => (inner scratch, Ok ())
        end in
      let scratch := set_inner scratch s in
      match checked with
      | Err _ => (bump_nonce (discard scratch) (sender tx), failed_receipt tx gas)
      | Ok _ => (commit_with_nonce scratch (sender tx), TransactionReceipt_new (tx_hash tx) true gas (option_list mandate_log ++ logs))
      end
  | Err _ => (bump_nonce (discard scratch) (sender tx), failed_receipt tx gas)
  end.

Definition fail_before_execution (tx : Transaction) (scratch : ScratchState S) (meter : FuelMeter) : S * TransactionReceipt :=
  (bump_nonce (discard scratch) (sender tx), failed_receipt tx (clamped_gas tx meter)).

(** The execution proper, by transaction type. *)
Definition execute_body (caches : ExecutorCaches) (tx : Transaction) (block : BlockContext) (mandate_log : option Log)
    (scratch : ScratchState S) (meter : FuelMeter) : ExecutorCaches * (S * TransactionReceipt) :=
  let '(caches, scratch, meter, (res, manifest)) :=
    match tx_type tx with
    | Transfer => let '(scratch, meter, r) := execute_transfer tx scratch meter in (caches, scratch, meter, (r, None))
    | ContractDeploy => execute_deploy caches tx block scratch meter
    | ContractCall => execute_call caches tx block scratch meter
    | _ => (caches, scratch, meter, (Err InvalidParameter, None))
    end in
  (caches, settle tx res manifest mandate_log scratch meter).

Definition execute_transaction (caches : ExecutorCaches) (tx : Transaction) (block : BlockContext) (state : S)
    : ExecutorCaches * (S * TransactionReceipt) :=
  match charge (FuelMeter_new (tx_gas_limit tx)) (intrinsic_gas tx) with
  | Err _ => (caches, (bump_nonce state (sender tx), failed_receipt tx (tx_gas_limit tx)))
  | Ok meter =>
      let scratch := ScratchState_new state in
      match session_key tx with
      | None => execute_body caches tx block None scratch meter
      | Some session_key =>
          match charge meter (Transaction.warden_check schedule) with
          | Err _ => (caches, fail_before_execution tx scratch meter)
          | Ok meter =>
              let '(scratch, outcome) := warden_check blake3 tx session_key (bc_epoch block) scratch in
              match outcome with
              | Ok Applied =>
                  let '(scratch, mandate_log) :=
                    build_mandate_receipt_log blake3 tx session_key (bc_epoch block) (classify_action tx) scratch in
                  execute_body caches tx block mandate_log scratch meter
              | Ok PendingOwnerCosign => (caches, fail_before_execution tx scratch meter)
              | Err violation =>
                  let '(s, current_nonce) := sv_nonce (discard scratch) (sender tx) in
                  let s := if bool_decide (violation = AgentsPaused) then s
                           else handle_violation blake3 tx session_key (bc_epoch block) s in
                  (caches, (sv_set_nonce s (sender tx) (saturating_add u64_max current_nonce 1),
                            failed_receipt tx (clamped_gas tx meter)))
              end
          end
      end
  end.
End executor.
