(* ===== verification/ExecutorSpec.v ===== *)
(** * What executing a transaction guarantees

    Receipts, atomicity of failures, transfers, and what a failing contract call
    is charged, for every state view that keeps the contract of [Scratch]. *)
From stdpp Require Import strings.
From S2P Require Import Prelude CoreTypes DagBlock Fee Transaction Db Crypto VmState VmGas Scratch SafetyManifest Agent Warden WardenSpec Host Executor.

(** ** The overlay never writes through *)

Section inner.
Context {S : Type} `{!ContractStateView S, !ViewLaws S}.

(** Two overlays over states with the same contents. *)
Definition same_base (s s' : ScratchState S) : Prop := contents (inner s') ≡ contents (inner s).

#[export] Instance same_base_refl : Reflexive same_base.
Proof. by intros s. Qed.
#[export] Instance same_base_trans : Transitive same_base.
Proof. intros a b c H1 H2. unfold same_base in *. by rewrite H2. Qed.

Lemma base_read s c k : same_base s (sv_read s c k).1.
Proof.
  unfold same_base. cbn. destruct (storage_writes s !! _); [done|]. pose proof (read_keep (inner s) c k). by destruct (sv_read _ _ _).
Qed.
Lemma base_exists s c k : same_base s (sv_exists s c k).1.
Proof.
  unfold same_base. cbn. destruct (storage_writes s !! _); [done|]. pose proof (exists_keep (inner s) c k). by destruct (sv_exists _ _ _).
Qed.
Lemma base_balance s a : same_base s (sv_balance s a).1.
Proof.
  unfold same_base. cbn. destruct (balance_writes s !! _); [done|]. pose proof (balance_keep (inner s) a). by destruct (sv_balance _ _).
Qed.
Lemma base_nonce s a : same_base s (sv_nonce s a).1.
Proof.
  unfold same_base. cbn. destruct (nonce_writes s !! _); [done|]. pose proof (nonce_keep (inner s) a). by destruct (sv_nonce _ _).
Qed.
Lemma base_code s a : same_base s (sv_code s a).1.
Proof.
  unfold same_base. cbn. destruct (ptr_code s a); [done|]. destruct (code_writes s !! _); [done|].
  pose proof (code_keep (inner s) a). by destruct (sv_code _ _).
Qed.
Lemma base_resolve_code s a : same_base s (resolve_code s a).1.
Proof.
  unfold same_base, resolve_code. destruct (ptr_code s a); [done|]. pose proof (code_keep (inner s) a). by destruct (sv_code _ _).
Qed.
End inner.

Create HintDb base_db.
#[export] Hint Resolve base_read base_exists base_balance base_nonce base_code base_resolve_code : base_db.

#[local] Opaque scratch_view.

Section spec.
Context (blake3 : bytes → Hash) (schedule : GasSchedule) `{!Engine}.
Context (find_lemma_meta_section : bytes → option bytes).
Context `{!Codec RawContractMetadata, !Codec AgentPolicy, !Codec AgentIdentity, !Codec MandateReceipt}.
Context {S : Type} `{!ContractStateView S, !ViewLaws S, !CodeLaws S}.

Lemma set_balance_base (s : ScratchState S) a v : same_base s (sv_set_balance s a v).
Proof. done. Qed.

(** The parts of the execution keep the base and do not add gas. *)
Lemma execute_transfer_base tx (s : ScratchState S) m s' m' r :
  execute_transfer schedule tx s m = (s', m', r) → same_base s s' ∧ remaining m' <= remaining m.
Proof.
  unfold execute_transfer. destruct (charge m _) as [m1|] eqn:Hc; [|intros [= <- <- <-]; split; [done|lia]].
  apply charge_le in Hc. destruct (to tx) as [dest|]; [|by intros [= <- <- <-]].
  pose proof (base_balance s (sender tx)) as B1. destruct (sv_balance s (sender tx)) as [s1 b1]. cbn in B1.
  destruct (Amount_checked_sub _ _) as [nf|]; [|intros [= <- <- <-]; by split].
  pose proof (base_balance (sv_set_balance s1 (sender tx) nf) dest) as B2. destruct (sv_balance (sv_set_balance _ _ _) dest) as [s2 b2]. cbn in B2.
  assert (same_base s s2) as B3 by (etrans; [done|]; exact B2).
  destruct (Amount_checked_add _ _); intros [= <- <- <-]; (split; [|done]); etrans; [exact B3|done|exact B3|done].
Qed.

Lemma charge_quietly_le m c : remaining (charge_quietly m c) <= remaining m.
Proof. unfold charge_quietly. destruct (charge m c) as [m'|] eqn:E; [by eapply charge_le|lia]. Qed.

Lemma charge_invariants_le m x m' : charge_invariants schedule m x = Ok m' → remaining m' <= remaining m.
Proof. unfold charge_invariants. case_bool_decide; [intros [= ->]; lia|apply charge_le]. Qed.

Lemma execute_deploy_base c tx block (s : ScratchState S) m c' s' m' r :
  execute_deploy blake3 schedule find_lemma_meta_section c tx block s m = (c', s', m', r) → same_base s s' ∧ remaining m' <= remaining m.
Proof.
  unfold execute_deploy. destruct (MAX_CONTRACT_WASM_SIZE <? _); [intros [= <- <- <- <-]; split; [done|lia]|].
  pose proof (base_nonce s (sender tx)) as B1. destruct (sv_nonce s (sender tx)) as [s1 n]. cbn in B1.
  set (addr := Address_from_deployer _ _ _). pose proof (base_code s1 addr) as B2. destruct (sv_code s1 addr) as [s2 code]. cbn in B2.
  assert (same_base s s2) as B by (by etrans). clear B1 B2.
  case_bool_decide; [intros [= <- <- <- <-]; split; [done|lia]|].
  destruct (compile_module _) as [module|]; [|intros [= <- <- <- <-]; split; [done|lia]].
  destruct (MAX_SUPPORTED_HOST_ABI <? _); [intros [= <- <- <- <-]; split; [done|lia]|].
  destruct (deploy_charge _ _ _ _) as [m1|] eqn:Hd; [|intros [= <- <- <- <-]; split; [done|lia]].
  assert (remaining m1 <= remaining m) as Hm1.
  { unfold deploy_charge in Hd. destruct (negb _); [by eapply charge_per_byte_le|by eapply charge_le]. }
  destruct (run_wasm_with_entry _ _ _ _) as [[gas h]|]; [|intros [= <- <- <- <-]; split; [exact B|lia]].
  set (s4 := try_write_registry_entry _ _ _ _). assert (same_base s s4) as B4.
  { unfold s4, try_write_registry_entry. destruct (existsb _ _); exact B. }
  pose proof (charge_quietly_le m1 gas) as Hq. set (m2 := charge_quietly m1 gas) in *.
  destruct (charge_invariants _ _ _) as [m3|] eqn:Hi; intros [= <- <- <- <-]; (split; [exact B4|]); [apply charge_invariants_le in Hi|]; lia.
Qed.

Lemma execute_call_base c tx block (s : ScratchState S) m c' s' m' r :
  execute_call blake3 schedule find_lemma_meta_section c tx block s m = (c', s', m', r) → same_base s s' ∧ remaining m' <= remaining m.
Proof.
  unfold execute_call. destruct (to tx) as [addr|]; [|intros [= <- <- <- <-]; split; [done|lia]].
  pose proof (base_resolve_code s addr) as B. destruct (resolve_code s addr) as [s1 code]. cbn in B.
  destruct code as [code|]; [|intros [= <- <- <- <-]; split; [done|lia]].
  destruct (charge_invariants _ _ _) as [m1|] eqn:Hi; [apply charge_invariants_le in Hi|intros [= <- <- <- <-]; split; [done|lia]].
  destruct (if bool_decide _ then _ else _) as [m2|] eqn:Hc; [|intros [= <- <- <- <-]; split; [done|lia]].
  assert (remaining m2 <= remaining m1) as Hm2 by (destruct (bool_decide _); [by eapply charge_le|injection Hc as ->; lia]).
  destruct (compile_module _) as [module|]; [|intros [= <- <- <- <-]; split; [done|lia]].
  destruct (run_wasm_with_entry _ _ _ _) as [[gas h]|]; [|intros [= <- <- <- <-]; split; [done|lia]].
  destruct (_ && _); [intros [= <- <- <- <-]; split; [done|lia]|].
  intros [= <- <- <- <-]. pose proof (charge_quietly_le m2 gas). split; [exact B|lia].
Qed.

Lemma warden_check_base tx sk epoch (s : ScratchState S) : same_base s (warden_check blake3 tx sk epoch s).1.
Proof.
  unfold warden_check, read_owner_paused. pose proof (base_exists s (Address_warden blake3) (owner_pause_key (sender tx))) as B1.
  destruct (sv_exists s _ _) as [s1 paused]. cbn in B1. destruct paused; [done|]. unfold read_policy.
  pose proof (base_read s1 (Address_warden blake3) (policy_state_key (sender tx) sk)) as B2.
  destruct (sv_read s1 _ _) as [s2 r]. cbn in B2. assert (same_base s s2) as B by (by etrans).
  destruct (b ← r; _) as [p|]; [|done]. destruct (check_permissions _ _ _); [|done].
  assert (∃ s3 r3, match to tx with Some target => let '(st, i) := read_agent_identity blake3 s2 target in (st, check_counterparty p target i)
      | None => (s2, Ok ()) end = (s3, r3) ∧ same_base s s3) as (s3 & r3 & -> & B3).
  { destruct (to tx) as [t|]; [|by eauto]. unfold read_agent_identity. pose proof (base_read s2 (Address_registry blake3) (agent_identity_key t)) as B3.
    destruct (sv_read s2 _ _) as [s3 r3]. cbn in B3. eexists _, _. split; [done|]. by etrans. }
  destruct (_ ← r3; _) as [[p'|]|]; [|done..]. unfold write_policy. by destruct (serialize p').
Qed.

Lemma mandate_log_base tx sk epoch a (s : ScratchState S) : same_base s (build_mandate_receipt_log blake3 tx sk epoch a s).1.
Proof.
  unfold build_mandate_receipt_log, read_policy.
  pose proof (base_read s (Address_warden blake3) (policy_state_key (sender tx) sk)) as B. by destruct (sv_read s _ _).
Qed.

Notation next_nonce s a := (saturating_add u64_max (c_nonce (contents s) a) 1).

Lemma bump_nonce_contents (s : S) a : contents (bump_nonce s a) ≡ with_nonce (contents s) a (next_nonce s a).
Proof.
  unfold bump_nonce. pose proof (nonce_law s a) as L. pose proof (nonce_keep s a) as K. destruct (sv_nonce s a) as [s' n]. cbn in *.
  rewrite set_nonce_law, K. by subst.
Qed.

Lemma clamped_gas_le tx m : clamped_gas tx m <= tx_gas_limit tx.
Proof. unfold clamped_gas. lia. Qed.

(** What the settlement leaves: the receipt's shape, and on failure the base
    with the nonce advanced. *)
Lemma settle_spec tx res manifest ml (s : ScratchState S) m s' rc :
  settle tx res manifest ml s m = (s', rc) →
  rc_tx_hash rc = tx_hash tx ∧ rc_gas_used rc = clamped_gas tx m ∧
  (success rc = false → logs rc = [] ∧ contents s' ≡ with_nonce (contents (inner s)) (sender tx) (next_nonce (inner s) (sender tx))).
Proof.
  unfold settle. assert (∀ s0, contents s0 ≡ contents (inner s) →
    contents (bump_nonce s0 (sender tx)) ≡ with_nonce (contents (inner s)) (sender tx) (next_nonce (inner s) (sender tx))) as Hb.
  { intros s0 K. rewrite bump_nonce_contents. destruct K as (K1 & K2 & K3 & K4). rewrite K3. apply with_nonce_proper; [by split_and!|done|done]. }
  destruct res as [ls|e]; [|intros [= <- <-]; split_and!; [done..|]; intros _; split; [done|by apply Hb]].
  destruct (match manifest with Some _ => _ | None => _ end) as [s1 checked] eqn:Hm.
  assert (contents s1 ≡ contents (inner s)) as K.
  { destruct manifest as [[c mf]|]; [|by injection Hm as <- <-]. case_bool_decide; [by injection Hm as <- <-|].
    pose proof (safety_check_keep c (storage_writes s) (inner s) mf) as K. by rewrite Hm in K. }
  destruct checked; intros [= <- <-]; split_and!; try done. intros _. split; [done|by apply Hb].
Qed.

Notation exec := (execute_transaction blake3 schedule find_lemma_meta_section).

Lemma execute_body_spec c tx block ml (s : ScratchState S) m c' s' rc :
  execute_body blake3 schedule find_lemma_meta_section c tx block ml s m = (c', (s', rc)) →
  rc_tx_hash rc = tx_hash tx ∧ rc_gas_used rc <= tx_gas_limit tx ∧
  (success rc = false → logs rc = [] ∧ contents s' ≡ with_nonce (contents (inner s)) (sender tx) (next_nonce (inner s) (sender tx))).
Proof.
  unfold execute_body. destruct (match tx_type tx with Transfer => _ | _ => _ end) as [[[c1 s1] m1] [res mf]] eqn:He.
  assert (same_base s s1) as (B1 & B2 & B3 & B4).
  { destruct (tx_type tx); try (by injection He as <- <- <- <- <-).
    - destruct (execute_transfer _ _ _ _) as [[s2 m2] r2] eqn:Ht. injection He as <- <- <- <- <-. by apply execute_transfer_base in Ht as [? _].
    - by apply execute_call_base in He as [? _].
    - by apply execute_deploy_base in He as [? _]. }
  intros [= <- Hs]. destruct (settle_spec _ _ _ _ _ _ _ _ Hs) as (H1 & H2 & H3). split_and!; [done|rewrite H2; apply clamped_gas_le|].
  intros Hf. destruct (H3 Hf) as [Hl Hc]. split; [done|]. rewrite Hc, B3. apply with_nonce_proper; [by split_and!|done|done].
Qed.

(** Warden's decision on an agent's transaction, from the contents alone. *)
Definition agent_decision (a : Contents) (tx : Transaction) (sk : bytes) (epoch : N) : result PolicyViolation (option AgentPolicy) :=
  warden_spec (paused_at blake3 a (sender tx)) (policy_at blake3 a (sender tx) sk) (to tx ≫= identity_at blake3 a) tx epoch.
Lemma agent_decision_proper a b tx sk epoch : a ≡ b → agent_decision a tx sk epoch = agent_decision b tx sk epoch.
Proof.
  intros (E & _). unfold agent_decision, paused_at, policy_at, identity_at, stored. rewrite !E. destruct (to tx); cbn; by rewrite ?E.
Qed.
(** The policy a failed transaction leaves in the place of [p]: it is written only when
    the gas pays for the check and Warden refuses the transaction for another reason than
    the owner's pause, and only when the policy limits its violations. *)
Definition counted_violation (a : Contents) (tx : Transaction) (block : BlockContext) : option (bytes * AgentPolicy) :=
  sk ← session_key tx;
  if tx_gas_limit tx <? intrinsic_gas schedule tx + Transaction.warden_check schedule then None else
  match agent_decision a tx sk (bc_epoch block) with
  | Ok _ | Err AgentsPaused => None
  | Err _ => p ← policy_at blake3 a (sender tx) sk; p' ← violation_policy p (bc_epoch block); Some (sk, p')
  end.
(** What a failed transaction leaves of the contents [a]. *)
Definition failed_contents (a : Contents) (tx : Transaction) (block : BlockContext) : Contents :=
  with_nonce match counted_violation a tx block with Some (sk, p) => put_policy blake3 a (sender tx) sk p | None => a end
    (sender tx) (saturating_add u64_max (c_nonce a (sender tx)) 1).
(** One more violation in [epoch]: the count starts anew in a new epoch, and a policy
    that reaches its limit expires; what was spent in all and the caps stay. *)
Definition one_violation_more (epoch : N) (p p' : AgentPolicy) : Prop :=
  let before := if last_epoch p <? epoch then 0 else violations_this_epoch (auto_revoke p) in
  let limit := max_violations_per_epoch (auto_revoke p) in
  0 < limit ∧ max_violations_per_epoch (auto_revoke p') = limit ∧
  violations_this_epoch (auto_revoke p') = N.min (before + 1) u32_max ∧
  expiry_epoch p' = (if limit <=? violations_this_epoch (auto_revoke p') then epoch else expiry_epoch p) ∧
  last_epoch p' = N.max (last_epoch p) epoch ∧ spent_total p' = spent_total p ∧
  per_tx_cap p' = per_tx_cap p ∧ per_epoch_cap p' = per_epoch_cap p.

Lemma violation_policy_counts p epoch p' : violation_policy p epoch = Some p' → one_violation_more epoch p p'.
Proof.
  unfold violation_policy, one_violation_more, epoch_reset. destruct (N.eqb_spec (max_violations_per_epoch (auto_revoke p)) 0); [done|].
  intros [= <-]. cbn. destruct (N.ltb_spec (last_epoch p) epoch); cbn; split_and!; try done; lia.
Qed.
Lemma counted_violation_counts a tx block sk p' : counted_violation a tx block = Some (sk, p') →
  ∃ p, policy_at blake3 a (sender tx) sk = Some p ∧ one_violation_more (bc_epoch block) p p'.
Proof.
  unfold counted_violation. destruct (session_key tx) as [k|]; [|done]. cbn. destruct (_ <? _); [done|].
  destruct (agent_decision _ _ _ _) as [|v]; [done|]. intros Hv.
  assert ((p ← policy_at blake3 a (sender tx) k; p' ← violation_policy p (bc_epoch block); Some (k, p')) = Some (sk, p')) as E by (by destruct v). clear Hv.
  destruct (policy_at blake3 a (sender tx) k) as [p|] eqn:Hp; [|done]. cbn in E. destruct (violation_policy p _) as [q|] eqn:Hv; [|done].
  injection E as <- <-. exists p. split; [done|]. by apply violation_policy_counts.
Qed.
(** Nothing was counted. *)
Lemma failed_uncounted a tx block a' : counted_violation a tx block = None →
  a' ≡ with_nonce a (sender tx) (saturating_add u64_max (c_nonce a (sender tx)) 1) → a' ≡ failed_contents a tx block.
Proof. unfold failed_contents. by intros ->. Qed.
Lemma bumped_base tx (s : S) (sc : ScratchState S) sx : same_base (ScratchState_new s) sc →
  contents sx ≡ with_nonce (contents (inner sc)) (sender tx) (next_nonce (inner sc) (sender tx)) →
  contents sx ≡ with_nonce (contents s) (sender tx) (next_nonce s (sender tx)).
Proof. intros (B1 & B2 & B3 & B4) E. rewrite E, B3. apply with_nonce_proper; [by split_and!|done|done]. Qed.
(** The writes after a refused transaction. *)
Lemma refused_contents tx sk epoch (s : S) (sc : ScratchState S) v : same_base (ScratchState_new s) sc →
  let '(s1, n) := sv_nonce (discard sc) (sender tx) in
  contents (sv_set_nonce (if bool_decide (v = AgentsPaused) then s1 else handle_violation blake3 tx sk epoch s1)
    (sender tx) (saturating_add u64_max n 1)) ≡
  with_nonce (if bool_decide (v = AgentsPaused) then contents s else
      match policy_at blake3 (contents s) (sender tx) sk ≫= λ p, violation_policy p epoch with
      | Some p => put_policy blake3 (contents s) (sender tx) sk p
      | None => contents s
      end) (sender tx) (next_nonce s (sender tx)).
Proof.
  intros B. unfold discard. pose proof (nonce_law (inner sc) (sender tx)) as L. pose proof (nonce_keep (inner sc) (sender tx)) as K.
  destruct (sv_nonce (inner sc) (sender tx)) as [s1 n]. cbn in L, K. assert (contents s1 ≡ contents s) as K' by (by rewrite K). subst n.
  assert (c_nonce (contents (inner sc)) (sender tx) = c_nonce (contents s) (sender tx)) as -> by apply B.
  rewrite set_nonce_law. apply with_nonce_proper; [|done|done]. case_bool_decide; [done|].
  rewrite handle_violation_spec, (policy_at_proper blake3 _ _ _ _ K').
  destruct (policy_at _ _ _ _ ≫= _); [by apply put_policy_proper|done].
Qed.

(** C4. Settlement of any transaction.  A receipt is always produced, for this transaction
    and with at most its gas limit used.  An agent's transaction succeeds only when Warden
    approves it.  A failed transaction has no logs, and its effect is exactly this: the
    sender's nonce advances by one, and when Warden refused it, for another reason than the
    owner's pause, under a policy that limits its violations, that policy is rolled over to
    the current epoch with one violation more, and expires when it reaches the limit. *)
Theorem execution_settles c tx block (s : S) c' s' rc :
  exec c tx block s = (c', (s', rc)) →
  rc_tx_hash rc = tx_hash tx ∧ rc_gas_used rc <= tx_gas_limit tx ∧
  (success rc = true → ∀ sk, session_key tx = Some sk → ∃ p, agent_decision (contents s) tx sk (bc_epoch block) = Ok (Some p)) ∧
  (success rc = false → logs rc = [] ∧ contents s' ≡ failed_contents (contents s) tx block) ∧
  (∀ sk p', counted_violation (contents s) tx block = Some (sk, p') →
     success rc = false ∧ ∃ p, policy_at blake3 (contents s) (sender tx) sk = Some p ∧ one_violation_more (bc_epoch block) p p').
Proof.
  unfold execute_transaction. destruct (charge _ (intrinsic_gas _ _)) as [m|e] eqn:Hc0.
  2: { apply charge_Err in Hc0 as [Hg _]. cbn in Hg. assert (counted_violation (contents s) tx block = None) as Hn.
       { unfold counted_violation. destruct (session_key tx); [|done]. cbn. by rewrite (proj2 (N.ltb_lt _ _)) by lia. }
       intros [= <- <- <-]. rewrite Hn. split_and!; [done|cbn; lia|done| |done]. intros _. split; [done|].
       apply failed_uncounted; [done|]. apply bump_nonce_contents. }
  apply charge_Ok in Hc0 as [Hg0 ->]. cbn in Hg0.
  destruct (session_key tx) as [sk|] eqn:Hsk.
  2: { assert (counted_violation (contents s) tx block = None) as Hn by (unfold counted_violation; by rewrite Hsk).
       intros Hx. destruct (execute_body_spec _ _ _ _ _ _ _ _ _ Hx) as (H1 & H2 & H3). rewrite Hn. split_and!; [done..| |done].
       intros Hf. destruct (H3 Hf) as [Hl Hc]. split; [done|]. apply failed_uncounted; [done|]. by eapply bumped_base. }
  destruct (charge _ (Transaction.warden_check _)) as [m1|e] eqn:Hc1.
  2: { apply charge_Err in Hc1 as [Hg _]. cbn in Hg. assert (counted_violation (contents s) tx block = None) as Hn.
       { unfold counted_violation. rewrite Hsk. cbn. by rewrite (proj2 (N.ltb_lt _ _)) by lia. }
       intros [= <- <- <-]. rewrite Hn. split_and!; [done|apply clamped_gas_le|done| |done]. intros _. split; [done|].
       apply failed_uncounted; [done|]. eapply (bumped_base _ s (ScratchState_new s)); [done|apply bump_nonce_contents]. }
  apply charge_Ok in Hc1 as [Hg1 ->]. cbn in Hg1.
  pose proof (warden_check_base tx sk (bc_epoch block) (ScratchState_new s)) as B.
  pose proof (warden_check_decides blake3 tx sk (bc_epoch block) (ScratchState_new s)) as D.
  assert (counted_violation (contents s) tx block =
    match agent_decision (contents s) tx sk (bc_epoch block) with
    | Ok _ | Err AgentsPaused => None
    | Err _ => p ← policy_at blake3 (contents s) (sender tx) sk; p' ← violation_policy p (bc_epoch block); Some (sk, p')
    end) as Hn by (unfold counted_violation; rewrite Hsk; cbn; by rewrite (proj2 (N.ltb_ge _ _)) by lia).
  cbn zeta in D. fold (agent_decision (contents (ScratchState_new s)) tx sk (bc_epoch block)) in D.
  rewrite (agent_decision_proper (contents (ScratchState_new s)) (contents s)) in D by done.
  destruct (warden_check blake3 tx sk (bc_epoch block) (ScratchState_new s)) as [sc r]. cbn [fst] in B.
  destruct (agent_decision (contents s) tx sk (bc_epoch block)) as [[p|]|v] eqn:Hd; destruct D as [-> _].
  - pose proof (mandate_log_base tx sk (bc_epoch block) (classify_action tx) sc) as B2.
    destruct (build_mandate_receipt_log _ _ _ _ _ _) as [sc2 ml]. cbn [fst] in B2. intros Hx. rewrite Hn.
    destruct (execute_body_spec _ _ _ _ _ _ _ _ _ Hx) as (H1 & H2 & H3). split_and!; [done|done|..|done].
    + intros _ k [= <-]. eauto.
    + intros Hf. destruct (H3 Hf) as [Hl Hc]. split; [done|]. apply failed_uncounted; [done|]. eapply bumped_base; [|done]. by etrans.
  - intros [= <- <- <-]. rewrite Hn. split_and!; [done|apply clamped_gas_le|done| |done]. intros _. split; [done|].
    apply failed_uncounted; [done|]. eapply bumped_base; [done|apply bump_nonce_contents].
  - pose proof (refused_contents tx sk (bc_epoch block) s sc v B) as Hr. destruct (sv_nonce (discard sc) (sender tx)) as [s1 n].
    intros [= <- <- <-]. split_and!; [done|apply clamped_gas_le|done| |].
    + intros _. split; [done|]. rewrite Hr. unfold failed_contents. rewrite Hn. apply with_nonce_proper; [|done|done].
      case_bool_decide as Hv; [by subst v|].
      transitivity (match (p ← policy_at blake3 (contents s) (sender tx) sk; p' ← violation_policy p (bc_epoch block); Some (sk, p')) with
        Some (sk, p) => put_policy blake3 (contents s) (sender tx) sk p | None => contents s end); [|by destruct v].
      destruct (policy_at _ _ _ _) as [p|]; [|done]. cbn. by destruct (violation_policy p _).
    + intros k p' Hk. split; [done|]. by eapply counted_violation_counts.
Qed.



(** ** Transfers *)

Definition moved_value (a : Contents) (from dest : Address) (v : Amount) : Contents :=
  let a := with_balance a from (c_balance a from - v) in with_balance a dest (c_balance a dest + v).

(** The conditions of a successful transfer. *)
Definition transferable (a : Contents) (tx : Transaction) (dest : Address) : Prop :=
  intrinsic_gas schedule tx + call_value_transfer schedule <= tx_gas_limit tx ∧
  value tx <= c_balance a (sender tx) ∧
  (dest = sender tx ∨ c_balance a dest + value tx <= u128_max).

Lemma checked_add_amount a b : Amount_checked_add a b = (if a + b <=? u128_max then Ok (a + b) else Err (Overflow a b)).
Proof. unfold Amount_checked_add, checked_add. by destruct (_ <=? _). Qed.

Lemma transfer_step tx dest (s : S) m :
  to tx = Some dest → (∀ a, c_balance (contents s) a <= u128_max) →
  let '(sc, m', r) := execute_transfer schedule tx (ScratchState_new s) m in
  (r = Ok [] ∧ call_value_transfer schedule <= remaining m ∧ remaining m' = remaining m - call_value_transfer schedule ∧
   value tx <= c_balance (contents s) (sender tx) ∧ (dest = sender tx ∨ c_balance (contents s) dest + value tx <= u128_max) ∧
   contents sc ≡ moved_value (contents s) (sender tx) dest (value tx) ∧ same_base (ScratchState_new s) sc) ∨
  (∃ e, r = Err e ∧
   ¬ (call_value_transfer schedule <= remaining m ∧ value tx <= c_balance (contents s) (sender tx) ∧
      (dest = sender tx ∨ c_balance (contents s) dest + value tx <= u128_max))).
Proof.
  intros Hto Hmax. destruct (execute_transfer schedule tx (ScratchState_new s) m) as [[sc m'] r] eqn:He.
  pose proof (execute_transfer_base _ _ _ _ _ _ He) as [Hbase _]. unfold execute_transfer in He.
  destruct (charge m _) as [m1|e] eqn:Hc; [|apply charge_Err in Hc as [Hc _]; injection He as <- <- <-; right; eexists; split; [done|lia]].
  apply charge_Ok in Hc as [Hc ->]. rewrite Hto in He.
  pose proof (balance_law (ScratchState_new s) (sender tx)) as L1. pose proof (balance_keep (ScratchState_new s) (sender tx)) as K1.
  assert (contents (ScratchState_new s) ≡ contents s) as K0 by done.
  destruct (sv_balance (ScratchState_new s) (sender tx)) as [s1 b1]. cbn [fst snd] in L1, K1.
  rewrite (proj1 (proj2 K0)) in L1. subst b1.
  unfold Amount_checked_sub, checked_sub in He. destruct (N.leb_spec (value tx) (c_balance (contents s) (sender tx))) as [Hv|Hv]; cbn in He;
    [|injection He as <- <- <-; right; eexists; split; [done|lia]].
  set (nf := c_balance (contents s) (sender tx) - value tx) in *. set (s2 := sv_set_balance s1 (sender tx) nf) in *.
  assert (contents s2 ≡ with_balance (contents s) (sender tx) nf) as K2 by (unfold s2; rewrite set_balance_law, K1; done).
  pose proof (balance_law s2 dest) as L2. pose proof (balance_keep s2 dest) as K3. destruct (sv_balance s2 dest) as [s3 b2]. cbn [fst snd] in L2, K3.
  rewrite (proj1 (proj2 K2)) in L2. cbn in L2. subst b2. rewrite checked_add_amount in He.
  destruct (N.leb_spec ((if decide (dest = sender tx) then nf else c_balance (contents s) dest) + value tx) u128_max) as [Hle|Hgt].
  - injection He as <- <- <-. left. split_and!; try done.
    + case_decide; [by left|right; lia].
    + rewrite set_balance_law, K3, K2. done.
  - injection He as <- <- <-. right. eexists. split; [done|]. intros (_ & _ & [->|Hd]).
    + rewrite decide_True in Hgt by done. specialize (Hmax (sender tx)). lia.
    + case_decide; [subst; specialize (Hmax (sender tx)); lia|lia].
Qed.

(** C23. A plain transfer succeeds exactly when its gas limit covers the intrinsic
    gas and the transfer fee, the sender holds the value and the recipient's
    balance does not overflow.  Then the value moves from one balance to the
    other (a transfer to oneself leaves the balance), the sender's nonce advances
    and nothing else changes; the gas used is that of the two charges. *)
Theorem transfer_spec c tx block (s : S) dest c' s' rc :
  session_key tx = None → tx_type tx = Transfer → to tx = Some dest →
  (∀ a, c_balance (contents s) a <= u128_max) →
  exec c tx block s = (c', (s', rc)) →
  (success rc = true ↔ transferable (contents s) tx dest) ∧
  (success rc = true →
     contents s' ≡ with_nonce (moved_value (contents s) (sender tx) dest (value tx)) (sender tx) (next_nonce s (sender tx)) ∧
     rc_gas_used rc = intrinsic_gas schedule tx + call_value_transfer schedule ∧ logs rc = []).
Proof.
  intros Hsk Hty Hto Hmax. unfold execute_transaction, transferable. rewrite Hsk.
  destruct (charge _ (intrinsic_gas _ _)) as [m|e] eqn:Hc.
  2: { apply charge_Err in Hc as [Hc _]. cbn in Hc. intros [= <- <- <-]. cbn. split; [|done]. split; [done|lia]. }
  apply charge_Ok in Hc as [Hc ->]. cbn in Hc. unfold execute_body. rewrite Hty.
  pose proof (transfer_step tx dest s (set_remaining (FuelMeter_new (tx_gas_limit tx)) (tx_gas_limit tx - intrinsic_gas schedule tx)) Hto Hmax) as Ht.
  destruct (execute_transfer _ _ _ _) as [[sc m'] r]. cbn [remaining set_remaining FuelMeter_new] in Ht.
  destruct Ht as [(-> & G1 & G2 & G3 & G4 & G5 & G6)|(e & -> & Hn)]; cbn; intros [= <- <- <-]; cbn.
  - split; [split; [|done]; intros _; split_and!; [lia|done|done]|]. intros _. split_and!; [| |done].
    + rewrite commit_refines. apply with_nonce_proper; [by destruct sc|done|]. destruct G6 as (_ & _ & G6 & _). cbn in *. by rewrite G6.
    + unfold clamped_gas, gas_used, Gas_checked_sub, checked_sub. rewrite G2. rewrite (proj2 (N.leb_le _ _)) by lia. cbn. lia.
  - split; [|done]. split; [done|]. intros (H1 & H2 & H3). exfalso. apply Hn. split_and!; [lia|done|done].
Qed.

(** ** Failing calls *)

Definition engine_traps : Prop :=
  ∀ abi module h, ∃ e, @run_wasm_with_entry _ (ScratchSnapshot S) _ abi module h ENTRY_POINT = Err e.

(** A contract call that traps is not charged for what it ran: when the engine
    ends the execution with an error (out of fuel included), the receipt shows at
    most the intrinsic gas, the invariant-check charge and the cold-code
    surcharge, whatever the gas limit and the fuel burnt. *)
Theorem trapped_call_not_charged c tx block (s : S) c' s' rc :
  session_key tx = None → tx_type tx = ContractCall →
  engine_traps → intrinsic_gas schedule tx <= tx_gas_limit tx →
  exec c tx block s = (c', (s', rc)) →
  success rc = false ∧
  rc_gas_used rc <= intrinsic_gas schedule tx + invariant_check schedule + code_cold_surcharge schedule.
Proof.
  intros Hsk Hty Hrun Hin. unfold execute_transaction. rewrite Hsk.
  destruct (charge _ (intrinsic_gas _ _)) as [m|e] eqn:Hc; [|apply charge_Err in Hc as [Hc _]; cbn in Hc; lia].
  apply charge_Ok in Hc as [_ ->]. unfold execute_body. rewrite Hty.
  destruct (execute_call _ _ _ _ _ _ _ _) as [[[c1 s1] m1] [res mf]] eqn:He.
  assert (∃ e, res = Err e ∧ tx_gas_limit tx <= remaining m1 + (intrinsic_gas schedule tx + invariant_check schedule + code_cold_surcharge schedule))
    as (e & -> & Hm).
  { revert He. unfold execute_call. set (m0 := set_remaining _ _).
    assert (remaining m0 = tx_gas_limit tx - intrinsic_gas schedule tx) as Hm0 by done.
    destruct (to tx) as [addr|]; [|intros [= <- <- <- <- <-]; eexists; split; [done|lia]].
    destruct (resolve_code (ScratchState_new s) addr) as [s2 [code|]]; [|intros [= <- <- <- <- <-]; eexists; split; [done|lia]].
    destruct (charge_invariants _ _ _) as [m2|] eqn:Hi; [|intros [= <- <- <- <- <-]; eexists; split; [done|lia]].
    assert (remaining m0 <= remaining m2 + invariant_check schedule) as Hm2.
    { unfold charge_invariants in Hi. case_bool_decide; [injection Hi as ->; lia|]. apply charge_Ok in Hi as [? ->]. cbn. lia. }
    destruct (if bool_decide _ then _ else _) as [m3|] eqn:Hcc; [|intros [= <- <- <- <- <-]; eexists; split; [done|lia]].
    assert (remaining m2 <= remaining m3 + code_cold_surcharge schedule) as Hm3.
    { destruct (bool_decide _); [apply charge_Ok in Hcc as [? ->]; cbn; lia|injection Hcc as ->; lia]. }
    destruct (compile_module code) as [module|]; [|intros [= <- <- <- <- <-]; eexists; split; [done|lia]].
    match goal with |- context [run_wasm_with_entry ?a ?b ?c _] => destruct (Hrun a b c) as [e ->] end.
    intros [= <- <- <- <- <-]; eexists; split; [done|lia]. }
  cbn. intros [= <- <- <-]. cbn. split; [done|].
  unfold clamped_gas, gas_used, Gas_checked_sub, checked_sub. destruct (N.leb_spec (remaining m1) (tx_gas_limit tx)); cbn; lia.
Qed.
End spec.
