(* ===== verification/LexToken.v ===== *)
(** * Tokens of the contract language ([lemma-lang/src/lexer/token.rs], [error.rs])

    Characters are code points; text is a list of them.  Constructors carry the
    source's names behind a [T]. *)
From stdpp Require Import strings.
From S2P Require Import Prelude.

(** ** [token.rs] *)

Record Span := { line : N; col : N; offset : N; len : N }.
Definition Span_at (line col offset : N) : Span := {| line := line; col := col; offset := offset; len := 0 |}.

Inductive TemplateSegment :=
  | Literal (text : list N)
  | Interpolation (text : list N).

Inductive Token :=
  (* keywords *)
  | TContract | TToken_ | TState | TInit | TPub | TView | TPure | TExternal | TPayable | TFn | TLet | TConst | TIf | TElse
  | TMatch | TFor | TWhile | TReturn | TImport | TFrom | TAs | TEmit | TAssert | TRevert | TSelfKw | TTrait | TImplements
  | TUses | TModifier | TUnchecked | TType | TStruct | TEnum | TInterface | TLibrary | TLoop | TBreak | TContinue | TTry
  | TCatch | TMut | TOf | TIn | TUsing | TError | TExtends | TNew | TReceive | TFallback | TImmutable | TEvent
  (* type keywords *)
  | TU8 | TU16 | TU32 | TU64 | TU128 | TU256 | TI8 | TI16 | TI32 | TI64 | TI128 | TI256 | TBool | TStringTy | TCharTy
  | TAddressTy | THashTy | TBytes | TArrayTy | TMapTy | TFastMapTy | TSetTy | TOptionTy | TResultTy | TDecimal
  (* annotations *)
  | TOnlyOwner | TOnlyRole | TWhenNotPaused | TWhenPaused | TNonReentrant | TCooldown | TPayableAnn | TDeadline
  | TEstimateGas | TOnTransfer | TIndexed | TPrivate | TAgentCallable | TAnnotation (name : list N)
  (* literals *)
  | TIntLiteral (value : N)
  | TIntLiteralTyped (value : N) (suffix : list N)
  | THexLiteral (digits : list N)
  | TBinLiteral (digits : list N)
  | TFloatLiteral (raw : list N)
  | TStringLiteral (value : list N)
  | TBytesLiteral (value : list N)
  | TCharLiteral (c : N)
  | TBoolLiteral (b : bool)
  | TAddressLiteral (raw : list N)
  | TTemplateLiteral (segments : list TemplateSegment)
  (* unit suffixes *)
  | TUnitEther | TUnitGwei | TUnitMinutes | TUnitHours | TUnitDays | TUnitSeconds | TUnitTokens
  (* operators *)
  | TPlus | TMinus | TStar | TSlash | TPercent | TEq | TNotEq | TLt | TGt | TLtEq | TGtEq | TAnd | TOr | TNot | TBitAnd
  | TBitOr | TBitXor | TBitNot | TShl | TShr | TAssign | TPlusAssign | TMinusAssign | TStarAssign | TSlashAssign
  | TPercentAssign | TStarStar | TNullCoalesce
  (* punctuation *)
  | TArrow | TFatArrow | TQuestionMark | TUnderscore | TDot | TDotDot | TDotDotEq | TComma | TColon | TColonColon
  | TSemicolon | TLParen | TRParen | TLBrace | TRBrace | TLBracket | TRBracket | THash_ | TAt | TDollar | TPipe
  (* comments *)
  | TLineComment (text : list N)
  | TBlockComment (text : list N)
  | TDocComment (text : list N)
  (* special *)
  | TIdentifier (name : list N)
  | TNewline
  | TEof.

(** The longest text to lex again inside a template, counting from one. *)
Definition segment_size (s : TemplateSegment) : nat := match s with Literal _ => 0 | Interpolation src => S (length src) end.
Definition template_size (t : Token) : nat :=
  match t with TTemplateLiteral segs => list_max (segment_size <$> segs) | _ => 0 end.

(** ** Equality of tokens: [derive(PartialEq)]

    A token is numbered by its variant, with its payload beside it. *)

#[export] Instance TemplateSegment_eq_dec : EqDecision TemplateSegment.
Proof. solve_decision. Defined.

Definition token_code (t : Token) : N * N * list N * list TemplateSegment :=
  match t with
  | TContract => (0, 0, [], []) | TToken_ => (1, 0, [], []) | TState => (2, 0, [], []) | TInit => (3, 0, [], [])
  | TPub => (4, 0, [], []) | TView => (5, 0, [], []) | TPure => (6, 0, [], []) | TExternal => (7, 0, [], [])
  | TPayable => (8, 0, [], []) | TFn => (9, 0, [], []) | TLet => (10, 0, [], []) | TConst => (11, 0, [], [])
  | TIf => (12, 0, [], []) | TElse => (13, 0, [], []) | TMatch => (14, 0, [], []) | TFor => (15, 0, [], [])
  | TWhile => (16, 0, [], []) | TReturn => (17, 0, [], []) | TImport => (18, 0, [], []) | TFrom => (19, 0, [], [])
  | TAs => (20, 0, [], []) | TEmit => (21, 0, [], []) | TAssert => (22, 0, [], []) | TRevert => (23, 0, [], [])
  | TSelfKw => (24, 0, [], []) | TTrait => (25, 0, [], []) | TImplements => (26, 0, [], [])
  | TUses => (27, 0, [], []) | TModifier => (28, 0, [], []) | TUnchecked => (29, 0, [], [])
  | TType => (30, 0, [], []) | TStruct => (31, 0, [], []) | TEnum => (32, 0, [], []) | TInterface => (33, 0, [], [])
  | TLibrary => (34, 0, [], []) | TLoop => (35, 0, [], []) | TBreak => (36, 0, [], [])
  | TContinue => (37, 0, [], []) | TTry => (38, 0, [], []) | TCatch => (39, 0, [], []) | TMut => (40, 0, [], [])
  | TOf => (41, 0, [], []) | TIn => (42, 0, [], []) | TUsing => (43, 0, [], []) | TError => (44, 0, [], [])
  | TExtends => (45, 0, [], []) | TNew => (46, 0, [], []) | TReceive => (47, 0, [], [])
  | TFallback => (48, 0, [], []) | TImmutable => (49, 0, [], []) | TEvent => (50, 0, [], [])
  | TU8 => (51, 0, [], []) | TU16 => (52, 0, [], []) | TU32 => (53, 0, [], []) | TU64 => (54, 0, [], [])
  | TU128 => (55, 0, [], []) | TU256 => (56, 0, [], []) | TI8 => (57, 0, [], []) | TI16 => (58, 0, [], [])
  | TI32 => (59, 0, [], []) | TI64 => (60, 0, [], []) | TI128 => (61, 0, [], []) | TI256 => (62, 0, [], [])
  | TBool => (63, 0, [], []) | TStringTy => (64, 0, [], []) | TCharTy => (65, 0, [], [])
  | TAddressTy => (66, 0, [], []) | THashTy => (67, 0, [], []) | TBytes => (68, 0, [], [])
  | TArrayTy => (69, 0, [], []) | TMapTy => (70, 0, [], []) | TFastMapTy => (71, 0, [], [])
  | TSetTy => (72, 0, [], []) | TOptionTy => (73, 0, [], []) | TResultTy => (74, 0, [], [])
  | TDecimal => (75, 0, [], []) | TOnlyOwner => (76, 0, [], []) | TOnlyRole => (77, 0, [], [])
  | TWhenNotPaused => (78, 0, [], []) | TWhenPaused => (79, 0, [], []) | TNonReentrant => (80, 0, [], [])
  | TCooldown => (81, 0, [], []) | TPayableAnn => (82, 0, [], []) | TDeadline => (83, 0, [], [])
  | TEstimateGas => (84, 0, [], []) | TOnTransfer => (85, 0, [], []) | TIndexed => (86, 0, [], [])
  | TPrivate => (87, 0, [], []) | TAgentCallable => (88, 0, [], []) | TAnnotation l => (89, 0, l, [])
  | TIntLiteral n => (90, n, [], []) | TIntLiteralTyped n l => (91, n, l, []) | THexLiteral l => (92, 0, l, [])
  | TBinLiteral l => (93, 0, l, []) | TFloatLiteral l => (94, 0, l, []) | TStringLiteral l => (95, 0, l, [])
  | TBytesLiteral l => (96, 0, l, []) | TCharLiteral n => (97, n, [], [])
  | TBoolLiteral b => (98, if b then 1 else 0, [], []) | TAddressLiteral l => (99, 0, l, [])
  | TTemplateLiteral s => (100, 0, [], s) | TUnitEther => (101, 0, [], []) | TUnitGwei => (102, 0, [], [])
  | TUnitMinutes => (103, 0, [], []) | TUnitHours => (104, 0, [], []) | TUnitDays => (105, 0, [], [])
  | TUnitSeconds => (106, 0, [], []) | TUnitTokens => (107, 0, [], []) | TPlus => (108, 0, [], [])
  | TMinus => (109, 0, [], []) | TStar => (110, 0, [], []) | TSlash => (111, 0, [], [])
  | TPercent => (112, 0, [], []) | TEq => (113, 0, [], []) | TNotEq => (114, 0, [], []) | TLt => (115, 0, [], [])
  | TGt => (116, 0, [], []) | TLtEq => (117, 0, [], []) | TGtEq => (118, 0, [], []) | TAnd => (119, 0, [], [])
  | TOr => (120, 0, [], []) | TNot => (121, 0, [], []) | TBitAnd => (122, 0, [], []) | TBitOr => (123, 0, [], [])
  | TBitXor => (124, 0, [], []) | TBitNot => (125, 0, [], []) | TShl => (126, 0, [], []) | TShr => (127, 0, [], [])
  | TAssign => (128, 0, [], []) | TPlusAssign => (129, 0, [], []) | TMinusAssign => (130, 0, [], [])
  | TStarAssign => (131, 0, [], []) | TSlashAssign => (132, 0, [], []) | TPercentAssign => (133, 0, [], [])
  | TStarStar => (134, 0, [], []) | TNullCoalesce => (135, 0, [], []) | TArrow => (136, 0, [], [])
  | TFatArrow => (137, 0, [], []) | TQuestionMark => (138, 0, [], []) | TUnderscore => (139, 0, [], [])
  | TDot => (140, 0, [], []) | TDotDot => (141, 0, [], []) | TDotDotEq => (142, 0, [], [])
  | TComma => (143, 0, [], []) | TColon => (144, 0, [], []) | TColonColon => (145, 0, [], [])
  | TSemicolon => (146, 0, [], []) | TLParen => (147, 0, [], []) | TRParen => (148, 0, [], [])
  | TLBrace => (149, 0, [], []) | TRBrace => (150, 0, [], []) | TLBracket => (151, 0, [], [])
  | TRBracket => (152, 0, [], []) | THash_ => (153, 0, [], []) | TAt => (154, 0, [], [])
  | TDollar => (155, 0, [], []) | TPipe => (156, 0, [], []) | TLineComment l => (157, 0, l, [])
  | TBlockComment l => (158, 0, l, []) | TDocComment l => (159, 0, l, []) | TIdentifier l => (160, 0, l, [])
  | TNewline => (161, 0, [], []) | TEof => (162, 0, [], [])
  end.
Definition token_table : list (N → list N → list TemplateSegment → Token) :=
  [λ _ _ _, TContract; λ _ _ _, TToken_; λ _ _ _, TState; λ _ _ _, TInit; λ _ _ _, TPub; λ _ _ _, TView;
   λ _ _ _, TPure; λ _ _ _, TExternal; λ _ _ _, TPayable; λ _ _ _, TFn; λ _ _ _, TLet; λ _ _ _, TConst;
   λ _ _ _, TIf; λ _ _ _, TElse; λ _ _ _, TMatch; λ _ _ _, TFor; λ _ _ _, TWhile; λ _ _ _, TReturn;
   λ _ _ _, TImport; λ _ _ _, TFrom; λ _ _ _, TAs; λ _ _ _, TEmit; λ _ _ _, TAssert; λ _ _ _, TRevert;
   λ _ _ _, TSelfKw; λ _ _ _, TTrait; λ _ _ _, TImplements; λ _ _ _, TUses; λ _ _ _, TModifier; λ _ _ _, TUnchecked;
   λ _ _ _, TType; λ _ _ _, TStruct; λ _ _ _, TEnum; λ _ _ _, TInterface; λ _ _ _, TLibrary; λ _ _ _, TLoop;
   λ _ _ _, TBreak; λ _ _ _, TContinue; λ _ _ _, TTry; λ _ _ _, TCatch; λ _ _ _, TMut; λ _ _ _, TOf; λ _ _ _, TIn;
   λ _ _ _, TUsing; λ _ _ _, TError; λ _ _ _, TExtends; λ _ _ _, TNew; λ _ _ _, TReceive; λ _ _ _, TFallback;
   λ _ _ _, TImmutable; λ _ _ _, TEvent; λ _ _ _, TU8; λ _ _ _, TU16; λ _ _ _, TU32; λ _ _ _, TU64; λ _ _ _, TU128;
   λ _ _ _, TU256; λ _ _ _, TI8; λ _ _ _, TI16; λ _ _ _, TI32; λ _ _ _, TI64; λ _ _ _, TI128; λ _ _ _, TI256;
   λ _ _ _, TBool; λ _ _ _, TStringTy; λ _ _ _, TCharTy; λ _ _ _, TAddressTy; λ _ _ _, THashTy; λ _ _ _, TBytes;
   λ _ _ _, TArrayTy; λ _ _ _, TMapTy; λ _ _ _, TFastMapTy; λ _ _ _, TSetTy; λ _ _ _, TOptionTy; λ _ _ _, TResultTy;
   λ _ _ _, TDecimal; λ _ _ _, TOnlyOwner; λ _ _ _, TOnlyRole; λ _ _ _, TWhenNotPaused; λ _ _ _, TWhenPaused;
   λ _ _ _, TNonReentrant; λ _ _ _, TCooldown; λ _ _ _, TPayableAnn; λ _ _ _, TDeadline; λ _ _ _, TEstimateGas;
   λ _ _ _, TOnTransfer; λ _ _ _, TIndexed; λ _ _ _, TPrivate; λ _ _ _, TAgentCallable; λ _ l _, TAnnotation l;
   λ n _ _, TIntLiteral n; λ n l _, TIntLiteralTyped n l; λ _ l _, THexLiteral l; λ _ l _, TBinLiteral l;
   λ _ l _, TFloatLiteral l; λ _ l _, TStringLiteral l; λ _ l _, TBytesLiteral l; λ n _ _, TCharLiteral n;
   λ n _ _, TBoolLiteral (n =? 1); λ _ l _, TAddressLiteral l; λ _ _ s, TTemplateLiteral s; λ _ _ _, TUnitEther;
   λ _ _ _, TUnitGwei; λ _ _ _, TUnitMinutes; λ _ _ _, TUnitHours; λ _ _ _, TUnitDays; λ _ _ _, TUnitSeconds;
   λ _ _ _, TUnitTokens; λ _ _ _, TPlus; λ _ _ _, TMinus; λ _ _ _, TStar; λ _ _ _, TSlash; λ _ _ _, TPercent;
   λ _ _ _, TEq; λ _ _ _, TNotEq; λ _ _ _, TLt; λ _ _ _, TGt; λ _ _ _, TLtEq; λ _ _ _, TGtEq; λ _ _ _, TAnd;
   λ _ _ _, TOr; λ _ _ _, TNot; λ _ _ _, TBitAnd; λ _ _ _, TBitOr; λ _ _ _, TBitXor; λ _ _ _, TBitNot;
   λ _ _ _, TShl; λ _ _ _, TShr; λ _ _ _, TAssign; λ _ _ _, TPlusAssign; λ _ _ _, TMinusAssign;
   λ _ _ _, TStarAssign; λ _ _ _, TSlashAssign; λ _ _ _, TPercentAssign; λ _ _ _, TStarStar; λ _ _ _, TNullCoalesce;
   λ _ _ _, TArrow; λ _ _ _, TFatArrow; λ _ _ _, TQuestionMark; λ _ _ _, TUnderscore; λ _ _ _, TDot;
   λ _ _ _, TDotDot; λ _ _ _, TDotDotEq; λ _ _ _, TComma; λ _ _ _, TColon; λ _ _ _, TColonColon;
   λ _ _ _, TSemicolon; λ _ _ _, TLParen; λ _ _ _, TRParen; λ _ _ _, TLBrace; λ _ _ _, TRBrace; λ _ _ _, TLBracket;
   λ _ _ _, TRBracket; λ _ _ _, THash_; λ _ _ _, TAt; λ _ _ _, TDollar; λ _ _ _, TPipe; λ _ l _, TLineComment l;
   λ _ l _, TBlockComment l; λ _ l _, TDocComment l; λ _ l _, TIdentifier l; λ _ _ _, TNewline; λ _ _ _, TEof].
Definition token_decode (c : N * N * list N * list TemplateSegment) : option Token :=
  let '(k, n, l, s) := c in (λ f, f n l s) <$> token_table !! N.to_nat k.
Lemma token_decode_code t : token_decode (token_code t) = Some t.
Proof. destruct t; try reflexivity. by destruct b. Qed.
#[export] Instance token_code_inj : Inj (=) (=) token_code.
Proof. intros t1 t2 H. apply (inj Some). by rewrite <-!token_decode_code, H. Qed.
#[export] Instance Token_eq_dec : EqDecision Token.
Proof. intros t1 t2. destruct (decide (token_code t1 = token_code t2)) as [H|H]; [left; by apply (inj token_code)|right; congruence]. Defined.

(** ** [error.rs].  A message is represented by what it is built from. *)

Inductive LexMessage :=
  | UnterminatedString
  | UnknownEscape (c : N)
  | UnicodeEscapeNonHex (c : N)
  | UnterminatedUnicodeEscape
  | InvalidCodePoint (n : N)
  | UnterminatedBytes
  | UnknownBytesEscape (c : N)
  | NonAsciiInBytes (c : N)
  | HexEscapeNonHex (c : N)
  | UnterminatedHexEscape
  | UnterminatedTemplate
  | UnterminatedInterpolation
  | UnterminatedChar
  | UnknownCharEscape (c : N)
  | MissingClosingQuote
  | NoHexDigits
  | InvalidBinaryDigit (c : N)
  | NoBinaryDigits
  | InvalidIntSuffix (suffix : list N)
  | IntOverflow (digits : list N)
  | InvalidAddress (raw : list N) (reason : string)
  | UnexpectedHrp (hrp : list N)
  | InvalidAnnotation
  | UnterminatedBlockComment
  | UnexpectedEnd
  | UnexpectedCharacter (c : N).

(** Messages of the parser ([parser/error.rs] and the [format!] calls of the
    parser).  What is printed of a token is the token. *)
Inductive ParseMessage : Type :=
  | ExpectedGot (ctx : string) (got : Token)
  | ExpectedType (got : Token)
  | ExpectedIntLiteral (ctx : string) (got : Token)
  | PrecisionTooLarge (n : N)
  | ArraySizeTooLarge (n : N)
  | ExpectedPattern (got : Token)
  | UnexpectedInExpression (got : Token)
  | StrayUnitSuffix (got : Token)
  | NestingTooDeep
  | InInterpolation (error : LangError)
  | TrailingInInterpolation (got : Token)
  | LambdaParamNotIdent
  | UnknownCallOption (key : list N)
  | ExpectedOfOrIn (got : Token)
  | AnnotationsNotPermitted (before : Token)
  | ExpectedDeclaration (got : Token)
  | ExpectedAnnotation
  | ExpectedImportPath
  | UnexpectedMember (got : Token)
  | ExpectedConfigValue (got : Token)
  | ExpectedInterfaceMember (got : Token)
  | OnlyFunctionsInLibrary (got : Token)
with ParseError : Type :=
  | MkParseError (message : ParseMessage) (span : Span) (expected : list string)
(** [LangError::Lex] and [LangError::Parse]; the other variants belong to later
    stages. *)
with LangError : Type :=
  | Lex (message : LexMessage) (span : Span)
  | Parse (error : ParseError).

(** ** Text constants *)

Definition text (s : string) : list N := Ascii.N_of_ascii <$> String.list_ascii_of_string s.

Definition keywords : list (string * Token) :=
  [("contract", TContract); ("token", TToken_); ("state", TState); ("init", TInit); ("pub", TPub); ("view", TView);
   ("pure", TPure); ("external", TExternal); ("payable", TPayable); ("fn", TFn); ("let", TLet); ("const", TConst);
   ("if", TIf); ("else", TElse); ("match", TMatch); ("for", TFor); ("while", TWhile); ("return", TReturn);
   ("import", TImport); ("from", TFrom); ("as", TAs); ("emit", TEmit); ("assert", TAssert); ("revert", TRevert);
   ("self", TSelfKw); ("trait", TTrait); ("implements", TImplements); ("uses", TUses); ("modifier", TModifier);
   ("unchecked", TUnchecked); ("type", TType); ("struct", TStruct); ("enum", TEnum); ("interface", TInterface);
   ("library", TLibrary); ("loop", TLoop); ("break", TBreak); ("continue", TContinue); ("try", TTry); ("catch", TCatch);
   ("mut", TMut); ("of", TOf); ("in", TIn); ("using", TUsing); ("error", TError); ("extends", TExtends); ("new", TNew);
   ("receive", TReceive); ("fallback", TFallback); ("immutable", TImmutable); ("event", TEvent);
   ("u8", TU8); ("u16", TU16); ("u32", TU32); ("u64", TU64); ("u128", TU128); ("u256", TU256);
   ("i8", TI8); ("i16", TI16); ("i32", TI32); ("i64", TI64); ("i128", TI128); ("i256", TI256);
   ("bool", TBool); ("string", TStringTy); ("char", TCharTy); ("Address", TAddressTy); ("Hash", THashTy); ("bytes", TBytes);
   ("Array", TArrayTy); ("Map", TMapTy); ("FastMap", TFastMapTy); ("Set", TSetTy); ("Option", TOptionTy);
   ("Result", TResultTy); ("decimal", TDecimal); ("true", TBoolLiteral true); ("false", TBoolLiteral false)]%string.

Definition annotations : list (string * Token) :=
  [("onlyOwner", TOnlyOwner); ("onlyRole", TOnlyRole); ("whenNotPaused", TWhenNotPaused); ("whenPaused", TWhenPaused);
   ("nonReentrant", TNonReentrant); ("cooldown", TCooldown); ("payable", TPayableAnn); ("deadline", TDeadline);
   ("estimateGas", TEstimateGas); ("onTransfer", TOnTransfer); ("indexed", TIndexed); ("private", TPrivate);
   ("agentCallable", TAgentCallable)]%string.

Definition units : list (string * Token) :=
  [("ether", TUnitEther); ("gwei", TUnitGwei); ("minutes", TUnitMinutes); ("hours", TUnitHours); ("days", TUnitDays);
   ("seconds", TUnitSeconds); ("tokens", TUnitTokens)]%string.

(** A [match] on a string: the first entry with that text. *)
Definition match_text {A} (table : list (string * A)) (word : list N) : option A :=
  snd <$> (head (filter (λ kv, text kv.1 = word) table)).

Definition map_keyword (word : list N) : Token := default (TIdentifier word) (match_text keywords word).
Definition map_annotation (name : list N) : Token := default (TAnnotation name) (match_text annotations name).
