(* ===== verification/Lexer.v ===== *)
(** * The lexer of the contract language
      ([lemma-lang/src/lexer/mod.rs], [lexer/scanner/*.rs])

    The scanner's cursor is the text still to read with the byte offset, line and
    column reached; a slice of the source between two cursors is the text consumed
    between them.  Loops that consume one character per turn recurse on the text;
    the others take fuel, and [None] means it ran out.  Unicode's character
    classes and Bech32m checking are parameters. *)
From stdpp Require Import strings.
From S2P Require Import Prelude Trie LexToken.

(** ** Characters *)

Class Unicode := {
  is_alphabetic : N → bool;
  is_numeric : N → bool;
}.
Definition is_ascii_digit (c : N) : bool := (48 <=? c) && (c <=? 57).
Definition is_ascii_letter (c : N) : bool := ((65 <=? c) && (c <=? 90)) || ((97 <=? c) && (c <=? 122)).
Definition is_ascii_alphanumeric (c : N) : bool := is_ascii_letter c || is_ascii_digit c.
Definition is_ascii_hexdigit (c : N) : bool :=
  is_ascii_digit c || ((65 <=? c) && (c <=? 70)) || ((97 <=? c) && (c <=? 102)).

(** On ASCII the classes are the usual ones. *)
Class UnicodeLaws `{!Unicode} : Prop := {
  alphabetic_ascii c : c < 128 → is_alphabetic c = is_ascii_letter c;
  numeric_ascii c : c < 128 → is_numeric c = is_ascii_digit c;
}.

Definition len_utf8 (c : N) : N := if c <? 128 then 1 else if c <? 2048 then 2 else if c <? 65536 then 3 else 4.
Definition utf8_len (l : list N) : N := sumN (len_utf8 <$> l).
(** [char::from_u32]: surrogates and values above the last plane are refused. *)
Definition from_u32 (n : N) : option N :=
  if ((55296 <=? n) && (n <=? 57343)) || (1114112 <=? n) then None else Some n.
(** [from_str_radix] on hexadecimal digits. *)
Definition hex_value (c : N) : N :=
  if c <=? 57 then c - 48 else if c <=? 70 then c - 55 else c - 87.
Definition from_hex (l : list N) : N := foldl (λ acc c, 16 * acc + hex_value c) 0 l.

Notation c_nl := 10 (only parsing).
Notation c_quote := 34 (only parsing).
Notation c_backslash := 92 (only parsing).
Notation c_underscore := 95 (only parsing).

(** ** The cursor *)

Record Scanner := { sc_rest : list N; sc_pos : N; sc_line : N; sc_col : N }.
Record Mark := { m_offset : N; m_line : N; m_col : N }.

Definition Scanner_new (src : list N) : Scanner := {| sc_rest := src; sc_pos := 0; sc_line := 1; sc_col := 1 |}.
Definition is_at_end (self : Scanner) : bool := bool_decide (sc_rest self = []).
Definition peek (self : Scanner) : option N := head (sc_rest self).
Definition peek_next (self : Scanner) : option N := sc_rest self !! 1%nat.
Definition peek_two_ahead (self : Scanner) : option N := sc_rest self !! 2%nat.

(** Past the character [c], the first of the rest; lines and columns are [u32]. *)
Definition eat (self : Scanner) (c : N) : Scanner :=
  {| sc_rest := tail (sc_rest self); sc_pos := sc_pos self + len_utf8 c;
     sc_line := if c =? c_nl then (sc_line self + 1) mod 2 ^ 32 else sc_line self;
     sc_col := if c =? c_nl then 1 else (sc_col self + len_utf8 c) mod 2 ^ 32 |}.
Definition advance (self : Scanner) : Scanner * option N :=
  match sc_rest self with [] => (self, None) | c :: _ => (eat self c, Some c) end.
Definition advance_if (self : Scanner) (expected : N) : Scanner * bool :=
  if bool_decide (peek self = Some expected) then ((advance self).1, true) else (self, false).
Definition skip (self : Scanner) : Scanner := (advance self).1.

(** [while let Some(c) = self.peek() { if f(c) { advance } else { break } }], with
    the text it consumes. *)
Fixpoint advance_while_in (f : N → bool) (text : list N) (self : Scanner) : Scanner * list N :=
  match text with
  | c :: text => if f c then let '(self, l) := advance_while_in f text (eat self c) in (self, c :: l) else (self, [])
  | [] => (self, [])
  end.
Definition advance_while (f : N → bool) (self : Scanner) : Scanner * list N := advance_while_in f (sc_rest self) self.

Definition mark (self : Scanner) : Mark := {| m_offset := sc_pos self; m_line := sc_line self; m_col := sc_col self |}.
Definition span_from_mark (self : Scanner) (m : Mark) : Span :=
  {| line := m_line m; col := m_col m; offset := m_offset m; len := sc_pos self - m_offset m |}.
Definition span_single (line col offset : N) : Span := {| line := line; col := col; offset := offset; len := 1 |}.
Definition lex_error (message : LexMessage) (span : Span) : LangError := Lex message span.
Definition lex_error_at (self : Scanner) (m : Mark) (message : LexMessage) : LangError :=
  Lex message (span_from_mark self m).

(** The token with its span, and the cursor after it. *)
Notation Scanned := (result LangError (Scanner * (Token * Span))) (only parsing).
Definition emit (self : Scanner) (m : Mark) (t : Token) : Scanner * (Token * Span) := (self, (t, span_from_mark self m)).

(** ** Comments *)

Definition not_newline (c : N) : bool := negb (c =? c_nl).

Definition scan_doc_comment (self : Scanner) (m : Mark) : Scanner * (Token * Span) :=
  let self := skip (skip (skip self)) in
  let '(self, content) := advance_while not_newline self in emit self m (TDocComment content).

Definition scan_line_comment (self : Scanner) (m : Mark) : Scanner * (Token * Span) :=
  let self := skip (skip self) in
  let '(self, content) := advance_while not_newline self in emit self m (TLineComment content).

Fixpoint block_comment_loop (text : list N) (self : Scanner) (m : Mark) (content : list N) : Scanned :=
  match text with
  | [] => Err (lex_error_at self m UnterminatedBlockComment)
  | c :: text =>
      if (c =? 42) && bool_decide (head text = Some 47) then Ok (emit (skip (skip self)) m (TBlockComment content))
      else block_comment_loop text (eat self c) m (content ++ [c])
  end.
Definition scan_block_comment (self : Scanner) (m : Mark) : Scanned :=
  let self := skip (skip self) in block_comment_loop (sc_rest self) self m [].

(** ** Strings *)

(** Exactly [n] hexadecimal digits. *)
Fixpoint hex_digits (n : nat) (self : Scanner) (m : Mark) (hex : list N) (bad : N → LexMessage) (eof : LexMessage)
    : result LangError (Scanner * list N) :=
  match n with
  | O => Ok (self, hex)
  | S n =>
      let '(self, o) := advance self in
      match o with
      | Some c => if is_ascii_hexdigit c then hex_digits n self m (hex ++ [c]) bad eof else Err (lex_error_at self m (bad c))
      | None => Err (lex_error_at self m eof)
      end
  end.

Definition scan_unicode_escape (self : Scanner) (m : Mark) : result LangError (Scanner * N) :=
  '(self, hex) ← hex_digits 4 self m [] UnicodeEscapeNonHex UnterminatedUnicodeEscape;
  c ← ok_or (lex_error_at self m (InvalidCodePoint (from_hex hex))) (from_u32 (from_hex hex));
  Ok (self, c).

Definition scan_hex_byte_escape (self : Scanner) (m : Mark) : result LangError (Scanner * N) :=
  '(self, hex) ← hex_digits 2 self m [] HexEscapeNonHex UnterminatedHexEscape;
  Ok (self, from_hex hex).

(** n, t, r, backslash and 0, with the closing quote of the literal. *)
Definition simple_escape (quote c : N) : option N :=
  if c =? 110 then Some 10 else if c =? 116 then Some 9 else if c =? 114 then Some 13
  else if c =? c_backslash then Some c_backslash else if c =? quote then Some quote
  else if c =? 48 then Some 0 else None.

Definition string_escape (self : Scanner) (m : Mark) : result LangError (Scanner * N) :=
  let '(self, o) := advance (skip self) in
  match o with
  | None => Err (lex_error_at self m UnterminatedString)
  | Some c =>
      match simple_escape c_quote c with
      | Some v => Ok (self, v)
      | None => if c =? 117 then scan_unicode_escape self m else Err (lex_error_at self m (UnknownEscape c))
      end
  end.

Fixpoint string_loop (fuel : nat) (self : Scanner) (m : Mark) (value : list N) : option Scanned :=
  match fuel with
  | O => None
  | S fuel =>
      match peek self with
      | None => Some (Err (lex_error_at self m UnterminatedString))
      | Some c =>
          if c =? c_quote then Some (Ok (emit (skip self) m (TStringLiteral value)))
          else if c =? c_backslash then
            match string_escape self m with
            | Err e => Some (Err e)
            | Ok (self, v) => string_loop fuel self m (value ++ [v])
            end
          else string_loop fuel (skip self) m (value ++ [c])
      end
  end.
Definition scan_string (self : Scanner) (m : Mark) : option Scanned :=
  let self := skip self in string_loop (S (length (sc_rest self))) self m [].

Definition bytes_escape (self : Scanner) (m : Mark) : result LangError (Scanner * N) :=
  let '(self, o) := advance (skip self) in
  match o with
  | None => Err (lex_error_at self m UnterminatedBytes)
  | Some c =>
      match simple_escape c_quote c with
      | Some v => Ok (self, v)
      | None => if c =? 120 then scan_hex_byte_escape self m else Err (lex_error_at self m (UnknownBytesEscape c))
      end
  end.

Fixpoint bytes_loop (fuel : nat) (self : Scanner) (m : Mark) (value : list N) : option Scanned :=
  match fuel with
  | O => None
  | S fuel =>
      match peek self with
      | None => Some (Err (lex_error_at self m UnterminatedBytes))
      | Some c =>
          if c =? c_quote then Some (Ok (emit (skip self) m (TBytesLiteral value)))
          else if c =? c_backslash then
            match bytes_escape self m with
            | Err e => Some (Err e)
            | Ok (self, v) => bytes_loop fuel self m (value ++ [v])
            end
          else if c <? 128 then bytes_loop fuel (skip self) m (value ++ [c])
          else Some (Err (lex_error_at self m (NonAsciiInBytes c)))
      end
  end.
Definition scan_bytes_literal (self : Scanner) (m : Mark) : option Scanned :=
  let self := skip (skip self) in bytes_loop (S (length (sc_rest self))) self m [].

(** Up to the matching brace. *)
Fixpoint interpolation_loop (text : list N) (self : Scanner) (m : Mark) (depth : N) (expr : list N)
    : result LangError (Scanner * list N) :=
  match text with
  | [] => Err (lex_error_at self m UnterminatedInterpolation)
  | c :: text =>
      if c =? 123 then interpolation_loop text (eat self c) m (depth + 1) (expr ++ [c])
      else if c =? 125 then
        if depth =? 1 then Ok (eat self c, expr) else interpolation_loop text (eat self c) m (depth - 1) (expr ++ [c])
      else interpolation_loop text (eat self c) m depth (expr ++ [c])
  end.
Definition scan_template_interpolation (self : Scanner) (m : Mark) : result LangError (Scanner * list N) :=
  interpolation_loop (sc_rest self) self m 1 [].

Definition push_literal (segments : list TemplateSegment) (current : list N) : list TemplateSegment :=
  match current with [] => segments | _ => segments ++ [Literal current] end.

(** After the backslash: n and t are control characters, the rest stands for itself. *)
Definition template_escape (c : N) : N := if c =? 110 then 10 else if c =? 116 then 9 else c.

Fixpoint template_loop (fuel : nat) (self : Scanner) (m : Mark) (segments : list TemplateSegment) (current : list N)
    : option Scanned :=
  match fuel with
  | O => None
  | S fuel =>
      match peek self with
      | None => Some (Err (lex_error_at self m UnterminatedTemplate))
      | Some c =>
          if c =? 96 then Some (Ok (emit (skip self) m (TTemplateLiteral (push_literal segments current))))
          else if (c =? 36) && bool_decide (peek_next self = Some 123) then
            match scan_template_interpolation (skip (skip self)) m with
            | Err e => Some (Err e)
            | Ok (self, expr) => template_loop fuel self m (push_literal segments current ++ [Interpolation expr]) []
            end
          else if c =? c_backslash then
            let '(self, o) := advance (skip self) in
            match o with
            | Some c => template_loop fuel self m segments (current ++ [template_escape c])
            | None => Some (Err (lex_error_at self m UnterminatedTemplate))
            end
          else template_loop fuel (skip self) m segments (current ++ [c])
      end
  end.
Definition scan_template (self : Scanner) (m : Mark) : option Scanned :=
  let self := skip self in template_loop (S (length (sc_rest self))) self m [] [].

Definition char_escape (self : Scanner) (m : Mark) : result LangError (Scanner * N) :=
  let '(self, o) := advance self in
  match o with
  | None => Err (lex_error_at self m UnterminatedChar)
  | Some c =>
      match simple_escape 39 c with
      | Some v => Ok (self, v)
      | None => if c =? 117 then scan_unicode_escape self m else Err (lex_error_at self m (UnknownCharEscape c))
      end
  end.

Definition scan_char (self : Scanner) (m : Mark) : Scanned :=
  let '(self, o) := advance (skip self) in
  '(self, c) ← match o with
    | None => Err (lex_error_at self m UnterminatedChar)
    | Some c => if c =? c_backslash then char_escape self m else Ok (self, c)
    end;
  let '(self, closed) := advance_if self 39 in
  if closed : bool then Ok (emit self m (TCharLiteral c)) else Err (lex_error_at self m MissingClosingQuote).

(** ** Numbers *)

Definition no_underscores (l : list N) : list N := filter (λ c, c ≠ c_underscore) l.

(** [parse::<u128>] of decimal digits. *)
Definition decimal_value (digits : list N) : N := foldl (λ acc c, 10 * acc + (c - 48)) 0 digits.
Definition parse_u128 (digits : list N) (m : Mark) : result LangError N :=
  if decimal_value digits <=? u128_max then Ok (decimal_value digits)
  else Err (Lex (IntOverflow digits)
         {| line := m_line m; col := m_col m; offset := m_offset m; len := N.of_nat (length digits) |}).

Definition is_int_suffix (suffix : list N) : bool :=
  existsb (λ s, bool_decide (text s = suffix))
    ["u8"; "u16"; "u32"; "u64"; "u128"; "u256"; "i8"; "i16"; "i32"; "i64"; "i128"; "i256"]%string.

(** The digits are hexadecimal by the loop's condition, so the source's second test
    of them never fails. *)
Definition scan_hex (self : Scanner) (m : Mark) : Scanned :=
  let self := skip (skip self) in
  let '(self, digits) := advance_while (λ c, is_ascii_hexdigit c || (c =? c_underscore)) self in
  if bool_decide (digits = []) then Err (lex_error_at self m NoHexDigits)
  else Ok (emit self m (THexLiteral (no_underscores digits))).

Definition scan_binary (self : Scanner) (m : Mark) : Scanned :=
  let self := skip (skip self) in
  let '(self, digits) := advance_while (λ c, (c =? 48) || (c =? 49) || (c =? c_underscore)) self in
  match peek self with
  | Some c =>
      if is_ascii_digit c then Err (lex_error_at self m (InvalidBinaryDigit c))
      else if bool_decide (digits = []) then Err (lex_error_at self m NoBinaryDigits)
      else Ok (emit self m (TBinLiteral (no_underscores digits)))
  | None =>
      if bool_decide (digits = []) then Err (lex_error_at self m NoBinaryDigits)
      else Ok (emit self m (TBinLiteral (no_underscores digits)))
  end.

Section scanner.
Context {U : Unicode} (bech32m_hrp : list N → result string (list N)).

Definition is_alphanumeric (c : N) : bool := is_alphabetic c || is_numeric c.
Definition is_ident_start (c : N) : bool := is_alphabetic c || (c =? c_underscore).
Definition is_ident_continue (c : N) : bool := is_alphanumeric c || (c =? c_underscore).

Definition digit_or_underscore (c : N) : bool := is_ascii_digit c || (c =? c_underscore).

(** After the integer part: a typed suffix or the plain literal. *)
Definition int_suffix (self : Scanner) (m : Mark) (int_raw : list N) : Scanned :=
  match peek self with
  | Some c =>
      if is_alphabetic c then
        let '(self, suffix) := advance_while is_alphanumeric self in
        if is_int_suffix suffix then value ← parse_u128 int_raw m; Ok (emit self m (TIntLiteralTyped value suffix))
        else Err (lex_error_at self m (InvalidIntSuffix suffix))
      else value ← parse_u128 int_raw m; Ok (emit self m (TIntLiteral value))
  | None => value ← parse_u128 int_raw m; Ok (emit self m (TIntLiteral value))
  end.

Definition scan_decimal (self : Scanner) (m : Mark) : Scanned :=
  let '(self, int_part) := advance_while digit_or_underscore self in
  let int_raw := no_underscores int_part in
  match (if bool_decide (peek self = Some 46) then peek_next self else None) with
  | Some nc =>
      if is_ascii_digit nc then
        let '(self, fraction) := advance_while digit_or_underscore (skip self) in
        Ok (emit self m (TFloatLiteral (int_part ++ 46 :: fraction)))
      else if is_alphabetic nc then value ← parse_u128 int_raw m; Ok (emit self m (TIntLiteral value))
      else int_suffix self m int_raw
  | None => int_suffix self m int_raw
  end.

Definition scan_number (self : Scanner) (m : Mark) : Scanned :=
  match (if bool_decide (peek self = Some 48) then peek_next self else None) with
  | Some c =>
      if (c =? 120) || (c =? 88) then scan_hex self m
      else if (c =? 98) || (c =? 66) then scan_binary self m
      else scan_decimal self m
  | None => scan_decimal self m
  end.

(** ** Addresses, annotations, identifiers *)

Definition starts_address_literal (self : Scanner) : bool :=
  existsb (λ p, bool_decide (text p `prefix_of` sc_rest self)) ["lem1"; "tlem1"; "dlem1"]%string.

Definition scan_address_literal (self : Scanner) (m : Mark) : Scanned :=
  let '(self, raw) := advance_while (λ c, is_ascii_alphanumeric c || (c =? c_underscore)) self in
  match bech32m_hrp raw with
  | Ok hrp =>
      if existsb (λ p, bool_decide (text p = hrp)) ["lem"; "tlem"; "dlem"]%string
      then Ok (emit self m (TAddressLiteral raw))
      else Err (lex_error_at self m (UnexpectedHrp hrp))
  | Err e => Err (lex_error_at self m (InvalidAddress raw e))
  end.

Definition scan_annotation (self : Scanner) (m : Mark) : Scanned :=
  let self := skip self in
  match peek self with
  | Some c =>
      if is_ident_start c then
        let '(self, name) := advance_while is_ident_continue self in Ok (emit self m (map_annotation name))
      else Err (lex_error InvalidAnnotation (span_single (m_line m) (m_col m) (m_offset m)))
  | None => Err (lex_error InvalidAnnotation (span_single (m_line m) (m_col m) (m_offset m)))
  end.

Definition scan_identifier (self : Scanner) (m : Mark) : Scanner * (Token * Span) :=
  let '(self, word) := advance_while is_ident_continue self in emit self m (map_keyword word).

(** ** Operators *)

(** One character of lookahead: the first alternative that follows, or the default. *)
Fixpoint advance_alt (alts : list (N * Token)) (self : Scanner) (t : Token) : Scanner * Token :=
  match alts with
  | [] => (self, t)
  | (c, t') :: alts => let '(self, hit) := advance_if self c in if hit : bool then (self, t') else advance_alt alts self t
  end.

(** The operators that may continue: first character, alternatives, the short form. *)
Definition operator_alts : list (N * (list (N * Token) * Token)) :=
  [(45, ([(62, TArrow); (61, TMinusAssign)], TMinus)); (61, ([(62, TFatArrow); (61, TEq)], TAssign));
   (58, ([(58, TColonColon)], TColon)); (33, ([(61, TNotEq)], TNot)); (60, ([(60, TShl); (61, TLtEq)], TLt));
   (62, ([(62, TShr); (61, TGtEq)], TGt)); (38, ([(38, TAnd)], TBitAnd)); (124, ([(124, TOr)], TPipe));
   (43, ([(61, TPlusAssign)], TPlus)); (42, ([(42, TStarStar); (61, TStarAssign)], TStar));
   (47, ([(61, TSlashAssign)], TSlash)); (37, ([(61, TPercentAssign)], TPercent)); (94, ([], TBitXor)); (126, ([], TBitNot));
   (63, ([(63, TNullCoalesce)], TQuestionMark)); (95, ([], TUnderscore)); (44, ([], TComma)); (59, ([], TSemicolon));
   (40, ([], TLParen)); (41, ([], TRParen)); (123, ([], TLBrace)); (125, ([], TRBrace)); (91, ([], TLBracket));
   (93, ([], TRBracket)); (35, ([], THash_)); (36, ([], TDollar)); (64, ([], TAt))].

Definition scan_operator (self : Scanner) (m : Mark) : Scanned :=
  let '(self, o) := advance self in
  match o with
  | None => Err (lex_error UnexpectedEnd (Span_at (m_line m) (m_col m) (m_offset m)))
  | Some c =>
      if c =? 46 then
        if bool_decide (peek self = Some 46) && bool_decide (peek_next self = Some 61)
        then Ok (emit (skip (skip self)) m TDotDotEq)
        else let '(self, t) := advance_alt [(46, TDotDot)] self TDot in Ok (emit self m t)
      else
        match snd <$> head (filter (λ a, a.1 = c) operator_alts) with
        | Some (alts, t) => let '(self, t) := advance_alt alts self t in Ok (emit self m t)
        | None => Err (lex_error_at self m (UnexpectedCharacter c))
        end
  end.

(** ** The next token *)

Definition is_blank (c : N) : bool := (c =? 32) || (c =? 9) || (c =? 13).

(** By the first character; the order of the tests is the source's. *)
Definition scan_token (self : Scanner) (c : N) : option Scanned :=
  let m := mark self in
  if c =? c_nl then Some (Ok (emit (skip self) m TNewline)) else
  if (c =? 47) && bool_decide (peek_next self = Some 47) then
    if bool_decide (peek_two_ahead self = Some 47) then Some (Ok (scan_doc_comment self m))
    else Some (Ok (scan_line_comment self m))
  else if (c =? 47) && bool_decide (peek_next self = Some 42) then Some (scan_block_comment self m) else
  if c =? c_quote then scan_string self m else
  if (c =? 98) && bool_decide (peek_next self = Some c_quote) then scan_bytes_literal self m else
  if c =? 96 then scan_template self m else
  if c =? 39 then Some (scan_char self m) else
  if is_ascii_digit c then Some (scan_number self m) else
  if starts_address_literal self then Some (scan_address_literal self m) else
  if c =? 64 then Some (scan_annotation self m) else
  if is_ident_start c then Some (Ok (scan_identifier self m)) else
  Some (scan_operator self m).

(** The loop skips blanks. *)
Definition skip_blanks (self : Scanner) : Scanner := (advance_while is_blank self).1.
Definition next_token (self : Scanner) : Scanner * option (option Scanned) :=
  let self := skip_blanks self in (self, scan_token self <$> peek self).

Definition try_scan_unit_suffix (self : Scanner) : option (Scanner * (Token * Span)) :=
  if negb (bool_decide (peek self = Some 46)) then None else
  let suffix := (advance_while is_alphabetic (skip self)).2 in
  if bool_decide (suffix = []) then None else
  unit ← match_text units suffix;
  let m := mark self in
  Some (emit (Nat.iter (N.to_nat (utf8_len suffix)) skip (skip self)) m unit).

Definition is_int (t : Token) : bool := match t with TIntLiteral _ | TIntLiteralTyped _ _ => true | _ => false end.

Fixpoint tokenize_loop (fuel : nat) (self : Scanner) (src_len : N) (tokens : list (Token * Span))
    : option (result LangError (list (Token * Span))) :=
  match fuel with
  | O => None
  | S fuel =>
      let '(self, next) := next_token self in
      match next with
      | None => Some (Ok (tokens ++ [(TEof, Span_at (sc_line self) (sc_col self) src_len)]))
      | Some scanned =>
          and_then scanned (λ '(self, tok),
            let tokens := tokens ++ [tok] in
            if is_int tok.1 then
              match try_scan_unit_suffix self with
              | Some (self, unit) => tokenize_loop fuel self src_len (tokens ++ [unit])
              | None => tokenize_loop fuel self src_len tokens
              end
            else tokenize_loop fuel self src_len tokens)
      end
  end.

Definition tokenize (source : list N) : option (result LangError (list (Token * Span))) :=
  tokenize_loop (S (length source)) (Scanner_new source) (utf8_len source) [].
End scanner.
