(* ===== verification/LexerSpec.v ===== *)
(** * What the lexer guarantees

    Totality, the layout of the token stream over the source, and the round trip
    of printed tokens. *)
From stdpp Require Import strings.
From S2P Require Import Prelude Trie LexToken Lexer.

(** ** Consuming text *)

Definition eat_all (s : Scanner) (l : list N) : Scanner := foldl eat s l.

(** From [s], the text [l] has been read and [s'] is the cursor after it. *)
Definition consumes (s : Scanner) (l : list N) (s' : Scanner) : Prop := sc_rest s = l ++ sc_rest s' ∧ s' = eat_all s l.
Definition reads (s s' : Scanner) : Prop := ∃ l, consumes s l s'.
Definition progress (s s' : Scanner) : Prop := ∃ c l, consumes s (c :: l) s'.

Lemma consumes_refl s : consumes s [] s.
Proof. done. Qed.
Lemma consumes_trans s1 l1 s2 l2 s3 : consumes s1 l1 s2 → consumes s2 l2 s3 → consumes s1 (l1 ++ l2) s3.
Proof. intros [H1 ->] [H2 ->]. split; [by rewrite H1, H2, app_assoc|]. unfold eat_all. by rewrite foldl_app. Qed.
Lemma consumes_eat s c r : sc_rest s = c :: r → consumes s [c] (eat s c).
Proof. intros H. split; [|done]. cbn. by rewrite H. Qed.

Lemma reads_refl s : reads s s.
Proof. exists []. apply consumes_refl. Qed.
Lemma reads_trans s1 s2 s3 : reads s1 s2 → reads s2 s3 → reads s1 s3.
Proof. intros [l1 H1] [l2 H2]. eexists. by eapply consumes_trans. Qed.
Lemma progress_reads s1 s2 s3 : progress s1 s2 → reads s2 s3 → progress s1 s3.
Proof. intros (c & l1 & H1) [l2 H2]. exists c, (l1 ++ l2). exact (consumes_trans _ _ _ _ _ H1 H2). Qed.
Lemma reads_progress s1 s2 s3 : reads s1 s2 → progress s2 s3 → progress s1 s3.
Proof.
  intros [[|c l1] H1] (c2 & l2 & H2); pose proof (consumes_trans _ _ _ _ _ H1 H2) as H; [by exists c2, l2|by exists c, (l1 ++ c2 :: l2)].
Qed.
Lemma progress_weak s1 s2 : progress s1 s2 → reads s1 s2.
Proof. intros (c & l & H). by exists (c :: l). Qed.
Lemma reads_eat s c r : sc_rest s = c :: r → progress s (eat s c).
Proof. intros H. exists c, []. by eapply consumes_eat. Qed.
Lemma reads_skip s : reads s (skip s).
Proof.
  unfold skip, advance. destruct (sc_rest s) as [|c r] eqn:H; [apply reads_refl|]. by eapply progress_weak, reads_eat.
Qed.
Lemma progress_skip s c : peek s = Some c → progress s (skip s).
Proof.
  unfold peek, skip, advance. destruct (sc_rest s) as [|c' r] eqn:H; [done|]. intros _. by eapply reads_eat.
Qed.
Lemma advance_skip s : advance s = (skip s, peek s).
Proof. unfold skip, advance, peek. by destruct (sc_rest s). Qed.
Lemma length_reads s s' : reads s s' → (length (sc_rest s') <= length (sc_rest s))%nat.
Proof. intros [l [-> _]]. rewrite length_app. lia. Qed.
Lemma length_progress s s' : progress s s' → (length (sc_rest s') < length (sc_rest s))%nat.
Proof. intros (c & l & [-> _]). cbn. rewrite length_app. lia. Qed.

Create HintDb lex_db.
#[export] Hint Resolve reads_refl reads_skip progress_skip progress_weak : lex_db.
#[export] Hint Extern 2 (reads _ _) => eapply reads_trans; [|solve [eauto 3 with lex_db]] : lex_db.

Lemma advance_while_spec f s s' l :
  advance_while f s = (s', l) → consumes s l s' ∧ Forall (λ c, f c = true) l ∧ from_option f false (peek s') = false.
Proof.
  unfold advance_while. remember (sc_rest s) as t eqn:Ht. revert s s' l Ht.
  induction t as [|c t IH]; intros s s' l Ht; cbn; [intros [= <- <-]; unfold peek; rewrite <-Ht; auto using consumes_refl|].
  destruct (f c) eqn:Hf; [|intros [= <- <-]; unfold peek; rewrite <-Ht; auto using consumes_refl].
  destruct (advance_while_in f t (eat s c)) as [s1 l1] eqn:Hw. intros [= <- <-].
  apply IH in Hw as (H1 & H2 & H3); [|cbn; by rewrite <-Ht]. split; [|auto].
  exact (consumes_trans s [c] (eat s c) l1 s1 (consumes_eat s c t (eq_sym Ht)) H1).
Qed.

Lemma advance_while_reads f s s' l : advance_while f s = (s', l) → reads s s'.
Proof. intros H. exists l. by eapply advance_while_spec. Qed.

(** When the first character passes, the loop starts with a [skip]. *)
Lemma advance_while_first f s c s' l : peek s = Some c → f c = true → advance_while f s = (s', l) → reads (skip s) s'.
Proof.
  unfold peek, advance_while, skip, advance. destruct (sc_rest s) as [|c' t] eqn:Hs; [done|]. intros [= ->] Hf. cbn. rewrite Hf.
  destruct (advance_while_in f t (eat s c)) as [s1 l1] eqn:Hw. intros [= <- <-].
  apply (advance_while_reads f (eat s c) s1 l1). unfold advance_while. cbn. by rewrite Hs.
Qed.

Lemma advance_if_reads s c s' b : advance_if s c = (s', b) → reads s s'.
Proof. unfold advance_if. rewrite advance_skip. case_bool_decide; intros [= <- <-]; auto with lex_db. Qed.

Lemma advance_alt_reads alts : ∀ s t s' t', advance_alt alts s t = (s', t') → reads s s'.
Proof.
  induction alts as [|[c a] alts IH]; intros s t s' t'; cbn; [intros [= <- <-]; apply reads_refl|].
  destruct (advance_if s c) as [s1 []] eqn:Hi; apply advance_if_reads in Hi; [by intros [= <- <-]|].
  intros H. eapply reads_trans; [done|by eapply IH].
Qed.

(** ** Scanning functions *)

(** Not the end marker, and no text inside a template longer than [bound]. *)
Definition token_fits (bound : nat) (t : Token) : Prop :=
  match t with TEof => False | TTemplateLiteral segs => (list_max (segment_size <$> segs) <= bound)%nat | _ => True end.
Lemma token_fits_not_eof bound t : token_fits bound t → t ≠ TEof.
Proof. by intros H ->. Qed.
Lemma token_fits_size bound t : token_fits bound t → (template_size t <= bound)%nat.
Proof. destruct t; cbn; try lia; done. Qed.

Section fits.
Context (bound : nat).

(** A successful scan has read on to its cursor, and its span is from the mark to it. *)
Definition scans (s : Scanner) (m : Mark) (r : result LangError (Scanner * (Token * Span))) : Prop :=
  match r with Ok (s', (t, sp)) => reads s s' ∧ sp = span_from_mark s' m ∧ token_fits bound t | Err _ => True end.
(** The same, and the fuel was enough. *)
Definition scans_opt s m (r : option (result LangError (Scanner * (Token * Span)))) : Prop := ∃ r', r = Some r' ∧ scans s m r'.

Lemma scans_emit s s' m t : reads s s' → token_fits bound t → scans s m (Ok (emit s' m t)).
Proof. by intros. Qed.
Lemma scans_reads s1 s2 m r : reads s1 s2 → scans s2 m r → scans s1 m r.
Proof. destruct r as [[s' [t sp]]|]; [|done]. intros H (H2 & H3). split; [by eapply reads_trans|done]. Qed.
Lemma scans_bind {A} s m (r : result LangError A) k : (∀ a, r = Ok a → scans s m (k a)) → scans s m (a ← r; k a).
Proof. destruct r; cbn; auto. Qed.

Lemma scan_line_comment_spec s m : scans (skip s) m (Ok (scan_line_comment s m)).
Proof.
  unfold scan_line_comment. destruct (advance_while _ _) as [s' l] eqn:H. apply advance_while_reads in H.
  apply scans_emit; [|done]. eapply reads_trans; [|exact H]. apply reads_skip.
Qed.
Lemma scan_doc_comment_spec s m : scans (skip s) m (Ok (scan_doc_comment s m)).
Proof.
  unfold scan_doc_comment. destruct (advance_while _ _) as [s' l] eqn:H. apply advance_while_reads in H.
  apply scans_emit; [|done]. eapply reads_trans; [|exact H]. eapply reads_trans; apply reads_skip.
Qed.

Lemma block_comment_loop_spec text : ∀ s m content, sc_rest s = text → scans s m (block_comment_loop text s m content).
Proof.
  induction text as [|c text IH]; intros s m content Hs; [done|]. cbn [block_comment_loop]. destruct (_ && _).
  - apply scans_emit; [|done]. eapply reads_trans; apply reads_skip.
  - eapply scans_reads; [by eapply progress_weak, reads_eat|]. apply IH. cbn. by rewrite Hs.
Qed.
Lemma scan_block_comment_spec s m : scans (skip s) m (scan_block_comment s m).
Proof. eapply scans_reads; [|by apply block_comment_loop_spec]. apply reads_skip. Qed.

(** Escapes *)
Lemma hex_digits_reads n : ∀ s m hex bad eof s' l, hex_digits n s m hex bad eof = Ok (s', l) → reads s s'.
Proof.
  induction n as [|n IH]; intros s m hex bad eof s' l; cbn; [intros [= <- <-]; apply reads_refl|].
  rewrite advance_skip. destruct (peek s); [|done]. destruct (is_ascii_hexdigit _); [|done].
  intros H%IH. eapply reads_trans; [apply reads_skip|done].
Qed.
Lemma unicode_escape_reads s m s' c : scan_unicode_escape s m = Ok (s', c) → reads s s'.
Proof.
  unfold scan_unicode_escape. intros ([s1 h] & H1 & H2)%bind_Ok. apply bind_Ok in H2 as (? & _ & [= <- _]).
  by eapply hex_digits_reads.
Qed.
Lemma hex_escape_reads s m s' c : scan_hex_byte_escape s m = Ok (s', c) → reads s s'.
Proof. unfold scan_hex_byte_escape. intros ([s1 h] & H1 & [= <- _])%bind_Ok. by eapply hex_digits_reads. Qed.

Ltac escape_reads :=
  repeat (rewrite advance_skip || case_match || intros); simplify_eq;
  repeat match goal with
  | H : scan_unicode_escape _ _ = Ok _ |- _ => apply unicode_escape_reads in H
  | H : scan_hex_byte_escape _ _ = Ok _ |- _ => apply hex_escape_reads in H
  end;
  try done; eauto using reads_trans, reads_skip.

Lemma string_escape_reads s m s' c : string_escape s m = Ok (s', c) → reads (skip s) s'.
Proof. unfold string_escape. escape_reads. Qed.
Lemma bytes_escape_reads s m s' c : bytes_escape s m = Ok (s', c) → reads (skip s) s'.
Proof. unfold bytes_escape. escape_reads. Qed.
Lemma char_escape_reads s m s' c : char_escape s m = Ok (s', c) → reads s s'.
Proof. unfold char_escape. escape_reads. Qed.

(** The loops with fuel *)
Lemma scans_opt_reads s1 s2 m r : reads s1 s2 → scans_opt s2 m r → scans_opt s1 m r.
Proof. intros H (r' & -> & Hr). exists r'. split; [done|by eapply scans_reads]. Qed.
Lemma scans_opt_err s m e : scans_opt s m (Some (Err e)).
Proof. by eexists. Qed.
Lemma scans_opt_some s m r : scans s m r → scans_opt s m (Some r).
Proof. by eexists. Qed.

(** A further turn of a loop on a shorter rest. *)
Lemma scans_opt_turn (loop : Scanner → option (result LangError (Scanner * (Token * Span)))) fuel s s' m :
  (∀ s, (length (sc_rest s) < fuel)%nat → scans_opt s m (loop s)) →
  (length (sc_rest s) < S fuel)%nat → progress s s' → scans_opt s m (loop s').
Proof.
  intros IH Hf Hp. pose proof (length_progress _ _ Hp). eapply scans_opt_reads; [by apply progress_weak|apply IH; lia].
Qed.

Lemma string_loop_spec fuel : ∀ s m value, (length (sc_rest s) < fuel)%nat → scans_opt s m (string_loop fuel s m value).
Proof.
  induction fuel as [|fuel IH]; intros s m value Hf; [lia|]. cbn. destruct (peek s) as [c|] eqn:Hp; [|apply scans_opt_err].
  pose proof (progress_skip s c Hp) as Hs.
  destruct (c =? 34); [apply scans_opt_some, scans_emit; [by apply progress_weak|done]|].
  destruct (c =? 92); [|eapply (scans_opt_turn (λ s, string_loop fuel s m (value ++ [c]))); eauto].
  destruct (string_escape s m) as [[s' v]|] eqn:He; [|apply scans_opt_err]. apply string_escape_reads in He.
  eapply (scans_opt_turn (λ s, string_loop fuel s m (value ++ [v]))); eauto using progress_reads.
Qed.

Lemma bytes_loop_spec fuel : ∀ s m value, (length (sc_rest s) < fuel)%nat → scans_opt s m (bytes_loop fuel s m value).
Proof.
  induction fuel as [|fuel IH]; intros s m value Hf; [lia|]. cbn. destruct (peek s) as [c|] eqn:Hp; [|apply scans_opt_err].
  pose proof (progress_skip s c Hp) as Hs.
  destruct (c =? 34); [apply scans_opt_some, scans_emit; [by apply progress_weak|done]|].
  destruct (c =? 92).
  - destruct (bytes_escape s m) as [[s' v]|] eqn:He; [|apply scans_opt_err]. apply bytes_escape_reads in He.
    eapply (scans_opt_turn (λ s, bytes_loop fuel s m (value ++ [v]))); eauto using progress_reads.
  - destruct (c <? 128); [|apply scans_opt_err]. eapply (scans_opt_turn (λ s, bytes_loop fuel s m (value ++ [c]))); eauto.
Qed.

Lemma interpolation_loop_reads text : ∀ s m depth expr s' e,
  sc_rest s = text → interpolation_loop text s m depth expr = Ok (s', e) →
  reads s s' ∧ (length e < length expr + length text)%nat.
Proof.
  induction text as [|c text IH]; intros s m depth expr s' e Hs; [done|]. cbn [interpolation_loop].
  assert (progress s (eat s c)) as Hp by (by eapply reads_eat).
  assert (sc_rest (eat s c) = text) as He by (cbn; by rewrite Hs).
  destruct (c =? 123); [|destruct (c =? 125); [destruct (depth =? 1)|]].
  1, 3, 4: intros H; apply IH in H as [H1 H2]; [|done]; rewrite length_app in H2; cbn in *; split;
    [eapply reads_trans; [by apply progress_weak|done]|lia].
  intros [= <- <-]. cbn. split; [by apply progress_weak|lia].
Qed.

Lemma list_max_snoc (l : list nat) x : list_max (l ++ [x]) = Nat.max (list_max l) x.
Proof. rewrite list_max_app. cbn. lia. Qed.
Lemma push_literal_fits segs cur :
  (list_max (segment_size <$> segs) <= bound → list_max (segment_size <$> push_literal segs cur) <= bound)%nat.
Proof. intros H. unfold push_literal. destruct cur; [done|]. rewrite fmap_app. cbn. rewrite list_max_snoc. lia. Qed.

Lemma template_loop_spec fuel : ∀ s m segs cur,
  (length (sc_rest s) < fuel)%nat → (length (sc_rest s) <= bound)%nat → (list_max (segment_size <$> segs) <= bound)%nat →
  scans_opt s m (template_loop fuel s m segs cur).
Proof.
  induction fuel as [|fuel IH]; intros s m segs cur Hf Hn Hsegs; [lia|]. cbn. destruct (peek s) as [c|] eqn:Hp; [|apply scans_opt_err].
  pose proof (progress_skip s c Hp) as Hs.
  assert (∀ s' segs' cur', progress s s' → (list_max (segment_size <$> segs') <= bound)%nat →
    scans_opt s m (template_loop fuel s' m segs' cur')) as Hturn.
  { intros s' segs' cur' Hp' Hs'. pose proof (length_progress _ _ Hp').
    eapply scans_opt_reads; [by apply progress_weak|apply IH; [lia|lia|done]]. }
  destruct (c =? 96); [apply scans_opt_some, scans_emit; [by apply progress_weak|by apply push_literal_fits]|].
  destruct (_ && _).
  - destruct (scan_template_interpolation _ m) as [[s' e]|] eqn:He; [|apply scans_opt_err].
    apply interpolation_loop_reads in He as [He Hl]; [|done]. apply Hturn.
    + eauto using progress_reads, reads_trans, reads_skip.
    + rewrite fmap_app. cbn. rewrite list_max_snoc. cbn [segment_size length] in *. pose proof (push_literal_fits segs cur Hsegs).
      pose proof (length_reads _ _ (reads_trans _ _ _ (progress_weak _ _ Hs) (reads_skip (skip s)))). lia.
  - destruct (c =? 92).
    + rewrite advance_skip. destruct (peek (skip s)); [|apply scans_opt_err]. apply Hturn; eauto using progress_reads, reads_skip.
    + apply Hturn; eauto.
Qed.

Lemma scan_string_spec s m : scans_opt (skip s) m (scan_string s m).
Proof. apply string_loop_spec. lia. Qed.
Lemma scan_bytes_spec s m : scans_opt (skip s) m (scan_bytes_literal s m).
Proof. eapply scans_opt_reads; [apply reads_skip|apply bytes_loop_spec; lia]. Qed.
Lemma scan_template_spec s m : (length (sc_rest s) <= bound)%nat → scans_opt (skip s) m (scan_template s m).
Proof. intros Hn. pose proof (length_reads _ _ (reads_skip s)). apply template_loop_spec; [lia|lia|cbn; lia]. Qed.

Lemma scan_char_spec s m : scans (skip s) m (scan_char s m).
Proof.
  unfold scan_char. rewrite advance_skip. apply scans_bind. intros [s1 c] H.
  assert (reads (skip s) s1) as H1.
  { destruct (peek (skip s)); [|done]. destruct (_ =? 92); [apply char_escape_reads in H|injection H as <- <-];
      eauto using reads_trans, reads_skip. }
  destruct (advance_if s1 39) as [s2 []] eqn:Ha; [|done]. apply advance_if_reads in Ha.
  apply scans_emit; [by eapply reads_trans|done].
Qed.

(** Numbers *)
Lemma scan_hex_spec s m : scans (skip s) m (scan_hex s m).
Proof.
  unfold scan_hex. destruct (advance_while _ _) as [s' l] eqn:H. apply advance_while_reads in H. case_bool_decide; [done|].
  apply scans_emit; [eauto using reads_trans, reads_skip|done].
Qed.
Lemma scan_binary_spec s m : scans (skip s) m (scan_binary s m).
Proof.
  unfold scan_binary. destruct (advance_while _ _) as [s' l] eqn:H. apply advance_while_reads in H.
  assert (reads (skip s) s') by eauto using reads_trans, reads_skip.
  destruct (peek s'); [destruct (is_ascii_digit _); [done|]|]; (case_bool_decide; [done|by apply scans_emit]).
Qed.

Section scanner.
Context {U : Unicode} (bech32m_hrp : list N → result string (list N)).

Lemma int_suffix_spec s m raw : scans s m (int_suffix s m raw).
Proof.
  unfold int_suffix. destruct (peek s) as [c|]; [destruct (is_alphabetic c)|].
  - destruct (advance_while _ _) as [s' l] eqn:H. apply advance_while_reads in H. destruct (is_int_suffix l); [|done].
    apply scans_bind. intros v _. by apply scans_emit.
  - apply scans_bind. intros v _. apply scans_emit; [apply reads_refl|done].
  - apply scans_bind. intros v _. apply scans_emit; [apply reads_refl|done].
Qed.

Lemma scan_decimal_spec s m c : peek s = Some c → is_ascii_digit c = true → scans (skip s) m (scan_decimal s m).
Proof.
  intros Hp Hd. unfold scan_decimal. destruct (advance_while _ _) as [s1 l] eqn:H.
  eapply advance_while_first in H; [|done|unfold digit_or_underscore; by rewrite Hd].
  eapply scans_reads; [exact H|]. destruct (if bool_decide _ then _ else _) as [nc|]; [|apply int_suffix_spec].
  destruct (is_ascii_digit nc); [|destruct (is_alphabetic nc); [|apply int_suffix_spec]].
  - destruct (advance_while _ _) as [s2 l2] eqn:H2. apply advance_while_reads in H2.
    apply scans_emit; [|done]. eapply reads_trans; [apply reads_skip|done].
  - apply scans_bind. intros v _. apply scans_emit; [apply reads_refl|done].
Qed.

Lemma scan_number_spec s m c : peek s = Some c → is_ascii_digit c = true → scans (skip s) m (scan_number s m).
Proof.
  intros Hp Hd. unfold scan_number. destruct (if bool_decide _ then _ else _) as [nc|]; [|by eapply scan_decimal_spec].
  destruct (_ || _); [apply scan_hex_spec|]. destruct (_ || _); [apply scan_binary_spec|by eapply scan_decimal_spec].
Qed.

(** Addresses, annotations, identifiers, operators *)
Lemma match_text_elem {A} (table : list (string * A)) w a :
  match_text table w = Some a → ∃ k, (k, a) ∈ table ∧ text k = w.
Proof.
  unfold match_text. destruct (filter _ table) as [|[k a'] l] eqn:Hf; [done|]. cbn. intros [= <-].
  assert ((k, a') ∈ filter (λ kv : string * A, text kv.1 = w) table) as [He Hi]%list_elem_of_filter by (rewrite Hf; left).
  by exists k.
Qed.

(** No table yields the end marker or a template. *)
Lemma table_no_eof (table : list (string * Token)) w d :
  forallb (λ kv, match kv.2 with TEof | TTemplateLiteral _ => false | _ => true end) table = true →
  token_fits bound d → token_fits bound (default d (match_text table w)).
Proof.
  intros Ht Hd. destruct (match_text table w) as [t|] eqn:Hm; [|done]. apply match_text_elem in Hm as (k & Hk & _).
  rewrite forallb_forall in Ht. specialize (Ht (k, t) (proj1 (list_elem_of_In _ _) Hk)). cbn in *. by destruct t.
Qed.

Lemma scan_address_spec s m : starts_address_literal s = true → scans (skip s) m (scan_address_literal bech32m_hrp s m).
Proof.
  intros (p & Hp & [r Hr]%bool_decide_eq_true)%existsb_exists.
  unfold scan_address_literal. destruct (advance_while _ _) as [s' l] eqn:H.
  assert (∃ c, peek s = Some c ∧ is_ascii_alphanumeric c = true) as (c & Hc & Hf).
  { unfold peek. rewrite Hr. cbn in Hp. destruct Hp as [<-|[<-|[<-|[]]]]; by eexists. }
  eapply advance_while_first in H; [|done|cbn; by rewrite Hf].
  destruct (bech32m_hrp l); [|done]. destruct (existsb _ _); [by apply scans_emit|done].
Qed.
Lemma scan_annotation_spec s m : scans (skip s) m (scan_annotation s m).
Proof.
  unfold scan_annotation. destruct (peek _); [|done]. destruct (is_ident_start _); [|done].
  destruct (advance_while _ _) as [s' l] eqn:H. apply advance_while_reads in H.
  apply scans_emit; [done|by apply table_no_eof].
Qed.
Lemma scan_identifier_spec s m c : peek s = Some c → is_ident_start c = true → scans (skip s) m (Ok (scan_identifier s m)).
Proof.
  intros Hp Hc. unfold scan_identifier. destruct (advance_while _ _) as [s' l] eqn:H.
  eapply advance_while_first in H; [|done|].
  2: { unfold is_ident_start, is_ident_continue, is_alphanumeric in *. destruct (is_alphabetic c); [done|]. cbn in *. by rewrite Hc, orb_true_r. }
  apply scans_emit; [done|by apply table_no_eof].
Qed.

Definition alts_no_eof (a : N * (list (N * Token) * Token)) : bool :=
  forallb (λ t, match t with TEof | TTemplateLiteral _ => false | _ => true end) (a.2.2 :: (snd <$> a.2.1)).
Lemma advance_alt_elem alts : ∀ s t s' t', advance_alt alts s t = (s', t') → t' ∈ t :: (snd <$> alts).
Proof.
  induction alts as [|[c a] alts IH]; intros s t s' t'; cbn; [intros [= <- <-]; left|].
  destruct (advance_if s c) as [s1 []]; [intros [= <- <-]; right; left|].
  intros H%IH. apply elem_of_cons in H as [->|H]; [left|by right; right].
Qed.

Lemma scan_operator_spec s m : scans (skip s) m (scan_operator s m).
Proof.
  unfold scan_operator. rewrite advance_skip. destruct (peek s) as [c|]; [|done]. destruct (c =? 46).
  - destruct (_ && _); [apply scans_emit; [|done]; eauto using reads_trans, reads_skip|].
    destruct (advance_alt _ _ _) as [s' t] eqn:Ha. pose proof (advance_alt_elem _ _ _ _ _ Ha) as Ht.
    apply advance_alt_reads in Ha. apply scans_emit; [done|]. apply elem_of_cons in Ht as [->|Ht]; [done|]. by apply list_elem_of_singleton in Ht as ->.
  - destruct (filter _ operator_alts) as [|[c' [alts t]] l] eqn:Hf; [done|]. cbn.
    assert ((c', (alts, t)) ∈ operator_alts) as Hin.
    { assert ((c', (alts, t)) ∈ filter (λ a : N * (list (N * Token) * Token), a.1 = c) operator_alts) as [_ ?]%list_elem_of_filter
        by (rewrite Hf; left). done. }
    destruct (advance_alt _ _ _) as [s' t'] eqn:Ha. pose proof (advance_alt_elem _ _ _ _ _ Ha) as Ht.
    apply advance_alt_reads in Ha. apply scans_emit; [done|].
    assert (forallb alts_no_eof operator_alts = true) as Hall by done. rewrite forallb_forall in Hall.
    specialize (Hall _ (proj1 (list_elem_of_In _ _) Hin)). unfold alts_no_eof in Hall. rewrite forallb_forall in Hall.
    specialize (Hall t' (proj1 (list_elem_of_In _ _) Ht)). by destruct t'.
Qed.

(** ** One token *)

(** A token read from the cursor: its text, its span, and that it is not the end marker. *)
Definition token_at (s s' : Scanner) (tok : Token * Span) : Prop :=
  progress s s' ∧ tok.2 = span_from_mark s' (mark s) ∧ token_fits bound tok.1.

Lemma scans_token_at s c r :
  peek s = Some c → scans_opt (skip s) (mark s) r →
  ∃ r', r = Some r' ∧ match r' with Ok (s', tok) => token_at s s' tok | Err _ => True end.
Proof.
  intros Hp (r' & -> & Hr). exists r'. split; [done|]. destruct r' as [[s' [t sp]]|]; [|done]. destruct Hr as (H1 & H2 & H3).
  split_and!; [|done..]. eapply progress_reads; [by eapply progress_skip|done].
Qed.

Lemma scan_token_spec s c :
  peek s = Some c → (length (sc_rest s) <= bound)%nat →
  ∃ r', scan_token bech32m_hrp s c = Some r' ∧ match r' with Ok (s', tok) => token_at s s' tok | Err _ => True end.
Proof.
  intros Hp Hn. apply scans_token_at with (c := c); [done|]. unfold scan_token.
  destruct (c =? 10); [by apply scans_opt_some, scans_emit; [apply reads_refl|]|].
  destruct ((c =? 47) && bool_decide (peek_next s = Some 47)).
  { case_bool_decide; apply scans_opt_some; [apply scan_doc_comment_spec|apply scan_line_comment_spec]. }
  destruct ((c =? 47) && _); [apply scans_opt_some, scan_block_comment_spec|].
  destruct (c =? 34); [apply scan_string_spec|]. destruct (_ && _); [apply scan_bytes_spec|].
  destruct (c =? 96); [by apply scan_template_spec|]. destruct (c =? 39); [apply scans_opt_some, scan_char_spec|].
  destruct (is_ascii_digit c) eqn:?; [by apply scans_opt_some; eapply scan_number_spec|].
  destruct (starts_address_literal s) eqn:?; [by apply scans_opt_some, scan_address_spec|].
  destruct (c =? 64); [apply scans_opt_some, scan_annotation_spec|].
  destruct (is_ident_start c) eqn:?; [by apply scans_opt_some; eapply scan_identifier_spec|].
  apply scans_opt_some, scan_operator_spec.
Qed.

Lemma iter_skip_reads n s : reads s (Nat.iter n skip s).
Proof. induction n as [|n IH]; [apply reads_refl|]. eapply reads_trans; [exact IH|apply reads_skip]. Qed.

Lemma unit_suffix_spec s s' tok : try_scan_unit_suffix s = Some (s', tok) → token_at s s' tok.
Proof.
  unfold try_scan_unit_suffix. case_bool_decide as Hp; cbn [negb]; [|done]. case_bool_decide; [done|].
  destruct (match_text units _) as [t|] eqn:Ht; cbn; [|done]. intros [= <- <-].
  apply match_text_elem in Ht as (k & Hk & _). split_and!; [|done|].
  - eapply progress_reads; [by eapply progress_skip|apply iter_skip_reads].
  - cbn. unfold units in Hk. repeat (apply elem_of_cons in Hk as [[= _ ->]|Hk]; [done|]). by apply elem_of_nil in Hk.
Qed.

(** ** The token stream *)

Definition blanks (b : list N) : Prop := Forall (λ c, is_blank c = true) b.

(** The tokens between two cursors: blanks, a token, blanks, a token, ... *)
Inductive laid : Scanner → list (Token * Span) → Scanner → Prop :=
  | laid_nil s : laid s [] s
  | laid_cons s b s1 c l s2 t toks s3 :
      consumes s b s1 → blanks b → consumes s1 (c :: l) s2 → token_fits bound t → laid s2 toks s3 →
      laid s ((t, span_from_mark s2 (mark s1)) :: toks) s3.

Lemma laid_token s b s1 s2 tok toks s3 :
  consumes s b s1 → blanks b → token_at s1 s2 tok → laid s2 toks s3 → laid s (tok :: toks) s3.
Proof. intros H1 H2 ((c & l & H3) & H4 & H5) H6. destruct tok as [t sp]. cbn in *. subst sp. by eapply laid_cons. Qed.

Lemma tokenize_loop_spec fuel : ∀ s n acc,
  (length (sc_rest s) < fuel)%nat → (length (sc_rest s) <= bound)%nat →
  ∃ r, tokenize_loop bech32m_hrp fuel s n acc = Some r ∧
    match r with
    | Ok out => ∃ toks s1 b s2, out = acc ++ toks ++ [(TEof, Span_at (sc_line s2) (sc_col s2) n)] ∧
        laid s toks s1 ∧ consumes s1 b s2 ∧ blanks b ∧ sc_rest s2 = []
    | Err _ => True
    end.
Proof.
  induction fuel as [|fuel IH]; intros s n acc Hf Hn; [lia|]. cbn [tokenize_loop]. unfold next_token, skip_blanks.
  destruct (advance_while is_blank s) as [s1 b] eqn:Hb. apply advance_while_spec in Hb as (Hb & Hbl & _). cbn [fst].
  assert (length (sc_rest s1) <= length (sc_rest s))%nat as Hle by (apply length_reads; by exists b).
  destruct (peek s1) as [c|] eqn:Hp; cbn [fmap option_fmap option_map].
  2: { eexists. split; [done|]. exists [], s, b, s1. split_and!; [done|constructor|done|done|].
       unfold peek in Hp. by destruct (sc_rest s1). }
  destruct (scan_token_spec s1 c Hp) as (r & -> & Hr); [lia|]. destruct r as [[s2 tok]|e]; [|by eexists].
  cbn [and_then]. pose proof (length_progress _ _ (proj1 Hr)) as Hlt.
  assert (∀ s' acc' pre, (length (sc_rest s') <= length (sc_rest s2))%nat → acc' = acc ++ pre →
     (∀ toks s3, laid s' toks s3 → laid s (pre ++ toks) s3) →
     ∃ r, tokenize_loop bech32m_hrp fuel s' n acc' = Some r ∧ match r with
       | Ok out => ∃ toks s1 b s2, out = acc ++ toks ++ [(TEof, Span_at (sc_line s2) (sc_col s2) n)] ∧
           laid s toks s1 ∧ consumes s1 b s2 ∧ blanks b ∧ sc_rest s2 = []
       | Err _ => True end) as Hnext.
  { intros s' acc' pre Hl -> Hlaid. destruct (IH s' n (acc ++ pre)) as (r & Hr1 & Hr2); [lia|lia|]. exists r. split; [done|].
    destruct r as [out|]; [|done]. destruct Hr2 as (toks & s3 & b3 & s4 & -> & H1 & H2). exists (pre ++ toks), s3, b3, s4.
    split; [by rewrite <-!app_assoc|]. split; [by apply Hlaid|done]. }
  destruct (is_int tok.1); [destruct (try_scan_unit_suffix s2) as [[s3 u]|] eqn:Hu|].
  - apply unit_suffix_spec in Hu as Hu. apply (Hnext _ _ [tok; u]); [by apply Nat.lt_le_incl, length_progress, Hu|by rewrite <-app_assoc|].
    intros toks s4 H4. eapply (laid_token s b s1 s2 tok); [done..|]. apply (laid_token s2 [] s2 s3 u); [apply consumes_refl|constructor|done|done].
  - apply (Hnext _ _ [tok]); [done|done|]. intros toks s4 H4. by eapply (laid_token s b s1 s2 tok).
  - apply (Hnext _ _ [tok]); [done|done|]. intros toks s4 H4. by eapply (laid_token s b s1 s2 tok).
Qed.
End scanner.

Lemma laid_fits s toks s' : laid s toks s' → Forall (λ t, token_fits bound t.1) toks.
Proof. induction 1; by constructor. Qed.
End fits.

(** ** Positions *)

Definition newlines (l : list N) : N := N.of_nat (length (filter (λ c, c = 10) l)).
(** The text after the last line break. *)
Definition last_line (l : list N) : list N := foldl (λ acc c, if c =? 10 then [] else acc ++ [c]) [] l.

(** The span of a text after the text before it. *)
Definition span_of (before lexeme : list N) : Span :=
  {| line := 1 + newlines before; col := 1 + utf8_len (last_line before); offset := utf8_len before; len := utf8_len lexeme |}.

Lemma utf8_len_app l1 l2 : utf8_len (l1 ++ l2) = utf8_len l1 + utf8_len l2.
Proof. unfold utf8_len. by rewrite fmap_app, sumN_app. Qed.
Lemma len_utf8_pos c : 1 <= len_utf8 c.
Proof. unfold len_utf8. repeat case_match; lia. Qed.
Lemma newlines_le l : newlines l <= utf8_len l.
Proof.
  induction l as [|c l IH]; [done|]. unfold newlines, utf8_len in *. rewrite filter_cons. cbn. pose proof (len_utf8_pos c).
  case_decide; cbn [length]; lia.
Qed.
Lemma last_line_snoc l c : last_line (l ++ [c]) = if c =? 10 then [] else last_line l ++ [c].
Proof. unfold last_line. by rewrite foldl_app. Qed.
Lemma last_line_le l : utf8_len (last_line l) <= utf8_len l.
Proof.
  induction l as [|c l IH] using rev_ind; [done|]. rewrite last_line_snoc, utf8_len_app.
  destruct (c =? 10); [apply N.le_0_l|]. rewrite utf8_len_app. lia.
Qed.

Lemma eat_all_app s l1 l2 : eat_all s (l1 ++ l2) = eat_all (eat_all s l1) l2.
Proof. unfold eat_all. by rewrite foldl_app. Qed.

(** The cursor after a text knows where it is, as long as the [u32] counters suffice. *)
Lemma cursor_position src before :
  utf8_len before < 2 ^ 32 - 1 →
  let s := eat_all (Scanner_new src) before in
  sc_pos s = utf8_len before ∧ sc_line s = 1 + newlines before ∧ sc_col s = 1 + utf8_len (last_line before).
Proof.
  induction before as [|c l IH] using rev_ind; intros Hlt; [done|]. rewrite utf8_len_app in Hlt.
  destruct IH as (IH1 & IH2 & IH3); [lia|]. cbn zeta. rewrite eat_all_app, utf8_len_app.
  pose proof (newlines_le l). pose proof (last_line_le l).
  rewrite last_line_snoc.
  assert (newlines (l ++ [c]) = newlines l + if c =? 10 then 1 else 0) as ->.
  { unfold newlines. rewrite filter_app, length_app, filter_cons, Nnat.Nat2N.inj_add. cbn.
    destruct (N.eqb_spec c 10); [rewrite decide_True by done|rewrite decide_False by done]; done. }
  assert (utf8_len [c] = len_utf8 c) as Hc by (unfold utf8_len; cbn; lia). rewrite Hc in *.
  cbn [eat_all foldl eat sc_pos sc_line sc_col]. rewrite IH1, IH2, IH3. pose proof (len_utf8_pos c).
  split; [done|]. destruct (c =? 10).
  - split; [|done]. rewrite N.mod_small by lia. lia.
  - split; [lia|]. rewrite utf8_len_app, Hc, N.mod_small by lia. lia.
Qed.

(** ** The layout of the source *)

Fixpoint layout (before : list N) (pieces : list (list N * (Token * list N))) : list (Token * Span) :=
  match pieces with
  | [] => []
  | (b, (t, l)) :: pieces => (t, span_of (before ++ b) l) :: layout (before ++ b ++ l) pieces
  end.
Definition piece_text (p : list N * (Token * list N)) : list N := p.1 ++ p.2.2.
Definition piece_ok (p : list N * (Token * list N)) : Prop := blanks p.1 ∧ p.2.2 ≠ [] ∧ p.2.1 ≠ TEof.

Lemma span_of_cursor src before l :
  utf8_len (before ++ l) < 2 ^ 32 - 1 →
  span_from_mark (eat_all (Scanner_new src) (before ++ l)) (mark (eat_all (Scanner_new src) before)) = span_of before l.
Proof.
  intros Hlt. assert (utf8_len before < 2 ^ 32 - 1) as Hb by (rewrite utf8_len_app in Hlt; lia).
  destruct (cursor_position src _ Hlt) as (E1 & _). destruct (cursor_position src _ Hb) as (E2 & E3 & E4).
  unfold span_from_mark, span_of, mark. cbn. rewrite E1, E2, E3, E4, utf8_len_app. f_equal. lia.
Qed.

Lemma laid_layout bound src s toks s' : laid bound s toks s' → ∀ before,
  utf8_len src < 2 ^ 32 - 1 → src = before ++ sc_rest s → s = eat_all (Scanner_new src) before →
  ∃ pieces, Forall piece_ok pieces ∧ toks = layout before pieces ∧
    src = before ++ mjoin (piece_text <$> pieces) ++ sc_rest s' ∧
    s' = eat_all (Scanner_new src) (before ++ mjoin (piece_text <$> pieces)).
Proof.
  induction 1 as [s|s b s1 c l s2 t toks s3 [Hb1 Hb2] Hbl [Hl1 Hl2] Ht Hlaid IH]; intros before Hlt Hsrc Hs.
  { exists []. cbn. rewrite app_nil_r. split_and!; [constructor|done..]. }
  assert (s1 = eat_all (Scanner_new src) (before ++ b)) as E1.
  { by rewrite Hb2, Hs, eat_all_app. }
  assert (s2 = eat_all (Scanner_new src) ((before ++ b) ++ c :: l)) as E2.
  { by rewrite Hl2, E1, (eat_all_app _ (before ++ b)). }
  assert (src = ((before ++ b) ++ c :: l) ++ sc_rest s2) as Esrc.
  { rewrite Hsrc at 1. by rewrite Hb1, Hl1, <-!app_assoc. }
  destruct (IH (before ++ b ++ c :: l)) as (pieces & P1 & P2 & P3 & P4); [done|by rewrite Esrc at 1; rewrite <-!app_assoc|by rewrite E2, <-app_assoc|].
  exists ((b, (t, c :: l)) :: pieces). split_and!.
  - constructor; [split_and!; [done..|by eapply token_fits_not_eof]|done].
  - cbn [layout]. rewrite <-P2. f_equal. f_equal. rewrite E1, E2. apply span_of_cursor. rewrite Esrc, utf8_len_app in Hlt. lia.
  - rewrite P3 at 1. cbn. unfold piece_text at 2. cbn. by rewrite <-!app_assoc.
  - rewrite P4. cbn. unfold piece_text at 2. cbn. by rewrite <-!app_assoc.
Qed.

Section stream.
Context {U : Unicode} (bech32m_hrp : list N → result string (list N)).

(** C33. Lexing is total and lossless.  On a source of less than 2^32 - 1 bytes, [tokenize]
    always answers (the fuel of one turn per character is enough).  When it succeeds, the source is exactly the
    texts of the tokens in order with nothing but blanks (space, tab, carriage
    return) between them; every text is non-empty; each token carries the line,
    column, byte offset and byte length of its text; and the end marker comes
    last, at the end of the source, and nowhere else. *)
Theorem tokenize_layout src :
  utf8_len src < 2 ^ 32 - 1 →
  ∃ r, tokenize bech32m_hrp src = Some r ∧
    match r with
    | Ok toks => ∃ pieces tail, Forall piece_ok pieces ∧ blanks tail ∧
        src = mjoin (piece_text <$> pieces) ++ tail ∧ toks = layout [] pieces ++ [(TEof, span_of src [])]
    | Err _ => True
    end.
Proof.
  intros Hlt. destruct (tokenize_loop_spec (length src) bech32m_hrp (S (length src)) (Scanner_new src) (utf8_len src) []) as (r & Hr & Hs);
    [cbn; lia|done|]. exists r. split; [done|]. destruct r as [out|]; [|done].
  destruct Hs as (toks & s1 & b & s2 & -> & Hlaid & [Hb1 Hb2] & Hb & Hend).
  destruct (laid_layout _ src _ _ _ Hlaid []) as (pieces & P1 & P2 & P3 & P4); [done..|]. cbn in P3, P4.
  rewrite Hend, app_nil_r in Hb1. rewrite Hb1 in P3.
  exists pieces, b. split_and!; [done..|]. cbn. f_equal; [done|]. rewrite P4, <-eat_all_app, <-P3 in Hb2.
  destruct (cursor_position src src Hlt) as (_ & E2 & E3). unfold Span_at, span_of. by rewrite Hb2, E2, E3.
Qed.
End stream.

(** ** Printing and lexing again *)

Lemma advance_while_exact f s w r :
  sc_rest s = w ++ r → Forall (λ c, f c = true) w → from_option f false (head r) = false →
  advance_while f s = (eat_all s w, w) ∧ sc_rest (eat_all s w) = r.
Proof.
  unfold advance_while. intros Hs. rewrite Hs. revert s Hs. induction w as [|c w IH]; intros s Hs Hf Hr; cbn.
  - split; [|done]. destruct r as [|c r]; [done|]. cbn in *. by rewrite Hr.
  - apply Forall_cons in Hf as [Hc Hf]. rewrite Hc. destruct (IH (eat s c)) as [-> H2]; [cbn; by rewrite Hs|done..].
Qed.

(** The quoted form of a text. *)
Definition escape_char (c : N) : list N := if (c =? 34) || (c =? 92) then [92; c] else [c].
Definition quote (v : list N) : list N := 34 :: (v ≫= escape_char) ++ [34].

Lemma string_loop_quote v : ∀ fuel s m acc r,
  sc_rest s = (v ≫= escape_char) ++ 34 :: r → (length (sc_rest s) < fuel)%nat →
  ∃ s', string_loop fuel s m acc = Some (Ok (emit s' m (TStringLiteral (acc ++ v)))) ∧ sc_rest s' = r.
Proof.
  induction v as [|c v IH]; intros fuel s m acc r Hs Hf; (destruct fuel as [|fuel]; [lia|]); cbn [string_loop]; unfold peek.
  - rewrite Hs. cbn. rewrite app_nil_r. eexists. split; [done|]. unfold skip, advance. by rewrite Hs; cbn; rewrite Hs.
  - change ((c :: v) ≫= escape_char) with (escape_char c ++ (v ≫= escape_char)) in Hs. unfold escape_char at 1 in Hs.
    destruct ((c =? 34) || (c =? 92)) eqn:Hc.
    + assert (sc_rest s = 92 :: c :: (v ≫= escape_char) ++ 34 :: r) as Hs' by (by rewrite Hs). rewrite Hs'. cbn [head].
      change (92 =? 34) with false. change (92 =? 92) with true. cbn match.
      assert (string_escape s m = Ok (eat (eat s 92) c, c)) as ->.
      { unfold string_escape, skip, advance. rewrite Hs'. cbn. rewrite Hs'. cbn. unfold simple_escape.
        apply orb_true_iff in Hc as [->%N.eqb_eq| ->%N.eqb_eq]; done. }
      destruct (IH fuel (eat (eat s 92) c) m (acc ++ [c]) r) as (s' & -> & H2); [cbn; by rewrite Hs'|cbn; rewrite Hs' in *; cbn in *; lia|].
      exists s'. by rewrite <-app_assoc.
    + assert (sc_rest s = c :: (v ≫= escape_char) ++ 34 :: r) as Hs' by (by rewrite Hs). rewrite Hs'. cbn [head].
      apply orb_false_iff in Hc as [-> ->]. assert (skip s = eat s c) as -> by (unfold skip, advance; by rewrite Hs').
      destruct (IH fuel (eat s c) m (acc ++ [c]) r) as (s' & -> & H2); [cbn; by rewrite Hs'|cbn; rewrite Hs' in *; cbn in *; lia|].
      exists s'. by rewrite <-app_assoc.
Qed.

(** The operators and their texts. *)
Definition operator_texts : list (string * Token) :=
  [("+", TPlus); ("-", TMinus); ("*", TStar); ("/", TSlash); ("%", TPercent); ("==", TEq); ("!=", TNotEq); ("<", TLt);
   (">", TGt); ("<=", TLtEq); (">=", TGtEq); ("&&", TAnd); ("||", TOr); ("!", TNot); ("&", TBitAnd); ("^", TBitXor);
   ("~", TBitNot); ("<<", TShl); (">>", TShr); ("=", TAssign); ("+=", TPlusAssign); ("-=", TMinusAssign);
   ("*=", TStarAssign); ("/=", TSlashAssign); ("%=", TPercentAssign); ("**", TStarStar); ("??", TNullCoalesce);
   ("->", TArrow); ("=>", TFatArrow); ("?", TQuestionMark); (".", TDot); ("..", TDotDot); ("..=", TDotDotEq); (",", TComma);
   (":", TColon); ("::", TColonColon); (";", TSemicolon); ("(", TLParen); (")", TRParen); ("{", TLBrace); ("}", TRBrace);
   ("[", TLBracket); ("]", TRBracket); ("#", THash_); ("$", TDollar); ("|", TPipe)]%string.

Section roundtrip.
Context {U : Unicode} `{L : !UnicodeLaws} (bech32m_hrp : list N → result string (list N)).

(** A word: an identifier, a keyword or a boolean. *)
Record is_word (w : list N) : Prop := {
  word_head : ∃ c w', w = c :: w' ∧ is_ident_start c = true;
  word_tail : Forall (λ c, is_ident_continue c = true) w;
  word_plain : ∀ p, p ∈ ["lem1"; "tlem1"; "dlem1"]%string → ¬ text p `prefix_of` w;
}.

(** Tokens with their texts. *)
Inductive printed : Token → list N → Prop :=
  | printed_word w : is_word w → printed (map_keyword w) w
  | printed_int ds : ds ≠ [] → Forall (λ c, is_ascii_digit c = true) ds → decimal_value ds <= u128_max →
      printed (TIntLiteral (decimal_value ds)) ds
  | printed_string v : printed (TStringLiteral v) (quote v)
  | printed_operator k t : (k, t) ∈ operator_texts → printed t (text k).

Lemma ident_start_ascii c : c < 128 → is_ident_start c = is_ascii_letter c || (c =? 95).
Proof. intros Hc. unfold is_ident_start. by rewrite alphabetic_ascii. Qed.
Lemma ident_continue_ascii c : c < 128 → is_ident_continue c = is_ascii_alphanumeric c || (c =? 95).
Proof. intros Hc. unfold is_ident_continue, is_alphanumeric. by rewrite alphabetic_ascii, numeric_ascii. Qed.

(** A prefix without a space cannot reach past the space. *)
Lemma prefix_before_space (p w r : list N) : 32 ∉ p → p `prefix_of` w ++ 32 :: r → p `prefix_of` w.
Proof.
  revert w. induction p as [|c p IH]; intros w Hn [k Hk]; [apply prefix_nil|].
  apply not_elem_of_cons in Hn as [Hc Hn]. destruct w as [|c' w]; cbn in Hk; simplify_eq.
  apply prefix_cons. apply IH; [done|]. by exists k.
Qed.

(** The token at the cursor is [t], and a space and the rest follow. *)
Definition scanned_to (s : Scanner) (c : N) (t : Token) (r : list N) : Prop :=
  ∃ s' sp, scan_token bech32m_hrp s c = Some (Ok (s', (t, sp))) ∧ sc_rest s' = r.

Lemma scan_word s w c w' r :
  is_word w → w = c :: w' → sc_rest s = w ++ 32 :: r → scanned_to s c (map_keyword w) (32 :: r).
Proof.
  intros [(c0 & w0 & E & Hc) Hw Hp] -> Hs. simplify_eq.
  destruct (advance_while_exact is_ident_continue s (c0 :: w0) (32 :: r) Hs Hw) as [Ha Hr].
  { cbn. rewrite ident_continue_ascii by lia. done. }
  assert (∀ d, d < 128 → is_ascii_letter d || (d =? 95) = false → (c0 =? d) = false) as Hne.
  { intros d Hd Hf. destruct (N.eqb_spec c0 d) as [->|]; [|done]. by rewrite ident_start_ascii, Hf in Hc. }
  assert (is_ascii_digit c0 = false) as Hd.
  { destruct (is_ascii_digit c0) eqn:Hd; [|done]. unfold is_ascii_digit in Hd. bool_hyps.
    rewrite ident_start_ascii in Hc by lia. unfold is_ascii_letter in Hc.
    destruct (N.leb_spec 65 c0), (N.leb_spec 97 c0), (N.eqb_spec c0 95); try lia; done. }
  assert (starts_address_literal s = false) as Hs1.
  { unfold starts_address_literal. apply not_true_iff_false. intros (p & Hin & Hpre%bool_decide_eq_true)%existsb_exists.
    apply (Hp p); [by apply list_elem_of_In|]. rewrite Hs in Hpre. eapply prefix_before_space; [|exact Hpre].
    cbn in Hin. destruct Hin as [<-|[<-|[<-|[]]]]; vm_compute; set_solver. }
  assert (bool_decide (peek_next s = Some 34) = false) as Hq.
  { apply bool_decide_eq_false. unfold peek_next. rewrite Hs. destruct w0 as [|c1 w0]; [done|]. cbn. intros [= ->].
    apply Forall_cons in Hw as [_ [Hw _]%Forall_cons]. by rewrite ident_continue_ascii in Hw. }
  exists (eat_all s (c0 :: w0)), (span_from_mark (eat_all s (c0 :: w0)) (mark s)). split; [|done].
  unfold scan_token. rewrite (Hne 10), (Hne 47), (Hne 34), (Hne 96), (Hne 39), (Hne 64) by done.
  rewrite Hq, andb_false_r, Hd, Hs1, Hc. cbn. unfold scan_identifier. by rewrite Ha.
Qed.

Lemma scan_int s ds c ds' r :
  ds = c :: ds' → Forall (λ c, is_ascii_digit c = true) ds → decimal_value ds <= u128_max → sc_rest s = ds ++ 32 :: r →
  scanned_to s c (TIntLiteral (decimal_value ds)) (32 :: r).
Proof.
  intros -> Hds Hv Hs. destruct (advance_while_exact digit_or_underscore s (c :: ds') (32 :: r) Hs) as [Ha Hr]; [|done|].
  { eapply Forall_impl; [exact Hds|]. intros x Hx. unfold digit_or_underscore. by rewrite Hx. }
  assert (no_underscores (c :: ds') = c :: ds') as Hnu.
  { unfold no_underscores. clear -Hds. induction (c :: ds') as [|x l IH]; [done|]. apply Forall_cons in Hds as [Hx Hl].
    rewrite filter_cons, decide_True, IH by (done || intros ->; done). done. }
  assert (is_ascii_digit c = true) as Hc by (by apply Forall_cons in Hds as [? _]).
  assert (∀ d, is_ascii_digit d = false → (c =? d) = false) as Hne by (intros d Hd; destruct (N.eqb_spec c d) as [->|]; congruence).
  exists (eat_all s (c :: ds')), (span_from_mark (eat_all s (c :: ds')) (mark s)). split; [|done].
  unfold scan_token. rewrite (Hne 10), (Hne 47), (Hne 34), (Hne 98), (Hne 96), (Hne 39), Hc by done. cbn [andb].
  assert (scan_number s (mark s) = scan_decimal s (mark s)) as ->.
  { unfold scan_number. case_bool_decide; [|done]. unfold peek_next. rewrite Hs. destruct ds' as [|d ds']; cbn; [done|].
    apply Forall_cons in Hds as [_ [Hd _]%Forall_cons]. unfold is_ascii_digit in Hd. bool_hyps.
    destruct (N.eqb_spec d 120), (N.eqb_spec d 88), (N.eqb_spec d 98), (N.eqb_spec d 66); lia || done. }
  unfold scan_decimal. rewrite Ha, Hnu. assert (peek (eat_all s (c :: ds')) = Some 32) as Hp by (unfold peek; by rewrite Hr).
  rewrite bool_decide_eq_false_2 by (by rewrite Hp). unfold int_suffix. rewrite Hp. rewrite alphabetic_ascii by lia. change (is_ascii_letter 32) with false. cbn match.
  unfold parse_u128. by rewrite (proj2 (N.leb_le _ _) Hv).
Qed.

Lemma scan_quoted s v r : sc_rest s = quote v ++ 32 :: r → scanned_to s 34 (TStringLiteral v) (32 :: r).
Proof.
  intros Hs. unfold quote in Hs. cbn in Hs. rewrite <-app_assoc in Hs. cbn in Hs. unfold scanned_to.
  change (scan_token bech32m_hrp s 34) with (scan_string s (mark s)).
  unfold scan_string. assert (sc_rest (skip s) = (v ≫= escape_char) ++ 34 :: 32 :: r) as Hk by (unfold skip, advance; rewrite Hs; cbn; by rewrite Hs).
  destruct (string_loop_quote v (S (length (sc_rest (skip s)))) (skip s) (mark s) [] (32 :: r) Hk) as (s' & -> & H2); [lia|].
  by eexists _, _.
Qed.

(** Every operator, on the text it is written with. *)
Lemma scan_operators s k t c l r :
  (k, t) ∈ operator_texts → text k = c :: l → sc_rest s = text k ++ 32 :: r → scanned_to s c t (32 :: r).
Proof.
  intros Hin Hk Hs. destruct s as [rest pos ln cl]. cbn in Hs. subst rest.
  assert (is_ident_start c = false) as Hid.
  { assert (forallb (λ kt, match text kt.1 with c :: _ => (c <? 128) && negb (is_ascii_letter c || (c =? 95)) | [] => false end) operator_texts = true)
      as Hall by (vm_compute; done).
    rewrite forallb_forall in Hall. specialize (Hall _ (proj1 (list_elem_of_In _ _) Hin)). cbn [fst] in Hall. rewrite Hk in Hall.
    apply andb_true_iff in Hall as [Hlt%N.ltb_lt Hn%negb_true_iff]. by rewrite ident_start_ascii. }
  apply list_elem_of_In in Hin. unfold scanned_to, scan_token. rewrite Hid.
  repeat (destruct Hin as [[= <- <-]|Hin]; [injection Hk as <- <-; by eexists _, _|]). destruct Hin.
Qed.

Lemma printed_scan t l : printed t l →
  ∃ c l', l = c :: l' ∧ is_blank c = false ∧ ∀ s r, sc_rest s = l ++ 32 :: r → scanned_to s c t (32 :: r).
Proof.
  destruct 1 as [w Hw|ds Hne Hds Hv|v|k t Hk].
  - destruct (word_head w Hw) as (c & w' & E & Hc). exists c, w'. split_and!; [done| |intros s r Hs; by eapply scan_word].
    unfold is_blank. destruct (N.eqb_spec c 32), (N.eqb_spec c 9), (N.eqb_spec c 13); try subst c; try done; by rewrite ident_start_ascii in Hc.
  - destruct ds as [|c ds']; [done|]. exists c, ds'. split_and!; [done| |intros s r Hs; by eapply scan_int].
    apply Forall_cons in Hds as [Hc _]. unfold is_blank. destruct (N.eqb_spec c 32), (N.eqb_spec c 9), (N.eqb_spec c 13); try subst c; done.
  - eexists 34, _. split_and!; [done..|]. intros s r Hs. by apply scan_quoted.
  - assert (forallb (λ kt, match text kt.1 with c :: _ => negb (is_blank c) | [] => false end) operator_texts = true)
      as Hall by (vm_compute; done).
    rewrite forallb_forall in Hall. specialize (Hall _ (proj1 (list_elem_of_In _ _) Hk)). cbn [fst] in Hall.
    destruct (text k) as [|c l] eqn:E; [done|]. apply negb_true_iff in Hall. exists c, l. split_and!; [done..|].
    intros s r Hs. eapply scan_operators; [done|done|by rewrite E].
Qed.

Definition print_tokens (ps : list (Token * list N)) : list N := mjoin ((λ p, p.2 ++ [32]) <$> ps).

Lemma tokenize_loop_print ps : ∀ fuel s b n acc,
  Forall (λ p, printed p.1 p.2) ps → blanks b → sc_rest s = b ++ print_tokens ps → (length (sc_rest s) < fuel)%nat →
  ∃ toks sp, tokenize_loop bech32m_hrp fuel s n acc = Some (Ok (acc ++ toks ++ [(TEof, sp)])) ∧ toks.*1 = ps.*1.
Proof.
  induction ps as [|[t l] ps IH]; intros fuel s b n acc Hps Hb Hs Hf; (destruct fuel as [|fuel]; [lia|]);
    cbn [tokenize_loop]; unfold next_token, skip_blanks.
  - destruct (advance_while_exact is_blank s b [] Hs Hb) as [-> Hr]; [done|]. cbn [fst]. unfold peek. rewrite Hr. cbn.
    by eexists [], _.
  - apply Forall_cons in Hps as [Hp Hps]. destruct (printed_scan _ _ Hp) as (c & l' & El & Hbl & Hscan). cbn [fst snd] in *.
    assert (print_tokens ((t, l) :: ps) = l ++ 32 :: print_tokens ps) as E by (unfold print_tokens; cbn; by rewrite <-app_assoc).
    rewrite E in Hs. destruct (advance_while_exact is_blank s b (l ++ 32 :: print_tokens ps) Hs Hb) as [-> Hr]; [by rewrite El|].
    cbn [fst]. destruct (Hscan _ _ Hr) as (s' & sp & Hsc & Hs'). set (s1 := eat_all s b) in *.
    assert (peek s1 = Some c) as -> by (unfold peek; by rewrite Hr, El). cbn [fmap option_fmap option_map]. rewrite Hsc. cbn [and_then].
    assert (∀ acc', ∃ toks sp, tokenize_loop bech32m_hrp fuel s' n acc' = Some (Ok (acc' ++ toks ++ [(TEof, sp)])) ∧ toks.*1 = ps.*1) as Hnext.
    { intros acc'. apply (IH fuel s' [32] n acc'); [done|by repeat constructor|by rewrite Hs'|].
      rewrite Hs', Hs, El in *. cbn in *. rewrite !length_app in Hf. cbn in Hf. rewrite length_app in Hf. cbn in Hf. lia. }
    assert (try_scan_unit_suffix s' = None) as Hunit.
    { unfold try_scan_unit_suffix. rewrite bool_decide_eq_false_2; [done|]. unfold peek. by rewrite Hs'. }
    cbn [fst]. rewrite Hunit. destruct (Hnext (acc ++ [(t, sp)])) as (toks & sp' & Hloop & Hts).
    exists ((t, sp) :: toks), sp'. split; [|cbn; by rewrite Hts]. destruct (is_int t); rewrite Hloop, <-app_assoc; done.
Qed.

(** Printing and lexing round trip: words (identifiers that do not begin like
    an address, keywords, booleans), decimal integers in the range of [u128],
    string literals with any contents (quotes and backslashes escaped) and all
    operators, written with their texts and a space after each, lex back to the
    same tokens. *)
Theorem print_tokenize ps :
  Forall (λ p, printed p.1 p.2) ps →
  ∃ toks, tokenize bech32m_hrp (print_tokens ps) = Some (Ok toks) ∧ toks.*1 = ps.*1 ++ [TEof].
Proof.
  intros Hps. destruct (tokenize_loop_print ps (S (length (print_tokens ps))) (Scanner_new (print_tokens ps)) []
    (utf8_len (print_tokens ps)) []) as (toks & sp & Hl & Ht); [done|constructor|done|cbn; lia|].
  exists (toks ++ [(TEof, sp)]). split; [exact Hl|]. by rewrite fmap_app, Ht.
Qed.

(** An empty hexadecimal literal is accepted: after 0x, a lone underscore counts
    as a digit for the test that there is one and is then removed, so the token
    holds no digits; the same happens after 0b. *)
Theorem empty_radix_literals :
  (∃ sp1 sp2, tokenize bech32m_hrp (text "0x_") = Some (Ok [(THexLiteral [], sp1); (TEof, sp2)])) ∧
  (∃ sp1 sp2, tokenize bech32m_hrp (text "0b_") = Some (Ok [(TBinLiteral [], sp1); (TEof, sp2)])).
Proof. split; by eexists _, _. Qed.
End roundtrip.
