(* ===== verification/LangAst.v ===== *)
(** * The syntax tree of the contract language ([lemma-lang/src/parser/ast])

    Names are text; constructors carry the source's names behind [Ty], [L], [E],
    [P], [S] for types, literals, expressions, patterns and statements.  A struct
    that contains expressions is a constructor of the mutual definition. *)
From S2P Require Import Prelude LexToken.

Notation name_t := (list N) (only parsing).

(** ** Types ([ast/expr.rs]) *)

Inductive LType :=
  | TyU8 | TyU16 | TyU32 | TyU64 | TyU128 | TyU256
  | TyI8 | TyI16 | TyI32 | TyI64 | TyI128 | TyI256
  | TyBool | TyStringTy | TyCharTy | TyAddressTy | TyHashTy | TyBytes
  | TyBytesN (n : N)
  | TyArray (t : LType)
  | TyFixedArray (t : LType) (n : N)
  | TyMap (k v : LType)
  | TyFastMap (k v : LType)
  | TySet (t : LType)
  | TyOption_ (t : LType)
  | TyResult_ (t e : LType)
  | TyDecimal (precision : N)
  | TyTuple (ts : list LType)
  | TyFn (params : list LType) (ret : LType)
  | TyNamed (name : name_t) (args : list LType).

(** Induction into the lists of types. *)
Section nested.
Context (Q : LType → Prop) (Hflat : ∀ t, (match t with
    | TyArray _ | TyFixedArray _ _ | TyMap _ _ | TyFastMap _ _ | TySet _ | TyOption_ _ | TyResult_ _ _ | TyTuple _ | TyFn _ _
    | TyNamed _ _ => False | _ => True end) → Q t)
  (Harray : ∀ t, Q t → Q (TyArray t)) (Hfixed : ∀ t n, Q t → Q (TyFixedArray t n)) (Hmap : ∀ k v, Q k → Q v → Q (TyMap k v))
  (Hfast : ∀ k v, Q k → Q v → Q (TyFastMap k v)) (Hset : ∀ t, Q t → Q (TySet t)) (Hopt : ∀ t, Q t → Q (TyOption_ t))
  (Hres : ∀ k v, Q k → Q v → Q (TyResult_ k v)) (Htup : ∀ ts, Forall Q ts → Q (TyTuple ts))
  (Hfn : ∀ ps r, Forall Q ps → Q r → Q (TyFn ps r)) (Hname : ∀ n ts, Forall Q ts → Q (TyNamed n ts)).
Fixpoint LType_nested (t : LType) : Q t :=
  let list_nested := fix go ts : Forall Q ts := match ts with [] => Forall_nil_2 _ | t :: ts => Forall_cons_2 _ _ _ (LType_nested t) (go ts) end in
  match t with
  | TyArray t => Harray t (LType_nested t) | TyFixedArray t n => Hfixed t n (LType_nested t)
  | TyMap k v => Hmap k v (LType_nested k) (LType_nested v) | TyFastMap k v => Hfast k v (LType_nested k) (LType_nested v)
  | TySet t => Hset t (LType_nested t) | TyOption_ t => Hopt t (LType_nested t)
  | TyResult_ k v => Hres k v (LType_nested k) (LType_nested v) | TyTuple ts => Htup ts (list_nested ts)
  | TyFn ps r => Hfn ps r (list_nested ps) (LType_nested r) | TyNamed n ts => Hname n ts (list_nested ts)
  | t => Hflat t I
  end.
End nested.

(** ** Operators *)

Inductive UnaryOp := UNot | UNeg | UBitNot | URef.
Inductive BinaryOp :=
  | BAdd | BSub | BMul | BDiv | BRem | BPow
  | BEq | BNotEq | BLt | BGt | BLtEq | BGtEq
  | BAnd | BOr | BBitAnd | BBitOr | BBitXor | BShl | BShr | BNullish.
Inductive AssignOp := AAssign | AAdd | ASub | AMul | ADiv | ARem.
Inductive UnitKind := Ether | Gwei | Minutes | Hours | Days | Seconds.

(** ** Expressions, patterns and statements *)

Inductive Lit : Type :=
  | LInt (value : N)
  | LIntTyped (value : N) (suffix : list N)
  | LHex (digits : list N)
  | LBin (digits : list N)
  | LFloat (raw : list N)
  | LStr (value : list N)
  | LBytes (value : list N)
  | LChar (c : N)
  | LBool (b : bool)
  | LAddress (raw : list N)
  | LUnit (base : Expr) (kind : UnitKind)
with Expr : Type :=
  | ELiteral (l : Lit) (span : Span)
  | EIdent (name : name_t) (span : Span)
  | ETuple (elems : list Expr) (span : Span)
  | EArray (elems : list Expr) (span : Span)
  | EStruct_ (name : name_t) (fields : list (name_t * Expr)) (spread : option Expr) (span : Span)
  | ECall (callee : Expr) (opts : option CallOpts) (args : list CallArg) (span : Span)
  | EIndex (base idx : Expr) (span : Span)
  | EMember (base : Expr) (field : name_t) (span : Span)
  | EUnary (op : UnaryOp) (operand : Expr) (span : Span)
  | EBinary (op : BinaryOp) (lhs rhs : Expr) (span : Span)
  | ETernary (cond then_ else_ : Expr) (span : Span)
  | ENullish (lhs rhs : Expr) (span : Span)
  | ETry_ (e : Expr) (span : Span)
  | ECast (e : Expr) (ty : LType) (span : Span)
  | ELambda (params : list Param) (body : LambdaBody) (span : Span)
  | ENew (ty : name_t) (opts : option CallOpts) (args : list CallArg) (span : Span)
  | EMatch_ (scrutinee : Expr) (arms : list MatchArm) (span : Span)
  | EIf_ (cond : Expr) (then_ : list Stmt) (else_ : option (list Stmt)) (span : Span)
  | ETemplate (segments : list TemplateExprSegment) (span : Span)
  | EAssign_ (target : Expr) (op : AssignOp) (value : Expr) (span : Span)
with CallOpts : Type :=
  | MkCallOpts (value gas salt : option Expr) (span : Span)
with CallArg : Type :=
  | Positional (e : Expr)
  | Named (name : name_t) (e : Expr)
with LambdaBody : Type :=
  | LambdaExpr (e : Expr)
  | LambdaBlock (stmts : list Stmt)
with TemplateExprSegment : Type :=
  | SegLiteral (text : list N)
  | SegInterpolation (e : Expr)
with MatchArm : Type :=
  | MkMatchArm (pattern : Pattern) (guard : option Expr) (body : MatchBody) (span : Span)
with MatchBody : Type :=
  | MatchExpr (e : Expr)
  | MatchBlock (stmts : list Stmt)
with Param : Type :=
  | MkParam (name : name_t) (ty : LType) (default_expr : option Expr) (span : Span)
with Pattern : Type :=
  | PWildcard (span : Span)
  | PIdent (name : name_t) (span : Span)
  | PLiteral (l : Lit) (span : Span)
  | PStruct_ (name : name_t) (fields : list (name_t * Pattern)) (span : Span)
  | PTuple (pats : list Pattern) (span : Span)
  | PEnumVariant (name : name_t) (inner : option (list Pattern)) (span : Span)
  | PRest (span : Span)
with ForIter : Type :=
  | IterOf (e : Expr)
  | IterIn (start : Expr) (range_op : Span) (end_ : Expr) (inclusive : bool)
with Const : Type :=
  | MkConst (name : name_t) (ty : LType) (value : Expr) (span : Span)
with Stmt : Type :=
  | SLet (mutable : bool) (pattern : Pattern) (ty : option LType) (expr : Expr) (span : Span)
  | SConst (c : Const)
  | SAssign (target : Expr) (op : AssignOp) (value : Expr) (span : Span)
  | SIf (cond : Expr) (then_ : list Stmt) (else_ : option (list Stmt)) (span : Span)
  | SMatch (expr : Expr) (arms : list MatchArm) (span : Span)
  | SFor (pattern : Pattern) (iter : ForIter) (body : list Stmt) (span : Span)
  | SWhile (cond : Expr) (body : list Stmt) (span : Span)
  | SLoop (body : list Stmt) (span : Span)
  | SReturn (expr : option Expr) (span : Span)
  | SBreak (span : Span)
  | SContinue (span : Span)
  | SEmit (event : name_t) (fields : list (name_t * Expr)) (span : Span)
  | SAssert (cond : Expr) (msg : option Expr) (span : Span)
  | SRevert (msg : option Expr) (span : Span)
  | STry (body : list Stmt) (catch_var : name_t) (catch_body : list Stmt) (span : Span)
  | SUnchecked (body : list Stmt) (span : Span)
  | SPlaceholder (span : Span)
  | SExpr (expr : Expr) (span : Span).

(** ** [expr/span.rs] *)

Definition expr_span (e : Expr) : Span :=
  match e with
  | ELiteral _ s | EIdent _ s | ETuple _ s | EArray _ s | EStruct_ _ _ _ s | ECall _ _ _ s | EIndex _ _ s | EMember _ _ s
  | EUnary _ _ s | EBinary _ _ _ s | ETernary _ _ _ s | ENullish _ _ s | ETry_ _ s | ECast _ _ s | ELambda _ _ s
  | ENew _ _ _ s | EMatch_ _ _ s | EIf_ _ _ _ s | ETemplate _ s | EAssign_ _ _ _ s => s
  end.

(** [usize] addition does not overflow on offsets of a source that fits in memory;
    [N] subtraction saturates. *)
Definition merge_with (self other : Span) : Span :=
  {| line := line self; col := col self; offset := offset self; len := offset other + len other - offset self |}.

(** ** Declarations ([ast/decl]) *)

Inductive Visibility := VisPub | VisExternal | VisPrivate.
Inductive Mutability := MutView | MutPure | MutPayable | MutDefault.
Inductive AnnotationArg :=
  | AnnPositional (e : Expr)
  | AnnNamed (name : name_t) (e : Expr).
Record Annotation := { ann_name : name_t; ann_args : list AnnotationArg; ann_span : Span }.
Record GenericParam := { gp_name : name_t; gp_bound : option LType; gp_span : Span }.
Record Function_ := {
  fn_name : name_t;
  fn_annotations : list Annotation;
  fn_visibility : Visibility;
  fn_mutability : Mutability;
  fn_generic_params : list GenericParam;
  fn_params : list Param;
  fn_return_type : option LType;
  fn_body : option (list Stmt);
  fn_span : Span;
}.
Record ModifierDef := { md_name : name_t; md_params : list Param; md_body : list Stmt; md_span : Span }.
Record Receive := { rcv_payable : bool; rcv_body : list Stmt; rcv_span : Span }.
Record Fallback_ := { fb_payable : bool; fb_body : list Stmt; fb_span : Span }.

Record TypeAlias := { ta_name : name_t; ta_ty : LType; ta_span : Span }.
Record FieldDecl := { fd_name : name_t; fd_ty : LType; fd_span : Span }.
Inductive StructMember :=
  | MemberField (f : FieldDecl)
  | MemberMethod (f : Function_).
Record Struct_ := { st_name : name_t; st_generic_params : list GenericParam; st_members : list StructMember; st_span : Span }.
Record EnumVariant := { ev_name : name_t; ev_fields : list FieldDecl; ev_discriminant : option Expr; ev_span : Span }.
Record Enum := {
  en_name : name_t;
  en_generic_params : list GenericParam;
  en_variants : list EnumVariant;
  en_methods : list Function_;
  en_span : Span;
}.
Record EventField := { ef_indexed : bool; ef_name : name_t; ef_optional : bool; ef_ty : LType; ef_span : Span }.
Record Event := {
  evt_name : name_t;
  evt_anonymous : bool;
  evt_fields : list EventField;
  evt_methods : list Function_;
  evt_span : Span;
}.
Record ErrorDecl := { err_name : name_t; err_fields : list FieldDecl; err_span : Span }.

Inductive ImportNames :=
  | ImportNamed (names : list name_t)
  | ImportStar (alias : name_t).
Record Import_ := { imp_names : ImportNames; imp_from : list N; imp_span : Span }.
Record Using := { us_library : name_t; us_for_type : LType; us_span : Span }.
Inductive ConfigValue : Type :=
  | CvStr (s : list N)
  | CvInt (n : N)
  | CvBool (b : bool)
  | CvPercent (n : N)
  | CvUnit (n : N) (kind : UnitKind)
  | CvObject (entries : list ConfigEntry)
  | CvIdent (name : name_t)
with ConfigEntry : Type :=
  | MkConfigEntry (key : name_t) (value : ConfigValue) (span : Span).
Record Config := { cfg_entries : list ConfigEntry; cfg_span : Span }.
Record Metadata := { meta_entries : list ConfigEntry; meta_span : Span }.

Record StateField := { sf_pub : bool; sf_name : name_t; sf_ty : LType; sf_default : option Expr; sf_span : Span }.
Record StateBlock := { sb_fields : list StateField; sb_span : Span }.
Record Immutable := { im_name : name_t; im_ty : LType; im_span : Span }.
Inductive ContractMember :=
  | CmState (b : StateBlock)
  | CmConst (c : Const)
  | CmImmutable (i : Immutable)
  | CmFunction (f : Function_)
  | CmEvent (e : Event)
  | CmModifier (m : ModifierDef)
  | CmReceive (r : Receive)
  | CmFallback (f : Fallback_)
  | CmStruct (s : Struct_)
  | CmEnum (e : Enum)
  | CmErrorDecl (e : ErrorDecl)
  | CmConfig (c : Config)
  | CmMetadata (m : Metadata).
Record Contract := {
  ct_name : name_t;
  ct_implements : list name_t;
  ct_uses : list name_t;
  ct_members : list ContractMember;
  ct_span : Span;
}.
Record TokenDecl := { td_name : name_t; td_extends : name_t; td_members : list ContractMember; td_span : Span }.
Inductive InterfaceMember :=
  | ImFunction (f : Function_)
  | ImEvent (e : Event).
Record Interface := { if_name : name_t; if_members : list InterfaceMember; if_span : Span }.
Inductive TraitMember :=
  | TmState (b : StateBlock)
  | TmFunction (f : Function_).
Record Trait := { tr_name : name_t; tr_members : list TraitMember; tr_span : Span }.
Record Library_ := { lib_name : name_t; lib_functions : list Function_; lib_span : Span }.

(** ** [ast.rs] *)

Inductive Item :=
  | ItContract (c : Contract)
  | ItToken_ (t : TokenDecl)
  | ItInterface (i : Interface)
  | ItTrait (t : Trait)
  | ItLibrary (l : Library_)
  | ItStruct (s : Struct_)
  | ItEnum (e : Enum)
  | ItFunction (f : Function_)
  | ItConst (c : Const)
  | ItTypeAlias (t : TypeAlias)
  | ItImport (i : Import_)
  | ItUsing (u : Using)
  | ItErrorDecl (e : ErrorDecl).
Record Ast := { items : list Item; ast_span : Span }.
