(* ===== verification/Parser.v ===== *)
(** * The parser of the contract language: cursor, types and patterns
      ([lemma-lang/src/parser/mod.rs], [parser/ty.rs], [parser/expr/control.rs])

    The position in the token vector is a zipper: the tokens before it, nearest
    first, and the tokens from it on.  A parser is a function of the cursor; its
    answer is [None] when the program would index an empty vector or when the fuel
    of a loop runs out, and otherwise the cursor reached with a result.  Loops and
    recursion take fuel from the tokens left ([weight]); [ParserTotal.v] shows that
    it is enough.  The context strings of messages are written without quotation
    marks. *)
From stdpp Require Import strings.
From S2P Require Import Prelude LexToken LangAst.

(** ** The cursor *)

Record Parser := {
  before : list (Token * Span);
  rest : list (Token * Span);
  gt_split_positions : list nat;
  expr_depth : N;
}.
Definition Parser_new (tokens : list (Token * Span)) : Parser :=
  {| before := []; rest := tokens; gt_split_positions := []; expr_depth := 0 |}.

Definition MAX_EXPR_DEPTH : N := 24.

Definition P (A : Type) : Type := Parser → option (Parser * result LangError A).
Definition pret {A} (x : A) : P A := λ p, Some (p, Ok x).
Definition pfail {A} (e : LangError) : P A := λ p, Some (p, Err e).
Definition pbind {A B} (f : A → P B) (m : P A) : P B := λ p,
  match m p with
  | None => None
  | Some (p', Err e) => Some (p', Err e)
  | Some (p', Ok x) => f x p'
  end.
#[export] Instance P_ret : MRet P := @pret.
#[export] Instance P_bind : MBind P := λ A B, @pbind A B.

(** The last token of the vector. *)
Definition last_token (p : Parser) : option (Token * Span) :=
  match last (rest p) with Some t => Some t | None => head (before p) end.
(** The token at the cursor, or the last one past the end. *)
Definition current (p : Parser) : option (Token * Span) :=
  match rest p with t :: _ => Some t | [] => head (before p) end.

(** What is read at the cursor, without moving it. *)
Definition read {A} (f : Token * Span → A) (o : option (Token * Span)) (p : Parser) : option (Parser * result LangError A) :=
  match o with Some t => Some (p, Ok (f t)) | None => None end.
Definition or_last (o : option (Token * Span)) (p : Parser) : option (Token * Span) :=
  match o with Some t => Some t | None => last_token p end.

Definition peek : P Token := λ p, read fst (current p) p.
Definition peek_span : P Span := λ p, read snd (current p) p.
Definition peek_nth (n : nat) : P Token := λ p, read fst (or_last (rest p !! n) p) p.
Definition peek_nth_non_newline (n : nat) : P Token := λ p,
  read fst (or_last (filter (λ t : Token * Span, t.1 ≠ TNewline) (rest p) !! n) p) p.
Definition prev_span : P Span := λ p,
  read snd (match before p with t :: _ => Some t | [] => head (rest p) end) p.

Definition step (p : Parser) : Parser :=
  match rest p with
  | t :: ts => {| before := t :: before p; rest := ts; gt_split_positions := gt_split_positions p; expr_depth := expr_depth p |}
  | [] => p
  end.
Definition advance : P (Token * Span) := λ p,
  match current p with Some t => Some (step p, Ok t) | None => None end.
Definition check (tok : Token) : P bool := t ← peek; mret (bool_decide (t = tok)).
Definition advance_if (tok : Token) : P bool :=
  b ← check tok; if b : bool then _ ← advance; mret true else mret false.
Definition at_end : P bool := check TEof.

(** Errors are reported at the current token. *)
Definition error_expected {A} (expected : list string) (message : ParseMessage) : P A :=
  s ← peek_span; pfail (Parse (MkParseError message s expected)).
Definition error {A} (message : ParseMessage) : P A := error_expected [] message.

Definition expect (tok : Token) (ctx : string) : P Span :=
  b ← check tok;
  if b : bool then t ← advance; mret t.2 else t ← peek; error (ExpectedGot ctx t).

(** ** Loops and recursion *)

(** A [>>] may be split into two tokens. *)
Definition token_weight (t : Token * Span) : nat := match t.1 with TShr => 2 | _ => 1 end.
Definition weight (p : Parser) : nat := sum_list (token_weight <$> rest p).

(** The body goes on with a new accumulator or ends the loop. *)
Fixpoint loop_fuel {A B} (fuel : nat) (body : A → P (A + B)) (acc : A) : P B := λ p,
  match fuel with
  | O => None
  | S fuel =>
      match body acc p with
      | None => None
      | Some (p', Err e) => Some (p', Err e)
      | Some (p', Ok (inl acc')) => loop_fuel fuel body acc' p'
      | Some (p', Ok (inr b)) => Some (p', Ok b)
      end
  end.
Definition loop {A B} (body : A → P (A + B)) (acc : A) : P B := λ p, loop_fuel (S (weight p)) body acc p.

Fixpoint recur_fuel {A B} (fuel : nat) (F : (A → P B) → A → P B) (x : A) : P B := λ p,
  match fuel with O => None | S fuel => F (recur_fuel fuel F) x p end.
Definition recur {A B} (F : (A → P B) → A → P B) (x : A) : P B := λ p, recur_fuel (S (weight p)) F x p.

(** [while cond { acc.push(item()?) ... }]: an element, then whether to go on. *)
Definition while_push {A} (cond : P bool) (item : P (A * bool)) : P (list A) :=
  loop (λ acc, c ← cond; if c : bool then '(x, more) ← item; mret (if more : bool then inl (acc ++ [x]) else inr (acc ++ [x]))
               else mret (inr acc)) [].

(** [!self.check(close) && !self.at_end()] *)
Definition not_at (close : Token) : P bool :=
  b ← check close; if b : bool then mret false else e ← at_end; mret (negb e).

Definition skip_newlines : P () :=
  loop (λ _, t ← peek; if bool_decide (t = TNewline) then _ ← advance; mret (inl ()) else mret (inr ())) ().
Definition consume_block_sep : P () :=
  _ ← skip_newlines; _ ← advance_if TComma; skip_newlines.
(** Comma-separated elements up to a closing token; a comma before it is allowed. *)
Definition comma_list {A} (close : Token) (item : P A) : P (list A) :=
  while_push (not_at close) (x ← item; more ← advance_if TComma; mret (x, more)).
(** The value of an optional part that a token announces. *)
Definition optional {A} (tok : Token) (m : P A) : P (option A) :=
  b ← advance_if tok; if b : bool then x ← m; mret (Some x) else mret None.

(** [synchronize]: forward to a declaration or statement keyword. *)
Definition is_boundary (t : Token) : bool :=
  match t with
  | TContract | TToken_ | TInterface | TTrait | TLibrary | TStruct | TEnum | TFn | TLet | TReturn | TIf | TFor | TWhile
  | TLoop | TState | TImport | TUsing | TConst | TType | TError | TImmutable | TAt | THash_ => true
  | _ => false
  end.
Definition synchronize : P () :=
  loop (λ _, e ← at_end; if e : bool then mret (inr ()) else
             t ← peek; if is_boundary t then mret (inr ()) else _ ← advance; mret (inl ())) ().

Definition set_depth (d : N) : P () := λ p,
  Some ({| before := before p; rest := rest p; gt_split_positions := gt_split_positions p; expr_depth := d |}, Ok ()).
Definition get_depth : P N := λ p, Some (p, Ok (expr_depth p)).
Definition enter_expr : P () :=
  d ← get_depth;
  if MAX_EXPR_DEPTH <? d + 1 then error NestingTooDeep else set_depth (d + 1).
Definition leave_expr : P () := d ← get_depth; set_depth (d - 1).

(** Only the debug assertion of [rewind_to] reads the recorded positions. *)
Definition record_gt_split (p : Parser) (pos : nat) : Parser :=
  {| before := before p; rest := rest p; gt_split_positions := gt_split_positions p ++ [pos]; expr_depth := expr_depth p |}.

(** ** Names and integers *)

Definition expect_identifier (ctx : string) : P (list N) :=
  t ← peek;
  match t with
  | TIdentifier name => _ ← advance; mret name
  | TFrom => _ ← advance; mret (text "from")
  | _ => error_expected [ctx] (ExpectedGot ctx t)
  end.

Definition expect_int_literal (ctx : string) : P N :=
  t ← peek;
  match t with
  | TIntLiteral n => _ ← advance; mret n
  | TIntLiteralTyped value _ => _ ← advance; mret value
  | _ => error_expected ["integer literal"%string] (ExpectedIntLiteral ctx t)
  end.

(** ** Types ([ty.rs]) *)

Definition is_gt (t : Token) : bool := match t with TGt | TShr => true | _ => false end.
Definition check_gt : P bool := t ← peek; mret (is_gt t).

(** [>>] becomes [>] in the buffer and the cursor stays. *)
Definition split_shr : P Span := λ p,
  match rest p with
  | (t, s) :: ts =>
      let s' := {| line := line s; col := col s; offset := offset s; len := 1 |} in
      Some (record_gt_split
              {| before := before p; rest := (TGt, s') :: ts; gt_split_positions := gt_split_positions p;
                 expr_depth := expr_depth p |} (length (before p)), Ok s')
  | [] => None
  end.
Definition expect_gt (ctx : string) : P Span :=
  t ← peek;
  match t with
  | TGt => x ← advance; mret x.2
  | TShr => split_shr
  | _ => error_expected [ctx] (ExpectedGot ctx t)
  end.

(** [u8]'s parser: an optional plus sign and decimal digits, at most 255. *)
Definition digit (c : N) : bool := (48 <=? c) && (c <=? 57).
Definition parse_u8 (l : list N) : option N :=
  let digits := match l with 43 :: l => l | _ => l end in
  if bool_decide (digits = []) || negb (forallb digit digits) then None else
  let n := foldl (λ acc c, 10 * acc + (c - 48)) 0 digits in
  if n <=? 255 then Some n else None.
Definition strip_prefix (prefix l : list N) : option (list N) :=
  if bool_decide (take (length prefix) l = prefix) then Some (drop (length prefix) l) else None.
Definition parse_bytes_n (name : list N) : option N :=
  digits ← strip_prefix (text "bytes") name;
  if bool_decide (digits = []) then None else
  n ← parse_u8 digits;
  if (1 <=? n) && (n <=? 32) then Some n else None.

Definition primitive_type (t : Token) : option LType :=
  match t with
  | TU8 => Some TyU8 | TU16 => Some TyU16 | TU32 => Some TyU32 | TU64 => Some TyU64 | TU128 => Some TyU128 | TU256 => Some TyU256
  | TI8 => Some TyI8 | TI16 => Some TyI16 | TI32 => Some TyI32 | TI64 => Some TyI64 | TI128 => Some TyI128 | TI256 => Some TyI256
  | TBool => Some TyBool | TStringTy => Some TyStringTy | TCharTy => Some TyCharTy | TAddressTy => Some TyAddressTy
  | THashTy => Some TyHashTy | TBytes => Some TyBytes
  | _ => None
  end.

Section types.
Context (parse_type : P LType).

Definition parse_generic_wrapper_1 : P LType :=
  _ ← advance; _ ← expect TLt "< after Array"; inner ← parse_type; _ ← expect_gt ">"; mret (TyArray inner).
Definition parse_map_type (fast : bool) : P LType :=
  _ ← advance;
  _ ← expect TLt (if fast then "< after FastMap" else "< after Map");
  key ← parse_type;
  _ ← expect TComma (if fast then ", in FastMap type arguments" else ", in Map type arguments");
  val ← parse_type;
  _ ← expect_gt ">";
  mret (if fast then TyFastMap key val else TyMap key val).
Definition parse_set_type : P LType :=
  _ ← advance; _ ← expect TLt "< after Set"; inner ← parse_type; _ ← expect_gt ">"; mret (TySet inner).
Definition parse_option_type : P LType :=
  _ ← advance; _ ← expect TLt "< after Option"; inner ← parse_type; _ ← expect_gt ">"; mret (TyOption_ inner).
Definition parse_result_type : P LType :=
  _ ← advance; _ ← expect TLt "< after Result"; ok_ty ← parse_type; _ ← expect TComma ", in Result type arguments";
  err_ty ← parse_type; _ ← expect_gt ">"; mret (TyResult_ ok_ty err_ty).
Definition parse_decimal_type : P LType :=
  _ ← advance; _ ← expect TLParen "( after decimal"; n ← expect_int_literal "decimal precision N";
  if 2 ^ 32 - 1 <? n then error (PrecisionTooLarge n) else
  _ ← expect TRParen ") after decimal precision"; mret (TyDecimal n).
Definition parse_tuple_or_fn_type : P LType :=
  _ ← advance;
  e ← advance_if TRParen;
  if e : bool then mret (TyTuple []) else
  first ← parse_type;
  s ← advance_if TRParen;
  if s : bool then mret first else
  types ← loop (λ types, c ← advance_if TComma; if c : bool then
                   b ← check TRParen; if b : bool then mret (inr types) else t ← parse_type; mret (inl (types ++ [t]))
                 else mret (inr types)) [first];
  _ ← expect TRParen ") after tuple type";
  mret (TyTuple types).
Definition parse_fixed_array_type : P LType :=
  _ ← advance; elem_ty ← parse_type; _ ← expect TSemicolon "; in fixed array type [T; N]";
  n ← expect_int_literal "array size N";
  if u64_max <? n then error (ArraySizeTooLarge n) else
  _ ← expect TRBracket "] after fixed array type"; mret (TyFixedArray elem_ty n).
Definition parse_type_list (stop_token : Token) : P (list LType) :=
  while_push (not_at stop_token)
    (t ← parse_type; c ← advance_if TComma;
     if c : bool then b ← check stop_token; mret (t, negb b) else mret (t, false)).
Definition parse_type_list_until_gt : P (list LType) :=
  while_push (b ← check_gt; if b : bool then mret false else e ← at_end; mret (negb e))
    (t ← parse_type; c ← advance_if TComma; if c : bool then b ← check_gt; mret (t, negb b) else mret (t, false)).
Definition parse_generic_type_args : P (list LType) :=
  _ ← expect TLt "< for generic type arguments"; args ← parse_type_list_until_gt; _ ← expect_gt ">"; mret args.
Definition parse_fn_type : P LType :=
  _ ← advance; _ ← expect TLParen "( after fn in function type"; params ← parse_type_list TRParen;
  _ ← expect TRParen ") after fn parameter types"; _ ← expect TArrow "-> in function type";
  ret ← parse_type; mret (TyFn params ret).
Definition parse_named_type (name : list N) : P LType :=
  _ ← advance;
  match parse_bytes_n name with
  | Some n => mret (TyBytesN n)
  | None =>
      b ← check TLt;
      if b : bool then args ← parse_generic_type_args; mret (TyNamed name args) else mret (TyNamed name [])
  end.
Definition parse_type_body : P LType :=
  _ ← skip_newlines;
  t ← peek;
  match primitive_type t with
  | Some ty => _ ← advance; mret ty
  | None =>
      match t with
      | TArrayTy => parse_generic_wrapper_1
      | TMapTy => parse_map_type false
      | TFastMapTy => parse_map_type true
      | TSetTy => parse_set_type
      | TOptionTy => parse_option_type
      | TResultTy => parse_result_type
      | TDecimal => parse_decimal_type
      | TLParen => parse_tuple_or_fn_type
      | TLBracket => parse_fixed_array_type
      | TFn => parse_fn_type
      | TIdentifier name => parse_named_type name
      | _ => error_expected ["type"%string] (ExpectedType t)
      end
  end.
End types.
Definition parse_type : P LType := recur (λ rec _, parse_type_body (rec ())) ().

(** ** Patterns ([expr/control.rs]) *)

Section patterns.
Context (parse_pattern : P Pattern).

Definition parse_tuple_pattern (start : Span) : P Pattern :=
  _ ← expect TLParen "("; pats ← comma_list TRParen parse_pattern;
  end_ ← expect TRParen ") after tuple pattern"; mret (PTuple pats (merge_with start end_)).
Definition parse_struct_pattern (name : list N) (start : Span) : P Pattern :=
  _ ← expect TLBrace "{";
  fields ← loop (λ fields,
    c ← not_at TRBrace;
    if negb c then mret (inr fields) else
    _ ← skip_newlines;
    d ← check TDotDot;
    if d : bool then _ ← advance; _ ← skip_newlines; mret (inr fields) else
    field_name ← expect_identifier "field name in struct pattern";
    field_span ← prev_span;
    l ← advance_if TColon;
    pat ← (if l : bool then parse_pattern else mret (PIdent field_name field_span));
    _ ← skip_newlines;
    more ← advance_if TComma;
    if more : bool then mret (inl (fields ++ [(field_name, pat)]))
    else _ ← skip_newlines; mret (inr (fields ++ [(field_name, pat)]))) [];
  end_ ← expect TRBrace "} after struct pattern";
  mret (PStruct_ name fields (merge_with start end_)).
Definition parse_enum_variant_pattern (name : list N) (start : Span) : P Pattern :=
  _ ← expect TLParen "("; inner ← comma_list TRParen parse_pattern;
  end_ ← expect TRParen ") after enum variant pattern";
  mret (PEnumVariant name (match inner with [] => None | _ => Some inner end) (merge_with start end_)).
Definition parse_pattern_body : P Pattern :=
  _ ← skip_newlines;
  start ← peek_span;
  t ← peek;
  match t with
  | TLBrace => parse_struct_pattern [] start
  | TDotDot => _ ← advance; mret (PRest start)
  | TBoolLiteral b => _ ← advance; mret (PLiteral (LBool b) start)
  | TIntLiteral n => _ ← advance; mret (PLiteral (LInt n) start)
  | TStringLiteral s => _ ← advance; mret (PLiteral (LStr s) start)
  | TLParen => parse_tuple_pattern start
  | TIdentifier name =>
      _ ← advance;
      if bool_decide (name = text "_") then mret (PWildcard start) else
      b ← check TLBrace; if b : bool then parse_struct_pattern name start else
      q ← check TLParen; if q : bool then parse_enum_variant_pattern name start else
      mret (PIdent name start)
  | _ => error_expected ["pattern"%string] (ExpectedPattern t)
  end.
End patterns.
Definition parse_pattern : P Pattern := recur (λ rec _, parse_pattern_body (rec ())) ().
