(* ===== verification/ParserExpr.v ===== *)
(** * The parser of the contract language: expressions and statements
      ([lemma-lang/src/parser/expr.rs], [parser/expr/*.rs], [parser/stmt.rs], [parser/stmt/*.rs])

    Expressions and blocks call one another.  The parsers of one round are
    functions of the parsers of the round before ([Rec]); [rounds] ties the knot
    with fuel.  The interpolations of a template are lexed and parsed on their own,
    by [parse_interpolation]. *)
From stdpp Require Import strings.
From S2P Require Import Prelude LexToken Lexer LangAst Parser.

Record Rec := { rec_expr : P Expr; rec_block : P (list Stmt) }.

(** ** Operators by token *)

Definition assign_op (t : Token) : option AssignOp :=
  match t with
  | TAssign => Some AAssign | TPlusAssign => Some AAdd | TMinusAssign => Some ASub | TStarAssign => Some AMul
  | TSlashAssign => Some ADiv | TPercentAssign => Some ARem | _ => None
  end.
Definition unary_op (t : Token) : option UnaryOp :=
  match t with TNot => Some UNot | TMinus => Some UNeg | TBitNot => Some UBitNot | TBitAnd => Some URef | _ => None end.
Definition or_op (t : Token) : option BinaryOp := match t with TOr => Some BOr | _ => None end.
Definition and_op (t : Token) : option BinaryOp := match t with TAnd => Some BAnd | _ => None end.
Definition bit_or_op (t : Token) : option BinaryOp := match t with TPipe => Some BBitOr | _ => None end.
Definition bit_xor_op (t : Token) : option BinaryOp := match t with TBitXor => Some BBitXor | _ => None end.
Definition bit_and_op (t : Token) : option BinaryOp := match t with TBitAnd => Some BBitAnd | _ => None end.
Definition equality_op (t : Token) : option BinaryOp := match t with TEq => Some BEq | TNotEq => Some BNotEq | _ => None end.
Definition comparison_op (t : Token) : option BinaryOp :=
  match t with TLt => Some BLt | TGt => Some BGt | TLtEq => Some BLtEq | TGtEq => Some BGtEq | _ => None end.
Definition shift_op (t : Token) : option BinaryOp := match t with TShl => Some BShl | TShr => Some BShr | _ => None end.
Definition addition_op (t : Token) : option BinaryOp := match t with TPlus => Some BAdd | TMinus => Some BSub | _ => None end.
Definition multiplication_op (t : Token) : option BinaryOp :=
  match t with TStar => Some BMul | TSlash => Some BDiv | TPercent => Some BRem | _ => None end.
Definition nullish_op (t : Token) : option () := match t with TNullCoalesce => Some () | _ => None end.
Definition unit_kind (t : Token) : option UnitKind :=
  match t with
  | TUnitEther => Some Ether | TUnitGwei => Some Gwei | TUnitSeconds => Some Seconds | TUnitMinutes => Some Minutes
  | TUnitHours => Some Hours | TUnitDays => Some Days | _ => None
  end.

(** A left-associative level: operands of the next level joined while the token is
    an operator of this one. *)
Definition left_assoc {Op} (op_of : Token → option Op) (node : Op → Expr → Expr → Span → Expr) (next : P Expr) : P Expr :=
  lhs ← next;
  loop (λ lhs,
    t ← peek;
    match op_of t with
    | None => mret (inr lhs)
    | Some op =>
        _ ← advance;
        rhs ← next;
        mret (inl (node op lhs rhs (merge_with (expr_span lhs) (expr_span rhs))))
    end) lhs.

(** ** Lookahead *)

Definition is_call_opts_block : P bool :=
  a ← peek_nth_non_newline 1;
  b ← peek_nth_non_newline 2;
  mret match a, b with
       | TIdentifier k, TColon =>
           bool_decide (k = text "value") || bool_decide (k = text "gas") || bool_decide (k = text "salt")
       | _, _ => false
       end.
Definition expr_start (t : Token) : bool :=
  match t with
  | TIntLiteral _ | TIntLiteralTyped _ _ | THexLiteral _ | TBinLiteral _ | TFloatLiteral _ | TStringLiteral _
  | TBytesLiteral _ | TCharLiteral _ | TBoolLiteral _ | TAddressLiteral _ | TTemplateLiteral _ | TIdentifier _
  | TSelfKw | TLParen | TLBracket | TNew | TMatch | TIf | TNot | TMinus | TBitNot | TBitAnd => true
  | _ => false
  end.
Definition is_expr_start_at (n : nat) : P bool := t ← peek_nth_non_newline n; mret (expr_start t).
Definition is_named_arg : P bool :=
  t ← peek; u ← peek_nth 1;
  mret match t with TIdentifier _ => bool_decide (u = TColon) | _ => false end.
Definition consume_stmt_end : P () := _ ← advance_if TSemicolon; skip_newlines.
(** Past newlines, is the next token [else]? *)
Definition check_else : P bool := λ p,
  Some (p, Ok (bool_decide (fst <$> head (filter (λ t : Token * Span, t.1 ≠ TNewline) (rest p)) = Some TElse))).
Definition consume_else : P () := _ ← skip_newlines; _ ← advance; mret ().

Section expr.
Context (interpolation : list N → Span → option (result LangError Expr)) (R : Rec).

#[local] Notation parse_expr := (rec_expr R) (only parsing).
#[local] Notation parse_block := (rec_block R) (only parsing).

(** ** Literals ([primary.rs]) *)

Definition try_parse_unit_suffix (base : Expr) (base_span : Span) : P Expr :=
  t ← peek;
  match unit_kind t with
  | None => mret base
  | Some kind =>
      end_ ← peek_span; _ ← advance;
      mret (ELiteral (LUnit base kind) (merge_with base_span end_))
  end.
Definition literal_of (t : Token) : option Lit :=
  match t with
  | THexLiteral s => Some (LHex s) | TBinLiteral s => Some (LBin s) | TFloatLiteral s => Some (LFloat s)
  | TStringLiteral s => Some (LStr s) | TBytesLiteral b => Some (LBytes b) | TCharLiteral c => Some (LChar c)
  | TBoolLiteral b => Some (LBool b) | TAddressLiteral s => Some (LAddress s)
  | _ => None
  end.
Definition is_unit_token (t : Token) : bool :=
  match t with
  | TUnitEther | TUnitGwei | TUnitSeconds | TUnitMinutes | TUnitHours | TUnitDays | TUnitTokens => true
  | _ => false
  end.
Definition parse_literal_primary (t : Token) : option (P Expr) :=
  match t with
  | TIntLiteral n =>
      Some (span ← peek_span; _ ← advance; try_parse_unit_suffix (ELiteral (LInt n) span) span)
  | TIntLiteralTyped value suffix =>
      Some (span ← peek_span; _ ← advance; try_parse_unit_suffix (ELiteral (LIntTyped value suffix) span) span)
  | _ =>
      match literal_of t with
      | Some l => Some (span ← peek_span; _ ← advance; mret (ELiteral l span))
      | None => if is_unit_token t then Some (error (StrayUnitSuffix t)) else None
      end
  end.

(** ** Lambdas and templates ([control.rs]) *)

Definition parse_lambda_body : P LambdaBody :=
  b ← check TLBrace;
  if b : bool then stmts ← parse_block; mret (LambdaBlock stmts) else e ← parse_expr; mret (LambdaExpr e).
(** The type of a lambda's parameter is left open. *)
Definition lambda_param (name : list N) (s : Span) : Param := MkParam name (TyNamed (text "_") []) None s.
Fixpoint lambda_params (exprs : list Expr) : option (list Param) :=
  match exprs with
  | [] => Some []
  | EIdent name s :: exprs => ps ← lambda_params exprs; Some (lambda_param name s :: ps)
  | _ => None
  end.
Definition parse_lambda_from_exprs (exprs : list Expr) (span : Span) : P Expr :=
  _ ← expect TFatArrow "=> in lambda expression";
  match lambda_params exprs with
  | None => error LambdaParamNotIdent
  | Some params => body ← parse_lambda_body; end_ ← prev_span; mret (ELambda params body (merge_with span end_))
  end.
Fixpoint template_segments (segs : list TemplateSegment) (span : Span) : P (list TemplateExprSegment) :=
  match segs with
  | [] => mret []
  | Literal s :: segs => l ← template_segments segs span; mret (SegLiteral s :: l)
  | Interpolation src :: segs =>
      e ← (λ p, match interpolation src span with None => None | Some r => Some (p, r) end) : P Expr;
      l ← template_segments segs span; mret (SegInterpolation e :: l)
  end.
Definition parse_template_literal (segs : list TemplateSegment) : P Expr :=
  span ← peek_span; _ ← advance; l ← template_segments segs span; mret (ETemplate l span).

(** ** Calls ([ops.rs]) *)

(** A later option replaces an earlier one of the same key. *)
Definition set_option (opts : option Expr * option Expr * option Expr) (key : list N) (val : Expr)
    : option (option Expr * option Expr * option Expr) :=
  let '(value, gas, salt) := opts in
  if bool_decide (key = text "value") then Some (Some val, gas, salt)
  else if bool_decide (key = text "gas") then Some (value, Some val, salt)
  else if bool_decide (key = text "salt") then Some (value, gas, Some val)
  else None.
Definition parse_call_opts : P CallOpts :=
  start ← expect TLBrace "{";
  opts ← loop (λ opts,
    c ← not_at TRBrace;
    if negb c then mret (inr opts) else
    key ← expect_identifier "call option key (value, gas, or salt)";
    _ ← expect TColon ": after call option key";
    val ← parse_expr;
    match set_option opts key val with
    | None => error (UnknownCallOption key)
    | Some opts => _ ← advance_if TComma; mret (inl opts)
    end) (None, None, None);
  end_ ← expect TRBrace "} after call options";
  let '(value, gas, salt) := opts in mret (MkCallOpts value gas salt (merge_with start end_)).
Definition parse_call_arg : P CallArg :=
  named ← is_named_arg;
  if named : bool then
    name ← expect_identifier "argument name"; _ ← expect TColon ": after named argument";
    val ← parse_expr; mret (Named name val)
  else e ← parse_expr; mret (Positional e).
Definition parse_call_args : P (list CallArg) :=
  _ ← expect TLParen "("; args ← comma_list TRParen parse_call_arg; _ ← expect TRParen ") after arguments"; mret args.

(** ** Constructors ([constructors.rs]) *)

Definition parse_struct_literal (name : list N) (start : Span) : P Expr :=
  _ ← expect TLBrace "{";
  '(fields, spread) ← loop (λ fields,
    c ← not_at TRBrace;
    if negb c then mret (inr (fields, None)) else
    d ← check TDotDot; n ← peek_nth 1;
    if d && bool_decide (n = TDot) then
      _ ← advance; _ ← advance; base ← parse_expr; _ ← advance_if TComma; mret (inr (fields, Some base))
    else
      field_name ← expect_identifier "field name"; _ ← expect TColon ": after field name";
      val ← parse_expr;
      more ← advance_if TComma;
      mret (if more : bool then inl (fields ++ [(field_name, val)]) else inr (fields ++ [(field_name, val)], None))) [];
  end_ ← expect TRBrace "} after struct literal";
  mret (EStruct_ name fields spread (merge_with start end_)).
Definition parse_new_expr : P Expr :=
  start ← expect TNew "new";
  ty_name ← expect_identifier "type name after new";
  b ← check TLBrace; o ← is_call_opts_block;
  opts ← (if b && o then opts ← parse_call_opts; mret (Some opts) else mret None);
  args ← parse_call_args;
  end_ ← prev_span;
  mret (ENew ty_name opts args (merge_with start end_)).
Definition parse_ident_or_struct_or_lambda (name : list N) : P Expr :=
  span ← peek_span;
  _ ← advance;
  arrow ← check TFatArrow;
  if arrow : bool then
    _ ← advance; body ← parse_lambda_body; end_ ← prev_span;
    mret (ELambda [lambda_param name span] body (merge_with span end_))
  else
    b ← check TLBrace; o ← is_call_opts_block;
    if b && negb o then parse_struct_literal name span else mret (EIdent name span).

(** ** Match and if ([control.rs]) *)

Definition parse_match_arm : P MatchArm :=
  start ← peek_span;
  pattern ← parse_pattern;
  guard ← optional TIf parse_expr;
  _ ← expect TFatArrow "=> in match arm";
  b ← check TLBrace;
  body ← (if b : bool then stmts ← parse_block; mret (MatchBlock stmts) else e ← parse_expr; mret (MatchExpr e));
  _ ← advance_if TComma;
  _ ← skip_newlines;
  end_ ← prev_span;
  mret (MkMatchArm pattern guard body (merge_with start end_)).
(** [match scrutinee { arm* }], shared by the expression and the statement. *)
Definition parse_match_parts : P (Expr * list MatchArm * Span) :=
  start ← expect TMatch "match";
  scrutinee ← parse_expr;
  _ ← expect TLBrace "{ after match scrutinee";
  _ ← skip_newlines;
  arms ← while_push (not_at TRBrace) (arm ← parse_match_arm; _ ← skip_newlines; mret (arm, true));
  end_ ← expect TRBrace "} after match arms";
  mret (scrutinee, arms, merge_with start end_).
Definition parse_match_expr : P Expr := '(scrutinee, arms, span) ← parse_match_parts; mret (EMatch_ scrutinee arms span).
Definition parse_if_expr : P Expr :=
  start ← expect TIf "if";
  _ ← expect TLParen "( after if";
  cond ← parse_expr;
  _ ← expect TRParen ") after if condition";
  then_ ← parse_block;
  else_ ← optional TElse parse_block;
  end_ ← prev_span;
  mret (EIf_ cond then_ else_ (merge_with start end_)).

(** ** Parentheses and arrays ([primary.rs]) *)

Definition parse_paren_or_tuple : P Expr :=
  start ← expect TLParen "(";
  empty ← check TRParen;
  if empty : bool then _ ← advance; mret (ETuple [] start) else
  first ← parse_expr;
  comma ← advance_if TComma;
  if comma : bool then
    elems ← comma_list TRParen parse_expr;
    let elems := first :: elems in
    _ ← expect TRParen ") after tuple";
    arrow ← check TFatArrow;
    if arrow : bool then parse_lambda_from_exprs elems start
    else end_ ← prev_span; mret (ETuple elems (merge_with start end_))
  else
    _ ← expect TRParen ") after expression";
    arrow ← check TFatArrow;
    if arrow : bool then parse_lambda_from_exprs [first] start else mret first.
Definition parse_array_literal : P Expr :=
  start ← expect TLBracket "["; elems ← comma_list TRBracket parse_expr;
  end_ ← expect TRBracket "] after array literal"; mret (EArray elems (merge_with start end_)).

Definition parse_primary : P Expr :=
  _ ← skip_newlines;
  t ← peek;
  match parse_literal_primary t with
  | Some m => m
  | None =>
      match t with
      | TTemplateLiteral segs => parse_template_literal segs
      | TNew => parse_new_expr
      | TLParen => parse_paren_or_tuple
      | TLBracket => parse_array_literal
      | TIdentifier name => parse_ident_or_struct_or_lambda name
      | TFrom => span ← peek_span; _ ← advance; mret (EIdent (text "from") span)
      | TSelfKw => span ← peek_span; _ ← advance; mret (EIdent (text "self") span)
      | TMatch => parse_match_expr
      | TIf => parse_if_expr
      | _ => error_expected ["expression"%string] (UnexpectedInExpression t)
      end
  end.

(** ** The precedence ladder ([ops.rs], [expr.rs]) *)

Definition postfix_step (e : Expr) : P (Expr + Expr) :=
  _ ← skip_newlines;
  t ← peek;
  let to_prev := prev ← prev_span; mret (merge_with (expr_span e) prev) : P Span in
  match t with
  | TLBrace =>
      o ← is_call_opts_block;
      if o : bool then
        opts ← parse_call_opts; args ← parse_call_args; span ← to_prev; mret (inl (ECall e (Some opts) args span))
      else mret (inr e)
  | TLParen => args ← parse_call_args; span ← to_prev; mret (inl (ECall e None args span))
  | TLBracket =>
      _ ← advance; idx ← parse_expr; _ ← expect TRBracket "] after index expression"; span ← to_prev;
      mret (inl (EIndex e idx span))
  | TDot => _ ← advance; name ← expect_identifier "field name"; span ← to_prev; mret (inl (EMember e name span))
  | TQuestionMark =>
      ternary ← is_expr_start_at 1;
      if ternary : bool then mret (inr e) else
      q_span ← peek_span; _ ← advance; mret (inl (ETry_ e (merge_with (expr_span e) q_span)))
  | TAs => _ ← advance; ty ← parse_type; span ← to_prev; mret (inl (ECast e ty span))
  | _ => mret (inr e)
  end.
Definition parse_postfix : P Expr := e ← parse_primary; loop postfix_step e.

Definition parse_unary : P Expr :=
  recur (λ parse_unary _,
    start ← peek_span;
    t ← peek;
    match unary_op t with
    | None => parse_postfix
    | Some op =>
        _ ← advance; operand ← parse_unary ();
        mret (EUnary op operand (merge_with start (expr_span operand)))
    end) ().
Definition parse_exponent : P Expr :=
  recur (λ parse_exponent _,
    lhs ← parse_unary;
    b ← check TStarStar;
    if negb b then mret lhs else
    _ ← advance; rhs ← parse_exponent ();
    mret (EBinary BPow lhs rhs (merge_with (expr_span lhs) (expr_span rhs)))) ().
Definition parse_multiplication : P Expr := left_assoc multiplication_op EBinary parse_exponent.
Definition parse_addition : P Expr := left_assoc addition_op EBinary parse_multiplication.
Definition parse_shift : P Expr := left_assoc shift_op EBinary parse_addition.
Definition parse_comparison : P Expr := left_assoc comparison_op EBinary parse_shift.
Definition parse_equality : P Expr := left_assoc equality_op EBinary parse_comparison.
Definition parse_bit_and : P Expr := left_assoc bit_and_op EBinary parse_equality.
Definition parse_bit_xor : P Expr := left_assoc bit_xor_op EBinary parse_bit_and.
Definition parse_bit_or : P Expr := left_assoc bit_or_op EBinary parse_bit_xor.
Definition parse_logic_and : P Expr := left_assoc and_op EBinary parse_bit_or.
Definition parse_logic_or : P Expr := left_assoc or_op EBinary parse_logic_and.
Definition parse_nullish : P Expr := left_assoc nullish_op (λ _, ENullish) parse_logic_or.
Definition parse_ternary : P Expr :=
  cond ← parse_nullish;
  b ← check TQuestionMark;
  if negb b then mret cond else
  _ ← advance;
  then_ ← parse_expr;
  _ ← expect TColon ": in ternary expression";
  else_ ← parse_expr;
  mret (ETernary cond then_ else_ (merge_with (expr_span cond) (expr_span else_))).
Definition parse_assignment : P Expr :=
  recur (λ parse_assignment _,
    lhs ← parse_ternary;
    t ← peek;
    match assign_op t with
    | None => mret lhs
    | Some op =>
        _ ← advance; rhs ← parse_assignment ();
        mret (EAssign_ lhs op rhs (merge_with (expr_span lhs) (expr_span rhs)))
    end) ().
(** The depth goes back also when the expression fails. *)
Definition leaving (m : P Expr) : P Expr := λ p,
  match m p with
  | None => None
  | Some (p', r) => match leave_expr p' with Some (p'', _) => Some (p'', r) | None => None end
  end.
Definition parse_expr_body : P Expr :=
  _ ← skip_newlines; _ ← enter_expr; leaving parse_assignment.

(** ** Statements *)

Definition parse_expr_stmt : P Stmt :=
  e ← parse_expr;
  _ ← consume_stmt_end;
  mret match e with
       | EAssign_ target op value s => SAssign target op value s
       | _ => SExpr e (expr_span e)
       end.
Definition parse_let_stmt : P Stmt :=
  start ← expect TLet "let";
  mutable ← advance_if TMut;
  pattern ← parse_pattern;
  ty ← optional TColon parse_type;
  _ ← expect TAssign "= in let binding";
  expr ← parse_expr;
  _ ← consume_stmt_end;
  mret (SLet mutable pattern ty expr (merge_with start (expr_span expr))).
Definition parse_const_stmt : P Stmt :=
  start ← expect TConst "const";
  name ← expect_identifier "constant name";
  _ ← expect TColon ": after constant name";
  ty ← parse_type;
  _ ← expect TAssign "= in const declaration";
  value ← parse_expr;
  _ ← consume_stmt_end;
  mret (SConst (MkConst name ty value (merge_with start (expr_span value)))).
(** [else] may be on a later line; [else if] is a block of one statement. *)
Definition parse_else (parse_if_stmt : P Stmt) : P (option (list Stmt)) :=
  has_else ← check_else;
  if has_else : bool then
    _ ← consume_else;
    b ← check TIf;
    if b : bool then s ← parse_if_stmt; mret (Some [s])
    else stmts ← parse_block; mret (Some stmts)
  else mret None.
Definition parse_if_stmt : P Stmt :=
  recur (λ parse_if_stmt _,
    start ← expect TIf "if";
    _ ← expect TLParen "( after if";
    cond ← parse_expr;
    _ ← expect TRParen ") after if condition";
    then_ ← parse_block;
    else_ ← parse_else (parse_if_stmt ());
    end_ ← prev_span;
    mret (SIf cond then_ else_ (merge_with start end_))) ().
Definition parse_match_stmt : P Stmt := '(expr, arms, span) ← parse_match_parts; mret (SMatch expr arms span).
Definition parse_for_stmt : P Stmt :=
  start ← expect TFor "for";
  pattern ← parse_pattern;
  of_ ← advance_if TOf;
  iter ← (if of_ : bool then e ← parse_expr; mret (IterOf e) else
    in_ ← advance_if TIn;
    if in_ : bool then
      range_start ← parse_expr;
      range_op_span ← peek_span;
      incl ← advance_if TDotDotEq;
      _ ← (if incl : bool then mret () else _ ← expect TDotDot ".. or ..= in for-in range"; mret ());
      range_end ← parse_expr;
      mret (IterIn range_start range_op_span range_end incl)
    else t ← peek; error_expected ["of"%string; "in"%string] (ExpectedOfOrIn t));
  body ← parse_block;
  end_ ← prev_span;
  mret (SFor pattern iter body (merge_with start end_)).
Definition parse_while_stmt : P Stmt :=
  start ← expect TWhile "while";
  _ ← expect TLParen "( after while";
  cond ← parse_expr;
  _ ← expect TRParen ") after while condition";
  body ← parse_block;
  end_ ← prev_span;
  mret (SWhile cond body (merge_with start end_)).
Definition parse_loop_stmt : P Stmt :=
  start ← expect TLoop "loop"; body ← parse_block; end_ ← prev_span; mret (SLoop body (merge_with start end_)).
Definition parse_emit_stmt : P Stmt :=
  start ← expect TEmit "emit";
  event ← expect_identifier "event name";
  _ ← expect TLBrace "{ after event name";
  fields ← while_push (not_at TRBrace)
    (name ← expect_identifier "field name"; _ ← expect TColon ": after field name"; val ← parse_expr;
     more ← advance_if TComma;
     if more : bool then _ ← skip_newlines; mret ((name, val), true) else mret ((name, val), false));
  end_ ← expect TRBrace "} after emit fields";
  _ ← consume_stmt_end;
  mret (SEmit event fields (merge_with start end_)).
Definition parse_assert_stmt : P Stmt :=
  start ← expect TAssert "assert";
  _ ← expect TLParen "( after assert";
  cond ← parse_expr;
  msg ← optional TComma parse_expr;
  end_ ← expect TRParen ") after assert arguments";
  _ ← consume_stmt_end;
  mret (SAssert cond msg (merge_with start end_)).
Definition parse_revert_stmt : P Stmt :=
  start ← expect TRevert "revert";
  b ← check TLParen;
  msg ← (if b : bool then
           _ ← advance;
           e ← check TRParen;
           m ← (if e : bool then mret None else m ← parse_expr; mret (Some m));
           _ ← expect TRParen ") after revert message"; mret m
         else mret None);
  end_ ← prev_span;
  _ ← consume_stmt_end;
  mret (SRevert msg (merge_with start end_)).
Definition parse_try_stmt : P Stmt :=
  start ← expect TTry "try";
  body ← parse_block;
  _ ← expect TCatch "catch";
  _ ← expect TLParen "( after catch";
  catch_var ← expect_identifier "error variable name";
  _ ← expect TRParen ") after catch variable";
  catch_body ← parse_block;
  end_ ← prev_span;
  mret (STry body catch_var catch_body (merge_with start end_)).
Definition parse_unchecked_stmt : P Stmt :=
  start ← expect TUnchecked "unchecked"; body ← parse_block; end_ ← prev_span; mret (SUnchecked body (merge_with start end_)).
Definition parse_return_stmt : P Stmt :=
  start ← expect TReturn "return";
  t ← peek;
  expr ← match t with
         | TNewline | TRBrace | TSemicolon | TEof => mret None
         | _ => e ← parse_expr; mret (Some e)
         end;
  let end_ := from_option expr_span start expr in
  _ ← consume_stmt_end;
  mret (SReturn expr (merge_with start end_)).
(** A statement that is one token. *)
Definition token_stmt (node : Span → Stmt) : P Stmt := s ← peek_span; _ ← advance; _ ← consume_stmt_end; mret (node s).

Definition parse_stmt : P Stmt :=
  recur (λ parse_stmt _,
    _ ← skip_newlines;
    t ← peek;
    match t with
    | TLet => parse_let_stmt
    | TConst => parse_const_stmt
    | TIf => parse_if_stmt
    | TMatch => parse_match_stmt
    | TFor => parse_for_stmt
    | TWhile => parse_while_stmt
    | TLoop => parse_loop_stmt
    | TReturn => parse_return_stmt
    | TBreak => token_stmt SBreak
    | TContinue => token_stmt SContinue
    | TEmit => parse_emit_stmt
    | TAssert => parse_assert_stmt
    | TRevert => parse_revert_stmt
    | TTry => parse_try_stmt
    | TUnchecked => parse_unchecked_stmt
    | TIdentifier name => if bool_decide (name = text "_") then token_stmt SPlaceholder else parse_expr_stmt
    | TSemicolon => _ ← advance; _ ← skip_newlines; parse_stmt ()
    | _ => parse_expr_stmt
    end) ().
(** On an error the cursor is moved to the next boundary and the error returned. *)
Definition recovering {A} (m : P A) : P A := λ p,
  match m p with
  | Some (p', Err e) => match synchronize p' with Some (p'', _) => Some (p'', Err e) | None => None end
  | r => r
  end.
Definition parse_stmt_list : P (list Stmt) :=
  _ ← skip_newlines;
  while_push (not_at TRBrace) (s ← recovering parse_stmt; _ ← skip_newlines; mret (s, true)).
Definition parse_block_body : P (list Stmt) :=
  _ ← expect TLBrace "{"; _ ← skip_newlines; stmts ← parse_stmt_list; _ ← expect TRBrace "}"; mret stmts.
End expr.

(** ** The knot *)

Definition next_round (interpolation : list N → Span → option (result LangError Expr)) (R : Rec) : Rec :=
  {| rec_expr := parse_expr_body interpolation R; rec_block := parse_block_body R |}.
Fixpoint rounds (interpolation : list N → Span → option (result LangError Expr)) (n : nat) : Rec :=
  match n with
  | O => {| rec_expr := λ _, None; rec_block := λ _, None |}
  | S n => next_round interpolation (rounds interpolation n)
  end.
(** Every round consumes a token. *)
Definition parse_expr (interpolation : list N → Span → option (result LangError Expr)) : P Expr := λ p,
  rec_expr (rounds interpolation (S (weight p))) p.
Definition parse_block (interpolation : list N → Span → option (result LangError Expr)) : P (list Stmt) := λ p,
  rec_block (rounds interpolation (S (weight p))) p.

Section interpolation.
Context {U : Unicode} (bech32m_hrp : list N → result string (list N)).

(** The source between the braces, lexed and parsed on its own; the inner parser
    starts at depth zero.  The fuel bounds how often templates are nested. *)
Fixpoint parse_interpolation (fuel : nat) (src : list N) (span : Span) : option (result LangError Expr) :=
  match fuel with
  | O => None
  | S fuel =>
      match tokenize bech32m_hrp src with
      | None => None
      | Some (Err e) => Some (Err (Parse (MkParseError (InInterpolation e) span [])))
      | Some (Ok inner_tokens) =>
          match parse_expr (parse_interpolation fuel) (Parser_new inner_tokens) with
          | None => None
          | Some (_, Err e) => Some (Err e)
          | Some (inner, Ok e) =>
              match current inner with
              | None => None
              | Some (TEof, _) => Some (Ok e)
              | Some (t, _) => Some (Err (Parse (MkParseError (TrailingInInterpolation t) span [])))
              end
          end
      end
  end.
End interpolation.
