(* ===== verification/ParserDecl.v ===== *)
(** * The parser of the contract language: declarations
      ([lemma-lang/src/parser/decl.rs], [parser/decl/*.rs], [parser/item/*.rs])

    Declarations contain expressions and blocks and are not contained in them. *)
From stdpp Require Import strings pretty.
From S2P Require Import Prelude LexToken Lexer LangAst Parser ParserExpr.

(** ** Tokens that open declarations *)

Definition annotation_token_name (t : Token) : option string :=
  match t with
  | TOnlyOwner => Some "onlyOwner" | TOnlyRole => Some "onlyRole" | TWhenNotPaused => Some "whenNotPaused"
  | TWhenPaused => Some "whenPaused" | TNonReentrant => Some "nonReentrant" | TCooldown => Some "cooldown"
  | TPayableAnn => Some "payable" | TDeadline => Some "deadline" | TEstimateGas => Some "estimateGas"
  | TOnTransfer => Some "onTransfer" | TIndexed => Some "indexed" | TPrivate => Some "private"
  | TAgentCallable => Some "agentCallable" | _ => None
  end%string.
Definition is_at_annotation (t : Token) : bool :=
  bool_decide (is_Some (annotation_token_name t)) || match t with TAt | TAnnotation _ => true | _ => false end.
Definition is_fn_token (t : Token) : bool :=
  match t with TFn | TPub | TView | TPure | TExternal | TPayable => true | _ => false end.
Definition is_annotatable_member (t : Token) : bool :=
  match t with TFn | TPub | TView | TPure | TPayable | TExternal | TInit | TEvent => true | _ => false end.
Definition function_start (t : Token) : bool :=
  match t with
  | TFn | TPub | TView | TPure | TExternal | TPayable
  | TOnlyOwner | TOnlyRole | TWhenNotPaused | TWhenPaused | TNonReentrant | TCooldown | TPayableAnn | TDeadline
  | TEstimateGas | TOnTransfer | TPrivate | TAgentCallable
  | TAt | THash_ | TAnnotation _ => true
  | _ => false
  end.
Definition is_function_start : P bool := t ← peek; mret (function_start t).

Section decl.
Context (interpolation : list N → Span → option (result LangError Expr)).
#[local] Notation parse_expr := (parse_expr interpolation) (only parsing).
#[local] Notation parse_block := (parse_block interpolation) (only parsing).

(** [{] already consumed: the members up to [}], with the newlines around them. *)
Definition members_until_brace {A} (member : P A) : P (list A) :=
  while_push (not_at TRBrace) (m ← member; _ ← skip_newlines; mret (m, true)).
(** The loop of bodies that skip newlines, look again for the end, read a member
    and then a separator. *)
Definition separated_members {A} (member : P A) (sep : P ()) : P (list A) :=
  loop (λ acc,
    c ← not_at TRBrace;
    if negb c then mret (inr acc) else
    _ ← skip_newlines;
    c ← not_at TRBrace;
    if negb c then mret (inr acc) else
    m ← member; _ ← sep; mret (inl (acc ++ [m]))) [].

(** ** Annotations ([annotations.rs]) *)

Definition parse_annotation_arg : P AnnotationArg :=
  named ← is_named_arg;
  if named : bool then
    name ← expect_identifier "annotation argument name"; _ ← expect TColon ":"; val ← parse_expr; mret (AnnNamed name val)
  else e ← parse_expr; mret (AnnPositional e).
Definition parse_annotation_args : P (list AnnotationArg) :=
  _ ← expect TLParen "("; args ← comma_list TRParen parse_annotation_arg; _ ← expect TRParen ")"; mret args.
Definition annotation_args : P (list AnnotationArg) :=
  b ← check TLParen; if b : bool then parse_annotation_args else mret [].
Definition parse_at_annotation : P Annotation :=
  start ← peek_span;
  t ← peek;
  name ← match annotation_token_name t with
         | Some canonical => _ ← advance; mret (text canonical)
         | None =>
             match t with
             | TAt => _ ← advance; expect_identifier "annotation name after @"
             | TAnnotation s => _ ← advance; mret s
             | _ => error ExpectedAnnotation
             end
         end;
  args ← annotation_args;
  end_ ← prev_span;
  mret {| ann_name := name; ann_args := args; ann_span := merge_with start end_ |}.
Definition parse_hash_annotation : P Annotation :=
  start ← peek_span;
  _ ← expect THash_ "#";
  _ ← expect TLBracket "[";
  name ← expect_identifier "annotation name";
  args ← annotation_args;
  _ ← expect TRBracket "]";
  end_ ← prev_span;
  mret {| ann_name := name; ann_args := args; ann_span := merge_with start end_ |}.
Definition parse_annotations : P (list Annotation) :=
  loop (λ anns,
    _ ← skip_newlines;
    t ← peek;
    n ← peek_nth 1;
    if is_at_annotation t then a ← parse_at_annotation; mret (inl (anns ++ [a]))
    else if bool_decide (t = THash_) && bool_decide (n = TLBracket) then
      a ← parse_hash_annotation; mret (inl (anns ++ [a]))
    else mret (inr anns)) [].

(** ** Functions ([functions.rs]) *)

Definition parse_generic_param : P GenericParam :=
  start ← peek_span;
  name ← expect_identifier "generic parameter name";
  bound ← optional TColon (bound_name ← expect_identifier "trait bound name"; mret (TyNamed bound_name []));
  mret {| gp_name := name; gp_bound := bound; gp_span := start |}.
Definition parse_generic_params : P (list GenericParam) :=
  _ ← expect TLt "< for generic params";
  params ← while_push (b ← check_gt; if b : bool then mret false else e ← at_end; mret (negb e))
    (g ← parse_generic_param; more ← advance_if TComma; mret (g, more));
  _ ← expect_gt ">";
  mret params.
Definition generic_params : P (list GenericParam) := b ← check TLt; if b : bool then parse_generic_params else mret [].
Definition parse_param : P Param :=
  start ← peek_span;
  name ← expect_identifier "parameter name";
  _ ← expect TColon ":";
  ty ← parse_type;
  default_expr ← optional TAssign parse_expr;
  mret (MkParam name ty default_expr start).
Definition parse_param_list : P (list Param) := comma_list TRParen parse_param.
Definition params_in_parens : P (list Param) :=
  _ ← expect TLParen "("; params ← parse_param_list; _ ← expect TRParen ")"; mret params.

Definition parse_visibility : P Visibility :=
  t ← peek;
  match t with
  | TPub => _ ← advance; mret VisPub
  | TExternal => _ ← advance; mret VisExternal
  | _ => mret VisPrivate
  end.
Definition parse_mutability : P Mutability :=
  t ← peek;
  match t with
  | TView => _ ← advance; mret MutView
  | TPure => _ ← advance; mret MutPure
  | TPayable => _ ← advance; mret MutPayable
  | _ => mret MutDefault
  end.
Definition parse_function (annotations : list Annotation) : P Function_ :=
  start ← match annotations with [] => peek_span | a :: _ => mret (ann_span a) end;
  visibility ← parse_visibility;
  mutability ← parse_mutability;
  _ ← expect TFn "fn";
  name ← expect_identifier "function name";
  generics ← generic_params;
  params ← params_in_parens;
  return_type ← optional TArrow parse_type;
  b ← check TLBrace;
  body ← (if b : bool then stmts ← parse_block; mret (Some stmts) else mret None);
  end_ ← prev_span;
  mret {| fn_name := name; fn_annotations := annotations; fn_visibility := visibility; fn_mutability := mutability;
          fn_generic_params := generics; fn_params := params; fn_return_type := return_type; fn_body := body;
          fn_span := merge_with start end_ |}.

(** ** Imports, constants, aliases ([items.rs]) *)

Definition parse_import_item : P Item :=
  start ← expect TImport "import";
  star ← advance_if TStar;
  names ← (if star : bool then _ ← expect TAs "as"; alias ← expect_identifier "import alias"; mret (ImportStar alias)
           else _ ← expect TLBrace "{"; names ← comma_list TRBrace (expect_identifier "import name");
                _ ← expect TRBrace "}"; mret (ImportNamed names));
  _ ← expect TFrom "from";
  t ← peek;
  from ← match t with TStringLiteral s => _ ← advance; mret s | _ => error ExpectedImportPath end;
  end_ ← prev_span;
  _ ← skip_newlines;
  mret (ItImport {| imp_names := names; imp_from := from; imp_span := merge_with start end_ |}).
Definition parse_using_item : P Item :=
  start ← expect TUsing "using";
  library ← expect_identifier "library name";
  _ ← expect TFor "for";
  for_type ← parse_type;
  end_ ← prev_span;
  _ ← skip_newlines;
  mret (ItUsing {| us_library := library; us_for_type := for_type; us_span := merge_with start end_ |}).
Definition parse_const_decl : P Const :=
  start ← expect TConst "const";
  name ← expect_identifier "const name";
  _ ← expect TColon ":";
  ty ← parse_type;
  _ ← expect TAssign "=";
  value ← parse_expr;
  end_ ← prev_span;
  _ ← skip_newlines;
  mret (MkConst name ty value (merge_with start end_)).
Definition parse_type_alias_item : P Item :=
  start ← expect TType "type";
  name ← expect_identifier "type alias name";
  _ ← expect TAssign "=";
  ty ← parse_type;
  end_ ← prev_span;
  _ ← skip_newlines;
  mret (ItTypeAlias {| ta_name := name; ta_ty := ty; ta_span := merge_with start end_ |}).

(** ** Structs, enums, events, errors ([struct_enum.rs], [event_error.rs]) *)

Definition parse_field_decl (ctx : string) : P FieldDecl :=
  fs ← peek_span; name ← expect_identifier ctx; _ ← expect TColon ":"; ty ← parse_type;
  mret {| fd_name := name; fd_ty := ty; fd_span := fs |}.
Definition parse_method : P Function_ := anns ← parse_annotations; parse_function anns.
Definition parse_struct_member : P StructMember :=
  f ← is_function_start;
  if f : bool then m ← parse_method; mret (MemberMethod m)
  else d ← parse_field_decl "field name"; mret (MemberField d).
Definition parse_struct_decl : P Struct_ :=
  start ← expect TStruct "struct";
  name ← expect_identifier "struct name";
  generics ← generic_params;
  _ ← expect TLBrace "{";
  _ ← skip_newlines;
  members ← separated_members parse_struct_member consume_block_sep;
  end_ ← expect TRBrace "}";
  mret {| st_name := name; st_generic_params := generics; st_members := members; st_span := merge_with start end_ |}.

(** [format!("_{idx}")] *)
Definition decimal_digits (n : N) : list N := text (pretty n).
Definition positional_name (idx : nat) : list N := text "_" ++ decimal_digits (N.of_nat idx).
Definition parse_positional_fields : P (list FieldDecl) :=
  loop (λ fields,
    c ← not_at TRParen;
    if negb c then mret (inr fields) else
    fs ← peek_span; ty ← parse_type;
    let fields := fields ++ [{| fd_name := positional_name (length fields); fd_ty := ty; fd_span := fs |}] in
    more ← advance_if TComma;
    mret (if more : bool then inl fields else inr fields)) [].
Definition parse_enum_variant : P EnumVariant :=
  start ← peek_span;
  name ← expect_identifier "variant name";
  brace ← check TLBrace;
  paren ← check TLParen;
  fields ← (if brace : bool then
              _ ← advance; fields ← separated_members (parse_field_decl "field name") consume_block_sep;
              _ ← expect TRBrace "}"; mret fields
            else if paren : bool then
              _ ← advance; fields ← parse_positional_fields; _ ← expect TRParen ")"; mret fields
            else mret []);
  discriminant ← optional TAssign parse_expr;
  end_ ← prev_span;
  mret {| ev_name := name; ev_fields := fields; ev_discriminant := discriminant; ev_span := merge_with start end_ |}.
(** Methods and variants of the body, each in source order. *)
Definition lefts {A B} (l : list (A + B)) : list A := omap (λ x, match x with inl a => Some a | _ => None end) l.
Definition rights {A B} (l : list (A + B)) : list B := omap (λ x, match x with inr b => Some b | _ => None end) l.
Definition parse_enum_decl : P Enum :=
  start ← expect TEnum "enum";
  name ← expect_identifier "enum name";
  generics ← generic_params;
  _ ← expect TLBrace "{";
  _ ← skip_newlines;
  body ← separated_members
    (f ← is_function_start;
     if f : bool then m ← parse_method; mret (inr m) else v ← parse_enum_variant; mret (inl v)) consume_block_sep;
  end_ ← expect TRBrace "}";
  mret {| en_name := name; en_generic_params := generics; en_variants := lefts body; en_methods := rights body;
          en_span := merge_with start end_ |}.
Definition parse_event_field : P EventField :=
  fs ← peek_span;
  indexed ← advance_if TIndexed;
  field_name ← expect_identifier "event field name";
  opt ← advance_if TQuestionMark;
  _ ← expect TColon ":";
  ty ← parse_type;
  mret {| ef_indexed := indexed; ef_name := field_name; ef_optional := opt; ef_ty := ty; ef_span := fs |}.
Definition parse_event_decl (annotations : list Annotation) : P Event :=
  let anonymous := existsb (λ a, bool_decide (ann_name a = text "anonymous")) annotations in
  start ← expect TEvent "event";
  name ← expect_identifier "event name";
  _ ← expect TLBrace "{";
  _ ← skip_newlines;
  body ← separated_members
    (f ← is_function_start;
     if f : bool then m ← parse_method; mret (inr m) else v ← parse_event_field; mret (inl v)) consume_block_sep;
  end_ ← expect TRBrace "}";
  mret {| evt_name := name; evt_anonymous := anonymous; evt_fields := lefts body; evt_methods := rights body;
          evt_span := merge_with start end_ |}.
Definition parse_error_decl : P ErrorDecl :=
  start ← expect TError "error";
  name ← expect_identifier "error name";
  brace ← check TLBrace;
  fields ← (if brace : bool then
              _ ← advance; fields ← separated_members (parse_field_decl "error field name") consume_block_sep;
              _ ← expect TRBrace "}"; mret fields
            else mret []);
  end_ ← prev_span;
  _ ← skip_newlines;
  mret {| err_name := name; err_fields := fields; err_span := merge_with start end_ |}.

(** ** Contract members ([contracts.rs]) *)

Definition parse_state_field : P StateField :=
  fs ← peek_span;
  pub_ ← advance_if TPub;
  name ← expect_identifier "state field name";
  _ ← expect TColon ":";
  ty ← parse_type;
  default_ ← optional TAssign parse_expr;
  mret {| sf_pub := pub_; sf_name := name; sf_ty := ty; sf_default := default_; sf_span := fs |}.
Definition parse_state_block : P StateBlock :=
  start ← expect TState "state";
  _ ← expect TLBrace "{";
  _ ← skip_newlines;
  fields ← while_push (not_at TRBrace) (f ← parse_state_field; _ ← consume_block_sep; mret (f, true));
  end_ ← expect TRBrace "}";
  mret {| sb_fields := fields; sb_span := merge_with start end_ |}.
Definition parse_immutable : P Immutable :=
  start ← expect TImmutable "immutable";
  name ← expect_identifier "immutable name";
  _ ← expect TColon ":";
  ty ← parse_type;
  end_ ← prev_span;
  _ ← skip_newlines;
  mret {| im_name := name; im_ty := ty; im_span := merge_with start end_ |}.
Definition parse_init (annotations : list Annotation) : P Function_ :=
  payable ← check TPayable;
  '(mutability, start) ← (if payable : bool then
      payable_span ← peek_span; _ ← advance; _ ← expect TInit "init"; mret (MutPayable, payable_span)
    else init_span ← expect TInit "init"; mret (MutDefault, init_span));
  params ← params_in_parens;
  body ← parse_block;
  end_ ← prev_span;
  mret {| fn_name := text "init"; fn_annotations := annotations; fn_visibility := VisPrivate; fn_mutability := mutability;
          fn_generic_params := []; fn_params := params; fn_return_type := None; fn_body := Some body;
          fn_span := merge_with start end_ |}.
(** [receive() payable? { body }] and [fallback() payable? { body }]. *)
Definition parse_entry (tok : Token) (ctx : string) : P (bool * list Stmt * Span) :=
  start ← expect tok ctx;
  _ ← expect TLParen "(";
  _ ← expect TRParen ")";
  payable ← advance_if TPayable;
  body ← parse_block;
  end_ ← prev_span;
  mret (payable, body, merge_with start end_).
Definition parse_receive : P Receive :=
  '(payable, body, span) ← parse_entry TReceive "receive"; mret {| rcv_payable := payable; rcv_body := body; rcv_span := span |}.
Definition parse_fallback : P Fallback_ :=
  '(payable, body, span) ← parse_entry TFallback "fallback"; mret {| fb_payable := payable; fb_body := body; fb_span := span |}.
Definition parse_modifier_def : P ModifierDef :=
  start ← expect TModifier "modifier";
  name ← expect_identifier "modifier name";
  params ← params_in_parens;
  body ← parse_block;
  end_ ← prev_span;
  mret {| md_name := name; md_params := params; md_body := body; md_span := merge_with start end_ |}.

Definition parse_config_entries_with (parse_config_value : P ConfigValue) : P (list ConfigEntry) :=
  while_push (not_at TRBrace)
    (span ← peek_span;
     key ← expect_identifier "config entry key";
     _ ← expect TColon ":";
     value ← parse_config_value;
     _ ← consume_block_sep;
     mret (MkConfigEntry key value span, true)).
Definition parse_config_value : P ConfigValue :=
  recur (λ parse_config_value _,
    t ← peek;
    match t with
    | TStringLiteral s => _ ← advance; mret (CvStr s)
    | TBoolLiteral b => _ ← advance; mret (CvBool b)
    | TIntLiteral n =>
        _ ← advance;
        percent ← advance_if TPercent;
        if percent : bool then mret (CvPercent n) else
        t ← peek;
        match unit_kind t with
        | Some kind => _ ← advance; mret (CvUnit n kind)
        | None => mret (CvInt n)
        end
    | TLBrace =>
        _ ← advance; _ ← skip_newlines; entries ← parse_config_entries_with (parse_config_value ());
        _ ← expect TRBrace "}"; mret (CvObject entries)
    | TIdentifier s => _ ← advance; mret (CvIdent s)
    | _ => error_expected ["config value"%string] (ExpectedConfigValue t)
    end) ().
Definition parse_config_entries : P (list ConfigEntry) := parse_config_entries_with parse_config_value.
(** The word [config] or [metadata] has been seen. *)
Definition parse_entries_block : P (list ConfigEntry * Span) :=
  start ← peek_span;
  _ ← advance;
  _ ← expect TLBrace "{";
  _ ← skip_newlines;
  entries ← parse_config_entries;
  end_ ← expect TRBrace "}";
  mret (entries, merge_with start end_).
Definition parse_config_block : P Config :=
  '(entries, span) ← parse_entries_block; mret {| cfg_entries := entries; cfg_span := span |}.
Definition parse_metadata_block : P Metadata :=
  '(entries, span) ← parse_entries_block; mret {| meta_entries := entries; meta_span := span |}.

Definition parse_contract_member : P ContractMember :=
  _ ← skip_newlines;
  annotations ← parse_annotations;
  _ ← skip_newlines;
  t ← peek;
  n ← peek_nth 1;
  if negb (bool_decide (length annotations = 0%nat)) && negb (is_annotatable_member t)
  then error (AnnotationsNotPermitted t) else
  match t with
  | TState => b ← parse_state_block; mret (CmState b)
  | TConst => c ← parse_const_decl; mret (CmConst c)
  | TImmutable => i ← parse_immutable; mret (CmImmutable i)
  | TPayable =>
      if bool_decide (n = TInit) then f ← parse_init annotations; mret (CmFunction f)
      else f ← parse_function annotations; mret (CmFunction f)
  | TInit => f ← parse_init annotations; mret (CmFunction f)
  | TFn | TPub | TView | TPure | TExternal => f ← parse_function annotations; mret (CmFunction f)
  | TReceive => r ← parse_receive; mret (CmReceive r)
  | TFallback => f ← parse_fallback; mret (CmFallback f)
  | TModifier => m ← parse_modifier_def; mret (CmModifier m)
  | TStruct => s ← parse_struct_decl; mret (CmStruct s)
  | TEnum => e ← parse_enum_decl; mret (CmEnum e)
  | TEvent => e ← parse_event_decl annotations; mret (CmEvent e)
  | TError => e ← parse_error_decl; mret (CmErrorDecl e)
  | TIdentifier s =>
      if bool_decide (s = text "config") then c ← parse_config_block; mret (CmConfig c)
      else if bool_decide (s = text "metadata") then m ← parse_metadata_block; mret (CmMetadata m)
      else error_expected ["contract member"%string] (UnexpectedMember t)
  | _ => error_expected ["contract member"%string] (UnexpectedMember t)
  end.

(** ** Contracts and tokens *)

Definition parse_identifier_list : P (list (list N)) :=
  first ← expect_identifier "identifier";
  loop (λ ids,
    c ← advance_if TComma;
    if negb c then mret (inr ids) else
    t ← peek;
    match t with TLBrace => mret (inr ids) | _ => id ← expect_identifier "identifier"; mret (inl (ids ++ [id])) end) [first].
Definition identifiers_after (tok : Token) : P (list (list N)) :=
  b ← check tok; if b : bool then _ ← advance; parse_identifier_list else mret [].
Definition contract_body : P (list ContractMember * Span) :=
  _ ← expect TLBrace "{";
  _ ← skip_newlines;
  members ← members_until_brace parse_contract_member;
  end_ ← expect TRBrace "}";
  mret (members, end_).
Definition parse_contract_item : P Item :=
  start ← expect TContract "contract";
  name ← expect_identifier "contract name";
  implements ← identifiers_after TImplements;
  uses ← identifiers_after TUses;
  '(members, end_) ← contract_body;
  mret (ItContract {| ct_name := name; ct_implements := implements; ct_uses := uses; ct_members := members;
                      ct_span := merge_with start end_ |}).
Definition parse_token_item : P Item :=
  start ← expect TToken_ "token";
  name ← expect_identifier "token name";
  _ ← expect TExtends "extends";
  extends ← expect_identifier "base token name";
  '(members, end_) ← contract_body;
  mret (ItToken_ {| td_name := name; td_extends := extends; td_members := members; td_span := merge_with start end_ |}).

(** ** Interfaces, traits, libraries ([advanced.rs]) *)

Definition parse_interface_member : P InterfaceMember :=
  annotations ← parse_annotations;
  _ ← skip_newlines;
  t ← peek;
  match t with
  | TEvent => e ← parse_event_decl annotations; mret (ImEvent e)
  | _ =>
      if is_fn_token t then f ← parse_function annotations; mret (ImFunction f)
      else error_expected ["function signature"%string; "event"%string] (ExpectedInterfaceMember t)
  end.
Definition parse_interface : P Interface :=
  start ← expect TInterface "interface";
  name ← expect_identifier "interface name";
  _ ← expect TLBrace "{";
  _ ← skip_newlines;
  members ← separated_members parse_interface_member skip_newlines;
  end_ ← expect TRBrace "}";
  mret {| if_name := name; if_members := members; if_span := merge_with start end_ |}.
Definition parse_trait_member : P TraitMember :=
  t ← peek;
  match t with
  | TState => b ← parse_state_block; mret (TmState b)
  | _ => annotations ← parse_annotations; _ ← skip_newlines; f ← parse_function annotations; mret (TmFunction f)
  end.
Definition parse_trait : P Trait :=
  start ← expect TTrait "trait";
  name ← expect_identifier "trait name";
  _ ← expect TLBrace "{";
  _ ← skip_newlines;
  members ← separated_members parse_trait_member skip_newlines;
  end_ ← expect TRBrace "}";
  mret {| tr_name := name; tr_members := members; tr_span := merge_with start end_ |}.
Definition parse_library_function : P Function_ :=
  annotations ← parse_annotations;
  _ ← skip_newlines;
  t ← peek;
  if is_fn_token t then parse_function annotations
  else error_expected ["function"%string] (OnlyFunctionsInLibrary t).
Definition parse_library : P Library_ :=
  start ← expect TLibrary "library";
  name ← expect_identifier "library name";
  _ ← expect TLBrace "{";
  _ ← skip_newlines;
  functions ← separated_members parse_library_function skip_newlines;
  end_ ← expect TRBrace "}";
  mret {| lib_name := name; lib_functions := functions; lib_span := merge_with start end_ |}.

(** ** Programs ([decl.rs]) *)

Definition parse_top_level_item : P Item :=
  _ ← skip_newlines;
  annotations ← parse_annotations;
  _ ← skip_newlines;
  t ← peek;
  if negb (bool_decide (length annotations = 0%nat)) && negb (is_fn_token t) then error (AnnotationsNotPermitted t) else
  match t with
  | TImport => parse_import_item
  | TUsing => parse_using_item
  | TConst => c ← parse_const_decl; mret (ItConst c)
  | TType => parse_type_alias_item
  | TContract => parse_contract_item
  | TToken_ => parse_token_item
  | TFn | TPub | TView | TPure | TExternal | TPayable => f ← parse_function annotations; mret (ItFunction f)
  | TStruct => s ← parse_struct_decl; mret (ItStruct s)
  | TEnum => e ← parse_enum_decl; mret (ItEnum e)
  | TError => e ← parse_error_decl; mret (ItErrorDecl e)
  | TInterface => i ← parse_interface; mret (ItInterface i)
  | TTrait => t ← parse_trait; mret (ItTrait t)
  | TLibrary => l ← parse_library; mret (ItLibrary l)
  | _ => error_expected ["declaration"%string] (ExpectedDeclaration t)
  end.
Definition parse_program : P Ast :=
  start ← peek_span;
  _ ← skip_newlines;
  items ← while_push (e ← at_end; mret (negb e)) (i ← parse_top_level_item; _ ← skip_newlines; mret (i, true));
  end_ ← prev_span;
  mret {| items := items; ast_span := merge_with start end_ |}.
End decl.

(** ** The entry point

    Templates are nested at most as deeply as the text of an interpolation is long. *)
Definition template_depth (tokens : list (Token * Span)) : nat := list_max (template_size ∘ fst <$> tokens).

Section parse.
Context {U : Unicode} (bech32m_hrp : list N → result string (list N)).
Definition parse (tokens : list (Token * Span)) : option (result LangError Ast) :=
  snd <$> parse_program (parse_interpolation bech32m_hrp (template_depth tokens)) (Parser_new tokens).
End parse.
