(* ===== verification/ParserTotal.v ===== *)
(** * The parser answers, and never passes a comment

    Every parser returns on every token stream of the lexer: the fuel of loops and
    recursion is enough because each turn consumes a token.  The same pass over the
    parsers shows that a successful one has consumed no comment token. *)
From stdpp Require Import strings.
From S2P Require Import Prelude LexToken Lexer LexerSpec LangAst Parser ParserExpr ParserDecl.

(** ** Runs *)

Definition is_comment (t : Token) : bool :=
  match t with TLineComment _ | TBlockComment _ | TDocComment _ => true | _ => false end.
Definition comments (p : Parser) : nat := length (filter (λ t : Token * Span, is_comment t.1 = true) (rest p)).

(** A cursor on a stream of the lexer: one end marker, at the end; templates no
    larger than [d]. *)
Definition good (d : nat) (p : Parser) : Prop :=
  ∃ body s, rest p = body ++ [(TEof, s)] ∧ Forall (λ t, token_fits d t.1) body.

Definition within (W : nat) (ate : bool) (p : Parser) : Prop := if ate then (weight p < W)%nat else (weight p <= W)%nat.
Definition at_token (C : Token → Prop) (p : Parser) : Prop := ∃ t, fst <$> current p = Some t ∧ C t.
Definition any (t : Token) : Prop := True.

(** From a good cursor on a token in [C], of weight at most [W] (below [W] when
    [ate]), the parser answers, stays good and does not move back; a successful
    answer [x] has consumed something when [k x], and no comment. *)
Definition answered {A} (d : nat) (k : A → bool) (p : Parser) (o : option (Parser * result LangError A)) : Prop :=
  ∃ p' r, o = Some (p', r) ∧ good d p' ∧ (weight p' <= weight p)%nat ∧
    match r with Ok x => (k x = true → weight p' < weight p)%nat ∧ comments p' = comments p | Err _ => True end.
Definition runs {A} (d W : nat) (ate : bool) (C : Token → Prop) (k : A → bool) (m : P A) : Prop :=
  ∀ p, good d p → within W ate p → at_token C p → answered d k p (m p).
Definition never {A} (_ : A) : bool := false.
Definition always {A} (_ : A) : bool := true.
Definition is_inl {A B} (x : A + B) : bool := match x with inl _ => true | inr _ => false end.

(** A parser that only looks. *)
Definition looks {A} (m : P A) : Prop := ∀ d p, good d p → ∃ x, m p = Some (p, Ok x).

Lemma good_current d p : good d p → ∃ t s ts, rest p = (t, s) :: ts ∧ current p = Some (t, s) ∧ (t = TEof → ts = []).
Proof.
  intros (body & s & Hr & Hb). unfold current. destruct body as [|[t s'] body]; cbn in Hr; rewrite Hr; [by exists TEof, s, []|].
  exists t, s', (body ++ [(TEof, s)]). split_and!; [done..|]. inversion Hb; subst. intros ->. done.
Qed.
Lemma good_at d p : good d p → at_token any p.
Proof. intros (t & s & ts & _ & Hc & _)%good_current. exists t. by rewrite Hc. Qed.
Lemma within_le W a p p' : (weight p' <= weight p)%nat → within W a p → within W a p'.
Proof. unfold within. destruct a; lia. Qed.
Lemma within_lt W a p p' : (weight p' < weight p)%nat → within W a p → within W true p'.
Proof. unfold within. destruct a; lia. Qed.

Section runs.
Context (d W : nat).

Lemma runs_mono {A} a (C : Token → Prop) (k k' : A → bool) m :
  runs d W false any k m → (∀ x, k' x = true → k x = true) → runs d W a C k' m.
Proof.
  intros H Hk p Hg Hw _. destruct (H p Hg) as (p' & r & E & Hg' & Hle & Hr); [unfold within in *; destruct a; lia|by eapply good_at|].
  exists p', r. split_and!; [done..|]. destruct r as [x|]; [|done]. destruct Hr. split; [auto|done].
Qed.
Lemma runs_ate {A} (C : Token → Prop) (k k' : A → bool) m :
  runs d W true any k m → (∀ x, k' x = true → k x = true) → runs d W true C k' m.
Proof.
  intros H Hk p Hg Hw _. destruct (H p Hg) as (p' & r & E & Hg' & Hle & Hr); [done|by eapply good_at|].
  exists p', r. split_and!; [done..|]. destruct r as [x|]; [|done]. destruct Hr. split; [auto|done].
Qed.

Lemma runs_ret {A} a C (k : A → bool) x : k x = false → runs d W a C k (mret x).
Proof. intros Hk p Hg _ _. exists p, (Ok x). split_and!; [done|done|lia|by rewrite Hk|done]. Qed.
Lemma runs_fail {A} a C (k : A → bool) e : runs d W a C k (pfail e).
Proof. intros p Hg _ _. exists p, (Err e). split_and!; [done|done|lia|done]. Qed.

Lemma runs_bind {A B} a C (k1 : A → bool) (k2 : B → bool) m f :
  runs d W a C k1 m →
  (∀ x, runs d W (a || k1 x) any (λ y, negb (k1 x) && k2 y) (f x)) →
  runs d W a C k2 (m ≫= f).
Proof.
  intros Hm Hf p Hg Hw Hc. destruct (Hm p Hg Hw Hc) as (p1 & r1 & E & Hg1 & Hle & Hr).
  unfold mbind, P_bind, pbind. rewrite E. destruct r1 as [x|e]; [|exists p1, (Err e); done].
  destruct Hr as [Hk Hcm]. destruct (Hf x p1 Hg1) as (p2 & r2 & E2 & Hg2 & Hle2 & Hr2).
  - destruct (k1 x) eqn:Hkx; rewrite ?orb_true_r, ?orb_false_r; [by eapply within_lt, Hw; auto|by eapply within_le].
  - by eapply good_at.
  - exists p2, r2. split_and!; [done|done|lia|]. destruct r2 as [y|]; [|done]. destruct Hr2 as [Hk2 Hcm2]. split; [|congruence].
    intros Hy. destruct (k1 x); [specialize (Hk eq_refl); lia|]. cbn in Hk2. specialize (Hk2 Hy). lia.
Qed.

Lemma runs_looks {A B} a C (k : B → bool) (m : P A) f : looks m → (∀ x, runs d W a C k (f x)) → runs d W a C k (m ≫= f).
Proof.
  intros Hm Hf p Hg Hw Hc. unfold mbind, P_bind, pbind. destruct (Hm d p Hg) as (x & ->). by apply Hf.
Qed.
Lemma runs_peek {B} a C (k : B → bool) (f : Token → P B) :
  (∀ t, C t → (template_size t <= d)%nat → runs d W a (eq t) k (f t)) → runs d W a C k (peek ≫= f).
Proof.
  intros Hf p Hg Hw (t & Ht & HC). unfold mbind, P_bind, pbind, peek, read.
  destruct (current p) as [[t' s]|] eqn:Hc; [|done]. cbn in *. injection Ht as ->.
  apply Hf; [done| |done|done|exists t; by rewrite Hc].
  destruct Hg as (body & s' & Hr & Hb). unfold current in Hc. rewrite Hr in Hc. destruct body as [|u body]; cbn in Hc; [injection Hc as <- <-; cbn; lia|].
  injection Hc as ->. inversion Hb; subst. by apply token_fits_size.
Qed.
Lemma runs_check {B} a C (k : B → bool) tok (f : bool → P B) :
  runs d W a (eq tok) k (f true) → runs d W a C k (f false) → runs d W a C k (check tok ≫= f).
Proof.
  intros Ht Hf p Hg Hw (t & Htk & HC). unfold mbind, P_bind, pbind, check, mbind, P_bind, pbind, peek, read.
  destruct (current p) as [[t' s]|] eqn:Hc; [|done]. cbn in *. injection Htk as ->.
  case_bool_decide as E; [subst; apply Ht|apply Hf]; try done; eexists; by rewrite Hc.
Qed.

(** Past a token that is not a comment and not the end. *)
Definition passable (t : Token) : bool := negb (is_comment t) && negb (bool_decide (t = TEof)).
Lemma token_weight_pos t : (1 <= token_weight t)%nat.
Proof. unfold token_weight. destruct t as [[] ?]; cbn; lia. Qed.
Lemma step_moves p t : good d p → at_token (eq t) p → passable t = true →
  good d (step p) ∧ (weight (step p) < weight p)%nat ∧ comments (step p) = comments p.
Proof.
  intros Hg (t' & Ht & <-) [Hnc%negb_true_iff He%negb_true_iff%bool_decide_eq_false]%andb_true_iff.
  destruct (good_current d p Hg) as (t1 & s1 & ts & Hr & Hc & _). rewrite Hc in Ht. injection Ht as ->.
  unfold step, weight, comments. rewrite Hr. cbn [rest]. rewrite fmap_cons, filter_cons. cbn [sum_list foldr fst].
  rewrite decide_False by (by rewrite Hnc). pose proof (token_weight_pos (t, s1)). split_and!; [|cbn; lia|done].
  destruct Hg as (body & s & Hr2 & Hb). rewrite Hr in Hr2. destruct body as [|u body]; [by injection Hr2 as -> _|].
  injection Hr2 as -> ->. inversion Hb; subst. by exists body, s.
Qed.
Lemma runs_advance {B} a t (k : B → bool) (f : Token * Span → P B) :
  passable t = true → (∀ x, runs d W true any never (f x)) → runs d W a (eq t) k (advance ≫= f).
Proof.
  intros Hp Hf p Hg Hw Hc. destruct (step_moves p t Hg Hc Hp) as (Hg1 & Hlt & Hcm).
  unfold mbind, P_bind, pbind, advance. destruct (good_current d p Hg) as (t1 & s1 & ts & _ & -> & _).
  destruct (Hf (t1, s1) (step p) Hg1 (within_lt _ _ _ _ Hlt Hw)) as (p2 & r2 & E2 & Hg2 & Hle2 & Hr2); [by eapply good_at|].
  exists p2, r2. split_and!; [done|done|lia|]. destruct r2 as [y|]; [|done]. split; [lia|]. destruct Hr2. congruence.
Qed.
Lemma runs_advance_if {B} a C (k : B → bool) tok (f : bool → P B) :
  passable tok = true → runs d W true any never (f true) → runs d W a C k (f false) → runs d W a C k (advance_if tok ≫= f).
Proof.
  intros Hp Ht Hf p Hg Hw Hc. specialize (runs_check a C k tok
    (λ b, if b : bool then advance ≫= (λ _, f true) else f false) (runs_advance a tok k (λ _, f true) Hp (λ _, Ht)) Hf p Hg Hw Hc).
  unfold mbind, P_bind, pbind, advance_if, check, mbind, P_bind, pbind, peek, read, mret, P_ret, pret.
  destruct (current p) as [[t' s]|]; cbn; [|done]. case_bool_decide; cbn; [|done]. by destruct (advance p) as [[? []]|].
Qed.
End runs.

(** ** Lookers *)

Lemma looks_current {A} (f : Token * Span → A) : looks (λ p, read f (current p) p).
Proof. intros d p Hg. destruct (good_current d p Hg) as (t & s & ts & _ & -> & _). by eexists. Qed.
Lemma looks_peek : looks peek.
Proof. apply looks_current. Qed.
Lemma looks_peek_span : looks peek_span.
Proof. apply looks_current. Qed.
Lemma looks_or_last {A} (f : Token * Span → A) g : looks (λ p, read f (or_last (g p) p) p).
Proof.
  intros d p (body & s & Hr & _). unfold or_last, last_token. destruct (g p); [by eexists|]. rewrite Hr, last_snoc. by eexists.
Qed.
Lemma looks_peek_nth n : looks (peek_nth n).
Proof. apply looks_or_last. Qed.
Lemma looks_peek_nth_non_newline n : looks (peek_nth_non_newline n).
Proof. apply looks_or_last. Qed.
Lemma looks_prev_span : looks prev_span.
Proof.
  intros d p Hg. unfold prev_span. destruct (good_current d p Hg) as (t & s & ts & -> & _). destruct (before p); by eexists.
Qed.
Lemma looks_ret {A} (x : A) : looks (mret x).
Proof. intros d p _. by eexists. Qed.
Lemma looks_bind {A B} (m : P A) (f : A → P B) : looks m → (∀ x, looks (f x)) → looks (m ≫= f).
Proof. intros Hm Hf d p Hg. unfold mbind, P_bind, pbind. destruct (Hm d p Hg) as (x & ->). by apply (Hf x d). Qed.
Lemma looks_get_depth : looks get_depth.
Proof. intros d p _. by eexists. Qed.
Lemma looks_check_else : looks check_else.
Proof. intros d p _. by eexists. Qed.

Create HintDb look_db.
#[export] Hint Resolve looks_peek looks_peek_span looks_peek_nth looks_peek_nth_non_newline looks_prev_span looks_ret
  looks_get_depth looks_check_else : look_db.
Ltac look :=
  repeat lazymatch goal with
  | |- looks (_ ≫= _) => apply looks_bind; [|intros ?]
  | |- looks (if ?b then _ else _) => destruct b
  | |- looks _ => solve [eauto 2 with look_db]
  end.
Lemma looks_check t : looks (check t).
Proof. unfold check. look. Qed.
#[export] Hint Resolve looks_check : look_db.
Lemma looks_at_end : looks at_end.
Proof. unfold at_end. look. Qed.
#[export] Hint Resolve looks_at_end : look_db.
Lemma looks_not_at t : looks (not_at t).
Proof. unfold not_at. look. Qed.
Lemma looks_check_gt : looks check_gt.
Proof. unfold check_gt. look. Qed.
#[export] Hint Resolve looks_not_at looks_check_gt : look_db.
Lemma looks_is_call_opts_block : looks is_call_opts_block.
Proof. unfold is_call_opts_block. look. Qed.
Lemma looks_is_expr_start_at n : looks (is_expr_start_at n).
Proof. unfold is_expr_start_at. look. Qed.
Lemma looks_is_named_arg : looks is_named_arg.
Proof. unfold is_named_arg. look. Qed.
Lemma looks_is_function_start : looks is_function_start.
Proof. unfold is_function_start. look. Qed.
#[export] Hint Resolve looks_is_call_opts_block looks_is_expr_start_at looks_is_named_arg looks_is_function_start : look_db.

Lemma runs_of_looks {A} d W a C (m : P A) : looks m → runs d W a C never m.
Proof. intros Hm p Hg _ _. destruct (Hm d p Hg) as (x & E). exists p, (Ok x). split_and!; [done|done|lia|done|done]. Qed.

(** ** Composition *)

Section compose.
Context (d W : nat).

Lemma runs_weak {A} a C (k k' : A → bool) m :
  runs d W a C k m → (∀ x, k' x = true → k x = true) → runs d W a C k' m.
Proof.
  intros H Hk p Hg Hw Hc. destruct (H p Hg Hw Hc) as (p' & r & E & Hg' & Hle & Hr).
  exists p', r. split_and!; [done..|]. destruct r; [|done]. destruct Hr. split; [auto|done].
Qed.
Lemma runs_any {A} a C (k : A → bool) m : runs d W a any k m → runs d W a C k m.
Proof. intros H p Hg Hw _. apply H; [done..|by eapply good_at]. Qed.
Lemma runs_eats {A B} a C (k : B → bool) (m : P A) f :
  runs d W a C always m → (∀ x, runs d W true any never (f x)) → runs d W a C k (m ≫= f).
Proof. intros Hm Hf. eapply runs_bind; [done|]. intros x. cbn. rewrite orb_true_r. apply Hf. Qed.
Lemma runs_then {A B} a C (k : B → bool) (m : P A) f :
  runs d W a C never m → (∀ x, runs d W a any k (f x)) → runs d W a C k (m ≫= f).
Proof. intros Hm Hf. eapply runs_bind; [done|]. intros x. cbn. rewrite orb_false_r. apply Hf. Qed.

Lemma runs_error_expected {A} a C (k : A → bool) l msg : runs d W a C k (error_expected l msg).
Proof. apply runs_looks; [apply looks_peek_span|]. intros. apply runs_fail. Qed.

Lemma runs_loop {A B} a C (body : A → P (A + B)) acc :
  (∀ acc, runs d W a any is_inl (body acc)) → runs d W a C never (loop body acc).
Proof.
  intros Hb p Hg Hw _. unfold loop.
  assert (∀ n acc p, (weight p < n)%nat → good d p → within W a p → answered d never p (loop_fuel n body acc p)) as Hl; [|apply Hl; [lia|done..]].
  clear p Hg Hw acc. induction n as [|n IH]; intros acc p Hn Hg Hw; [lia|]. cbn [loop_fuel].
  destruct (Hb acc p Hg Hw) as (p1 & r1 & -> & Hg1 & Hle & Hr); [by eapply good_at|].
  destruct r1 as [[acc'|b]|e]; [|by exists p1, (Ok b); split_and!; [..|apply Hr]|by exists p1, (Err e)].
  destruct Hr as [Hlt Hcm]. specialize (Hlt eq_refl).
  destruct (IH acc' p1) as (p2 & r2 & -> & Hg2 & Hle2 & Hr2); [lia|done|by eapply within_le|].
  exists p2, r2. split_and!; [done|done|lia|]. destruct r2; [|done]. destruct Hr2. split; [done|congruence].
Qed.

Lemma runs_while_push {A} a C (cond : P bool) (item : P (A * bool)) :
  looks cond → runs d W a any always item → runs d W a C never (while_push cond item).
Proof.
  intros Hc Hi. apply runs_loop. intros acc. apply runs_looks; [done|]. intros []; [|by apply runs_ret].
  eapply runs_eats; [done|]. intros [x more]. apply runs_ret. done.
Qed.

Lemma runs_recur {A B} (F : (A → P B) → A → P B) :
  (∀ V rec, (V <= W)%nat → (∀ x, runs d V true any always (rec x)) → ∀ x, runs d V false any always (F rec x)) →
  ∀ a C x, runs d W a C always (recur F x).
Proof.
  intros HF a C x p Hg Hw _. unfold recur.
  assert (∀ n x p, (weight p < n)%nat → (weight p <= W)%nat → good d p → answered d always p (recur_fuel n F x p)) as Hl.
  2: { apply Hl; [lia|unfold within in Hw; destruct a; lia|done]. }
  clear p Hg Hw x. induction n as [|n IH]; intros x p Hn Hw Hg; [lia|]. cbn [recur_fuel].
  apply (HF (weight p)); [done| |done|cbn; lia|by eapply good_at].
  intros y p1 Hg1 Hw1 _. cbn in Hw1. apply IH; [lia|lia|done].
Qed.
End compose.

(** ** The tactic: one rule per form of parser *)

Create HintDb run_db.
#[export] Hint Extern 1 (runs _ _ true _ _ _) =>
  eapply runs_ate; [match goal with H : _ |- _ => apply H end|done] : run_db.

Ltac passes := solve [reflexivity | match goal with |- passable ?t = true => destruct t; done end | eauto].
Ltac run_leaf :=
  first [ apply runs_error_expected
        | solve [ eapply runs_weak with (k := always); [solve [eauto with run_db]|done] ]
        | solve [ eapply runs_weak with (k := never); [solve [eauto with run_db]|done] ]
        | apply runs_of_looks; solve [look] ].
Ltac run_step :=
  lazymatch goal with
  | |- runs _ _ _ _ _ (mret _) => apply runs_ret; repeat case_match; done
  | |- runs _ _ _ _ _ (pfail _) => apply runs_fail
  | |- runs _ _ _ _ _ (error _) => apply runs_error_expected
  | |- runs _ _ _ _ _ (error_expected _ _) => apply runs_error_expected
  | |- runs _ _ _ _ _ (peek ≫= _) => apply runs_peek; intros ? _ ?
  | |- runs _ _ _ _ _ (check _ ≫= _) => apply runs_check; cbn [negb andb orb]
  | |- runs _ _ _ _ _ (advance ≫= _) => apply runs_advance; [passes|intros ?]
  | |- runs _ _ _ _ _ (advance_if _ ≫= _) => apply runs_advance_if; [passes| |]; cbn [negb andb orb]
  | |- runs _ _ _ _ _ ((if ?b then _ else _) ≫= _) => destruct b eqn:?; cbn [negb andb orb]
  | |- runs _ _ _ _ _ ((match ?x with _ => _ end) ≫= _) => destruct x eqn:?; cbn [negb andb orb]
  | |- runs _ _ _ _ _ (?m ≫= _) =>
      first [ apply runs_looks; [solve [look]|intros ?]
            | eapply runs_eats; [solve [eauto with run_db]|intros ?]
            | eapply runs_then; [solve [eauto with run_db]|intros ?]
            | eapply runs_eats; [solve [run]|intros ?]
            | eapply runs_then; [solve [run]|intros ?] ]
  | |- runs _ _ _ _ _ (if ?b then _ else _) => destruct b eqn:?; cbn [negb andb orb]
  | |- runs _ _ _ _ _ (match ?x with _ => _ end) => destruct x eqn:?; cbn [negb andb orb]
  | |- runs _ _ _ _ _ (let _ := _ in _) => cbv zeta
  | |- runs _ _ _ _ _ (loop _ _) => eapply runs_weak; [apply runs_loop; intros ?|done]
  | |- runs _ _ _ _ never (while_push _ _) => apply runs_while_push; [solve [look]|]
  | |- runs _ _ _ _ _ _ => run_leaf
  end
with run := repeat run_step.

Lemma runs_expect d W a C tok ctx : passable tok = true → runs d W a C always (expect tok ctx).
Proof. intros Hp. unfold expect. run. Qed.
#[export] Hint Extern 0 (runs _ _ _ _ always (expect _ _)) => apply runs_expect; passes : run_db.

Lemma runs_skip_newlines d W a C : runs d W a C never skip_newlines.
Proof. apply runs_loop. intros _. run. Qed.
#[export] Hint Resolve runs_skip_newlines : run_db.
Lemma runs_consume_block_sep d W a C : runs d W a C never consume_block_sep.
Proof. unfold consume_block_sep. run. Qed.
Lemma runs_comma_list {A} d W a C close (item : P A) :
  runs d W a any always item → runs d W a C never (comma_list close item).
Proof. intros Hi. apply runs_while_push; [look|]. eapply runs_eats; [done|]. intros x. run. Qed.
Lemma runs_optional {A} d W a C tok (m : P A) :
  passable tok = true → runs d W true any never m → runs d W a C never (optional tok m).
Proof. intros Hp Hm. unfold optional. run_step; [eapply runs_then; [done|]; intros x|]; run. Qed.
#[export] Hint Resolve runs_consume_block_sep runs_comma_list runs_while_push : run_db.
Lemma runs_expect_identifier d W a C ctx : runs d W a C always (expect_identifier ctx).
Proof. unfold expect_identifier. run. Qed.
Lemma runs_expect_int_literal d W a C ctx : runs d W a C always (expect_int_literal ctx).
Proof. unfold expect_int_literal. run. Qed.
#[export] Hint Resolve runs_expect_identifier runs_expect_int_literal : run_db.
#[export] Hint Extern 0 (runs _ _ _ _ never (optional _ _)) => apply runs_optional; [passes|] : run_db.
#[export] Hint Extern 2 (runs _ _ _ _ never ?m) => eapply runs_weak with (k := always); [solve [eauto 3 with run_db]|done] : run_db.
#[export] Hint Extern 1 (runs _ _ _ _ never (while_push _ _)) => apply runs_while_push; [solve [look]|] : run_db.

(** ** Types *)

Lemma runs_expect_gt d W a C ctx : runs d W a C always (expect_gt ctx).
Proof.
  unfold expect_gt. run. intros p Hg Hw (u0 & Ht & <-). destruct (good_current d p Hg) as (t1 & s1 & ts & Hr & Hc & _).
  rewrite Hc in Ht. injection Ht as ->. unfold split_shr. rewrite Hr. eexists _, _. split; [done|].
  destruct Hg as (body & s & Hr2 & Hb). rewrite Hr in Hr2. destruct body as [|u body]; [done|]. injection Hr2 as <- ->.
  unfold weight, comments. rewrite Hr. cbn. inversion Hb; subst. split_and!; [|lia|lia|done].
  eexists (_ :: body), s. split; [done|]. by constructor.
Qed.
#[export] Hint Resolve runs_expect_gt : run_db.

Section types.
Context (d W : nat) (rec : P LType) (Hrec : ∀ C, runs d W true C always rec).


Lemma runs_generic_wrapper_1 a : runs d W a (eq TArrayTy) always (parse_generic_wrapper_1 rec).
Proof. unfold parse_generic_wrapper_1. run. Qed.
Lemma runs_map_type a (fast : bool) : runs d W a (eq (if fast then TFastMapTy else TMapTy)) always (parse_map_type rec fast).
Proof. unfold parse_map_type. destruct fast; run. Qed.
Lemma runs_set_type a : runs d W a (eq TSetTy) always (parse_set_type rec).
Proof. unfold parse_set_type. run. Qed.
Lemma runs_option_type a : runs d W a (eq TOptionTy) always (parse_option_type rec).
Proof. unfold parse_option_type. run. Qed.
Lemma runs_result_type a : runs d W a (eq TResultTy) always (parse_result_type rec).
Proof. unfold parse_result_type. run. Qed.
Lemma runs_decimal_type a : runs d W a (eq TDecimal) always parse_decimal_type.
Proof. unfold parse_decimal_type. run. Qed.
Lemma runs_tuple_type a : runs d W a (eq TLParen) always (parse_tuple_or_fn_type rec).
Proof.
  unfold parse_tuple_or_fn_type. run.
Qed.
Lemma runs_fixed_array_type a : runs d W a (eq TLBracket) always (parse_fixed_array_type rec).
Proof. unfold parse_fixed_array_type. run. Qed.
Lemma runs_type_list C stop : runs d W true C never (parse_type_list rec stop).
Proof. unfold parse_type_list. apply runs_while_push; [look|]. run. Qed.
Lemma runs_type_list_until_gt C : runs d W true C never (parse_type_list_until_gt rec).
Proof. unfold parse_type_list_until_gt. apply runs_while_push; [look|]. run. Qed.
#[local] Hint Resolve runs_type_list runs_type_list_until_gt : run_db.
Lemma runs_generic_type_args C : runs d W true C always (parse_generic_type_args rec).
Proof. unfold parse_generic_type_args. run. Qed.
#[local] Hint Resolve runs_generic_type_args : run_db.
Lemma runs_fn_type a : runs d W a (eq TFn) always (parse_fn_type rec).
Proof. unfold parse_fn_type. run. Qed.
Lemma runs_named_type a name : runs d W a (eq (TIdentifier name)) always (parse_named_type rec name).
Proof. unfold parse_named_type. run. Qed.
#[local] Hint Resolve runs_generic_wrapper_1 runs_set_type runs_option_type runs_result_type runs_decimal_type
  runs_tuple_type runs_fixed_array_type runs_fn_type runs_named_type : run_db.
Lemma runs_type_body a : runs d W a any always (parse_type_body rec).
Proof.
  unfold parse_type_body. run_step. run_step.
  destruct t; cbn [primitive_type]; solve [apply (runs_map_type a false)|apply (runs_map_type a true)|run].
Qed.
End types.
Lemma runs_parse_type d W a C : runs d W a C always parse_type.
Proof. apply runs_recur. intros V rec _ Hrec []. apply runs_type_body. intros C'. apply runs_any, Hrec. Qed.
#[export] Hint Resolve runs_parse_type : run_db.

(** ** Patterns *)

Section patterns.
Context (d W : nat) (rec : P Pattern) (Hrec : ∀ C, runs d W true C always rec).

Lemma runs_tuple_pattern a start : runs d W a (eq TLParen) always (parse_tuple_pattern rec start).
Proof. unfold parse_tuple_pattern. run. Qed.
Lemma runs_struct_pattern a C name start : runs d W a C always (parse_struct_pattern rec name start).
Proof. unfold parse_struct_pattern. run. Qed.
Lemma runs_enum_variant_pattern a C name start : runs d W a C always (parse_enum_variant_pattern rec name start).
Proof. unfold parse_enum_variant_pattern. run. Qed.
#[local] Hint Resolve runs_tuple_pattern runs_struct_pattern runs_enum_variant_pattern : run_db.
Lemma runs_pattern_body a : runs d W a any always (parse_pattern_body rec).
Proof. unfold parse_pattern_body. run. Qed.
End patterns.
Lemma runs_parse_pattern d W a C : runs d W a C always parse_pattern.
Proof. apply runs_recur. intros V rec _ Hrec []. apply runs_pattern_body. intros C'. apply runs_any, Hrec. Qed.
#[export] Hint Resolve runs_parse_pattern : run_db.

(** ** Expressions *)

Lemma runs_set_depth d W a C n : runs d W a C never (set_depth n).
Proof. intros p Hg _ _. eexists _, (Ok ()). split_and!; [done|exact Hg|done|done|done]. Qed.
#[export] Hint Resolve runs_set_depth : run_db.
Lemma runs_enter_expr d W a C : runs d W a C never enter_expr.
Proof. unfold enter_expr. run. Qed.
Lemma runs_leave_expr d W a C : runs d W a C never leave_expr.
Proof. unfold leave_expr. run. Qed.
#[export] Hint Resolve runs_enter_expr : run_db.

(** Whatever the outcome, the second parser runs after the first. *)
Lemma runs_leaving d W a C (m : P Expr) : runs d W a C always m → runs d W a C always (leaving m).
Proof.
  intros Hm p Hg Hw Hc. destruct (Hm p Hg Hw Hc) as (p1 & r & E & Hg1 & Hle & Hr). unfold leaving. rewrite E.
  exists {| before := before p1; rest := rest p1; gt_split_positions := gt_split_positions p1; expr_depth := expr_depth p1 - 1 |}, r.
  split_and!; [done|exact Hg1|exact Hle|exact Hr].
Qed.
Lemma runs_synchronize d p : good d p → ∃ p' r, synchronize p = Some (p', r) ∧ good d p' ∧ (weight p' <= weight p)%nat.
Proof.
  intros Hg. unfold synchronize, loop.
  assert (∀ n p, (weight p < n)%nat → good d p → ∃ p' r, loop_fuel n (λ _ : (), e ← at_end; if e : bool then mret (inr ()) else
    t ← Parser.peek; if is_boundary t then mret (inr ()) else _ ← Parser.advance; mret (inl ())) () p = Some (p', r) ∧
    good d p' ∧ (weight p' <= weight p)%nat) as Hl; [|destruct (Hl (S (weight p)) p) as (p' & r & ?); [lia|done|by exists p', r]].
  clear p Hg. induction n as [|n IH]; intros p Hn Hg; [lia|]. cbn [loop_fuel].
  destruct (good_current d p Hg) as (t & s & ts & Hr & Hc & _).
  unfold mbind, P_bind, pbind, at_end, Parser.check, Parser.peek, mbind, P_bind, pbind, read, mret, P_ret, pret. rewrite Hc. cbn.
  case_bool_decide as He; [by eexists _, _|]. cbn in He. rewrite Hc. cbn. destruct (is_boundary t); [eexists _, _; split_and!; [done|done|lia]|].
  unfold Parser.advance. rewrite Hc. cbn.
  assert (good d (step p) ∧ (weight (step p) < weight p)%nat) as [Hg1 Hlt].
  { unfold step, weight. rewrite Hr. cbn [rest]. rewrite fmap_cons. cbn [sum_list foldr]. pose proof (token_weight_pos (t, s)).
    split; [|cbn; lia]. destruct Hg as (body & s' & Hr2 & Hb). rewrite Hr in Hr2. destruct body as [|u body]; [by injection Hr2 as -> _|].
    injection Hr2 as -> ->. inversion Hb; subst. by exists body, s'. }
  destruct (IH (step p)) as (p' & r & E & Hg' & Hle); [lia|done|]. exists p', r. split_and!; [exact E|done|lia].
Qed.
Lemma runs_recovering {A} d W a C (m : P A) : runs d W a C always m → runs d W a C always (recovering m).
Proof.
  intros Hm p Hg Hw Hc. destruct (Hm p Hg Hw Hc) as (p1 & r & E & Hg1 & Hle & Hr). unfold recovering. rewrite E.
  destruct r as [x|e]; [by exists p1, (Ok x)|]. destruct (runs_synchronize d p1 Hg1) as (p2 & r2 & E2 & Hg2 & Hle2). rewrite E2.
  exists p2, (Err e). split_and!; [done|done|lia|done].
Qed.

Lemma runs_consume_stmt_end d W a C : runs d W a C never consume_stmt_end.
Proof. unfold consume_stmt_end. run. Qed.
#[export] Hint Resolve runs_consume_stmt_end : run_db.

Lemma runs_left_assoc {Op} d W a C (op_of : Token → option Op) node next :
  (∀ t op, op_of t = Some op → passable t = true) →
  runs d W a C always next → (∀ C, runs d W true C always next) → runs d W a C always (left_assoc op_of node next).
Proof.
  intros Hop Hn1 Hn. unfold left_assoc. eapply runs_eats; [exact Hn1|]. intros lhs. run.
Qed.

(** Interpolations up to size [d] are answered. *)
Definition answers (d : nat) (interpolation : list N → Span → option (result LangError Expr)) : Prop :=
  ∀ src span, (S (length src) <= d)%nat → is_Some (interpolation src span).

Section expr.
Context (d : nat) (interpolation : list N → Span → option (result LangError Expr)) (Hint : answers d interpolation).
Context (W : nat) (R : Rec).
Context (HE : ∀ C, runs d W true C always (rec_expr R)) (HB : ∀ C, runs d W true C always (rec_block R)).
#[local] Hint Extern 1 (runs _ _ true _ always (rec_expr _)) => apply HE : run_db.
#[local] Hint Extern 1 (runs _ _ true _ always (rec_block _)) => apply HB : run_db.

Lemma runs_unit_suffix a C base s : runs d W a C never (try_parse_unit_suffix base s).
Proof. unfold try_parse_unit_suffix. run. Qed.
#[local] Hint Resolve runs_unit_suffix : run_db.
Lemma runs_literal_primary a t m : parse_literal_primary t = Some m → runs d W a (eq t) always m.
Proof. destruct t; cbn; intros [= <-]; run. Qed.
Lemma runs_lambda_body C : runs d W true C always (parse_lambda_body R).
Proof. unfold parse_lambda_body. run. Qed.
#[local] Hint Resolve runs_lambda_body : run_db.
Lemma runs_lambda_from_exprs a C es s : runs d W a C always (parse_lambda_from_exprs R es s).
Proof. unfold parse_lambda_from_exprs. run. Qed.
Lemma runs_template_segments a C segs s :
  (list_max (segment_size <$> segs) <= d)%nat → runs d W a C never (template_segments interpolation segs s).
Proof.
  revert a C. induction segs as [|[l|src] segs IH]; intros a C Hs; cbn [template_segments]; [run|..];
    rewrite fmap_cons in Hs; unfold list_max in Hs; cbn [foldr fold_right segment_size] in Hs; fold (list_max (segment_size <$> segs)) in Hs.
  - eapply runs_then; [apply IH; lia|intros]. run.
  - destruct (Hint src s) as [r Hr]; [lia|]. eapply runs_then.
    + intros p Hg _ _. rewrite Hr. exists p, r. split_and!; [done|done|done|by destruct r].
    + intros e. eapply runs_then; [apply IH; lia|intros]. run.
Qed.
Lemma runs_template_literal a segs :
  (template_size (TTemplateLiteral segs) <= d)%nat → runs d W a (eq (TTemplateLiteral segs)) always (parse_template_literal interpolation segs).
Proof. intros Hs. unfold parse_template_literal. run. eapply runs_then; [by apply runs_template_segments|intros]. run. Qed.

Lemma runs_call_opts a C : runs d W a C always (parse_call_opts R).
Proof. unfold parse_call_opts. run. Qed.
Lemma runs_call_arg C : runs d W true C always (parse_call_arg R).
Proof. unfold parse_call_arg. run. Qed.
#[local] Hint Resolve runs_call_opts runs_call_arg runs_lambda_from_exprs : run_db.
Lemma runs_call_args a C : runs d W a C always (parse_call_args R).
Proof. unfold parse_call_args. run. Qed.
#[local] Hint Resolve runs_call_args : run_db.

(** Two tokens that a lookahead has seen. *)
Lemma runs_advance_two {B} a t1 t2 (k : B → bool) (f : P B) (g : Token → P B) :
  passable t1 = true → passable t2 = true → runs d W true any never f → (∀ n, runs d W a (eq t1) k (g n)) →
  runs d W a (eq t1) k (n ← peek_nth 1; if bool_decide (n = t2) then _ ← advance; _ ← advance; f else g n).
Proof.
  intros Hp1 Hp2 Hf Hgn p Hg Hw Hc. unfold mbind at 1, P_bind at 1, pbind at 1.
  destruct (looks_peek_nth 1 d p Hg) as (n & E). rewrite E. case_bool_decide as Hn; [|by apply Hgn]. subst n.
  destruct (step_moves d p t1 Hg Hc Hp1) as (Hg1 & Hlt & Hcm).
  assert (at_token (eq t2) (step p)) as Hc2.
  { unfold peek_nth, or_last, last_token, read in E. destruct Hg as (body & s & Hr & Hb). unfold step, at_token, current. rewrite Hr in *.
    destruct body as [|u [|v body]]; cbn in E; cbn [app rest].
    - injection E as E. rewrite <-E in Hp2. discriminate Hp2.
    - injection E as E. rewrite <-E in Hp2. discriminate Hp2.
    - injection E as E. exists t2. by rewrite <-E. }
  unfold mbind at 1, P_bind at 1, pbind at 1, advance at 1. destruct (good_current d p Hg) as (u & s1 & ts & _ & -> & _).
  destruct (runs_advance d W true t2 never (λ _, f) Hp2 (λ _, Hf) (step p) Hg1 (within_lt _ _ _ _ Hlt Hw) Hc2) as (p2 & r2 & E2 & Hg2 & Hle & Hr2).
  exists p2, r2. split_and!; [exact E2|done|lia|]. destruct r2; [|done]. destruct Hr2. split; [lia|congruence].
Qed.
Lemma runs_struct_literal a C name s : runs d W a C always (parse_struct_literal R name s).
Proof.
  unfold parse_struct_literal. run_step. eapply runs_then; [|intros [fields spread]; run].
  apply runs_loop. intros fields. run_step. run_step; [run|]. run_step; cbn [andb]; [|run].
  apply (runs_advance_two _ TDotDot TDot is_inl (base ← rec_expr R; _ ← advance_if TComma; mret (inr (fields, Some base)))
    (λ _, field_name ← expect_identifier "field name"; _ ← expect TColon ": after field name"; val ← rec_expr R;
      more ← advance_if TComma;
      mret (if more : bool then inl (fields ++ [(field_name, val)]) else inr (fields ++ [(field_name, val)], None)))); try done;
    intros; run.
Qed.
Lemma runs_new_expr a C : runs d W a C always (parse_new_expr R).
Proof. unfold parse_new_expr. run. Qed.
#[local] Hint Resolve runs_struct_literal runs_new_expr : run_db.
Lemma runs_ident a name : runs d W a (eq (TIdentifier name)) always (parse_ident_or_struct_or_lambda R name).
Proof. unfold parse_ident_or_struct_or_lambda. run. Qed.
Lemma runs_match_arm C : runs d W true C always (parse_match_arm R).
Proof. unfold parse_match_arm. run. Qed.
#[local] Hint Resolve runs_match_arm : run_db.
Lemma runs_match_parts a C : runs d W a C always (parse_match_parts R).
Proof. unfold parse_match_parts. run. Qed.
#[local] Hint Resolve runs_match_parts : run_db.
Lemma runs_match_expr a C : runs d W a C always (parse_match_expr R).
Proof. unfold parse_match_expr. run. Qed.
Lemma runs_if_expr a C : runs d W a C always (parse_if_expr R).
Proof. unfold parse_if_expr. run. Qed.
Lemma runs_paren_or_tuple a C : runs d W a C always (parse_paren_or_tuple R).
Proof. unfold parse_paren_or_tuple. run. Qed.
Lemma runs_array_literal a C : runs d W a C always (parse_array_literal R).
Proof. unfold parse_array_literal. run. Qed.
#[local] Hint Resolve runs_ident runs_match_expr runs_if_expr runs_paren_or_tuple runs_array_literal : run_db.
Lemma runs_primary a C : runs d W a C always (parse_primary interpolation R).
Proof.
  unfold parse_primary. run_step. run_step. destruct (parse_literal_primary t) as [m|] eqn:Hl; [by apply runs_literal_primary|].
  destruct t; try done; solve [by apply runs_template_literal|run].
Qed.
#[local] Hint Resolve runs_primary : run_db.
Lemma runs_postfix_step C e : runs d W true C is_inl (postfix_step R e).
Proof. unfold postfix_step. run_step. run_step. destruct t; cbn [negb andb orb]; run. Qed.
Lemma runs_postfix a C : runs d W a C always (parse_postfix interpolation R).
Proof.
  unfold parse_postfix. eapply runs_eats; [apply runs_primary|intros e]. apply runs_loop. intros acc. apply runs_postfix_step.
Qed.
End expr.

(** ** The ladder *)

(** The parsers of the round before answer below the weight [W]. *)
Record rec_ok (d W : nat) (R : Rec) : Prop := {
  rec_ok_expr C : runs d W true C always (rec_expr R);
  rec_ok_block C : runs d W true C always (rec_block R);
}.
Lemma runs_below {A} d V W C (k : A → bool) m : (V <= W)%nat → runs d W true C k m → runs d V true C k m.
Proof. intros HV Hm p Hg Hw. cbn in Hw. apply Hm; [done|cbn; lia]. Qed.
Lemma rec_ok_below d V W R : (V <= W)%nat → rec_ok d W R → rec_ok d V R.
Proof. intros HV [HE HB]. split; intros C; by eapply runs_below. Qed.

Section ladder.
Context (d : nat) (interpolation : list N → Span → option (result LangError Expr)) (Hint : answers d interpolation) (R : Rec).

Lemma runs_unary W a C : rec_ok d W R → runs d W a C always (parse_unary interpolation R).
Proof.
  intros HR. apply runs_recur. intros V rec HV Hrec []. destruct (rec_ok_below d V W R HV HR) as [HE HB].
  run_step. run_step. destruct (unary_op t) eqn:?; [run|]. by apply runs_postfix.
Qed.
Lemma runs_exponent W a C : rec_ok d W R → runs d W a C always (parse_exponent interpolation R).
Proof.
  intros HR. apply runs_recur. intros V rec HV Hrec []. eapply runs_eats; [apply runs_unary; by eapply rec_ok_below|intros lhs]. run.
Qed.
Ltac level := intros; apply runs_left_assoc; [by intros [] ?|eauto..].
Lemma runs_multiplication W a C : rec_ok d W R → runs d W a C always (parse_multiplication interpolation R).
Proof. pose proof runs_exponent. level. Qed.
Lemma runs_addition W a C : rec_ok d W R → runs d W a C always (parse_addition interpolation R).
Proof. pose proof runs_multiplication. level. Qed.
Lemma runs_shift W a C : rec_ok d W R → runs d W a C always (parse_shift interpolation R).
Proof. pose proof runs_addition. level. Qed.
Lemma runs_comparison W a C : rec_ok d W R → runs d W a C always (parse_comparison interpolation R).
Proof. pose proof runs_shift. level. Qed.
Lemma runs_equality W a C : rec_ok d W R → runs d W a C always (parse_equality interpolation R).
Proof. pose proof runs_comparison. level. Qed.
Lemma runs_bit_and W a C : rec_ok d W R → runs d W a C always (parse_bit_and interpolation R).
Proof. pose proof runs_equality. level. Qed.
Lemma runs_bit_xor W a C : rec_ok d W R → runs d W a C always (parse_bit_xor interpolation R).
Proof. pose proof runs_bit_and. level. Qed.
Lemma runs_bit_or W a C : rec_ok d W R → runs d W a C always (parse_bit_or interpolation R).
Proof. pose proof runs_bit_xor. level. Qed.
Lemma runs_logic_and W a C : rec_ok d W R → runs d W a C always (parse_logic_and interpolation R).
Proof. pose proof runs_bit_or. level. Qed.
Lemma runs_logic_or W a C : rec_ok d W R → runs d W a C always (parse_logic_or interpolation R).
Proof. pose proof runs_logic_and. level. Qed.
Lemma runs_nullish W a C : rec_ok d W R → runs d W a C always (parse_nullish interpolation R).
Proof. pose proof runs_logic_or. level. Qed.
Lemma runs_ternary W a C : rec_ok d W R → runs d W a C always (parse_ternary interpolation R).
Proof. intros HR. unfold parse_ternary. eapply runs_eats; [by apply runs_nullish|intros cond]. destruct HR as [HE HB]. run. Qed.
Lemma runs_assignment W a C : rec_ok d W R → runs d W a C always (parse_assignment interpolation R).
Proof.
  intros HR. apply runs_recur. intros V rec HV Hrec []. eapply runs_eats; [apply runs_ternary; by eapply rec_ok_below|intros lhs]. run.
Qed.
Lemma runs_expr_body W a C : rec_ok d W R → runs d W a C always (parse_expr_body interpolation R).
Proof. intros HR. unfold parse_expr_body. run_step. run_step. by apply runs_leaving, runs_assignment. Qed.
End ladder.

(** ** Statements *)

Lemma runs_token_stmt d W a t node : passable t = true → runs d W a (eq t) always (token_stmt node).
Proof. intros Hp. unfold token_stmt. apply runs_looks; [look|intros s]. apply runs_advance; [done|intros _]. run. Qed.

Section stmts.
Context (d W : nat) (R : Rec) (HR : rec_ok d W R).
#[local] Hint Extern 1 (runs _ _ true _ always (rec_expr _)) => apply (rec_ok_expr d W R HR) : run_db.
#[local] Hint Extern 1 (runs _ _ true _ always (rec_block _)) => apply (rec_ok_block d W R HR) : run_db.

Lemma runs_expr_stmt C : runs d W true C always (parse_expr_stmt R).
Proof. unfold parse_expr_stmt. run. Qed.
Lemma runs_let_stmt a C : runs d W a C always (parse_let_stmt R).
Proof. unfold parse_let_stmt. run. Qed.
Lemma runs_const_stmt a C : runs d W a C always (parse_const_stmt R).
Proof. unfold parse_const_stmt. run. Qed.
Lemma runs_match_stmt a C : runs d W a C always (parse_match_stmt R).
Proof.
  unfold parse_match_stmt. eapply runs_eats; [apply runs_match_parts; apply HR|]. intros [[e arms] s]. run.
Qed.
Lemma runs_for_stmt a C : runs d W a C always (parse_for_stmt R).
Proof. unfold parse_for_stmt. run. Qed.
Lemma runs_while_stmt a C : runs d W a C always (parse_while_stmt R).
Proof. unfold parse_while_stmt. run. Qed.
Lemma runs_loop_stmt a C : runs d W a C always (parse_loop_stmt R).
Proof. unfold parse_loop_stmt. run. Qed.
Lemma runs_emit_stmt a C : runs d W a C always (parse_emit_stmt R).
Proof. unfold parse_emit_stmt. run. Qed.
Lemma runs_assert_stmt a C : runs d W a C always (parse_assert_stmt R).
Proof. unfold parse_assert_stmt. run. Qed.
Lemma runs_revert_stmt a C : runs d W a C always (parse_revert_stmt R).
Proof. unfold parse_revert_stmt. run. Qed.
Lemma runs_try_stmt a C : runs d W a C always (parse_try_stmt R).
Proof. unfold parse_try_stmt. run. Qed.
Lemma runs_unchecked_stmt a C : runs d W a C always (parse_unchecked_stmt R).
Proof. unfold parse_unchecked_stmt. run. Qed.
Lemma runs_return_stmt a C : runs d W a C always (parse_return_stmt R).
Proof. unfold parse_return_stmt. run. Qed.
End stmts.

(** [skip_newlines] stops at the first token that is not a newline. *)
Lemma skip_newlines_to d p : good d p →
  ∃ p' nls, skip_newlines p = Some (p', Ok ()) ∧ rest p = nls ++ rest p' ∧ Forall (λ t, t.1 = TNewline) nls ∧
    (fst <$> head (rest p')) ≠ Some TNewline.
Proof.
  unfold skip_newlines, loop. generalize (S (weight p)) as n, (Nat.lt_succ_diag_r (weight p)). intros n. revert p.
  induction n as [|n IH]; intros p Hn Hg; [lia|]. cbn [loop_fuel].
  destruct (good_current d p Hg) as (t & s & ts & Hr & Hc & _). unfold mbind at 1, P_bind at 1, pbind at 1, peek at 1, read at 1. rewrite Hc. cbn [fst].
  case_bool_decide as Ht.
  - subst t. unfold mbind at 1, P_bind at 1, pbind at 1, advance at 1. rewrite Hc. cbn.
    destruct (step_moves d p TNewline Hg) as (Hg1 & Hlt & _); [exists TNewline; by rewrite Hc|done|].
    destruct (IH (step p)) as (p' & nls & E & H1 & H2 & H3); [lia|done|]. exists p', ((TNewline, s) :: nls). split_and!; [exact E| |by constructor|done].
    rewrite Hr. cbn. f_equal. rewrite <-H1. unfold step. by rewrite Hr.
  - exists p, []. split_and!; [done|done|constructor|]. rewrite Hr. cbn. congruence.
Qed.
Lemma filter_newlines (nls ts : list (Token * Span)) :
  Forall (λ t, t.1 = TNewline) nls → filter (λ t : Token * Span, t.1 ≠ TNewline) (nls ++ ts) = filter (λ t, t.1 ≠ TNewline) ts.
Proof. induction 1 as [|t nls Ht _ IH]; [done|]. cbn [app]. rewrite filter_cons, decide_False by (by intros []). exact IH. Qed.

Lemma runs_check_else {B} d W a C (k : B → bool) (f g : P B) :
  runs d W true any never f → runs d W a any k g →
  runs d W a C k (has_else ← check_else; if has_else : bool then _ ← consume_else; f else g).
Proof.
  intros Hf Hgn p Hg Hw _. unfold mbind at 1, P_bind at 1, pbind at 1, check_else. case_bool_decide as He; [|apply Hgn; [done..|by eapply good_at]].
  destruct (skip_newlines_to d p Hg) as (p1 & nls & E & Hr & Hnl & Hh). rewrite Hr, filter_newlines in He by done.
  destruct (runs_skip_newlines d W a any p Hg Hw (good_at d p Hg)) as (p1' & r & E' & Hg1 & Hle & Hcm). rewrite E in E'. injection E' as <- <-.
  destruct (good_current d p1 Hg1) as (t & s & ts & Hr1 & Hc1 & _). rewrite Hr1, filter_cons in He. cbn in He.
  rewrite Hr1 in Hh. rewrite decide_True in He by (cbn in *; congruence). cbn in He. injection He as ->.
  destruct (runs_advance d W a TElse k (λ _, f) eq_refl (λ _, Hf) p1 Hg1) as (p2 & r2 & E2 & Hg2 & Hle2 & Hr2);
    [by eapply within_le|exists TElse; by rewrite Hc1|].
  exists p2, r2. split_and!; [|done|lia|].
  - rewrite <-E2. unfold consume_else, mbind, P_bind, pbind. rewrite E. by destruct (advance p1) as [[? []]|].
  - destruct r2; [|done]. destruct Hr2 as [H1 H2], Hcm as [_ H3]. split; [|congruence]. intros Hk. specialize (H1 Hk). lia.
Qed.

Lemma runs_else d W R rec C :
  rec_ok d W R → (∀ C, runs d W true C always rec) → runs d W true C never (parse_else R rec).
Proof.
  intros [HE HB] Hrec. unfold parse_else.
  apply (runs_check_else d W true C never (b ← check TIf; if b : bool then s ← rec; mret (Some [s])
    else stmts ← rec_block R; mret (Some stmts))); run.
Qed.
Lemma runs_if_stmt d W R a C : rec_ok d W R → runs d W a C always (parse_if_stmt R).
Proof.
  intros HR. apply runs_recur. intros V rec HV Hrec []. pose proof (rec_ok_below d V W R HV HR) as HV'.
  pose proof (rec_ok_expr _ _ _ HV') as HE. pose proof (rec_ok_block _ _ _ HV') as HB.
  do 5 run_step. eapply runs_then; [apply runs_else; [done|intros; apply runs_any, Hrec]|intros]. run.
Qed.
#[export] Hint Resolve runs_let_stmt runs_const_stmt runs_match_stmt runs_for_stmt runs_while_stmt runs_loop_stmt runs_emit_stmt
  runs_assert_stmt runs_revert_stmt runs_try_stmt runs_unchecked_stmt runs_return_stmt runs_if_stmt : run_db.
#[export] Hint Extern 1 (runs _ _ _ _ always (token_stmt _)) => apply runs_token_stmt; passes : run_db.

Lemma runs_pred {A} d W C (k : A → bool) m : runs d (W - 1) false C k m → runs d W true C k m.
Proof. intros Hm p Hg Hw. cbn in Hw. apply Hm; [done|cbn; lia]. Qed.
Lemma runs_succ {A} d V a C (k : A → bool) m : runs d (S V) true C k m → runs d V a C k m.
Proof. intros Hm p Hg Hw. apply Hm; [done|unfold within in *; destruct a; lia]. Qed.

(** Statements are only read after the opening brace. *)
Lemma runs_stmt d W R C : rec_ok d W R → runs d W true C always (parse_stmt R).
Proof.
  intros HR. apply runs_pred, runs_recur. intros V rec HV Hrec [].
  destruct (decide (W = 0%nat)) as [->|].
  { assert (V = 0%nat) as -> by lia. intros p Hg Hw. cbn in Hw. destruct (good_current d p Hg) as (t & s & ts & Hr & _).
    unfold weight in Hw. rewrite Hr, fmap_cons in Hw. cbn in Hw. pose proof (token_weight_pos (t, s)). lia. }
  assert (rec_ok d (S V) R) as HS by (apply (rec_ok_below d _ W); [lia|done]).
  assert (rec_ok d V R) as HVR by (apply (rec_ok_below d _ W); [lia|done]).
  assert (∀ C, runs d V false C always (parse_expr_stmt R)) as Hexpr by (intros; by apply runs_succ, runs_expr_stmt).
  run_step. run_step. destruct t; solve [apply Hexpr|run; apply Hexpr|run].
Qed.
#[export] Hint Resolve runs_stmt : run_db.
Lemma runs_stmt_list d W R C : rec_ok d W R → runs d W true C never (parse_stmt_list R).
Proof.
  intros HR. unfold parse_stmt_list. run_step. apply runs_while_push; [look|].
  eapply runs_eats; [by apply runs_recovering, runs_stmt|intros]. run.
Qed.
Lemma runs_block_body d W R a C : rec_ok d W R → runs d W a C always (parse_block_body R).
Proof.
  intros HR. unfold parse_block_body. do 2 run_step. eapply runs_then; [by apply runs_stmt_list|intros]. run.
Qed.

(** ** The knot *)

Section knot.
Context (d : nat) (interpolation : list N → Span → option (result LangError Expr)) (Hint : answers d interpolation).

Lemma rounds_ok n : rec_ok d n (rounds interpolation n).
Proof.
  induction n as [|n IH]; [split; intros C p _ Hw; cbn in Hw; lia|].
  split; intros C; apply runs_pred; cbn [rounds next_round rec_expr rec_block]; rewrite Nat.sub_1_r; cbn [Nat.pred];
    [by apply runs_expr_body|by apply runs_block_body].
Qed.
Lemma runs_parse_expr W a C : runs d W a C always (parse_expr interpolation).
Proof. intros p Hg _ _. apply (rec_ok_expr d _ _ (rounds_ok (S (weight p))) any); [done|cbn; lia|by eapply good_at]. Qed.
Lemma runs_parse_block W a C : runs d W a C always (parse_block interpolation).
Proof. intros p Hg _ _. apply (rec_ok_block d _ _ (rounds_ok (S (weight p))) any); [done|cbn; lia|by eapply good_at]. Qed.
End knot.

(** ** Declarations *)

Section decls.
Context (d : nat) (interpolation : list N → Span → option (result LangError Expr)) (Hint : answers d interpolation) (W : nat).
#[local] Hint Extern 1 (runs _ _ _ _ always (parse_expr _)) => apply runs_parse_expr; exact Hint : run_db.
#[local] Hint Extern 1 (runs _ _ _ _ always (parse_block _)) => apply runs_parse_block; exact Hint : run_db.

Lemma runs_members_until_brace {A} a C (m : P A) : runs d W a any always m → runs d W a C never (members_until_brace m).
Proof. intros Hm. apply runs_while_push; [look|]. eapply runs_eats; [done|intros]. run. Qed.
Lemma runs_separated_members {A} a C (m : P A) sep :
  runs d W a any always m → (∀ C, runs d W true C never sep) → runs d W a C never (separated_members m sep).
Proof.
  intros Hm Hsep. apply runs_loop. intros acc. run_step. run_step; [run|]. run_step. run_step. run_step; [run|].
  eapply runs_eats; [done|intros]. eapply runs_then; [apply Hsep|intros]. run.
Qed.

Lemma runs_annotation_arg a C : runs d W a C always (parse_annotation_arg interpolation).
Proof. unfold parse_annotation_arg. run. Qed.
#[local] Hint Resolve runs_annotation_arg : run_db.
Lemma runs_annotation_args a C : runs d W a C always (parse_annotation_args interpolation).
Proof. unfold parse_annotation_args. run. Qed.
#[local] Hint Resolve runs_annotation_args : run_db.
Lemma runs_opt_annotation_args a C : runs d W a C never (annotation_args interpolation).
Proof. unfold annotation_args. run. Qed.
#[local] Hint Resolve runs_opt_annotation_args : run_db.
Lemma runs_at_annotation a C : runs d W a C always (parse_at_annotation interpolation).
Proof.
  unfold parse_at_annotation. run_step. run_step. destruct (annotation_token_name t) eqn:?; [run|].
  destruct t; try discriminate; run.
Qed.
Lemma runs_hash_annotation a C : runs d W a C always (parse_hash_annotation interpolation).
Proof. unfold parse_hash_annotation. run. Qed.
#[local] Hint Resolve runs_at_annotation runs_hash_annotation : run_db.
Lemma runs_annotations a C : runs d W a C never (parse_annotations interpolation).
Proof. apply runs_loop. intros anns. run. Qed.
#[local] Hint Resolve runs_annotations : run_db.

Lemma runs_generic_param a C : runs d W a C always parse_generic_param.
Proof. unfold parse_generic_param. run. eapply runs_then; [apply runs_optional; [done|]|intros]; run. Qed.
#[local] Hint Resolve runs_generic_param : run_db.
Lemma runs_parse_generic_params a C : runs d W a C always parse_generic_params.
Proof. unfold parse_generic_params. run. Qed.
#[local] Hint Resolve runs_parse_generic_params : run_db.
Lemma runs_generic_params a C : runs d W a C never generic_params.
Proof. unfold generic_params. run. Qed.
Lemma runs_param a C : runs d W a C always (parse_param interpolation).
Proof. unfold parse_param. run. Qed.
#[local] Hint Resolve runs_generic_params runs_param : run_db.
Lemma runs_param_list a C : runs d W a C never (parse_param_list interpolation).
Proof. unfold parse_param_list. run. Qed.
#[local] Hint Resolve runs_param_list : run_db.
Lemma runs_params_in_parens a C : runs d W a C always (params_in_parens interpolation).
Proof. unfold params_in_parens. run. Qed.
Lemma runs_visibility a C : runs d W a C never parse_visibility.
Proof. unfold parse_visibility. run. Qed.
Lemma runs_mutability a C : runs d W a C never parse_mutability.
Proof. unfold parse_mutability. run. Qed.
#[local] Hint Resolve runs_params_in_parens runs_visibility runs_mutability : run_db.
Lemma runs_function a C anns : runs d W a C always (parse_function interpolation anns).
Proof. unfold parse_function. destruct anns; run. Qed.
#[local] Hint Resolve runs_function : run_db.

Lemma runs_import a C : runs d W a C always parse_import_item.
Proof. unfold parse_import_item. run. Qed.
Lemma runs_using a C : runs d W a C always parse_using_item.
Proof. unfold parse_using_item. run. Qed.
Lemma runs_const_decl a C : runs d W a C always (parse_const_decl interpolation).
Proof. unfold parse_const_decl. run. Qed.
Lemma runs_type_alias a C : runs d W a C always parse_type_alias_item.
Proof. unfold parse_type_alias_item. run. Qed.

Lemma runs_field_decl a C ctx : runs d W a C always (parse_field_decl ctx).
Proof. unfold parse_field_decl. run. Qed.
Lemma runs_method a C : runs d W a C always (parse_method interpolation).
Proof. unfold parse_method. run. Qed.
#[local] Hint Resolve runs_import runs_using runs_const_decl runs_type_alias runs_field_decl runs_method : run_db.
#[local] Hint Extern 2 (runs _ _ _ _ never (separated_members _ _)) =>
  apply runs_separated_members; [|intros; solve [eauto with run_db]] : run_db.
Lemma runs_struct_member a C : runs d W a C always (parse_struct_member interpolation).
Proof. unfold parse_struct_member. run. Qed.
#[local] Hint Resolve runs_struct_member : run_db.
Lemma runs_struct_decl a C : runs d W a C always (parse_struct_decl interpolation).
Proof. unfold parse_struct_decl. run. Qed.
Lemma runs_positional_fields a C : runs d W a C never parse_positional_fields.
Proof. apply runs_loop. intros fields. run. Qed.
#[local] Hint Resolve runs_positional_fields : run_db.
Lemma runs_enum_variant a C : runs d W a C always (parse_enum_variant interpolation).
Proof. unfold parse_enum_variant. run. Qed.
#[local] Hint Resolve runs_enum_variant : run_db.
Lemma runs_enum_decl a C : runs d W a C always (parse_enum_decl interpolation).
Proof.
  unfold parse_enum_decl. do 5 run_step. eapply runs_then; [apply runs_separated_members; [run|intros; eauto with run_db]|intros]. run.
Qed.
Lemma runs_event_field a C : runs d W a C always parse_event_field.
Proof. unfold parse_event_field. run. Qed.
#[local] Hint Resolve runs_event_field : run_db.
Lemma runs_event_decl a C anns : runs d W a C always (parse_event_decl interpolation anns).
Proof.
  unfold parse_event_decl. cbv zeta. do 4 run_step.
  eapply runs_then; [apply runs_separated_members; [run|intros; eauto with run_db]|intros]. run.
Qed.
Lemma runs_error_decl a C : runs d W a C always parse_error_decl.
Proof. unfold parse_error_decl. run. Qed.
#[local] Hint Resolve runs_struct_decl runs_enum_decl runs_event_decl runs_error_decl : run_db.

Lemma runs_state_field a C : runs d W a C always (parse_state_field interpolation).
Proof. unfold parse_state_field. run. Qed.
#[local] Hint Resolve runs_state_field : run_db.
Lemma runs_state_block a C : runs d W a C always (parse_state_block interpolation).
Proof. unfold parse_state_block. run. Qed.
Lemma runs_immutable a C : runs d W a C always parse_immutable.
Proof. unfold parse_immutable. run. Qed.
Lemma runs_init a C anns : runs d W a C always (parse_init interpolation anns).
Proof. unfold parse_init. run. Qed.
Lemma runs_entry a C t ctx : passable t = true → runs d W a C always (parse_entry interpolation t ctx).
Proof. intros Hp. unfold parse_entry. run. Qed.
#[local] Hint Extern 1 (runs _ _ _ _ always (parse_entry _ _ _)) => apply runs_entry; passes : run_db.
Lemma runs_receive a C : runs d W a C always (parse_receive interpolation).
Proof. unfold parse_receive. run. Qed.
Lemma runs_fallback a C : runs d W a C always (parse_fallback interpolation).
Proof. unfold parse_fallback. run. Qed.
Lemma runs_modifier_def a C : runs d W a C always (parse_modifier_def interpolation).
Proof. unfold parse_modifier_def. run. Qed.
#[local] Hint Resolve runs_state_block runs_immutable runs_init runs_receive runs_fallback runs_modifier_def : run_db.

Lemma runs_config_entries_with V a C rec : runs d V true any always rec → runs d V a C never (parse_config_entries_with rec).
Proof.
  intros Hrec. apply runs_while_push; [look|]. do 3 run_step. eapply runs_eats; [apply Hrec|intros]. run.
Qed.
Lemma runs_config_value a C : runs d W a C always parse_config_value.
Proof.
  apply runs_recur. intros V rec HV Hrec []. run_step. destruct t; try solve [run].
  apply runs_advance; [done|intros _]. run_step. eapply runs_then; [by apply runs_config_entries_with|intros]. run.
Qed.
Lemma runs_entries_block a t : passable t = true → runs d W a (eq t) always parse_entries_block.
Proof.
  intros Hp. unfold parse_entries_block. apply runs_looks; [look|intros s]. apply runs_advance; [done|intros _]. do 2 run_step.
  eapply runs_then; [apply runs_config_entries_with, runs_config_value|intros]. run.
Qed.
#[local] Hint Extern 1 (runs _ _ _ _ always parse_entries_block) => apply runs_entries_block; passes : run_db.
Lemma runs_config_block a name : runs d W a (eq (TIdentifier name)) always parse_config_block.
Proof. unfold parse_config_block. run. Qed.
Lemma runs_metadata_block a name : runs d W a (eq (TIdentifier name)) always parse_metadata_block.
Proof. unfold parse_metadata_block. run. Qed.
#[local] Hint Resolve runs_config_block runs_metadata_block : run_db.
Lemma runs_contract_member a C : runs d W a C always (parse_contract_member interpolation).
Proof. unfold parse_contract_member. run. Qed.
#[local] Hint Resolve runs_contract_member : run_db.

Lemma runs_identifier_list a C : runs d W a C always parse_identifier_list.
Proof. unfold parse_identifier_list. run. Qed.
#[local] Hint Resolve runs_identifier_list : run_db.
Lemma runs_identifiers_after a C t : passable t = true → runs d W a C never (identifiers_after t).
Proof. intros Hp. unfold identifiers_after. run. Qed.
#[local] Hint Extern 1 (runs _ _ _ _ never (identifiers_after _)) => apply runs_identifiers_after; passes : run_db.
Lemma runs_contract_body a C : runs d W a C always (contract_body interpolation).
Proof.
  unfold contract_body. do 2 run_step. eapply runs_then; [apply runs_members_until_brace, runs_contract_member|intros]. run.
Qed.
#[local] Hint Resolve runs_contract_body : run_db.
Lemma runs_contract a C : runs d W a C always (parse_contract_item interpolation).
Proof. unfold parse_contract_item. run. Qed.
Lemma runs_token a C : runs d W a C always (parse_token_item interpolation).
Proof. unfold parse_token_item. run. Qed.
Lemma runs_interface_member a C : runs d W a C always (parse_interface_member interpolation).
Proof. unfold parse_interface_member. run. Qed.
Lemma runs_trait_member a C : runs d W a C always (parse_trait_member interpolation).
Proof. unfold parse_trait_member. run. Qed.
Lemma runs_library_function a C : runs d W a C always (parse_library_function interpolation).
Proof. unfold parse_library_function. run. Qed.
#[local] Hint Resolve runs_interface_member runs_trait_member runs_library_function : run_db.
Lemma runs_interface a C : runs d W a C always (parse_interface interpolation).
Proof. unfold parse_interface. run. Qed.
Lemma runs_trait a C : runs d W a C always (parse_trait interpolation).
Proof. unfold parse_trait. run. Qed.
Lemma runs_library a C : runs d W a C always (parse_library interpolation).
Proof. unfold parse_library. run. Qed.
#[local] Hint Resolve runs_contract runs_token runs_interface runs_trait runs_library : run_db.
Lemma runs_top_level_item a C : runs d W a C always (parse_top_level_item interpolation).
Proof. unfold parse_top_level_item. run. Qed.
#[local] Hint Resolve runs_top_level_item : run_db.
Lemma runs_program a C : runs d W a C never (parse_program interpolation).
Proof. unfold parse_program. run. Qed.
End decls.

(** ** Programs *)

Lemma good_depth d d' p : (d <= d')%nat → good d p → good d' p.
Proof.
  intros Hd (body & s & Hr & Hb). exists body, s. split; [done|]. eapply Forall_impl; [exact Hb|]. intros [t ?]. unfold token_fits. cbn.
  destruct t; try done. lia.
Qed.
Lemma pbind_Ok {A B} (m : P A) (f : A → P B) p p' y :
  (m ≫= f) p = Some (p', Ok y) → ∃ p1 x, m p = Some (p1, Ok x) ∧ f x p1 = Some (p', Ok y).
Proof. unfold mbind, P_bind, pbind. destruct (m p) as [[p1 [x|]]|]; [|done..]. by exists p1, x. Qed.
Lemma pret_Ok {A} (x y : A) p p' : (mret x : P A) p = Some (p', Ok y) → p' = p ∧ y = x.
Proof. by intros [= -> ->]. Qed.
Lemma loop_exit {A B} n (body : A → P (A + B)) acc p p' b :
  loop_fuel n body acc p = Some (p', Ok b) → ∃ acc1 p1, body acc1 p1 = Some (p', Ok (inr b)).
Proof.
  revert acc p. induction n as [|n IH]; intros acc p; [done|]. cbn [loop_fuel].
  destruct (body acc p) as [[p1 [[acc1|b1]|]]|] eqn:E; [apply IH| |done..]. intros [= -> ->]. by exists acc, p.
Qed.
(** The loop of [parse_program] ends at the end marker. *)
Lemma parse_program_end interpolation p p' ast :
  parse_program interpolation p = Some (p', Ok ast) → fst <$> current p' = Some TEof.
Proof.
  unfold parse_program. intros (p1 & s1 & _ & H)%pbind_Ok. apply pbind_Ok in H as (p2 & [] & _ & H).
  apply pbind_Ok in H as (p3 & its & Hl & H). apply pbind_Ok in H as (p4 & s4 & H4 & [-> _]%pret_Ok).
  assert (p4 = p3) as -> by (unfold prev_span, read in H4; repeat case_match; by simplify_eq).
  unfold while_push, loop in Hl. apply loop_exit in Hl as (acc & q & Hq). apply pbind_Ok in Hq as (q1 & c & Hc & Hq).
  apply pbind_Ok in Hc as (q2 & e & He & [-> ->]%pret_Ok). destruct e; cbn [negb] in Hq.
  - apply pret_Ok in Hq as [-> _]. unfold at_end, check in He. apply pbind_Ok in He as (q3 & t & Ht & [-> Hd]%pret_Ok).
    symmetry in Hd. apply bool_decide_eq_true in Hd as ->. unfold peek, read in Ht. destruct (current q) as [[t s]|] eqn:Hcur; [|done].
    injection Ht as <- Et. cbn in *. by rewrite Hcur, Et.
  - apply pbind_Ok in Hq as (q3 & [x more] & Hi & [_ Hm]%pret_Ok). apply pbind_Ok in Hi as (q4 & i & _ & Hi).
    apply pbind_Ok in Hi as (q5 & [] & _ & [_ [= _ ->]]%pret_Ok). done.
Qed.

Section programs.
Context {U : Unicode} (bech32m_hrp : list N → result string (list N)).

Lemma tokenize_good src : ∃ r, tokenize bech32m_hrp src = Some r ∧
  ∀ toks, r = Ok toks → good (length src) (Parser_new toks).
Proof.
  destruct (tokenize_loop_spec (length src) bech32m_hrp (S (length src)) (Scanner_new src) (utf8_len src) []) as (r & Hr & Hs);
    [cbn; lia|done|]. exists r. split; [exact Hr|]. intros toks ->. destruct Hs as (body & s1 & b & s2 & -> & Hlaid & _).
  exists body, (Span_at (sc_line s2) (sc_col s2) (utf8_len src)). split; [done|]. by eapply laid_fits.
Qed.
Lemma parse_interpolation_answers n : answers n (parse_interpolation bech32m_hrp n).
Proof.
  induction n as [|n IH]; intros src span Hl; [lia|]. cbn [parse_interpolation].
  destruct (tokenize_good src) as (r & -> & Hg). destruct r as [toks|e]; [|done]. specialize (Hg toks eq_refl).
  apply (good_depth _ n) in Hg; [|lia].
  destruct (runs_parse_expr n _ IH (weight (Parser_new toks)) false any (Parser_new toks) Hg) as (p' & r & -> & Hg' & _);
    [cbn; lia|by eapply good_at|]. destruct r as [e|]; [|done].
  destruct (good_current n p' Hg') as (t & s & ts & _ & -> & _). by destruct t.
Qed.
Lemma good_template_depth d toks : good d (Parser_new toks) → good (template_depth toks) (Parser_new toks).
Proof.
  intros (body & s & Hr & Hb). exists body, s. split; [done|]. cbn in Hr. rewrite Forall_forall in *. intros t Ht.
  specialize (Hb t Ht). assert (template_size t.1 <= template_depth toks)%nat as Hle.
  { unfold template_depth. rewrite Hr. eapply (proj1 (Forall_forall _ _) (proj1 (list_max_le _ _) (le_n _))).
    apply list_elem_of_fmap. exists t. split; [done|]. by apply elem_of_app; left. }
  unfold token_fits in *. by destruct (t.1).
Qed.

(** C34. The front end always answers, and a comment is always an error: lexing
    any source and parsing its tokens returns a tree or an error (no loop or
    recursion of the parser runs for ever, and no index is out of range), and when
    the tokens contain a comment, of any of the three kinds and anywhere, the
    answer of the parser is an error.  The lexer puts comments into the token
    stream and no rule of the grammar takes one, so a commented contract is
    rejected. *)
Theorem parse_total src toks :
  tokenize bech32m_hrp src = Some (Ok toks) →
  ∃ r, parse bech32m_hrp toks = Some r ∧
    (Exists (λ t, is_comment t.1 = true) toks → ∃ e, r = Err e).
Proof.
  intros Ht. destruct (tokenize_good src) as (r0 & E0 & Hg). rewrite Ht in E0. injection E0 as <-.
  specialize (Hg toks eq_refl). apply good_template_depth in Hg. set (d := template_depth toks) in *.
  destruct (runs_program d _ (parse_interpolation_answers d) (weight (Parser_new toks)) false any (Parser_new toks) Hg)
    as (p' & r & E & Hg' & _ & Hr); [cbn; lia|by eapply good_at|].
  exists r. unfold parse. fold d. rewrite E. split; [done|]. intros Hex. destruct r as [ast|e]; [exfalso|by exists e].
  destruct Hr as [_ Hcm]. apply parse_program_end in E. destruct (good_current d p' Hg') as (t & s & ts & Hrest & Hc & Hend).
  rewrite Hc in E. injection E as ->. unfold comments in Hcm. rewrite Hrest, (Hend eq_refl) in Hcm. cbn [rest Parser_new] in Hcm.
  apply Exists_exists in Hex as (t & Hin & Hct). symmetry in Hcm. apply length_zero_iff_nil in Hcm.
  assert (t ∈ filter (λ t : Token * Span, is_comment t.1 = true) toks) as Hf by (by apply list_elem_of_filter).
  rewrite Hcm in Hf. by apply elem_of_nil in Hf.
Qed.
End programs.
