(* ===== verification/ParserSpec.v ===== *)
(** * What the parser reads: types and expressions

    Printers for types and expressions, with parentheses where the precedence of
    the language needs them, and the theorems that the parser reads back what they
    print, up to spans. *)
From stdpp Require Import strings.
From S2P Require Import Prelude LexToken Lexer LexerSpec LangAst Parser ParserExpr ParserDecl ParserTotal.

(** ** Taking tokens *)

Definition cur (b l : list (Token * Span)) (g : list nat) (d : N) : Parser :=
  {| before := b; rest := l; gt_split_positions := g; expr_depth := d |}.
Definition wt (l : list (Token * Span)) : nat := sum_list (token_weight <$> l).

(** At depth [d] the parser moves from the tokens [l] to the tokens [l'] and
    answers with a value in [Q], whatever lies behind the cursor. *)
Definition takes {A} (m : P A) (d : N) (l : list (Token * Span)) (Q : A → Prop) (l' : list (Token * Span)) : Prop :=
  ∀ b g, ∃ b' g' x, m (cur b l g d) = Some (cur b' l' g' d, Ok x) ∧ Q x.

Lemma takes_weak {A} (m : P A) d l (Q Q' : A → Prop) l' : takes m d l Q l' → (∀ x, Q x → Q' x) → takes m d l Q' l'.
Proof. intros H Hq b g. destruct (H b g) as (b' & g' & x & E & Hx). eauto 10. Qed.
Lemma takes_ret {A} (x : A) d l (Q : A → Prop) : Q x → takes (mret x) d l Q l.
Proof. intros Hx b g. by exists b, g, x. Qed.
Lemma takes_bind {A B} (m : P A) (f : A → P B) d l (Q : A → Prop) (Q' : B → Prop) l1 l' :
  takes m d l Q l1 → (∀ x, Q x → takes (f x) d l1 Q' l') → takes (m ≫= f) d l Q' l'.
Proof.
  intros Hm Hf b g. destruct (Hm b g) as (b1 & g1 & x & E & Hx). unfold mbind, P_bind, pbind. rewrite E. by apply Hf.
Qed.
(** The value is known. *)
Lemma takes_step {A B} (m : P A) (f : A → P B) d l x (Q' : B → Prop) l1 l' :
  takes m d l (eq x) l1 → takes (f x) d l1 Q' l' → takes (m ≫= f) d l Q' l'.
Proof. intros Hm Hf. eapply takes_bind; [done|]. by intros ? <-. Qed.
(** The value is not used. *)
Lemma takes_skip {A B} (m : P A) (f : A → P B) d l (Q' : B → Prop) l1 l' :
  takes m d l (λ _, True) l1 → (∀ x, takes (f x) d l1 Q' l') → takes (m ≫= f) d l Q' l'.
Proof. intros Hm Hf. eapply takes_bind; [done|]. intros. apply Hf. Qed.

Section tokens.
Context (d : N) (t : Token) (s : Span) (l : list (Token * Span)).

Lemma takes_peek : takes peek d ((t, s) :: l) (eq t) ((t, s) :: l).
Proof. intros b g. by exists b, g, t. Qed.
Lemma takes_peek_span : takes peek_span d ((t, s) :: l) (λ _, True) ((t, s) :: l).
Proof. intros b g. by exists b, g, s. Qed.
Lemma takes_prev_span : takes prev_span d ((t, s) :: l) (λ _, True) ((t, s) :: l).
Proof. intros b g. unfold prev_span. destruct b as [|x b]; [by exists [], g, s|by exists (x :: b), g, x.2]. Qed.
Lemma takes_advance : takes advance d ((t, s) :: l) (λ _, True) l.
Proof. intros b g. by exists ((t, s) :: b), g, (t, s). Qed.
Lemma takes_check u : takes (check u) d ((t, s) :: l) (eq (bool_decide (t = u))) ((t, s) :: l).
Proof. intros b g. by eexists b, g, _. Qed.
Lemma takes_advance_if : takes (advance_if t) d ((t, s) :: l) (eq true) l.
Proof. eapply takes_step; [apply takes_check|]. rewrite bool_decide_eq_true_2 by done. eapply takes_skip; [apply takes_advance|]. intros. by apply takes_ret. Qed.
Lemma takes_advance_if_not u : t ≠ u → takes (advance_if u) d ((t, s) :: l) (eq false) ((t, s) :: l).
Proof. intros Hn. eapply takes_step; [apply takes_check|]. rewrite bool_decide_eq_false_2 by done. by apply takes_ret. Qed.
Lemma takes_expect ctx : takes (expect t ctx) d ((t, s) :: l) (λ _, True) l.
Proof.
  eapply takes_step; [apply takes_check|]. rewrite bool_decide_eq_true_2 by done. eapply takes_skip; [apply takes_advance|].
  intros. by apply takes_ret.
Qed.
Lemma takes_not_at u : t ≠ u → t ≠ TEof → takes (not_at u) d ((t, s) :: l) (eq true) ((t, s) :: l).
Proof.
  intros H1 H2. eapply takes_step; [apply takes_check|]. rewrite bool_decide_eq_false_2 by done.
  eapply takes_step; [apply takes_check|]. rewrite bool_decide_eq_false_2 by done. by apply takes_ret.
Qed.
Lemma takes_at : takes (not_at t) d ((t, s) :: l) (eq false) ((t, s) :: l).
Proof. eapply takes_step; [apply takes_check|]. rewrite bool_decide_eq_true_2 by done. by apply takes_ret. Qed.
Lemma takes_skip_newlines : t ≠ TNewline → takes skip_newlines d ((t, s) :: l) (λ _, True) ((t, s) :: l).
Proof.
  intros Hn b g. exists b, g, (). split; [|done]. unfold skip_newlines, loop. cbn [loop_fuel].
  unfold mbind, P_bind, pbind, peek, read, current. cbn. by rewrite bool_decide_eq_false_2.
Qed.
End tokens.

Lemma takes_loop {A B} (body : A → P (A + B)) acc d l (Q : B → Prop) l' :
  takes (loop_fuel (S (wt l)) body acc) d l Q l' → takes (loop body acc) d l Q l'.
Proof. done. Qed.
Lemma takes_recur {A B} (F : (A → P B) → A → P B) x d l (Q : B → Prop) l' :
  takes (recur_fuel (S (wt l)) F x) d l Q l' → takes (recur F x) d l Q l'.
Proof. done. Qed.
Lemma takes_turn {A B} f (body : A → P (A + B)) acc d l (Q : B → Prop) l1 l' :
  takes (body acc) d l (λ r, match r with inl x => takes (loop_fuel f body x) d l1 Q l' | inr y => Q y ∧ l1 = l' end) l1 →
  takes (loop_fuel (S f) body acc) d l Q l'.
Proof.
  intros H b g. destruct (H b g) as (b1 & g1 & r & E & Hr). cbn [loop_fuel]. rewrite E. destruct r as [x|y]; [by apply Hr|].
  destruct Hr as [Hy ->]. by exists b1, g1, y.
Qed.
(** One turn of [while_push]. *)
Definition push_turn {A} (cond : P bool) (item : P (A * bool)) (acc : list A) : P (list A + list A) :=
  c ← cond;
  if c : bool then '(x, more) ← item; mret (if more : bool then inl (acc ++ [x]) else inr (acc ++ [x])) else mret (inr acc).
Section pushes.
Context {A : Type} (cond : P bool) (item : P (A * bool)) (f : nat) (acc : list A) (d : N) (l : list (Token * Span)).

Lemma takes_while (R : list A → Prop) l' :
  takes (loop_fuel (S (wt l)) (push_turn cond item) []) d l R l' → takes (while_push cond item) d l R l'.
Proof. done. Qed.
Lemma takes_push_stop : takes cond d l (eq false) l → takes (loop_fuel (S f) (push_turn cond item) acc) d l (eq acc) l.
Proof. intros Hc. eapply takes_turn. eapply takes_step; [done|]. by apply takes_ret. Qed.
Lemma takes_push_last (Q : A → Prop) (R : list A → Prop) l' :
  takes cond d l (eq true) l → takes item d l (λ r, Q r.1 ∧ r.2 = false) l' → (∀ x, Q x → R (acc ++ [x])) →
  takes (loop_fuel (S f) (push_turn cond item) acc) d l R l'.
Proof.
  intros Hc Hi Hx. eapply takes_turn. eapply takes_step; [done|]. eapply takes_bind; [done|]. intros [x b] [HQ Hb]. cbn in *. subst.
  apply takes_ret. auto.
Qed.
Lemma takes_push_more (Q : A → Prop) (R : list A → Prop) l1 l' :
  takes cond d l (eq true) l → takes item d l (λ r, Q r.1 ∧ r.2 = true) l1 →
  (∀ x, Q x → takes (loop_fuel f (push_turn cond item) (acc ++ [x])) d l1 R l') →
  takes (loop_fuel (S f) (push_turn cond item) acc) d l R l'.
Proof.
  intros Hc Hi Hx. eapply takes_turn. eapply takes_step; [done|]. eapply takes_bind; [done|]. intros [x b] [HQ Hb]. cbn in *. subst.
  apply takes_ret. auto.
Qed.
End pushes.

(** ** Printed types *)

Fixpoint commas (ls : list (list Token)) : list Token :=
  match ls with [] => [] | [x] => x | x :: ls => x ++ TComma :: commas ls end.
Definition bytes_name (n : N) : list N := text "bytes" ++ decimal_digits n.
#[global] Arguments bytes_name : simpl never.

Fixpoint show_type (t : LType) : list Token :=
  match t with
  | TyU8 => [TU8] | TyU16 => [TU16] | TyU32 => [TU32] | TyU64 => [TU64] | TyU128 => [TU128] | TyU256 => [TU256]
  | TyI8 => [TI8] | TyI16 => [TI16] | TyI32 => [TI32] | TyI64 => [TI64] | TyI128 => [TI128] | TyI256 => [TI256]
  | TyBool => [TBool] | TyStringTy => [TStringTy] | TyCharTy => [TCharTy] | TyAddressTy => [TAddressTy]
  | TyHashTy => [THashTy] | TyBytes => [TBytes]
  | TyBytesN n => [TIdentifier (bytes_name n)]
  | TyArray t => TArrayTy :: TLt :: show_type t ++ [TGt]
  | TyFixedArray t n => TLBracket :: show_type t ++ [TSemicolon; TIntLiteral n; TRBracket]
  | TyMap k v => TMapTy :: TLt :: show_type k ++ TComma :: show_type v ++ [TGt]
  | TyFastMap k v => TFastMapTy :: TLt :: show_type k ++ TComma :: show_type v ++ [TGt]
  | TySet t => TSetTy :: TLt :: show_type t ++ [TGt]
  | TyOption_ t => TOptionTy :: TLt :: show_type t ++ [TGt]
  | TyResult_ t e => TResultTy :: TLt :: show_type t ++ TComma :: show_type e ++ [TGt]
  | TyDecimal n => [TDecimal; TLParen; TIntLiteral n; TRParen]
  | TyTuple [t] => TLParen :: show_type t ++ [TComma; TRParen]
  | TyTuple ts => TLParen :: commas (show_type <$> ts) ++ [TRParen]
  | TyFn ps r => TFn :: TLParen :: commas (show_type <$> ps) ++ TRParen :: TArrow :: show_type r
  | TyNamed name [] => [TIdentifier name]
  | TyNamed name args => TIdentifier name :: TLt :: commas (show_type <$> args) ++ [TGt]
  end.

(** The types the parser can produce. *)
Fixpoint type_ok (t : LType) : bool :=
  match t with
  | TyBytesN n => (1 <=? n) && (n <=? 32)
  | TyArray t | TySet t | TyOption_ t => type_ok t
  | TyFixedArray t n => type_ok t && (n <=? u64_max)
  | TyMap k v | TyFastMap k v | TyResult_ k v => type_ok k && type_ok v
  | TyDecimal n => n <=? 2 ^ 32 - 1
  | TyTuple ts => forallb type_ok ts
  | TyFn ps r => forallb type_ok ps && type_ok r
  | TyNamed name args => bool_decide (parse_bytes_n name = None) && forallb type_ok args
  | _ => true
  end.
(** Does the type end in a name, which a [<] after it would continue? *)
Fixpoint bare_end (t : LType) : bool :=
  match t with TyNamed _ [] => true | TyFn _ r => bare_end r | _ => false end.

(** [ts] in the stream, where one [>>] may stand for two [>]. *)
Inductive covers : list Token → list (Token * Span) → list (Token * Span) → Prop :=
  | covers_nil l : covers [] l l
  | covers_cons t s ts l l' : covers ts l l' → covers (t :: ts) ((t, s) :: l) l'
  | covers_split s ts l l' :
      covers ts ((TGt, {| line := line s; col := col s; offset := offset s; len := 1 |}) :: l) l' →
      covers (TGt :: ts) ((TShr, s) :: l) l'.

Lemma covers_app ts us l l' : covers (ts ++ us) l l' → ∃ l1, covers ts l l1 ∧ covers us l1 l'.
Proof.
  revert l. induction ts as [|t ts IH]; intros l H; [exists l; split; [constructor|done]|].
  inversion H as [|? s' ? l2 ? H2|s' ? l2 ? H2]; subst; destruct (IH _ H2) as (l1 & H3 & H4); exists l1; split; by try constructor.
Qed.
Lemma covers_wt ts l l' : covers ts l l' → (length ts + wt l' <= wt l)%nat.
Proof.
  induction 1 as [|t s ts l l' _ IH|s ts l l' _ IH]; [done| |]; unfold wt in *; cbn in *; [|lia].
  pose proof (token_weight_pos (t, s)). lia.
Qed.

(** ** The type parser reads what is printed *)

Definition type_start (t : Token) : bool :=
  match t with
  | TNewline | TRParen | TGt | TShr | TEof | TComma | TColon => false
  | _ => true
  end.
Lemma show_type_start t : ∃ u ts, show_type t = u :: ts ∧ type_start u = true.
Proof. destruct t as [ | | | | | | | | | | | | | | | | | | | | | | | | | | |[|t [|]]| |? [|]]; by eexists _, _. Qed.

Lemma covers_start t l l' : covers (show_type t) l l' → ∃ u s l1, l = (u, s) :: l1 ∧ type_start u = true.
Proof.
  destruct (show_type_start t) as (u & ts & -> & Hu). inversion 1; subst; [by eexists _, _, _|done].
Qed.
Lemma commas_cons x ls : commas (x :: ls) = match ls with [] => x | _ => x ++ TComma :: commas ls end.
Proof. by destruct ls. Qed.

(** What may follow a type. *)
Definition type_end (t : LType) (l : list (Token * Span)) : Prop :=
  ∃ u s l1, l = (u, s) :: l1 ∧ (bare_end t = true → u ≠ TLt).

Definition type_step (rec : () → P LType) (_ : ()) : P LType := parse_type_body (rec ()).
Definition reads_type (t : LType) : Prop :=
  ∀ f d l l', type_ok t = true → covers (show_type t) l l' → type_end t l' → (wt l < f)%nat →
    takes (recur_fuel f type_step ()) d l (eq t) l'.

Ltac step1 := first
  [ eapply takes_skip; [apply takes_advance|intros ?]
  | eapply takes_skip; [apply takes_expect|intros ?]
  | eapply takes_skip; [apply takes_peek_span|intros ?]
  | eapply takes_skip; [apply takes_prev_span|intros ?]
  | eapply takes_step; [apply takes_peek|]
  | eapply takes_step; [apply takes_advance_if|]
  | eapply takes_step; [apply takes_advance_if_not; first [done|congruence]|]
  | eapply takes_step; [apply takes_check|]
  | eapply takes_skip; [apply takes_skip_newlines; first [done|congruence]|intros _] ].
Ltac covers_inv :=
  repeat match goal with
  | H : covers (_ :: _) _ _ |- _ => inversion H; clear H; subst
  | H : covers [] _ _ |- _ => inversion H; clear H; subst
  | H : covers (_ ++ _) _ _ |- _ => apply covers_app in H; destruct H as (? & ? & ?)
  end.

Section type_list.
Context (m : P LType) (cond chk : P bool) (stop : Token → bool) (d : N) (W : nat)
  (Hcond : ∀ u s l, u ≠ TEof → takes cond d ((u, s) :: l) (eq (negb (stop u))) ((u, s) :: l))
  (Hchk : ∀ u s l, takes chk d ((u, s) :: l) (eq (stop u)) ((u, s) :: l))
  (Hstop : ∀ u, type_start u = true → stop u = false).
Definition list_item : P (LType * bool) :=
  t ← m; c ← advance_if TComma; if c : bool then b ← chk; mret (t, negb b) else mret (t, false).

Lemma takes_type_list ts :
  Forall (λ t, ∀ l l', covers (show_type t) l l' → type_end t l' → (wt l < W)%nat → takes m d l (eq t) l') ts →
  ∀ acc f l u s l1, covers (commas (show_type <$> ts)) l ((u, s) :: l1) → stop u = true → u ≠ TComma → u ≠ TLt → u ≠ TEof →
  (length ts < f)%nat → (wt l < W)%nat →
  takes (loop_fuel f (push_turn cond list_item) acc) d l (eq (acc ++ ts)) ((u, s) :: l1).
Proof.
  induction 1 as [|t ts Ht Hts IH]; intros acc f l u s l1 Hc Hu Hu1 Hu2 Hu3 Hf HW; (destruct f as [|f]; [cbn in Hf; lia|]).
  - cbn in Hc. covers_inv. rewrite app_nil_r. apply takes_push_stop. specialize (Hcond u s l1 Hu3). by rewrite Hu in Hcond.
  - rewrite fmap_cons, commas_cons in Hc.
    assert (∃ l2, covers (show_type t) l l2) as (l2 & Hl2).
    { destruct ts; cbn in Hc; [by eexists|]. apply covers_app in Hc as (l2 & ? & _). by exists l2. }
    destruct (covers_start t l l2 Hl2) as (v & sv & lv & -> & Hv). clear l2 Hl2.
    pose proof (Hcond v sv lv ltac:(by destruct v)) as Hcv. rewrite (Hstop v Hv) in Hcv.
    destruct ts as [|t2 ts].
    + eapply (takes_push_last _ _ _ _ _ _ (eq t)); [done| |by intros ? <-].
      eapply takes_step; [apply Ht; [done|by eexists _, _, _|done]|]. step1. by apply takes_ret.
    + cbn [fmap list_fmap] in Hc. apply covers_app in Hc as (l2 & Ht1 & Hc). inversion Hc as [|? sc ? l3 ? Hc2|]; subst.
      pose proof (covers_wt _ _ _ Ht1) as Hw1. cbn in Hw1.
      assert (∃ v2 s2 l4, l3 = (v2, s2) :: l4 ∧ type_start v2 = true) as (v2 & s2 & l4 & -> & Hv2).
      { change (covers (commas (show_type <$> (t2 :: ts))) l3 ((u, s) :: l1)) in Hc2. rewrite fmap_cons, commas_cons in Hc2.
        destruct ts; cbn in Hc2; [by eapply covers_start|]. apply covers_app in Hc2 as (l4 & ? & _). by eapply covers_start. }
      eapply (takes_push_more _ _ _ _ _ _ (eq t)); [done| |intros ? <-].
      * eapply takes_step; [apply Ht; [done|by eexists _, _, _|done]|]. step1. eapply takes_step; [apply Hchk|].
        apply takes_ret. by rewrite (Hstop v2 Hv2).
      * replace (acc ++ t :: t2 :: ts) with ((acc ++ [t]) ++ t2 :: ts) by (by rewrite <- app_assoc). apply IH; try done; [cbn in Hf |- *; lia|]. unfold wt in *. cbn in *. lia.
Qed.
End type_list.

Lemma takes_expect_gt ctx d l l' : covers [TGt] l l' → takes (expect_gt ctx) d l (λ _, True) l'.
Proof.
  intros H. inversion H as [|? s ? l2 ? H2|s ? l2 ? H2]; subst; inversion H2; subst; unfold expect_gt; step1; cbv iota beta.
  - step1. by apply takes_ret.
  - intros b g. by eexists b, _, _.
Qed.
Lemma takes_check_gt d u s l : takes check_gt d ((u, s) :: l) (eq (is_gt u)) ((u, s) :: l).
Proof. unfold check_gt. step1. by apply takes_ret. Qed.
Lemma takes_int_literal ctx d n s l : takes (expect_int_literal ctx) d ((TIntLiteral n, s) :: l) (eq n) l.
Proof. unfold expect_int_literal. step1. cbv iota. step1. by apply takes_ret. Qed.

Lemma covers_length ts l l' : covers (commas (show_type <$> ts)) l l' → (length ts + wt l' <= wt l)%nat.
Proof.
  intros H. apply covers_wt in H. enough (length ts <= length (commas (show_type <$> ts)))%nat by lia. clear.
  induction ts as [|t ts IH]; [done|]. rewrite fmap_cons, commas_cons. destruct (show_type_start t) as (u & us & -> & _).
  destruct ts as [|t2 ts]; [cbn; lia|]. cbn [fmap list_fmap] in *. rewrite length_app. cbn in *. lia.
Qed.
Lemma bytes_name_parses n : (1 <=? n) && (n <=? 32) = true → parse_bytes_n (bytes_name n) = Some n.
Proof.
  intros [H1%N.leb_le H2%N.leb_le]%andb_true_iff. assert (n ∈ N.of_nat <$> seq 1 32) as Hin.
  { apply list_elem_of_fmap. exists (N.to_nat n). split; [lia|]. apply elem_of_seq. lia. }
  assert (Forall (λ n, parse_bytes_n (bytes_name n) = Some n) (N.of_nat <$> seq 1 32)) as Hall by (repeat constructor).
  by eapply Forall_forall in Hin; [|done].
Qed.

Section type_forms.
Context (m : P LType) (d : N) (l : list (Token * Span)).
Definition reads_at (t : LType) : Prop :=
  ∀ l1 l', (wt l1 < wt l)%nat → type_ok t = true → covers (show_type t) l1 l' → type_end t l' → takes m d l1 (eq t) l'.

Lemma closes_type t u s l1 : u ≠ TLt → type_end t ((u, s) :: l1).
Proof. intros Hu. by eexists _, _, _. Qed.
Lemma gt_closes t l1 l' : covers [TGt] l1 l' → type_end t l1.
Proof. inversion 1; subst; by apply closes_type. Qed.

(** One argument between angle brackets. *)
Lemma takes_angle {B} t (k : LType → P B) (Q : B → Prop) l1 l2 l' :
  reads_at t → type_ok t = true → (wt l1 < wt l)%nat → covers (show_type t ++ [TGt]) l1 l2 →
  takes (k t) d l2 Q l' → takes (inner ← m; _ ← expect_gt ">"; k inner) d l1 Q l'.
Proof.
  intros Ht Hok Hw Hc Hk. apply covers_app in Hc as (l3 & H1 & H2). eapply takes_step; [apply Ht; try done; by eapply gt_closes|].
  eapply takes_skip; [by apply takes_expect_gt|]. done.
Qed.
(** Two arguments between angle brackets. *)
Lemma takes_angle2 {B} t v ctx (k : LType → LType → P B) (Q : B → Prop) l1 l2 l' :
  reads_at t → reads_at v → type_ok t = true → type_ok v = true → (wt l1 < wt l)%nat →
  covers (show_type t ++ TComma :: show_type v ++ [TGt]) l1 l2 → takes (k t v) d l2 Q l' →
  takes (a ← m; _ ← expect TComma ctx; b ← m; _ ← expect_gt ">"; k a b) d l1 Q l'.
Proof.
  intros Ht Hv Hok Hokv Hw Hc Hk. apply covers_app in Hc as (l3 & H1 & H2). inversion H2 as [|? s ? l4 ? H3|]; subst.
  pose proof (covers_wt _ _ _ H1) as Hw1. unfold wt in *. cbn in Hw1.
  eapply takes_step; [apply Ht; try done; by apply closes_type|]. step1. eapply takes_angle; try done. unfold wt. lia.
Qed.
End type_forms.

Lemma commas_tail x ls : commas (x :: ls) = x ++ mjoin ((λ y, TComma :: y) <$> ls).
Proof. revert x. induction ls as [|y ls IH]; intros x; [by rewrite app_nil_r|]. rewrite commas_cons. by rewrite IH. Qed.

Lemma length_tail ts : (length ts <= length (mjoin ((λ y, TComma :: y) <$> (show_type <$> ts))))%nat.
Proof.
  induction ts as [|t ts IH]; [done|]. rewrite !fmap_cons.
  change (mjoin (?x :: ?l)) with (x ++ mjoin l). rewrite length_app. cbn [length]. lia.
Qed.
Definition tuple_turn (m : P LType) (types : list LType) : P (list LType + list LType) :=
  c ← advance_if TComma;
  if c : bool then b ← check TRParen; if b : bool then mret (inr types) else t ← m; mret (inl (types ++ [t])) else mret (inr types).
Lemma takes_tuple_tail m d l0 ts :
  Forall (reads_at m d l0) ts → forallb type_ok ts = true →
  ∀ acc f l s l', (wt l < wt l0)%nat → covers (mjoin ((λ y, TComma :: y) <$> (show_type <$> ts))) l ((TRParen, s) :: l') →
  (length ts < f)%nat → takes (loop_fuel f (tuple_turn m) acc) d l (eq (acc ++ ts)) ((TRParen, s) :: l').
Proof.
  induction 1 as [|t ts Ht _ IH]; intros Hok acc f l s l' Hw Hc Hf; (destruct f as [|f]; [cbn in Hf; lia|]); cbn in Hc.
  - inversion Hc; subst. rewrite app_nil_r. eapply takes_turn. unfold tuple_turn. step1. by apply takes_ret.
  - cbn in Hok. apply andb_true_iff in Hok as [Hok1 Hok2].
    inversion Hc as [|? sc ? l2 ? Hc2|]; subst. apply covers_app in Hc2 as (l3 & H1 & H2).
    destruct (covers_start _ _ _ H1) as (v & sv & lv & -> & Hv). pose proof (covers_wt _ _ _ H1) as Hw1.
    assert (∃ u su lu, l3 = (u, su) :: lu ∧ u ≠ TLt) as (u & su & lu & -> & Hu).
    { destruct ts; cbn in H2; inversion H2; subst; by eexists _, _, _. }
    eapply takes_turn. unfold tuple_turn. step1. step1. rewrite bool_decide_eq_false_2 by (by intros ->).
    eapply takes_step; [apply Ht; [|done..|by apply closes_type]|apply takes_ret]. { unfold wt in *. cbn in *. lia. }
    replace (acc ++ t :: ts) with ((acc ++ [t]) ++ ts) by (by rewrite <- app_assoc). apply IH; [done| |done|cbn in Hf; lia].
    unfold wt in *. cbn in *. lia.
Qed.

Lemma reads_all m d l0 ts : Forall (reads_at m d l0) ts → forallb type_ok ts = true →
  Forall (λ t, ∀ l l', covers (show_type t) l l' → type_end t l' → (wt l < wt l0)%nat → takes m d l (eq t) l') ts.
Proof.
  intros Hts Hok. apply Forall_forall. intros t Ht l1 l2 H1 H2 H3. rewrite Forall_forall in Hts. apply (Hts t Ht); try done.
  by eapply forallb_forall in Hok; [|by apply list_elem_of_In].
Qed.
Lemma takes_type_list_paren m d l0 ts l s l' :
  Forall (reads_at m d l0) ts → forallb type_ok ts = true → (wt l < wt l0)%nat →
  covers (commas (show_type <$> ts)) l ((TRParen, s) :: l') → takes (parse_type_list m TRParen) d l (eq ts) ((TRParen, s) :: l').
Proof.
  intros Hts Hok Hw Hc. apply takes_while. pose proof (covers_length _ _ _ Hc).
  apply (takes_type_list m _ (check TRParen) (λ u, bool_decide (u = TRParen)) d (wt l0)) with (acc := []);
    [| |by intros []|by apply reads_all|done|by apply bool_decide_eq_true_2|done..|unfold wt in *; lia|done].
  - intros u su lu Hu. case_bool_decide; [subst; apply takes_at|]. by apply takes_not_at.
  - intros. apply takes_check.
Qed.
Lemma takes_type_list_gt m d l0 ts l l1 l' :
  Forall (reads_at m d l0) ts → forallb type_ok ts = true → (wt l < wt l0)%nat →
  covers (commas (show_type <$> ts)) l l1 → covers [TGt] l1 l' → takes (parse_type_list_until_gt m) d l (eq ts) l1.
Proof.
  intros Hts Hok Hw Hc Hg. apply takes_while. pose proof (covers_length _ _ _ Hc).
  assert (∃ u s l2, l1 = (u, s) :: l2 ∧ is_gt u = true) as (u & s & l2 & -> & Hu) by (inversion Hg; subst; by eexists _, _, _).
  apply (takes_type_list m _ check_gt is_gt d (wt l0)) with (acc := []);
    [| |by intros []|by apply reads_all|done|done|by intros ->..|unfold wt in *; lia|done].
  - intros v sv lv Hv. eapply takes_step; [apply takes_check_gt|]. destruct (is_gt v); [by apply takes_ret|].
    eapply takes_step; [apply takes_check|]. rewrite bool_decide_eq_false_2 by done. by apply takes_ret.
  - intros. apply takes_check_gt.
Qed.

(** The forms of a type. *)
Lemma reads_tuple m d s0 l ts : Forall (reads_at m d ((TLParen, s0) :: l)) ts → ∀ l',
  type_ok (TyTuple ts) = true → covers (show_type (TyTuple ts)) ((TLParen, s0) :: l) l' →
  takes (parse_tuple_or_fn_type m) d ((TLParen, s0) :: l) (eq (TyTuple ts)) l'.
Proof.
  intros Hts l' Hok Hc. unfold parse_tuple_or_fn_type. step1.
  assert (covers (match ts with [t] => show_type t ++ [TComma; TRParen] | _ => commas (show_type <$> ts) ++ [TRParen] end) l l') as Hc1.
  { destruct ts as [|t [|t2 ts]]; cbn in Hc; by inversion Hc. }
  clear Hc. destruct ts as [|t ts]; [cbn in Hc1; covers_inv; step1; by apply takes_ret|].
  inversion Hts as [|? ? Ht Hts']; subst. cbn in Hok. apply andb_true_iff in Hok as [Hok1 Hok2].
  assert (∃ l1, covers (show_type t) l l1 ∧
    ((∃ s1 s2, ts = [] ∧ l1 = (TComma, s1) :: (TRParen, s2) :: l') ∨
     (ts ≠ [] ∧ covers (mjoin ((λ y, TComma :: y) <$> (show_type <$> ts)) ++ [TRParen]) l1 l'))) as (l1 & H1 & H2).
  { destruct ts as [|t2 ts].
    - apply covers_app in Hc1 as (l1 & H1 & H2). exists l1. split; [done|]. covers_inv. left. by eexists _, _.
    - rewrite fmap_cons, commas_tail, <- (app_assoc (show_type t)) in Hc1. apply covers_app in Hc1 as (l1 & H1 & H2).
      exists l1. split; [done|]. right. split; [done|]. exact H2. }
  destruct (covers_start _ _ _ H1) as (v & sv & lv & -> & Hv). pose proof (covers_wt _ _ _ H1) as Hw.
  eapply takes_step; [apply takes_advance_if_not; by intros ->|]. cbv iota.
  destruct H2 as [(s1 & s2 & -> & ->)|[Hne H2]].
  - eapply takes_step; [apply Ht; [unfold wt; cbn; lia|done..|by apply closes_type]|]. step1.
    eapply takes_step; [apply takes_loop|].
    { eapply takes_turn. step1. step1. by apply takes_ret. }
    step1. by apply takes_ret.
  - apply covers_app in H2 as (l2 & H2 & H3). inversion H3 as [|? s3 ? ? ? H4|]; subst. inversion H4; subst.
    assert (∃ sc l3, l1 = (TComma, sc) :: l3) as (sc & l3 & ->).
    { destruct ts; [done|]. cbn in H2. inversion H2; subst. by eexists _, _. }
    eapply takes_step; [apply Ht; [unfold wt; cbn; lia|done..|by apply closes_type]|]. step1.
    eapply takes_step; [apply takes_loop, (takes_tuple_tail m d ((TLParen, s0) :: (v, sv) :: lv) ts); try done|].
    + unfold wt in *. cbn in *. lia.
    + apply covers_wt in H2. pose proof (length_tail ts). unfold wt in *. lia.
    + step1. by apply takes_ret.
Qed.

Lemma reads_fn m d s0 l ps r : Forall (reads_at m d ((TFn, s0) :: l)) ps → reads_at m d ((TFn, s0) :: l) r → ∀ l',
  type_ok (TyFn ps r) = true → covers (show_type (TyFn ps r)) ((TFn, s0) :: l) l' → type_end r l' →
  takes (parse_fn_type m) d ((TFn, s0) :: l) (eq (TyFn ps r)) l'.
Proof.
  intros Hps Hr l' [Hok1 Hok2]%andb_true_iff Hc He. cbn in Hc. inversion Hc as [|? ? ? ? ? Hc1|]; subst.
  inversion Hc1 as [|? s1 ? l1 ? Hc2|]; subst. apply covers_app in Hc2 as (l2 & H1 & H2).
  inversion H2 as [|? s2 ? l3 ? H3|]; subst. inversion H3 as [|? s3 ? l4 ? H4|]; subst.
  pose proof (covers_wt _ _ _ H1) as Hw. unfold wt in Hw. cbn in Hw.
  unfold parse_fn_type. step1. step1.
  eapply takes_step; [eapply takes_type_list_paren; [done..| |done]; unfold wt; cbn; lia|]. step1. step1.
  eapply takes_step; [apply Hr; try done; unfold wt; cbn; lia|]. by apply takes_ret.
Qed.
Lemma reads_named m d s0 l name args : Forall (reads_at m d ((TIdentifier name, s0) :: l)) args → ∀ l',
  type_ok (TyNamed name args) = true → covers (show_type (TyNamed name args)) ((TIdentifier name, s0) :: l) l' →
  type_end (TyNamed name args) l' →
  takes (parse_named_type m name) d ((TIdentifier name, s0) :: l) (eq (TyNamed name args)) l'.
Proof.
  intros Hargs l' [Hok1%bool_decide_eq_true Hok2]%andb_true_iff Hc (u & s & l1 & -> & Hu). unfold parse_named_type. step1.
  rewrite Hok1. destruct args as [|a args].
  - cbn in Hc. covers_inv. step1. rewrite bool_decide_eq_false_2 by (by apply Hu). by apply takes_ret.
  - cbn in Hc. inversion Hc as [|? ? ? ? ? Hc1|]; subst. inversion Hc1 as [|? s1 ? l2 ? Hc2|]; subst.
    change (covers (commas (show_type <$> (a :: args)) ++ [TGt]) l2 ((u, s) :: l1)) in Hc2.
    apply covers_app in Hc2 as (l3 & H1 & H2). step1. cbn. unfold parse_generic_type_args.
    eapply takes_step; [|by apply takes_ret]. step1.
    eapply takes_step; [eapply takes_type_list_gt; [done..| |done|done]; unfold wt; cbn; lia|].
    eapply takes_skip; [by apply takes_expect_gt|]. intros. by apply takes_ret.
Qed.

Ltac enter_type :=
  match goal with H : covers (show_type _) ?l _ |- takes (recur_fuel _ _ _) _ ?l _ _ =>
    destruct (covers_start _ _ _ H) as (? & ? & ? & -> & ?);
    pose proof H as ?; cbn in H; inversion H; subst; try done;
    cbn [recur_fuel]; unfold type_step at 1, parse_type_body; step1; step1; cbn [primitive_type]; cbv iota
  end.
Ltac angle_type := match goal with H : covers (TLt :: _) _ _ |- _ => inversion H; clear H; subst end.
Lemma type_ok_2 {A} (f : A → bool) k v : f k && f v = true → f k = true ∧ f v = true.
Proof. by intros [? ?]%andb_true_iff. Qed.

Lemma type_parses t : reads_type t.
Proof.
  induction t as [t Hflat|t IH|t n IH|k v IHk IHv|k v IHk IHv|t IH|t IH|k v IHk IHv|ts IH|ps r IHp IHr|n ts IH] using LType_nested;
    intros f d l l' Hok Hc He Hf; (destruct f as [|f]; [lia|]);
    assert (∀ t, reads_type t → reads_at (recur_fuel f type_step ()) d l t) as Hsub
      by (intros ? Ht l1 l2 ????; apply Ht; [done..|lia]).
  - destruct t; try done; enter_type; covers_inv; try (step1; by apply takes_ret).
    + unfold parse_named_type. step1. rewrite bytes_name_parses by done. by apply takes_ret.
    + unfold parse_decimal_type. step1. step1. eapply takes_step; [apply takes_int_literal|].
      cbn in Hok. rewrite (proj2 (N.ltb_ge _ _)) by (by apply N.leb_le). step1. by apply takes_ret.
  - enter_type. angle_type. unfold parse_generic_wrapper_1. step1. step1.
    eapply takes_angle; [by apply Hsub|done| |done|by apply takes_ret]. unfold wt; cbn; lia.
  - enter_type. match goal with H : covers (_ ++ _) _ _ |- _ => apply covers_app in H as (l3 & H1 & H2) end.
    apply andb_true_iff in Hok as [Hok1 Hok2]. covers_inv. unfold parse_fixed_array_type. step1.
    eapply takes_step; [apply (Hsub _ IH); [unfold wt; cbn; lia|done..|by apply closes_type]|]. step1.
    eapply takes_step; [apply takes_int_literal|]. rewrite (proj2 (N.ltb_ge _ _)) by (by apply N.leb_le). step1. by apply takes_ret.
  - enter_type. angle_type. apply type_ok_2 in Hok as [Hok1 Hok2]. unfold parse_map_type. step1. step1.
    eapply takes_angle2; [apply (Hsub _ IHk)|apply (Hsub _ IHv)|done|done| |done|by apply takes_ret]. unfold wt; cbn; lia.
  - enter_type. angle_type. apply type_ok_2 in Hok as [Hok1 Hok2]. unfold parse_map_type. step1. step1.
    eapply takes_angle2; [apply (Hsub _ IHk)|apply (Hsub _ IHv)|done|done| |done|by apply takes_ret]. unfold wt; cbn; lia.
  - enter_type. angle_type. unfold parse_set_type. step1. step1.
    eapply takes_angle; [by apply Hsub|done| |done|by apply takes_ret]. unfold wt; cbn; lia.
  - enter_type. angle_type. unfold parse_option_type. step1. step1.
    eapply takes_angle; [by apply Hsub|done| |done|by apply takes_ret]. unfold wt; cbn; lia.
  - enter_type. angle_type. apply type_ok_2 in Hok as [Hok1 Hok2]. unfold parse_result_type. step1. step1.
    eapply takes_angle2; [apply (Hsub _ IHk)|apply (Hsub _ IHv)|done|done| |done|by apply takes_ret]. unfold wt; cbn; lia.
  - destruct (covers_start _ _ _ Hc) as (u & s & l1 & -> & _). assert (u = TLParen) as -> by (destruct ts as [|? []]; by inversion Hc).
    cbn [recur_fuel]. unfold type_step at 1, parse_type_body. step1. step1. cbn [primitive_type]. cbv iota.
    apply reads_tuple; [|done|done]. by eapply Forall_impl.
  - enter_type. apply reads_fn; [by eapply Forall_impl|by apply Hsub|done|done|done].
  - destruct (covers_start _ _ _ Hc) as (u & s & l1 & -> & _). assert (u = TIdentifier n) as -> by (destruct ts as [|? []]; by inversion Hc).
    cbn [recur_fuel]. unfold type_step at 1, parse_type_body. step1. step1. cbn [primitive_type]. cbv iota.
    apply reads_named; [by eapply Forall_impl|done|done|done].
Qed.

(** The type parser reads every printed type, also where the lexer has joined two
    closing brackets into [>>], at any depth of the expression around it. *)
Lemma parse_type_takes t d l l' :
  type_ok t = true → covers (show_type t) l l' → type_end t l' → takes parse_type d l (eq t) l'.
Proof. intros Hok Hc He. apply takes_recur. apply type_parses; [done..|lia]. Qed.
