(* ===== verification/ParserExprSpec.v ===== *)
(** * Printed expressions and the precedence ladder

    [show] prints an expression with parentheses only where its precedence needs
    them.  The ladder of the parser by levels: what a rule that reads a list of
    tokens does as an operand of the rules below it. *)
From stdpp Require Import strings.
From S2P Require Import Prelude LexToken Lexer LexerSpec LangAst Parser ParserExpr ParserDecl ParserTotal ParserSpec.

(** ** Printing *)

Definition unit_token (k : UnitKind) : Token :=
  match k with
  | Ether => TUnitEther | Gwei => TUnitGwei | Seconds => TUnitSeconds | Minutes => TUnitMinutes | Hours => TUnitHours | Days => TUnitDays
  end.
Definition unary_token (op : UnaryOp) : Token :=
  match op with UNot => TNot | UNeg => TMinus | UBitNot => TBitNot | URef => TBitAnd end.
Definition assign_token (op : AssignOp) : Token :=
  match op with
  | AAssign => TAssign | AAdd => TPlusAssign | ASub => TMinusAssign | AMul => TStarAssign | ADiv => TSlashAssign | ARem => TPercentAssign
  end.
(** The token of an operator and its level: the index of its rule on the ladder,
    assignment being 0, the operators of one token 2 to 12, powers 13, prefix
    operators 14, postfix forms 15, primaries 16. *)
Definition binary_token (op : BinaryOp) : Token :=
  match op with
  | BAdd => TPlus | BSub => TMinus | BMul => TStar | BDiv => TSlash | BRem => TPercent | BPow => TStarStar
  | BEq => TEq | BNotEq => TNotEq | BLt => TLt | BGt => TGt | BLtEq => TLtEq | BGtEq => TGtEq
  | BAnd => TAnd | BOr => TOr | BBitAnd => TBitAnd | BBitOr => TPipe | BBitXor => TBitXor | BShl => TShl | BShr => TShr
  | BNullish => TNullCoalesce
  end.
Definition binary_level (op : BinaryOp) : nat :=
  match op with
  | BNullish => 2 | BOr => 3 | BAnd => 4 | BBitOr => 5 | BBitXor => 6 | BBitAnd => 7 | BEq | BNotEq => 8
  | BLt | BGt | BLtEq | BGtEq => 9 | BShl | BShr => 10 | BAdd | BSub => 11 | BMul | BDiv | BRem => 12 | BPow => 13
  end.

(** The rule that reads the expression; the last branch of a ternary extends over
    an assignment, so it counts as one. *)
Definition own (e : Expr) : nat :=
  match e with
  | EAssign_ _ _ _ _ | ETernary _ _ _ _ => 0 | ENullish _ _ _ => 2 | EBinary op _ _ _ => binary_level op | EUnary _ _ _ => 14
  | ECast _ _ _ | ECall _ _ _ _ | EIndex _ _ _ | EMember _ _ _ => 15
  | _ => 16
  end.
(** A cast to a bare name would take a [<] after it for type arguments. *)
Definition bare (e : Expr) : bool := match e with ECast _ ty _ => bare_end ty | _ => false end.
(** The highest level at which the expression stands without parentheses. *)
Definition level (e : Expr) : nat :=
  match e with ECast _ ty _ => if bare_end ty then 8 else 15 | _ => own e end.

Definition show_literal (l : Lit) : list Token :=
  match l with
  | LInt n => [TIntLiteral n] | LIntTyped n suffix => [TIntLiteralTyped n suffix] | LHex s => [THexLiteral s] | LBin s => [TBinLiteral s]
  | LFloat s => [TFloatLiteral s] | LStr s => [TStringLiteral s] | LBytes b => [TBytesLiteral b] | LChar c => [TCharLiteral c]
  | LBool b => [TBoolLiteral b] | LAddress s => [TAddressLiteral s]
  | LUnit (ELiteral (LInt n) _) k => [TIntLiteral n; unit_token k]
  | LUnit (ELiteral (LIntTyped n suffix) _) k => [TIntLiteralTyped n suffix; unit_token k]
  | LUnit _ _ => []
  end.

Fixpoint show (k : nat) (e : Expr) : list Token :=
  let ts :=
    match e with
    | ELiteral l _ => show_literal l
    | EIdent name _ => [TIdentifier name]
    | ETuple [e] _ => TLParen :: show 0 e ++ [TComma; TRParen]
    | ETuple es _ => TLParen :: commas (show 0 <$> es) ++ [TRParen]
    | EArray es _ => TLBracket :: commas (show 0 <$> es) ++ [TRBracket]
    | ECall c _ args _ => show 15 c ++ TLParen :: commas (show_arg <$> args) ++ [TRParen]
    | EIndex b i _ => show 15 b ++ TLBracket :: show 0 i ++ [TRBracket]
    | EMember b name _ => show 15 b ++ [TDot; TIdentifier name]
    | EUnary op e _ => unary_token op :: show 14 e
    | EBinary BPow l r _ => show 14 l ++ TStarStar :: show 13 r
    | EBinary op l r _ => show (binary_level op) l ++ binary_token op :: show (S (binary_level op)) r
    | ENullish l r _ => show 2 l ++ TNullCoalesce :: show 3 r
    | ETernary c t e _ => show 2 c ++ TQuestionMark :: show 0 t ++ TColon :: show 0 e
    | ECast e ty _ => show 15 e ++ TAs :: show_type ty
    | EAssign_ l op r _ => show 1 l ++ assign_token op :: show 0 r
    | _ => []
    end in
  if (level e <? k)%nat then TLParen :: ts ++ [TRParen] else ts
with show_arg (a : CallArg) : list Token :=
  match a with Positional e => show 0 e | Named name e => TIdentifier name :: TColon :: show 0 e end.

(** How many expressions are open at once inside the printed one. *)
Fixpoint nest (k : nat) (e : Expr) : nat :=
  let m :=
    match e with
    | ETuple es _ | EArray es _ => list_max ((λ e, S (nest 0 e)) <$> es)
    | ECall c _ args _ => nest 15 c `max` list_max (nest_arg <$> args)
    | EIndex b i _ => nest 15 b `max` S (nest 0 i)
    | EMember b _ _ => nest 15 b
    | EUnary _ e _ => nest 14 e
    | EBinary BPow l r _ => nest 14 l `max` nest 13 r
    | EBinary op l r _ => nest (binary_level op) l `max` nest (S (binary_level op)) r
    | ENullish l r _ => nest 2 l `max` nest 3 r
    | ETernary c t e _ => nest 2 c `max` S (nest 0 t) `max` S (nest 0 e)
    | ECast e _ _ => nest 15 e
    | EAssign_ l _ r _ => nest 1 l `max` nest 0 r
    | _ => 0
    end%nat in
  if (level e <? k)%nat then S m else m
with nest_arg (a : CallArg) : nat := match a with Positional e | Named _ e => S (nest 0 e) end.

(** The expressions the printer knows: all but struct literals, constructor calls,
    call options, lambdas, [match], [if], templates and [?]. *)
Definition literal_ok (l : Lit) : bool :=
  match l with LUnit (ELiteral (LInt _ | LIntTyped _ _) _) _ => true | LUnit _ _ => false | _ => true end.
Fixpoint printable (e : Expr) : bool :=
  match e with
  | ELiteral l _ => literal_ok l
  | EIdent _ _ => true
  | ETuple es _ | EArray es _ => forallb printable es
  | ECall c None args _ => printable c && forallb printable_arg args
  | EIndex a b _ | ENullish a b _ | EAssign_ a _ b _ => printable a && printable b
  | EBinary op a b _ => negb (match op with BNullish => true | _ => false end) && printable a && printable b
  | EMember e _ _ | EUnary _ e _ => printable e
  | ECast e ty _ => printable e && type_ok ty
  | ETernary c t e _ => printable c && printable t && printable e
  | _ => false
  end
with printable_arg (a : CallArg) : bool := match a with Positional e | Named _ e => printable e end.

(** The same expression without its spans. *)
Definition no_span : Span := {| line := 0; col := 0; offset := 0; len := 0 |}.
Fixpoint strip (e : Expr) : Expr :=
  match e with
  | ELiteral l _ => ELiteral (strip_literal l) no_span
  | EIdent name _ => EIdent name no_span
  | ETuple es _ => ETuple (strip <$> es) no_span
  | EArray es _ => EArray (strip <$> es) no_span
  | ECall c opts args _ => ECall (strip c) opts (strip_arg <$> args) no_span
  | EIndex b i _ => EIndex (strip b) (strip i) no_span
  | EMember b name _ => EMember (strip b) name no_span
  | EUnary op e _ => EUnary op (strip e) no_span
  | EBinary op l r _ => EBinary op (strip l) (strip r) no_span
  | ENullish l r _ => ENullish (strip l) (strip r) no_span
  | ETernary c t e _ => ETernary (strip c) (strip t) (strip e) no_span
  | ECast e ty _ => ECast (strip e) ty no_span
  | EAssign_ l op r _ => EAssign_ (strip l) op (strip r) no_span
  | e => e
  end
with strip_arg (a : CallArg) : CallArg :=
  match a with Positional e => Positional (strip e) | Named name e => Named name (strip e) end
with strip_literal (l : Lit) : Lit := match l with LUnit e k => LUnit (strip e) k | l => l end.
Definition same (e e' : Expr) : Prop := strip e = strip e'.

(** ** Streams *)

Definition spells (ts : list Token) (l l' : list (Token * Span)) : Prop := ∃ tl, tl.*1 = ts ∧ l = tl ++ l'.

Lemma spells_nil l l' : spells [] l l' → l = l'.
Proof. intros (tl & H & ->). by destruct tl. Qed.
Lemma spells_cons t ts l l' : spells (t :: ts) l l' → ∃ s l1, l = (t, s) :: l1 ∧ spells ts l1 l'.
Proof. intros ([|[t' s] tl] & H & ->); [done|]. cbn in H. injection H as -> <-. exists s, (tl ++ l'). split; [done|]. by exists tl. Qed.
Lemma spells_app ts us l l' : spells (ts ++ us) l l' → ∃ l1, spells ts l l1 ∧ spells us l1 l'.
Proof.
  intros (tl & H & ->). apply fmap_app_inv in H as (t1 & t2 & -> & -> & ->). exists (t2 ++ l').
  split; [exists t1|exists t2]; by rewrite ?app_assoc.
Qed.
Lemma spells_wt ts l l' : spells ts l l' → (length ts + wt l' <= wt l)%nat.
Proof.
  intros (tl & <- & ->). induction tl as [|t tl IH]; [done|]. unfold wt in *. cbn. pose proof (token_weight_pos t). cbn in IH. lia.
Qed.
Lemma spells_covers ts l l' : spells ts l l' → covers ts l l'.
Proof. intros (tl & <- & ->). induction tl as [|[t s] tl IH]; cbn; by constructor. Qed.

(** The level of the rule that goes on at a token, 16 for the tokens that extend a
    primary. *)
Definition token_level (t : Token) : option nat :=
  match t with
  | TAssign | TPlusAssign | TMinusAssign | TStarAssign | TSlashAssign | TPercentAssign => Some 0
  | TQuestionMark => Some 1 | TNullCoalesce => Some 2 | TOr => Some 3 | TAnd => Some 4 | TPipe => Some 5 | TBitXor => Some 6
  | TBitAnd => Some 7 | TEq | TNotEq => Some 8 | TLt | TGt | TLtEq | TGtEq => Some 9 | TShl | TShr => Some 10
  | TPlus | TMinus => Some 11 | TStar | TSlash | TPercent => Some 12 | TStarStar => Some 13
  | TLParen | TLBracket | TDot | TAs => Some 15
  | TLBrace | TNewline | TFatArrow | TUnitEther | TUnitGwei | TUnitSeconds | TUnitMinutes | TUnitHours | TUnitDays => Some 16
  | _ => None
  end%nat.
Definition below (k : nat) (t : Token) : bool := match token_level t with Some j => (j <? k)%nat | None => true end.
(** What may stand after an expression of level [k]. *)
Definition follow (k : nat) (l : list (Token * Span)) : Prop :=
  ∃ t s l1, l = (t, s) :: l1 ∧ below k t = true ∧
    (t = TQuestionMark → ∃ u su l2, l1 = (u, su) :: l2 ∧ expr_start u = true).

Lemma below_mono j k t : (j <= k)%nat → below j t = true → below k t = true.
Proof. unfold below. destruct (token_level t); [|done]. rewrite !Nat.ltb_lt. lia. Qed.
Lemma follow_mono j k l : (j <= k)%nat → follow j l → follow k l.
Proof. intros Hjk (t & s & l1 & -> & H & Hq). eexists _, _, _. split_and!; [done|by eapply below_mono|done]. Qed.
Lemma follow_token k t s l : below k t = true → t ≠ TQuestionMark → follow k ((t, s) :: l).
Proof. intros Hb Hq. by eexists _, _, _. Qed.

Lemma show_eq k e : show k e = if (level e <? k)%nat then TLParen :: show 0 e ++ [TRParen] else show 0 e.
Proof. by destruct e. Qed.
Lemma nest_eq k e : nest k e = if (level e <? k)%nat then S (nest 0 e) else nest 0 e.
Proof. by destruct e. Qed.

(** A printed expression begins with a token that can begin one; above the level of
    prefix operators, with none of them. *)
Lemma show_literal_start l : literal_ok l = true → ∃ u us, show_literal l = u :: us ∧ expr_start u = true ∧ unary_op u = None.
Proof. destruct l as [| | | | | | | | | |[[] | | | | | | | | | | | | | | | | | | |]]; try done; intros _; by eexists _, _. Qed.
Definition starts (k : nat) (e : Expr) : Prop :=
  ∃ u us, show k e = u :: us ∧ expr_start u = true ∧ ((15 <= k)%nat ∨ (15 <= own e)%nat → unary_op u = None).
Lemma starts_body k e u us :
  show 0 e = u :: us → expr_start u = true → ((15 <= own e)%nat → unary_op u = None) →
  ((level e < k)%nat ∨ (15 <= own e)%nat ∨ (k <= 14)%nat) → starts k e.
Proof.
  intros Hu Hs Hn Hk. unfold starts. rewrite show_eq. destruct (Nat.ltb_spec (level e) k); [by eexists _, _|].
  exists u, us. split_and!; [done..|]. intros [|]; apply Hn; lia.
Qed.
Lemma starts_left k j e ts e0 :
  show 0 e = show j e0 ++ ts → starts j e0 → ((15 <= own e)%nat → j = 15%nat) →
  ((level e < k)%nat ∨ (15 <= own e)%nat ∨ (k <= 14)%nat) → starts k e.
Proof.
  intros He (u & us & Hu & Hs & Hn) Hj Hk. eapply starts_body; [by rewrite He, Hu|done| |done].
  intros Ho. apply Hn. left. rewrite (Hj Ho). lia.
Qed.
Lemma show_start e : printable e = true → ∀ k, starts k e.
Proof.
  induction e as [l s|name s|es s|es s| |c IHc opts args s|b IHb i _ s|b IHb name s|op e IHe s|op l IHl r _ s|c IHc t _ e _ s|
    l IHl r _ s| |e IHe ty s| | | | | |l IHl op r _ s]; try done; intros Hp k; cbn in Hp;
    repeat match goal with H : _ && _ = true |- _ => apply andb_true_iff in H as [H ?] end.
  - destruct (show_literal_start l Hp) as (u & us & Hu & Hs & Hn). eapply starts_body; [exact Hu|done|auto|cbn; lia].
  - eapply starts_body; [reflexivity|done|done|cbn; lia].
  - assert (∃ us, show 0 (ETuple es s) = TLParen :: us) as [us Hu] by (destruct es as [|? []]; by eexists).
    eapply starts_body; [exact Hu|done|done|cbn; lia].
  - eapply starts_body; [reflexivity|done|done|cbn; lia].
  - destruct opts; [done|]. apply andb_true_iff in Hp as [Hp _]. eapply starts_left; [reflexivity|by apply IHc|done|cbn; lia].
  - eapply starts_left; [reflexivity|by apply IHb|done|cbn; lia].
  - eapply starts_left; [reflexivity|by apply IHb|done|cbn; lia].
  - eapply starts_body; [reflexivity|by destruct op|cbn; lia|cbn; lia].
  - destruct op; try done; (eapply starts_left; [reflexivity|by apply IHl|cbn; lia|cbn; lia]).
  - eapply starts_left; [reflexivity|by apply IHc|cbn; lia|cbn; lia].
  - eapply starts_left; [reflexivity|by apply IHl|cbn; lia|cbn; lia].
  - eapply starts_left; [reflexivity|by apply IHe|done|cbn; lia].
  - eapply starts_left; [reflexivity|by apply IHl|cbn; lia|cbn; lia].
Qed.

(** ** The ladder *)

Ltac levels k := destruct k as [|[|[|[|[|[|[|[|[|[|[|[|[|[|[|[|k]]]]]]]]]]]]]]]]; try done.
Section ladder.
Context (I : list N → Span → option (result LangError Expr)) (R : Rec).

Definition lvl (k : nat) : P Expr :=
  match k with
  | 0 => parse_assignment I R | 1 => parse_ternary I R | 2 => parse_nullish I R | 3 => parse_logic_or I R | 4 => parse_logic_and I R
  | 5 => parse_bit_or I R | 6 => parse_bit_xor I R | 7 => parse_bit_and I R | 8 => parse_equality I R | 9 => parse_comparison I R
  | 10 => parse_shift I R | 11 => parse_addition I R | 12 => parse_multiplication I R | 13 => parse_exponent I R
  | 14 => parse_unary I R | 15 => parse_postfix I R | _ => parse_primary I R
  end%nat.

(** The recursive rules, one turn each. *)
Definition assign_step (rec : () → P Expr) (_ : ()) : P Expr :=
  lhs ← parse_ternary I R;
  t ← peek;
  match assign_op t with
  | None => mret lhs
  | Some op => _ ← advance; rhs ← rec (); mret (EAssign_ lhs op rhs (merge_with (expr_span lhs) (expr_span rhs)))
  end.
Definition exponent_step (rec : () → P Expr) (_ : ()) : P Expr :=
  lhs ← parse_unary I R;
  b ← check TStarStar;
  if negb b then mret lhs else
  _ ← advance; rhs ← rec (); mret (EBinary BPow lhs rhs (merge_with (expr_span lhs) (expr_span rhs))).
Definition unary_step (rec : () → P Expr) (_ : ()) : P Expr :=
  start ← peek_span;
  t ← peek;
  match unary_op t with
  | None => parse_postfix I R
  | Some op => _ ← advance; operand ← rec (); mret (EUnary op operand (merge_with start (expr_span operand)))
  end.
Definition lvlf (k f : nat) : P Expr :=
  match k with
  | 0 => recur_fuel f assign_step () | 13 => recur_fuel f exponent_step () | 14 => recur_fuel f unary_step () | _ => lvl k
  end%nat.
Lemma takes_lvl k d l (Q : Expr → Prop) l' : (∀ f, (wt l < f)%nat → takes (lvlf k f) d l Q l') → takes (lvl k) d l Q l'.
Proof.
  intros H. specialize (H (S (wt l)) (Nat.lt_succ_diag_r _)).
  levels k; first [exact H|exact (takes_recur _ _ _ _ _ _ H)].
Qed.

(** The left-associative rules, one turn of their loop. *)
Definition node_of (k : nat) (t : Token) : option (Expr → Expr → Span → Expr) :=
  match k with
  | 2 => (λ _, ENullish) <$> nullish_op t | 3 => EBinary <$> or_op t | 4 => EBinary <$> and_op t | 5 => EBinary <$> bit_or_op t
  | 6 => EBinary <$> bit_xor_op t | 7 => EBinary <$> bit_and_op t | 8 => EBinary <$> equality_op t | 9 => EBinary <$> comparison_op t
  | 10 => EBinary <$> shift_op t | 11 => EBinary <$> addition_op t | 12 => EBinary <$> multiplication_op t | _ => None
  end%nat.
Definition turn_of {Op} (op_of : Token → option Op) (node : Op → Expr → Expr → Span → Expr) (next : P Expr) (lhs : Expr) : P (Expr + Expr) :=
  t ← peek;
  match op_of t with
  | None => mret (inr lhs)
  | Some op => _ ← advance; rhs ← next; mret (inl (node op lhs rhs (merge_with (expr_span lhs) (expr_span rhs))))
  end.
Definition turn (k : nat) : Expr → P (Expr + Expr) :=
  match k with
  | 2 => turn_of nullish_op (λ _, ENullish) (lvl 3) | 3 => turn_of or_op EBinary (lvl 4) | 4 => turn_of and_op EBinary (lvl 5)
  | 5 => turn_of bit_or_op EBinary (lvl 6) | 6 => turn_of bit_xor_op EBinary (lvl 7) | 7 => turn_of bit_and_op EBinary (lvl 8)
  | 8 => turn_of equality_op EBinary (lvl 9) | 9 => turn_of comparison_op EBinary (lvl 10) | 10 => turn_of shift_op EBinary (lvl 11)
  | 11 => turn_of addition_op EBinary (lvl 12) | 12 => turn_of multiplication_op EBinary (lvl 13) | _ => postfix_step R
  end%nat.
Definition loopy (k : nat) : bool := ((2 <=? k) && (k <=? 12) || (k =? 15))%nat.

Lemma lvl_loop k : loopy k = true → lvl k = (lhs ← lvl (S k); loop (turn k) lhs).
Proof. intros Hk. levels k. Qed.
Lemma turn_stops k e d t s l : loopy k = true → k ≠ 15%nat → below k t = true →
  takes (turn k e) d ((t, s) :: l) (eq (inr e)) ((t, s) :: l).
Proof.
  intros Hk H15 Hb. levels k; cbn [turn]; unfold turn_of; step1; destruct t; try done; by apply takes_ret.
Qed.
Lemma turn_joins k mk t e d s l (Q : Expr → Prop) l' : loopy k = true → node_of k t = Some mk →
  takes (lvl (S k)) d l Q l' →
  takes (turn k e) d ((t, s) :: l) (λ x, ∃ r sp, x = inl (mk e r sp) ∧ Q r) l'.
Proof.
  intros Hk Hn Hr. levels k; cbn [turn node_of] in *; unfold turn_of; step1;
    match type of Hn with _ <$> ?o = _ => destruct o; [|done] end; injection Hn as <-; step1;
    (eapply takes_bind; [exact Hr|]; intros y Hy; apply takes_ret; eauto).
Qed.

(** The rule [k] reads [ts] as [e]; when [op], no [<] may follow. *)
Definition not_lt (op : bool) (l : list (Token * Span)) : Prop := op = true → ∀ s l1, l ≠ (TLt, s) :: l1.
Definition gets (k : nat) (ts : list Token) (op : bool) (e : Expr) (d : N) : Prop :=
  ∀ l l', spells ts l l' → follow k l' → not_lt op l' → ∀ f, (wt l < f)%nat → takes (lvlf k f) d l (same e) l'.
(** The loop of the rule [k] comes to stand after [ts] with [e] in its hand. *)
Definition reach (k : nat) (ts : list Token) (op : bool) (e : Expr) (d : N) : Prop :=
  ∀ l l', spells ts l l' → follow (S k) l' → not_lt op l' → ∀ b g, ∃ b' g' f e', (wt l' < f)%nat ∧
    lvl k (cur b l g d) = loop_fuel f (turn k) e' (cur b' l' g' d) ∧ same e e'.

Lemma gets_lvl k ts op e d l l' : gets k ts op e d → spells ts l l' → follow k l' → not_lt op l' → takes (lvl k) d l (same e) l'.
Proof. intros H ???. apply takes_lvl. intros f Hf. by apply H. Qed.

Lemma postfix_stops e d l : follow 15 l → takes (postfix_step R e) d l (eq (inr e)) l.
Proof.
  intros (t & s & l1 & -> & Hb & Hq). unfold postfix_step. eapply takes_skip; [apply takes_skip_newlines; by intros ->|intros _].
  step1. destruct t; try done; try (by apply takes_ret). destruct (Hq eq_refl) as (u & su & l2 & -> & Hu).
  eapply (takes_step _ _ _ _ true); [|by apply takes_ret]. eapply (takes_step _ _ _ _ u); [|by rewrite <- Hu; apply takes_ret].
  intros b g. exists b, g, u. split; [|done]. unfold peek_nth_non_newline. cbn [rest cur].
  rewrite filter_cons_True by done. rewrite filter_cons_True by (by destruct u). done.
Qed.
Lemma turn_ends k e d l : loopy k = true → follow k l → takes (turn k e) d l (eq (inr e)) l.
Proof.
  intros Hk Hl. destruct (decide (k = 15)%nat) as [->|Hn]; [by apply postfix_stops|].
  destruct Hl as (t & s & l1 & -> & Hb & _). by apply turn_stops.
Qed.

Lemma reach_next k ts op e d : loopy k = true → gets (S k) ts op e d → reach k ts op e d.
Proof.
  intros Hk H l l' Hs Hf Ho b g. rewrite lvl_loop by done.
  destruct (gets_lvl (S k) ts op e d l l' H Hs Hf Ho b g) as (b' & g' & e' & E & He).
  exists b', g', (S (wt l')), e'. split_and!; [lia| |done]. unfold mbind, P_bind, pbind. by rewrite E.
Qed.
Lemma reach_gets k ts op e d : loopy k = true → reach k ts op e d → gets k ts op e d.
Proof.
  intros Hk H l l' Hs Hf Ho f _. assert (lvlf k f = lvl k) as -> by (levels k).
  intros b g. destruct (H l l' Hs ltac:(by eapply follow_mono; [|done]; lia) Ho b g) as (b1 & g1 & f1 & e' & Hf1 & -> & He).
  destruct f1 as [|f1]; [lia|]. destruct (turn_ends k e' d l' Hk Hf b1 g1) as (b2 & g2 & x & E & <-).
  exists b2, g2, e'. cbn [loop_fuel]. by rewrite E.
Qed.
Lemma reach_join k ts op l0 t mk us op' r d sp :
  loopy k = true → reach k ts op l0 d → node_of k t = Some mk → (op = true → t ≠ TLt) → gets (S k) us op' r d →
  reach k (ts ++ t :: us) op' (mk l0 r sp) d.
Proof.
  intros Hk Hl Hmk Hop Hr l l' Hs Hf Ho b g. apply spells_app in Hs as (l1 & Hs1 & Hs2). apply spells_cons in Hs2 as (s & l2 & -> & Hs2).
  assert (below (S k) t = true ∧ t ≠ TQuestionMark ∧ ∀ a b a' b' s s', same a a' → same b b' → same (mk a b s) (mk a' b' s'))
    as (Hb & Hq & Hsame).
  { unfold same. levels k; destruct t; try done; injection Hmk as <-; (split_and!; [done..|]); intros; cbn; congruence. }
  destruct (Hl l _ Hs1 (follow_token _ _ _ _ Hb Hq)) with (b := b) (g := g) as (b1 & g1 & f1 & l0' & Hf1 & -> & He);
    [intros H ?? [= -> -> ->]; by apply Hop in H|].
  destruct f1 as [|f1]; [lia|]. cbn [loop_fuel].
  destruct (turn_joins k mk t l0' d s l2 (same r) l' Hk Hmk (gets_lvl _ _ _ _ _ _ _ Hr Hs2 Hf Ho) b1 g1)
    as (b2 & g2 & x & E & r' & sp' & -> & Hr').
  rewrite E. exists b2, g2, f1, (mk l0' r' sp'). split_and!; [|done|by apply Hsame].
  apply spells_wt in Hs2. unfold wt in *. cbn in Hf1. pose proof (token_weight_pos (t, s)). lia.
Qed.

Lemma gets_descend k ts op e d :
  (k < 16)%nat → (k = 14%nat → ∃ u us, ts = u :: us ∧ unary_op u = None) → gets (S k) ts op e d → gets k ts op e d.
Proof.
  intros Hk Hu H. destruct (loopy k) eqn:Hl; [by apply reach_gets, reach_next|].
  intros l l' Hs Hf Ho f Hw. assert (follow (S k) l') as Hf' by (eapply follow_mono; [|done]; lia).
  destruct Hf as (t & s & l1 & -> & Hb & Hq). pose proof (gets_lvl _ _ _ _ _ _ _ H Hs Hf' Ho) as Ht. destruct f as [|f]; [lia|].
  assert (k = 0 ∨ k = 1 ∨ k = 13 ∨ k = 14)%nat as [-> | [-> | [-> | ->]]] by (levels k; lia); cbn [lvlf recur_fuel lvl] in *.
  - eapply takes_bind; [exact Ht|]. intros e' He. step1. destruct t; try done; by apply takes_ret.
  - eapply takes_bind; [exact Ht|]. intros e' He. step1. rewrite bool_decide_eq_false_2 by (by intros ->). by apply takes_ret.
  - eapply takes_bind; [exact Ht|]. intros e' He. step1. rewrite bool_decide_eq_false_2 by (by intros ->). by apply takes_ret.
  - destruct (Hu eq_refl) as (u & us & -> & Hn). apply spells_cons in Hs as (su & l2 & -> & _).
    unfold unary_step at 1. step1. step1. by rewrite Hn.
Qed.
Lemma gets_down j k ts op e d :
  (k <= j)%nat → (j <= 16)%nat → ((14 < j)%nat → ∃ u us, ts = u :: us ∧ unary_op u = None) → gets j ts op e d → gets k ts op e d.
Proof.
  intros Hkj Hj Hu H. remember (j - k)%nat as n eqn:Hn. revert k Hkj Hn. induction n as [|n IH]; intros k Hkj Hn.
  - by replace k with j by lia.
  - apply gets_descend; [lia|intros ->; apply Hu; lia|]. apply IH; lia.
Qed.
End ladder.
