(* ===== verification/ParserRoundTrip.v ===== *)
(** * Printed expressions are read back

    [parse_expr] reads the tokens of [show] back, up to spans, when the expression
    is not nested deeper than the parser allows; with the lexer, so does the
    function that lexes and parses a source text. *)
From stdpp Require Import strings.
From S2P Require Import Prelude LexToken Lexer LexerSpec LangAst Parser ParserExpr ParserDecl ParserTotal ParserSpec ParserExprSpec.

(** ** Lists of expressions *)

Lemma takes_comma_list {A} (item : P A) (sh : A → list Token) (Q : A → A → Prop) c d xs :
  Forall (λ x, (∃ u us, sh x = u :: us ∧ u ≠ c ∧ u ≠ TEof) ∧
    ∀ l t s l1, spells (sh x) l ((t, s) :: l1) → t = TComma ∨ t = c → takes item d l (Q x) ((t, s) :: l1)) xs →
  c ≠ TComma → ∀ l s l1, spells (commas (sh <$> xs)) l ((c, s) :: l1) →
  takes (comma_list c item) d l (Forall2 Q xs) ((c, s) :: l1).
Proof.
  intros Hxs Hc l s l1 Hl. apply takes_while.
  assert (length xs < S (wt l))%nat as Hf.
  { apply spells_wt in Hl. enough (length xs <= length (commas (sh <$> xs)))%nat by lia. clear -Hxs.
    induction Hxs as [|x xs [(u & us & Hu & _) _] _ IH]; [done|]. rewrite fmap_cons, commas_cons, Hu. destruct xs; [cbn; lia|].
    cbn [fmap list_fmap] in *. rewrite length_app. cbn in *. lia. }
  revert Hf. generalize (S (wt l)) as f. intros f Hf.
  apply (takes_weak _ _ _ (λ r, ∃ ys, r = [] ++ ys ∧ Forall2 Q xs ys)); [|by intros ? (? & -> & ?)].
  revert l f Hl Hf. generalize (@nil A) as acc. induction Hxs as [|x xs [(u & us & Hu & Huc & Hue) Hx] _ IH]; intros acc l f Hl Hf;
    (destruct f as [|f]; [cbn in Hf; lia|]).
  - apply spells_nil in Hl as ->. eapply takes_weak; [apply takes_push_stop, takes_at|]. intros ? <-. exists []. by rewrite app_nil_r.
  - rewrite fmap_cons, commas_cons in Hl. assert (∃ su l2, l = (u, su) :: l2) as (su & l2 & ->).
    { rewrite Hu in Hl. destruct (sh <$> xs); apply spells_cons in Hl as (? & ? & -> & _); by eexists _, _. }
    destruct xs as [|y xs].
    + eapply (takes_push_last _ _ _ _ _ _ (Q x)); [by apply takes_not_at| |].
      * eapply takes_bind; [apply Hx; [exact Hl|by right]|]. intros x' Hx'. step1. by apply takes_ret.
      * intros x' Hx'. exists [x']. split; [done|]. by repeat constructor.
    + cbn [fmap list_fmap] in Hl. apply spells_app in Hl as (l3 & Hl1 & Hl2). apply spells_cons in Hl2 as (sc & l4 & -> & Hl2).
      eapply (takes_push_more _ _ _ _ _ _ (Q x)); [by apply takes_not_at| |].
      * eapply takes_bind; [apply Hx; [exact Hl1|by left]|]. intros x' Hx'. step1. by apply takes_ret.
      * intros x' Hx'. eapply takes_weak; [apply IH; [exact Hl2|cbn in Hf |- *; lia]|]. intros r (ys & -> & Hys).
        exists (x' :: ys). rewrite <- app_assoc. split; [done|]. by constructor.
Qed.

(** ** Expressions *)

Section expressions.
Context (I : list N → Span → option (result LangError Expr)) (n : nat).
Let R : Rec := rounds I n.

(** The depth left for the expression, in rounds and in the limit of the parser. *)
Definition room (k : nat) (e : Expr) (d : N) : Prop := (nest k e <= n)%nat ∧ d + N.of_nat (nest k e) <= MAX_EXPR_DEPTH.
Context (IHn : ∀ e d l l', printable e = true → (S (nest 0 e) <= n)%nat → d + N.of_nat (S (nest 0 e)) <= MAX_EXPR_DEPTH →
  spells (show 0 e) l l' → follow 0 l' → takes (rec_expr R) d l (same e) l').

Lemma looked_call_opts d t s l : takes is_call_opts_block d ((t, s) :: l) (λ _, True) ((t, s) :: l).
Proof.
  assert (∀ i, takes (peek_nth_non_newline i) d ((t, s) :: l) (λ _, True) ((t, s) :: l)) as H.
  { intros i b g. unfold peek_nth_non_newline, or_last, last_token. cbn [rest cur].
    destruct (filter _ _ !! i) as [x|]; [by exists b, g, x.1|].
    destruct (last ((t, s) :: l)) as [x|] eqn:E; [by exists b, g, x.1|]. by apply last_None in E. }
  unfold is_call_opts_block. eapply takes_skip; [apply H|]. intros. eapply takes_skip; [apply H|]. intros. by apply takes_ret.
Qed.

(** An expression inside brackets. *)
Lemma inner_takes e d l t s l1 :
  printable e = true → (S (nest 0 e) <= n)%nat → d + N.of_nat (S (nest 0 e)) <= MAX_EXPR_DEPTH →
  token_level t = None → spells (show 0 e) l ((t, s) :: l1) → takes (rec_expr R) d l (same e) ((t, s) :: l1).
Proof. intros ??? Ht Hs. apply IHn; try done. apply follow_token; [unfold below; by rewrite Ht|by intros ->]. Qed.

Lemma list_max_room {A} (f : A → nat) xs m x : x ∈ xs → (list_max (f <$> xs) <= m)%nat → (f x <= m)%nat.
Proof. intros Hx H%list_max_le. rewrite Forall_fmap, Forall_forall in H. by apply H. Qed.

Lemma same_list es es' : Forall2 same es es' → strip <$> es = strip <$> es'.
Proof. induction 1 as [|e e' es es' H _ IH]; [done|]. cbn. unfold same in H. rewrite H. f_equal. exact IH. Qed.

Lemma takes_exprs c es d l s l1 :
  forallb printable es = true → (list_max ((λ e, S (nest 0 e)) <$> es) <= n)%nat →
  d + N.of_nat (list_max ((λ e, S (nest 0 e)) <$> es)) <= MAX_EXPR_DEPTH → c ≠ TComma → token_level c = None → expr_start c = false →
  spells (commas (show 0 <$> es)) l ((c, s) :: l1) →
  takes (comma_list c (rec_expr R)) d l (Forall2 same es) ((c, s) :: l1).
Proof.
  intros Hp Hn Hd Hc Hct Hcs Hs. eapply (takes_comma_list _ (show 0)); [|done|done]. apply Forall_forall. intros e He.
  assert (printable e = true) as Hpe by (eapply forallb_forall in Hp; [done|by apply list_elem_of_In]).
  pose proof (list_max_room (λ e, S (nest 0 e)) es _ e He Hn) as Hne. cbn beta in Hne.
  pose proof (list_max_room (λ e, S (nest 0 e)) es _ e He (le_n _)) as Hne2. cbn beta in Hne2. split.
  - destruct (show_start e Hpe 0) as (u & us & -> & Hu & _). exists u, us. split_and!; [done|intros ->; congruence|by intros ->].
  - intros l2 t s2 l3 Hl2 Ht. apply inner_takes; [done|done|lia| |done]. by destruct Ht as [->| ->].
Qed.

(** *** Primaries *)

Ltac head16 H := destruct H as (?t & ?s & ?l & -> & ?Hb & _).
Lemma enter_primary d t s l (Q : Expr → Prop) l' m : t ≠ TNewline →
  match parse_literal_primary t with
  | Some m => m
  | None => match t with
      | TTemplateLiteral segs => parse_template_literal I segs
      | TNew => parse_new_expr R | TLParen => parse_paren_or_tuple R | TLBracket => parse_array_literal R
      | TIdentifier name => parse_ident_or_struct_or_lambda R name
      | TFrom => span ← peek_span; _ ← advance; mret (EIdent (text "from") span)
      | TSelfKw => span ← peek_span; _ ← advance; mret (EIdent (text "self") span)
      | TMatch => parse_match_expr R | TIf => parse_if_expr R
      | _ => error_expected ["expression"%string] (UnexpectedInExpression t)
      end
  end = m → takes m d ((t, s) :: l) Q l' → takes (parse_primary I R) d ((t, s) :: l) Q l'.
Proof. intros Hn <- H. unfold parse_primary. step1. step1. exact H. Qed.

Lemma no_unit_suffix base sp d l (Q : Expr → Prop) : follow 16 l → Q base → takes (try_parse_unit_suffix base sp) d l Q l.
Proof.
  intros (t & s & l1 & -> & Hb & _) HQ. unfold try_parse_unit_suffix. step1. destruct t; try done; by apply takes_ret.
Qed.
Lemma gets_literal lit sp d : literal_ok lit = true → gets I R 16 (show_literal lit) false (ELiteral lit sp) d.
Proof.
  intros Hok l l' Hs Hf _ f _. cbn [lvlf lvl].
  destruct lit as [| | | | | | | | | |[[] | | | | | | | | | | | | | | | | | | |] k]; try done; cbn [show_literal] in Hs;
    repeat match goal with
    | H : spells (_ :: _) _ _ |- _ => apply spells_cons in H as (? & ? & -> & H)
    | H : spells [] _ _ |- _ => apply spells_nil in H as -> end;
    (eapply enter_primary; [done|reflexivity|]); step1; step1; first [by apply no_unit_suffix | by apply takes_ret | idtac].
  all: unfold try_parse_unit_suffix; step1; destruct k; cbn [unit_token unit_kind]; step1; step1; by apply takes_ret.
Qed.
Lemma gets_ident name sp d : gets I R 16 [TIdentifier name] false (EIdent name sp) d.
Proof.
  intros l l' Hs Hf _ f _. cbn [lvlf lvl]. apply spells_cons in Hs as (s & l1 & -> & ->%spells_nil).
  destruct Hf as (t & s1 & l2 & -> & Hb & _). eapply enter_primary; [done|reflexivity|].
  unfold parse_ident_or_struct_or_lambda. step1. step1. step1. rewrite bool_decide_eq_false_2 by (by intros ->). step1.
  rewrite bool_decide_eq_false_2 by (by intros ->). eapply takes_skip; [apply looked_call_opts|]. intros o. by apply takes_ret.
Qed.
Lemma gets_parens e d : printable e = true → (S (nest 0 e) <= n)%nat → d + N.of_nat (S (nest 0 e)) <= MAX_EXPR_DEPTH →
  gets I R 16 (TLParen :: show 0 e ++ [TRParen]) false e d.
Proof.
  intros Hp Hn Hd l l' Hs Hf _ f _. cbn [lvlf lvl]. apply spells_cons in Hs as (s & l1 & -> & Hs).
  apply spells_app in Hs as (l2 & Hs1 & Hs2). apply spells_cons in Hs2 as (s2 & l3 & -> & ->%spells_nil).
  destruct (show_start e Hp 0) as (u & us & Hu & Hst & _). pose proof Hs1 as Hs3. rewrite Hu in Hs3.
  apply spells_cons in Hs3 as (su & l4 & -> & _). destruct Hf as (t & s1 & l5 & -> & Hb & _).
  eapply enter_primary; [done|reflexivity|]. unfold parse_paren_or_tuple. step1. step1.
  rewrite bool_decide_eq_false_2 by (by intros ->). eapply takes_bind; [by eapply inner_takes with (5 := Hs1)|]. intros e' He. step1. step1. step1.
  rewrite bool_decide_eq_false_2 by (by intros ->). by apply takes_ret.
Qed.
Lemma gets_array es sp d : forallb printable es = true → room 0 (EArray es sp) d →
  gets I R 16 (TLBracket :: commas (show 0 <$> es) ++ [TRBracket]) false (EArray es sp) d.
Proof.
  intros Hp [Hn Hd] l l' Hs Hf _ f _. cbn [lvlf lvl]. apply spells_cons in Hs as (s & l1 & -> & Hs).
  apply spells_app in Hs as (l2 & Hs1 & Hs2). apply spells_cons in Hs2 as (s2 & l3 & -> & ->%spells_nil).
  eapply enter_primary; [done|reflexivity|]. unfold parse_array_literal. step1.
  eapply takes_bind; [by eapply takes_exprs with (7 := Hs1)|]. intros es' Hes. step1. apply takes_ret. unfold same. cbn. by rewrite (same_list _ _ Hes).
Qed.
Lemma gets_tuple es sp d : forallb printable es = true → room 0 (ETuple es sp) d →
  gets I R 16 (show 0 (ETuple es sp)) false (ETuple es sp) d.
Proof.
  intros Hp [Hn Hd] l l' Hs Hf _ f _. cbn [lvlf lvl]. destruct Hf as (t & s1 & l5 & -> & Hb & _). destruct es as [|e es].
  { cbn in Hs. apply spells_cons in Hs as (s & l1 & -> & Hs). apply spells_cons in Hs as (s2 & l2 & -> & <-%spells_nil).
    eapply enter_primary; [done|reflexivity|]. unfold parse_paren_or_tuple. step1. step1. rewrite bool_decide_eq_true_2 by done.
    step1. by apply takes_ret. }
  assert (show 0 (ETuple (e :: es) sp) = TLParen :: show 0 e ++ TComma :: commas (show 0 <$> es) ++ [TRParen]) as E.
  { destruct es; [done|]. cbn. by rewrite <- app_assoc. }
  rewrite E in Hs. clear E. apply spells_cons in Hs as (s & l1 & -> & Hs). apply spells_app in Hs as (l2 & Hs1 & Hs2).
  apply spells_cons in Hs2 as (s2 & l3 & -> & Hs2). apply spells_app in Hs2 as (l4 & Hs2 & Hs3).
  apply spells_cons in Hs3 as (s3 & l6 & -> & ->%spells_nil).
  cbn in Hp. apply andb_true_iff in Hp as [Hpe Hpes]. 
  assert (nest 0 (ETuple (e :: es) sp) = S (nest 0 e) `max` list_max ((λ e, S (nest 0 e)) <$> es))%nat as Hm by done.
  rewrite Hm in Hn, Hd.
  destruct (show_start e Hpe 0) as (u & us & Hu & Hst & _). pose proof Hs1 as Hs3. rewrite Hu in Hs3.
  apply spells_cons in Hs3 as (su & l7 & -> & _).
  eapply enter_primary; [done|reflexivity|]. unfold parse_paren_or_tuple. step1. step1.
  rewrite bool_decide_eq_false_2 by (by intros ->). eapply takes_bind; [eapply inner_takes with (5 := Hs1); [done|lia|lia|done]|].
  intros e' He. step1. eapply takes_bind; [eapply takes_exprs with (7 := Hs2); try done; lia|]. intros es' Hes. step1. step1.
  rewrite bool_decide_eq_false_2 by (by intros ->). step1. apply takes_ret.
  unfold same in *. cbn. rewrite He. f_equal. f_equal. apply (same_list _ _ Hes).
Qed.

(** *** Postfix forms *)

Lemma reach_post ts op b e u us op' d :
  reach I R 15 ts op b d → below 16 u = true → u ≠ TQuestionMark → (op = true → u ≠ TLt) →
  (∀ l l' b', spells (u :: us) l l' → follow 16 l' → not_lt op' l' → same b b' →
    takes (postfix_step R b') d l (λ x, ∃ e', x = inl e' ∧ same e e') l') →
  reach I R 15 (ts ++ u :: us) op' e d.
Proof.
  intros Hr Hu Hq Hop Hp l l' Hs Hf Ho b0 g. apply spells_app in Hs as (l1 & Hs1 & Hs2).
  pose proof Hs2 as Hs3. apply spells_cons in Hs3 as (s & l2 & -> & Hs3).
  destruct (Hr l _ Hs1 (follow_token _ _ _ _ Hu Hq)) with (b := b0) (g := g) as (b1 & g1 & f1 & b' & Hf1 & -> & He);
    [intros H ?? [= -> -> ->]; by apply Hop in H|].
  destruct f1 as [|f1]; [lia|]. cbn [loop_fuel turn].
  destruct (Hp _ l' b' Hs2 Hf Ho He b1 g1) as (b2 & g2 & x & E & e' & -> & He').
  rewrite E. exists b2, g2, f1, e'. split_and!; [|done|done]. apply spells_wt in Hs2. cbn [length] in Hs2. lia.
Qed.

Ltac enter_postfix := unfold postfix_step; (eapply takes_skip; [apply takes_skip_newlines; done|intros _]); step1; cbv iota zeta.
Ltac spell :=
  repeat match goal with
  | H : spells (_ :: _) _ _ |- _ => apply spells_cons in H as (? & ? & -> & H)
  | H : spells [] _ _ |- _ => apply spells_nil in H as ->
  end.

Lemma reach_member b name sp d : reach I R 15 (show 15 b) false b d → reach I R 15 (show 15 b ++ [TDot; TIdentifier name]) false (EMember b name sp) d.
Proof.
  intros Hr. eapply reach_post; [done..|]. intros l l' b' Hs Hf _ Hb. spell. destruct Hf as (t & s1 & l5 & -> & _).
  enter_postfix. step1. eapply (takes_step _ _ _ _ name).
  { unfold expect_identifier. step1. cbv iota. step1. by apply takes_ret. }
  eapply takes_skip; [eapply takes_skip; [apply takes_prev_span|intros; by apply takes_ret]|]. intros span.
  apply takes_ret. eexists. split; [done|]. unfold same in *. cbn. by rewrite Hb.
Qed.
Lemma reach_index b i sp d : printable i = true → room 0 (EIndex b i sp) d → reach I R 15 (show 15 b) false b d →
  reach I R 15 (show 15 b ++ TLBracket :: show 0 i ++ [TRBracket]) false (EIndex b i sp) d.
Proof.
  intros Hp [Hn Hd] Hr. assert (nest 0 (EIndex b i sp) = nest 15 b `max` S (nest 0 i))%nat as Hm by done. rewrite Hm in Hn, Hd.
  eapply reach_post; [done..|]. intros l l' b' Hs Hf _ Hb. spell. apply spells_app in Hs as (l2 & Hs1 & Hs). spell.
  destruct Hf as (t & s1 & l5 & -> & _). enter_postfix. step1.
  eapply takes_bind; [eapply inner_takes with (5 := Hs1); [done|lia|lia|done]|]. intros i' Hi. step1.
  eapply takes_skip; [eapply takes_skip; [apply takes_prev_span|intros; by apply takes_ret]|]. intros span.
  apply takes_ret. eexists. split; [done|]. unfold same in *. cbn. by rewrite Hb, Hi.
Qed.
Lemma reach_cast e ty sp d : type_ok ty = true → reach I R 15 (show 15 e) false e d →
  reach I R 15 (show 15 e ++ TAs :: show_type ty) (bare_end ty) (ECast e ty sp) d.
Proof.
  intros Hok Hr. eapply reach_post; [done..|]. intros l l' b' Hs Hf Ho Hb. spell. destruct Hf as (t & s1 & l5 & -> & _).
  enter_postfix. step1. eapply takes_step; [eapply parse_type_takes; [done|by apply spells_covers|]|].
  { eexists _, _, _. split; [done|]. intros Hbe ->. by eapply Ho. }
  eapply takes_skip; [eapply takes_skip; [apply takes_prev_span|intros; by apply takes_ret]|]. intros span.
  apply takes_ret. eexists. split; [done|]. unfold same in *. cbn. by rewrite Hb.
Qed.

(** No printed expression has a colon as its second token, so a positional argument
    is not taken for a named one. *)
Lemma lookup_second xs (t : Token) ys : xs ≠ [] → (xs ++ t :: ys) !! 1%nat = (xs ++ [t]) !! 1%nat.
Proof. by destruct xs as [|x [|y xs]]. Qed.
Lemma second_body k e u :
  printable e = true → (show 0 e ++ [u]) !! 1%nat ≠ Some TColon → (show k e ++ [u]) !! 1%nat ≠ Some TColon.
Proof.
  intros Hp H. rewrite show_eq. destruct (level e <? k)%nat; [|done].
  destruct (show_start e Hp 0) as (w & ws & -> & Hw & _). cbn. by intros [= ->].
Qed.
Lemma second_left j e e0 t ts u :
  show 0 e = show j e0 ++ t :: ts → printable e0 = true → t ≠ TColon →
  (∀ k u, u ≠ TColon → (show k e0 ++ [u]) !! 1%nat ≠ Some TColon) → (show 0 e ++ [u]) !! 1%nat ≠ Some TColon.
Proof.
  intros He Hp Ht IH. destruct (show_start e0 Hp j) as (v & vs & Hv & _).
  rewrite He, <- app_assoc, <- app_comm_cons, lookup_second by (by rewrite Hv). by apply IH.
Qed.
Lemma second_first e k ts u : printable e = true → (u :: show k e ++ ts) !! 1%nat ≠ Some TColon.
Proof. intros Hp. destruct (show_start e Hp k) as (w & ws & -> & Hw & _). cbn. by intros [= ->]. Qed.
Lemma second_commas es ts u : forallb printable es = true → head ts ≠ Some TColon → (u :: commas (show 0 <$> es) ++ ts) !! 1%nat ≠ Some TColon.
Proof.
  intros Hp Hh. cbn. destruct es as [|e es]; [by destruct ts|]. cbn in Hp. apply andb_true_iff in Hp as [Hp _].
  rewrite fmap_cons, commas_cons. destruct (show_start e Hp 0) as (w & ws & -> & Hw & _).
  destruct (show 0 <$> es); cbn; by intros [= ->].
Qed.
Lemma show_second e : printable e = true → ∀ k u, u ≠ TColon → (show k e ++ [u]) !! 1%nat ≠ Some TColon.
Proof.
  induction e as [l s|name s|es s|es s| |c IHc opts args s|b IHb i _ s|b IHb name s|op e IHe s|op l IHl r _ s|c IHc t _ e _ s|
    l IHl r _ s| |e IHe ty s| | | | | |l IHl op r _ s]; try done; intros Hp k u Hu; (apply second_body; [done|]); cbn in Hp;
    repeat match goal with H : _ && _ = true |- _ => apply andb_true_iff in H as [H ?] end.
  - cbn. destruct l as [| | | | | | | | | |[[] | | | | | | | | | | | | | | | | | | |] []]; cbn; congruence.
  - cbn. congruence.
  - destruct es as [|e [|e2 es]]; [done| |].
    { change (show 0 (ETuple [e] s)) with (TLParen :: show 0 e ++ [TComma; TRParen]). rewrite <- app_comm_cons, <- app_assoc.
      apply second_first. by apply andb_true_iff in Hp as []. }
    change (show 0 (ETuple (e :: e2 :: es) s)) with (TLParen :: commas (show 0 <$> e :: e2 :: es) ++ [TRParen]).
    rewrite <- app_comm_cons, <- app_assoc. by apply second_commas.
  - change (show 0 (EArray es s)) with (TLBracket :: commas (show 0 <$> es) ++ [TRBracket]).
    rewrite <- app_comm_cons, <- app_assoc. by apply second_commas.
  - destruct opts; [done|]. apply andb_true_iff in Hp as [Hp _]. by eapply second_left; [reflexivity| | |apply IHc].
  - by eapply second_left; [reflexivity| | |apply IHb].
  - by eapply second_left; [reflexivity| | |apply IHb].
  - change (show 0 (EUnary op e s)) with (unary_token op :: show 14 e). rewrite <- app_comm_cons. by apply second_first.
  - destruct op; try done; by eapply second_left; [reflexivity| | |apply IHl].
  - by eapply second_left; [reflexivity| | |apply IHc].
  - by eapply second_left; [reflexivity| | |apply IHl].
  - by eapply second_left; [reflexivity| | |apply IHe].
  - eapply second_left; [reflexivity|done|by destruct op|by apply IHl].
Qed.

Definition same_arg (a a' : CallArg) : Prop := strip_arg a = strip_arg a'.
Lemma same_args es es' : Forall2 same_arg es es' → strip_arg <$> es = strip_arg <$> es'.
Proof. induction 1 as [|e e' es es' H _ IH]; [done|]. cbn. unfold same_arg in H. rewrite H. f_equal. exact IH. Qed.

Lemma arg_takes a d l t s l1 :
  printable_arg a = true → (nest_arg a <= n)%nat → d + N.of_nat (nest_arg a) <= MAX_EXPR_DEPTH → token_level t = None → t ≠ TColon →
  spells (show_arg a) l ((t, s) :: l1) → takes (parse_call_arg R) d l (same_arg a) ((t, s) :: l1).
Proof.
  intros Hp Hn Hd Ht Hc Hs. unfold parse_call_arg.
  assert (∀ u su l2 v, l = (u, su) :: l2 → fst <$> l2 !! 0%nat = Some v →
    takes is_named_arg d l (eq (match u with TIdentifier _ => bool_decide (v = TColon) | _ => false end)) l) as Hnamed.
  { intros u su l2 v -> Hv. unfold is_named_arg. step1. destruct l2 as [|[v' sv] l2]; [done|]. cbn in Hv. injection Hv as ->.
    eapply (takes_step _ _ _ _ v); [|by apply takes_ret]. intros b g. by exists b, g, v. }
  destruct a as [e|name e]; cbn in Hp, Hs, Hn, Hd.
  - destruct (show_start e Hp 0) as (u & us & Hu & Hst & _). pose proof (show_second e Hp 0 t Hc) as H2.
    pose proof Hs as Hs'. rewrite Hu in Hs', H2. apply spells_cons in Hs' as (su & l2 & -> & Hs').
    assert (∃ v, fst <$> l2 !! 0%nat = Some v ∧ v ≠ TColon) as (v & Hv & Hvc).
    { destruct us as [|v us]; [apply spells_nil in Hs' as ->; by exists t|]. apply spells_cons in Hs' as (sv & l3 & -> & _).
      exists v. split; [done|]. intros ->. by apply H2. }
    eapply takes_step; [by eapply Hnamed|]. rewrite bool_decide_eq_false_2 by done.
    replace (match u with TIdentifier _ => false | _ => false end) with false by (by destruct u).
    eapply takes_bind; [by eapply inner_takes with (5 := Hs)|]. intros e' He. apply takes_ret. unfold same_arg, same in *. cbn. by rewrite He.
  - apply spells_cons in Hs as (su & l2 & -> & Hs). apply spells_cons in Hs as (sc & l3 & -> & Hs).
    eapply takes_step; [by eapply Hnamed|]. cbn [bool_decide]. rewrite bool_decide_eq_true_2 by done. eapply (takes_step _ _ _ _ name).
    { unfold expect_identifier. step1. cbv iota. step1. by apply takes_ret. }
    step1. eapply takes_bind; [by eapply inner_takes with (5 := Hs)|]. intros e' He. apply takes_ret. unfold same_arg, same in *. cbn. by rewrite He.
Qed.

Lemma reach_call c args sp d : forallb printable_arg args = true → room 0 (ECall c None args sp) d →
  reach I R 15 (show 15 c) false c d →
  reach I R 15 (show 15 c ++ TLParen :: commas (show_arg <$> args) ++ [TRParen]) false (ECall c None args sp) d.
Proof.
  intros Hp [Hn Hd] Hr.
  assert (nest 0 (ECall c None args sp) = nest 15 c `max` list_max (nest_arg <$> args))%nat as Hm by done. rewrite Hm in Hn, Hd.
  eapply reach_post; [done..|]. intros l l' b' Hs Hf _ Hb. apply spells_cons in Hs as (s & l1 & -> & Hs).
  apply spells_app in Hs as (l2 & Hs1 & Hs). apply spells_cons in Hs as (s2 & l3 & -> & ->%spells_nil).
  destruct Hf as (t & s1 & l5 & -> & _). enter_postfix.
  assert (takes (comma_list TRParen (parse_call_arg R)) d l1 (Forall2 same_arg args) ((TRParen, s2) :: (t, s1) :: l5)) as Hargs.
  { eapply (takes_comma_list _ show_arg) with (3 := Hs1); [|done]. apply Forall_forall. intros a Ha.
    assert (printable_arg a = true) as Hpa by (eapply forallb_forall in Hp; [done|by apply list_elem_of_In]).
    pose proof (list_max_room nest_arg args _ a Ha (le_n _)) as Hna. split.
    - destruct a as [e|name e]; [|by eexists _, _]. destruct (show_start e Hpa 0) as (u & us & Hu & Hst & _).
      exists u, us. split_and!; [exact Hu|intros ->; done|by intros ->].
    - intros l3 u s3 l4 Hl3 Hu. apply arg_takes; [done|lia|lia|by destruct Hu as [-> | ->]..|done]. }
  eapply takes_bind; [unfold parse_call_args; step1; eapply takes_bind; [exact Hargs|]; intros args' Hargs'; step1;
    apply (takes_ret _ _ _ (Forall2 same_arg args)); exact Hargs'|]. intros args' Hargs'.
  eapply takes_skip; [eapply takes_skip; [apply takes_prev_span|intros; by apply takes_ret]|]. intros span.
  apply takes_ret. eexists. split; [done|]. unfold same in *. cbn. rewrite Hb. f_equal. by apply same_args.
Qed.

(** *** Recursive rules *)

Lemma gets_unary op e sp d : gets I R 14 (show 14 e) false e d → gets I R 14 (unary_token op :: show 14 e) false (EUnary op e sp) d.
Proof.
  intros H l l' Hs Hf _ f Hw. apply spells_cons in Hs as (s & l1 & -> & Hs). destruct f as [|f]; [lia|]. cbn [lvlf recur_fuel].
  unfold unary_step at 1. step1. step1. replace (unary_op (unary_token op)) with (Some op) by (by destruct op). step1.
  eapply takes_bind; [apply (H _ _ Hs Hf ltac:(done) f)|]. { unfold wt in *. cbn in Hw. pose proof (token_weight_pos (unary_token op, s)). lia. }
  intros e' He. apply takes_ret. unfold same in *. cbn. by rewrite He.
Qed.
Lemma gets_power a b sp d : gets I R 14 (show 14 a) false a d → gets I R 13 (show 13 b) false b d →
  gets I R 13 (show 14 a ++ TStarStar :: show 13 b) false (EBinary BPow a b sp) d.
Proof.
  intros Ha Hb l l' Hs Hf _ f Hw. apply spells_app in Hs as (l1 & Hs1 & Hs). apply spells_cons in Hs as (s & l2 & -> & Hs).
  pose proof (spells_wt _ _ _ Hs1) as Hw1. destruct f as [|f]; [lia|]. cbn [lvlf recur_fuel]. unfold exponent_step at 1.
  eapply takes_bind; [exact (gets_lvl I R 14 _ _ _ _ _ _ Ha Hs1 ltac:(by apply follow_token) ltac:(done))|]. intros a' Ha'. step1.
  rewrite bool_decide_eq_true_2 by done. cbn [negb]. step1.
  eapply takes_bind; [apply (Hb _ _ Hs Hf ltac:(done) f)|]. { unfold wt in *. cbn in Hw1. lia. }
  intros b' Hb'. apply takes_ret. unfold same in *. cbn. by rewrite Ha', Hb'.
Qed.
Lemma gets_assign op a b sp d : gets I R 1 (show 1 a) false a d → gets I R 0 (show 0 b) false b d →
  gets I R 0 (show 1 a ++ assign_token op :: show 0 b) false (EAssign_ a op b sp) d.
Proof.
  intros Ha Hb l l' Hs Hf _ f Hw. apply spells_app in Hs as (l1 & Hs1 & Hs). apply spells_cons in Hs as (s & l2 & -> & Hs).
  pose proof (spells_wt _ _ _ Hs1) as Hw1. destruct f as [|f]; [lia|]. cbn [lvlf recur_fuel]. unfold assign_step at 1.
  eapply takes_bind; [refine (gets_lvl I R 1 _ _ _ _ _ _ Ha Hs1 _ ltac:(done)); apply follow_token; by destruct op|]. intros a' Ha'. step1.
  replace (assign_op (assign_token op)) with (Some op) by (by destruct op). step1.
  eapply takes_bind; [apply (Hb _ _ Hs Hf ltac:(done) f)|].
  { unfold wt in *. cbn in Hw1. pose proof (token_weight_pos (assign_token op, s)). lia. }
  intros b' Hb'. apply takes_ret. unfold same in *. cbn. by rewrite Ha', Hb'.
Qed.
Lemma gets_ternary c t e sp d : printable t = true → printable e = true → room 0 (ETernary c t e sp) d →
  gets I R 2 (show 2 c) false c d →
  gets I R 0 (show 2 c ++ TQuestionMark :: show 0 t ++ TColon :: show 0 e) false (ETernary c t e sp) d.
Proof.
  intros Hpt Hpe [Hn Hd] Hc l l' Hs Hf _ f Hw.
  assert (nest 0 (ETernary c t e sp) = nest 2 c `max` S (nest 0 t) `max` S (nest 0 e))%nat as Hm by done. rewrite Hm in Hn, Hd.
  apply spells_app in Hs as (l1 & Hs1 & Hs). apply spells_cons in Hs as (s & l2 & -> & Hs).
  apply spells_app in Hs as (l3 & Hs2 & Hs). apply spells_cons in Hs as (s2 & l4 & -> & Hs3).
  destruct f as [|f]; [lia|]. cbn [lvlf recur_fuel]. unfold assign_step at 1.
  assert (follow 2 ((TQuestionMark, s) :: l2)) as Hq.
  { eexists _, _, _. split_and!; [done..|]. intros _. destruct (show_start t Hpt 0) as (u & us & Hu & Hst & _). rewrite Hu in Hs2.
    apply spells_cons in Hs2 as (su & l5 & -> & _). by eexists _, _, _. }
  eapply (takes_bind _ _ _ _ (same (ETernary c t e sp))).
  - unfold parse_ternary. eapply takes_bind; [exact (gets_lvl I R 2 _ _ _ _ _ _ Hc Hs1 Hq ltac:(done))|]. intros c' Hc'. step1.
    rewrite bool_decide_eq_true_2 by done. cbn [negb]. step1.
    eapply takes_bind; [eapply inner_takes with (5 := Hs2); [done|lia|lia|done]|]. intros t' Ht'. step1.
    eapply takes_bind; [apply (IHn e d _ _ Hpe); [lia|lia|done|done]|]. intros e' He'. apply takes_ret.
    unfold same in *. cbn. by rewrite Hc', Ht', He'.
  - intros e' He'. destruct Hf as (u & su & l5 & -> & Hb & _). step1. destruct u; try done; by apply takes_ret.
Qed.

(** *** All levels *)

Definition full (e : Expr) (d : N) : Prop :=
  (∀ k, (k <= 16)%nat → room k e d → gets I R k (show k e) false e d) ∧
  (∀ k, loopy k = true → room k e d → reach I R k (show k e) false e d).
Definition base (e : Expr) (d : N) : Prop :=
  if loopy (own e) then reach I R (own e) (show 0 e) (bare e) e d else gets I R (own e) (show 0 e) (bare e) e d.

Lemma levels_ordered e : (level e <= own e <= 16)%nat ∧ (bare e = true → level e = 8%nat).
Proof.
  destruct e as [| | | | | | | | |op| | | |? ty| | | | | |]; try done; cbn; try lia; [destruct op; cbn; lia|].
  destruct (bare_end ty); split; try done; lia.
Qed.
Lemma follow_not_lt k e l : (k <= 9)%nat → follow k l → not_lt (bare e) l.
Proof. intros Hk (t & s & l1 & -> & Hb & _) _ s' l2 [= -> -> ->]. unfold below in Hb. cbn [token_level] in Hb. apply Nat.ltb_lt in Hb. lia. Qed.
Lemma spread e d : printable e = true → (room 0 e d → base e d) → full e d.
Proof.
  intros Hp Hbase. destruct (levels_ordered e) as [Hlv Hbare].
  assert (∀ k, (level e < k)%nat → (k <= 16)%nat → room k e d → gets I R k (TLParen :: show 0 e ++ [TRParen]) false e d) as Hpar.
  { intros k Hk Hk16 [Hn Hd]. rewrite nest_eq in Hn, Hd. rewrite (proj2 (Nat.ltb_lt _ _) Hk) in Hn, Hd.
    apply (gets_down I R 16); [done|done|by eexists _, _|]. by apply gets_parens. }
  assert (room 0 e d → ∀ k, (k <= own e)%nat → gets I R k (show 0 e) (bare e) e d) as Hown.
  { intros Hr k Hk. specialize (Hbase Hr). unfold base in Hbase. apply (gets_down I R (own e)); [done|lia| |].
    - intros Ho. destruct (show_start e Hp 0) as (u & us & Hu & _ & Hn). exists u, us. split; [done|]. apply Hn. lia.
    - destruct (loopy (own e)) eqn:Hl; [by apply reach_gets|done]. }
  assert (∀ k, (k <= level e)%nat → room k e d → room 0 e d) as Hroom.
  { intros k Hk. unfold room. rewrite (nest_eq k). by rewrite (proj2 (Nat.ltb_ge _ _) Hk). }
  split; intros k Hk Hr; rewrite show_eq; destruct (Nat.ltb_spec (level e) k) as [Hlt|Hge].
  - by apply Hpar.
  - intros l l' Hs Hf _ f Hw. apply (Hown (Hroom k Hge Hr) k ltac:(lia) l l' Hs Hf); [|done].
    destruct (bare e) eqn:Hb; [|done]. rewrite <- Hb. eapply follow_not_lt; [|done]. rewrite (Hbare eq_refl) in Hge. lia.
  - assert (S k <= 16)%nat as Hk' by (levels k; lia). apply reach_next; [done|]. apply Hpar; [lia|done|].
    unfold room in *. rewrite nest_eq in *. rewrite (proj2 (Nat.ltb_lt _ _) Hlt) in Hr. rewrite (proj2 (Nat.ltb_lt (level e) (S k))) by lia. done.
  - assert (reach I R k (show 0 e) (bare e) e d) as Hre.
    { destruct (decide (k = own e)) as [->|Hne]; [specialize (Hbase (Hroom _ Hge Hr)); unfold base in Hbase; by rewrite Hk in Hbase|].
      apply reach_next; [done|]. apply Hown; [by eapply Hroom|lia]. }
    intros l l' Hs Hf _. apply (Hre l l' Hs Hf). destruct (bare e) eqn:Hb; [|done]. rewrite <- Hb.
    eapply follow_not_lt; [|done]. rewrite (Hbare eq_refl) in Hge. lia.
Qed.

Lemma room_left j e0 k e d : (nest j e0 <= nest k e)%nat → room k e d → room j e0 d.
Proof. unfold room. lia. Qed.

Lemma reads_all_levels e : printable e = true → ∀ d, full e d.
Proof.
  induction e as [l s|name s|es s|es s| |c IHc opts args s|b IHb i _ s|b IHb name s|op e IHe s|op l IHl r IHr s|c IHc t _ e _ s|
    l IHl r IHr s| |e IHe ty s| | | | | |l IHl op r IHr s]; try done; intros Hp d; (apply spread; [done|]); intros Hr; cbn in Hp;
    repeat match goal with H : _ && _ = true |- _ => apply andb_true_iff in H as [H ?] end.
  - by apply gets_literal.
  - by apply gets_ident.
  - by apply gets_tuple.
  - by apply gets_array.
  - destruct opts; [done|]. apply andb_true_iff in Hp as [Hp Hargs]. apply reach_call; [done|done|].
    apply IHc; [done..|]. eapply room_left; [|done]. cbn. lia.
  - apply reach_index; [done..|]. apply IHb; [done..|]. eapply room_left; [|done]. cbn. lia.
  - apply reach_member. apply IHb; [done..|]. eapply room_left; [|done]. cbn. lia.
  - apply gets_unary. apply IHe; [done|lia|]. eapply room_left; [|done]. cbn. lia.
  - assert (room (match op with BPow => 14 | _ => binary_level op end) l d) as Hl by (eapply room_left; [|done]; destruct op; cbn; lia).
    assert (room (match op with BPow => 13 | _ => S (binary_level op) end) r d) as Hrr by (eapply room_left; [|exact Hr]; destruct op; cbn; lia).
    destruct op; try done; try (by apply gets_power; [apply IHl|apply IHr]; try lia);
      (eapply (reach_join I R _ _ false _ _ (EBinary _)); [done|by apply IHl|done|done|]; apply IHr; [done|cbn; lia|done]).
  - apply gets_ternary; [done..|]. apply IHc; [done|lia|]. eapply room_left; [|done]. cbn. lia.
  - eapply (reach_join I R _ _ false _ _ ENullish); [done| |done|done|].
    + apply IHl; [done..|]. eapply room_left; [|done]. cbn. lia.
    + apply IHr; [done|lia|]. eapply room_left; [|done]. cbn. lia.
  - apply reach_cast; [done|]. apply IHe; [done..|]. eapply room_left; [|done]. cbn. lia.
  - apply gets_assign; [apply IHl|apply IHr]; try done; try lia; (eapply room_left; [|done]; cbn; lia).
Qed.
End expressions.

(** [parse_expr] at the depth [d] reads the printed expression, when it is nested at
    most as deep as the limit leaves room for. *)
Lemma rounds_read I n : ∀ e d l l', printable e = true → (S (nest 0 e) <= n)%nat → d + N.of_nat (S (nest 0 e)) <= MAX_EXPR_DEPTH →
  spells (show 0 e) l l' → follow 0 l' → takes (rec_expr (rounds I n)) d l (same e) l'.
Proof.
  induction n as [|n IH]; intros e d l l' Hp Hn Hd Hs Hf; [lia|].
  destruct (reads_all_levels I n IH e Hp (d + 1)) as [Hall _].
  pose proof (gets_lvl I (rounds I n) 0 _ _ _ _ _ _ (Hall 0%nat ltac:(lia) ltac:(unfold room; lia)) Hs Hf ltac:(done)) as Ht.
  destruct (show_start e Hp 0) as (u & us & Hu & Hst & _). pose proof Hs as Hs'. rewrite Hu in Hs'.
  apply spells_cons in Hs' as (su & l1 & -> & _). cbn [rounds next_round rec_expr]. unfold parse_expr_body.
  eapply takes_skip; [apply takes_skip_newlines; by intros ->|intros _]. intros b g.
  unfold mbind, P_bind, pbind, enter_expr, get_depth, mbind, P_bind, pbind. cbn [expr_depth cur].
  rewrite (proj2 (N.ltb_ge _ _)) by lia. unfold set_depth. cbn [before rest gt_split_positions cur].
  destruct (Ht b g) as (b' & g' & e' & E & He). unfold leaving. unfold cur in E. cbn [lvl] in E. rewrite E.
  exists b', g', e'. split; [|done].
  unfold leave_expr, get_depth, set_depth, mbind, P_bind, pbind. cbn [expr_depth before rest gt_split_positions].
  by replace (d + 1 - 1) with d by lia.
Qed.

(** An expression is nested less deep than it has tokens. *)
Lemma length_commas ls x : x ∈ ls → (length x <= length (commas ls))%nat.
Proof.
  induction ls as [|y ls IH]; [by intros ?%not_elem_of_nil|]. rewrite elem_of_cons, commas_cons.
  intros [-> |H]; destruct ls; rewrite ?length_app; [lia|lia|by apply not_elem_of_nil in H|]. apply IH in H. cbn [length]. lia.
Qed.
Lemma list_max_below {A} (f : A → nat) (sh : A → list Token) xs m :
  (∀ x, x ∈ xs → (f x <= length (sh x))%nat) → (length (commas (sh <$> xs)) < m)%nat → (list_max (f <$> xs) < m)%nat.
Proof.
  intros H Hm. enough (list_max (f <$> xs) <= length (commas (sh <$> xs)))%nat by lia. apply list_max_le, Forall_fmap, Forall_forall.
  intros x Hx. cbn. apply (Nat.le_trans _ (length (sh x))); [by apply H|]. apply length_commas. by apply list_elem_of_fmap_2.
Qed.
Ltac count :=
  cbn [show nest level own binary_level Nat.ltb Nat.leb length bare_end] in *; repeat (rewrite length_app in *; cbn [length] in * ).
Lemma nest_length m : ∀ e, (length (show 0 e) < m)%nat → printable e = true → ∀ k, (nest k e < length (show k e))%nat.
Proof.
  induction m as [|m IH]; [lia|]. intros e0 Hm Hp.
  assert (∀ e k, (nest 0 e < length (show 0 e))%nat → (nest k e < length (show k e))%nat) as Hk.
  { intros e1 k H. rewrite nest_eq, show_eq. destruct (level e1 <? k)%nat; [|done]. cbn. rewrite length_app. cbn. lia. }
  intros k. apply Hk. clear k.
  assert (∀ e j, (length (show j e) < length (show 0 e0))%nat → printable e = true → (nest j e < length (show j e))%nat) as Hsub.
  { intros e1 j Hl Hpe. apply IH; [|done]. rewrite show_eq in Hl. destruct (level e1 <? j)%nat; cbn in Hl; rewrite ?length_app in Hl; lia. }
  assert (∀ es, forallb printable es = true → (length (commas (show 0 <$> es)) < length (show 0 e0))%nat →
    (list_max ((λ e, S (nest 0 e)) <$> es) < length (show 0 e0))%nat) as Hlist.
  { intros es Hes Hl. eapply (list_max_below _ (show 0)); [|done]. intros x Hx.
    pose proof (length_commas (show 0 <$> es) _ (list_elem_of_fmap_2 _ _ _ Hx)).
    eapply forallb_forall in Hes; [|by apply list_elem_of_In]. apply Hsub; [lia|done]. }
  destruct e0 as [l s|name s|es s|es s| |c opts args s|b i s|b name s|op e s|op l r s|c t e s|l r s| |e ty s| | | | | |l op r s]; try done;
    cbn in Hp; repeat match goal with H : _ && _ = true |- _ => apply andb_true_iff in H as [H ?] end.
  - destruct (show_literal_start l Hp) as (u & us & Hu & _). cbn. rewrite Hu. cbn. lia.
  - cbn. lia.
  - destruct es as [|e [|e2 es]]; [cbn; lia|cbn in Hp; apply andb_true_iff in Hp as [Hp _]|].
    + assert (nest 0 e < length (show 0 e))%nat by (apply Hsub; [cbn; rewrite length_app; lia|done]). cbn. rewrite length_app. cbn. lia.
    + assert (show 0 (ETuple (e :: e2 :: es) s) = TLParen :: commas (show 0 <$> e :: e2 :: es) ++ [TRParen]) as E by done.
      rewrite E in *. clear E. apply (Hlist (e :: e2 :: es)); [done|]. cbn [length]. rewrite length_app. cbn. lia.
  - assert (show 0 (EArray es s) = TLBracket :: commas (show 0 <$> es) ++ [TRBracket]) as E by done. rewrite E in *. clear E.
    apply Hlist; [done|]. cbn [length]. rewrite length_app. cbn. lia.
  - destruct opts; [done|]. apply andb_true_iff in Hp as [Hp Hargs].
    assert (show 0 (ECall c None args s) = show 15 c ++ TLParen :: commas (show_arg <$> args) ++ [TRParen]) as E by done. rewrite E in *. clear E.
    rewrite !length_app in *. cbn [length] in *. rewrite length_app in *. cbn [length] in *.
    assert (nest 15 c < length (show 15 c))%nat by (apply Hsub; [lia|done]).
    enough (list_max (nest_arg <$> args) <= length (commas (show_arg <$> args)))%nat by (cbn; lia).
    apply Nat.lt_succ_r, (list_max_below _ show_arg); [|lia]. intros x Hx. pose proof (length_commas (show_arg <$> args) _ (list_elem_of_fmap_2 _ _ _ Hx)).
    eapply forallb_forall in Hargs; [|by apply list_elem_of_In].
    destruct x as [e|name e]; cbn in *; (assert (nest 0 e < length (show 0 e))%nat by (apply Hsub; [lia|done]); lia).
  - count. pose proof (Hsub b 15%nat ltac:(lia) ltac:(done)). pose proof (Hsub i 0%nat ltac:(lia) ltac:(done)). lia.
  - count. pose proof (Hsub b 15%nat ltac:(lia) ltac:(done)). lia.
  - count. pose proof (Hsub e 14%nat ltac:(lia) ltac:(done)). lia.
  - destruct op; try done; count;
      match goal with |- context [(nest ?i l `max` nest ?j r)%nat] =>
        pose proof (Hsub l i ltac:(lia) ltac:(done)); pose proof (Hsub r j ltac:(lia) ltac:(done)) end; lia.
  - count. pose proof (Hsub c 2%nat ltac:(lia) ltac:(done)). pose proof (Hsub t 0%nat ltac:(lia) ltac:(done)).
    pose proof (Hsub e 0%nat ltac:(lia) ltac:(done)). lia.
  - count. pose proof (Hsub l 2%nat ltac:(lia) ltac:(done)). pose proof (Hsub r 3%nat ltac:(lia) ltac:(done)). lia.
  - count. pose proof (Hsub e 15%nat ltac:(lia) ltac:(done)). lia.
  - count. pose proof (Hsub l 1%nat ltac:(lia) ltac:(done)). pose proof (Hsub r 0%nat ltac:(lia) ltac:(done)). lia.
Qed.

Lemma parse_expr_takes I e d l l' : printable e = true → d + N.of_nat (S (nest 0 e)) <= MAX_EXPR_DEPTH →
  spells (show 0 e) l l' → follow 0 l' → takes (ParserExpr.parse_expr I) d l (same e) l'.
Proof.
  intros Hp Hd Hs Hf b g. assert (nest 0 e < S (wt l))%nat as Hn.
  { pose proof (spells_wt _ _ _ Hs). pose proof (nest_length _ e (Nat.lt_succ_diag_r _) Hp 0). lia. }
  apply (rounds_read I (S (wt l)) e d l l'); [done|lia|done..].
Qed.

(** Prefix operators open no expression: any number of them is read, far beyond the
    nesting limit. *)
Definition prefix_chain (name : list N) (n : nat) : Expr := Nat.iter n (λ e, EUnary UNot e no_span) (EIdent name no_span).
Lemma prefix_chain_unlimited name n :
  printable (prefix_chain name n) = true ∧ (∀ k, (k <= 14)%nat → nest k (prefix_chain name n) = 0%nat) ∧
  (∀ k, (k <= 14)%nat → length (show k (prefix_chain name n)) = S n).
Proof.
  induction n as [|n (Hp & Hn & Hl)].
  - split_and!; [done| |]; intros k Hk; [rewrite nest_eq|rewrite show_eq]; change (level (prefix_chain name 0)) with 16%nat;
      by rewrite (proj2 (Nat.ltb_ge 16 k)) by lia.
  - change (prefix_chain name (S n)) with (EUnary UNot (prefix_chain name n) no_span).
    split_and!; [done| |]; intros k Hk; [rewrite nest_eq|rewrite show_eq]; change (level (EUnary _ _ _)) with 14%nat;
      rewrite (proj2 (Nat.ltb_ge 14 k)) by lia; [by apply (Hn 14%nat)|]. cbn. by rewrite Hl.
Qed.

Section text.
Context {U : Unicode} `{L : !UnicodeLaws} (bech32m_hrp : list N → result string (list N)).

(** C35. Lexing and parsing give back what was printed: an expression made of literals
    (with unit suffixes), names, tuples, arrays, calls with positional and named
    arguments, indexing, members, casts to any type, prefix and binary operators,
    the nullish operator, ternaries and assignments, printed with the parentheses
    that the precedence and associativity of the operators require, and around a
    cast to a bare name where an operator above the comparisons follows or applies
    (a [<] after it would be read as type arguments), is read back as the same expression up to the positions in the text, when at
    most 24 expressions are open at once.  The function is the one the parser runs
    on the expressions inside template strings: it lexes the text, parses one
    expression and rejects what is left over. *)
Theorem expression_round_trip ps e fuel span :
  Forall (λ p, printed p.1 p.2) ps → ps.*1 = show 0 e → printable e = true → (nest 0 e < 24)%nat →
  ∃ e', parse_interpolation bech32m_hrp (S fuel) (print_tokens ps) span = Some (Ok e') ∧ strip e' = strip e.
Proof.
  intros Hps He Hp Hn. destruct (print_tokenize bech32m_hrp ps Hps) as (toks & Ht & Hf). cbn [parse_interpolation]. rewrite Ht.
  rewrite He in Hf. apply fmap_app_inv in Hf as (tl & end_ & Htl & Hend & ->).
  destruct end_ as [|[t s] [|]]; try done. injection Hend as <-.
  destruct (parse_expr_takes (parse_interpolation bech32m_hrp fuel) e 0 (tl ++ [(TEof, s)]) [(TEof, s)] Hp) with (b := @nil (Token * Span)) (g := @nil nat)
    as (b' & g' & e' & E & Hsame); [unfold MAX_EXPR_DEPTH; lia|by exists tl|by apply follow_token|].
  change (Parser_new (tl ++ [(TEof, s)])) with (cur [] (tl ++ [(TEof, s)]) [] 0). rewrite E. by exists e'.
Qed.
End text.
