(* ===== verification/ParserExamples.v ===== *)
(** * Programs at the edges of the parser

    Short sources, lexed and parsed by evaluation: where a newline does not end a
    statement, where [?] is read as a ternary, and where the nesting limit falls. *)
From stdpp Require Import strings.
From S2P Require Import Prelude LexToken Lexer LangAst Parser ParserExpr ParserDecl ParserSpec ParserExprSpec.

(** Only ASCII characters are letters and digits. *)
#[local] Instance ascii_letters : Unicode := {| is_alphabetic := is_ascii_letter; is_numeric := is_ascii_digit |}.

Definition parse_source (src : list N) : option (result LangError Ast) :=
  match tokenize (λ _, Err "no address"%string) src with Some (Ok toks) => parse (λ _, Err "no address"%string) toks | _ => None end.
Definition accepted (src : list N) : bool := match parse_source src with Some (Ok _) => true | _ => false end.

(** Source lines joined by newlines. *)
Definition lines (ls : list string) : list N := mjoin ((λ l, text l ++ [10]) <$> ls).

(** A statement that ends in [?] followed by one that begins with a name: the [?] is
    taken for a ternary and the program is rejected; a semicolon repairs it. *)
Example try_before_name :
  accepted (lines ["contract A {"; "fn f() {"; "let x = g()?"; "h()"; "}"; "}"]) = false ∧
  accepted (lines ["contract A {"; "fn f() {"; "let x = g()?;"; "h()"; "}"; "}"]) = true.
Proof. vm_compute. done. Qed.

(** The statements of a block. *)
Definition block_of (ls : list string) : option (list Stmt) :=
  match tokenize (λ _, Err "no address"%string) (lines ls) with
  | Some (Ok toks) => match parse_block (λ _ _, None) (Parser_new toks) with Some (_, Ok stmts) => Some stmts | _ => None end
  | _ => None
  end.
(** Two lines that are two statements are read as one when the second begins with a
    token that is also an infix or postfix operator. *)
Example newline_joins_statements :
  length <$> block_of ["{"; "x = a"; "-b"; "}"] = Some 1%nat ∧
  length <$> block_of ["{"; "x = a"; "(b, c) = d"; "}"] = Some 1%nat ∧
  length <$> block_of ["{"; "x = a;"; "-b"; "}"] = Some 2%nat ∧
  length <$> block_of ["{"; "x = a"; "b"; "}"] = Some 2%nat.
Proof. vm_compute. done. Qed.

(** [from] is a name everywhere but in the first branch of a ternary. *)
Example from_after_question_mark :
  block_of ["{"; "x = c ? from : d"; "}"] = None ∧
  length <$> block_of ["{"; "x = c ? d : from"; "}"] = Some 1%nat.
Proof. vm_compute. done. Qed.

(** 23 parentheses around a name are read, 24 are not; 200 prefix operators are. *)
Definition nested (n : nat) : string := String.concat "" (replicate n "("%string ++ ["x"%string] ++ replicate n ")"%string).
Example nesting_limit :
  length <$> block_of ["{"; nested 23; "}"] = Some 1%nat ∧ block_of ["{"; nested 24; "}"] = None ∧
  length <$> block_of ["{"; String.concat "" (replicate 200 "!"%string ++ ["x"%string]); "}"] = Some 1%nat.
Proof. vm_compute. done. Qed.

(** A name before the opening brace of a [match] or [for] begins a struct literal and
    the statement is rejected; parentheses around the name repair it. *)
Example name_before_brace :
  block_of ["{"; "match x {"; "1 => f()"; "}"; "}"] = None ∧ length <$> block_of ["{"; "match (x) {"; "1 => f()"; "}"; "}"] = Some 1%nat ∧
  block_of ["{"; "for x of xs {"; "f()"; "}"; "}"] = None ∧ length <$> block_of ["{"; "for x of (xs) {"; "f()"; "}"; "}"] = Some 1%nat ∧
  block_of ["{"; "for i in 0..n {"; "f()"; "}"; "}"] = None ∧ length <$> block_of ["{"; "for i in 0..(n) {"; "f()"; "}"; "}"] = Some 1%nat.
Proof. vm_compute. done. Qed.
