(* ===== verification/LangTypes.v ===== *)
(** * Resolved types, symbols and type errors of the contract language
      ([lemma-lang/src/type_checker/types.rs], [error.rs], [lower.rs])

    The errors of the checker are [TypeError]s, which the code wraps in
    [LangError::Type]; their messages restate the kind and are left out. *)
From stdpp Require Import strings.
From S2P Require Import Prelude LexToken LangAst ParserDecl.

(** ** Spans as keys *)

#[export] Instance Span_eq_dec : EqDecision Span.
Proof. solve_decision. Defined.
#[export] Program Instance Span_countable : Countable Span :=
  inj_countable' (λ s, (line s, col s, offset s, len s)) (λ '(l, c, o, n), {| line := l; col := c; offset := o; len := n |}) _.
Next Obligation. by intros []. Qed.

(** ** Types ([types.rs]) *)

(** A number; 0 is the sentinel [UNRESOLVED]. *)
Notation SymbolId := N (only parsing).

Inductive ResolvedType :=
  | RtU8 | RtU16 | RtU32 | RtU64 | RtU128 | RtU256
  | RtI8 | RtI16 | RtI32 | RtI64 | RtI128 | RtI256
  | RtIntLiteral
  | RtBool | RtStringTy | RtCharTy | RtAddressTy | RtHashTy | RtBytes
  | RtBytesN (n : N)
  | RtDecimal (n : N)
  | RtArray (t : ResolvedType)
  | RtFixedArray (t : ResolvedType) (n : N)
  | RtMap (k v : ResolvedType)
  | RtFastMap (k v : ResolvedType)
  | RtSet (t : ResolvedType)
  | RtOption_ (t : ResolvedType)
  | RtResult_ (t e : ResolvedType)
  | RtTuple (ts : list ResolvedType)
  | RtFn (params : list ResolvedType) (ret : ResolvedType)
  | RtNamed (id : SymbolId) (args : list ResolvedType)
  | RtTypeParam (name : list N)
  | RtUnit | RtUnknown | RtMsgContext | RtBlockContext.

Definition is_unsigned_int (t : ResolvedType) : bool :=
  match t with RtU8 | RtU16 | RtU32 | RtU64 | RtU128 | RtU256 => true | _ => false end.
Definition is_signed_int (t : ResolvedType) : bool :=
  match t with RtI8 | RtI16 | RtI32 | RtI64 | RtI128 | RtI256 => true | _ => false end.
Definition is_integer (t : ResolvedType) : bool := is_unsigned_int t || is_signed_int t.
Definition is_int_literal (t : ResolvedType) : bool := match t with RtIntLiteral => true | _ => false end.
Definition is_numeric (t : ResolvedType) : bool :=
  is_integer t || is_int_literal t || match t with RtDecimal _ => true | _ => false end.
Definition bit_width (t : ResolvedType) : option N :=
  match t with
  | RtU8 | RtI8 => Some 8 | RtU16 | RtI16 => Some 16 | RtU32 | RtI32 => Some 32 | RtU64 | RtI64 => Some 64
  | RtU128 | RtI128 => Some 128 | RtU256 | RtI256 => Some 256
  | _ => None
  end.
Definition coerce_int_literal (t target : ResolvedType) : option ResolvedType :=
  if is_int_literal t && is_integer target then Some target else None.
Definition is_concrete (t : ResolvedType) : bool := match t with RtUnknown | RtTypeParam _ => false | _ => true end.
Definition is_unknown (t : ResolvedType) : bool := match t with RtUnknown => true | _ => false end.
Definition is_option (t : ResolvedType) : bool := match t with RtOption_ _ => true | _ => false end.
Definition is_result (t : ResolvedType) : bool := match t with RtResult_ _ _ => true | _ => false end.
Definition option_inner (t : ResolvedType) : option ResolvedType := match t with RtOption_ i => Some i | _ => None end.
Definition array_elem (t : ResolvedType) : option ResolvedType :=
  match t with RtArray i | RtFixedArray i _ => Some i | _ => None end.
Definition map_kv (t : ResolvedType) : option (ResolvedType * ResolvedType) :=
  match t with RtMap k v | RtFastMap k v => Some (k, v) | _ => None end.
Definition tuple_elems (t : ResolvedType) : option (list ResolvedType) := match t with RtTuple ts => Some ts | _ => None end.
Definition named_id (t : ResolvedType) : option SymbolId := match t with RtNamed id _ => Some id | _ => None end.
Definition is_array_type (t : ResolvedType) : bool := match t with RtArray _ | RtFixedArray _ _ => true | _ => false end.
Definition is_map_type (t : ResolvedType) : bool := match t with RtMap _ _ | RtFastMap _ _ => true | _ => false end.

(** Joined with a separator. *)
Fixpoint join_text (sep : list N) (ls : list (list N)) : list N :=
  match ls with [] => [] | [x] => x | x :: ls => x ++ sep ++ join_text sep ls end.
Fixpoint display_name (t : ResolvedType) : list N :=
  match t with
  | RtU8 => text "u8" | RtU16 => text "u16" | RtU32 => text "u32" | RtU64 => text "u64" | RtU128 => text "u128" | RtU256 => text "u256"
  | RtI8 => text "i8" | RtI16 => text "i16" | RtI32 => text "i32" | RtI64 => text "i64" | RtI128 => text "i128" | RtI256 => text "i256"
  | RtIntLiteral => text "{integer}" | RtBool => text "bool" | RtStringTy => text "string" | RtCharTy => text "char"
  | RtAddressTy => text "Address" | RtHashTy => text "Hash" | RtBytes => text "bytes"
  | RtBytesN n => text "bytes" ++ decimal_digits n
  | RtDecimal n => text "decimal(" ++ decimal_digits n ++ text ")"
  | RtArray t => text "Array<" ++ display_name t ++ text ">"
  | RtFixedArray t n => text "[" ++ display_name t ++ text "; " ++ decimal_digits n ++ text "]"
  | RtMap k v => text "Map<" ++ display_name k ++ text ", " ++ display_name v ++ text ">"
  | RtFastMap k v => text "FastMap<" ++ display_name k ++ text ", " ++ display_name v ++ text ">"
  | RtSet t => text "Set<" ++ display_name t ++ text ">"
  | RtOption_ t => text "Option<" ++ display_name t ++ text ">"
  | RtResult_ t e => text "Result<" ++ display_name t ++ text ", " ++ display_name e ++ text ">"
  | RtTuple ts => text "(" ++ join_text (text ", ") (display_name <$> ts) ++ text ")"
  | RtFn ps r => text "fn(" ++ join_text (text ", ") (display_name <$> ps) ++ text ") -> " ++ display_name r
  | RtNamed id args =>
      let n := text "<named:" ++ decimal_digits id ++ text ">" in
      match args with [] => n | _ => n ++ text "<" ++ join_text (text ", ") (display_name <$> args) ++ text ">" end
  | RtTypeParam name => name
  | RtUnit => text "()" | RtUnknown => text "<unknown>" | RtMsgContext => text "msg" | RtBlockContext => text "block"
  end.

(** ** Signatures and symbols *)

Record FnSig := {
  fs_params : list (list N * ResolvedType * bool);
  fs_ret : ResolvedType;
  fs_generic_params : list (list N * option SymbolId);
}.
Record StructSig := {
  ss_fields : list (list N * ResolvedType * bool);
  ss_methods : list (list N * SymbolId);
  ss_generic_params : list (list N);
}.
Record EnumSig := {
  es_variants : list (list N * list (list N * ResolvedType));
  es_generic_params : list (list N);
}.
Inductive SymbolSig :=
  | SigFunction (s : FnSig)
  | SigStruct (s : StructSig)
  | SigEnum (s : EnumSig).

Inductive SymbolKind :=
  | SkFunction | SkConst | SkImmutable | SkStateField | SkParam | SkLocal | SkSelfBinding
  | SkContract | SkStruct | SkEnum | SkTypeAlias | SkInterface | SkTrait | SkLibrary | SkErrorDecl | SkGenericParam
  | SkImported | SkBuiltinGlobal.
#[export] Instance SymbolKind_eq_dec : EqDecision SymbolKind.
Proof. solve_decision. Defined.

Record SymbolInfo := {
  sy_name : list N;
  sy_decl_span : Span;
  sy_kind : SymbolKind;
  sy_ty : ResolvedType;
  sy_mutable : bool;
  sy_pending_ann : option LType;
}.

(** ** Errors ([error.rs]) *)

(** The kinds of name resolution and inference; the kinds of the well-formedness
    pass are left out with it. *)
Inductive TypeErrorKind :=
  | DuplicateDeclaration (name : list N)
  | UndefinedName (name : list N)
  | UndefinedType (name : list N)
  | TypeMismatch (expected found : list N)
  | InvalidOperand (op ty : list N)
  | InvalidConversion (from to : list N)
  | ArityMismatch (func : list N) (expected found : N)
  | UnknownField (ty field : list N)
  | NotCallable (ty : list N)
  | NotIndexable (ty : list N)
  | MutationOfImmutable (name : list N)
  | ReturnTypeMismatch (expected found : list N)
  | ConditionNotBool (found : list N)
  | MissingField (ty field : list N)
  | TraitBoundViolation (param bound found : list N)
  | WrongTypeArgCount (name : list N) (expected found : N)
  | InvalidTry (found : list N).
Record TypeError := { te_kind : TypeErrorKind; te_span : Span }.

(** ** Lowering ([lower.rs]) *)

(** [lower_type_with], its recursion closed: a syntactic type with its names
    resolved by [resolve_named]; [_] marks a parameter without a type. *)
Fixpoint lower_type_with (resolve_named : list N → list ResolvedType → ResolvedType) (ty : LType) : ResolvedType :=
  let recurse := lower_type_with resolve_named in
  match ty with
  | TyU8 => RtU8 | TyU16 => RtU16 | TyU32 => RtU32 | TyU64 => RtU64 | TyU128 => RtU128 | TyU256 => RtU256
  | TyI8 => RtI8 | TyI16 => RtI16 | TyI32 => RtI32 | TyI64 => RtI64 | TyI128 => RtI128 | TyI256 => RtI256
  | TyBool => RtBool | TyStringTy => RtStringTy | TyCharTy => RtCharTy | TyAddressTy => RtAddressTy | TyHashTy => RtHashTy
  | TyBytes => RtBytes | TyBytesN n => RtBytesN n | TyDecimal n => RtDecimal n
  | TyArray t => RtArray (recurse t) | TyFixedArray t n => RtFixedArray (recurse t) n
  | TyMap k v => RtMap (recurse k) (recurse v) | TyFastMap k v => RtFastMap (recurse k) (recurse v)
  | TySet t => RtSet (recurse t) | TyOption_ t => RtOption_ (recurse t) | TyResult_ t e => RtResult_ (recurse t) (recurse e)
  | TyTuple ts => RtTuple (recurse <$> ts) | TyFn ps r => RtFn (recurse <$> ps) (recurse r)
  | TyNamed name args => if bool_decide (name = text "_") then RtUnknown else resolve_named name (recurse <$> args)
  end.
