(* ===== verification/Resolver.v ===== *)
(** * Name resolution of the contract language
      ([lemma-lang/src/type_checker/resolver.rs], [stdlib/mod.rs], the duplicate check of [mod.rs])

    The resolver's fields are the state of a monad; an error ends the pass, so the
    state beside it is not kept.  A stack of scopes is a list with the innermost
    scope first. *)
From stdpp Require Import strings.
From S2P Require Import Prelude LexToken LangAst LangTypes.

(** ** The state *)

Notation Scope := (gmap (list N) SymbolId) (only parsing).
Record Resolver := {
  symbols : list SymbolInfo;
  resolutions : gmap Span SymbolId;
  sigs : gmap SymbolId SymbolSig;
  value_scopes : list Scope;
  type_scopes : list Scope;
  in_method : bool;
  struct_traits : gmap SymbolId (list (list N));
  trait_methods : gmap SymbolId (list (list N));
  contract_methods : gmap SymbolId (list (list N));
  interface_methods : gmap SymbolId (list (list N));
  event_field_sigs : gmap (list N) (list (list N * ResolvedType));
}.
Definition Resolver_new : Resolver :=
  {| symbols := []; resolutions := ∅; sigs := ∅; value_scopes := []; type_scopes := []; in_method := false;
     struct_traits := ∅; trait_methods := ∅; contract_methods := ∅; interface_methods := ∅; event_field_sigs := ∅ |}.

Definition M (A : Type) : Type := Resolver → result TypeError (Resolver * A).
#[export] Instance M_ret : MRet M := λ A x r, Ok (r, x).
#[export] Instance M_bind : MBind M := λ A B f m r,
  match m r with Ok (r', x) => f x r' | Err e => Err e end.
Definition get {A} (f : Resolver → A) : M A := λ r, Ok (r, f r).
Definition modify (f : Resolver → Resolver) : M () := λ r, Ok (f r, ()).
Definition fail {A} (e : TypeError) : M A := λ _, Err e.

(** [for x in l { f(x)? }] *)
Section each.
Context {A : Type} (f : A → M ()).
Fixpoint each (l : list A) : M () :=
  match l with [] => mret () | x :: l => _ ← f x; each l end.
End each.
Definition each_option {A} (f : A → M ()) (o : option A) : M () := match o with Some x => f x | None => mret () end.

Section setters.
Context (r : Resolver).
Definition set_symbols (x : list SymbolInfo) : Resolver :=
  {| symbols := x; resolutions := resolutions r; sigs := sigs r; value_scopes := value_scopes r; type_scopes := type_scopes r;
     in_method := in_method r; struct_traits := struct_traits r; trait_methods := trait_methods r;
     contract_methods := contract_methods r; interface_methods := interface_methods r; event_field_sigs := event_field_sigs r |}.
Definition set_resolutions (x : gmap Span SymbolId) : Resolver :=
  {| symbols := symbols r; resolutions := x; sigs := sigs r; value_scopes := value_scopes r; type_scopes := type_scopes r;
     in_method := in_method r; struct_traits := struct_traits r; trait_methods := trait_methods r;
     contract_methods := contract_methods r; interface_methods := interface_methods r; event_field_sigs := event_field_sigs r |}.
Definition set_sigs (x : gmap SymbolId SymbolSig) : Resolver :=
  {| symbols := symbols r; resolutions := resolutions r; sigs := x; value_scopes := value_scopes r; type_scopes := type_scopes r;
     in_method := in_method r; struct_traits := struct_traits r; trait_methods := trait_methods r;
     contract_methods := contract_methods r; interface_methods := interface_methods r; event_field_sigs := event_field_sigs r |}.
Definition set_value_scopes (x : list Scope) : Resolver :=
  {| symbols := symbols r; resolutions := resolutions r; sigs := sigs r; value_scopes := x; type_scopes := type_scopes r;
     in_method := in_method r; struct_traits := struct_traits r; trait_methods := trait_methods r;
     contract_methods := contract_methods r; interface_methods := interface_methods r; event_field_sigs := event_field_sigs r |}.
Definition set_type_scopes (x : list Scope) : Resolver :=
  {| symbols := symbols r; resolutions := resolutions r; sigs := sigs r; value_scopes := value_scopes r; type_scopes := x;
     in_method := in_method r; struct_traits := struct_traits r; trait_methods := trait_methods r;
     contract_methods := contract_methods r; interface_methods := interface_methods r; event_field_sigs := event_field_sigs r |}.
Definition set_in_method (x : bool) : Resolver :=
  {| symbols := symbols r; resolutions := resolutions r; sigs := sigs r; value_scopes := value_scopes r; type_scopes := type_scopes r;
     in_method := x; struct_traits := struct_traits r; trait_methods := trait_methods r;
     contract_methods := contract_methods r; interface_methods := interface_methods r; event_field_sigs := event_field_sigs r |}.
Definition set_struct_traits (x : gmap SymbolId (list (list N))) : Resolver :=
  {| symbols := symbols r; resolutions := resolutions r; sigs := sigs r; value_scopes := value_scopes r; type_scopes := type_scopes r;
     in_method := in_method r; struct_traits := x; trait_methods := trait_methods r;
     contract_methods := contract_methods r; interface_methods := interface_methods r; event_field_sigs := event_field_sigs r |}.
Definition set_trait_methods (x : gmap SymbolId (list (list N))) : Resolver :=
  {| symbols := symbols r; resolutions := resolutions r; sigs := sigs r; value_scopes := value_scopes r; type_scopes := type_scopes r;
     in_method := in_method r; struct_traits := struct_traits r; trait_methods := x;
     contract_methods := contract_methods r; interface_methods := interface_methods r; event_field_sigs := event_field_sigs r |}.
Definition set_contract_methods (x : gmap SymbolId (list (list N))) : Resolver :=
  {| symbols := symbols r; resolutions := resolutions r; sigs := sigs r; value_scopes := value_scopes r; type_scopes := type_scopes r;
     in_method := in_method r; struct_traits := struct_traits r; trait_methods := trait_methods r;
     contract_methods := x; interface_methods := interface_methods r; event_field_sigs := event_field_sigs r |}.
Definition set_interface_methods (x : gmap SymbolId (list (list N))) : Resolver :=
  {| symbols := symbols r; resolutions := resolutions r; sigs := sigs r; value_scopes := value_scopes r; type_scopes := type_scopes r;
     in_method := in_method r; struct_traits := struct_traits r; trait_methods := trait_methods r;
     contract_methods := contract_methods r; interface_methods := x; event_field_sigs := event_field_sigs r |}.
Definition set_event_field_sigs (x : gmap (list N) (list (list N * ResolvedType))) : Resolver :=
  {| symbols := symbols r; resolutions := resolutions r; sigs := sigs r; value_scopes := value_scopes r; type_scopes := type_scopes r;
     in_method := in_method r; struct_traits := struct_traits r; trait_methods := trait_methods r;
     contract_methods := contract_methods r; interface_methods := interface_methods r; event_field_sigs := x |}.
End setters.

(** ** Symbols *)

(** [symbols[id - 1]], 0 reading the first entry. *)
Definition index_of (id : SymbolId) : nat := (N.to_nat id - 1)%nat.
Definition symbol (r : Resolver) (id : SymbolId) : option SymbolInfo := symbols r !! index_of id.

(** The number of the new symbol as [u32]. *)
Definition alloc_info (info : SymbolInfo) : M SymbolId := λ r,
  Ok (set_symbols r (symbols r ++ [info]), N.of_nat (S (length (symbols r))) mod 2 ^ 32).
Definition alloc_typed (name : list N) (decl_span : Span) (kind : SymbolKind) (ty : ResolvedType) : M SymbolId :=
  alloc_info {| sy_name := name; sy_decl_span := decl_span; sy_kind := kind; sy_ty := ty; sy_mutable := false; sy_pending_ann := None |}.
Definition alloc_typed_with_ann (name : list N) (decl_span : Span) (kind : SymbolKind) (ty : ResolvedType) (ann : option LType) : M SymbolId :=
  alloc_info {| sy_name := name; sy_decl_span := decl_span; sy_kind := kind; sy_ty := ty; sy_mutable := false;
                sy_pending_ann := if is_unknown ty then ann else None |}.
Definition alloc (name : list N) (decl_span : Span) (kind : SymbolKind) : M SymbolId := alloc_typed name decl_span kind RtUnknown.

Definition with_ty (ty : ResolvedType) (s : SymbolInfo) : SymbolInfo :=
  {| sy_name := sy_name s; sy_decl_span := sy_decl_span s; sy_kind := sy_kind s; sy_ty := ty; sy_mutable := sy_mutable s;
     sy_pending_ann := sy_pending_ann s |}.
Definition with_mutable (s : SymbolInfo) : SymbolInfo :=
  {| sy_name := sy_name s; sy_decl_span := sy_decl_span s; sy_kind := sy_kind s; sy_ty := sy_ty s; sy_mutable := true;
     sy_pending_ann := sy_pending_ann s |}.
Definition without_pending (s : SymbolInfo) : SymbolInfo :=
  {| sy_name := sy_name s; sy_decl_span := sy_decl_span s; sy_kind := sy_kind s; sy_ty := sy_ty s; sy_mutable := sy_mutable s;
     sy_pending_ann := None |}.
Definition set_sym_ty (id : SymbolId) (ty : ResolvedType) : M () :=
  modify (λ r, set_symbols r (alter (with_ty ty) (index_of id) (symbols r))).
Definition set_sym_mutable (id : SymbolId) : M () :=
  modify (λ r, set_symbols r (alter with_mutable (index_of id) (symbols r))).

(** ** Scopes *)

Definition push_value_scope : M () := modify (λ r, set_value_scopes r (∅ :: value_scopes r)).
Definition pop_value_scope : M () := modify (λ r, set_value_scopes r (tail (value_scopes r))).
Definition push_type_scope : M () := modify (λ r, set_type_scopes r (∅ :: type_scopes r)).
Definition pop_type_scope : M () := modify (λ r, set_type_scopes r (tail (type_scopes r))).

(** Defined in the innermost scope; the answer is what the name stood for there. *)
Definition define_value (name : list N) (id : SymbolId) : M (option SymbolId) := λ r,
  match value_scopes r with
  | [] => Ok (r, None)
  | s :: ss => Ok (set_value_scopes r (<[name := id]> s :: ss), s !! name)
  end.
Definition define_type (name : list N) (id : SymbolId) : M (option SymbolId) := λ r,
  match type_scopes r with
  | [] => Ok (r, None)
  | s :: ss => Ok (set_type_scopes r (<[name := id]> s :: ss), s !! name)
  end.
Fixpoint lookup_scopes (scopes : list Scope) (name : list N) : option SymbolId :=
  match scopes with
  | [] => None
  | s :: ss => match s !! name with Some id => Some id | None => lookup_scopes ss name end
  end.
Definition lookup_value (r : Resolver) (name : list N) : option SymbolId := lookup_scopes (value_scopes r) name.
Definition lookup_type (r : Resolver) (name : list N) : option SymbolId := lookup_scopes (type_scopes r) name.

Definition dup_err (name : list N) (span : Span) : TypeError := {| te_kind := DuplicateDeclaration name; te_span := span |}.
Definition undef_name_err (name : list N) (span : Span) : TypeError := {| te_kind := UndefinedName name; te_span := span |}.
Definition undef_type_err (name : list N) (span : Span) : TypeError := {| te_kind := UndefinedType name; te_span := span |}.
Definition define_value_or_err (name : list N) (id : SymbolId) (span : Span) : M () :=
  old ← define_value name id; match old with Some _ => fail (dup_err name span) | None => mret () end.
Definition define_type_or_err (name : list N) (id : SymbolId) (span : Span) : M () :=
  old ← define_type name id; match old with Some _ => fail (dup_err name span) | None => mret () end.

(** ** Types *)

Definition named_type (r : Resolver) (name : list N) (args : list ResolvedType) : ResolvedType :=
  match lookup_type r name with
  | None => RtUnknown
  | Some id =>
      match symbol r id with
      | Some info => if bool_decide (sy_kind info = SkGenericParam) then RtTypeParam name else RtNamed id args
      | None => RtNamed id args
      end
  end.
Definition lower_type (r : Resolver) (ty : LType) : ResolvedType := lower_type_with (named_type r) ty.

(** The check that every name of a type is defined. *)
Fixpoint resolve_type_ref (span : Span) (ty : LType) : M () :=
  match ty with
  | TyArray t | TySet t | TyOption_ t | TyFixedArray t _ => resolve_type_ref span t
  | TyMap k v | TyFastMap k v | TyResult_ k v => _ ← resolve_type_ref span k; resolve_type_ref span v
  | TyTuple ts => each (resolve_type_ref span) ts
  | TyFn ps t => _ ← each (resolve_type_ref span) ps; resolve_type_ref span t
  | TyNamed name args =>
      if bool_decide (name = text "_") then mret () else
      known ← get (λ r, lookup_type r name);
      match known with
      | None => fail (undef_type_err name span)
      | Some _ => each (resolve_type_ref span) args
      end
  | _ => mret ()
  end.

(** The symbols that had no type when they were declared are lowered again at the
    end, in the scopes that are left then. *)
Definition re_lower (r : Resolver) (i : nat) (ann : LType) : Resolver :=
  let ty := lower_type r ann in
  set_symbols r (alter (λ s, without_pending (if is_unknown ty then s else with_ty ty s)) i (symbols r)).
Definition to_relower (r : Resolver) : list (nat * LType) :=
  omap (λ '(i, s), if is_unknown (sy_ty s) then (λ ann, (i, ann)) <$> sy_pending_ann s else None) (imap pair (symbols r)).
Definition re_lower_forward_refs : M () := modify (λ r, foldl (λ r '(i, ann), re_lower r i ann) r (to_relower r)).

(** ** Patterns *)

Fixpoint collect_pattern_bindings (p : Pattern) : list (list N * Span) :=
  match p with
  | PIdent name span => [(name, span)]
  | PTuple inner _ => mjoin (collect_pattern_bindings <$> inner)
  | PStruct_ _ fields _ => mjoin ((λ f, collect_pattern_bindings f.2) <$> fields)
  | PEnumVariant _ (Some inner) _ => mjoin (collect_pattern_bindings <$> inner)
  | _ => []
  end.
(** The variables of a pattern without a type. *)
Definition bind_locals (bindings : list (list N * Span)) : M () :=
  each (λ '(name, span), id ← alloc name span SkLocal; _ ← define_value name id; mret ()) bindings.

(** ** Expressions and statements *)

(** A scope is pushed, and popped on the way out; an error ends the pass anyway. *)
Definition in_value_scope {A} (m : M A) : M A := _ ← push_value_scope; x ← m; _ ← pop_value_scope; mret x.
Definition in_type_scope {A} (m : M A) : M A := _ ← push_type_scope; x ← m; _ ← pop_type_scope; mret x.

(** A variable of a [let]: the annotation types only a plain name. *)
Definition let_binding (mutable : bool) (pattern : Pattern) (ty : option LType) (b : list N * Span) : M () :=
  lower ← get lower_type;
  let ann := match pattern with PIdent _ _ => ty | _ => None end in
  let sym_ty := match ann with Some t => lower t | None => RtUnknown end in
  id ← alloc_typed_with_ann b.1 b.2 SkLocal sym_ty ann;
  _ ← (if mutable then set_sym_mutable id else mret ());
  _ ← define_value b.1 id; mret ().
(** A declared value whose type may be lowered again. *)
Definition declare_typed (name : list N) (span : Span) (kind : SymbolKind) (ty : LType) : M SymbolId :=
  lower ← get lower_type; alloc_typed_with_ann name span kind (lower ty) (Some ty).
Definition lambda_binding (p : Param) : M () :=
  let '(MkParam name ty _ span) := p in
  id ← declare_typed name span SkParam ty; _ ← define_value name id; resolve_type_ref span ty.

Fixpoint resolve_expr (e : Expr) : M () :=
  match e with
  | EIdent name span =>
      found ← get (λ r, lookup_value r name);
      match found with
      | Some id => modify (λ r, set_resolutions r (<[span := id]> (resolutions r)))
      | None => fail (undef_name_err name span)
      end
  | ELiteral _ _ => mret ()
  | ETuple elems _ | EArray elems _ => each resolve_expr elems
  | EStruct_ name fields spread span =>
      known ← get (λ r, lookup_type r name);
      match known with
      | None => fail (undef_type_err name span)
      | Some _ => _ ← each (λ '(_, v), resolve_expr v) fields; match spread with Some s => resolve_expr s | None => mret () end
      end
  | ECall callee _ args _ => _ ← resolve_expr callee; each resolve_arg args
  | EIndex base idx _ => _ ← resolve_expr base; resolve_expr idx
  | EMember base _ _ => resolve_expr base
  | EUnary _ e _ => resolve_expr e
  | EBinary _ l r _ | ENullish l r _ => _ ← resolve_expr l; resolve_expr r
  | ETernary c t f _ => _ ← resolve_expr c; _ ← resolve_expr t; resolve_expr f
  | ETry_ e _ => resolve_expr e
  | EAssign_ target _ value _ => _ ← resolve_expr target; resolve_expr value
  | ELambda params body _ =>
      in_value_scope (_ ← each lambda_binding params;
        match body with LambdaExpr e => resolve_expr e | LambdaBlock stmts => each resolve_stmt stmts end)
  | ENew ty _ args span =>
      known ← get (λ r, lookup_type r ty);
      match known with None => fail (undef_type_err ty span) | Some _ => each resolve_arg args end
  | EIf_ cond then_ else_ _ =>
      _ ← resolve_expr cond; _ ← in_value_scope (each resolve_stmt then_);
      match else_ with Some b => in_value_scope (each resolve_stmt b) | None => mret () end
  | EMatch_ scrutinee arms _ => _ ← resolve_expr scrutinee; each resolve_match_arm arms
  | ETemplate segments _ => each resolve_segment segments
  | ECast e ty span => _ ← resolve_expr e; resolve_type_ref span ty
  end
with resolve_arg (a : CallArg) : M () :=
  match a with Positional e | Named _ e => resolve_expr e end
with resolve_segment (s : TemplateExprSegment) : M () :=
  match s with SegInterpolation e => resolve_expr e | SegLiteral _ => mret () end
with resolve_match_arm (a : MatchArm) : M () :=
  match a with
  | MkMatchArm pattern guard body _ =>
      in_value_scope (
        _ ← bind_locals (collect_pattern_bindings pattern);
        _ ← match guard with Some g => resolve_expr g | None => mret () end;
        match body with MatchExpr e => resolve_expr e | MatchBlock stmts => each resolve_stmt stmts end)
  end
with resolve_stmt (s : Stmt) : M () :=
  match s with
  | SLet mutable pattern ty e span =>
      _ ← resolve_expr e;
      _ ← each_option (resolve_type_ref span) ty;
      each (let_binding mutable pattern ty) (collect_pattern_bindings pattern)
  | SConst (MkConst name ty value span) =>
      _ ← resolve_type_ref span ty; _ ← resolve_expr value;
      id ← declare_typed name span SkConst ty; define_value_or_err name id span
  | SAssign target _ value _ => _ ← resolve_expr target; resolve_expr value
  | SReturn e _ => match e with Some e => resolve_expr e | None => mret () end
  | SIf cond then_ else_ _ =>
      _ ← resolve_expr cond; _ ← in_value_scope (each resolve_stmt then_);
      match else_ with Some b => in_value_scope (each resolve_stmt b) | None => mret () end
  | SWhile cond body _ => _ ← resolve_expr cond; in_value_scope (each resolve_stmt body)
  | SLoop body _ => in_value_scope (each resolve_stmt body)
  | SFor pattern iter body _ =>
      _ ← match iter with IterOf e => resolve_expr e | IterIn a _ b _ => _ ← resolve_expr a; resolve_expr b end;
      in_value_scope (_ ← bind_locals (collect_pattern_bindings pattern); each resolve_stmt body)
  | SMatch e arms _ => _ ← resolve_expr e; each resolve_match_arm arms
  | SEmit _ fields _ => each (λ '(_, v), resolve_expr v) fields
  | SAssert cond msg _ => _ ← resolve_expr cond; match msg with Some m => resolve_expr m | None => mret () end
  | SRevert msg _ => match msg with Some m => resolve_expr m | None => mret () end
  | STry body catch_var catch_body span =>
      _ ← in_value_scope (each resolve_stmt body);
      in_value_scope (id ← alloc catch_var span SkLocal; _ ← define_value catch_var id; each resolve_stmt catch_body)
  | SUnchecked body _ => in_value_scope (each resolve_stmt body)
  | SBreak _ | SContinue _ | SPlaceholder _ => mret ()
  | SExpr e _ => resolve_expr e
  end.

(** ** The standard library ([stdlib/mod.rs]) *)

Definition strip_std (path : list N) : option (list N) :=
  if bool_decide (text "@std/" `prefix_of` path) then Some (drop (length (text "@std/")) path) else None.
Definition module_name (path : list N) : option (list N) := strip_std path.
Definition symbol_kind (module name : list N) : option SymbolKind :=
  let exports (l : list string) : bool := existsb (λ s, bool_decide (text s = name)) l in
  let from (m : string) : bool := bool_decide (text m = module) in
  if from "token" then if exports ["Token"; "TaxToken"]%string then Some SkContract else None
  else if from "interfaces" then
    if exports ["IToken"; "INFT"; "IMultiToken"; "IVault"]%string then Some SkInterface
    else if exports ["ApprovalOpts"; "Allowance"]%string then Some SkStruct else None
  else if from "access" then if exports ["Ownable"; "Pausable"; "AccessControl"]%string then Some SkTrait else None
  else if from "agent" then
    if exports ["AgentPolicy"; "AutoRevoke"]%string then Some SkStruct
    else if exports ["KyaTier"]%string then Some SkEnum else None
  else None.

(** Names of the state fields with their types in source text, and of the functions
    with their visibility. *)
Record StdBaseMembers := { state_fields : list (string * string); functions : list (string * bool) }.
Definition token_fields : list (string * string) :=
  [("balances", "Map<Address, u128>"); ("totalSupply", "u128"); ("owner", "Address");
   ("allowances", "Map<Address, Map<Address, Allowance>>")]%string.
Definition token_functions : list (string * bool) :=
  [("transfer", true); ("approve", true); ("transferFrom", true); ("balanceOf", true); ("totalSupply", true);
   ("allowance", true); ("mint", true)]%string.
Definition base_members (name : list N) : option StdBaseMembers :=
  let named (s : string) : bool := bool_decide (text s = name) in
  if named "Token" then Some {| state_fields := token_fields; functions := token_functions |}
  else if named "TaxToken" then
    Some {| state_fields := token_fields ++ [("taxPool", "u128"); ("pairs", "Set<Address>"); ("exempt", "Set<Address>");
              ("rewardExempt", "Set<Address>")]%string;
            functions := token_functions ++ [("setPair", true); ("setExempt", true); ("setRewardExempt", true);
              ("isPair", false); ("isExempt", false)]%string |}
  else if named "Ownable" then
    Some {| state_fields := [("owner", "Address")]%string;
            functions := [("transferOwnership", true); ("renounceOwnership", true); ("isRenounced", false)]%string |}
  else if named "Pausable" then
    Some {| state_fields := [("paused", "bool")]%string; functions := [("pause", true); ("unpause", true)]%string |}
  else if named "AccessControl" then
    Some {| state_fields := [("roles", "Map<u128, Set<Address>>")]%string;
            functions := [("hasRole", false); ("grantRole", true); ("revokeRole", true)]%string |}
  else None.
(** Inherited members have the span of the contract and no type. *)
Definition inject_base_members (span : Span) (m : StdBaseMembers) : M () :=
  let inject kind (name : string) := id ← alloc (text name) span kind; _ ← define_value (text name) id; mret () in
  _ ← each (λ f, inject SkStateField f.1) (state_fields m);
  each (λ f, inject SkFunction f.1) (functions m).

(** ** Functions *)

Definition register_generic_param (gp : GenericParam) : M () :=
  id ← alloc (gp_name gp) (gp_span gp) SkGenericParam;
  _ ← define_type_or_err (gp_name gp) id (gp_span gp);
  each_option (resolve_type_ref (gp_span gp)) (gp_bound gp).

Definition fn_signature (r : Resolver) (f : Function_) : FnSig :=
  {| fs_params := (λ '(MkParam name ty default _), (name, lower_type r ty, bool_decide (is_Some default))) <$> fn_params f;
     fs_ret := match fn_return_type f with Some t => lower_type r t | None => RtUnit end;
     fs_generic_params := (λ gp, (gp_name gp, match gp_bound gp with Some (TyNamed name _) => lookup_type r name | _ => None end)) <$> fn_generic_params f |}.
(** The symbol that the function's name stands for gets the signature. *)
Definition record_signature (f : Function_) : M () :=
  sig ← get (λ r, fn_signature r f);
  found ← get (λ r, lookup_value r (fn_name f));
  match found with
  | None => mret ()
  | Some id =>
      _ ← set_sym_ty id (RtFn ((λ p, p.1.2) <$> fs_params sig) (fs_ret sig));
      modify (λ r, set_sigs r (<[id := SigFunction sig]> (sigs r)))
  end.
Definition declare_param (p : Param) : M () :=
  let '(MkParam name ty default span) := p in
  id ← declare_typed name span SkParam ty;
  _ ← define_value_or_err name id span;
  _ ← resolve_type_ref span ty;
  each_option resolve_expr default.
Definition resolve_function_body (f : Function_) : M () :=
  in_type_scope (
    _ ← each register_generic_param (fn_generic_params f);
    _ ← record_signature f;
    in_value_scope (
      _ ← each declare_param (fn_params f);
      _ ← each_option (resolve_type_ref (fn_span f)) (fn_return_type f);
      each_option (λ body, in_value_scope (each resolve_stmt body)) (fn_body f))).

(** ** Structs and enums *)

Definition methods_of (s : Struct_) : list Function_ :=
  omap (λ m, match m with MemberMethod f => Some f | MemberField _ => None end) (st_members s).
Definition fields_of (s : Struct_) : list FieldDecl :=
  omap (λ m, match m with MemberField f => Some f | MemberMethod _ => None end) (st_members s).
Definition struct_sig (r : Resolver) (s : Struct_) : SymbolSig :=
  SigStruct {| ss_fields := (λ f, (fd_name f, lower_type r (fd_ty f), false)) <$> fields_of s;
               ss_methods := omap (λ f, pair (fn_name f) <$> lookup_value r (fn_name f)) (methods_of s);
               ss_generic_params := gp_name <$> st_generic_params s |}.
Definition enum_sig (r : Resolver) (e : Enum) : SymbolSig :=
  SigEnum {| es_variants := (λ v, (ev_name v, (λ f, (fd_name f, lower_type r (fd_ty f))) <$> ev_fields v)) <$> en_variants e;
             es_generic_params := gp_name <$> en_generic_params e |}.
Definition record_sig (name : list N) (sig : SymbolSig) : M () :=
  found ← get (λ r, lookup_type r name);
  match found with
  | None => mret ()
  | Some id => modify (λ r, set_sigs r (<[id := sig]> (sigs r)))
  end.

Definition declare_function (f : Function_) : M () :=
  id ← alloc (fn_name f) (fn_span f) SkFunction; define_value_or_err (fn_name f) id (fn_span f).
Definition declare_type (name : list N) (span : Span) (kind : SymbolKind) : M SymbolId :=
  id ← alloc name span kind; _ ← define_type_or_err name id span; mret id.
Definition declare_value (name : list N) (span : Span) (kind : SymbolKind) (ty : LType) : M () :=
  id ← declare_typed name span kind ty; define_value_or_err name id span.

(** ** Contract bodies *)

Definition event_fields (r : Resolver) (e : Event) : list (list N * ResolvedType) :=
  (λ f, (ef_name f, lower_type r (ef_ty f))) <$> evt_fields e.
Definition register_contract_member (m : ContractMember) : M () :=
  match m with
  | CmState b => each (λ f, declare_value (sf_name f) (sf_span f) SkStateField (sf_ty f)) (sb_fields b)
  | CmConst (MkConst name ty _ span) => declare_value name span SkConst ty
  | CmImmutable i => declare_value (im_name i) (im_span i) SkImmutable (im_ty i)
  | CmFunction f => declare_function f
  | CmModifier md => id ← alloc (md_name md) (md_span md) SkFunction; define_value_or_err (md_name md) id (md_span md)
  | CmStruct s => _ ← declare_type (st_name s) (st_span s) SkStruct; mret ()
  | CmEnum e => _ ← declare_type (en_name e) (en_span e) SkEnum; mret ()
  | CmEvent e =>
      _ ← declare_type (evt_name e) (evt_span e) SkStruct;
      modify (λ r, set_event_field_sigs r (<[evt_name e := event_fields r e]> (event_field_sigs r)))
  | CmErrorDecl e => _ ← declare_type (err_name e) (err_span e) SkErrorDecl; mret ()
  | CmConfig _ | CmMetadata _ | CmReceive _ | CmFallback _ => mret ()
  end.
Definition resolve_contract_member (m : ContractMember) : M () :=
  match m with
  | CmState b =>
      each (λ f, _ ← resolve_type_ref (sf_span f) (sf_ty f); each_option resolve_expr (sf_default f)) (sb_fields b)
  | CmConst (MkConst _ ty value span) => _ ← resolve_type_ref span ty; resolve_expr value
  | CmImmutable i => resolve_type_ref (im_span i) (im_ty i)
  | CmFunction f => resolve_function_body f
  | CmModifier md => in_value_scope (_ ← each lambda_binding (md_params md); each resolve_stmt (md_body md))
  | CmReceive r => in_value_scope (each resolve_stmt (rcv_body r))
  | CmFallback f => in_value_scope (each resolve_stmt (fb_body f))
  | CmStruct s =>
      in_type_scope (
        _ ← each register_generic_param (st_generic_params s);
        _ ← each resolve_function_body (methods_of s);
        sig ← get (λ r, struct_sig r s);
        record_sig (st_name s) sig)
  | CmEvent _ | CmEnum _ | CmErrorDecl _ | CmConfig _ | CmMetadata _ => mret ()
  end.
(** Inherited names lie in a scope of their own below the user's. *)
Definition resolve_contract_body_with_base (members : list ContractMember) (contract_span : Span)
    (base : option StdBaseMembers) (traits : list StdBaseMembers) : M () :=
  in_value_scope (in_type_scope (
    self_id ← alloc (text "self") contract_span SkSelfBinding;
    _ ← define_value (text "self") self_id;
    _ ← each_option (inject_base_members contract_span) base;
    _ ← each (inject_base_members contract_span) traits;
    in_value_scope (in_type_scope (
      _ ← each register_contract_member members;
      prev_in_method ← get in_method;
      _ ← modify (λ r, set_in_method r true);
      _ ← each resolve_contract_member members;
      modify (λ r, set_in_method r prev_in_method))))).
Definition function_names (members : list ContractMember) : list (list N) :=
  omap (λ m, match m with CmFunction f => Some (fn_name f) | _ => None end) members.
Definition record_contract_methods (name : list N) (members : list ContractMember) : M () :=
  found ← get (λ r, lookup_type r name);
  match found with
  | None => mret ()
  | Some id => modify (λ r, set_contract_methods r (<[id := function_names members]> (contract_methods r)))
  end.

(** ** Items *)

(** An imported name is registered in both namespaces, whatever it is. *)
Definition register_import (imp : Import_) : M () :=
  let names := match imp_names imp with ImportNamed v => v | ImportStar alias => [alias] end in
  each (λ name,
    let kind := match module_name (imp_from imp) with
                | Some module => default SkImported (symbol_kind module name)
                | None => SkImported
                end in
    id_val ← alloc name (imp_span imp) kind; _ ← define_value name id_val;
    id_ty ← alloc name (imp_span imp) kind; _ ← define_type name id_ty; mret ()) names.

Definition interface_functions (i : Interface) : list (list N) :=
  omap (λ m, match m with ImFunction f => Some (fn_name f) | ImEvent _ => None end) (if_members i).
Definition trait_functions (t : Trait) : list (list N) :=
  omap (λ m, match m with TmFunction f => Some (fn_name f) | TmState _ => None end) (tr_members t).
Definition add_struct_traits (id : SymbolId) (traits : list (list N)) : M () :=
  modify (λ r, set_struct_traits r (<[id := traits]> (struct_traits r))).
Definition register_item (it : Item) : M () :=
  match it with
  | ItContract c => id ← declare_type (ct_name c) (ct_span c) SkContract; add_struct_traits id (ct_implements c ++ ct_uses c)
  | ItToken_ t => id ← declare_type (td_name t) (td_span t) SkContract; add_struct_traits id [td_extends t]
  | ItInterface i =>
      id ← declare_type (if_name i) (if_span i) SkInterface;
      modify (λ r, set_interface_methods r (<[id := interface_functions i]> (interface_methods r)))
  | ItTrait t =>
      id ← declare_type (tr_name t) (tr_span t) SkTrait;
      modify (λ r, set_trait_methods r (<[id := trait_functions t]> (trait_methods r)))
  | ItLibrary l => _ ← declare_type (lib_name l) (lib_span l) SkLibrary; mret ()
  | ItStruct s => id ← declare_type (st_name s) (st_span s) SkStruct; add_struct_traits id []
  | ItEnum e => id ← declare_type (en_name e) (en_span e) SkEnum; add_struct_traits id []
  | ItErrorDecl e => _ ← declare_type (err_name e) (err_span e) SkErrorDecl; mret ()
  | ItFunction f => declare_function f
  | ItConst (MkConst name ty _ span) => declare_value name span SkConst ty
  | ItTypeAlias a => _ ← declare_type (ta_name a) (ta_span a) SkTypeAlias; mret ()
  | ItImport i => register_import i
  | ItUsing _ => mret ()
  end.
Definition builtin (name : string) (ty : ResolvedType) : M () :=
  id ← alloc_typed (text name) (Span_at 0 0 0) SkBuiltinGlobal ty; _ ← define_value (text name) id; mret ().
Definition build_global_scope (ast : Ast) : M () :=
  _ ← push_value_scope; _ ← push_type_scope;
  _ ← builtin "msg" RtMsgContext; _ ← builtin "block" RtBlockContext;
  each register_item (items ast).

(** An event of an interface counts when no contract has declared its name yet. *)
Definition interface_event (m : InterfaceMember) : M () :=
  match m with
  | ImFunction _ => mret ()
  | ImEvent e => modify (λ r,
      match event_field_sigs r !! evt_name e with
      | Some _ => r
      | None => set_event_field_sigs r (<[evt_name e := event_fields r e]> (event_field_sigs r))
      end)
  end.
Definition resolve_item (it : Item) : M () :=
  match it with
  | ItContract c =>
      _ ← resolve_contract_body_with_base (ct_members c) (ct_span c) None (omap base_members (ct_uses c));
      record_contract_methods (ct_name c) (ct_members c)
  | ItToken_ t =>
      _ ← resolve_contract_body_with_base (td_members t) (td_span t) (base_members (td_extends t)) [];
      record_contract_methods (td_name t) (td_members t)
  | ItStruct s =>
      in_type_scope (
        _ ← each register_generic_param (st_generic_params s);
        sig ← in_value_scope (
          _ ← each declare_function (methods_of s);
          _ ← each resolve_function_body (methods_of s);
          get (λ r, struct_sig r s));
        record_sig (st_name s) sig)
  | ItEnum e =>
      in_type_scope (
        _ ← each register_generic_param (en_generic_params e);
        _ ← each resolve_function_body (en_methods e);
        sig ← get (λ r, enum_sig r e);
        record_sig (en_name e) sig)
  | ItFunction f => resolve_function_body f
  | ItConst (MkConst _ ty value span) => _ ← resolve_type_ref span ty; resolve_expr value
  | ItTypeAlias a => resolve_type_ref (ta_span a) (ta_ty a)
  | ItInterface i => each interface_event (if_members i)
  | ItTrait _ | ItLibrary _ | ItImport _ | ItUsing _ | ItErrorDecl _ => mret ()
  end.

(** The pass; its output is the final state. *)
Definition resolve (ast : Ast) : result TypeError Resolver :=
  '(r, _) ← (_ ← build_global_scope ast; _ ← each resolve_item (items ast); re_lower_forward_refs) Resolver_new; Ok r.

(** ** The duplicate check that runs first ([mod.rs]) *)

Definition top_level_name (it : Item) : option (list N * Span) :=
  match it with
  | ItContract c => Some (ct_name c, ct_span c) | ItToken_ t => Some (td_name t, td_span t)
  | ItInterface i => Some (if_name i, if_span i) | ItTrait t => Some (tr_name t, tr_span t)
  | ItLibrary l => Some (lib_name l, lib_span l) | ItStruct s => Some (st_name s, st_span s)
  | ItEnum e => Some (en_name e, en_span e) | ItFunction f => Some (fn_name f, fn_span f)
  | ItConst (MkConst name _ _ span) => Some (name, span) | ItTypeAlias a => Some (ta_name a, ta_span a)
  | ItErrorDecl e => Some (err_name e, err_span e)
  | ItImport _ | ItUsing _ => None
  end.
Fixpoint check_names (seen : list (list N)) (its : list Item) : result TypeError () :=
  match its with
  | [] => Ok ()
  | it :: its =>
      match top_level_name it with
      | None => check_names seen its
      | Some (name, span) =>
          if bool_decide (name ∈ seen) then Err (dup_err name span) else check_names (name :: seen) its
      end
  end.
Definition check_no_duplicate_top_level_names (its : list Item) : result TypeError () := check_names [] its.
