(* ===== verification/ResolverSpec.v ===== *)
(** * Lexical scoping, and triples for the resolver

    The reference is a functional environment: what a name stands for at a point of the
    program is the declaration that the enclosing text gives it.  The resolver keeps
    stacks of scopes, an arena of symbols and a table of spans; its steps are related to
    the reference by triples. *)
From stdpp Require Import strings.
From S2P Require Import Prelude LexToken LangAst LangTypes Resolver.

(** ** The reference

    A declaration is where it is and what it declares; a use is a name in value position
    with its span and the declaration it stands for, marked [false] when it is at a place
    that the pass does not visit. *)
Definition Decl : Type := Span * SymbolKind.
Notation Env := (gmap (list N) Decl) (only parsing).
Definition Use : Type := bool * (list N * Span * option Decl).
(** The uses in a part of the program that is not visited. *)
Definition hidden (l : list Use) : list Use := (λ u, (false, u.2)) <$> l.

(** Declarations in order, later ones hiding earlier ones. *)
Definition declare (ρ : Env) (l : list (list N * Decl)) : Env := foldl (λ ρ b, <[b.1 := b.2]> ρ) ρ l.
Definition locals (l : list (list N * Span)) : list (list N * Decl) := (λ b, (b.1, (b.2, SkLocal))) <$> l.
Definition pattern_decls (p : Pattern) : list (list N * Decl) := locals (collect_pattern_bindings p).
Definition param_decl (p : Param) : list N * Decl := let '(MkParam name _ _ span) := p in (name, (span, SkParam)).
(** Only [let] and [const] declare for the statements that follow. *)
Definition stmt_decls (s : Stmt) : list (list N * Decl) :=
  match s with
  | SLet _ p _ _ _ => pattern_decls p
  | SConst (MkConst name _ _ span) => [(name, (span, SkConst))]
  | _ => []
  end.
Section block.
Context (scope_stmt : Env → Stmt → list Use).
Fixpoint scope_block (ρ : Env) (l : list Stmt) : list Use :=
  match l with [] => [] | s :: l => scope_stmt ρ s ++ scope_block (declare ρ (stmt_decls s)) l end.
End block.
Definition scope_option {A} (f : A → list Use) (o : option A) : list Use := match o with Some x => f x | None => [] end.

Fixpoint scope_expr (ρ : Env) (e : Expr) : list Use :=
  match e with
  | EIdent name span => [(true, (name, span, ρ !! name))]
  | ELiteral l _ => match l with LUnit e _ => hidden (scope_expr ρ e) | _ => [] end
  | ETuple es _ | EArray es _ => mjoin (scope_expr ρ <$> es)
  | EStruct_ _ fields spread _ => mjoin ((λ f, scope_expr ρ f.2) <$> fields) ++ scope_option (scope_expr ρ) spread
  | ECall c opts args _ => (scope_expr ρ c ++ mjoin (scope_arg ρ <$> args)) ++ hidden (scope_option (scope_opts ρ) opts)
  | EIndex a b _ | EBinary _ a b _ | ENullish a b _ | EAssign_ a _ b _ => scope_expr ρ a ++ scope_expr ρ b
  | EMember e _ _ | EUnary _ e _ | ETry_ e _ | ECast e _ _ => scope_expr ρ e
  | ETernary c t f _ => scope_expr ρ c ++ scope_expr ρ t ++ scope_expr ρ f
  | ELambda ps body _ =>
      let ρ := declare ρ (param_decl <$> ps) in
      match body with LambdaExpr e => scope_expr ρ e | LambdaBlock ss => scope_block scope_stmt ρ ss end ++
      hidden (mjoin (scope_default ρ <$> ps))
  | ENew _ opts args _ => mjoin (scope_arg ρ <$> args) ++ hidden (scope_option (scope_opts ρ) opts)
  | EMatch_ e arms _ => scope_expr ρ e ++ mjoin (scope_arm ρ <$> arms)
  | EIf_ c t f _ => scope_expr ρ c ++ scope_block scope_stmt ρ t ++ scope_option (scope_block scope_stmt ρ) f
  | ETemplate segs _ => mjoin (scope_segment ρ <$> segs)
  end
with scope_opts (ρ : Env) (o : CallOpts) : list Use :=
  match o with
  | MkCallOpts value gas salt _ => scope_option (scope_expr ρ) value ++ scope_option (scope_expr ρ) gas ++ scope_option (scope_expr ρ) salt
  end
with scope_default (ρ : Env) (p : Param) : list Use := match p with MkParam _ _ d _ => scope_option (scope_expr ρ) d end
with scope_arg (ρ : Env) (a : CallArg) : list Use := match a with Positional e | Named _ e => scope_expr ρ e end
with scope_segment (ρ : Env) (s : TemplateExprSegment) : list Use :=
  match s with SegInterpolation e => scope_expr ρ e | SegLiteral _ => [] end
with scope_arm (ρ : Env) (a : MatchArm) : list Use :=
  match a with
  | MkMatchArm p guard body _ =>
      let ρ := declare ρ (pattern_decls p) in
      scope_option (scope_expr ρ) guard ++
      match body with MatchExpr e => scope_expr ρ e | MatchBlock ss => scope_block scope_stmt ρ ss end
  end
with scope_stmt (ρ : Env) (s : Stmt) : list Use :=
  match s with
  | SLet _ _ _ e _ | SExpr e _ => scope_expr ρ e
  | SConst (MkConst _ _ v _) => scope_expr ρ v
  | SAssign a _ b _ => scope_expr ρ a ++ scope_expr ρ b
  | SReturn e _ | SRevert e _ => scope_option (scope_expr ρ) e
  | SIf c t f _ => scope_expr ρ c ++ scope_block scope_stmt ρ t ++ scope_option (scope_block scope_stmt ρ) f
  | SWhile c b _ => scope_expr ρ c ++ scope_block scope_stmt ρ b
  | SLoop b _ | SUnchecked b _ => scope_block scope_stmt ρ b
  | SFor p iter b _ =>
      match iter with IterOf e => scope_expr ρ e | IterIn a _ b _ => scope_expr ρ a ++ scope_expr ρ b end ++
      scope_block scope_stmt (declare ρ (pattern_decls p)) b
  | SMatch e arms _ => scope_expr ρ e ++ mjoin (scope_arm ρ <$> arms)
  | SEmit _ fields _ => mjoin ((λ f, scope_expr ρ f.2) <$> fields)
  | SAssert c m _ => scope_expr ρ c ++ scope_option (scope_expr ρ) m
  | STry b x c span => scope_block scope_stmt ρ b ++ scope_block scope_stmt (<[x := (span, SkLocal)]> ρ) c
  | SBreak _ | SContinue _ | SPlaceholder _ => []
  end.

(** A default value sees its own parameter and those before it. *)
Fixpoint scope_params (ρ : Env) (ps : list Param) : list Use :=
  match ps with
  | [] => []
  | MkParam name _ d span :: ps =>
      let ρ := <[name := (span, SkParam)]> ρ in scope_option (scope_expr ρ) d ++ scope_params ρ ps
  end.
Definition scope_fn (ρ : Env) (f : Function_) : list Use :=
  scope_params ρ (fn_params f) ++ scope_option (scope_block scope_stmt (declare ρ (param_decl <$> fn_params f))) (fn_body f).

(** The members of a contract are declared before their bodies are read. *)
Definition member_decls (m : ContractMember) : list (list N * Decl) :=
  match m with
  | CmState b => (λ f, (sf_name f, (sf_span f, SkStateField))) <$> sb_fields b
  | CmConst (MkConst name _ _ span) => [(name, (span, SkConst))]
  | CmImmutable i => [(im_name i, (im_span i, SkImmutable))]
  | CmFunction f => [(fn_name f, (fn_span f, SkFunction))]
  | CmModifier md => [(md_name md, (md_span md, SkFunction))]
  | _ => []
  end.
(** The discriminants of an enum. *)
Definition scope_variants (ρ : Env) (e : Enum) : list Use := mjoin ((λ v, scope_option (scope_expr ρ) (ev_discriminant v)) <$> en_variants e).
Definition scope_member (ρ : Env) (m : ContractMember) : list Use :=
  match m with
  | CmState b => mjoin ((λ f, scope_option (scope_expr ρ) (sf_default f)) <$> sb_fields b)
  | CmConst (MkConst _ _ v _) => scope_expr ρ v
  | CmFunction f => scope_fn ρ f
  | CmModifier md =>
      let ρ := declare ρ (param_decl <$> md_params md) in
      scope_block scope_stmt ρ (md_body md) ++ hidden (mjoin (scope_default ρ <$> md_params md))
  | CmReceive r => scope_block scope_stmt ρ (rcv_body r)
  | CmFallback f => scope_block scope_stmt ρ (fb_body f)
  | CmStruct s => mjoin (scope_fn ρ <$> methods_of s)
  | CmEnum e => hidden (mjoin (scope_fn ρ <$> en_methods e) ++ scope_variants ρ e)
  | CmEvent e => hidden (mjoin (scope_fn ρ <$> evt_methods e))
  | CmImmutable _ | CmErrorDecl _ | CmConfig _ | CmMetadata _ => []
  end.
Definition base_decls (span : Span) (m : StdBaseMembers) : list (list N * Decl) :=
  ((λ f, (text f.1, (span, SkStateField))) <$> state_fields m) ++ ((λ f, (text f.1, (span, SkFunction))) <$> functions m).
Definition contract_env (ρ : Env) (ms : list ContractMember) (span : Span) (bases : list StdBaseMembers) : Env :=
  declare ρ ((text "self", (span, SkSelfBinding)) :: mjoin (base_decls span <$> bases) ++ mjoin (member_decls <$> ms)).
Definition scope_contract (ρ : Env) (ms : list ContractMember) (span : Span) (bases : list StdBaseMembers) : list Use :=
  mjoin (scope_member (contract_env ρ ms span bases) <$> ms).

(** Functions, constants and imported names are declared for the whole file. *)
Definition import_kind (i : Import_) (name : list N) : SymbolKind :=
  match module_name (imp_from i) with Some module => default SkImported (symbol_kind module name) | None => SkImported end.
Definition import_names (i : Import_) : list (list N) :=
  match imp_names i with ImportNamed v => v | ImportStar alias => [alias] end.
Definition item_decls (it : Item) : list (list N * Decl) :=
  match it with
  | ItFunction f => [(fn_name f, (fn_span f, SkFunction))]
  | ItConst (MkConst name _ _ span) => [(name, (span, SkConst))]
  | ItImport i => (λ name, (name, (imp_span i, import_kind i name))) <$> import_names i
  | _ => []
  end.
Definition builtin_decls : list (list N * Decl) :=
  [(text "msg", (Span_at 0 0 0, SkBuiltinGlobal)); (text "block", (Span_at 0 0 0, SkBuiltinGlobal))].
Definition global_env (ast : Ast) : Env := declare ∅ (builtin_decls ++ mjoin (item_decls <$> items ast)).
Definition fn_decls (fs : list Function_) : list (list N * Decl) := (λ f, (fn_name f, (fn_span f, SkFunction))) <$> fs.
Definition interface_fns (i : Interface) : list Function_ :=
  mjoin ((λ m, match m with ImFunction f => [f] | ImEvent e => evt_methods e end) <$> if_members i).
(** The members of a trait are declared in it. *)
Definition trait_decls (t : Trait) : list (list N * Decl) :=
  mjoin ((λ m, match m with TmState b => member_decls (CmState b) | TmFunction f => fn_decls [f] end) <$> tr_members t).
Definition scope_trait_member (ρ : Env) (m : TraitMember) : list Use :=
  match m with TmState b => scope_member ρ (CmState b) | TmFunction f => scope_fn ρ f end.
Definition scope_item (ρ : Env) (it : Item) : list Use :=
  match it with
  | ItContract c => scope_contract ρ (ct_members c) (ct_span c) (omap base_members (ct_uses c))
  | ItToken_ t => scope_contract ρ (td_members t) (td_span t) (option_list (base_members (td_extends t)))
  | ItStruct s => mjoin (scope_fn (declare ρ (fn_decls (methods_of s))) <$> methods_of s)
  | ItEnum e => mjoin (scope_fn ρ <$> en_methods e) ++ hidden (scope_variants ρ e)
  | ItFunction f => scope_fn ρ f
  | ItConst (MkConst _ _ v _) => scope_expr ρ v
  | ItLibrary l => hidden (mjoin (scope_fn (declare ρ (fn_decls (lib_functions l))) <$> lib_functions l))
  | ItTrait t => hidden (mjoin (scope_trait_member (declare ρ (trait_decls t)) <$> tr_members t))
  | ItInterface i => hidden (mjoin (scope_fn ρ <$> interface_fns i))
  | ItTypeAlias _ | ItImport _ | ItUsing _ | ItErrorDecl _ => []
  end.
(** The uses of a program: all names in value position, but for the arguments of
    annotations. *)
Definition scoped (ast : Ast) : list Use := mjoin (scope_item (global_env ast) <$> items ast).

(** The uses at the places the pass visits. *)
Definition visited (l : list Use) : list (list N * Span * option Decl) := omap (λ u : Use, if u.1 then Some u.2 else None) l.
Lemma elem_of_visited l u : u ∈ visited l ↔ (true, u) ∈ l.
Proof.
  unfold visited. rewrite list_elem_of_omap. split; [|intros H; by exists (true, u)]. intros ([b u'] & H & E). cbn in E. destruct b; [|done].
  by injection E as ->.
Qed.

Lemma declare_app ρ l k : declare ρ (l ++ k) = declare (declare ρ l) k.
Proof. apply foldl_app. Qed.

(** ** The invariant *)

(** What never changes of a symbol. *)
Definition sym_key (s : SymbolInfo) : list N * Decl := (sy_name s, (sy_decl_span s, sy_kind s)).
Definition keys (r : Resolver) : list (list N * Decl) := sym_key <$> symbols r.
(** [id] is the symbol of the declaration [d] of [name]. *)
Definition declared (name : list N) (d : Decl) (r : Resolver) (id : SymbolId) : Prop :=
  0 < id ∧ keys r !! index_of id = Some (name, d).
Definition named (name : list N) (r : Resolver) (id : SymbolId) : Prop := ∃ d, declared name d r id.
Definition scope_ok (r : Resolver) (s : gmap (list N) SymbolId) : Prop := map_Forall (λ name id, named name r id) s.
(** The scopes represent the environment. *)
Definition represents (r : Resolver) (ρ : Env) : Prop :=
  ∀ name, ρ !! name = lookup_value r name ≫= λ id, snd <$> keys r !! index_of id.
Record wf (ρ : Env) (r : Resolver) : Prop := {
  wf_env : represents r ρ;
  wf_open : value_scopes r ≠ [];
  wf_values : Forall (scope_ok r) (value_scopes r);
  wf_types : Forall (scope_ok r) (type_scopes r);
  wf_sigs : ∀ id sig, sigs r !! id = Some sig → ∃ name, named name r id;
}.

(** The scopes after a step: the same, or with another innermost one. *)
Definition keeps_scopes (open : bool) (ss ss' : list Scope) : Prop :=
  if open then tail ss' = tail ss ∧ length ss' = length ss else ss' = ss.
(** From [r] to [r'], recording the uses [U]; [open] says which innermost scopes, of
    values and of types, may have changed. *)
Record steps (open : bool * bool) (U : list Use) (r r' : Resolver) : Prop := {
  steps_grow : ∃ new, keys r' = keys r ++ new;
  steps_values : keeps_scopes open.1 (value_scopes r) (value_scopes r');
  steps_types : keeps_scopes open.2 (type_scopes r) (type_scopes r');
  steps_new : ∀ span id, resolutions r' !! span = Some id →
    resolutions r !! span = Some id ∨ ∃ name d, (true, (name, span, Some d)) ∈ U ∧ declared name d r' id;
  steps_uses : ∀ name span d, (true, (name, span, d)) ∈ U → is_Some d ∧ is_Some (resolutions r' !! span);
  steps_dom : ∀ span, is_Some (resolutions r !! span) → is_Some (resolutions r' !! span);
}.

Lemma declared_mono name d r r' new id : keys r' = keys r ++ new → declared name d r id → declared name d r' id.
Proof. intros Hk (H0 & H). split; [done|]. rewrite Hk. by apply lookup_app_l_Some. Qed.
Lemma named_mono name r r' new id : keys r' = keys r ++ new → named name r id → named name r' id.
Proof. intros Hk [d H]. exists d. by eapply declared_mono. Qed.
Lemma scope_ok_mono r r' new s : keys r' = keys r ++ new → scope_ok r s → scope_ok r' s.
Proof. intros Hk H name id Hl. eapply named_mono; [done|by apply H]. Qed.
Lemma lookup_scopes_ok r ss name id : Forall (scope_ok r) ss → lookup_scopes ss name = Some id → named name r id.
Proof.
  induction 1 as [|s ss Hs _ IH]; cbn; [done|]. destruct (s !! name) eqn:E; [|done]. intros [= ->]. exact (Hs _ _ E).
Qed.
(** With the same scopes and more symbols the environment is the same. *)
Lemma represents_mono r r' ρ new : Forall (scope_ok r) (value_scopes r) →
  keys r' = keys r ++ new → value_scopes r' = value_scopes r → represents r ρ → represents r' ρ.
Proof.
  intros Hs Hk Hv H name. rewrite H. unfold lookup_value. rewrite Hv. destruct (lookup_scopes _ name) as [id|] eqn:E; [|done]. cbn.
  apply (lookup_scopes_ok r) in E as (d & _ & Hd); [|done]. rewrite Hk, Hd. by erewrite lookup_app_l_Some.
Qed.

Lemma steps_refl open r : steps open [] r r.
Proof.
  split; [exists []; by rewrite app_nil_r|by destruct open as [[] []]..|by left| |done]. by intros ??? ?%not_elem_of_nil.
Qed.
Lemma steps_trans open U V r r1 r2 : steps open U r r1 → steps open V r1 r2 → steps open (U ++ V) r r2.
Proof.
  intros [[n1 G1] V1 T1 N1 S1 D1] [[n2 G2] V2 T2 N2 S2 D2]. split.
  - exists (n1 ++ n2). by rewrite G2, G1, app_assoc.
  - destruct open.1; cbn in *; [destruct V1, V2; split|]; congruence.
  - destruct open.2; cbn in *; [destruct T1, T2; split|]; congruence.
  - intros span id H. apply N2 in H as [H|(name & d & Hin & Hn)].
    + apply N1 in H as [H|(name & d & Hin & Hn)]; [by left|right]. exists name, d.
      split; [apply elem_of_app; by left|by eapply declared_mono].
    + right. exists name, d. split; [apply elem_of_app; by right|done].
  - intros name span d [H|H]%elem_of_app; [|by apply (S2 name)]. destruct (S1 _ _ _ H). auto.
  - auto.
Qed.
Lemma hidden_false V name span d : (true, (name, span, d)) ∉ hidden V.
Proof. unfold hidden. by intros (u & [=] & _)%list_elem_of_fmap. Qed.
Lemma steps_hidden open U V r r' : steps open U r r' → steps open (U ++ hidden V) r r'.
Proof.
  intros [G V1 T1 N1 S1 D1]. split; [done..| | |done].
  - intros span id H. apply N1 in H as [H|(name & d & Hin & Hn)]; [by left|right]. exists name, d. split; [apply elem_of_app; by left|done].
  - intros name span d [H|H]%elem_of_app; [by apply (S1 name)|by apply hidden_false in H].
Qed.
Definition allows (open open' : bool * bool) : Prop := (open.1 = true → open'.1 = true) ∧ (open.2 = true → open'.2 = true).
Lemma keeps_weaken (b b' : bool) ss ss' : (b = true → b' = true) → keeps_scopes b ss ss' → keeps_scopes b' ss ss'.
Proof. destruct b, b'; cbn; try done; [naive_solver|by intros _ ->]. Qed.
Lemma steps_weaken open open' U r r' : allows open open' → steps open U r r' → steps open' U r r'.
Proof. intros [Hv Ht] [G V T N S D]. split; [done|by eapply keeps_weaken|by eapply keeps_weaken|done..]. Qed.

(** ** Triples *)

Definition small (r : Resolver) : Prop := N.of_nat (length (symbols r)) < 2 ^ 32.

Definition grows {A} (m : M A) : Prop := ∀ r r' x, m r = Ok (r', x) → (length (symbols r) <= length (symbols r'))%nat.
(** [m] goes from the environment [ρ] to [ρ'] and records [U], from states that represent
    [ρ] and satisfy a precondition, as long as symbols have numbers. *)
Definition visits {A : Type} (ρ ρ' : Env) (open : bool * bool) (Pre : Resolver → Prop) (U : list Use) (m : M A) (Q : Resolver → A → Prop) : Prop :=
  grows m ∧ ∀ r r' x, wf ρ r → Pre r → m r = Ok (r', x) → small r' → wf ρ' r' ∧ steps open U r r' ∧ Q r' x.
Definition anywhere (_ : Resolver) : Prop := True.
Definition whatever {A} (_ : Resolver) (_ : A) : Prop := True.
#[global] Hint Unfold anywhere whatever : core.

Section rules.
Context (ρ : Env) (open : bool * bool).
Lemma visits_weak {A : Type} ρ' Pre U (m : M A) (Q Q' : Resolver → A → Prop) :
  visits ρ ρ' open Pre U m Q → (∀ r x, Q r x → Q' r x) → visits ρ ρ' open Pre U m Q'.
Proof. intros [Hg H] HQ. split; [done|]. intros r r' x Hw Hp E Hs. destruct (H r r' x Hw Hp E Hs) as (? & ? & ?). auto. Qed.
Lemma visits_pre {A : Type} ρ' (Pre Pre' : Resolver → Prop) U (m : M A) Q :
  visits ρ ρ' open Pre U m Q → (∀ r, Pre' r → Pre r) → visits ρ ρ' open Pre' U m Q.
Proof. intros [Hg H] HP. split; [done|]. intros r r' x Hw Hp E Hs. apply (H r r' x); auto. Qed.
Lemma visits_any {A : Type} ρ' Pre U (m : M A) Q : visits ρ ρ' open anywhere U m Q → visits ρ ρ' open Pre U m Q.
Proof. intros H. by eapply visits_pre. Qed.
Lemma visits_forget {A : Type} ρ' Pre U (m : M A) Q : visits ρ ρ' open Pre U m Q → visits ρ ρ' open Pre U m whatever.
Proof. intros H. by eapply visits_weak. Qed.
Lemma visits_weaken {A : Type} ρ' open' Pre U (m : M A) Q : allows open open' → visits ρ ρ' open Pre U m Q → visits ρ ρ' open' Pre U m Q.
Proof.
  intros Ha [Hg H]. split; [done|]. intros r r' x Hw Hp E Hs. destruct (H r r' x Hw Hp E Hs) as (? & ? & ?).
  split_and!; [done|by eapply steps_weaken|done].
Qed.
Lemma visits_get {A : Type} Pre (f : Resolver → A) (Q : Resolver → A → Prop) :
  (∀ r, wf ρ r → Pre r → Q r (f r)) → visits ρ ρ open Pre [] (get f) Q.
Proof.
  intros HQ. split; [intros ??? E; by inversion E|]. intros r r' y Hw Hp [= <- <-] Hs. split_and!; [done|apply steps_refl|auto].
Qed.
Lemma visits_ret {A : Type} Pre (x : A) (Q : Resolver → A → Prop) : (∀ r, Pre r → Q r x) → visits ρ ρ open Pre [] (mret x) Q.
Proof. intros HQ. apply (visits_get Pre (λ _, x)). auto. Qed.
Lemma visits_done Pre : visits ρ ρ open Pre [] (mret ()) whatever.
Proof. by apply visits_ret. Qed.
Lemma visits_get_any {A : Type} Pre (f : Resolver → A) : visits ρ ρ open Pre [] (get f) whatever.
Proof. by apply visits_get. Qed.
Lemma visits_fail {A : Type} ρ' Pre U e (Q : Resolver → A → Prop) : visits ρ ρ' open Pre U (fail e) Q.
Proof. split; by intros r r' x. Qed.
Lemma visits_bind {A B : Type} ρ1 ρ2 Pre U V (m : M A) (f : A → M B) (Q1 : Resolver → A → Prop) (Q2 : Resolver → B → Prop) :
  visits ρ ρ1 open Pre U m Q1 → (∀ x, visits ρ1 ρ2 open (λ r, Q1 r x) V (f x) Q2) → visits ρ ρ2 open Pre (U ++ V) (m ≫= f) Q2.
Proof.
  intros [Hg Hm] Hf. split.
  - intros r r2 y E. unfold mbind, M_bind in E. destruct (m r) as [[r1 x]|] eqn:E1; [|done].
    apply Hg in E1. destruct (Hf x) as [Hg2 _]. apply Hg2 in E. lia.
  - intros r r2 y Hw Hp E Hs. unfold mbind, M_bind in E. destruct (m r) as [[r1 x]|] eqn:E1; [|done].
    destruct (Hf x) as [Hg2 Hf2]. pose proof (Hg2 _ _ _ E). destruct (Hm r r1 x Hw Hp E1) as (Hw1 & S1 & H1); [unfold small in *; lia|].
    destruct (Hf2 r1 r2 y Hw1 H1 E Hs) as (Hw2 & S2 & H2). split_and!; [done|by eapply steps_trans|done].
Qed.
(** Places that are not visited do not matter. *)
Lemma visits_hidden {A : Type} ρ' Pre U V (m : M A) Q : visits ρ ρ' open Pre U m Q → visits ρ ρ' open Pre (U ++ hidden V) m Q.
Proof.
  intros [Hg H]. split; [done|]. intros r r' x Hw Hp E Hs. destruct (H r r' x Hw Hp E Hs) as (? & ? & ?).
  split_and!; [done|by apply steps_hidden|done].
Qed.
Lemma visits_all_hidden Pre V : visits ρ ρ open Pre (hidden V) (mret ()) whatever.
Proof. apply (visits_hidden ρ Pre []), visits_done. Qed.
End rules.
Section sequences.
Context (ρ : Env) (open : bool * bool).
Lemma visits_then {A B : Type} ρ1 ρ2 Pre U V (m : M A) (f : A → M B) Q2 :
  visits ρ ρ1 open Pre U m whatever → (∀ x, visits ρ1 ρ2 open anywhere V (f x) Q2) → visits ρ ρ2 open Pre (U ++ V) (m ≫= f) Q2.
Proof. intros Hm Hf. eapply visits_bind; [done|]. intros x. eapply visits_pre; [apply Hf|done]. Qed.
(** A step that records nothing, before or after another. *)
Lemma visits_before {A B : Type} ρ1 ρ2 Pre V (m : M A) (f : A → M B) Q1 Q2 :
  visits ρ ρ1 open Pre [] m Q1 → (∀ x, visits ρ1 ρ2 open (λ r, Q1 r x) V (f x) Q2) → visits ρ ρ2 open Pre V (m ≫= f) Q2.
Proof. apply (visits_bind ρ open ρ1 ρ2 Pre [] V). Qed.
Lemma visits_after {A B : Type} ρ1 ρ2 Pre U (m : M A) (f : A → M B) Q1 Q2 :
  visits ρ ρ1 open Pre U m Q1 → (∀ x, visits ρ1 ρ2 open (λ r, Q1 r x) [] (f x) Q2) → visits ρ ρ2 open Pre U (m ≫= f) Q2.
Proof. intros Hm Hf. rewrite <- (app_nil_r U). by eapply visits_bind. Qed.
End sequences.

Lemma visits_each {A : Type} ρ open Pre (f : A → M ()) (uses : A → list Use) l :
  (∀ x, x ∈ l → visits ρ ρ open anywhere (uses x) (f x) whatever) → visits ρ ρ open Pre (mjoin (uses <$> l)) (each f l) whatever.
Proof.
  intros H. apply visits_any. induction l as [|x l IH]; cbn; [apply visits_done|]. eapply visits_then; [apply H; by left|].
  intros _. apply IH. intros y Hy. apply H. by right.
Qed.
Lemma visits_each_all {A : Type} ρ open Pre (f : A → M ()) (uses : A → list Use) l :
  Forall (λ x, visits ρ ρ open anywhere (uses x) (f x) whatever) l → visits ρ ρ open Pre (mjoin (uses <$> l)) (each f l) whatever.
Proof. intros H. apply visits_each. intros x Hx. by eapply Forall_forall in H. Qed.
Lemma visits_each_nil {A : Type} ρ open Pre (f : A → M ()) l :
  (∀ x, x ∈ l → visits ρ ρ open anywhere [] (f x) whatever) → visits ρ ρ open Pre [] (each f l) whatever.
Proof.
  intros H. apply visits_any. induction l as [|x l IH]; cbn; [apply visits_done|]. eapply visits_before; [apply H; by left|].
  intros ?. eapply visits_pre; [apply IH|done]. intros y Hy. apply H. by right.
Qed.
(** Steps that declare. *)
Lemma visits_each_decl {A : Type} ρ open Pre (f : A → M ()) (decls : A → list (list N * Decl)) l :
  (∀ x ρ, visits ρ (declare ρ (decls x)) open anywhere [] (f x) whatever) →
  visits ρ (declare ρ (mjoin (decls <$> l))) open Pre [] (each f l) whatever.
Proof.
  intros H. apply visits_any. revert ρ. induction l as [|x l IH]; intros ρ; cbn; [apply visits_done|]. rewrite declare_app.
  eapply visits_before; [apply H|]. intros ?. eapply visits_pre; [apply IH|done].
Qed.
Lemma mjoin_singletons {A B : Type} (f : A → B) l : mjoin ((λ x, [f x]) <$> l) = f <$> l.
Proof. induction l as [|x l IH]; [done|]. change (f x :: mjoin ((λ x, [f x]) <$> l) = f x :: (f <$> l)). by rewrite IH. Qed.
Lemma visits_each_decl1 {A : Type} ρ open Pre (f : A → M ()) (decl : A → list N * Decl) l :
  (∀ x ρ, visits ρ (<[(decl x).1 := (decl x).2]> ρ) open anywhere [] (f x) whatever) →
  visits ρ (declare ρ (decl <$> l)) open Pre [] (each f l) whatever.
Proof.
  intros H. replace (decl <$> l) with (mjoin ((λ x, [decl x]) <$> l)) by apply mjoin_singletons.
  by apply visits_each_decl.
Qed.
Lemma visits_each_option {A : Type} ρ open Pre (f : A → M ()) (uses : A → list Use) o :
  (∀ x, visits ρ ρ open Pre (uses x) (f x) whatever) → visits ρ ρ open Pre (scope_option uses o) (each_option f o) whatever.
Proof. destruct o as [x|]; cbn; intros H; [by apply H|apply visits_done]. Qed.
Lemma visits_each_option_nil {A : Type} ρ open Pre (f : A → M ()) o :
  (∀ x, visits ρ ρ open Pre [] (f x) whatever) → visits ρ ρ open Pre [] (each_option f o) whatever.
Proof. destruct o as [x|]; cbn; intros H; [by apply H|apply visits_done]. Qed.

(** ** Primitive steps *)

Lemma wf_more_symbols ρ r x new : wf ρ r → keys (set_symbols r x) = keys r ++ new →
  wf ρ (set_symbols r x) ∧ ∀ open, steps open [] r (set_symbols r x).
Proof.
  intros [E O V T S] Hk. split.
  - split; cbn.
    + eapply represents_mono; [exact V|exact Hk|done|done].
    + done.
    + eapply Forall_impl; [exact V|]. intros s. by apply scope_ok_mono with (new := new).
    + eapply Forall_impl; [exact T|]. intros s. by apply scope_ok_mono with (new := new).
    + intros id sig H. apply S in H as [name Hn]. exists name. by eapply named_mono.
  - intros open. split; [by exists new|by destruct open as [[] []]..|by left| |done]. by intros ??? ?%not_elem_of_nil.
Qed.
Lemma visits_alloc ρ open Pre info :
  visits ρ ρ open Pre [] (alloc_info info) (λ r id, declared (sy_name info) (sy_decl_span info, sy_kind info) r id).
Proof.
  split. { intros r r' id E. injection E as <- _. cbn. rewrite length_app. lia. }
  intros r r' id Hw _ E Hs. injection E as <- <-.
  destruct (wf_more_symbols ρ r (symbols r ++ [info]) [sym_key info] Hw) as [Hw' Hst]; [unfold keys; cbn; by rewrite fmap_app|].
  split_and!; [done|done|]. unfold small in Hs. cbn in Hs. rewrite length_app in Hs. cbn in Hs.
  rewrite N.mod_small by lia. split; [lia|]. unfold keys, index_of. cbn. rewrite fmap_app.
  rewrite lookup_app_r by (rewrite length_fmap; lia). rewrite length_fmap.
  by replace (N.to_nat _ - 1 - _)%nat with 0%nat by lia.
Qed.
Lemma alter_keys f i (l : list SymbolInfo) : (∀ s, sym_key (f s) = sym_key s) → sym_key <$> alter f i l = sym_key <$> l.
Proof.
  intros Hf. apply list_eq. intros j. rewrite !list_lookup_fmap. destruct (decide (i = j)) as [->|Hne].
  - rewrite list_lookup_alter_eq, <- option_fmap_compose. apply option_fmap_ext. intros s. apply Hf.
  - by rewrite list_lookup_alter_ne.
Qed.
Lemma visits_alter ρ open Pre f i : (∀ s, sym_key (f s) = sym_key s) →
  visits ρ ρ open Pre [] (modify (λ r, set_symbols r (alter f i (symbols r)))) whatever.
Proof.
  intros Hf. split. { intros r r' x E. injection E as <- _. cbn [symbols set_symbols]. rewrite length_alter. lia. }
  intros r r' x Hw _ E Hs. injection E as <- _.
  destruct (wf_more_symbols ρ r (alter f i (symbols r)) [] Hw) as [Hw' Hst]; [unfold keys; cbn; by rewrite alter_keys, app_nil_r|done].
Qed.

(** A change that leaves symbols and scopes alone. *)
Definition same_scopes (r r' : Resolver) : Prop :=
  symbols r' = symbols r ∧ value_scopes r' = value_scopes r ∧ type_scopes r' = type_scopes r.
Lemma same_scopes_wf ρ r r' : same_scopes r r' → wf ρ r →
  (∀ id sig, sigs r' !! id = Some sig → ∃ name, named name r' id) → wf ρ r'.
Proof.
  intros (Es & Ev & Et) [E O V T S] HS. assert (keys r' = keys r ++ []) as Hk by (unfold keys; by rewrite Es, app_nil_r).
  split; rewrite ?Ev, ?Et; [eapply represents_mono; [exact V|exact Hk|done|done]|done| | |done].
  - eapply Forall_impl; [exact V|]. intros s. by eapply scope_ok_mono.
  - eapply Forall_impl; [exact T|]. intros s. by eapply scope_ok_mono.
Qed.
Lemma same_scopes_steps open U r r' : same_scopes r r' →
  (∀ span id, resolutions r' !! span = Some id → resolutions r !! span = Some id ∨ ∃ name d, (true, (name, span, Some d)) ∈ U ∧ declared name d r' id) →
  (∀ name span d, (true, (name, span, d)) ∈ U → is_Some d ∧ is_Some (resolutions r' !! span)) →
  (∀ span, is_Some (resolutions r !! span) → is_Some (resolutions r' !! span)) → steps open U r r'.
Proof.
  intros (Es & Ev & Et) N S D. split; [exists []; unfold keys; by rewrite Es, app_nil_r|..|done|done|done].
  - rewrite Ev. by destruct open.1.
  - rewrite Et. by destruct open.2.
Qed.
Lemma named_symbols name r r' id : symbols r' = symbols r → named name r id → named name r' id.
Proof. intros E. unfold named, declared, keys. by rewrite E. Qed.
Lemma visits_other ρ open Pre f :
  (∀ r, same_scopes r (f r) ∧ resolutions (f r) = resolutions r ∧ sigs (f r) = sigs r) → visits ρ ρ open Pre [] (modify f) whatever.
Proof.
  intros Hf. split. { intros r r' x E. injection E as <- _. destruct (Hf r) as ((-> & _) & _). done. }
  intros r r' x Hw _ E Hs. injection E as <- _. destruct (Hf r) as (Hsame & Er & Eg). split_and!; [| |done].
  - eapply same_scopes_wf; [done..|]. rewrite Eg. intros id sig H. apply (wf_sigs _ _ Hw) in H as [name ?]. exists name.
    eapply named_symbols; [apply Hsame|done].
  - apply same_scopes_steps; rewrite ?Er; [done|by left| |done]. by intros ??? ?%not_elem_of_nil.
Qed.
Lemma visits_sig ρ open name id sig :
  visits ρ ρ open (λ r, named name r id) [] (modify (λ r, set_sigs r (<[id := sig]> (sigs r)))) whatever.
Proof.
  split. { intros r r' x E. by injection E as <- _. }
  intros r r' x Hw Hn E Hs. injection E as <- _. split_and!; [| |done].
  - eapply same_scopes_wf; [|exact Hw|]; [done|]. cbn. intros i sg. rewrite lookup_insert_Some.
    intros [[<- <-]|[_ H]]; [by exists name|by eapply (wf_sigs _ _ Hw)].
  - apply same_scopes_steps; [done|by left| |done]. by intros ??? ?%not_elem_of_nil.
Qed.

(** What a name stands for in the environment. *)
Definition stands_for (ρ : Env) (name : list N) (r : Resolver) (id : SymbolId) : Prop :=
  ∃ d, ρ !! name = Some d ∧ declared name d r id.
Lemma visits_lookup_value ρ open Pre name :
  visits ρ ρ open Pre [] (get (λ r, lookup_value r name)) (λ r o, ∀ id, o = Some id → stands_for ρ name r id).
Proof.
  apply visits_get. intros r [E O V T S] _ id H. pose proof (E name) as En. rewrite H in En.
  destruct (lookup_scopes_ok r _ _ _ V H) as (d & Hd). exists d. split; [|done]. destruct Hd as [_ Hd]. cbn in En. by rewrite Hd in En.
Qed.
Lemma visits_lookup_type ρ open Pre name :
  visits ρ ρ open Pre [] (get (λ r, lookup_type r name)) (λ r o, ∀ id, o = Some id → named name r id).
Proof. apply visits_get. intros r Hw _ id H. eapply lookup_scopes_ok; [|exact H]; apply Hw. Qed.
Lemma visits_resolve ρ open name span id :
  visits ρ ρ open (λ r, stands_for ρ name r id) [(true, (name, span, ρ !! name))]
    (modify (λ r, set_resolutions r (<[span := id]> (resolutions r)))) whatever.
Proof.
  split. { intros r r' x E. by injection E as <- _. }
  intros r r' x Hw (d & Hd & Hn) E Hs. injection E as <- _. split_and!; [| |done].
  - eapply same_scopes_wf; [|exact Hw|]; [done|]. apply Hw.
  - apply same_scopes_steps; cbn.
    + done.
    + intros sp i. rewrite lookup_insert_Some. intros [[<- <-]|[_ H]]; [right|by left]. exists name, d. rewrite Hd. split; [set_solver|done].
    + intros nm sp d' [= -> -> ->]%list_elem_of_singleton. by rewrite lookup_insert_eq.
    + intros sp H. destruct (decide (sp = span)) as [->|]; [by rewrite lookup_insert_eq|by rewrite lookup_insert_ne].
Qed.

(** Names are defined in the innermost scope. *)
Lemma scope_insert_ok r s name id : scope_ok r s → named name r id → scope_ok r (<[name := id]> s).
Proof. intros Hs Hn. by apply map_Forall_insert_2. Qed.
Lemma visits_define_value ρ b name d id :
  visits ρ (<[name := d]> ρ) (true, b) (λ r, declared name d r id) [] (define_value name id) whatever.
Proof.
  split. { intros r r' x E. unfold define_value in E. by destruct (value_scopes r); injection E as <- _. }
  intros r r' x [E0 O V T S] Hn E Hs. unfold define_value in E. destruct (value_scopes r) as [|s ss] eqn:Ev; [done|]. injection E as <- <-.
  inversion V; subst. split_and!; [split; cbn; [|done| |done..]|split; cbn; [| | |by left| |done]|done].
  - intros n. unfold lookup_value. cbn. destruct (decide (n = name)) as [->|Hne].
    + rewrite !lookup_insert_eq. cbn. destruct Hn as [_ Hn]. unfold keys in *. cbn. by rewrite Hn.
    + rewrite !lookup_insert_ne by done. rewrite E0. unfold lookup_value. by rewrite Ev.
  - constructor; [|done]. apply scope_insert_ok; [done|]. by exists d.
  - exists []. by rewrite app_nil_r.
  - by rewrite Ev.
  - by destruct b.
  - by intros ??? ?%not_elem_of_nil.
Qed.
Lemma visits_define_type ρ b name id : visits ρ ρ (b, true) (λ r, named name r id) [] (define_type name id) whatever.
Proof.
  split. { intros r r' x E. unfold define_type in E. by destruct (type_scopes r); injection E as <- _. }
  intros r r' x Hw Hn E Hs. unfold define_type in E. destruct (type_scopes r) as [|s ss] eqn:Ev; injection E as <- <-.
  - split_and!; [done|apply steps_refl|done].
  - destruct Hw as [E0 O V T S]. rewrite Ev in T. inversion T; subst.
    split_and!; [split; cbn; [done|done|done| |done]|split; cbn; [| | |by left| |done]|done].
    + constructor; [by apply scope_insert_ok|done].
    + exists []. by rewrite app_nil_r.
    + by destruct b.
    + by rewrite Ev.
    + by intros ??? ?%not_elem_of_nil.
Qed.

(** Scopes that are opened and closed again. *)
Lemma keeps_pop (b : bool) (ss ss' : list Scope) (s : Scope) : keeps_scopes b (s :: ss) ss' → tail ss' = ss.
Proof. destruct b; cbn; [by intros [-> _]|by intros ->]. Qed.
Lemma visits_value_scope {A : Type} ρ ρ' o t Pre U (m : M A) :
  visits ρ ρ' (true, t) anywhere U m whatever → visits ρ ρ (o, t) Pre U (in_value_scope m) whatever.
Proof.
  intros [Hg Hm]. unfold in_value_scope, push_value_scope, pop_value_scope. split.
  - intros r r' x E. cbv [mbind M_bind modify mret M_ret] in E. destruct (m _) as [[r1 y]|] eqn:E1; [|done]. injection E as <- _. by apply Hg in E1.
  - intros r r' x Hw _ E Hs. cbv [mbind M_bind modify mret M_ret] in E. destruct (m _) as [[r1 y]|] eqn:E1; [|done]. injection E as <- _.
    destruct Hw as [E0 O V T S]. assert (wf ρ (set_value_scopes r (∅ :: value_scopes r))) as Hw0.
    { split; [|done| |done..]; [|constructor; [apply map_Forall_empty|done]].
      intros n. rewrite E0. unfold lookup_value. cbn. by rewrite lookup_empty. }
    destruct (Hm _ r1 _ Hw0 (Logic.I : anywhere _) E1 Hs) as ([E2 O1 V1 T1 S1] & [G Hv Ht N V2 D] & _).
    apply keeps_pop in Hv. destruct G as [new Hk]. split_and!; [split; cbn; [| | |done..]|split; cbn; [by exists new| |done..]|done].
    + eapply represents_mono; [exact V|exact Hk|exact Hv|done].
    + by rewrite Hv.
    + destruct (value_scopes r1); [done|]. by inversion V1.
    + rewrite Hv. by destruct o.
Qed.
Lemma visits_type_scope {A : Type} ρ ρ' o t Pre U (m : M A) :
  visits ρ ρ' (o, true) anywhere U m whatever → visits ρ ρ' (o, t) Pre U (in_type_scope m) whatever.
Proof.
  intros [Hg Hm]. unfold in_type_scope, push_type_scope, pop_type_scope. split.
  - intros r r' x E. cbv [mbind M_bind modify mret M_ret] in E. destruct (m _) as [[r1 y]|] eqn:E1; [|done]. injection E as <- _. by apply Hg in E1.
  - intros r r' x Hw _ E Hs. cbv [mbind M_bind modify mret M_ret] in E. destruct (m _) as [[r1 y]|] eqn:E1; [|done]. injection E as <- _.
    destruct Hw as [E0 O V T S]. assert (wf ρ (set_type_scopes r (∅ :: type_scopes r))) as Hw0.
    { split; [done..| |done]. constructor; [apply map_Forall_empty|done]. }
    destruct (Hm _ r1 _ Hw0 (Logic.I : anywhere _) E1 Hs) as ([E2 O1 V1 T1 S1] & [G Hv Ht N V2 D] & _).
    apply keeps_pop in Ht. split_and!; [split; cbn; [done..| |done]|split; cbn; [done|done| |done..]|done].
    + destruct (type_scopes r1); [done|]. by inversion T1.
    + rewrite Ht. by destruct t.
Qed.
