(* ===== verification/ResolverProof.v ===== *)
(** * Name resolution follows lexical scoping

    A triple for every operation of the pass, and the theorem they lead to. *)
From stdpp Require Import strings.
From S2P Require Import Prelude LexToken LangAst LangTypes Resolver ResolverSpec.

(** ** Types and declarations *)

Lemma allows_all open : allows (false, false) open.
Proof. by split. Qed.
Lemma visits_free {A : Type} ρ ρ' open Pre U (m : M A) Q : visits ρ ρ' (false, false) Pre U m Q → visits ρ ρ' open Pre U m Q.
Proof. apply visits_weaken, allows_all. Qed.
(** A symbol stays what it is. *)
Lemma visits_frame {A : Type} (P : Resolver → Prop) ρ ρ' open U (m : M A) :
  (∀ r r' new, keys r' = keys r ++ new → P r → P r') →
  visits ρ ρ' open anywhere U m whatever → visits ρ ρ' open P U m (λ r _, P r).
Proof.
  intros HP [Hg Hm]. split; [done|]. intros r r' x Hw Hn E Hs. destruct (Hm r r' x Hw (Logic.I : anywhere _) E Hs) as (? & S1 & _).
  split_and!; [done|done|]. destruct (steps_grow _ _ _ _ S1) as [new Hk]. by eapply HP.
Qed.

Lemma visits_type_ref ρ open Pre span ty : visits ρ ρ open Pre [] (resolve_type_ref span ty) whatever.
Proof.
  revert Pre. induction ty as [t Ht|t IH|t n IH|k v IHk IHv|k v IHk IHv|t IH|t IH|k v IHk IHv|ts IH|ps r IHp IHr|n ts IH] using LType_nested;
    intros Pre; cbn [resolve_type_ref]; try apply IH.
  - destruct t; try done; apply visits_done.
  - eapply visits_before; [apply IHk|]. intros ?. apply IHv.
  - eapply visits_before; [apply IHk|]. intros ?. apply IHv.
  - eapply visits_before; [apply IHk|]. intros ?. apply IHv.
  - apply visits_each_nil. intros t Ht. by eapply Forall_forall in IH.
  - eapply visits_before; [apply visits_each_nil; intros t Ht; by eapply Forall_forall in IHp|]. intros ?. apply IHr.
  - case_bool_decide; [apply visits_done|]. eapply visits_before; [apply visits_lookup_type|]. intros [id|]; [|apply visits_fail].
    apply visits_each_nil. intros t Ht. by eapply Forall_forall in IH.
Qed.
Lemma visits_maybe_type_ref ρ open Pre span ty : visits ρ ρ open Pre [] (each_option (resolve_type_ref span) ty) whatever.
Proof. apply visits_each_option_nil. intros t. apply visits_type_ref. Qed.
Lemma visits_alloc_kind ρ open Pre name span kind : visits ρ ρ open Pre [] (alloc name span kind) (declared name (span, kind)).
Proof. apply visits_alloc. Qed.
Lemma visits_declare_typed ρ open Pre name span kind ty :
  visits ρ ρ open Pre [] (declare_typed name span kind ty) (declared name (span, kind)).
Proof. unfold declare_typed. eapply visits_before; [apply visits_get_any|]. intros lower. apply visits_alloc. Qed.
Lemma visits_define_err ρ b name d id span :
  visits ρ (<[name := d]> ρ) (true, b) (λ r, declared name d r id) [] (define_value_or_err name id span) whatever.
Proof.
  unfold define_value_or_err. eapply visits_before; [apply visits_define_value|]. intros [?|]; [apply visits_fail|apply visits_done].
Qed.
(** A new symbol is declared with a name, whatever the name stood for. *)
Lemma visits_new_local ρ b Pre name span kind (m : M ()) :
  visits (<[name := (span, kind)]> ρ) (<[name := (span, kind)]> ρ) (true, b) anywhere [] m whatever →
  visits ρ (<[name := (span, kind)]> ρ) (true, b) Pre [] (id ← alloc name span kind; _ ← define_value name id; m) whatever.
Proof.
  intros Hm. eapply visits_before; [apply visits_alloc_kind|]. intros id. eapply visits_before; [apply visits_define_value|].
  intros o. eapply visits_pre; [exact Hm|done].
Qed.
Lemma visits_define_type_err ρ b name d id span :
  visits ρ ρ (b, true) (λ r, declared name d r id) [] (define_type_or_err name id span) whatever.
Proof.
  unfold define_type_or_err. eapply visits_before; [|intros [?|]; [apply visits_fail|apply visits_done]].
  eapply visits_pre; [apply visits_define_type|]. intros r H. by exists d.
Qed.

(** ** Bindings *)

Lemma visits_bind_locals ρ b Pre bs : visits ρ (declare ρ (locals bs)) (true, b) Pre [] (bind_locals bs) whatever.
Proof. apply visits_each_decl1. intros [name span] ρ1. apply visits_new_local, visits_done. Qed.
Lemma visits_let_binding ρ b Pre mutable pattern ty bd :
  visits ρ (<[bd.1 := (bd.2, SkLocal)]> ρ) (true, b) Pre [] (let_binding mutable pattern ty bd) whatever.
Proof.
  unfold let_binding. eapply visits_before; [apply visits_get_any|]. intros lower.
  eapply visits_before; [apply visits_alloc|]. intros id. cbn [sy_name sy_decl_span sy_kind].
  eapply visits_before.
  - apply (visits_frame (λ r, declared bd.1 (bd.2, SkLocal) r id)); [by intros; eapply declared_mono|].
    destruct mutable; [by apply visits_alter|apply visits_done].
  - intros ?. eapply visits_before; [apply visits_define_value|]. intros o. apply visits_done.
Qed.
Lemma visits_lambda_binding ρ b Pre p : visits ρ (<[(param_decl p).1 := (param_decl p).2]> ρ) (true, b) Pre [] (lambda_binding p) whatever.
Proof.
  destruct p as [name ty d span]. cbn. eapply visits_before; [apply visits_declare_typed|]. intros id.
  eapply visits_before; [apply visits_define_value|]. intros o. apply visits_type_ref.
Qed.
Lemma visits_lambda_bindings ρ b Pre ps : visits ρ (declare ρ (param_decl <$> ps)) (true, b) Pre [] (each lambda_binding ps) whatever.
Proof. apply visits_each_decl1. intros p ρ1. apply visits_lambda_binding. Qed.
Lemma visits_declare_value ρ b Pre name span kind ty :
  visits ρ (<[name := (span, kind)]> ρ) (true, b) Pre [] (id ← declare_typed name span kind ty; define_value_or_err name id span) whatever.
Proof. eapply visits_before; [apply visits_declare_typed|]. intros id. apply visits_define_err. Qed.

(** ** Expressions and statements *)

Section all.
Context {A : Type} (Q : A → Prop) (f : ∀ x, Q x).
Fixpoint all_of (l : list A) : Forall Q l :=
  match l with [] => Forall_nil_2 _ | x :: l => Forall_cons_2 _ _ _ (f x) (all_of l) end.
End all.

Definition visits_stmt_ok (s : Stmt) : Prop :=
  ∀ ρ, visits ρ (declare ρ (stmt_decls s)) (true, false) anywhere (scope_stmt ρ s) (resolve_stmt s) whatever.
Lemma visits_stmts ρ Pre l : Forall visits_stmt_ok l →
  ∃ ρ', visits ρ ρ' (true, false) Pre (scope_block scope_stmt ρ l) (each resolve_stmt l) whatever.
Proof.
  intros H. revert ρ Pre. induction H as [|s l Hs _ IH]; intros ρ Pre; cbn [scope_block each]; [exists ρ; apply visits_done|].
  destruct (IH (declare ρ (stmt_decls s)) anywhere) as [ρ' Hl]. exists ρ'. apply visits_any. eapply visits_then; [apply Hs|]. by intros ?.
Qed.
(** A block in a scope of its own, after declarations [m]. *)
Lemma visits_scoped_after ρ ρ1 o Pre (m : M ()) l : Forall visits_stmt_ok l →
  visits ρ ρ1 (true, false) anywhere [] m whatever →
  visits ρ ρ (o, false) Pre (scope_block scope_stmt ρ1 l) (in_value_scope (_ ← m; each resolve_stmt l)) whatever.
Proof.
  intros Hl Hm. destruct (visits_stmts ρ1 anywhere l Hl) as [ρ' H]. eapply visits_value_scope, visits_before; [exact Hm|]. by intros ?.
Qed.
Lemma visits_scoped ρ o Pre l : Forall visits_stmt_ok l →
  visits ρ ρ (o, false) Pre (scope_block scope_stmt ρ l) (in_value_scope (each resolve_stmt l)) whatever.
Proof. intros Hl. destruct (visits_stmts ρ anywhere l Hl) as [ρ' H]. by eapply visits_value_scope. Qed.
Lemma visits_each_fields ρ open Pre (l : list (list N * Expr)) :
  Forall (λ f, visits ρ ρ open anywhere (scope_expr ρ f.2) (resolve_expr f.2) whatever) l →
  visits ρ ρ open Pre (mjoin ((λ f, scope_expr ρ f.2) <$> l)) (each (λ '(_, v), resolve_expr v) l) whatever.
Proof. intros H. apply visits_each. intros [n v] Hx. exact (proj1 (Forall_forall _ _) H _ Hx). Qed.

Ltac seq := eapply visits_then; [|intros ?].
Ltac quiet := eapply visits_before; [|intros ?].

Lemma visits_expr (e : Expr) : ∀ ρ open, visits ρ ρ open anywhere (scope_expr ρ e) (resolve_expr e) whatever
with visits_arg (a : CallArg) : ∀ ρ open, visits ρ ρ open anywhere (scope_arg ρ a) (resolve_arg a) whatever
with visits_segment (s : TemplateExprSegment) : ∀ ρ open, visits ρ ρ open anywhere (scope_segment ρ s) (resolve_segment s) whatever
with visits_arm (a : MatchArm) : ∀ ρ open, visits ρ ρ open anywhere (scope_arm ρ a) (resolve_match_arm a) whatever
with visits_stmt (s : Stmt) : visits_stmt_ok s.
Proof.
  - intros ρ open. apply visits_free.
    destruct e as [l s|name s|es s|es s|name fields spread s|c opts args s|b i s|b name s|op e s|op l r s|c t f s|l r s|e s|e ty s|
      ps body s|ty opts args s|e arms s|c t f s|segs s|l op r s]; cbn [scope_expr resolve_expr].
    + destruct l; first [apply visits_done|apply visits_all_hidden].
    + eapply visits_before; [apply visits_lookup_value|]. intros [id|]; [|apply visits_fail].
      eapply visits_pre; [apply visits_resolve|]. intros r H. by apply H.
    + apply visits_each_all. exact (all_of _ (λ e, visits_expr e ρ _) es).
    + apply visits_each_all. exact (all_of _ (λ e, visits_expr e ρ _) es).
    + eapply visits_before; [apply visits_lookup_type|]. intros [id|]; [|apply visits_fail]. apply visits_any. seq.
      * apply visits_each_fields.
        exact (all_of (λ f, visits ρ ρ _ anywhere (scope_expr ρ f.2) (resolve_expr f.2) whatever) (λ '(_, v), visits_expr v ρ _) fields).
      * destruct spread as [e|]; [apply visits_expr|apply visits_done].
    + apply visits_hidden. seq; [apply visits_expr|]. apply visits_each_all. exact (all_of _ (λ a, visits_arg a ρ _) args).
    + seq; apply visits_expr.
    + apply visits_expr.
    + apply visits_expr.
    + seq; apply visits_expr.
    + seq; [apply visits_expr|]. seq; apply visits_expr.
    + seq; apply visits_expr.
    + apply visits_expr.
    + eapply visits_after; [apply visits_expr|]. intros ?. apply visits_type_ref.
    + apply visits_hidden. destruct body as [e|ss].
      * eapply visits_value_scope. quiet; [apply visits_lambda_bindings|]. apply visits_any, visits_expr.
      * apply visits_scoped_after; [exact (all_of _ visits_stmt ss)|]. apply visits_lambda_bindings.
    + eapply visits_before; [apply visits_lookup_type|]. intros [id|]; [|apply visits_fail].
      apply visits_hidden, visits_each_all. exact (all_of _ (λ a, visits_arg a ρ _) args).
    + seq; [apply visits_expr|]. apply visits_each_all. exact (all_of _ (λ a, visits_arm a ρ _) arms).
    + seq; [apply visits_expr|]. seq; [apply visits_scoped; exact (all_of _ visits_stmt t)|].
      destruct f as [b|]; [|apply visits_done]. apply visits_scoped. exact (all_of _ visits_stmt b).
    + apply visits_each_all. exact (all_of _ (λ a, visits_segment a ρ _) segs).
    + seq; apply visits_expr.
  - intros ρ open. destruct a; apply visits_expr.
  - intros ρ open. destruct s as [t|e]; [apply visits_done|apply visits_expr].
  - intros ρ open. apply visits_free. destruct a as [pattern guard body s]. cbn [scope_arm resolve_match_arm].
    destruct body as [e|ss].
    + eapply visits_value_scope. quiet; [apply visits_bind_locals|]. apply visits_any. seq; [|apply visits_expr].
      destruct guard as [g|]; [apply visits_expr|apply visits_done].
    + destruct (visits_stmts (declare ρ (pattern_decls pattern)) anywhere ss (all_of _ visits_stmt ss)) as [ρ' H].
      eapply visits_value_scope. quiet; [apply visits_bind_locals|]. apply visits_any. seq; [|exact H].
      destruct guard as [g|]; [apply visits_expr|apply visits_done].
  - intros ρ. destruct s as [m p ty e s|[name ty v s]|a op b s|c t f s|e arms s|p iter b s|c b s|b s|e s|s|s|ev fields s|c m s|m s|b x c s|b s|s|e s];
      cbn [scope_stmt resolve_stmt stmt_decls]; try (change (declare ρ []) with ρ).
    + eapply visits_after; [apply visits_expr|]. intros ?. quiet; [apply visits_maybe_type_ref|].
      apply (visits_each_decl1 _ _ _ _ (λ b, (b.1, (b.2, SkLocal)))). intros bd ρ1. apply visits_let_binding.
    + quiet; [apply visits_type_ref|].
      eapply visits_after; [apply visits_any, visits_expr|]. intros ?. apply visits_declare_value.
    + seq; apply visits_expr.
    + seq; [apply visits_expr|]. seq; [apply visits_scoped; exact (all_of _ visits_stmt t)|].
      destruct f as [b|]; [|apply visits_done]. apply visits_scoped. exact (all_of _ visits_stmt b).
    + seq; [apply visits_expr|]. apply visits_each_all. exact (all_of _ (λ a, visits_arm a ρ _) arms).
    + seq; [destruct iter as [e|a i b']; [apply visits_expr|seq; apply visits_expr]|].
      apply visits_scoped_after; [exact (all_of _ visits_stmt b)|]. apply visits_bind_locals.
    + seq; [apply visits_expr|]. apply visits_scoped. exact (all_of _ visits_stmt b).
    + apply visits_scoped. exact (all_of _ visits_stmt b).
    + destruct e as [e|]; [apply visits_expr|apply visits_done].
    + apply visits_done.
    + apply visits_done.
    + apply visits_each_fields.
      exact (all_of (λ f, visits ρ ρ _ anywhere (scope_expr ρ f.2) (resolve_expr f.2) whatever) (λ '(_, v), visits_expr v ρ _) fields).
    + seq; [apply visits_expr|]. destruct m as [m|]; [apply visits_expr|apply visits_done].
    + destruct m as [m|]; [apply visits_expr|apply visits_done].
    + seq; [apply visits_scoped; exact (all_of _ visits_stmt b)|].
      destruct (visits_stmts (<[x := (s, SkLocal)]> ρ) anywhere c (all_of _ visits_stmt c)) as [ρ' H].
      eapply visits_value_scope. quiet; [apply visits_alloc_kind|]. quiet; [apply visits_define_value|]. by apply visits_any.
    + apply visits_scoped. exact (all_of _ visits_stmt b).
    + apply visits_done.
    + apply visits_expr.
Qed.

(** ** Functions *)

Lemma visits_default ρ open Pre (d : option Expr) :
  visits ρ ρ open Pre (scope_option (scope_expr ρ) d) (each_option resolve_expr d) whatever.
Proof. apply visits_each_option. intros e. apply visits_any, visits_expr. Qed.
Lemma visits_block ρ open Pre b : visits ρ ρ open Pre (scope_block scope_stmt ρ b) (in_value_scope (each resolve_stmt b)) whatever.
Proof.
  apply visits_weaken with (open := (open.1, false)); [by split|]. apply visits_scoped, Forall_true, visits_stmt.
Qed.
Lemma visits_generic_param ρ b Pre gp : visits ρ ρ (b, true) Pre [] (register_generic_param gp) whatever.
Proof.
  unfold register_generic_param. quiet; [apply visits_alloc_kind|]. quiet; [apply visits_define_type_err|]. apply visits_maybe_type_ref.
Qed.
Lemma visits_generic_params ρ b Pre gps : visits ρ ρ (b, true) Pre [] (each register_generic_param gps) whatever.
Proof. apply visits_each_nil. intros gp _. apply visits_generic_param. Qed.
Lemma visits_declare_params ρ b Pre ps :
  visits ρ (declare ρ (param_decl <$> ps)) (true, b) Pre (scope_params ρ ps) (each declare_param ps) whatever.
Proof.
  apply visits_any. revert ρ. induction ps as [|[name ty d span] ps IH]; intros ρ; cbn [scope_params each]; [apply visits_done|].
  seq; [|apply IH]. cbn. quiet; [apply visits_declare_typed|]. quiet; [apply visits_define_err|]. quiet; [apply visits_type_ref|].
  apply visits_default.
Qed.
Lemma visits_record_signature ρ open Pre f : visits ρ ρ open Pre [] (record_signature f) whatever.
Proof.
  unfold record_signature. eapply visits_before; [apply visits_get_any|]. intros sig.
  eapply visits_before; [apply visits_lookup_value|]. intros [id|]; [|apply visits_done].
  apply visits_pre with (Pre := λ r, named (fn_name f) r id); [|intros r H; destruct (H id eq_refl) as (d & _ & Hd); by exists d].
  eapply visits_before; [|intros ?; apply visits_sig].
  apply (visits_frame (λ r, named (fn_name f) r id)); [by intros; eapply named_mono|]. by apply visits_alter.
Qed.
Lemma visits_record_sig ρ open Pre name sig : visits ρ ρ open Pre [] (record_sig name sig) whatever.
Proof.
  unfold record_sig. eapply visits_before; [apply visits_lookup_type|]. intros [id|]; [|apply visits_done].
  eapply visits_pre; [apply (visits_sig _ _ name)|]. intros r H. by apply H.
Qed.
Lemma visits_function_body ρ open Pre f : visits ρ ρ open Pre (scope_fn ρ f) (resolve_function_body f) whatever.
Proof.
  destruct open as [o t]. unfold resolve_function_body. apply visits_type_scope.
  quiet; [apply visits_generic_params|]. quiet; [apply visits_record_signature|].
  eapply visits_value_scope, visits_then; [apply visits_any, visits_declare_params|]. intros ?. quiet; [apply visits_maybe_type_ref|].
  apply visits_each_option. intros b. apply visits_block.
Qed.
Lemma visits_functions ρ open Pre fs : visits ρ ρ open Pre (mjoin (scope_fn ρ <$> fs)) (each resolve_function_body fs) whatever.
Proof. apply visits_each. intros f _. apply visits_function_body. Qed.
Lemma visits_declare_function ρ b Pre f :
  visits ρ (<[fn_name f := (fn_span f, SkFunction)]> ρ) (true, b) Pre [] (declare_function f) whatever.
Proof. eapply visits_before; [apply visits_alloc_kind|]. intros id. apply visits_define_err. Qed.
Lemma visits_declare_type ρ b Pre name span kind : visits ρ ρ (b, true) Pre [] (declare_type name span kind) whatever.
Proof.
  eapply visits_before; [apply visits_alloc_kind|]. intros id. quiet; [apply visits_define_type_err|]. by apply visits_ret.
Qed.
Lemma visits_declared_type ρ b Pre name span kind : visits ρ ρ (b, true) Pre [] (_ ← declare_type name span kind; mret ()) whatever.
Proof. quiet; [apply visits_declare_type|]. apply visits_done. Qed.

(** ** Contracts *)

Lemma visits_register_member ρ Pre m : visits ρ (declare ρ (member_decls m)) (true, true) Pre [] (register_contract_member m) whatever.
Proof.
  destruct m as [b|[name ty v sp]|i|f|e|md|rc|fb|s|en|er|c|mt]; cbn [register_contract_member];
    try apply visits_done; try apply visits_declared_type; try apply visits_declare_value.
  - apply (visits_each_decl1 _ _ _ _ (λ f, (sf_name f, (sf_span f, SkStateField)))). intros f ρ1. apply visits_declare_value.
  - apply visits_declare_function.
  - quiet; [apply visits_declare_type|]. by apply visits_other.
  - eapply visits_before; [apply visits_alloc_kind|]. intros id. apply visits_define_err.
Qed.
Lemma visits_resolve_member ρ open Pre m : visits ρ ρ open Pre (scope_member ρ m) (resolve_contract_member m) whatever.
Proof.
  destruct m as [b|[name ty v sp]|i|f|e|md|rc|fb|s|en|er|c|mt]; cbn [resolve_contract_member scope_member]; try apply visits_done; try apply visits_all_hidden.
  - apply visits_each. intros f _. quiet; [apply visits_type_ref|]. apply visits_default.
  - quiet; [apply visits_type_ref|]. apply visits_any, visits_expr.
  - apply visits_type_ref.
  - apply visits_function_body.
  - apply visits_hidden, visits_weaken with (open := (open.1, false)); [by split|].
    apply visits_scoped_after; [apply Forall_true, visits_stmt|]. apply visits_lambda_bindings.
  - apply visits_block.
  - apply visits_block.
  - destruct open as [o t]. apply visits_type_scope. quiet; [apply visits_generic_params|].
    eapply visits_after; [apply visits_functions|]. intros ?. quiet; [apply visits_get_any|]. apply visits_record_sig.
Qed.
Lemma visits_inject ρ b Pre span m : visits ρ (declare ρ (base_decls span m)) (true, b) Pre [] (inject_base_members span m) whatever.
Proof.
  unfold base_decls. rewrite declare_app.
  quiet; [apply (visits_each_decl1 _ _ _ _ (λ f, (text f.1, (span, SkStateField))))|apply (visits_each_decl1 _ _ _ _ (λ f, (text f.1, (span, SkFunction))))];
    intros f ρ1; apply visits_new_local, visits_done.
Qed.
Lemma visits_inject_option ρ b Pre span base :
  visits ρ (declare ρ (mjoin (base_decls span <$> option_list base))) (true, b) Pre [] (each_option (inject_base_members span) base) whatever.
Proof.
  destruct base as [m|]; cbn [each_option]; [|apply visits_done].
  change (mjoin _) with (base_decls span m ++ []). rewrite app_nil_r. apply visits_inject.
Qed.
(** The members of a contract, in their scopes. *)
Definition resolve_members (members : list ContractMember) : M () :=
  in_value_scope (in_type_scope (
    _ ← each register_contract_member members;
    prev_in_method ← get in_method;
    _ ← modify (λ r, set_in_method r true);
    _ ← each resolve_contract_member members;
    modify (λ r, set_in_method r prev_in_method))).
Lemma visits_members ρ open Pre ms :
  visits ρ ρ open Pre (mjoin (scope_member (declare ρ (mjoin (member_decls <$> ms))) <$> ms)) (resolve_members ms) whatever.
Proof.
  destruct open as [o t]. eapply visits_value_scope, visits_type_scope.
  quiet; [apply visits_each_decl; intros m ρ1; apply visits_register_member|]. eapply visits_before; [apply visits_get_any|]. intros prev.
  quiet; [by apply visits_other|]. eapply visits_after; [apply visits_each; intros m _; apply visits_resolve_member|].
  intros ?. by apply visits_other.
Qed.
Lemma visits_contract_body ρ open Pre ms span base traits :
  visits ρ ρ open Pre (scope_contract ρ ms span (option_list base ++ traits)) (resolve_contract_body_with_base ms span base traits) whatever.
Proof.
  destruct open as [o t]. unfold scope_contract, contract_env. rewrite fmap_app, join_app, app_comm_cons, !declare_app.
  cbn [declare foldl]. rewrite declare_app.
  eapply visits_value_scope, visits_type_scope. eapply visits_before; [apply visits_alloc_kind|]. intros id.
  quiet; [apply visits_define_value|]. quiet; [apply visits_inject_option|].
  quiet; [apply visits_each_decl; intros m ρ1; apply visits_inject|]. apply visits_members.
Qed.

(** ** Items *)

Lemma visits_contract_methods ρ open Pre name ms : visits ρ ρ open Pre [] (record_contract_methods name ms) whatever.
Proof.
  unfold record_contract_methods. eapply visits_before; [apply visits_get_any|]. intros [id|]; [|apply visits_done]. by apply visits_other.
Qed.
Lemma visits_import ρ Pre i : visits ρ (declare ρ (item_decls (ItImport i))) (true, true) Pre [] (register_import i) whatever.
Proof.
  apply (visits_each_decl1 _ _ _ _ (λ name, (name, (imp_span i, import_kind i name)))). intros name ρ1. apply visits_new_local.
  eapply visits_before; [apply visits_alloc_kind|]. intros it. quiet; [|apply visits_done].
  eapply visits_pre; [apply visits_define_type|]. intros r H. by eexists.
Qed.
Lemma visits_register_item ρ Pre it : visits ρ (declare ρ (item_decls it)) (true, true) Pre [] (register_item it) whatever.
Proof.
  destruct it; cbn [register_item]; try apply visits_done; try apply visits_declared_type; try apply visits_declare_function;
    try apply visits_import; try (eapply visits_before; [apply visits_declare_type|intros ?; by apply visits_other]).
  destruct c. apply visits_declare_value.
Qed.
Lemma visits_struct ρ open Pre s : visits ρ ρ open Pre (scope_item ρ (ItStruct s)) (resolve_item (ItStruct s)) whatever.
Proof.
  destruct open as [o t]. apply visits_type_scope. quiet; [apply visits_generic_params|].
  eapply visits_after; [|intros ?; apply visits_record_sig]. eapply visits_value_scope.
  quiet; [apply (visits_each_decl1 _ _ _ _ (λ f, (fn_name f, (fn_span f, SkFunction)))); intros f ρ1; apply visits_declare_function|].
  eapply visits_after; [apply visits_functions|]. intros ?. apply visits_get_any.
Qed.
Lemma visits_item ρ open Pre it : visits ρ ρ open Pre (scope_item ρ it) (resolve_item it) whatever.
Proof.
  destruct it; cbn [resolve_item scope_item]; try apply visits_done; try apply visits_all_hidden; try apply visits_function_body; try apply visits_type_ref.
  - eapply visits_after; [apply (visits_contract_body _ _ _ _ _ None)|]. intros ?. apply visits_contract_methods.
  - eapply visits_after; [|intros ?; apply visits_contract_methods]. rewrite <- (app_nil_r (option_list _)). apply visits_contract_body.
  - apply (visits_hidden ρ open ρ Pre []), visits_each_nil. intros [f|e] _; [apply visits_done|]. apply visits_other. intros r. cbn. by destruct (_ !! _).
  - apply visits_struct.
  - apply visits_hidden. destruct open as [o t]. apply visits_type_scope. quiet; [apply visits_generic_params|].
    eapply visits_after; [apply visits_functions|]. intros ?. quiet; [apply visits_get_any|]. apply visits_record_sig.
  - destruct c. quiet; [apply visits_type_ref|]. apply visits_any, visits_expr.
Qed.

(** ** The whole pass *)

Lemma re_lower_keeps r i ann : ∃ ss, re_lower r i ann = set_symbols r ss ∧ sym_key <$> ss = keys r.
Proof.
  unfold re_lower. eexists. split; [reflexivity|]. apply alter_keys. intros s. by destruct (is_unknown _).
Qed.
Lemma re_lower_all_keeps l r : ∃ ss, foldl (λ r '(i, ann), re_lower r i ann) r l = set_symbols r ss ∧ sym_key <$> ss = keys r.
Proof.
  revert r. induction l as [|[i ann] l IH]; intros r; cbn; [by exists (symbols r); destruct r|].
  destruct (re_lower_keeps r i ann) as (ss & -> & Hk). destruct (IH (set_symbols r ss)) as (ss' & -> & Hk').
  exists ss'. split; [done|]. rewrite Hk'. exact Hk.
Qed.
Lemma visits_re_lower ρ open Pre : visits ρ ρ open Pre [] re_lower_forward_refs whatever.
Proof.
  split.
  - intros r r' x E. injection E as <- _. destruct (re_lower_all_keeps (to_relower r) r) as (ss & -> & Hk). cbn.
    apply (f_equal length) in Hk. unfold keys in Hk. rewrite !length_fmap in Hk. lia.
  - intros r r' x Hw _ E Hs. injection E as <- _. destruct (re_lower_all_keeps (to_relower r) r) as (ss & -> & Hk).
    destruct (wf_more_symbols ρ r ss [] Hw) as [Hw' Hst]; [|done]. by rewrite app_nil_r.
Qed.

Definition global_pass (ast : Ast) : M () :=
  _ ← builtin "msg" RtMsgContext; _ ← builtin "block" RtBlockContext; _ ← each register_item (items ast);
  _ ← each resolve_item (items ast); re_lower_forward_refs.
(** The state with the two outermost scopes open. *)
Definition opened : Resolver := set_type_scopes (set_value_scopes Resolver_new [∅]) [∅].
Lemma opened_wf : wf ∅ opened.
Proof.
  assert (Forall (scope_ok opened) [∅]) as H by (constructor; [apply map_Forall_empty|constructor]).
  split; [|done..]. intros name. unfold lookup_value. cbn. by rewrite !lookup_empty.
Qed.
Lemma visits_builtin ρ b Pre name ty :
  visits ρ (<[text name := (Span_at 0 0 0, SkBuiltinGlobal)]> ρ) (true, b) Pre [] (builtin name ty) whatever.
Proof.
  eapply visits_before; [apply visits_alloc|]. intros id. quiet; [apply visits_define_value|]. apply visits_done.
Qed.
Lemma visits_global ast : visits ∅ (global_env ast) (true, true) anywhere (scoped ast) (global_pass ast) whatever.
Proof.
  unfold global_pass, scoped. quiet; [apply visits_builtin|]. quiet; [apply visits_builtin|].
  quiet; [apply visits_each_decl; intros it ρ1; apply visits_register_item|].
  eapply visits_after; [apply visits_each; intros it _; apply visits_item|]. intros ?. apply visits_re_lower.
Qed.
Lemma resolve_global ast r : resolve ast = Ok r → global_pass ast opened = Ok (r, ()).
Proof.
  intros E. assert (resolve ast = '(r, _) ← global_pass ast opened; Ok r) as H.
  { unfold resolve, global_pass, build_global_scope, push_value_scope, push_type_scope. cbv [mbind M_bind result_bind modify].
    cbn [set_type_scopes set_value_scopes value_scopes type_scopes Resolver_new].
    destruct (builtin "msg" _ _) as [[r1 []]|]; [|done]. destruct (builtin "block" _ _) as [[r2 []]|]; [|done].
    by destruct (each register_item _ _) as [[r3 []]|]. }
  rewrite H in E. cbn in E. destruct (global_pass _ _) as [[r1 []]|]; [|done]. by injection E as ->.
Qed.

Lemma declared_symbol name d r id : declared name d r id →
  0 < id ∧ ∃ s, symbol r id = Some s ∧ sy_name s = name ∧ (sy_decl_span s, sy_kind s) = d.
Proof.
  intros (H0 & Hk). split; [done|]. unfold keys in Hk. rewrite list_lookup_fmap in Hk.
  apply fmap_Some in Hk as (s & Hs & [= -> ->]). by exists s.
Qed.
(** A key occurs once. *)
Lemma NoDup_key_inj {A B C : Type} (l : list (A * B * C)) a b c a' c' :
  NoDup l.*1.*2 → (a, b, c) ∈ l → (a', b, c') ∈ l → a = a' ∧ c = c'.
Proof.
  induction l as [|[[x y] z] l IH]; cbn; [by intros _ ?%not_elem_of_nil|].
  assert (∀ u v, (u, y, v) ∈ l → y ∈ l.*1.*2) as Hy.
  { intros u v H. apply list_elem_of_fmap. exists (u, y). split; [done|]. apply list_elem_of_fmap. by exists (u, y, v). }
  intros [Hn Hl]%NoDup_cons [[= -> -> ->]|Ha]%elem_of_cons [[= -> ->]|Hb]%elem_of_cons; [done|destruct Hn; by eapply Hy..|].
  by apply IH.
Qed.

(** C36. Name resolution gives the names it visits the declarations that lexical scoping
    gives them.  The reference, [scoped], lists the names in value position of the whole
    program with their spans and the innermost earlier declaration around them (parameters,
    [let] and pattern variables, own and inherited members of the contract, top-level
    declarations and imports), and marks those the pass does not look at: in libraries,
    traits and interfaces, methods of events and of enums inside a contract, call options,
    discriminants, and defaults of lambda and modifier parameters.  When the pass succeeds,
    with fewer than 2^32 symbols (the width of their numbers), every unmarked use is declared
    and its span is mapped; every mapped span is that of such a use and leads to a symbol with
    its name, declaration span and kind; where no two of them share a span, each is mapped to
    the symbol of its declaration.  Signatures belong to declared symbols, and all scopes but
    the two global ones are closed again. *)
Theorem resolve_follows_scopes ast r :
  resolve ast = Ok r → small r →
  (∀ name span d, (name, span, d) ∈ visited (scoped ast) → is_Some d ∧ is_Some (resolutions r !! span)) ∧
  (∀ span id, resolutions r !! span = Some id → ∃ s, symbol r id = Some s ∧ 0 < id ∧
     (sy_name s, span, Some (sy_decl_span s, sy_kind s)) ∈ visited (scoped ast)) ∧
  (NoDup (visited (scoped ast)).*1.*2 → ∀ name span d, (name, span, d) ∈ visited (scoped ast) →
     ∃ id s, resolutions r !! span = Some id ∧ symbol r id = Some s ∧ sy_name s = name ∧ d = Some (sy_decl_span s, sy_kind s)) ∧
  (∀ id sig, sigs r !! id = Some sig → 0 < id ∧ is_Some (symbol r id)) ∧
  length (value_scopes r) = 1%nat ∧ length (type_scopes r) = 1%nat.
Proof.
  intros E%resolve_global Hs. destruct (visits_global ast) as [_ H].
  destruct (H opened r () opened_wf (Logic.I : anywhere _) E Hs) as (Hw & [G V T N S D] & _).
  assert (∀ span id, resolutions r !! span = Some id → ∃ s, symbol r id = Some s ∧ 0 < id ∧
    (sy_name s, span, Some (sy_decl_span s, sy_kind s)) ∈ visited (scoped ast)) as Hr.
  { intros span id Hl. apply N in Hl as [Hl|(name & d & Hin & Hn)]; [done|].
    apply declared_symbol in Hn as (? & s & ? & <- & <-). exists s. by rewrite elem_of_visited. }
  assert (∀ name span d, (name, span, d) ∈ visited (scoped ast) → is_Some d ∧ is_Some (resolutions r !! span)) as Hu.
  { intros name span d Hin%elem_of_visited. by apply (S name). }
  split_and!; [exact Hu|exact Hr| | | |].
  - intros Hnd name span d Hin. destruct (Hu _ _ _ Hin) as [_ [id Hid]]. destruct (Hr _ _ Hid) as (s & Hs' & _ & Hin').
    destruct (NoDup_key_inj _ _ _ _ _ _ Hnd Hin Hin') as [-> ->]. by exists id, s.
  - intros id sig Hl. apply (wf_sigs _ _ Hw) in Hl as [name [d Hn]]. apply declared_symbol in Hn as (? & s & ? & _). by split; [|exists s].
  - by destruct V.
  - by destruct T.
Qed.

(** ** The duplicate check *)

Definition top_level_names (its : list Item) : list (list N) := (omap top_level_name its).*1.
Lemma check_names_spec seen its :
  match check_names seen its with
  | Ok _ => NoDup (top_level_names its) ∧ ∀ n, n ∈ seen → n ∉ top_level_names its
  | Err e => ∃ before it after name span, its = before ++ it :: after ∧ top_level_name it = Some (name, span) ∧
      e = dup_err name span ∧ (name ∈ seen ∨ name ∈ top_level_names before) ∧
      NoDup (top_level_names before) ∧ ∀ n, n ∈ seen → n ∉ top_level_names before
  end.
Proof.
  unfold top_level_names. revert seen. induction its as [|it its IH]; intros seen; cbn; [split; [constructor|by intros n _ ?%not_elem_of_nil]|].
  destruct (top_level_name it) as [[name span]|] eqn:En.
  - case_bool_decide as Hs.
    + exists [], it, its, name, span. split_and!; [done..|by left|constructor|by intros n _ ?%not_elem_of_nil].
    + specialize (IH (name :: seen)). destruct (check_names _ its) as [[]|e].
      * destruct IH as [Hnd Hd]. cbn. split; [constructor; [apply Hd; by left|done]|].
        intros n Hn [->|H]%elem_of_cons; [done|]. by apply (Hd n); [right|].
      * destruct IH as (before & it' & after & name' & span' & -> & Hit & -> & Hin & Hnd & Hd).
        exists (it :: before), it', after, name', span'. cbn. rewrite En. cbn. split_and!; [done..| | |].
        -- destruct Hin as [[->|H]%elem_of_cons|H]; [right; by left|by left|right; by right].
        -- constructor; [apply Hd; by left|done].
        -- intros n Hn [->|H]%elem_of_cons; [done|]. by apply (Hd n); [right|].
  - specialize (IH seen). destruct (check_names _ its) as [[]|e]; [exact IH|].
    destruct IH as (before & it' & after & name' & span' & -> & ?). exists (it :: before), it', after, name', span'.
    cbn. by rewrite En.
Qed.
(** The check accepts a program exactly when its items have different names, and otherwise
    reports the first item that repeats the name of an earlier one. *)
Theorem duplicate_check_exact its :
  (check_no_duplicate_top_level_names its = Ok () ↔ NoDup (top_level_names its)) ∧
  ∀ e, check_no_duplicate_top_level_names its = Err e →
    ∃ before it after name span, its = before ++ it :: after ∧ top_level_name it = Some (name, span) ∧ e = dup_err name span ∧
      name ∈ top_level_names before ∧ NoDup (top_level_names before).
Proof.
  unfold check_no_duplicate_top_level_names. pose proof (check_names_spec [] its) as H. destruct (check_names [] its) as [[]|e].
  - split; [split; [by intros _; apply H|done]|done].
  - destruct H as (before & it & after & name & span & -> & Hit & -> & [?%not_elem_of_nil|Hin] & Hnd & _); [done|]. split.
    + split; [done|]. unfold top_level_names. rewrite omap_app. cbn. rewrite Hit, fmap_app. cbn. intros (_ & Hd & _)%NoDup_app.
      destruct (Hd name Hin). by left.
    + intros e [= <-]. by exists before, it, after, name, span.
Qed.
