(* ===== verification/ResolverExamples.v ===== *)
(** * Programs at the edges of name resolution

    Short sources, lexed, parsed and resolved by evaluation: what is not looked at, which
    declaration wins when names collide, and where a type stays unknown. *)
From stdpp Require Import strings.
From S2P Require Import Prelude LexToken Lexer LangAst LangTypes Parser ParserExpr ParserDecl ParserExamples Resolver ResolverSpec.

Definition resolve_source (ls : list string) : option (result TypeError Resolver) :=
  match parse_source (lines ls) with Some (Ok ast) => Some (resolve ast) | _ => None end.
Definition resolved (ls : list string) : option Resolver :=
  match resolve_source ls with Some (Ok r) => Some r | _ => None end.
Definition error_of (ls : list string) : option TypeErrorKind :=
  match resolve_source ls with Some (Err e) => Some (te_kind e) | _ => None end.
(** The symbols of a name, with their numbers. *)
Definition symbols_named (name : string) (r : Resolver) : list (nat * SymbolKind * ResolvedType) :=
  omap (λ '(i, s), if bool_decide (sy_name s = text name) then Some (S i, sy_kind s, sy_ty s) else None) (imap pair (symbols r)).
(** The symbols that the occurrences of a name stand for. *)
Definition uses_of (name : string) (r : Resolver) : list SymbolId :=
  omap (λ '(_, id), if decide ((sy_name <$> symbol r id) = Some (text name)) then Some id else None) (map_to_list (resolutions r)).

Definition undefined (name : string) : option TypeErrorKind := Some (UndefinedName (text name)).
Definition resolves (ls : list string) : bool := bool_decide (is_Some (resolved ls)).

(** Visited and unvisited places: the options of a call, the types of struct fields and
    of the fields of variants, and the methods of an enum in a contract are not looked at. *)
Example unvisited_places :
  error_of ["fn f(g: u8) {"; "g(nope)"; "}"] = undefined "nope" ∧
  resolves ["fn f(g: u8) {"; "g{value: nope}(1)"; "}"] ∧
  error_of ["fn f(g: Nope) {"; "}"] = Some (UndefinedType (text "Nope")) ∧
  resolves ["struct S { x: Nope }"] ∧ resolves ["enum E { A(Nope) }"] ∧
  error_of ["enum E {"; "A"; "fn g() {"; "nope()"; "}"; "}"] = undefined "nope" ∧
  resolves ["contract C {"; "enum E {"; "A"; "fn g() {"; "nope()"; "}"; "}"; "}"] ∧
  resolves ["trait T {"; "fn g() {"; "nope()"; "}"; "}"] ∧ resolves ["library L {"; "fn g() {"; "nope()"; "}"; "}"].
Proof. vm_compute. done. Qed.

(** The same in the reference: visited or not, the name, and whether it is declared. *)
Definition uses_in (ls : list string) : option (list (bool * list N * bool)) :=
  match parse_source (lines ls) with
  | Some (Ok ast) => Some ((λ u : Use, (u.1, u.2.1.1, bool_decide (is_Some u.2.2))) <$> scoped ast)
  | _ => None
  end.
Example hidden_uses :
  uses_in ["library L {"; "fn g(x: u8) {"; "nope(x)"; "}"; "}"] = Some [(false, text "nope", false); (false, text "x", true)] ∧
  uses_in ["fn f(g: u8) {"; "g{value: nope}(g)"; "}"] = Some [(true, text "g", true); (true, text "g", true); (false, text "nope", false)].
Proof. vm_compute. done. Qed.

(** A type that is declared later: a global constant gets it at the end of the pass when
    the name is the whole annotation, and stays unknown under a constructor; a state field
    never gets the type of a later struct of its own contract. *)
Example forward_references :
  symbols_named "a" <$> resolved ["const a: P = 1"; "const b: Array<P> = 1"; "struct P { x: u8 }"] = Some [(3%nat, SkConst, RtNamed 5 [])] ∧
  symbols_named "b" <$> resolved ["const a: P = 1"; "const b: Array<P> = 1"; "struct P { x: u8 }"] = Some [(4%nat, SkConst, RtArray RtUnknown)] ∧
  symbols_named "u" <$> resolved ["contract C {"; "state { u: P }"; "struct P { x: u8 }"; "}"] = Some [(5%nat, SkStateField, RtUnknown)] ∧
  symbols_named "u" <$> resolved ["contract C {"; "struct P { x: u8 }"; "state { u: P }"; "}"] = Some [(6%nat, SkStateField, RtNamed 5 [])].
Proof. vm_compute. done. Qed.

(** [import { P } from "lib"] *)
Definition import_p : string := String.concat (String (Ascii.ascii_of_nat 34) EmptyString) ["import { P } from "; "lib"; EmptyString].
(** Inherited names: the function [totalSupply] of [Token] hides its state field.  An
    imported name replaces the struct declared above it. *)
Example last_declaration_wins :
  symbols_named "totalSupply" <$> resolved ["token T extends Token {"; "fn f() {"; "let s = totalSupply"; "}"; "}"] =
    Some [(6%nat, SkStateField, RtUnknown); (13%nat, SkFunction, RtUnknown)] ∧
  uses_of "totalSupply" <$> resolved ["token T extends Token {"; "fn f() {"; "let s = totalSupply"; "}"; "}"] = Some [13] ∧
  symbols_named "p" <$> resolved ["struct P { x: u8 }"; "fn f(p: P) {"; "}"] = Some [(5%nat, SkParam, RtNamed 3 [])] ∧
  symbols_named "p" <$> resolved ["struct P { x: u8 }"; import_p; "fn f(p: P) {"; "}"] = Some [(7%nat, SkParam, RtNamed 5 [])].
Proof. vm_compute. done. Qed.

(** The method of a struct in a contract gives its signature to the function of the
    contract that has the same name. *)
Example nested_method_takes_signature :
  symbols_named "f" <$> resolved ["contract C {"; "fn f(x: u8) -> u8 {"; "return x"; "}"; "}"] = Some [(5%nat, SkFunction, RtFn [RtU8] RtU8)] ∧
  symbols_named "f" <$> resolved ["contract C {"; "fn f(x: u8) -> u8 {"; "return x"; "}";
    "struct P {"; "x: u8"; "fn f() -> bool {"; "return true"; "}"; "}"; "}"] = Some [(5%nat, SkFunction, RtFn [] RtBool)].
Proof. vm_compute. done. Qed.

(** One table of event fields for the file: a later contract replaces the fields of an
    event of the same name. *)
Example events_by_name :
  (λ r, event_field_sigs r !! text "E") <$> resolved ["contract A {"; "event E {"; "x: u8"; "}"; "}"] = Some (Some [(text "x", RtU8)]) ∧
  (λ r, event_field_sigs r !! text "E") <$> resolved ["contract A {"; "event E {"; "x: u8"; "}"; "}"; "contract B {"; "event E {"; "y: bool"; "}"; "}"]
    = Some (Some [(text "y", RtBool)]).
Proof. vm_compute. done. Qed.

(** The spans of interpolated expressions count from the interpolation: two of them share
    one entry and the first one's symbol is lost. *)
Example interpolations_share_spans :
  (λ r, (uses_of "a" r, uses_of "b" r)) <$> resolved ["fn f(a: u8, b: u8) {"; "let s = `${a} ${b}`"; "}"] = Some ([], [5]).
Proof. vm_compute. done. Qed.

(** Two [let]s of a name in one block are accepted, two constants are not. *)
Example same_level_duplicates :
  resolves ["fn f() {"; "let x = 1"; "let x = 2"; "}"] ∧
  error_of ["fn f() {"; "const x: u8 = 1"; "const x: u8 = 2"; "}"] = Some (DuplicateDeclaration (text "x")).
Proof. vm_compute. done. Qed.
