(* ===== verification/NodeExec.v ===== *)
(** * Block execution in the node ([lemma-node/src/error.rs],
      [state_view.rs], [block_exec.rs])

    The committed state as the base of execution, and the application of a
    block's writes to the world state: accounts in the trie, storage in its
    column family and in one trie per contract, code by its hash.  The database
    handle is shared, so every function that writes returns the database beside
    its answer, also on an error.  [None] is fuel running out in a trie walk. *)
From stdpp Require Import strings.
From S2P Require Import Prelude CoreTypes StakeAgg DagBlock Fee Leader Cert Db Trie TrieRoot Transaction WorldState ChainStore Crypto RateLimit Mempool VmState Flux Agent Host.

(** ** [error.rs].  A message is represented by what it is built from; the
    variant for network errors belongs to the network service. *)

Inductive VerifyError :=
  | BlockInvalid (e : BlockError)
  | ParentHashMismatch (expected got : Hash)
  | HeightMismatch (expected got : N)
  | HashMismatch (computed got : Hash)
  | HeightOverflow (prev_height : N)
  | VSerialization (reason : string)
  | QuorumCertInvalid (reason : CertError)
  | UnsupportedProtocolVersion (seen max : N).

Inductive ConfigReason :=
  | ChainNotInitialised
  | TipBlockNotFound (height : N)
  | EngineInitFailed (reason : string)
  | KeyAuthorMismatch (key_address author : Address)
  | SurgeFailed (reason : string).

Inductive NodeError :=
  | NStorage (e : StorageError)
  | NCore (e : CoreError)
  | NBlock (e : BlockError)
  | NCrypto (e : CryptoError)
  | NVerify (e : VerifyError)
  | NInvalidQC (e : VerifyError)
  | NConfig (reason : ConfigReason)
  | NGenesisJson (reason : string)
  | NSerialization (reason : string).

(** ** The derived order of [StateKey]: variant first, then the fields. *)

Definition key_rank (k : StateKey) : N * Address * bytes :=
  match k with
  | KStorage c k => (0, c, k)
  | KBalance a => (1, a, [])
  | KNonce a => (2, a, [])
  | KCode a => (3, a, [])
  end.
Definition rank_le (x y : N * Address * bytes) : Prop :=
  x.1.1 < y.1.1 ∨ (x.1.1 = y.1.1 ∧ (x.1.2 < y.1.2 ∨ (x.1.2 = y.1.2 ∧ bytes_le x.2 y.2))).
Definition key_le (k k' : StateKey) : Prop := rank_le (key_rank k) (key_rank k').

#[export] Instance key_le_dec : RelDecision key_le.
Proof. unfold RelDecision, key_le, rank_le. intros k k'. apply _. Defined.
#[export] Instance key_le_total : Total key_le.
Proof.
  intros k k'. unfold key_le, rank_le. destruct (key_rank k) as [[t a] b], (key_rank k') as [[t' a'] b']; cbn.
  destruct (total bytes_le b b'); destruct (N.lt_trichotomy t t') as [|[<-|]], (N.lt_trichotomy a a') as [|[<-|]]; tauto.
Qed.
#[export] Instance key_le_trans : Transitive key_le.
Proof.
  intros k k' k''. unfold key_le, rank_le.
  destruct (key_rank k) as [[t a] b], (key_rank k') as [[t' a'] b'], (key_rank k'') as [[t'' a''] b'']; cbn.
  intros [?|(-> & [?|[-> H1]])] [?|(<- & [?|[<- H2]])]; first [left; lia|right; split; [done|]]; [left; lia|by left|by left|].
  right. split; [done|]. by etrans.
Qed.
#[export] Instance key_le_antisym : AntiSymm (=) key_le.
Proof.
  intros k k' H1 H2. unfold key_le, rank_le in *.
  assert (key_rank k = key_rank k') as He.
  { destruct (key_rank k) as [[t a] b], (key_rank k') as [[t' a'] b']; cbn in *.
    destruct H1 as [|(-> & [|[-> H1]])]; [lia..|]. destruct H2 as [|(_ & [|[_ H2]])]; [lia..|].
    by rewrite (anti_symm bytes_le b b'). }
  destruct k, k'; by simplify_eq/=.
Qed.
#[export] Instance StateKey_bord : BOrd StateKey := {| ble := key_le |}.

(** ** [state_view.rs] *)

Section view.
Context {DB : Type} `{!Rocks DB} `{!Codec TrieNode} `{!Codec Account} (blake3 : bytes → Hash).

Definition WorldStateView_new (db : DB) (state_root : Hash) : WorldState DB :=
  if state_root =? Hash_zero then WorldState_new db else with_state_root db state_root.

(** [.ok().flatten()] *)
Definition ok_flatten {A} (r : result StorageError (option A)) : option A :=
  match r with Ok o => o | Err _ => None end.

Definition view_read (self : WorldState DB) (contract : Address) (key : bytes) : option bytes :=
  ok_flatten (get_storage self contract (hash_bytes blake3 key)).
Definition view_exists (self : WorldState DB) (contract : Address) (key : bytes) : bool :=
  bool_decide (is_Some (view_read self contract key)).
Definition view_balance (self : WorldState DB) (addr : Address) : Amount :=
  match get_balance self addr with Some (Ok b) => b | _ => 0 end.
Definition view_nonce (self : WorldState DB) (addr : Address) : N :=
  match get_nonce self addr with Some (Ok n) => n | _ => 0 end.
Definition view_code (self : WorldState DB) (addr : Address) : option bytes :=
  match get_account self addr with
  | Some (Ok (Some account)) =>
      if code_hash account =? Hash_zero then None else ok_flatten (get_code self (code_hash account))
  | _ => None
  end.
Definition view_has_code_hash (self : WorldState DB) (hash : Hash) : bool :=
  bool_decide (is_Some (ok_flatten (get_code self hash))).

(** What Flux reads from its base; the write methods are unreachable there. *)
Definition committed_value (self : WorldState DB) (k : StateKey) : StateValue :=
  match k with
  | KStorage c key => VStorage (view_read self c key)
  | KBalance a => VBalance (view_balance self a)
  | KNonce a => VNonce (view_nonce self a)
  | KCode a => VCode (view_code self a)
  end.
End view.

(** ** [block_exec.rs] *)

Definition MAX_TXS_PER_BLOCK : nat := 256.

Definition set_acc_balance (b : Amount) (a : Account) : Account :=
  {| acc_nonce := acc_nonce a; balance := b; code_hash := code_hash a; storage_root := storage_root a; staked := staked a |}.
Definition set_code_hash (h : Hash) (a : Account) : Account :=
  {| acc_nonce := acc_nonce a; balance := balance a; code_hash := h; storage_root := storage_root a; staked := staked a |}.
Definition set_storage_root (h : Hash) (a : Account) : Account :=
  {| acc_nonce := acc_nonce a; balance := balance a; code_hash := code_hash a; storage_root := h; staked := staked a |}.

Section exec.
Context {DB : Type} `{!Rocks DB} `{!Codec TrieNode} `{!Codec Account} (blake3 : bytes → Hash).
Implicit Types (w : WorldState DB).

(** One fallible step on the world state. *)
Notation stepped := (option (WorldState DB * result StorageError ())) (only parsing).

(** [get_account → mutate → put_account] *)
Definition write_account w (addr : Address) (f : Account → Account) : stepped :=
  match get_account w addr with
  | None => None
  | Some (Err e) => Some (w, Err e)
  | Some (Ok o) =>
      match put_account blake3 w addr (f (default Account_default o)) with
      | None => None
      | Some (Err e) => Some (w, Err e)
      | Some (Ok w') => Some (w', Ok ())
      end
  end.

Definition apply_one_write w (key : StateKey) (value : StateValue) : stepped :=
  match key, value with
  | KBalance addr, VBalance amount => write_account w addr (set_acc_balance amount)
  | KNonce addr, VNonce nonce => write_account w addr (set_nonce nonce)
  | KCode addr, VCode (Some bytecode) =>
      let code_hash := hash_bytes blake3 bytecode in
      match put_code w code_hash bytecode with
      | Err e => Some (w, Err e)
      | Ok w1 => write_account w1 addr (set_code_hash code_hash)
      end
  | KCode addr, VCode None => write_account w addr (set_code_hash Hash_zero)
  | _, _ => Some (w, Ok ())
  end.

Notation StorageChanges := (gmap Address (list (Hash * option bytes))) (only parsing).

(** One iteration of the first loop of [apply_writes]. *)
Definition phase1_step (st : WorldState DB * StorageChanges) (kv : StateKey * StateValue)
    : option (WorldState DB * StorageChanges * result StorageError ()) :=
  let '(w, changes) := st in
  match kv with
  | (KStorage contract slot_key, VStorage val) =>
      let slot := hash_bytes blake3 slot_key in
      match (match val with Some v => put_storage w contract slot v | None => delete_storage w contract slot end) with
      | Err e => Some (w, changes, Err e)
      | Ok w' => Some (w', <[contract := default [] (changes !! contract) ++ [(slot, val)]]> changes, Ok ())
      end
  | (key, value) =>
      match apply_one_write w key value with
      | None => None
      | Some (w', r) => Some (w', changes, r)
      end
  end.

Fixpoint phase1 (st : WorldState DB * StorageChanges) (ws : list (StateKey * StateValue))
    : option (WorldState DB * StorageChanges * result StorageError ()) :=
  match ws with
  | [] => Some (st, Ok ())
  | kv :: ws =>
      match phase1_step st kv with
      | Some (st', Ok ()) => phase1 st' ws
      | r => r
      end
  end.

(** The slots of one contract go into its storage trie; a deletion inserts an
    empty value. *)
Fixpoint insert_slots (db : DB) (root : option Hash) (slots : list (Hash * option bytes))
    : option (DB * result StorageError (option Hash)) :=
  match slots with
  | [] => Some (db, Ok root)
  | (slot_hash, value) :: slots =>
      match Trie_insert blake3 db root (Hash_as_bytes slot_hash) (default [] value) with
      | None => None
      | Some (Err e) => Some (db, Err e)
      | Some (Ok (db', root')) => insert_slots db' (Some root') slots
      end
  end.

(** One iteration of the second loop. *)
Definition phase2_step w (contract : Address) (slots : list (Hash * option bytes)) : stepped :=
  match get_account w contract with
  | None => None
  | Some (Err e) => Some (w, Err e)
  | Some (Ok o) =>
      let account := default Account_default o in
      let root := if storage_root account =? Hash_zero then None else Some (storage_root account) in
      match insert_slots (db w) root slots with
      | None => None
      | Some (db', Err e) => Some (with_db w db', Err e)
      | Some (db', Ok root') =>
          let w := with_db w db' in
          let new_storage_root := default Hash_zero root' in
          if new_storage_root =? storage_root account then Some (w, Ok ()) else
          match put_account blake3 w contract (set_storage_root new_storage_root account) with
          | None => None
          | Some (Err e) => Some (w, Err e)
          | Some (Ok w') => Some (w', Ok ())
          end
      end
  end.

Fixpoint phase2 w (changes : list (Address * list (Hash * option bytes))) : stepped :=
  match changes with
  | [] => Some (w, Ok ())
  | (contract, slots) :: changes =>
      match phase2_step w contract slots with
      | Some (w', Ok ()) => phase2 w' changes
      | r => r
      end
  end.

Definition apply_writes (db0 : DB) (base_state_root : Hash) (ws : gmap StateKey StateValue)
    : option (DB * result NodeError Hash) :=
  if bool_decide (ws = ∅) then Some (db0, Ok base_state_root) else
  match phase1 (WorldStateView_new db0 base_state_root, ∅) (bmap_iter ws) with
  | None => None
  | Some (w, _, Err e) => Some (db w, Err (NStorage e))
  | Some (w, changes, Ok ()) =>
      match phase2 w (bmap_iter changes) with
      | None => None
      | Some (w, Err e) => Some (db w, Err (NStorage e))
      | Some (w, Ok ()) => Some (db w, Ok (default base_state_root (ws_root w)))
      end
  end.
End exec.

Section block.
Context {DB : Type} `{!Rocks DB} `{!Codec TrieNode} `{!Codec Account}.
Context `{!Codec (list Transaction)} `{!Codec (list TransactionReceipt)} (blake3 : bytes → Hash).

Record BlockExecutionOutput := {
  eo_txs : list Transaction;
  eo_receipts : list TransactionReceipt;
  eo_state_root : Hash;
  eo_transactions_root : Hash;
  eo_receipts_root : Hash;
  eo_gas_used : N;
}.

Definition hash_list {A} `{!Codec (list A)} (items : list A) : result NodeError Hash :=
  match items with
  | [] => Ok Hash_zero
  | _ => bytes ← map_err NSerialization (serialize items); Ok (hash_bytes blake3 bytes)
  end.

Definition block_ctx (parent : Block) (commit : CommitRec) (proposer : Address) : BlockContext := {|
  bc_height := index commit;
  bc_timestamp := N.max (timestamp_ms commit / 1000) (wrapping_add64 (timestamp (header parent)) 1);
  bc_msg_sender := proposer;
  bc_msg_value := 0;
  bc_tx_origin := proposer;
  bc_contract := proposer;
  bc_epoch := hdr_epoch (header parent);
  bc_active_features := ∅;
|}.

(** The scheduler of Flux.v, as a function of the base state; [Err] is a
    failing start of the engine.  Which of its outputs a run returns is the
    scheduler's business: the theorems hold for all of them. *)
Definition Scheduler : Type :=
  (StateKey → StateValue) → list Transaction → BlockContext → result string BlockOutput.

Definition execute_committed_block (execute_block_parallel : Scheduler) (txs : list Transaction) (parent : Block)
    (commit : CommitRec) (proposer : Address) (db : DB) : option (DB * result NodeError BlockExecutionOutput) :=
  let parent_state_root := state_root (header parent) in
  let base := committed_value blake3 (WorldStateView_new db parent_state_root) in
  match (if bool_decide (txs = []) then Ok {| receipts_out := []; writes_out := ∅ |}
         else map_err (λ e, NConfig (EngineInitFailed e)) (execute_block_parallel base txs (block_ctx parent commit proposer))) with
  | Err e => Some (db, Err e)
  | Ok output =>
      match apply_writes blake3 db parent_state_root (writes_out output) with
      | None => None
      | Some (db', Err e) => Some (db', Err e)
      | Some (db', Ok new_state_root) =>
          Some (db',
            transactions_root ← hash_list txs;
            receipts_root ← hash_list (receipts_out output);
            Ok {| eo_txs := txs; eo_receipts := receipts_out output; eo_state_root := new_state_root;
                  eo_transactions_root := transactions_root; eo_receipts_root := receipts_root;
                  eo_gas_used := receipts_gas (receipts_out output) |})
      end
  end.

Definition collect_committed_hashes (txs : list Transaction) : list Hash := tx_hash <$> txs.
End block.

Definition mempool_post_commit (pool : Mempool) (committed_hashes : list Hash) (now : N) : Mempool :=
  on_new_block (foldl (λ pool h, (Mempool_remove pool h).1) pool committed_hashes) now.
