(* ===== verification/NodeExecSpec.v ===== *)
(** * Applying a block's writes refines the update of the committed state

    The world state as Flux reads it is a map from state keys to values.  A
    successful [apply_writes] turns it into the old map with the block's writes
    over it, keeps the state well formed, and puts every storage slot under the
    state root; at the old root, accounts read as before and storage does not. *)
From stdpp Require Import strings.
From S2P Require Import Prelude CoreTypes DagBlock Fee Leader Db Trie TrieRoot Transaction WorldState VmState Flux Agent Host NodeExec.

Section spec.
Context {DB : Type} `{!Rocks DB, !RocksLaws DB} `{!Codec TrieNode, !CodecLaws TrieNode}.
Context `{!Codec Account, !CodecLaws Account} (blake3 : bytes → Hash).
Implicit Types (s : DB) (w : WorldState DB) (A : gmap Address Account) (g : NibblePath → option bytes).

(** ** Runs in which no two contents share a digest *)

Definition node_key (b : bytes) : bytes := Hash_as_bytes (blake3 b).
Definition same_key (b1 b2 : bytes) : bool := bool_decide (node_key b1 = node_key b2).

(** No content of the batch has the digest of another one of the batch or of the store. *)
Definition nodes_clean s (bs : list bytes) : bool :=
  forallb (λ b1,
    forallb (λ b2, bool_decide (b1 = b2) || negb (same_key b1 b2)) bs &&
    match get_cf s CF_TRIE_NODES (node_key b1) with
    | Ok (Some b2) => bool_decide (b1 = b2) || negb (same_key b1 b2)
    | _ => true
    end) bs.

(** The insertion writes such a batch, and its root is not the hash that stands for the empty trie. *)
Definition insert_clean s (root : option Hash) (key value : bytes) : bool :=
  match insert_recursive blake3 (path_fuel (NibblePath_from_bytes key)) s new_batch root (NibblePath_from_bytes key) value with
  | Some (Ok (batch, h)) => nodes_clean s (node_puts batch) && negb (h =? Hash_zero)
  | _ => true
  end.

Definition put_clean w (a : Address) (x : Account) : bool :=
  match serialize x with Ok b => insert_clean (db w) (ws_root w) (Address_as_bytes a) b | Err _ => true end.

Definition write_clean w (a : Address) (f : Account → Account) : bool :=
  match get_account w a with Some (Ok o) => put_clean w a (f (default Account_default o)) | _ => true end.

Definition one_write_clean w (key : StateKey) (value : StateValue) : bool :=
  match key, value with
  | KBalance a, VBalance amount => write_clean w a (set_acc_balance amount)
  | KNonce a, VNonce n => write_clean w a (set_nonce n)
  | KCode a, VCode (Some code) =>
      let h := hash_bytes blake3 code in
      negb (h =? Hash_zero) &&
      match get_code w h with Ok (Some old) => bool_decide (old = code) | _ => true end &&
      match put_code w h code with Ok w1 => write_clean w1 a (set_code_hash h) | Err _ => true end
  | KCode a, VCode None => write_clean w a (set_code_hash Hash_zero)
  | _, _ => true
  end.

Fixpoint phase1_clean (st : WorldState DB * gmap Address (list (Hash * option bytes))) (ws : list (StateKey * StateValue)) : bool :=
  match ws with
  | [] => true
  | kv :: ws =>
      one_write_clean st.1 kv.1 kv.2 &&
      match phase1_step blake3 st kv with Some (st', Ok ()) => phase1_clean st' ws | _ => true end
  end.

Fixpoint slots_clean s (root : option Hash) (slots : list (Hash * option bytes)) : bool :=
  match slots with
  | [] => true
  | (h, v) :: slots =>
      insert_clean s root (Hash_as_bytes h) (default [] v) &&
      match Trie_insert blake3 s root (Hash_as_bytes h) (default [] v) with
      | Some (Ok (s', root')) => slots_clean s' (Some root') slots
      | _ => true
      end
  end.

(** The absent root for the zero hash. *)
Definition root_opt (h : Hash) : option Hash := if h =? Hash_zero then None else Some h.

Definition phase2_step_clean w (contract : Address) (slots : list (Hash * option bytes)) : bool :=
  match get_account w contract with
  | Some (Ok o) =>
      let account := default Account_default o in
      slots_clean (db w) (root_opt (storage_root account)) slots &&
      match insert_slots blake3 (db w) (root_opt (storage_root account)) slots with
      | Some (db', Ok root') =>
          (default Hash_zero root' =? storage_root account) ||
          put_clean (with_db w db') contract (set_storage_root (default Hash_zero root') account)
      | _ => true
      end
  | _ => true
  end.

Fixpoint phase2_clean w (changes : list (Address * list (Hash * option bytes))) : bool :=
  match changes with
  | [] => true
  | (c, slots) :: changes =>
      phase2_step_clean w c slots &&
      match phase2_step blake3 w c slots with Some (w', Ok ()) => phase2_clean w' changes | _ => true end
  end.

(** The hashes that a run of [apply_writes] meets do not collide. *)
Definition apply_clean s (root : Hash) (ws : gmap StateKey StateValue) : bool :=
  phase1_clean (WorldStateView_new s root, ∅) (bmap_iter ws) &&
  match phase1 blake3 (WorldStateView_new s root, ∅) (bmap_iter ws) with
  | Some (w, changes, Ok ()) => phase2_clean w (bmap_iter changes)
  | _ => true
  end.

(** ** The trie under clean insertions *)

Lemma nodes_clean_spec s bs : nodes_clean s bs = true → ¬ clash blake3 s bs.
Proof.
  unfold nodes_clean. intros Hc (b1 & b2 & Hne & Hk & H1 & H2).
  pose proof (proj1 (forallb_forall _ _) Hc b1 (proj1 (list_elem_of_In _ _) H1)) as [Hbs Hs]%andb_true_iff.
  assert (bool_decide (b1 = b2) || negb (same_key b1 b2) = false) as Hf.
  { rewrite bool_decide_eq_false_2 by done. unfold same_key. by rewrite bool_decide_eq_true_2. }
  destruct H2 as [H2|H2].
  - pose proof (proj1 (forallb_forall _ _) Hbs b2 (proj1 (list_elem_of_In _ _) H2)) as Hb. cbn beta in Hb. congruence.
  - unfold node_key in Hs. rewrite Hk, H2 in Hs. congruence.
Qed.

(** The column families other than the trie's read the same. *)
Definition same_data s s' : Prop := ∀ cf k, cf ≠ CF_TRIE_NODES → Db_get s' cf k = Db_get s cf k.

Lemma Trie_insert_clean s root g key v :
  stored_root blake3 s root g → bytes_ok key → insert_clean s root key v = true →
  ∃ r, Trie_insert blake3 s root key v = Some r ∧
    match r with
    | Ok (s', h) => h ≠ Hash_zero ∧ stored_root blake3 s' (Some h) (upd g (NibblePath_from_bytes key) v) ∧
        extends blake3 s s' ∧ same_data s s'
    | Err e => write_error e
    end.
Proof.
  intros Hst Hk Hc. destruct (Trie_insert_post blake3 s root g key v) as (r & Hr & Hpost); [done..|].
  exists r. split; [done|]. destruct r as [[s' h]|]; [|done].
  destruct Hpost as (batch & Hi & Hw & Hpost). unfold insert_clean in Hc. rewrite Hi in Hc.
  apply andb_true_iff in Hc as [Hc%nodes_clean_spec Hh%negb_true_iff%N.eqb_neq].
  destruct Hpost as [?|[Hst' Hx]]; [done|]. split_and!; [done..|].
  destruct (insert_root blake3 s root g new_batch (NibblePath_from_bytes key) v) as (r & Hr' & Hp & _);
    [done|by apply from_bytes_ok|]. rewrite Hi in Hr'. injection Hr' as <-.
  destruct Hp as (nodes & -> & _). intros cf k Hcf. apply (write_batch_other _ _ _ _ _ Hw).
  cbn [new_batch app]. rewrite <-list_fmap_compose. intros (b & Hb & _)%list_elem_of_fmap. cbn in Hb. congruence.
Qed.

(** ** Well-formed world states *)

Notation changes := (list (Hash * option bytes)) (only parsing).

Definition slot_path (slot : Hash) : NibblePath := NibblePath_from_bytes (Hash_as_bytes slot).
Definition is_hash (h : Hash) : Prop := h < 256 ^ 32.

(** The effect of one change, and of several in order, on a slot. *)
Definition after (slot : Hash) (o : option bytes) (p : Hash * option bytes) : option bytes :=
  if decide (p.1 = slot) then p.2 else o.

(** How the storage trie shows a slot: a deleted slot may be a leaf with an empty value. *)
Definition slot_rel (t o : option bytes) : Prop :=
  match o with Some v => t = Some v | None => t = None ∨ t = Some [] end.

(** The storage trie under [root] shows the slots of [a], except for changes not yet put into it. *)
Definition slots_ok w (a : Address) (root : option Hash) (pend : changes) : Prop :=
  ∃ g, stored_root blake3 (db w) root g ∧
    ∀ slot, is_hash slot → ∃ o, get_storage w a slot = Ok (foldl (after slot) o pend) ∧ slot_rel (g (slot_path slot)) o.

Definition code_ok w (h : Hash) : Prop := is_hash h ∧ (h ≠ Hash_zero → ∃ c, get_code w h = Ok (Some c)).

Record world_inv (pend : Address → changes) w A : Prop := {
  wi_holds : holds blake3 w A;
  wi_root : ws_root w ≠ Some Hash_zero;
  wi_code_reads h : is_hash h → ∃ o, get_code w h = Ok o;
  wi_code a x : is_address a → A !! a = Some x → code_ok w (code_hash x);
  wi_slots a : is_address a → slots_ok w a (root_opt (storage_root (default Account_default (A !! a)))) (pend a);
}.

(** Nothing pending. *)
Definition settled : Address → changes := λ _, [].

(** The column families a block's writes live in. *)
Definition state_cf (cf : Cf) : Prop := cf ∈ [CF_TRIE_NODES; CF_STORAGE; CF_CODE].

(** What every step keeps: stored nodes, the code of every hash that has one,
    and everything outside the state's column families. *)
Record grows w w' : Prop := {
  gr_nodes : extends blake3 (db w) (db w');
  gr_code h c : is_hash h → get_code w h = Ok (Some c) → get_code w' h = Ok (Some c);
  gr_rest cf k : ¬ state_cf cf → Db_get (db w') cf k = Db_get (db w) cf k;
}.

Lemma state_grows_refl w w' : db w' = db w → grows w w'.
Proof. intros E. unfold get_code, extends. split; unfold get_code, extends; by rewrite E. Qed.
Lemma state_grows_trans w1 w2 w3 : grows w1 w2 → grows w2 w3 → grows w1 w3.
Proof.
  intros [H1 H2 H3] [H4 H5 H6]. split; [intros h n Hn; by apply H4, H1|intros h c Hh Hc; by apply H5, H2|].
  intros cf k Hcf. by rewrite H6, H3.
Qed.

Lemma slots_ok_grow w w' a root pend :
  slots_ok w a root pend → extends blake3 (db w) (db w') → (∀ slot, get_storage w' a slot = get_storage w a slot) →
  slots_ok w' a root pend.
Proof.
  intros (g & Hst & Hg) Hx Hs. exists g. split.
  - destruct root; [by eapply stored_extends|done].
  - intros slot Hslot. rewrite Hs. by apply Hg.
Qed.

Lemma same_data_storage w w' a slot : same_data (db w) (db w') → get_storage w' a slot = get_storage w a slot.
Proof. intros H. by apply H. Qed.
Lemma same_data_code w w' h : same_data (db w) (db w') → get_code w' h = get_code w h.
Proof. intros H. by apply H. Qed.
Lemma same_data_grows w w' : same_data (db w) (db w') → extends blake3 (db w) (db w') → grows w w'.
Proof.
  intros H Hx. split; [done|intros h c _; by rewrite (same_data_code w w' h H)|].
  intros cf k Hcf. apply H. intros ->. apply Hcf. unfold state_cf. set_solver.
Qed.

(** Growing the node store only. *)
Lemma world_inv_nodes pend w w' A :
  world_inv pend w A → ws_root w' = ws_root w → extends blake3 (db w) (db w') → same_data (db w) (db w') →
  world_inv pend w' A.
Proof.
  intros [Hh Hr Hc Hk Hs] Er Hx Hd. split.
  - destruct Hh as (f & Hst & Hf). exists f. split; [|done]. rewrite Er. destruct (ws_root w); [by eapply stored_extends|done].
  - by rewrite Er.
  - intros h Hh'. rewrite (same_data_code w w' h Hd). by apply Hc.
  - intros a x Ha Hx'. unfold code_ok. rewrite (same_data_code w w' _ Hd). by eapply Hk.
  - intros a Ha. eapply slots_ok_grow; [by apply Hs|done|]. intros slot. by apply same_data_storage.
Qed.

(** Writing one account. *)
Lemma put_account_inv pend w A a x p :
  world_inv pend w A → is_address a → code_ok w (code_hash x) → slots_ok w a (root_opt (storage_root x)) p →
  put_clean w a x = true →
  ∃ r, put_account blake3 w a x = Some r ∧
    match r with
    | Ok w' => world_inv (λ a', if decide (a' = a) then p else pend a') w' (<[a := x]> A) ∧
        extends blake3 (db w) (db w') ∧ same_data (db w) (db w')
    | Err e => write_error e
    end.
Proof.
  intros I Ha Hc Hs Hclean. pose proof (wi_holds _ _ _ I) as (f & Hst & Hf). unfold put_account, put_clean in *.
  destruct (serialize x) as [b|e] eqn:Hb; cbn [map_err]; [|by eexists].
  destruct (Trie_insert_clean (db w) (ws_root w) f (Address_as_bytes a) b) as (r & -> & Hpost);
    [done|apply address_bytes_ok|done|]. destruct r as [[s' h]|e]; [|by eexists].
  destruct Hpost as (Hh & Hst' & Hx & Hd). cbn [and_then]. eexists; split; [done|]. cbn beta iota zeta.
  set (w' := {| db := s'; ws_root := Some h |}).
  assert (same_data (db w) (db w')) as Hd' by done. split; [|done]. split.
  - exists (upd f (account_path a) b). split; [done|]. intros a' Ha'. unfold upd.
    destruct (decide (a = a')) as [->|Hne].
    + rewrite lookup_insert_eq. exists b. by rewrite decide_True.
    + rewrite lookup_insert_ne by done. rewrite decide_False; [by apply Hf|]. intros ?%account_path_inj; congruence.
  - cbn. congruence.
  - intros h' Hh'. rewrite (same_data_code w w' h' Hd'). by apply (wi_code_reads _ _ _ I).
  - intros a' x' Ha' Hx'. unfold code_ok. rewrite (same_data_code w w' _ Hd').
    apply lookup_insert_Some in Hx' as [[<- <-]|[_ Hx']]; [exact Hc|by apply (wi_code _ _ _ I a' x')].
  - intros a' Ha'. eapply (slots_ok_grow w); [|done|intros; by apply same_data_storage].
    case_decide as E; [subst a'; by rewrite lookup_insert_eq|]. rewrite lookup_insert_ne by done. by apply (wi_slots _ _ _ I).
Qed.

(** ** The values of a well-formed state *)

Definition key_ok (k : StateKey) : Prop :=
  match k with KStorage a _ | KBalance a | KNonce a | KCode a => is_address a end.
Definition write_ok (k : StateKey) (v : StateValue) : Prop :=
  key_ok k ∧
  match k, v with
  | KStorage _ _, VStorage _ | KBalance _, VBalance _ | KNonce _, VNonce _ | KCode _, VCode _ => True
  | _, _ => False
  end.

Definition code_of w (x : Account) : option bytes :=
  if code_hash x =? Hash_zero then None else ok_flatten (get_code w (code_hash x)).

Definition account_value w A (k : StateKey) : StateValue :=
  match k with
  | KStorage c key => VStorage (view_read blake3 w c key)
  | KBalance a => VBalance (from_option balance 0 (A !! a))
  | KNonce a => VNonce (from_option acc_nonce 0 (A !! a))
  | KCode a => VCode (A !! a ≫= code_of w)
  end.

Lemma committed_account w A k : holds blake3 w A → key_ok k → committed_value blake3 w k = account_value w A k.
Proof.
  intros Hw Hk. destruct k as [c key|a|a|a]; cbn in *; [done|..]; f_equal;
    unfold view_balance, view_nonce, view_code, get_balance, get_nonce; rewrite (get_account_holds blake3 w A) by done; cbn; [done..|].
  by destruct (A !! a).
Qed.

(** What an account shows through [k] does not depend on other accounts, nor on
    anything but its balance, nonce and code. *)
Lemma account_value_insert w w' A a x k :
  (∀ slot c, get_storage w' c slot = get_storage w c slot) → (∀ h, get_code w' h = get_code w h) →
  account_value w' (<[a := x]> A) k =
    match k with
    | KBalance a' => if decide (a' = a) then VBalance (balance x) else account_value w A k
    | KNonce a' => if decide (a' = a) then VNonce (acc_nonce x) else account_value w A k
    | KCode a' => if decide (a' = a) then VCode (code_of w x) else account_value w A k
    | _ => account_value w A k
    end.
Proof.
  intros Hs Hc. assert (∀ y, code_of w' y = code_of w y) as Hcode by (intros y; unfold code_of; by rewrite Hc).
  destruct k as [c key|a'|a'|a']; cbn; [unfold view_read; by rewrite Hs|..];
    (case_decide as E; [subst; rewrite lookup_insert_eq; cbn; by rewrite ?Hcode|rewrite lookup_insert_ne by done]); [done..|].
  f_equal. destruct (A !! a'); cbn; [by rewrite Hcode|done].
Qed.

(** The values after writing [v] at [k], for the keys that [near] allows. *)
Definition written (near : StateKey → Prop) (k : StateKey) (v : StateValue) w w' : Prop :=
  ∀ k', key_ok k' → near k' → committed_value blake3 w' k' = if decide (k = k') then v else committed_value blake3 w k'.

Lemma write_account_inv pend w A a (f : Account → Account) k v near :
  world_inv pend w A → is_address a → let x := default Account_default (A !! a) in
  code_ok w (code_hash (f x)) → storage_root (f x) = storage_root x → write_clean w a f = true →
  (∀ k', key_ok k' →
    match k' with
    | KBalance a' => if decide (a' = a) then VBalance (balance (f x)) else account_value w A k'
    | KNonce a' => if decide (a' = a) then VNonce (acc_nonce (f x)) else account_value w A k'
    | KCode a' => if decide (a' = a) then VCode (code_of w (f x)) else account_value w A k'
    | _ => account_value w A k'
    end = if decide (k = k') then v else account_value w A k') →
  ∃ r, write_account blake3 w a f = Some r ∧
    match r with
    | (w', Ok ()) => (∃ A', world_inv pend w' A') ∧ grows w w' ∧ written near k v w w'
    | (w', Err e) => write_error e
    end.
Proof.
  intros I Ha x Hc Hr Hclean Hv. unfold write_account, write_clean in *.
  rewrite (get_account_holds blake3 w A) in * by (done || apply I). cbn in *. fold x in Hclean |- *.
  destruct (put_account_inv pend w A a (f x) (pend a)) as (r & Hput & Hpost); [done..| |done|].
  { rewrite Hr. by apply (wi_slots _ _ _ I). }
  rewrite Hput. destruct r as [w'|e]; [|by eexists]. destruct Hpost as (I' & Hx & Hd). eexists; split; [done|]. cbn beta iota zeta.
  split_and!.
  - exists (<[a := f x]> A). destruct I'. split; try done. intros a' Ha'. specialize (wi_slots0 a' Ha').
    destruct (decide (a' = a)) as [->|]; done.
  - by apply same_data_grows.
  - intros k' Hk' _. rewrite (committed_account w' (<[a := f x]> A)) by (done || apply I').
    rewrite (committed_account w A) by (done || apply I). rewrite (account_value_insert w w'), Hv; [done..| |].
    + intros. by apply same_data_storage.
    + intros. by apply same_data_code.
Qed.

Lemma data_extends s s' : (∀ k, Db_get s' CF_TRIE_NODES k = Db_get s CF_TRIE_NODES k) → extends blake3 s s'.
Proof. intros H h n (b & Hb & Hh & Hg). exists b. by rewrite H. Qed.

Lemma put_code_inv pend w A code w1 :
  world_inv pend w A → is_hash (blake3 code) → blake3 code ≠ Hash_zero →
  (∀ old, get_code w (blake3 code) = Ok (Some old) → old = code) → put_code w (blake3 code) code = Ok w1 →
  world_inv pend w1 A ∧ grows w w1 ∧ get_code w1 (blake3 code) = Ok (Some code) ∧
  ∀ k, key_ok k → committed_value blake3 w1 k = committed_value blake3 w k.
Proof.
  intros I Hh Hz Hold Hput. unfold put_code in Hput. apply bind_Ok in Hput as (o & Hg & Hput).
  destruct o as [old|].
  { injection Hput as <-. rewrite (Hold old) in Hg by done. split_and!; [done|by apply state_grows_refl|done..]. }
  destruct (Db_put _ _ _ _) as [d|] eqn:E; cbn in Hput; [|done]. injection Hput as <-.
  assert (∀ cf k, cf ≠ CF_CODE → Db_get d cf k = Db_get (db w) cf k) as Hd.
  { intros cf k Hcf. rewrite (Db_put_get _ _ _ _ _ _ _ E), decide_False by naive_solver. done. }
  assert (∀ h, is_hash h → get_code (with_db w d) h = if decide (h = blake3 code) then Ok (Some code) else get_code w h) as Hc.
  { intros h Hh'. unfold get_code. cbn. rewrite (Db_put_get _ _ _ _ _ _ _ E). apply decide_ext.
    split; [intros [_ H%(be_bytes_inj 32)]; done|by intros ->]. }
  assert (grows w (with_db w d)) as Hgr.
  { split; [apply data_extends; intros k; by apply Hd| |].
    - intros h c Hh' Hgc. rewrite Hc by done. case_decide as Eh; [|done]. subst h. unfold get_code in Hgc. congruence.
    - intros cf k Hcf. apply Hd. intros ->. apply Hcf. unfold state_cf. set_solver. }
  assert (world_inv pend (with_db w d) A) as I'.
  { destruct I as [Hw Hr Hcr Hck Hs]. split; cbn.
    - apply holds_other_cf; [done|]. intros k. by apply Hd.
    - done.
    - intros h Hh'. rewrite Hc by done. case_decide; [by eexists|by apply Hcr].
    - intros a x Ha Hx. destruct (Hck a x Ha Hx) as [H1 H2]. split; [done|]. intros Hnz. destruct (H2 Hnz) as [c Hgc].
      exists c. by apply Hgr.
    - intros a Ha. eapply slots_ok_grow; [by apply Hs|apply Hgr|]. intros slot. by apply Hd. }
  split_and!; [done|done|by rewrite Hc, decide_True|].
  intros k Hk. rewrite (committed_account _ A), (committed_account w A) by (done || apply I || apply I').
  destruct k as [c key|a|a|a]; cbn in *; [|done..|].
  - unfold view_read, get_storage. cbn. by rewrite Hd.
  - f_equal. destruct (A !! a) as [x|] eqn:Ex; cbn; [|done]. unfold code_of. destruct (N.eqb_spec (code_hash x) Hash_zero); [done|].
    destruct (wi_code _ _ _ I a x Hk Ex) as [Hhx Hx]. destruct (Hx n) as [c Hgc].
    by rewrite Hgc, (gr_code _ _ Hgr _ c).
Qed.

(** The keys whose slot is not the slot of another key of the same contract written by [k]. *)
Definition apart (k k' : StateKey) : Prop :=
  match k, k' with
  | KStorage c key, KStorage c' key' => c = c' → blake3 key = blake3 key' → key = key'
  | _, _ => True
  end.

Lemma slot_write_inv pend w A c key val w' :
  world_inv pend w A → is_address c → (∀ b, is_hash (blake3 b)) → ws_root w' = ws_root w →
  (∀ cf k, Db_get (db w') cf k = if decide (CF_STORAGE = cf ∧ storage_key c (blake3 key) = k) then Ok val else Db_get (db w) cf k) →
  world_inv (λ a, if decide (a = c) then pend c ++ [(blake3 key, val)] else pend a) w' A ∧ grows w w' ∧
  written (apart (KStorage c key)) (KStorage c key) (VStorage val) w w'.
Proof.
  intros I Hc Hb3 Hr Hd. assert (∀ cf k, cf ≠ CF_STORAGE → Db_get (db w') cf k = Db_get (db w) cf k) as Hd'.
  { intros cf k Hcf. rewrite Hd, decide_False by naive_solver. done. }
  assert (∀ a slot, is_address a → is_hash slot →
    get_storage w' a slot = if decide (a = c ∧ slot = blake3 key) then Ok val else get_storage w a slot) as Hget.
  { intros a slot Ha Hs. unfold get_storage. rewrite Hd. apply decide_ext. split; [|naive_solver].
    intros [_ H]. apply storage_key_inj in H as [-> ->]; try done. apply Hb3. }
  assert (extends blake3 (db w) (db w')) as Hx by (apply data_extends; intros; by apply Hd').
  assert (∀ h, get_code w' h = get_code w h) as Hcode by (intros; by apply Hd').
  assert (grows w w') as Hgr.
  { split; [done|intros h cd _; by rewrite Hcode|]. intros cf k Hcf. apply Hd'. intros ->. apply Hcf. unfold state_cf. set_solver. }
  assert (holds blake3 w' A) as Hh.
  { destruct (wi_holds _ _ _ I) as (f & Hst & Hf). exists f. split; [|done]. rewrite Hr. destruct (ws_root w); [by eapply stored_extends|done]. }
  split_and!; [|done|].
  - destruct I as [_ Hroot Hcr Hck Hs]. split; [done|by rewrite Hr| | |].
    + intros h Hh'. rewrite Hcode. by apply Hcr.
    + intros a x Ha Hx'. unfold code_ok. rewrite Hcode. by eapply Hck.
    + intros a Ha. destruct (Hs a Ha) as (g & Hst & Hg). exists g. split; [destruct (root_opt _); [by eapply stored_extends|done]|].
      intros slot Hslot. destruct (Hg slot Hslot) as (o & Ho & Hrel). exists o. split; [|done].
      rewrite Hget by done. case_decide as E.
      * destruct E as [-> ->]. rewrite decide_True by done. rewrite foldl_app. cbn. unfold after. cbn. by rewrite decide_True.
      * rewrite Ho. case_decide as E'; [|done]. subst a. rewrite foldl_app. cbn. unfold after at 2. cbn.
        rewrite decide_False; [done|]. intros E''. naive_solver.
  - intros k' Hk' Hn. rewrite (committed_account w' A), (committed_account w A) by (done || apply I).
    destruct k' as [c' key'|a|a|a]; cbn in *; [|rewrite decide_False by done; done..|].
    + unfold view_read, hash_bytes. rewrite Hget by done. case_decide as E.
      * destruct E as [-> E]. rewrite decide_True; [done|]. f_equal. by apply Hn.
      * rewrite decide_False; [done|]. intros [= -> ->]. naive_solver.
    + rewrite decide_False by done. f_equal. destruct (A !! a) as [x|]; cbn; [|done]. unfold code_of. by rewrite Hcode.
Qed.

(** ** The first loop *)

Definition io_error (e : StorageError) : Prop := write_error e ∨ ∃ m, e = Database m.
Definition pending (ch : gmap Address changes) (a : Address) : changes := default [] (ch !! a).

Lemma world_inv_ext p p' w A : (∀ a, p a = p' a) → world_inv p w A → world_inv p' w A.
Proof. intros H []. split; try done. intros a Ha. rewrite <-H. by apply wi_slots0. Qed.

Lemma Db_put_io s cf k v e : Db_put s cf k v = Err e → io_error e.
Proof.
  unfold Db_put, resolve_cf. destruct (cf_handle s cf); cbn; [|intros [= <-]; left; cbn; done].
  destruct (put_cf s cf k v); cbn; [done|]. intros [= <-]. right. by eexists.
Qed.
Lemma Db_delete_io s cf k e : Db_delete s cf k = Err e → io_error e.
Proof.
  unfold Db_delete, resolve_cf. destruct (cf_handle s cf); cbn; [|intros [= <-]; left; cbn; done].
  destruct (delete_cf s cf k); cbn; [done|]. intros [= <-]. right. by eexists.
Qed.
Lemma put_code_io w h code e : (∃ o, get_code w h = Ok o) → put_code w h code = Err e → io_error e.
Proof.
  intros [o Ho] Hp. unfold put_code in Hp. unfold get_code in Ho. rewrite Ho in Hp. cbn in Hp. destruct o; [done|].
  destruct (Db_put _ _ _ _) eqn:E; cbn in Hp; [done|]. injection Hp as <-. by eapply Db_put_io.
Qed.

Ltac by_account := match goal with |- context [?A !! ?y] => destruct (A !! y); done end.

(** What a step over the write of [v] at [k] leaves. *)
Definition step_post w (k : StateKey) (v : StateValue) (r : WorldState DB * gmap Address changes * result StorageError ()) : Prop :=
  match r with
  | (w', ch', Ok ()) => (∃ A', world_inv (pending ch') w' A') ∧ grows w w' ∧ written (apart k) k v w w'
  | (_, _, Err e) => io_error e
  end.

Lemma account_step_inv ch w A a f k v :
  world_inv (pending ch) w A → is_address a → let x := default Account_default (A !! a) in
  code_ok w (code_hash (f x)) → storage_root (f x) = storage_root x → write_clean w a f = true →
  (∀ k', key_ok k' →
    match k' with
    | KBalance a' => if decide (a' = a) then VBalance (balance (f x)) else account_value w A k'
    | KNonce a' => if decide (a' = a) then VNonce (acc_nonce (f x)) else account_value w A k'
    | KCode a' => if decide (a' = a) then VCode (code_of w (f x)) else account_value w A k'
    | _ => account_value w A k'
    end = if decide (k = k') then v else account_value w A k') →
  ∃ r, match write_account blake3 w a f with None => None | Some (w', r) => Some (w', ch, r) end = Some r ∧ step_post w k v r.
Proof.
  intros I Ha x Hc Hr Hclean Hv. destruct (write_account_inv (pending ch) w A a f k v (apart k)) as ([w' r] & -> & Hpost); [done..|].
  eexists; split; [done|]. destruct r as [[]|e]; [exact Hpost|]. by left.
Qed.

Lemma account_code_ok ch w A a : world_inv (pending ch) w A → is_address a → code_ok w (code_hash (default Account_default (A !! a))).
Proof.
  intros I Ha. destruct (A !! a) as [x|] eqn:Ex; [by eapply (wi_code _ _ _ I)|]. split; [by vm_compute|done].
Qed.

Lemma phase1_step_inv ch w A k v :
  world_inv (pending ch) w A → (∀ b, is_hash (blake3 b)) → write_ok k v → one_write_clean w k v = true →
  ∃ r, phase1_step blake3 (w, ch) (k, v) = Some r ∧ step_post w k v r.
Proof.
  intros I Hb3 [Hk Hkv] Hclean. destruct k as [c key|a|a|a], v as [val|amt|n|code]; try done; cbn in Hk, Hclean |- *.
  - assert (∀ w', ws_root w' = ws_root w →
      (∀ cf k, Db_get (db w') cf k = if decide (CF_STORAGE = cf ∧ storage_key c (blake3 key) = k) then Ok val else Db_get (db w) cf k) →
      step_post w (KStorage c key) (VStorage val) (w', <[c := default [] (ch !! c) ++ [(hash_bytes blake3 key, val)]]> ch, Ok ())) as Hstep.
    { intros w' Hr Hd. destruct (slot_write_inv (pending ch) w A c key val w') as (I' & ? & ?); [done..|]. split_and!; [|done..].
      exists A. eapply world_inv_ext, I'. intros a. unfold pending at 3. case_decide as E; [subst; by rewrite lookup_insert_eq|].
      by rewrite lookup_insert_ne. }
    destruct val as [b|]; [unfold put_storage|unfold delete_storage];
      [destruct (Db_put _ _ _ _) as [d|e] eqn:E|destruct (Db_delete _ _ _) as [d|e] eqn:E]; cbn;
      (eexists; split; [done|]); [apply Hstep; [done|]|by eapply Db_put_io|apply Hstep; [done|]|by eapply Db_delete_io].
    + intros cf k. cbn. apply (Db_put_get _ _ _ _ _ _ _ E).
    + intros cf k. cbn. apply (Db_delete_get _ _ _ _ _ _ E).
  - eapply account_step_inv; [exact I|exact Hk|by apply (account_code_ok ch)|done|exact Hclean|].
    intros [c key|a'|a'|a'] Hk'; cbn; [done| | |]; repeat case_decide; simplify_eq; try done; by_account.
  - eapply account_step_inv; [exact I|exact Hk|by apply (account_code_ok ch)|done|exact Hclean|].
    intros [c key|a'|a'|a'] Hk'; cbn; [done| | |]; repeat case_decide; simplify_eq; try done; by_account.
  - destruct code as [code|].
    + apply andb_true_iff in Hclean as [[Hz%negb_true_iff%N.eqb_neq Hold]%andb_true_iff Hw]. unfold hash_bytes in *.
      destruct (put_code w (blake3 code) code) as [w1|e] eqn:Hp.
      2: { eexists; split; [done|]. eapply put_code_io; [by apply (wi_code_reads _ _ _ I)|done]. }
      destruct (put_code_inv (pending ch) w A code w1) as (I1 & Hg1 & Hcode & Hv1); [done..| |done|].
      { intros old Ho. rewrite Ho in Hold. by apply bool_decide_eq_true in Hold. }
      edestruct (account_step_inv ch w1 A a (set_code_hash (blake3 code)) (KCode a) (VCode (Some code))) as (r & -> & Hpost);
        [exact I1|exact Hk|split; [apply Hb3|by eexists]|done|exact Hw| |].
      { intros [c key|a'|a'|a'] Hk'; cbn; [done| | |]; repeat case_decide; simplify_eq; try done; try by_account.
        unfold code_of. cbn. rewrite (proj2 (N.eqb_neq _ _) Hz), Hcode. done. }
      exists r. split; [done|]. destruct r as [[w' ch'] [[]|e]]; [|done]. destruct Hpost as (HI & Hg & Hwr). split_and!; [done|by eapply state_grows_trans|].
      intros k' Hk' Hap. rewrite Hwr by done. by rewrite Hv1.
    + eapply account_step_inv; [exact I|exact Hk|split; [by vm_compute|done]|done|exact Hclean|].
      intros [c key|a'|a'|a'] Hk'; cbn; [done| | |]; repeat case_decide; simplify_eq; try done; by_account.
Qed.

Definition overwrite (k' : StateKey) (x : StateValue) (kv : StateKey * StateValue) : StateValue :=
  if decide (kv.1 = k') then kv.2 else x.

Lemma phase1_inv ws : ∀ ch w A,
  world_inv (pending ch) w A → (∀ b, is_hash (blake3 b)) → Forall (λ kv, write_ok kv.1 kv.2) ws →
  phase1_clean (w, ch) ws = true →
  ∃ r, phase1 blake3 (w, ch) ws = Some r ∧
    match r with
    | (w', ch', Ok ()) => (∃ A', world_inv (pending ch') w' A') ∧ grows w w' ∧
        ∀ k', key_ok k' → Forall (λ kv, apart kv.1 k') ws →
          committed_value blake3 w' k' = foldl (overwrite k') (committed_value blake3 w k') ws
    | (_, _, Err e) => io_error e
    end.
Proof.
  induction ws as [|[k v] ws IH]; intros ch w A I Hb3 Hws Hclean.
  { eexists; split; [done|]. cbn. split_and!; [by exists A|by apply state_grows_refl|done]. }
  apply Forall_cons in Hws as [Hw Hws]. cbn [phase1_clean fst snd] in Hclean. apply andb_true_iff in Hclean as [Hc Hclean].
  destruct (phase1_step_inv ch w A k v) as ([[w1 ch1] r] & Hstep & Hpost); [done..|]. cbn [phase1]. rewrite Hstep in *.
  destruct r as [[]|e]; [|by eexists]. destruct Hpost as ([A1 I1] & Hg & Hwr).
  destruct (IH ch1 w1 A1) as (r & Hr & Hp); [done..|]. exists r. split; [done|]. destruct r as [[w' ch'] [[]|e]]; [|done].
  destruct Hp as (HI & Hg' & Hv). split_and!; [done|by eapply state_grows_trans|].
  intros k' Hk' Hap. apply Forall_cons in Hap as [Ha Hap]. cbn [foldl]. rewrite Hv by done. f_equal. by apply Hwr.
Qed.

(** ** The second loop *)

Definition changes_ok (c : Address) (slots : changes) : Prop := is_address c ∧ Forall (λ p, is_hash p.1) slots.

Lemma phase1_changes ws : ∀ w ch w' ch' r,
  (∀ b, is_hash (blake3 b)) → Forall (λ kv, write_ok kv.1 kv.2) ws → map_Forall changes_ok ch →
  phase1 blake3 (w, ch) ws = Some (w', ch', r) → map_Forall changes_ok ch'.
Proof.
  induction ws as [|[k v] ws IH]; intros w ch w' ch' r Hb3 Hws Hch; cbn [phase1]; [by intros [= <- <- <-]|].
  apply Forall_cons in Hws as [[Hk Hkv] Hws].
  assert (∀ w1 ch1 r1, phase1_step blake3 (w, ch) (k, v) = Some (w1, ch1, r1) → map_Forall changes_ok ch1) as Hstep.
  { intros w1 ch1 r1. unfold phase1_step. destruct k as [c key|a|a|a], v as [val| | |]; try done; cbn [fst snd] in *;
      try (destruct (apply_one_write _ _ _ _) as [[? ?]|]; by intros [= <- <- <-]).
    destruct (match val with Some _ => _ | None => _ end) as [w2|e]; intros [= <- <- <-]; [|done].
    apply map_Forall_insert_2; [|done]. split; [done|]. apply Forall_app_2; [|by repeat constructor; apply Hb3].
    destruct (ch !! c) as [l|] eqn:E; [by apply Hch in E as [_ ?]|by constructor]. }
  destruct (phase1_step blake3 (w, ch) (k, v)) as [[[w1 ch1] [[]|e]]|] eqn:E; [|intros [= <- <- <-]; by eapply Hstep|done].
  apply IH; [done..|by eapply Hstep].
Qed.

Lemma slot_path_inj h h' : is_hash h → is_hash h' → slot_path h = slot_path h' → h = h'.
Proof. intros ? ? H%from_bytes_inj. by apply (be_bytes_inj 32). Qed.
Lemma hash_bytes_ok h : bytes_ok (Hash_as_bytes h).
Proof. unfold Hash_as_bytes, be_bytes, bytes_ok. apply Forall_reverse, le_bytes_ok. Qed.

Lemma insert_slots_inv slots : ∀ s root g,
  stored_root blake3 s root g → root ≠ Some Hash_zero → Forall (λ p, is_hash p.1) slots → slots_clean s root slots = true →
  ∃ r, insert_slots blake3 s root slots = Some r ∧
    match r with
    | (s', Ok root') => root' ≠ Some Hash_zero ∧ extends blake3 s s' ∧ same_data s s' ∧
        ∃ g', stored_root blake3 s' root' g' ∧
          ∀ slot o, is_hash slot → slot_rel (g (slot_path slot)) o → slot_rel (g' (slot_path slot)) (foldl (after slot) o slots)
    | (_, Err e) => write_error e
    end.
Proof.
  induction slots as [|[h v] slots IH]; intros s root g Hst Hr Hsl Hclean.
  { eexists; split; [done|]. cbn. split_and!; [done|by intros ? ?|done|]. by exists g. }
  apply Forall_cons in Hsl as [Hh Hsl]. cbn in Hh. cbn [slots_clean insert_slots] in *. apply andb_true_iff in Hclean as [Hc Hclean].
  destruct (Trie_insert_clean s root g (Hash_as_bytes h) (default [] v)) as (r & Hi & Hpost); [done|apply hash_bytes_ok|done|].
  rewrite Hi in *. destruct r as [[s1 h1]|e]; [|by eexists]. destruct Hpost as (Hnz & Hst1 & Hx1 & Hd1).
  destruct (IH s1 (Some h1) (upd g (slot_path h) (default [] v))) as (r & Hr1 & Hp); [done|congruence|done..|].
  exists r. split; [done|]. destruct r as [s' [root'|e]]; [|done]. destruct Hp as (Hnz' & Hx & Hd & g' & Hst' & Hg).
  split_and!; [done|intros ? ? ?; by apply Hx, Hx1|intros cf k Hcf; by rewrite Hd, Hd1|]. exists g'. split; [done|].
  intros slot o Hslot Hrel. cbn [foldl]. apply Hg; [done|]. unfold upd, after. cbn.
  destruct (decide (h = slot)) as [->|Hne].
  - rewrite decide_True by done. destruct v; cbn; [done|by right].
  - rewrite decide_False; [done|]. intros E%slot_path_inj; [congruence|done..].
Qed.

Lemma root_opt_default root : root ≠ Some Hash_zero → root_opt (default Hash_zero root) = root.
Proof. intros H. destruct root as [h|]; cbn; [|done]. unfold root_opt. destruct (N.eqb_spec h Hash_zero); congruence. Qed.
Lemma root_opt_nz h : root_opt h ≠ Some Hash_zero.
Proof. unfold root_opt. destruct (N.eqb_spec h Hash_zero); congruence. Qed.

Definition cleared (pend : Address → changes) (c : Address) : Address → changes := λ a, if decide (a = c) then [] else pend a.

Lemma phase2_step_inv pend w A c :
  world_inv pend w A → changes_ok c (pend c) → phase2_step_clean w c (pend c) = true →
  ∃ r, phase2_step blake3 w c (pend c) = Some r ∧
    match r with
    | (w', Ok ()) => (∃ A', world_inv (cleared pend c) w' A') ∧ grows w w' ∧
        ∀ k, key_ok k → committed_value blake3 w' k = committed_value blake3 w k
    | (_, Err e) => write_error e
    end.
Proof.
  intros I [Hc Hp] Hclean. unfold phase2_step, phase2_step_clean in *.
  rewrite (get_account_holds blake3 w A) in * by (done || apply I). set (x := default Account_default (A !! c)) in *. cbn zeta.
  fold (root_opt (storage_root x)) in *. apply andb_true_iff in Hclean as [Hsc Hpc].
  destruct (wi_slots _ _ _ I c Hc) as (g & Hst & Hg). fold x in Hst.
  destruct (insert_slots_inv (pend c) (db w) (root_opt (storage_root x)) g) as ([s' r] & Hi & Hpost); [done|apply root_opt_nz|done..|].
  rewrite Hi in *. destruct r as [root'|e]; [|by eexists]. destruct Hpost as (Hnz & Hx & Hd & g' & Hst' & Hg').
  set (w1 := with_db w s'). assert (world_inv pend w1 A) as I1 by (by eapply world_inv_nodes).
  assert (slots_ok w1 c root' []) as Hs1.
  { exists g'. split; [done|]. intros slot Hslot. destruct (Hg slot Hslot) as (o & Ho & Hrel).
    eexists. split; [|by apply Hg']. cbn. rewrite (same_data_storage w w1 c slot Hd). done. }
  assert (∀ k, key_ok k → committed_value blake3 w1 k = committed_value blake3 w k) as Hv1.
  { intros k Hk. rewrite (committed_account w1 A), (committed_account w A) by (done || apply I || apply I1).
    destruct k as [c' key|a|a|a]; cbn; [unfold view_read; by rewrite (same_data_storage w w1)|done..|].
    f_equal. destruct (A !! a); cbn; [|done]. unfold code_of. by rewrite (same_data_code w w1). }
  assert (grows w w1) as Hgr by (by apply same_data_grows).
  destruct (N.eqb_spec (default Hash_zero root') (storage_root x)) as [E|E].
  - eexists; split; [done|]. split_and!; [|done..]. exists A. destruct I1. split; try done. intros a Ha. unfold cleared.
    case_decide; [|by apply wi_slots0]. subst a. fold x. rewrite <-E, root_opt_default by done. done.
  - cbn [orb] in Hpc. destruct (put_account_inv pend w1 A c (set_storage_root (default Hash_zero root') x) []) as (r & Hput & Hp');
      [done..| | |done|].
    { cbn. destruct (A !! c) as [y|] eqn:Ey; [by eapply (wi_code _ _ _ I1)|split; [by vm_compute|done]]. }
    { cbn. by rewrite root_opt_default. }
    rewrite Hput. destruct r as [w'|e]; [|by eexists]. destruct Hp' as (I' & Hx' & Hd'). eexists; split; [done|]. cbn beta iota zeta.
    split_and!; [by eexists|eapply state_grows_trans; [done|by apply same_data_grows]|].
    intros k Hk. rewrite <-Hv1 by done. rewrite (committed_account w' _ _ (wi_holds _ _ _ I') Hk), (committed_account w1 A) by (done || apply I1).
    rewrite (account_value_insert w1 w').
    + destruct k as [c' key|a|a|a]; cbn; [done| | |]; repeat case_decide; simplify_eq; try done; by_account.
    + intros. by apply same_data_storage.
    + intros. by apply same_data_code.
Qed.

Lemma phase2_inv l : ∀ pend w A,
  world_inv pend w A → NoDup l.*1 → (∀ c slots, (c, slots) ∈ l → slots = pend c ∧ changes_ok c slots) →
  (∀ a, a ∉ l.*1 → pend a = []) → phase2_clean w l = true →
  ∃ r, phase2 blake3 w l = Some r ∧
    match r with
    | (w', Ok ()) => (∃ A', world_inv settled w' A') ∧ grows w w' ∧
        ∀ k, key_ok k → committed_value blake3 w' k = committed_value blake3 w k
    | (_, Err e) => write_error e
    end.
Proof.
  induction l as [|[c slots] l IH]; intros pend w A I Hnd Hl Hrest Hclean.
  { eexists; split; [done|]. split_and!; [|by apply state_grows_refl|done]. exists A. eapply world_inv_ext, I. intros a. apply Hrest. set_solver. }
  cbn [fmap list_fmap fst] in Hnd. apply NoDup_cons in Hnd as [Hn Hnd]. cbn [phase2 phase2_clean] in *.
  destruct (Hl c slots) as [-> Hok]; [set_solver|]. apply andb_true_iff in Hclean as [Hc Hclean].
  destruct (phase2_step_inv pend w A c) as ([w1 r] & Hs & Hpost); [done..|]. rewrite Hs in *.
  destruct r as [[]|e]; [|by eexists]. destruct Hpost as ([A1 I1] & Hg & Hv).
  destruct (IH (cleared pend c) w1 A1) as (r & Hr & Hp); [done|done| | |done|].
  - intros c' slots' Hin. destruct (Hl c' slots') as [-> ?]; [set_solver|]. split; [|done]. unfold cleared.
    rewrite decide_False; [done|]. intros ->. apply Hn. apply list_elem_of_fmap. by eexists (_, _).
  - intros a Ha. unfold cleared. case_decide; [done|]. apply Hrest. cbn. set_solver.
  - exists r. split; [done|]. destruct r as [w' [[]|e]]; [|done]. destruct Hp as (HI & Hg' & Hv').
    split_and!; [done|by eapply state_grows_trans|]. intros k Hk. rewrite Hv' by done. by apply Hv.
Qed.

(** ** [apply_writes] *)

Lemma foldl_overwrite k x l :
  NoDup l.*1 → foldl (overwrite k) x l = default x (snd <$> head (filter (λ kv, kv.1 = k) l)).
Proof.
  revert x. induction l as [|[k1 v1] l IH]; intros x Hnd; [done|]. cbn in Hnd. apply NoDup_cons in Hnd as [Hn Hnd].
  cbn [foldl]. rewrite IH by done. rewrite filter_cons. unfold overwrite at 1. cbn.
  destruct (decide (k1 = k)) as [->|]; [|done]. cbn.
  assert (filter (λ kv : StateKey * StateValue, kv.1 = k) l = []) as ->; [|done].
  apply elem_of_nil_inv. intros kv [E Hin]%list_elem_of_filter. apply Hn. apply list_elem_of_fmap. by exists kv.
Qed.

Lemma foldl_overwrite_map k x (ws : gmap StateKey StateValue) :
  foldl (overwrite k) x (bmap_iter ws) = default x (ws !! k).
Proof.
  assert (NoDup (bmap_iter ws).*1) as Hnd by (rewrite bmap_iter_keys; apply bmap_keys_NoDup).
  rewrite foldl_overwrite by done. destruct (filter _ _) as [|[k' v] l] eqn:E; cbn.
  - destruct (ws !! k) as [v|] eqn:Ek; [|done]. apply elem_of_bmap_iter in Ek.
    assert ((k, v) ∈ filter (λ kv, kv.1 = k) (bmap_iter ws)) as Hin by (by apply list_elem_of_filter). rewrite E in Hin. set_solver.
  - assert ((k', v) ∈ filter (λ kv, kv.1 = k) (bmap_iter ws)) as [Hk Hin]%list_elem_of_filter by (rewrite E; set_solver).
    cbn in Hk. subst k'. apply elem_of_bmap_iter in Hin. by rewrite Hin.
Qed.

Lemma view_of_root w base :
  ws_root w ≠ Some Hash_zero → (ws_root w = None → base = Hash_zero) → WorldStateView_new (db w) (default base (ws_root w)) = w.
Proof.
  intros Hr Hb. unfold WorldStateView_new. destruct w as [d [h|]]; cbn in *.
  - destruct (N.eqb_spec h Hash_zero); [congruence|done].
  - by rewrite Hb.
Qed.

(** Only an empty state has no root, and writing keeps a root. *)
Lemma view_root s root : ws_root (WorldStateView_new (DB := DB) s root) = root_opt root.
Proof. unfold WorldStateView_new, root_opt. by destruct (root =? Hash_zero). Qed.

Lemma write_account_root w a f w' r : write_account blake3 w a f = Some (w', r) → ws_root w ≠ None → ws_root w' ≠ None.
Proof.
  unfold write_account, put_account. destruct (get_account w a) as [[o|e]|]; [|intros [= <- <-]; done|done].
  destruct (map_err _ _) as [b|e]; [|intros [= <- <-]; done]. destruct (Trie_insert _ _ _ _ _) as [[[s h]|e]|]; cbn; [|intros [= <- <-]; done|done].
  intros [= <- <-]; done.
Qed.

Lemma phase1_root ws : ∀ w ch w' ch' r, phase1 blake3 (w, ch) ws = Some (w', ch', r) → ws_root w ≠ None → ws_root w' ≠ None.
Proof.
  induction ws as [|[k v] ws IH]; intros w ch w' ch' r; cbn [phase1]; [by intros [= <- <- <-]|]. intros H Hr.
  assert (∀ w1 ch1 r1, phase1_step blake3 (w, ch) (k, v) = Some (w1, ch1, r1) → ws_root w1 ≠ None) as Hs.
  { intros w1 ch1 r1. unfold phase1_step, apply_one_write.
    assert (∀ w0 a f, ws_root w0 = ws_root w → match write_account blake3 w0 a f with None => None | Some (w', r) => Some (w', ch, r) end
      = Some (w1, ch1, r1) → ws_root w1 ≠ None) as Hwa.
    { intros w0 a f Hw0. destruct (write_account blake3 w0 a f) as [[w2 r2]|] eqn:E; [|done]. intros [= <- <- <-].
      eapply write_account_root; [done|by rewrite Hw0]. }
    destruct k as [c key|a|a|a], v as [val|amt|n|code]; try (by intros [= <- <- <-]); try (by apply Hwa).
    - unfold put_storage, delete_storage. destruct val; [destruct (Db_put _ _ _ _)|destruct (Db_delete _ _ _)]; cbn; by intros [= <- <- <-].
    - destruct code as [code|]; [|by apply Hwa]. destruct (put_code w _ code) as [w0|e] eqn:E; [|by intros [= <- <- <-]].
      apply Hwa. unfold put_code in E. apply bind_Ok in E as ([o|] & _ & E); [by injection E as <-|].
      destruct (Db_put _ _ _ _); cbn in E; [by injection E as <-|done]. }
  destruct (phase1_step blake3 (w, ch) (k, v)) as [[[w1 ch1] [[]|e]]|] eqn:E; [|injection H as <- <- <-; by eapply Hs|done].
  eapply IH; [done|by eapply Hs].
Qed.

Lemma phase2_root l : ∀ w w' r, phase2 blake3 w l = Some (w', r) → ws_root w ≠ None → ws_root w' ≠ None.
Proof.
  induction l as [|[c slots] l IH]; intros w w' r; cbn [phase2]; [by intros [= <- <-]|]. intros H Hr.
  assert (∀ w1 r1, phase2_step blake3 w c slots = Some (w1, r1) → ws_root w1 ≠ None) as Hs.
  { intros w1 r1. unfold phase2_step. destruct (get_account w c) as [[o|e]|]; [|intros [= <- <-]; done|done].
    cbn zeta. destruct (insert_slots _ _ _ _) as [[d [root'|e]]|]; [|by intros [= <- <-]|done].
    destruct (_ =? _); [by intros [= <- <-]|]. unfold put_account. destruct (map_err _ _); [|by intros [= <- <-]].
    destruct (Trie_insert _ _ _ _ _) as [[[? ?]|?]|]; cbn; by intros [= <- <-]. }
  destruct (phase2_step blake3 w c slots) as [[w1 [[]|e]]|] eqn:E; [|injection H as <- <-; by eapply Hs|done].
  eapply IH; [done|by eapply Hs].
Qed.

(** A run of [apply_writes] on a well-formed state. *)
Lemma apply_writes_run s root ws A :
  (∀ b, is_hash (blake3 b)) → world_inv settled (WorldStateView_new s root) A → map_Forall write_ok ws → apply_clean s root ws = true →
  ∃ s' r, apply_writes blake3 s root ws = Some (s', r) ∧
    match r with
    | Ok root' => let w := WorldStateView_new s root in let w' := WorldStateView_new s' root' in
        (∃ A', world_inv settled w' A') ∧ grows w w' ∧
        ∀ k, key_ok k → (∀ k', is_Some (ws !! k') → apart k' k) →
          committed_value blake3 w' k = default (committed_value blake3 w k) (ws !! k)
    | Err e => ∃ e', e = NStorage e' ∧ io_error e'
    end.
Proof.
  intros Hb3 I Hws Hclean. unfold apply_writes. case_bool_decide as Hemp.
  { subst ws. eexists _, _; split; [done|]. split_and!; [by exists A|by apply state_grows_refl|]. intros k _ _. by rewrite lookup_empty. }
  set (w := WorldStateView_new s root) in *. apply andb_true_iff in Hclean as [Hc1 Hc2]. fold w in Hc1, Hc2.
  assert (Forall (λ kv, write_ok kv.1 kv.2) (bmap_iter ws)) as Hl.
  { apply Forall_forall. intros [k v] Hin%elem_of_bmap_iter. by apply (Hws k v). }
  destruct (phase1_inv (bmap_iter ws) ∅ w A) as (r1 & Hr1 & Hp1); [|done..|].
  { eapply world_inv_ext, I. intros a. unfold pending. by rewrite lookup_empty. }
  rewrite Hr1 in *. destruct r1 as [[w1 ch] [[]|e]]; [|by eexists _, _; split; [done|]; eexists].
  destruct Hp1 as ([A1 I1] & Hg1 & Hv1). assert (map_Forall changes_ok ch) as Hch.
  { eapply phase1_changes, Hr1; [done..|]. by intros ? ? ?%lookup_empty_Some. }
  destruct (phase2_inv (bmap_iter ch) (pending ch) w1 A1) as (r2 & Hr2 & Hp2); [done|..].
  { rewrite bmap_iter_keys. apply bmap_keys_NoDup. }
  { intros c slots Hin%elem_of_bmap_iter. split; [unfold pending; by rewrite Hin|by apply Hch]. }
  { intros a. rewrite bmap_iter_keys, elem_of_bmap_keys. unfold pending. destruct (ch !! a); [|done]. intros []. by eexists. }
  { done. }
  rewrite Hr2. destruct r2 as [w2 [[]|e]]; [|eexists _, _; split; [done|]; eexists; split; [done|by left]].
  destruct Hp2 as ([A2 I2] & Hg2 & Hv2). eexists _, _; split; [done|]. cbn beta iota zeta.
  rewrite view_of_root; [|apply I2|].
  - split_and!; [by exists A2|by eapply state_grows_trans|]. intros k Hk Hap. rewrite Hv2, Hv1, foldl_overwrite_map; [done..| |done].
    apply Forall_forall. intros [k' v] Hin%elem_of_bmap_iter. apply Hap. by eexists.
  - intros Hn. destruct (decide (root = Hash_zero)) as [->|Hne]; [done|]. exfalso. eapply phase2_root, Hn; [done|].
    eapply phase1_root; [done|]. unfold w. rewrite view_root. unfold root_opt. rewrite (proj2 (N.eqb_neq _ _)) by done. done.
Qed.

(** C7. Applying a block refines the update of the state map.  On a well-formed
    state (the account trie, every contract's storage trie and the code store
    agree with what Flux reads), for typed writes whose run meets no digest
    collision, [apply_writes] returns.  On success the state at the new root is
    well formed again, so each storage trie shows its contract's slots and the
    new root commits to them, and Flux reads at every key the block's write if
    there is one and the old value otherwise, whatever the order of writes and
    however many fields of an account or slots of a contract they touch.  An
    error is one of the database or the codec. *)
Theorem apply_writes_refines s root ws A :
  (∀ b, is_hash (blake3 b)) → world_inv settled (WorldStateView_new s root) A → map_Forall write_ok ws →
  apply_clean s root ws = true →
  ∃ s' r, apply_writes blake3 s root ws = Some (s', r) ∧
    match r with
    | Ok root' => (∃ A', world_inv settled (WorldStateView_new s' root') A') ∧
        ∀ k, key_ok k → (∀ k', is_Some (ws !! k') → apart k' k) →
          committed_value blake3 (WorldStateView_new s' root') k
            = default (committed_value blake3 (WorldStateView_new s root) k) (ws !! k)
    | Err e => ∃ e', e = NStorage e' ∧ io_error e'
    end.
Proof.
  intros Hb3 I Hws Hc. destruct (apply_writes_run s root ws A) as (s' & r & Hr & Hp); [done..|].
  exists s', r. split; [done|]. destruct r as [root'|e]; [|done]. destruct Hp as (HI & _ & Hv). by split.
Qed.

(** The state at the old root is not a snapshot.  After a successful
    [apply_writes], a view opened at the root the block started from still reads
    the old balances, nonces and code, but reads the new value of every storage
    slot the block wrote: slots live in a column family that no root selects.  A
    block that is executed and then not persisted leaves its storage behind. *)
Theorem old_root_reads_new_storage s root ws A s' root' k :
  (∀ b, is_hash (blake3 b)) → world_inv settled (WorldStateView_new s root) A → map_Forall write_ok ws →
  apply_clean s root ws = true → apply_writes blake3 s root ws = Some (s', Ok root') →
  key_ok k → (∀ k', is_Some (ws !! k') → apart k' k) →
  committed_value blake3 (WorldStateView_new s' root) k =
    match k with
    | KStorage _ _ => default (committed_value blake3 (WorldStateView_new s root) k) (ws !! k)
    | _ => committed_value blake3 (WorldStateView_new s root) k
    end.
Proof.
  intros Hb3 I Hws Hc Ha Hk Hap. destruct (apply_writes_run s root ws A) as (s2 & r & Hr & Hp); [done..|].
  rewrite Ha in Hr. injection Hr as <- <-. destruct Hp as (_ & [Hx Hcode _] & Hv). specialize (Hv k Hk Hap).
  assert (∀ r1 r2, db (WorldStateView_new s' r1) = db (WorldStateView_new s' r2)) as Hdb.
  { intros r1 r2. unfold WorldStateView_new. by destruct (r1 =? Hash_zero), (r2 =? Hash_zero). }
  destruct k as [c key|a|a|a].
  { rewrite <-Hv. cbn. unfold view_read, get_storage. by rewrite (Hdb root root'). }
  all: assert (holds blake3 (WorldStateView_new s' root) A) as Hh by (
    destruct (wi_holds _ _ _ I) as (f & Hst & Hf); exists f; split; [|done]; rewrite view_root in Hst |- *;
    destruct (root_opt root); [|done]; eapply stored_extends; [done|]; rewrite (Hdb root root'); exact Hx).
  all: rewrite (committed_account _ A), (committed_account _ A _ (wi_holds _ _ _ I)) by done; cbn; try done.
  f_equal. destruct (A !! a) as [x|] eqn:Ex; cbn; [|done]. unfold code_of. destruct (N.eqb_spec (code_hash x) Hash_zero) as [|Hnz]; [done|].
  destruct (wi_code _ _ _ I a x Hk Ex) as [Hhx Hcx]. destruct (Hcx Hnz) as [c Hgc]. rewrite Hgc.
  pose proof (Hcode _ c Hhx Hgc) as Hgc'. unfold get_code in *. by rewrite (Hdb root root'), Hgc'.
Qed.

(** ** What applying writes leaves alone, on any state *)

(** Only trie nodes are written. *)
Definition node_ops (ops : list BatchOp) : Prop := Forall (λ op, (op_key op).1 = CF_TRIE_NODES) ops.

Lemma store_node_ops s batch n batch' h : node_ops batch → store_node blake3 s batch n = Ok (batch', h) → node_ops batch'.
Proof.
  unfold store_node, batch_put. intros Hb (hash & _ & (enc & _ & (b & Hp & [= <- _])%bind_Ok)%bind_Ok)%bind_Ok.
  apply bind_Ok in Hp as (? & _ & [= <-]). apply Forall_app. split; [done|]. by constructor.
Qed.
Lemma diverging_ops s batch lp lv np nv c batch' h :
  node_ops batch → build_diverging_branch blake3 s batch lp lv np nv c = Ok (batch', h) → node_ops batch'.
Proof.
  intros Hb. unfold build_diverging_branch. intros ([b1 n1] & H1 & ([b2 n2] & H2 & H3)%bind_Ok)%bind_Ok.
  assert (node_ops b1) as Hb1.
  { destruct (lp !! c); [|by injection H1 as <- _]. apply bind_Ok in H1 as ([b' h'] & H1 & [= <- _]). by eapply store_node_ops. }
  assert (node_ops b2) as Hb2.
  { destruct (np !! c); [|by injection H2 as <- _]. apply bind_Ok in H2 as ([b' h'] & H2 & [= <- _]). by eapply store_node_ops. }
  by eapply store_node_ops.
Qed.
Lemma split_extension_ops s batch pre child path v c batch' h :
  node_ops batch → split_extension blake3 s batch pre child path v c = Ok (batch', h) → node_ops batch'.
Proof.
  intros Hb. unfold split_extension. intros ([b1 n1] & H1 & ([b2 n2] & H2 & H3)%bind_Ok)%bind_Ok.
  assert (node_ops b1) as Hb1.
  { case_decide; [|by injection H1 as <- _]. apply bind_Ok in H1 as ([b' h'] & H1 & [= <- _]). by eapply store_node_ops. }
  assert (node_ops b2) as Hb2.
  { destruct (path !! c); [|by injection H2 as <- _]. apply bind_Ok in H2 as ([b' h'] & H2 & [= <- _]). by eapply store_node_ops. }
  by eapply store_node_ops.
Qed.
(** With a prefix above the branch, if it is not empty. *)
Lemma prefixed_ops s (m : result StorageError (list BatchOp * Hash)) c f batch' h :
  (∀ b x, m = Ok (b, x) → node_ops b) →
  ('(b, x) ← m; if decide (0 < c)%nat then store_node blake3 s b (f x) else Ok (b, x)) = Ok (batch', h) → node_ops batch'.
Proof.
  intros Hm ([b x] & H1 & H2)%bind_Ok. apply Hm in H1. case_decide; [by eapply store_node_ops|by injection H2 as <- _].
Qed.
Lemma insert_at_leaf_ops s batch lp lv np nv batch' h :
  node_ops batch → insert_at_leaf blake3 s batch lp lv np nv = Ok (batch', h) → node_ops batch'.
Proof.
  intros Hb. unfold insert_at_leaf. case_decide; [by apply store_node_ops|]. apply prefixed_ops. intros b x. by apply diverging_ops.
Qed.
Lemma insert_recursive_ops fuel : ∀ s batch root path v batch' h,
  node_ops batch → insert_recursive blake3 fuel s batch root path v = Some (Ok (batch', h)) → node_ops batch'.
Proof.
  induction fuel as [|fuel IH]; intros s batch root path v batch' h Hb Hi; [done|]. cbn in Hi.
  destruct root as [r|]; [|injection Hi as Hi; by eapply store_node_ops].
  assert (∀ root' path' f, and_then (insert_recursive blake3 fuel s batch root' path' v) (λ '(b, x), Some (store_node blake3 s b (f x)))
    = Some (Ok (batch', h)) → node_ops batch') as Hrec.
  { intros root' path' f E. destruct (insert_recursive blake3 fuel s batch root' path' v) as [[[b x]|e]|] eqn:Hr; [|done..].
    cbn in E. injection E as E. eapply store_node_ops; [by eapply IH|done]. }
  destruct (load_node s r) as [[children bv|pre child|lp lv]|e]; [| | |done].
  - destruct path; [injection Hi as Hi; by eapply store_node_ops|by apply Hrec in Hi].
  - case_decide; [by apply Hrec in Hi|]. apply (inj Some) in Hi. eapply prefixed_ops; [|exact Hi]. intros b x. by apply split_extension_ops.
  - apply (inj Some) in Hi. by eapply insert_at_leaf_ops.
Qed.
Lemma Trie_insert_same_data s root key v s' h : Trie_insert blake3 s root key v = Some (Ok (s', h)) → same_data s s'.
Proof.
  unfold Trie_insert. destruct (insert_recursive _ _ _ _ _ _ _) as [[[b x]|e]|] eqn:Hi; [|done..]. cbn.
  intros [= (s2 & Hw & [= <- _])%bind_Ok] cf k Hcf. apply insert_recursive_ops in Hi; [|by constructor].
  apply (write_batch_other _ _ _ _ _ Hw). intros (op & E & Hin)%list_elem_of_fmap.
  apply (proj1 (Forall_forall _ _) Hi) in Hin. by rewrite <-E in Hin.
Qed.

Lemma db_view s root : db (WorldStateView_new s root) = s.
Proof. unfold WorldStateView_new. by destruct (root =? Hash_zero). Qed.
(** The rest of the database reads the same. *)
Definition rest_kept s s' : Prop := ∀ cf k, ¬ state_cf cf → Db_get s' cf k = Db_get s cf k.
#[local] Instance rest_kept_po : PreOrder rest_kept.
Proof. split; [by intros s cf k|]. intros s1 s2 s3 H1 H2 cf k Hcf. by rewrite H2, H1. Qed.
Lemma same_data_rest s s' : same_data s s' → rest_kept s s'.
Proof. intros H cf k Hcf. apply H. intros ->. apply Hcf. unfold state_cf. set_solver. Qed.
Lemma put_account_rest w a x w' : put_account blake3 w a x = Some (Ok w') → rest_kept (db w) (db w').
Proof.
  unfold put_account. destruct (serialize x) as [b|]; [|done]. cbn [map_err].
  destruct (Trie_insert _ _ _ _ _) as [[[s' h]|]|] eqn:Hi; [|done..]. cbn. intros [= <-]. by eapply same_data_rest, Trie_insert_same_data.
Qed.
Lemma write_account_rest w a f w' r : write_account blake3 w a f = Some (w', r) → rest_kept (db w) (db w').
Proof.
  unfold write_account. destruct (get_account w a) as [[o|e]|]; [|by intros [= <- _]|done].
  destruct (put_account _ _ _ _) as [[w2|e]|] eqn:Hp; [|by intros [= <- _]|done]. intros [= <- _]. by eapply put_account_rest.
Qed.
Lemma put_rest s cf k v s' : state_cf cf → Db_put s cf k v = Ok s' → rest_kept s s'.
Proof. intros Hs Hp cf' k' Hcf. rewrite (Db_put_get _ _ _ _ _ _ _ Hp). case_decide as E; [|done]. destruct E as [-> _]. done. Qed.
Lemma delete_rest s cf k s' : state_cf cf → Db_delete s cf k = Ok s' → rest_kept s s'.
Proof. intros Hs Hp cf' k' Hcf. rewrite (Db_delete_get _ _ _ _ _ _ Hp). case_decide as E; [|done]. destruct E as [-> _]. done. Qed.
Lemma apply_one_write_rest w k v w' r : apply_one_write blake3 w k v = Some (w', r) → rest_kept (db w) (db w').
Proof.
  destruct k, v as [|?|?|[c|]]; cbn; try (by intros [= <- _]); try apply write_account_rest.
  unfold put_code. destruct (Db_get _ _ _) as [[o|]|]; cbn; [apply write_account_rest| |by intros [= <- _]].
  destruct (Db_put _ _ _ _) as [s1|] eqn:Hp; cbn; [|by intros [= <- _]]. intros Hw%write_account_rest. cbn in Hw.
  etrans; [|exact Hw]. eapply put_rest, Hp. unfold state_cf. set_solver.
Qed.
Lemma phase1_rest ws : ∀ w ch w' ch' r, phase1 blake3 (w, ch) ws = Some (w', ch', r) → rest_kept (db w) (db w').
Proof.
  induction ws as [|[k v] ws IH]; intros w ch w' ch' r; cbn [phase1]; [by intros [= <- _ _]|].
  destruct (phase1_step blake3 (w, ch) (k, v)) as [[[w1 ch1] r1]|] eqn:H1; [|done].
  assert (rest_kept (db w) (db w1)) as Hr.
  { unfold phase1_step in H1. destruct k as [c key|a|a|a]; [destruct v as [o| | |]|..];
      try (by destruct (apply_one_write _ _ _ _) as [[w2 r2]|] eqn:Ho; [injection H1 as <- _ _; by eapply apply_one_write_rest|done]).
    destruct o as [b|]; [unfold put_storage in H1; destruct (Db_put _ _ _ _) as [s1|] eqn:Hp|
      unfold delete_storage in H1; destruct (Db_delete _ _ _) as [s1|] eqn:Hp]; cbn in H1; injection H1 as <- _ _; try done;
      [eapply put_rest, Hp|eapply delete_rest, Hp]; unfold state_cf; set_solver. }
  destruct r1 as [[]|e]; [|by intros [= <- _ _]]. intros Hrest%IH. by etrans.
Qed.
Lemma insert_slots_rest l : ∀ s root s' r, insert_slots blake3 s root l = Some (s', r) → rest_kept s s'.
Proof.
  induction l as [|[slot v] l IH]; intros s root s' r; cbn; [by intros [= <- _]|].
  destruct (Trie_insert _ _ _ _ _) as [[[s1 h]|]|] eqn:Hi; [|by intros [= <- _]|done]. intros Hl%IH.
  etrans; [by eapply same_data_rest, Trie_insert_same_data|done].
Qed.
Lemma phase2_rest l : ∀ w w' r, phase2 blake3 w l = Some (w', r) → rest_kept (db w) (db w').
Proof.
  induction l as [|[c slots] l IH]; intros w w' r; cbn [phase2]; [by intros [= <- _]|].
  destruct (phase2_step blake3 w c slots) as [[w1 r1]|] eqn:H1; [|done].
  assert (rest_kept (db w) (db w1)) as Hr.
  { unfold phase2_step in H1. destruct (get_account w c) as [[o|e]|]; [|by injection H1 as <- _|done].
    destruct (insert_slots _ _ _ _) as [[s1 [root|e]]|] eqn:Hi; [|injection H1 as <- _; by eapply insert_slots_rest|done].
    apply insert_slots_rest in Hi. destruct (_ =? _); [by injection H1 as <- _|].
    destruct (put_account _ _ _ _) as [[w2|e]|] eqn:Hp; [|by injection H1 as <- _|done]. injection H1 as <- _.
    etrans; [exact Hi|]. by apply put_account_rest in Hp. }
  destruct r1 as [[]|e]; [|by intros [= <- _]]. intros Hrest%IH. by etrans.
Qed.
(** Blocks, certificates and the tip are not touched, whatever the state and the outcome. *)
Lemma apply_writes_rest s root ws s' r : apply_writes blake3 s root ws = Some (s', r) → rest_kept s s'.
Proof.
  unfold apply_writes. case_bool_decide; [by intros [= <- _]|].
  destruct (phase1 _ _ _) as [[[w ch] [[]|e]]|] eqn:H1; [|intros [= <- _]; by apply phase1_rest in H1; rewrite db_view in H1|done].
  apply phase1_rest in H1. rewrite db_view in H1.
  destruct (phase2 _ _ _) as [[w2 [[]|e]]|] eqn:H2; [| |done]; intros [= <- _]; apply phase2_rest in H2; by etrans.
Qed.
End spec.
