(* ===== verification/NodeChain.v ===== *)
(** * Blocks in the node ([lemma-node/src/batch.rs], [genesis_boot.rs],
      [producer.rs], [sync.rs], and the block builders of [dag_driver.rs])

    Batches and their resolution, the genesis block, the timer-driven producer,
    verification and application of synced blocks, and the mapping of a DAG
    commit to a chain block.  Clocks are arguments.  As in [NodeExec], a function
    that writes returns the database beside its answer. *)
From stdpp Require Import strings.
From S2P Require Import Prelude CoreTypes StakeAgg DagBlock DagGraph Fee Leader Cert Db Trie TrieRoot Transaction WorldState ChainStore Crypto RateLimit Mempool VmState Flux Agent Host NodeExec.

(** ** [batch.rs] *)

Definition u32_limit : N := 2 ^ 32 - 1.

Record Batch := { b_author : Address; b_txs : list Transaction }.

Inductive BatchError :=
  | BatchSerialization (reason : string)
  | TooLarge (size : N).

Section batch.
Context `{!Codec Batch} (blake3 : bytes → Hash).

Definition Batch_digest (self : Batch) : result BatchError Hash :=
  bytes ← map_err BatchSerialization (serialize self); Ok (hash_bytes blake3 bytes).

(** [u32::try_from(bytes.len())] *)
Definition size_u32 (bytes : bytes) : result BatchError N :=
  let len := N.of_nat (length bytes) in if u32_limit <? len then Err (TooLarge len) else Ok len.

Definition serialized_size (self : Batch) : result BatchError N :=
  bytes ← map_err BatchSerialization (serialize self); size_u32 bytes.

Definition to_ref (self : Batch) : result BatchError TxBatchRef :=
  bytes ← map_err BatchSerialization (serialize self);
  let digest := hash_bytes blake3 bytes in
  size ← size_u32 bytes;
  Ok {| batch_digest := digest; batch_author := b_author self; batch_size := size |}.
End batch.

(** The locals of [resolve_committed_txs]: seen hashes, transactions, missing batches. *)
Record Resolution := { seen : gset Hash; out : list Transaction; missing : list (Hash * Address) }.

Definition push_tx (st : Resolution) (tx : Transaction) : Resolution :=
  if decide (tx_hash tx ∈ seen st) then st
  else {| seen := {[tx_hash tx]} ∪ seen st; out := out st ++ [tx]; missing := missing st |}.

Definition resolve_batch (store : gmap Hash Batch) (st : Resolution) (r : TxBatchRef) : Resolution :=
  match store !! batch_digest r with
  | None => {| seen := seen st; out := out st; missing := missing st ++ [(batch_digest r, batch_author r)] |}
  | Some batch => foldl push_tx st (b_txs batch)
  end.

Definition resolve_block_payload (block : DagBlock) (store : gmap Hash Batch) (st : Resolution) : Resolution :=
  foldl (resolve_batch store) st (body_payload (body block)).

Definition resolve_step (d : Dag) (store : gmap Hash Batch) (st : Resolution) (r : DagBlockRef) : Resolution :=
  match blocks d !! r with
  | None => st
  | Some block => resolve_block_payload block store st
  end.

Definition resolve_committed_txs (commit : CommitRec) (d : Dag) (store : gmap Hash Batch)
    : list Transaction * list (Hash * Address) :=
  let st := foldl (resolve_step d store) {| seen := ∅; out := []; missing := [] |} (commit_blocks commit) in
  (out st, missing st).

(** ** [sync.rs]: verification *)

Definition MAX_SUPPORTED_PROTOCOL_VERSION : N := 1.

Section verify.
Context `{!Codec Block} `{!Hybrid65} (blake3 : bytes → Hash).

Definition compute_block_hash (block : Block) : result VerifyError Hash :=
  bytes ← map_err VSerialization (serialize block); Ok (hash_bytes blake3 bytes).

(** The text of its error, which is always a serialization error. *)
Definition hash_error_text (e : VerifyError) : string := match e with VSerialization reason => reason | _ => "" end.

Definition structural_verify (block : Block) (prev_hash : Hash) (prev_height : N) : result VerifyError Hash :=
  if MAX_SUPPORTED_PROTOCOL_VERSION <? protocol_version (header block)
  then Err (UnsupportedProtocolVersion (protocol_version (header block)) MAX_SUPPORTED_PROTOCOL_VERSION) else
  expected_height ← ok_or (HeightOverflow prev_height) (checked_add u64_max prev_height 1);
  if negb (Block_height block =? expected_height) then Err (HeightMismatch expected_height (Block_height block)) else
  if negb (parent_hash (header block) =? prev_hash) then Err (ParentHashMismatch prev_hash (parent_hash (header block))) else
  _ ← map_err BlockInvalid (Block_validate block);
  compute_block_hash block.

(** The loop that fills [sig_results]. *)
Definition signer_ok (vset : ValidatorSet) (signed_msg : bytes) (addr : Address) (sig : Signature) : bool :=
  match members vset !! addr with
  | Some member =>
      match sig with
      | Hybrid classical quantum =>
          match verify_hybrid (from_consensus_key (member_consensus_pubkey member)) signed_msg
                  {| hs_classical := classical; hs_quantum := quantum |} with
          | Ok _ => true
          | Err _ => false
          end
      | _ => false
      end
  | None => false
  end.

Definition certified_verify (vset : ValidatorSet) (block : Block) (prev_hash : Hash) (prev_height : N) : result VerifyError Hash :=
  hash ← structural_verify block prev_hash prev_height;
  match quorum_cert block with
  | None => Ok hash
  | Some qc =>
      let header_digest := BlockHeader_digest blake3 (header block) in
      let signed_msg := Hash_as_bytes (commit_ack_message blake3 (qc_height qc) (qc_header_digest qc)) in
      let sig_results := map_imap (λ addr sig, Some (signer_ok vset signed_msg addr sig)) (signers qc) in
      _ ← map_err QuorumCertInvalid (verify_quorum_cert qc vset header_digest sig_results);
      Ok hash
  end.
End verify.

(** ** [sync.rs]: the tracker.  Peers are numbered. *)

Record SyncTracker := { highest_seen : N; requested_up_to : N; last_peer : option N }.

Definition SyncTracker_new : SyncTracker := {| highest_seen := 0; requested_up_to := 0; last_peer := None |}.

Definition observe (self : SyncTracker) (height : N) (peer : N) : SyncTracker :=
  if highest_seen self <? height
  then {| highest_seen := height; requested_up_to := requested_up_to self; last_peer := Some peer |}
  else match last_peer self with
       | None => {| highest_seen := highest_seen self; requested_up_to := requested_up_to self; last_peer := Some peer |}
       | Some _ => self
       end.

Definition next_request (self : SyncTracker) (local_tip max_range : N) : SyncTracker * option (N * N) :=
  if highest_seen self <=? saturating_add u64_max local_tip 1 then (self, None) else
  if highest_seen self <=? requested_up_to self then (self, None) else
  let from := saturating_add u64_max local_tip 1 in
  let to := N.min (highest_seen self) (saturating_add u64_max local_tip max_range) in
  ({| highest_seen := highest_seen self; requested_up_to := to; last_peer := last_peer self |}, Some (from, to)).

Definition on_tip_advanced (self : SyncTracker) (local_tip : N) : SyncTracker :=
  if requested_up_to self <=? local_tip
  then {| highest_seen := highest_seen self; requested_up_to := local_tip; last_peer := last_peer self |} else self.

(** ** [sync.rs]: application.  The two halves run before and after the write
    lock is taken; other writers may run in between. *)

Inductive ApplyOutcome :=
  | Applied (height : N) (hash : Hash)
  | Stale
  | NoTip.

Section chain.
Context {DB : Type} `{!Rocks DB} `{!Codec Block} (blake3 : bytes → Hash).

(** Steps 1 and 2: the tip, and the hash of the verified block. *)
Definition sync_verify (verifier : Block → Hash → N → result VerifyError Hash) (s : DB) (block : Block)
    : result NodeError (option (N * Hash)) :=
  t ← map_err NStorage (tip s);
  match t with
  | None => Ok None
  | Some (prev_height, prev_hash) =>
      match verifier block prev_hash prev_height with
      | Ok hash => Ok (Some (prev_height, hash))
      | Err (QuorumCertInvalid r) => Err (NInvalidQC (QuorumCertInvalid r))
      | Err e => Err (NVerify e)
      end
  end.

(** Steps 4 and 5. *)
Definition sync_apply (s : DB) (block : Block) (prev_height : N) (computed_hash : Hash)
    : DB * result NodeError ApplyOutcome :=
  match tip s with
  | Err e => (s, Err (NStorage e))
  | Ok tip_now =>
      if negb (bool_decide (fst <$> tip_now = Some prev_height)) then (s, Ok Stale) else
      match put_block s block computed_hash with
      | Err e => (s, Err (NStorage e))
      | Ok s' => (s', Ok (Applied (Block_height block) computed_hash))
      end
  end.

(** [s] is the database before the lock, [between s] after it is acquired. *)
Definition apply_synced_block (verifier : Block → Hash → N → result VerifyError Hash) (s : DB) (between : DB → DB) (block : Block)
    : DB * result NodeError ApplyOutcome :=
  match sync_verify verifier s block with
  | Err e => (between s, Err e)
  | Ok None => (between s, Ok NoTip)
  | Ok (Some (prev_height, hash)) => sync_apply (between s) block prev_height hash
  end.

(** ** [producer.rs] *)

(** The tip and its block, as the producer and the DAG driver read them. *)
Definition read_parent (s : DB) : result NodeError (N * Hash * Block) :=
  t ← map_err NStorage (tip s);
  '(parent_height, parent_hash) ← ok_or (NConfig ChainNotInitialised) t;
  o ← map_err NStorage (get_block_by_height s parent_height);
  parent ← ok_or (NConfig (TipBlockNotFound parent_height)) o;
  Ok (parent_height, parent_hash, parent).

Definition build_next_block (s : DB) (proposer : Address) (timestamp : N) : result NodeError (Block * Hash) :=
  '(parent_height, parent_hash, parent) ← read_parent s;
  base_fee ← map_err (λ e, NCore (CoreAmount e)) (calculate_base_fee (header parent));
  let timestamp := N.max timestamp (wrapping_add64 (Fee.timestamp (header parent)) 1) in
  header ← map_err NBlock (BlockHeader_new {|
    height := wrapping_add64 parent_height 1;
    Fee.timestamp := timestamp;
    parent_hash := parent_hash;
    transactions_root := Hash_zero;
    state_root := state_root (header parent);
    receipts_root := Hash_zero;
    proposer := proposer;
    hdr_epoch := hdr_epoch (header parent);
    protocol_version := protocol_version (header parent);
    dag_round := 0;
    dag_anchor := Hash_zero;
    validators_hash := validators_hash (header parent);
    next_validators_hash := next_validators_hash (header parent);
    gas_limit := gas_limit (header parent);
    gas_used := 0;
    base_fee := base_fee;
    extra_data := [] |});
  block ← map_err NBlock (Block_new header [] [] None);
  hash ← map_err (λ e, NSerialization (hash_error_text e)) (compute_block_hash blake3 block);
  Ok (block, hash).

Definition commit_block (s : DB) (block : Block) (hash : Hash) : result NodeError DB := map_err NStorage (put_block s block hash).
End chain.

(** ** [genesis_boot.rs] *)

Inductive InitOutcome :=
  | Initialized (genesis_hash : Hash) (accounts : nat)
  | AlreadyInitialized (height : N).

Definition NATIVE_LEM_BYTES : bytes :=
  [87; 51; 213; 24; 33; 203; 251; 77; 103; 0; 3; 150; 212; 183; 107; 173; 95; 146; 201; 105].
Definition Address_native_lem : Address := from_be_bytes NATIVE_LEM_BYTES.

Section genesis.
Context {DB : Type} `{!Rocks DB} `{!Codec TrieNode} `{!Codec Account} `{!Codec Block} (blake3 : bytes → Hash).

Fixpoint put_accounts (w : WorldState DB) (l : list (Address * Account)) : option (WorldState DB * result StorageError ()) :=
  match l with
  | [] => Some (w, Ok ())
  | (addr, account) :: l =>
      match put_account blake3 w addr account with
      | None => None
      | Some (Err e) => Some (w, Err e)
      | Some (Ok w') => put_accounts w' l
      end
  end.

(** Steps 4 and 4b in order. *)
Definition genesis_accounts (genesis : GenesisConfig) : list (Address * Account) :=
  ((λ '(addr, amount), (addr, new_eoa amount)) <$> bmap_iter (initial_balances genesis))
  ++ [(Address_native_lem, new_eoa 0); (Address_registry blake3, new_eoa 0)].

(** Steps 7 to 10. *)
Definition genesis_block (genesis : GenesisConfig) (root : Hash) : result NodeError (Block * Hash) :=
  vset ← map_err (λ e, NCore (CoreValidator e)) (from_active_validators 0 (genesis_validators genesis));
  let vhash := ValidatorSet_hash blake3 vset in
  header ← map_err NBlock (BlockHeader_new {|
    height := 0;
    timestamp := genesis_timestamp genesis;
    parent_hash := Hash_zero;
    transactions_root := Hash_zero;
    state_root := root;
    receipts_root := Hash_zero;
    proposer := Address_zero;
    hdr_epoch := 0;
    protocol_version := 1;
    dag_round := 0;
    dag_anchor := Hash_zero;
    validators_hash := vhash;
    next_validators_hash := vhash;
    gas_limit := initial_gas_limit genesis;
    gas_used := 0;
    base_fee := initial_base_fee genesis;
    extra_data := [] |});
  block ← map_err NBlock (Block_new header [] [] None);
  block_bytes ← map_err NSerialization (serialize block);
  Ok (block, hash_bytes blake3 block_bytes).

Definition init_chain (s : DB) (genesis : GenesisConfig) : option (DB * result NodeError InitOutcome) :=
  match map_err NCore (GenesisConfig_validate genesis) with
  | Err e => Some (s, Err e)
  | Ok _ =>
      match latest_height s with
      | Err e => Some (s, Err (NStorage e))
      | Ok (Some height) => Some (s, Ok (AlreadyInitialized height))
      | Ok None =>
          match put_accounts (WorldState_new s) (genesis_accounts genesis) with
          | None => None
          | Some (w, Err e) => Some (db w, Err (NStorage e))
          | Some (w, Ok ()) =>
              match genesis_block genesis (default Hash_zero (ws_root w)) with
              | Err e => Some (db w, Err e)
              | Ok (block, genesis_hash) =>
                  match put_block (db w) block genesis_hash with
                  | Err e => Some (db w, Err (NStorage e))
                  | Ok s' => Some (s', Ok (Initialized genesis_hash (size (initial_balances genesis))))
                  end
              end
          end
      end
  end.
End genesis.
