(* ===== verification/NodeDriver.v ===== *)
(** * The DAG driver ([lemma-node/src/dag_driver.rs])

    DAG blocks and batches a validator proposes, the chain block it builds from
    a commit, and the processing of the consensus driver's output: blocks are
    executed, certified, persisted and announced, the mempool is maintained and
    the next DAG block is prepared.  Channels are lists of sent messages; a full
    or closed channel loses the message, as in the code. *)
From stdpp Require Import strings.
From S2P Require Import Prelude CoreTypes StakeAgg DagBlock DagGraph Fee Leader Linearizer ThresholdClock Committer Surge Cert Db Trie Transaction WorldState ChainStore Crypto RateLimit MempoolPolicy Mempool VmState Flux Agent Host NodeExec NodeChain.

(** [-] on [u64], wrapping in the release profile. *)
Definition wrapping_sub64 (a b : N) : N := (a + 2 ^ 64 - b) mod 2 ^ 64.

Record DagConfig := { cfg_epoch : N; cfg_proposer : Address; cfg_validator_set : ValidatorSet }.

Section driver.
Context {DB : Type} `{!Rocks DB} `{!Codec TrieNode} `{!Codec Account} `{!Codec Block} `{!Codec Batch}.
Context `{!Codec (list Transaction)} `{!Codec (list TransactionReceipt)} `{!Hybrid65} (blake3 : bytes → Hash).

Definition build_dag_block (round : N) (author : Address) (ancestors : list DagBlockRef) (payload : list TxBatchRef)
    (epoch timestamp_ms : N) (keypair : KeyPair) : result NodeError DagBlock :=
  if negb (kp_address keypair =? author) then Err (NConfig (KeyAuthorMismatch (kp_address keypair) author)) else
  let body := {| body_epoch := epoch; body_round := round; body_author := author; body_timestamp_ms := timestamp_ms;
                 body_ancestors := ancestors; body_payload := payload; body_commit_votes := [] |} in
  let tmp := DagBlock_new blake3 body Unsigned in
  let sig := sign_to_lemma keypair (Hash_as_bytes (digest tmp)) in
  Ok (DagBlock_new blake3 body sig).

(** The header of the block for a commit. *)
Definition commit_header (commit : CommitRec) (parent_hash : Hash) (parent : Block) (proposer : Address)
    (base_fee : Amount) (exec_out : BlockExecutionOutput) : BlockHeader := {|
  height := index commit;
  timestamp := N.max (timestamp_ms commit / 1000) (wrapping_add64 (timestamp (header parent)) 1);
  parent_hash := parent_hash;
  transactions_root := eo_transactions_root exec_out;
  state_root := eo_state_root exec_out;
  receipts_root := eo_receipts_root exec_out;
  proposer := proposer;
  hdr_epoch := hdr_epoch (header parent);
  protocol_version := protocol_version (header parent);
  dag_round := ref_round (leader commit);
  dag_anchor := ref_digest (leader commit);
  validators_hash := validators_hash (header parent);
  next_validators_hash := next_validators_hash (header parent);
  gas_limit := gas_limit (header parent);
  gas_used := eo_gas_used exec_out;
  base_fee := base_fee;
  extra_data := [] |}.

(** The certificate of the proposer alone. *)
Definition own_cert (header : BlockHeader) (proposer : Address) (keypair : KeyPair) : QuorumCert :=
  let header_digest := BlockHeader_digest blake3 header in
  let signed_msg := commit_ack_message blake3 (height header) header_digest in
  {| qc_height := height header; qc_header_digest := header_digest;
     signers := {[ proposer := sign_to_lemma keypair (Hash_as_bytes signed_msg) ]} |}.

Definition block_hash (block : Block) : result NodeError Hash :=
  map_err (λ e, NSerialization (hash_error_text e)) (compute_block_hash blake3 block).

Definition build_block_from_commit (execute_block_parallel : Scheduler) (commit : CommitRec) (proposer : Address) (s : DB)
    (txs : list Transaction) (keypair : KeyPair) : option (DB * result NodeError (Block * Hash)) :=
  match ('(_, parent_hash, parent) ← read_parent s;
         base_fee ← map_err (λ e, NCore (CoreAmount e)) (calculate_base_fee (header parent));
         Ok (parent_hash, parent, base_fee)) with
  | Err e => Some (s, Err e)
  | Ok (parent_hash, parent, base_fee) =>
      match execute_committed_block blake3 execute_block_parallel txs parent commit proposer s with
      | None => None
      | Some (s', Err e) => Some (s', Err e)
      | Some (s', Ok exec_out) =>
          Some (s',
            header ← map_err NBlock (BlockHeader_new (commit_header commit parent_hash parent proposer base_fee exec_out));
            block_with_qc ← map_err NBlock (Block_new header (eo_txs exec_out) (eo_receipts exec_out) (Some (own_cert header proposer keypair)));
            hash ← block_hash block_with_qc;
            Ok (block_with_qc, hash))
      end
  end.

(** ** The state of the driver *)

(** What the driver sends, in order. *)
Inductive Message :=
  | MBatch (batch : Batch)
  | MCommitAck (ack : CommitAckPayload)
  | MBlock (block : Block)
  | MDagBlock (block : DagBlock).

Record Node := {
  nd_db : DB;
  nd_mempool : Mempool;
  nd_batches : gmap Hash Batch;
  nd_acc : option CommitAckAccumulator;
  nd_next : option DagBlock;
  nd_surge : SurgeDriver;
  nd_sent : list Message;
}.

Definition set_db (s : DB) (n : Node) : Node :=
  {| nd_db := s; nd_mempool := nd_mempool n; nd_batches := nd_batches n; nd_acc := nd_acc n; nd_next := nd_next n;
     nd_surge := nd_surge n; nd_sent := nd_sent n |}.
Definition set_acc (a : option CommitAckAccumulator) (n : Node) : Node :=
  {| nd_db := nd_db n; nd_mempool := nd_mempool n; nd_batches := nd_batches n; nd_acc := a; nd_next := nd_next n;
     nd_surge := nd_surge n; nd_sent := nd_sent n |}.
Definition set_pool (p : Mempool) (n : Node) : Node :=
  {| nd_db := nd_db n; nd_mempool := p; nd_batches := nd_batches n; nd_acc := nd_acc n; nd_next := nd_next n;
     nd_surge := nd_surge n; nd_sent := nd_sent n |}.
Definition set_next (b : option DagBlock) (n : Node) : Node :=
  {| nd_db := nd_db n; nd_mempool := nd_mempool n; nd_batches := nd_batches n; nd_acc := nd_acc n; nd_next := b;
     nd_surge := nd_surge n; nd_sent := nd_sent n |}.
Definition set_surge (d : SurgeDriver) (n : Node) : Node :=
  {| nd_db := nd_db n; nd_mempool := nd_mempool n; nd_batches := nd_batches n; nd_acc := nd_acc n; nd_next := nd_next n;
     nd_surge := d; nd_sent := nd_sent n |}.
Definition pin_batch (h : Hash) (b : Batch) (n : Node) : Node :=
  {| nd_db := nd_db n; nd_mempool := nd_mempool n; nd_batches := <[h := b]> (nd_batches n); nd_acc := nd_acc n;
     nd_next := nd_next n; nd_surge := nd_surge n; nd_sent := nd_sent n |}.
Definition send (m : Message) (n : Node) : Node :=
  {| nd_db := nd_db n; nd_mempool := nd_mempool n; nd_batches := nd_batches n; nd_acc := nd_acc n; nd_next := nd_next n;
     nd_surge := nd_surge n; nd_sent := nd_sent n ++ [m] |}.

Definition build_and_gossip_batch (author : Address) (n : Node) : Node * list TxBatchRef :=
  let txs := pending_by_priority (nd_mempool n) MAX_TXS_PER_BLOCK in
  if bool_decide (txs = []) then (n, []) else
  let batch := {| b_author := author; b_txs := txs |} in
  match to_ref blake3 batch with
  | Err _ => (n, [])
  | Ok batch_ref => (send (MBatch batch) (pin_batch (batch_digest batch_ref) batch n), [batch_ref])
  end.

(** The accumulator for a new block with the validator's own acknowledgement. *)
Definition own_ack (cfg : DagConfig) (keypair : KeyPair) (height : N) (header_digest : Hash) : CommitAckPayload :=
  {| ack_height := height; ack_header_digest := header_digest; ack_signer := cfg_proposer cfg;
     ack_signature := sign_to_lemma keypair (Hash_as_bytes (commit_ack_message blake3 height header_digest)) |}.
Definition fresh_accumulator (cfg : DagConfig) (ack : CommitAckPayload) : CommitAckAccumulator :=
  let acc := for_validator_set (ack_height ack) (ack_header_digest ack) (cfg_validator_set cfg) in
  match CommitAckAccumulator_add acc ack (cfg_validator_set cfg) true with
  | Ok (acc', _) => acc'
  | Err _ => acc
  end.

(** The block with the certificate of the accumulator, when it has one. *)
Definition attach_cert (acc : CommitAckAccumulator) (block : Block) (hash : Hash) : Block * Hash :=
  match try_build_qc acc with
  | None => (block, hash)
  | Some qc =>
      match Block_new (header block) (transactions block) (receipts block) (Some qc) with
      | Err _ => (block, hash)
      | Ok new_block =>
          match compute_block_hash blake3 new_block with
          | Err _ => (block, hash)
          | Ok new_hash => (new_block, new_hash)
          end
      end
  end.

(** One commit of the output.  [now] is the clock; the answer is a fatal error or none. *)
Definition process_commit (execute_block_parallel : Scheduler) (cfg : DagConfig) (keypair : KeyPair) (now : N)
    (n : Node) (commit : CommitRec) : option (Node * result NodeError ()) :=
  let txs := (resolve_committed_txs commit (dag (nd_surge n)) (nd_batches n)).1 in
  match build_block_from_commit execute_block_parallel commit (cfg_proposer cfg) (nd_db n) txs keypair with
  | None => None
  | Some (s, Err _) => Some (set_db s n, Ok ())
  | Some (s, Ok (block, hash)) =>
      let n := set_db s n in
      let header_digest := match quorum_cert block with Some qc => qc_header_digest qc
                           | None => BlockHeader_digest blake3 (header block) end in
      let ack := own_ack cfg keypair (Block_height block) header_digest in
      let n := send (MCommitAck ack) n in
      let acc := fresh_accumulator cfg ack in
      let '(block, hash) := attach_cert acc block hash in
      let n := set_acc (Some acc) n in
      let committed_hashes := collect_committed_hashes (transactions block) in
      match commit_block (nd_db n) block hash with
      | Err e => Some (n, Err e)
      | Ok s' =>
          let n := send (MBlock block) (set_db s' n) in
          Some (set_pool (mempool_post_commit (nd_mempool n) committed_hashes now) n, Ok ())
      end
  end.

Fixpoint process_commits (execute_block_parallel : Scheduler) (cfg : DagConfig) (keypair : KeyPair) (now : N)
    (n : Node) (cs : list CommitRec) : option (Node * result NodeError ()) :=
  match cs with
  | [] => Some (n, Ok ())
  | c :: cs =>
      match process_commit execute_block_parallel cfg keypair now n c with
      | Some (n', Ok ()) => process_commits execute_block_parallel cfg keypair now n' cs
      | r => r
      end
  end.

(** The proposal for a new round ([new_round - 1] on [u64]). *)
Definition propose (cfg : DagConfig) (keypair : KeyPair) (ts : N) (n : Node) (new_round : N) : Node :=
  let ancestors := reference <$> blocks_at_round (dag (nd_surge n)) (wrapping_sub64 new_round 1) in
  let '(n, payload) := build_and_gossip_batch (cfg_proposer cfg) n in
  match build_dag_block new_round (cfg_proposer cfg) ancestors payload (cfg_epoch cfg) ts keypair with
  | Ok b => set_next (Some b) n
  | Err _ => n
  end.

Definition process_surge_output (execute_block_parallel : Scheduler) (cfg : DagConfig) (keypair : KeyPair) (now ts : N)
    (n : Node) (output : SurgeOutput) : option (Node * result NodeError ()) :=
  match process_commits execute_block_parallel cfg keypair now n (commits output) with
  | Some (n, Ok ()) =>
      Some (match new_round output with None => n | Some r => propose cfg keypair ts n r end, Ok ())
  | r => r
  end.

(** ** The loop of [run_dag_driver], one arm at a time *)

Definition bootstrap (cfg : DagConfig) (keypair : KeyPair) (ts : N) (n : Node) : result NodeError Node :=
  let '(n, payload) := build_and_gossip_batch (cfg_proposer cfg) n in
  b ← build_dag_block 0 (cfg_proposer cfg) [] payload (cfg_epoch cfg) ts keypair;
  Ok (set_next (Some b) n).

(** A DAG block, of a peer with the result of its signature check or our own. *)
Definition drive_block (execute_block_parallel : Scheduler) (cfg : DagConfig) (keypair : KeyPair) (now ts : N)
    (n : Node) (b : DagBlock) (sig_ok : bool) : option (Node * result NodeError ()) :=
  match on_block blake3 (nd_surge n) b sig_ok with
  | (d, Ok out) => process_surge_output execute_block_parallel cfg keypair now ts (set_surge d n) out
  | (d, Err e) => Some (set_surge d n, if is_fatal e then Err (NConfig (SurgeFailed "SurgeDriver fatal error")) else Ok ())
  end.

(** A peer's acknowledgement with the result of its signature check. *)
Definition drive_ack (cfg : DagConfig) (n : Node) (ack : CommitAckPayload) (sig_ok : bool) : Node :=
  match nd_acc n with
  | None => n
  | Some acc =>
      match CommitAckAccumulator_add acc ack (cfg_validator_set cfg) sig_ok with
      | Ok (acc', _) => set_acc (Some acc') n
      | Err _ => n
      end
  end.

(** Our own block, if one is ready. *)
Definition drive_own (execute_block_parallel : Scheduler) (cfg : DagConfig) (keypair : KeyPair) (now ts : N) (n : Node)
    : option (Node * result NodeError ()) :=
  match nd_next n with
  | None => Some (n, Ok ())
  | Some b => drive_block execute_block_parallel cfg keypair now ts (send (MDagBlock b) (set_next None n)) b true
  end.
End driver.
Arguments Node : clear implicits.
