(* ===== verification/NodeSpec.v ===== *)
(** * What the node promises about blocks

    Resolution of committed batches, acceptance of produced blocks by syncing
    peers, the state of the chain from genesis through every committed block,
    and the limits of certification and of the write lock. *)
From stdpp Require Import strings.
From S2P Require Import Prelude CoreTypes StakeAgg DagBlock DagGraph Fee Leader Cert Db Trie TrieRoot Transaction WorldState ChainStore Crypto VmState Flux Agent Host NodeExec NodeExecSpec NodeChain NodeDriver.

(** ** Resolving committed batches *)

(** The batches a commit refers to, in order, and what the store has of them. *)
Definition commit_refs (commit : CommitRec) (d : Dag) : list TxBatchRef :=
  r ← commit_blocks commit; from_option (λ b, body_payload (body b)) [] (blocks d !! r).
Definition available_txs (store : gmap Hash Batch) (refs : list TxBatchRef) : list Transaction :=
  r ← refs; from_option b_txs [] (store !! batch_digest r).
Definition unavailable (store : gmap Hash Batch) (refs : list TxBatchRef) : list (Hash * Address) :=
  (λ r, (batch_digest r, batch_author r)) <$> filter (λ r, store !! batch_digest r = None) refs.

(** The transactions at positions with no earlier transaction of the same hash, in order. *)
Fixpoint firsts (before : gset Hash) (l : list Transaction) : list Transaction :=
  match l with
  | [] => []
  | tx :: l => if decide (tx_hash tx ∈ before) then firsts before l else tx :: firsts ({[tx_hash tx]} ∪ before) l
  end.

Lemma foldl_push l st :
  foldl push_tx st l =
    {| seen := list_to_set (tx_hash <$> l) ∪ seen st; out := out st ++ firsts (seen st) l; missing := missing st |}.
Proof.
  revert st. induction l as [|tx l IH]; intros [sn o ms]; cbn.
  - f_equal; [set_solver|by rewrite app_nil_r].
  - rewrite IH. unfold push_tx. cbn. case_decide as Hin; cbn; f_equal; [set_solver|set_solver|].
    by rewrite <-app_assoc.
Qed.

Lemma firsts_app before l1 l2 :
  firsts before (l1 ++ l2) = firsts before l1 ++ firsts (list_to_set (tx_hash <$> l1) ∪ before) l2.
Proof.
  revert before. induction l1 as [|tx l1 IH]; intros before; cbn; [f_equal; set_solver|].
  case_decide; rewrite IH; [f_equal; f_equal; set_solver|]. cbn. f_equal. f_equal. f_equal. set_solver.
Qed.

Lemma foldl_resolve store refs st :
  foldl (resolve_batch store) st refs =
    {| seen := list_to_set (tx_hash <$> available_txs store refs) ∪ seen st;
       out := out st ++ firsts (seen st) (available_txs store refs); missing := missing st ++ unavailable store refs |}.
Proof.
  revert st. induction refs as [|r refs IH]; intros st; cbn [foldl].
  - destruct st; cbn. f_equal; [set_solver|by rewrite app_nil_r|by rewrite app_nil_r].
  - rewrite IH. unfold resolve_batch, unavailable, available_txs. rewrite filter_cons. cbn [mbind list_bind].
    destruct (store !! batch_digest r) as [b|]; cbn.
    + rewrite decide_False by done. rewrite foldl_push. cbn. rewrite firsts_app, fmap_app, list_to_set_app_L, <-app_assoc.
      f_equal. set_solver.
    + rewrite decide_True by done. cbn. by rewrite <-app_assoc.
Qed.

Lemma foldl_resolve_step d store rs st :
  foldl (resolve_step d store) st rs =
    foldl (resolve_batch store) st (r ← rs; from_option (λ b, body_payload (body b)) [] (blocks d !! r)).
Proof.
  revert st. induction rs as [|r rs IH]; intros st; [done|]. cbn. rewrite foldl_app, IH. f_equal.
  unfold resolve_step. by destruct (blocks d !! r).
Qed.

Lemma firsts_spec before l :
  NoDup (tx_hash <$> firsts before l) ∧ (∀ tx, tx ∈ firsts before l → tx_hash tx ∉ before) ∧
  firsts before l `sublist_of` l ∧
  ∀ i tx, l !! i = Some tx → tx_hash tx ∉ before → (∀ j tx', (j < i)%nat → l !! j = Some tx' → tx_hash tx' ≠ tx_hash tx) →
    tx ∈ firsts before l.
Proof.
  revert before. induction l as [|tx l IH]; intros before; cbn.
  { split_and!; [constructor|by intros ? ?%not_elem_of_nil|done|done]. }
  case_decide as Hin.
  - destruct (IH before) as (H1 & H2 & H3 & H4). split_and!; [done|done|by constructor|].
    intros [|i] tx' Hi Hn Hj; cbn in Hi; [by simplify_eq|]. eapply H4; [done..|].
    intros j tx'' Hlt Hl. apply (Hj (S j)); [lia|done].
  - destruct (IH ({[tx_hash tx]} ∪ before)) as (H1 & H2 & H3 & H4). split_and!.
    + cbn. constructor; [|done]. intros (tx' & E & Hin')%list_elem_of_fmap. apply H2 in Hin'. set_solver.
    + intros tx' [->|Hin']%elem_of_cons; [done|]. apply H2 in Hin'. set_solver.
    + by constructor.
    + intros [|i] tx' Hi Hn Hj; cbn in Hi; [simplify_eq; left|]. right. eapply H4; [done| |].
      * pose proof (Hj O tx ltac:(lia) eq_refl). set_solver.
      * intros j tx'' Hlt Hl. apply (Hj (S j)); [lia|done].
Qed.

(** C27. Resolution of a commit: the batches referenced by its blocks, in the
    order of the commit, give a transaction list without two transactions of
    the same hash, in which order is kept, every available transaction with no
    earlier one of its hash appears, and nothing else does; the list of missing
    batches is exactly the referenced ones the store does not have, in order. *)
Theorem resolve_committed_txs_spec commit d store txs missing :
  resolve_committed_txs commit d store = (txs, missing) →
  let refs := commit_refs commit d in
  NoDup (tx_hash <$> txs) ∧ txs `sublist_of` available_txs store refs ∧
  (∀ i tx, available_txs store refs !! i = Some tx →
    (∀ j tx', (j < i)%nat → available_txs store refs !! j = Some tx' → tx_hash tx' ≠ tx_hash tx) → tx ∈ txs) ∧
  missing = unavailable store refs.
Proof.
  unfold resolve_committed_txs. rewrite foldl_resolve_step, foldl_resolve. cbn. intros [= <- <-].
  change (commit_blocks commit ≫= _) with (commit_refs commit d).
  destruct (firsts_spec ∅ (available_txs store (commit_refs commit d))) as (H1 & _ & H3 & H4).
  split_and!; [done|done| |done]. intros i tx Hi Hj. eapply H4; [done|set_solver|done].
Qed.

(** ** The chain and the state it commits to *)

Section chain.
Context {DB : Type} `{!Rocks DB, !RocksLaws DB} `{!Codec TrieNode, !CodecLaws TrieNode} `{!Codec Account, !CodecLaws Account}.
Context `{!Codec Block, !CodecLaws Block} `{!Codec Batch} `{!Codec (list Transaction)} `{!Codec (list TransactionReceipt)}.
Context `{!Hybrid65} (blake3 : bytes → Hash) (blake3_len : ∀ b, is_hash (blake3 b)).
Implicit Types (s : DB) (C : Chain) (A : gmap Address Account).

Lemma chain_holds_rest s s' C :
  (∀ cf k, ¬ state_cf cf → Db_get s' cf k = Db_get s cf k) → chain_holds s C → chain_holds s' C.
Proof.
  intros Hr (H1 & H2 & H3).
  assert (∀ cf key o, ¬ state_cf cf → reads s cf key o → reads s' cf key o) as Hreads.
  { intros cf key [b|] Hcf; cbn; by rewrite Hr. }
  split_and!; [intros h Hh; apply Hreads; [unfold state_cf; set_solver|by apply H1]|
               intros h Hh; apply Hreads; [unfold state_cf; set_solver|by apply H2]|].
  destruct (chain_tip C) as [[t th]|]; rewrite !Hr by (unfold state_cf; set_solver); done.
Qed.

Lemma put_block_state s C block hash s' cf k :
  chain_holds s C → put_block s block hash = Ok s' → state_cf cf → Db_get s' cf k = Db_get s cf k.
Proof.
  intros HC Hp Hcf. pose proof (put_block_batch s C block hash HC) as Hb. rewrite Hp in Hb. destruct Hb as (bs & _ & Hw & _).
  apply (write_batch_other _ _ _ _ _ Hw). unfold block_batch. intros Hin.
  apply list_elem_of_fmap in Hin as (op & Hop & Hin). unfold state_cf in Hcf. destruct (advances C block); cbn in Hin;
    repeat (apply elem_of_cons in Hin as [->|Hin]; [cbn in Hop; simplify_eq; set_solver|]); by apply not_elem_of_nil in Hin.
Qed.

Lemma world_inv_same pend s s' root A :
  (∀ cf k, state_cf cf → Db_get s' cf k = Db_get s cf k) → world_inv blake3 pend (WorldStateView_new s root) A →
  world_inv blake3 pend (WorldStateView_new s' root) A ∧
  ∀ k, key_ok k → committed_value blake3 (WorldStateView_new s' root) k = committed_value blake3 (WorldStateView_new s root) k.
Proof.
  intros Hs I. assert (extends blake3 (db (WorldStateView_new s root)) (db (WorldStateView_new s' root))) as Hx.
  { rewrite !db_view. apply data_extends. intros k. apply Hs. unfold state_cf. set_solver. }
  assert (∀ a slot, get_storage (WorldStateView_new s' root) a slot = get_storage (WorldStateView_new s root) a slot) as Hst.
  { intros. unfold get_storage. rewrite !db_view. apply Hs. unfold state_cf. set_solver. }
  assert (∀ h, get_code (WorldStateView_new s' root) h = get_code (WorldStateView_new s root) h) as Hcd.
  { intros. unfold get_code. rewrite !db_view. apply Hs. unfold state_cf. set_solver. }
  assert (world_inv blake3 pend (WorldStateView_new s' root) A) as I'.
  { destruct I as [(f & Hf & Hf') Hr Hcr Hck Hsl]. split.
    - exists f. split; [|done]. rewrite view_root in Hf |- *. destruct (root_opt root); [by eapply stored_extends|done].
    - rewrite view_root in *. done.
    - intros h Hh. rewrite Hcd. by apply Hcr.
    - intros a x Ha Hx'. unfold code_ok. rewrite Hcd. by eapply Hck.
    - intros a Ha. eapply slots_ok_grow; [by apply Hsl|done|done]. }
  split; [done|]. intros k Hk. rewrite !(committed_account blake3 _ A) by (done || apply I || apply I').
  destruct k; cbn; [unfold view_read; by rewrite Hst|done..|]. f_equal. destruct (A !! a); cbn; [|done]. unfold code_of. by rewrite Hcd.
Qed.

Lemma read_parent_holds s C t th parent :
  chain_holds s C → chain_tip C = Some (t, th) → by_height C !! t = Some parent → read_parent s = Ok (t, th, parent).
Proof.
  intros HC Ht Hp. unfold read_parent. rewrite (tip_holds s C HC), Ht. cbn.
  assert (t <= u64_max) as Hle by (destruct HC as (_ & _ & H3); rewrite Ht in H3; apply H3).
  unfold get_block_by_height. rewrite (read_block_reads s CF_BLOCKS (height_key t) (by_height C !! t)) by (by apply HC).
  by rewrite Hp.
Qed.

(** What a successful [build_block_from_commit] returns. *)
Lemma build_block_inv exec commit prop s txs kp s1 block hash C t th parent :
  chain_holds s C → chain_tip C = Some (t, th) → by_height C !! t = Some parent →
  build_block_from_commit blake3 exec commit prop s txs kp = Some (s1, Ok (block, hash)) →
  ∃ out fee, calculate_base_fee (header parent) = Ok fee ∧
    execute_committed_block blake3 exec txs parent commit prop s = Some (s1, Ok out) ∧
    header block = commit_header commit th parent prop fee out ∧
    transactions block = eo_txs out ∧ receipts block = eo_receipts out ∧
    quorum_cert block = Some (own_cert blake3 (header block) prop kp) ∧
    Block_validate block = Ok () ∧ compute_block_hash blake3 block = Ok hash.
Proof.
  intros HC Ht Hp. unfold build_block_from_commit. rewrite (read_parent_holds s C t th parent) by done. cbn.
  destruct (calculate_base_fee (header parent)) as [fee|e] eqn:Hf; cbn; [|done].
  destruct (execute_committed_block _ _ _ _ _ _ _) as [[s2 [out|e]]|] eqn:He; [|done..].
  intros [= <- Hb]. apply bind_Ok in Hb as (h & Hn%map_err_Ok & Hb). apply bind_Ok in Hn as ([] & _ & [= <-]).
  apply bind_Ok in Hb as (b & Hn%map_err_Ok & Hb). apply bind_Ok in Hn as ([] & Hbv & [= <-]).
  apply bind_Ok in Hb as (h' & Hh%map_err_Ok & Hb). injection Hb as <- <-.
  exists out, fee. by split_and!.
Qed.

(** The output of the scheduler on the state at the parent's root. *)
Definition scheduled (exec : Scheduler) (txs : list Transaction) (parent : Block) (commit : CommitRec) (prop : Address) s
    : result NodeError BlockOutput :=
  if bool_decide (txs = []) then Ok {| receipts_out := []; writes_out := ∅ |} else
  map_err (λ e, NConfig (EngineInitFailed e))
    (exec (committed_value blake3 (WorldStateView_new s (state_root (header parent)))) txs (block_ctx parent commit prop)).

Lemma execute_inv exec txs parent commit prop s s1 out :
  execute_committed_block blake3 exec txs parent commit prop s = Some (s1, Ok out) →
  ∃ o, scheduled exec txs parent commit prop s = Ok o ∧ eo_txs out = txs ∧ eo_receipts out = receipts_out o ∧
    eo_gas_used out = receipts_gas (receipts_out o) ∧
    apply_writes blake3 s (state_root (header parent)) (writes_out o) = Some (s1, Ok (eo_state_root out)).
Proof.
  unfold execute_committed_block. fold (scheduled exec txs parent commit prop s).
  destruct (scheduled _ _ _ _ _ _) as [o|e]; [|done]. destruct (apply_writes _ _ _ _) as [[s2 [root|e]]|] eqn:Ha; [|done..].
  intros [= <- (tr & _ & (rr & _ & [= <-])%bind_Ok)%bind_Ok]. by exists o.
Qed.

(** Executing a block touches the state only, whatever its outcome. *)
Lemma build_rest exec commit prop s txs kp s1 r :
  build_block_from_commit blake3 exec commit prop s txs kp = Some (s1, r) → rest_kept s s1.
Proof.
  unfold build_block_from_commit. destruct ('(_, _, _) ← read_parent s; _) as [[[phash parent] fee]|e]; [|by intros [= <- _]].
  unfold execute_committed_block. destruct (if bool_decide _ then _ else _) as [o|e]; [|by intros [= <- _]].
  destruct (apply_writes _ _ _ _) as [[s2 [root|e]]|] eqn:Ha; [| |done]; apply apply_writes_rest in Ha; [|by intros [= <- _]].
  destruct (transactions_root ← _; _) as [out|e]; by intros [= <- _].
Qed.
Lemma build_chain exec commit prop s txs kp s1 r C :
  chain_holds s C → build_block_from_commit blake3 exec commit prop s txs kp = Some (s1, r) → chain_holds s1 C.
Proof. intros HC Hb%build_rest. by eapply chain_holds_rest. Qed.

(** C8. Committing a block updates the chain and its state.  From a chain whose tip
    commits to a well-formed state, let a block be built from a commit and persisted, its
    writes being typed and applied without a digest collision.  The block is stored at the
    height of the commit's index and names the old tip as its parent; it becomes the tip
    unless that height is below the old tip's, in which case the tip stays.  It commits to a
    well-formed state, in which every key (whose digest is not that of another written key)
    reads what the block's execution wrote, and else what the old tip's state had. *)
Theorem commit_updates_chain_state exec commit prop s txs kp s1 block hash s2 C t th parent A o :
  chain_holds s C → chain_tip C = Some (t, th) → by_height C !! t = Some parent →
  world_inv blake3 settled (WorldStateView_new s (state_root (header parent))) A →
  scheduled exec txs parent commit prop s = Ok o → map_Forall write_ok (writes_out o) →
  apply_clean blake3 s (state_root (header parent)) (writes_out o) = true → index commit <= u64_max →
  build_block_from_commit blake3 exec commit prop s txs kp = Some (s1, Ok (block, hash)) →
  commit_block s1 block hash = Ok s2 →
  tip s2 = Ok (Some (if t <=? index commit then (index commit, hash) else (t, th))) ∧
  get_block_by_height s2 (index commit) = Ok (Some block) ∧ parent_hash (header block) = th ∧
  (∃ A', world_inv blake3 settled (WorldStateView_new s2 (state_root (header block))) A') ∧
  ∀ k, key_ok k → (∀ k', is_Some (writes_out o !! k') → apart blake3 k' k) →
    committed_value blake3 (WorldStateView_new s2 (state_root (header block))) k
      = default (committed_value blake3 (WorldStateView_new s (state_root (header parent))) k) (writes_out o !! k).
Proof.
  intros HC Ht Hp I Ho Hw Hclean Hidx Hb Hcb. pose proof (build_chain _ _ _ _ _ _ _ _ _ HC Hb) as HC1.
  destruct (build_block_inv _ _ _ _ _ _ _ _ _ _ _ _ _ HC Ht Hp Hb) as (out & fee & _ & He & Hh & _ & _ & _ & _ & Hhash).
  destruct (execute_inv _ _ _ _ _ _ _ _ He) as (o' & Ho' & _ & _ & _ & Ha). rewrite Ho in Ho'. injection Ho' as <-.
  destruct (apply_writes_run blake3 s (state_root (header parent)) (writes_out o) A) as (s1' & r & Hr & Hpost); [done..|].
  rewrite Ha in Hr. injection Hr as <- <-. destruct Hpost as ([A' I'] & _ & Hv).
  unfold commit_block in Hcb. apply map_err_Ok in Hcb.
  assert (Block_height block = index commit) as Hbh by (unfold Block_height; by rewrite Hh).
  assert (hash < 256 ^ 32) as Hlen.
  { unfold compute_block_hash in Hhash. apply bind_Ok in Hhash as (bs & _ & [= <-]). apply blake3_len. }
  pose proof (put_block_holds s1 C block hash s2 HC1 ltac:(rewrite Hbh; lia) Hlen Hcb) as HC2.
  assert (state_root (header block) = eo_state_root out) as -> by (by rewrite Hh).
  destruct (world_inv_same settled s1 s2 (eo_state_root out) A') as [I2 Hv2]; [|done|].
  { intros cf k Hcf. by eapply put_block_state. }
  split_and!.
  - rewrite (tip_holds s2 _ HC2). cbn. rewrite Ht, Hbh. by destruct (t <=? index commit).
  - unfold get_block_by_height. rewrite (read_block_reads s2 _ _ _ (proj1 HC2 (index commit) ltac:(lia))). cbn. by rewrite Hbh, lookup_insert_eq.
  - by rewrite Hh.
  - by eexists.
  - intros k Hk Hap. rewrite Hv2 by done. by apply Hv.
Qed.

(** A block that is built but rejected leaves its storage behind.  When the
    gas of a commit's transactions exceeds the block's gas limit, the execution
    has already been applied when the header is refused: [process_commit] only
    logs the error and keeps the new database, whose tip is the old one, and the
    state at the tip's root now reads the storage slots that the rejected block
    wrote, although no block of the chain contains them. *)
Theorem rejected_block_leaks_storage exec cfg kp now n commit C t th parent A o s1 out fee c key v :
  let s := nd_db n in
  let txs := (resolve_committed_txs commit (Surge.dag (nd_surge n)) (nd_batches n)).1 in
  chain_holds s C → chain_tip C = Some (t, th) → by_height C !! t = Some parent →
  world_inv blake3 settled (WorldStateView_new s (state_root (header parent))) A →
  scheduled exec txs parent commit (cfg_proposer cfg) s = Ok o → map_Forall write_ok (writes_out o) →
  apply_clean blake3 s (state_root (header parent)) (writes_out o) = true →
  calculate_base_fee (header parent) = Ok fee →
  execute_committed_block blake3 exec txs parent commit (cfg_proposer cfg) s = Some (s1, Ok out) →
  gas_limit (header parent) < eo_gas_used out →
  writes_out o !! KStorage c key = Some v → is_address c → (∀ k', is_Some (writes_out o !! k') → apart blake3 k' (KStorage c key)) →
  process_commit blake3 exec cfg kp now n commit = Some (set_db s1 n, Ok ()) ∧
  tip s1 = Ok (Some (t, th)) ∧ get_block_by_height s1 t = Ok (Some parent) ∧
  committed_value blake3 (WorldStateView_new s1 (state_root (header parent))) (KStorage c key) = v.
Proof.
  intros s txs HC Ht Hp I Ho Hw Hclean Hfee He Hgas Hk Hc Hap.
  destruct (execute_inv _ _ _ _ _ _ _ _ He) as (o' & Ho' & _ & _ & _ & Ha). rewrite Ho in Ho'. injection Ho' as <-.
  destruct (apply_writes_run blake3 s (state_root (header parent)) (writes_out o) A) as (s1' & r & Hr & Hpost); [done..|].
  rewrite Ha in Hr. injection Hr as <- <-. destruct Hpost as (_ & _ & Hv).
  assert (chain_holds s1 C) as HC1 by (eapply chain_holds_rest, HC; by eapply apply_writes_rest).
  split_and!.
  - unfold process_commit, build_block_from_commit. fold s txs. clearbody txs. rewrite (read_parent_holds s C t th parent) by done. cbn -[execute_committed_block].
    rewrite Hfee. cbn -[execute_committed_block]. rewrite He. unfold BlockHeader_new, BlockHeader_validate. cbn.
    destruct (gas_limit (header parent) =? 0); cbn; [done|]. by rewrite (proj2 (N.ltb_lt _ _) Hgas).
  - by rewrite (tip_holds s1 C HC1), Ht.
  - unfold get_block_by_height. rewrite (read_block_reads s1 _ _ (by_height C !! t)); [by rewrite Hp|]. apply HC1.
    destruct HC as (_ & _ & H3). rewrite Ht in H3. apply H3.
  - specialize (Hv (KStorage c key) Hc Hap). rewrite Hk in Hv. cbn [default] in Hv. unfold id in Hv. rewrite <-Hv. cbn.
    unfold view_read, get_storage. by rewrite !db_view.
Qed.

(** ** Certification *)

(** A validator's own block is certified exactly when the validator alone is
    a quorum.  A block built by [build_block_from_commit] on the tip by a
    committee member passes the structural checks of every peer at that tip; the
    certificate check of [CertifiedVerifier] accepts it if and only if the
    proposer's stake by itself exceeds two thirds, since the block carries the
    proposer's signature only. *)
Theorem own_block_certified_iff_quorum `{!Hybrid65Laws} exec commit prop s txs kp s1 block hash C t th parent vs m :
  chain_holds s C → chain_tip C = Some (t, th) → by_height C !! t = Some parent →
  build_block_from_commit blake3 exec commit prop s txs kp = Some (s1, Ok (block, hash)) →
  index commit = t + 1 → t + 1 <= u64_max → protocol_version (header parent) <= MAX_SUPPORTED_PROTOCOL_VERSION →
  vset_wf vs → 3 * total_power vs <= u128_max → members vs !! prop = Some m →
  from_consensus_key (member_consensus_pubkey m) = public_key kp → pq_pair (kp_quantum_sk kp) (kp_quantum_pk kp) →
  structural_verify blake3 block th t = Ok hash ∧
  (certified_verify blake3 vs block th t = Ok hash ↔ is_quorum vs {[prop]}).
Proof.
  intros HC Ht Hp Hb Hidx Hmax Hver Hwf Htot Hm Hkey Hpair.
  destruct (build_block_inv _ _ _ _ _ _ _ _ _ _ _ _ _ HC Ht Hp Hb) as (out & fee & _ & _ & Hh & _ & _ & Hqc & Hval & Hhash).
  assert (structural_verify blake3 block th t = Ok hash) as Hs.
  { unfold structural_verify, Block_height. rewrite Hh. cbn [protocol_version commit_header height parent_hash]. rewrite (proj2 (N.ltb_ge _ _)) by done.
    unfold checked_add. rewrite (proj2 (N.leb_le _ _)) by done. cbn. rewrite Hidx, !N.eqb_refl. cbn. rewrite Hval. done. }
  split; [done|]. unfold certified_verify. rewrite Hs. cbn. rewrite Hqc. cbn [qc_height qc_header_digest signers own_cert].
  set (msg := Hash_as_bytes _). set (sigs := map_imap _ _).
  assert (dom (signers (own_cert blake3 (header block) prop kp)) = {[prop]}) as Hdom by (cbn; by rewrite dom_singleton_L).
  assert (∀ a, a ∈ dom (signers (own_cert blake3 (header block) prop kp)) → sigs !! a = Some true) as Hsigs.
  { rewrite Hdom. intros a ->%elem_of_singleton. unfold sigs. rewrite map_lookup_imap. cbn. rewrite lookup_singleton_eq. cbn.
    unfold signer_ok. rewrite Hm, Hkey. cbn. pose proof (verify_sign kp msg Hpair) as Hvs. unfold sign in Hvs. by rewrite Hvs. }
  rewrite <-Hdom. split.
  - intros ([] & Hq%map_err_Ok & _)%bind_Ok. by apply verify_quorum_cert_sound in Hq as (_ & _ & ?).
  - intros Hq. by rewrite verify_quorum_cert_complete.
Qed.

Lemma header_preimage_proposer h1 h2 :
  proposer h1 < 256 ^ 20 → proposer h2 < 256 ^ 20 → header_preimage h1 = header_preimage h2 → proposer h1 = proposer h2.
Proof.
  intros H1 H2 E. unfold header_preimage in E.
  do 6 (apply app_inj_1 in E as [_ E]; [|by rewrite !length_be_bytes]).
  apply app_inj_1 in E as [E _]; [|by rewrite !length_be_bytes]. by apply (be_bytes_inj 20).
Qed.

(** Acknowledgements of different validators never combine.  Two validators
    that build the block of the same commit on the same tip put their own
    address into the header, so the header digests they acknowledge differ
    (unless the two headers collide), and each accumulator rejects the other's
    acknowledgement: no certificate with two signers is ever formed. *)
Theorem acks_of_peers_rejected exec1 exec2 commit s s' txs1 txs2 kp1 kp2 s1 s2 b1 b2 h1 h2 cfg1 cfg2 C C' t t' th th' parent parent' acc sig :
  let d1 := BlockHeader_digest blake3 (header b1) in
  let d2 := BlockHeader_digest blake3 (header b2) in
  chain_holds s C → chain_tip C = Some (t, th) → by_height C !! t = Some parent →
  chain_holds s' C' → chain_tip C' = Some (t', th') → by_height C' !! t' = Some parent' →
  build_block_from_commit blake3 exec1 commit (cfg_proposer cfg1) s txs1 kp1 = Some (s1, Ok (b1, h1)) →
  build_block_from_commit blake3 exec2 commit (cfg_proposer cfg2) s' txs2 kp2 = Some (s2, Ok (b2, h2)) →
  is_address (cfg_proposer cfg1) → is_address (cfg_proposer cfg2) → cfg_proposer cfg1 ≠ cfg_proposer cfg2 →
  acc_height acc = Block_height b1 → acc_header_digest acc = d1 →
  (header_preimage (header b1) ≠ header_preimage (header b2) ∧ d1 = d2) ∨
  (CommitAckAccumulator_add acc (own_ack blake3 cfg2 kp2 (Block_height b2) d2) (cfg_validator_set cfg1) sig
     = Err (Ack_DigestMismatch d1 d2)).
Proof.
  intros d1 d2 HC Ht Hp HC' Ht' Hp' Hb1 Hb2 Ha1 Ha2 Hne Hah Had.
  destruct (build_block_inv _ _ _ _ _ _ _ _ _ _ _ _ _ HC Ht Hp Hb1) as (o1 & f1 & _ & _ & E1 & _).
  destruct (build_block_inv _ _ _ _ _ _ _ _ _ _ _ _ _ HC' Ht' Hp' Hb2) as (o2 & f2 & _ & _ & E2 & _).
  assert (header_preimage (header b1) ≠ header_preimage (header b2)) as Hpre.
  { intros E%header_preimage_proposer; rewrite ?E1, ?E2 in *; done. }
  destruct (decide (d1 = d2)) as [Hd|Hd]; [by left|right].
  assert (Block_height b2 = Block_height b1) as Hh by (unfold Block_height; by rewrite E1, E2).
  unfold CommitAckAccumulator_add. cbn. rewrite Hah, Hh, N.eqb_refl, Had. cbn.
  by rewrite (proj2 (N.eqb_neq d2 d1)) by congruence.
Qed.

(** ** The producer *)

(** A produced block extends the tip and every peer accepts it.  On a chain
    with a tip below the maximal height whose block has a gas limit, a supported
    protocol version and no fee overflow, [build_next_block] fails only when the
    block cannot be encoded; otherwise its block is one higher than the tip,
    links to it, is strictly later than it (below the maximal time) and at least
    the given time, inherits the state, passes [StructuralVerifier] at the tip,
    and [commit_block] makes it the tip. *)
Theorem produced_block_extends s C t th parent prop ts fee :
  chain_holds s C → chain_tip C = Some (t, th) → by_height C !! t = Some parent → t + 1 <= u64_max →
  timestamp (header parent) < u64_max → gas_limit (header parent) ≠ 0 →
  protocol_version (header parent) <= MAX_SUPPORTED_PROTOCOL_VERSION → calculate_base_fee (header parent) = Ok fee →
  match build_next_block blake3 s prop ts with
  | Err e => ∃ reason, e = NSerialization reason
  | Ok (block, hash) =>
      Block_height block = t + 1 ∧ parent_hash (header block) = th ∧ timestamp (header parent) < Block_timestamp block ∧
      ts <= Block_timestamp block ∧ state_root (header block) = state_root (header parent) ∧
      structural_verify blake3 block th t = Ok hash ∧
      ∀ s', commit_block s block hash = Ok s' → chain_holds s' (chain_put C block hash) ∧ tip s' = Ok (Some (t + 1, hash))
  end.
Proof.
  intros HC Ht Hp Hmax Hts Hgl Hver Hfee. unfold build_next_block. rewrite (read_parent_holds s C t th parent) by done. cbn.
  rewrite Hfee. cbn. unfold BlockHeader_new, BlockHeader_validate, Block_new, Block_validate. cbn.
  rewrite (proj2 (N.eqb_neq _ _) Hgl). cbn. rewrite (proj2 (N.ltb_ge (gas_limit (header parent)) 0)) by lia. cbn.
  unfold BlockHeader_validate. cbn. rewrite (proj2 (N.eqb_neq _ _) Hgl), (proj2 (N.ltb_ge (gas_limit (header parent)) 0)) by lia. cbn.
  set (block := {| header := _ |}). destruct (compute_block_hash blake3 block) as [hash|e] eqn:Hh; cbn; [|by eexists].
  assert (Block_height block = t + 1) as Hbh by (cbn; by apply wrapping_add64_small).
  split_and!; [done|done|cbn; rewrite wrapping_add64_small by lia; lia|cbn; lia|done| |].
  - unfold structural_verify. rewrite (proj2 (N.ltb_ge _ _)) by done. unfold checked_add. rewrite (proj2 (N.leb_le _ _)) by done.
    cbn [ok_or mbind result_bind]. rewrite Hbh, N.eqb_refl. cbn. rewrite N.eqb_refl. cbn. unfold Block_validate, BlockHeader_validate. cbn.
    rewrite (proj2 (N.eqb_neq _ _) Hgl), (proj2 (N.ltb_ge (gas_limit (header parent)) 0)) by lia. done.
  - intros s' Hcb%map_err_Ok. assert (hash < 256 ^ 32) as Hlen.
    { unfold compute_block_hash in Hh. apply bind_Ok in Hh as (bs & _ & [= <-]). apply blake3_len. }
    pose proof (put_block_holds s C block hash s' HC ltac:(rewrite Hbh; lia) Hlen Hcb) as HC'. split; [done|].
    rewrite (tip_holds s' _ HC'). cbn [chain_put chain_tip]. rewrite Ht, Hbh. by rewrite (proj2 (N.leb_le _ _)) by lia.
Qed.
End chain.
