(* ===== verification/NodeBoot.v ===== *)
(** * Starting the chain, and the tasks that extend it

    [init_chain] on an empty database, and the two tasks that append blocks.  Run
    one after the other they keep every block linked to its predecessor; the lock
    covers each write but not the reads before it, and an interleaving of the two
    breaks the link. *)
From stdpp Require Import strings.
From S2P Require Import Prelude CoreTypes StakeAgg DagBlock DagGraph Fee Leader Cert Db Trie TrieRoot Transaction WorldState ChainStore Crypto RateLimit Mempool VmState Flux Agent Host Linearizer NodeExec NodeExecSpec NodeChain NodeDriver NodeSpec.

Section boot.
Context {DB : Type} `{!Rocks DB, !RocksLaws DB} `{!Codec TrieNode, !CodecLaws TrieNode} `{!Codec Account, !CodecLaws Account}.
Context `{!Codec Block, !CodecLaws Block} `{!Codec (list Transaction)} `{!Codec (list TransactionReceipt)} `{!Hybrid65} (blake3 : bytes → Hash) (blake3_len : ∀ b, is_hash (blake3 b)).
Implicit Types (s : DB) (C : Chain) (A : gmap Address Account).

(** ** Linked chains *)

(** The tip is the highest block and carries its hash, and every stored block
    names the hash of the block below it. *)
Record chain_linked C : Prop := {
  cl_tip t th : chain_tip C = Some (t, th) → ∃ b, by_height C !! t = Some b ∧ compute_block_hash blake3 b = Ok th;
  cl_height h b : by_height C !! h = Some b → ∃ t th, chain_tip C = Some (t, th) ∧ h <= t;
  cl_link h b b' : by_height C !! h = Some b → by_height C !! (h + 1) = Some b' →
    compute_block_hash blake3 b = Ok (parent_hash (header b'));
}.

Lemma compute_block_hash_len b h : compute_block_hash blake3 b = Ok h → h < 256 ^ 32.
Proof. unfold compute_block_hash. intros (bs & _ & [= <-])%bind_Ok. apply blake3_len. Qed.

(** A block right above the tip that names its hash. *)
Lemma chain_put_linked C t th block hash :
  chain_linked C → chain_tip C = Some (t, th) → Block_height block = t + 1 → parent_hash (header block) = th →
  compute_block_hash blake3 block = Ok hash → chain_linked (chain_put C block hash).
Proof.
  intros [Ht Hh Hl] Et Hb Hp Hc. destruct (Ht t th Et) as (tb & Htb & Htc). split; cbn; rewrite ?Et, Hb.
  - rewrite (proj2 (N.leb_le _ _)) by lia. intros ? ? [= <- <-]. exists block. by rewrite lookup_insert_eq.
  - rewrite (proj2 (N.leb_le _ _)) by lia. intros h b [[<- <-]|[_ Hb']]%lookup_insert_Some; [by eexists _, _|].
    destruct (Hh _ _ Hb') as (t' & th' & E & Hle). simplify_eq. eexists _, _. split; [done|]. lia.
  - intros h b b' H1 H2. apply lookup_insert_Some in H1 as [[<- <-]|[Hne H1]].
    { rewrite lookup_insert_ne in H2 by lia. destruct (Hh _ _ H2) as (t' & th' & E & Hle). simplify_eq. lia. }
    apply lookup_insert_Some in H2 as [[E <-]|[_ H2]]; [|by eapply Hl].
    assert (h = t) as -> by lia. simplify_eq. congruence.
Qed.

Lemma structural_verify_inv block th t hash :
  structural_verify blake3 block th t = Ok hash →
  Block_height block = t + 1 ∧ t + 1 <= u64_max ∧ parent_hash (header block) = th ∧ compute_block_hash blake3 block = Ok hash.
Proof.
  unfold structural_verify, checked_add. destruct (_ <? _); [done|]. destruct (N.leb_spec (t + 1) u64_max); cbn; [|done].
  destruct (N.eqb_spec (Block_height block) (t + 1)); cbn; [|done].
  destruct (N.eqb_spec (parent_hash (header block)) th); cbn; [|done]. destruct (Block_validate block); by cbn.
Qed.

Lemma certified_structural vset block th t hash :
  certified_verify blake3 vset block th t = Ok hash → structural_verify blake3 block th t = Ok hash.
Proof.
  unfold certified_verify. intros (h & Hs & Hq)%bind_Ok. destruct (quorum_cert block); [|congruence].
  apply bind_Ok in Hq as (? & _ & Hq). congruence.
Qed.

Lemma build_next_block_inv s prop ts block hash C t th :
  chain_holds s C → chain_tip C = Some (t, th) → t + 1 <= u64_max → build_next_block blake3 s prop ts = Ok (block, hash) →
  Block_height block = t + 1 ∧ parent_hash (header block) = th ∧ compute_block_hash blake3 block = Ok hash.
Proof.
  intros HC Ht Hm. unfold build_next_block, read_parent. rewrite (tip_holds s C HC), Ht. cbn.
  intros ([[h ph] parent] & Hp & Hb)%bind_Ok. apply bind_Ok in Hp as (o & _ & (b & _ & [= <- <- <-])%bind_Ok).
  apply bind_Ok in Hb as (fee & _ & Hb). apply bind_Ok in Hb as (hd & Hn%map_err_Ok & Hb). apply bind_Ok in Hn as ([] & _ & [= <-]).
  apply bind_Ok in Hb as (b' & Hn%map_err_Ok & Hb). apply bind_Ok in Hn as ([] & _ & [= <-]).
  apply bind_Ok in Hb as (h' & Hh%map_err_Ok & Hb). injection Hb as <- <-. split_and!; [|done|done].
  cbn. by apply wrapping_add64_small.
Qed.

Lemma sync_verify_inv vset s block ph hash C :
  chain_holds s C → sync_verify (certified_verify blake3 vset) s block = Ok (Some (ph, hash)) →
  ∃ th, chain_tip C = Some (ph, th) ∧ Block_height block = ph + 1 ∧ ph + 1 <= u64_max ∧ parent_hash (header block) = th ∧
    compute_block_hash blake3 block = Ok hash.
Proof.
  intros HC. unfold sync_verify. rewrite (tip_holds s C HC). cbn. destruct (chain_tip C) as [[t th]|]; [|done].
  destruct (certified_verify _ _ _ _ _) as [h|[]] eqn:Hv; try done. intros [= <- <-].
  apply certified_structural, structural_verify_inv in Hv as (? & ? & ? & ?). by exists th.
Qed.

Lemma sync_apply_inv s block ph hash s' o C th :
  chain_holds s C → chain_tip C = Some (ph, th) → sync_apply s block ph hash = (s', Ok o) →
  o = Applied (Block_height block) hash ∧ put_block s block hash = Ok s'.
Proof.
  intros HC Ht. unfold sync_apply. rewrite (tip_holds s C HC), Ht. cbn. rewrite bool_decide_eq_true_2 by done. cbn.
  destruct (put_block s block hash); by intros [= <- <-].
Qed.

(** The writers, each taking its turn as a whole.  The producer is not at the last
    height, where its addition would wrap. *)
Inductive serial (vset : ValidatorSet) : DB → DB → Prop :=
  | serial_produce s s' prop ts block hash t th :
      tip s = Ok (Some (t, th)) → t < u64_max →
      build_next_block blake3 s prop ts = Ok (block, hash) → commit_block s block hash = Ok s' → serial vset s s'
  | serial_sync s s' block o :
      apply_synced_block (certified_verify blake3 vset) s id block = (s', Ok o) → serial vset s s'.

Definition linked_db s : Prop := ∃ C, chain_holds s C ∧ chain_linked C.

Lemma serial_linked vset s s' : serial vset s s' → linked_db s → linked_db s'.
Proof.
  intros Hs (C & HC & HL). destruct Hs as [s s' prop ts block hash t th Htip Ht Hb Hc|s s' block o Ha].
  - rewrite (tip_holds s C HC) in Htip. injection Htip as Htip.
    destruct (build_next_block_inv s prop ts block hash C t th) as (H1 & H2 & H3); [done|done|lia|done|].
    apply map_err_Ok in Hc. exists (chain_put C block hash). split; [|by eapply chain_put_linked].
    eapply put_block_holds; [done|lia|by eapply compute_block_hash_len|done].
  - unfold apply_synced_block in Ha. destruct (sync_verify _ s block) as [[[ph hash]|]|] eqn:Hv; [|simplify_eq; by exists C|done].
    destruct (sync_verify_inv vset s block ph hash C HC Hv) as (th & Ht & H1 & H2 & H3 & H4).
    destruct (sync_apply_inv s block ph hash s' o C th HC Ht Ha) as (_ & Hp).
    exists (chain_put C block hash). split; [|by eapply chain_put_linked].
    eapply put_block_holds; [done|lia|by eapply compute_block_hash_len|done].
Qed.

(** C9. When the block producer and the range-sync consumer take turns - each
    reads the tip, prepares its block and writes it before the other starts -
    every database reached from a linked one, with the producer never at the largest
    u64 height, has its tip at the highest block, under that block's
    hash, and every block names the hash of the block stored one height below. *)
Theorem serial_writers_keep_chain_linked vset s s' :
  rtc (serial vset) s s' → linked_db s → linked_db s'.
Proof. induction 1; eauto using serial_linked. Qed.

(** A writer that holds a block [p] for height [t + 1], prepared when the tip was [t]. *)
Lemma tip_race vset s C t th p hp b1 h1 s1 b2 h2 s2 s3 o :
  chain_holds s C → chain_tip C = Some (t, th) → t + 2 <= u64_max →
  Block_height p = t + 1 → compute_block_hash blake3 p = Ok hp →
  apply_synced_block (certified_verify blake3 vset) s id b1 = (s1, Ok (Applied (t + 1) h1)) → h1 ≠ hp →
  sync_verify (certified_verify blake3 vset) s1 b2 = Ok (Some (t + 1, h2)) →
  commit_block s1 p hp = Ok s2 →
  sync_apply s2 b2 (t + 1) h2 = (s3, Ok o) →
  o = Applied (t + 2) h2 ∧ tip s3 = Ok (Some (t + 2, h2)) ∧
  get_block_by_height s3 (t + 1) = Ok (Some p) ∧ get_block_by_height s3 (t + 2) = Ok (Some b2) ∧
  compute_block_hash blake3 p = Ok hp ∧ parent_hash (header b2) = h1 ∧ ¬ linked_db s3.
Proof.
  intros HC Ht Hm P1 P3 Ha1 Hne Hv2 Hc Ha2.
  unfold apply_synced_block in Ha1. destruct (sync_verify _ s b1) as [[[ph hash]|]|] eqn:Hv1; [|done..].
  destruct (sync_verify_inv vset s b1 ph hash C HC Hv1) as (th' & Ht' & B1 & B2 & B3 & B4). simplify_eq.
  destruct (sync_apply_inv s b1 _ hash s1 _ C _ HC Ht Ha1) as (Ho & Hp1). injection Ho as _ <-.
  pose proof (put_block_holds s C b1 h1 s1 HC ltac:(lia) (compute_block_hash_len _ _ B4) Hp1) as HC1.
  destruct (sync_verify_inv vset s1 b2 _ h2 _ HC1 Hv2) as (th2 & Ht2 & D1 & D2 & D3 & D4).
  cbn [chain_put chain_tip] in Ht2. rewrite Ht, B1, (proj2 (N.leb_le _ _)) in Ht2 by lia. injection Ht2 as <-.
  apply map_err_Ok in Hc. pose proof (put_block_holds s1 _ p hp s2 HC1 ltac:(lia) (compute_block_hash_len _ _ P3) Hc) as HC2.
  set (C1 := chain_put C b1 h1) in *. set (C2 := chain_put C1 p hp) in *.
  assert (chain_tip C2 = Some (t + 1, hp)) as Ht2.
  { cbn. rewrite Ht, B1, (proj2 (N.leb_le _ _)) by lia. rewrite P1, (proj2 (N.leb_le _ _)) by lia. done. }
  destruct (sync_apply_inv s2 b2 _ h2 s3 o C2 _ HC2 Ht2 Ha2) as (-> & Hp3).
  pose proof (put_block_holds s2 C2 b2 h2 s3 HC2 ltac:(lia) (compute_block_hash_len _ _ D4) Hp3) as HC3.
  assert (get_block_by_height s3 (t + 1) = Ok (Some p)) as G1.
  { etrans; [apply read_block_reads, HC3; lia|]. cbn. rewrite D1, lookup_insert_ne by lia. by rewrite P1, lookup_insert_eq. }
  assert (get_block_by_height s3 (t + 2) = Ok (Some b2)) as G2.
  { etrans; [apply read_block_reads, HC3; lia|]. cbn. rewrite D1, <-N.add_assoc. by rewrite lookup_insert_eq. }
  split_and!; [f_equal; lia| |done..|].
  - rewrite (tip_holds s3 _ HC3). cbn [chain_put chain_tip]. fold C1. fold C2. rewrite Ht2, D1, (proj2 (N.leb_le _ _)) by lia.
    by rewrite <-N.add_assoc.
  - intros (C3 & H3 & HL). assert (∀ h, h <= u64_max → get_block_by_height s3 h = Ok (by_height C3 !! h)) as Hr.
    { intros h Hh. by apply read_block_reads, H3. }
    rewrite Hr in G1, G2 by lia. injection G1 as G1. injection G2 as G2.
    pose proof (cl_link _ HL (t + 1) p b2 G1) as Hl. rewrite <-N.add_assoc in Hl. specialize (Hl G2). congruence.
Qed.

(** An empty commit leaves the database as it is while the block is built. *)
Lemma build_empty_db exec commit prop s kp s' r :
  build_block_from_commit blake3 exec commit prop s [] kp = Some (s', r) → s' = s.
Proof.
  unfold build_block_from_commit. destruct ('(_, parent_hash, parent) ← read_parent s; _) as [[[ph parent] fee]|]; [|by intros [= <- _]].
  unfold execute_committed_block. cbn [bool_decide decide_rel]. rewrite (bool_decide_eq_true_2 ([] = [])) by done.
  cbn [writes_out]. unfold apply_writes. rewrite (bool_decide_eq_true_2 (∅ = ∅)) by done. cbn. by intros [= <- _].
Qed.

(** C24. The lock is taken after the tip is read, and [commit_block] does not look
    at the tip again, [apply_synced_block] only at its height.  So: the DAG driver
    builds the block [p] of an empty commit on tip [t]; the range-sync consumer
    applies a peer's block [b1] of height [t + 1] and verifies its child [b2]; the
    driver commits [p], which replaces [b1] at its height and as the tip; the
    consumer applies [b2].  If the last write succeeds, the chain then holds [p]
    below [b2], the tip, and [b2] names the hash of [b1] as its parent. *)
Theorem tip_race_unlinks exec commit prop kp vset s C t th parent p hp s0 b1 h1 s1 b2 h2 s2 s3 o :
  chain_holds s C → chain_tip C = Some (t, th) → by_height C !! t = Some parent → t + 2 <= u64_max → index commit = t + 1 →
  build_block_from_commit blake3 exec commit prop s [] kp = Some (s0, Ok (p, hp)) →
  apply_synced_block (certified_verify blake3 vset) s0 id b1 = (s1, Ok (Applied (t + 1) h1)) → h1 ≠ hp →
  sync_verify (certified_verify blake3 vset) s1 b2 = Ok (Some (t + 1, h2)) →
  commit_block s1 p hp = Ok s2 →
  sync_apply s2 b2 (t + 1) h2 = (s3, Ok o) →
  o = Applied (t + 2) h2 ∧ tip s3 = Ok (Some (t + 2, h2)) ∧
  get_block_by_height s3 (t + 1) = Ok (Some p) ∧ get_block_by_height s3 (t + 2) = Ok (Some b2) ∧
  compute_block_hash blake3 p = Ok hp ∧ parent_hash (header b2) = h1 ∧ ¬ linked_db s3.
Proof.
  intros HC Ht Hp Hm Hi Hb. pose proof (build_empty_db _ _ _ _ _ _ _ Hb) as ->.
  destruct (build_block_inv blake3 _ _ _ _ _ _ _ _ _ _ _ _ _ HC Ht Hp Hb) as (out & fee & _ & _ & Hh & _ & _ & _ & _ & Hhash).
  eapply tip_race; [done|done|done| |done]. unfold Block_height. by rewrite Hh.
Qed.

(** C25. A restarted validator overwrites its history.  The driver starts each run with
    a new Surge state, whose commits are numbered from 1 again, and gives a block the
    index of its commit as height.  Whatever its transactions, the block of a commit with
    an index below the height of the tip is stored at that height: the block that was
    there is gone, the tip stays, and the new block names the hash of the tip as its
    parent, so the chain is no longer linked (unless the tip has the hash of the block
    below the overwritten height). *)
Theorem restarted_driver_overwrites exec commit prop kp txs s C t th parent below bh p hp s0 s1 :
  chain_holds s C → chain_tip C = Some (t, th) → by_height C !! t = Some parent →
  next_index Linearizer_new <= index commit < t →
  by_height C !! (index commit - 1) = Some below → compute_block_hash blake3 below = Ok bh → bh ≠ th →
  build_block_from_commit blake3 exec commit prop s txs kp = Some (s0, Ok (p, hp)) → commit_block s0 p hp = Ok s1 →
  tip s1 = Ok (Some (t, th)) ∧ get_block_by_height s1 (index commit) = Ok (Some p) ∧ parent_hash (header p) = th ∧ ¬ linked_db s1.
Proof.
  intros HC Ht Hp [Hi Hlt] Hz Hbh Hne Hb Hcb%map_err_Ok. cbn in Hi. assert (chain_holds s0 C) as HC0 by (by eapply build_chain).
  destruct (build_block_inv blake3 _ _ _ _ _ _ _ _ _ _ _ _ _ HC Ht Hp Hb) as (out & fee & _ & _ & Hh & _ & _ & _ & _ & Hhash).
  assert (Block_height p = index commit) as Hbp by (unfold Block_height; by rewrite Hh).
  assert (t <= u64_max) as Hmax by (destruct HC as (_ & _ & H3); rewrite Ht in H3; apply H3).
  pose proof (put_block_holds s0 C p hp s1 HC0 ltac:(rewrite Hbp; lia) (compute_block_hash_len _ _ Hhash) Hcb) as HC1.
  assert (∀ h, h <= u64_max → get_block_by_height s1 h = Ok (by_height (chain_put C p hp) !! h)) as Hg.
  { intros h Hle. by apply read_block_reads, HC1. }
  assert (get_block_by_height s1 (index commit) = Ok (Some p)) as G1.
  { rewrite Hg by lia. cbn. by rewrite Hbp, lookup_insert_eq. }
  assert (get_block_by_height s1 (index commit - 1) = Ok (Some below)) as G0.
  { rewrite Hg by lia. cbn. rewrite Hbp, lookup_insert_ne by lia. by rewrite Hz. }
  assert (parent_hash (header p) = th) as Hph by (by rewrite Hh).
  split_and!; [|done|done|].
  - rewrite (tip_holds s1 _ HC1). cbn. rewrite Ht, Hbp. by rewrite (proj2 (N.leb_gt _ _)) by lia.
  - intros (C3 & H3 & HL). assert (∀ h, h <= u64_max → get_block_by_height s1 h = Ok (by_height C3 !! h)) as Hr.
    { intros h Hle. by apply read_block_reads, H3. }
    rewrite Hr in G1, G0 by lia. injection G1 as G1. injection G0 as G0.
    replace (index commit) with (index commit - 1 + 1) in G1 by lia.
    pose proof (cl_link _ HL (index commit - 1) below p G0 G1) as Hl. congruence.
Qed.

(** ** Synced blocks are not executed *)

(** Applying a synced block stores the block and nothing of its state: when
    the trie node of its state root was not in the database before, the node that
    has caught up reads balance 0, nonce 0 and no code for every account at its
    own tip. *)
Theorem synced_state_absent vset s C b s1 h hash a :
  chain_holds s C → apply_synced_block (certified_verify blake3 vset) s id b = (s1, Ok (Applied h hash)) →
  let root := state_root (header b) in
  root ≠ Hash_zero → Db_get s CF_TRIE_NODES (Hash_as_bytes root) = Ok None →
  tip s1 = Ok (Some (h, hash)) ∧
  committed_value blake3 (WorldStateView_new s1 root) (KBalance a) = VBalance 0 ∧
  committed_value blake3 (WorldStateView_new s1 root) (KNonce a) = VNonce 0 ∧
  committed_value blake3 (WorldStateView_new s1 root) (KCode a) = VCode None.
Proof.
  intros HC Ha root Hnz Hnone. unfold apply_synced_block in Ha. destruct (sync_verify _ s b) as [[[ph hash']|]|] eqn:Hv; [|done..].
  destruct (sync_verify_inv vset s b ph hash' C HC Hv) as (th & Ht & H1 & H2 & H3 & H4).
  destruct (sync_apply_inv s b ph hash' s1 _ C th HC Ht Ha) as (Ho & Hp). injection Ho as -> ->.
  pose proof (put_block_holds s C b hash' s1 HC ltac:(lia) (compute_block_hash_len _ _ H4) Hp) as HC1.
  assert (Db_get s1 CF_TRIE_NODES (Hash_as_bytes root) = Ok None) as Hn1.
  { rewrite (put_block_state blake3 blake3_len s C b hash' s1 _ _ HC Hp); [done|]. unfold state_cf. set_solver. }
  split.
  { rewrite (tip_holds s1 _ HC1). cbn. rewrite Ht, H1. by rewrite (proj2 (N.leb_le _ _)) by lia. }
  assert (∃ e, get_account (WorldStateView_new s1 root) a = Some (Err e)) as [e He].
  { unfold get_account, WorldStateView_new. rewrite (proj2 (N.eqb_neq _ _) Hnz). cbn. unfold Trie_get.
    unfold path_fuel. cbn [get_recursive]. unfold load_node. rewrite Hn1. by eexists. }
  cbn. unfold view_balance, view_nonce, view_code, get_balance, get_nonce. by rewrite He.
Qed.

(** ** The genesis block *)

(** An empty database: every column family is there and holds nothing. *)
Definition empty_db s : Prop := ∀ cf k, Db_get s cf k = Ok None.
Definition no_chain : Chain := {| by_height := ∅; by_hash := ∅; chain_tip := None |}.

Lemma empty_chain s : empty_db s → chain_holds s no_chain.
Proof. intros He. split_and!; cbn; intros; rewrite ?lookup_empty; apply He. Qed.
Lemma empty_world s : empty_db s → world_inv blake3 settled (WorldState_new s) ∅.
Proof.
  intros He. split; cbn.
  - exists (λ _, None). split; [done|]. intros a Ha. by rewrite lookup_empty.
  - done.
  - intros h Hh. exists None. apply He.
  - intros a x Ha. by rewrite lookup_empty.
  - intros a Ha. rewrite lookup_empty. exists (λ _, None). split; [done|]. intros slot Hs. exists None. split; [apply He|by left].
Qed.

(** The accounts written so far meet no two contents with one digest. *)
Fixpoint accounts_clean (w : WorldState DB) (l : list (Address * Account)) : bool :=
  match l with
  | [] => true
  | (a, x) :: l => put_clean blake3 w a x && match put_account blake3 w a x with Some (Ok w') => accounts_clean w' l | _ => true end
  end.

Definition add_account A (p : Address * Account) : gmap Address Account := <[p.1 := p.2]> A.
Definition plain (x : Account) : Prop := code_hash x = Hash_zero ∧ storage_root x = Hash_zero.

(** Every account so far is plain, so its storage is empty. *)
Lemma put_accounts_inv l : ∀ w A,
  world_inv blake3 settled w A → (∀ a slot, get_storage w a slot = Ok None) →
  Forall (λ p, is_address p.1 ∧ plain p.2) l → accounts_clean w l = true →
  ∃ r, put_accounts blake3 w l = Some r ∧
    same_data (db w) (db r.1) ∧
    match r with
    | (w', Ok ()) => world_inv blake3 settled w' (foldl add_account A l) ∧ (l ≠ [] → is_Some (ws_root w'))
    | (_, Err e) => write_error e
    end.
Proof.
  induction l as [|[a x] l IH]; intros w A I Hs Hl Hc; [by eexists|]. apply Forall_cons in Hl as [[Ha [Hx1 Hx2]] Hl].
  cbn [accounts_clean fst snd] in *. apply andb_true_iff in Hc as [Hp Hc].
  destruct (put_account_inv blake3 settled w A a x []) as (r & Hr & Hpost); [done|done| | |done|].
  { split; rewrite Hx1; [by vm_compute|done]. }
  { exists (λ _, None). rewrite Hx2. split; [done|]. intros slot _. exists None. split; [apply Hs|by left]. }
  cbn [put_accounts]. rewrite Hr in *. destruct r as [w1|e]; [|by eexists]. destruct Hpost as (I1 & _ & Hd).
  destruct (IH w1 (<[a := x]> A)) as (r & Hr' & Hpost).
  - apply (world_inv_ext blake3 (λ a0, if decide (a0 = a) then [] else settled a0)); [|exact I1]. intros a0. by destruct (decide (a0 = a)).
  - intros a' slot. by rewrite (same_data_storage w w1).
  - done.
  - done.
  - exists r. destruct Hpost as (Hd' & Hpost). split_and!; [done|intros cf k Hcf; by rewrite Hd', Hd|].
    destruct r as [w2 [[]|e]]; [|done]. destruct Hpost as (I2 & Hroot). split; [done|].
    intros _. destruct l; [|by apply Hroot]. injection Hr' as <-. unfold put_account in Hr.
      unfold and_then in Hr. repeat case_match; simplify_eq; by eexists.
Qed.

Lemma foldl_add l a x : ∀ A, NoDup l.*1 →
  foldl add_account A l !! a = Some x ↔ (a, x) ∈ l ∨ a ∉ l.*1 ∧ A !! a = Some x.
Proof.
  induction l as [|[k v] l IH]; intros A Hnd; cbn [foldl fmap list_fmap fst].
  - split; [intros; right; split; [apply not_elem_of_nil|done]|]. by intros [?%not_elem_of_nil|[_ ?]].
  - apply NoDup_cons in Hnd as [Hk Hnd]. rewrite IH by done. unfold add_account. cbn [fst snd]. rewrite !elem_of_cons.
    assert (∀ y, (k, y) ∈ l → False) as Hkl by (intros y Hy; apply Hk, list_elem_of_fmap; by exists (k, y)).
    destruct (decide (k = a)) as [->|Hne]; [rewrite lookup_insert_eq|rewrite lookup_insert_ne by done]; naive_solver.
Qed.

Definition system_address (a : Address) : Prop := a = Address_native_lem ∨ a = Address_registry blake3.

(** The state at genesis: the balances of the file, and two system accounts. *)
Definition genesis_state (genesis : GenesisConfig) (A : gmap Address Account) : Prop :=
  ∀ a, (system_address a → A !! a = Some (new_eoa 0)) ∧
       (¬ system_address a → A !! a = new_eoa <$> initial_balances genesis !! a).

Lemma genesis_accounts_state genesis : genesis_state genesis (foldl add_account ∅ (genesis_accounts blake3 genesis)).
Proof.
  intros a. unfold genesis_accounts. rewrite foldl_app. cbn. unfold add_account at 1 2. cbn. split.
  - intros [->| ->]; [|by rewrite lookup_insert_eq].
    destruct (decide (Address_registry blake3 = Address_native_lem)) as [->|Hne]; [by rewrite lookup_insert_eq|].
    by rewrite lookup_insert_ne, lookup_insert_eq.
  - intros Hn. rewrite !lookup_insert_ne by (intros <-; apply Hn; unfold system_address; auto).
    apply option_eq. intros x. rewrite foldl_add, lookup_empty.
    + rewrite list_elem_of_fmap, fmap_Some. split.
      * intros [([k v] & [= -> ->] & Hin%elem_of_bmap_iter)|[_ ?]]; [by exists v|done].
      * intros (v & Hv%elem_of_bmap_iter & ->). left. by exists (a, v).
    + rewrite <-list_fmap_compose, (list_fmap_ext _ fst) by (by intros ? []). rewrite bmap_iter_keys. apply bmap_keys_NoDup.
Qed.

Lemma genesis_linked block hash :
  Block_height block = 0 → compute_block_hash blake3 block = Ok hash → chain_linked (chain_put no_chain block hash).
Proof.
  intros Hh Hc. split; cbn; rewrite Hh.
  - intros ? ? [= <- <-]. exists block. by rewrite lookup_insert_eq.
  - intros h b [[<- <-]|[_ Hb]]%lookup_insert_Some; [by eexists _, _|]. by rewrite lookup_empty in Hb.
  - intros h b b' _ [[Hn _]|[_ Hb]]%lookup_insert_Some; [lia|]. by rewrite lookup_empty in Hb.
Qed.

Lemma genesis_accounts_ok genesis :
  map_Forall (λ a _, is_address a) (initial_balances genesis) →
  Forall (λ p, is_address p.1 ∧ plain p.2) (genesis_accounts blake3 genesis).
Proof.
  intros Ha. apply Forall_app. split.
  - apply Forall_fmap, Forall_forall. intros [a v] Hin%elem_of_bmap_iter. cbn. split; [by eapply Ha|done].
  - apply Forall_cons; split; [by vm_compute|]. apply Forall_singleton. split; [|done].
    apply N.Div0.div_lt_upper_bound. change (2 ^ 96 * 256 ^ 20) with (256 ^ 32). apply blake3_len.
Qed.

(** What [genesis_block] returns. *)
Lemma genesis_block_inv genesis root :
  initial_gas_limit genesis ≠ 0 →
  match genesis_block blake3 genesis root with
  | Ok (block, hash) => Block_height block = 0 ∧ state_root (header block) = root ∧ compute_block_hash blake3 block = Ok hash
  | Err e => match e with NCore (CoreValidator _) | NSerialization _ => True | _ => False end
  end.
Proof.
  intros Hg. unfold genesis_block. destruct (from_active_validators _ _) as [vset|]; cbn; [|done].
  unfold BlockHeader_new, BlockHeader_validate, Block_new, Block_validate, BlockHeader_validate. cbn.
  rewrite (proj2 (N.eqb_neq _ _) Hg). cbn. rewrite (proj2 (N.ltb_ge (initial_gas_limit genesis) 0)) by lia. cbn.
  rewrite (proj2 (N.eqb_neq _ _) Hg). cbn. rewrite (proj2 (N.ltb_ge (initial_gas_limit genesis) 0)) by lia. cbn.
  destruct (serialize _) as [bs|] eqn:Hs; cbn; [|done]. split_and!; [done|done|].
  unfold compute_block_hash. by rewrite Hs.
Qed.

(** What [init_chain] leaves behind, with the chain it holds. *)
Lemma init_chain_inv s genesis :
  empty_db s → GenesisConfig_validate genesis = Ok () → map_Forall (λ a _, is_address a) (initial_balances genesis) →
  accounts_clean (WorldState_new s) (genesis_accounts blake3 genesis) = true →
  ∃ s' r, init_chain blake3 s genesis = Some (s', r) ∧
    match r with
    | Ok (Initialized h n) =>
        n = size (initial_balances genesis) ∧
        ∃ block A, chain_holds s' (chain_put no_chain block h) ∧ Block_height block = 0 ∧
          compute_block_hash blake3 block = Ok h ∧ genesis_state genesis A ∧
          world_inv blake3 settled (WorldStateView_new s' (state_root (header block))) A
    | Ok (AlreadyInitialized _) => False
    | Err e => tip s' = Ok None ∧
        match e with NStorage e => write_error e | NCore (CoreValidator _) | NSerialization _ => True | _ => False end
    end.
Proof.
  intros He Hval Haddr Hclean. unfold init_chain. rewrite Hval. cbn [map_err].
  rewrite (latest_height_holds s _ (empty_chain s He)). cbn [chain_tip no_chain fmap option_fmap option_map].
  destruct (put_accounts_inv (genesis_accounts blake3 genesis) (WorldState_new s) ∅) as (r & Hr & Hd & Hpost);
    [by apply empty_world|intros; apply He|by apply genesis_accounts_ok|done|]. rewrite Hr.
  assert (chain_holds (db r.1) no_chain) as HC.
  { apply (chain_holds_rest blake3 blake3_len s); [|by apply empty_chain]. intros cf k Hcf. apply Hd. intros ->. apply Hcf. unfold state_cf. set_solver. }
  assert (tip (db r.1) = Ok None) as Htip by apply (tip_holds _ _ HC).
  destruct r as [w [[]|e]]; [|by eexists _, _]. cbn [fst] in *. destruct Hpost as (I & Hroot).
  destruct Hroot as [root Hroot]; [intros [_ [=]]%app_eq_nil|]. rewrite Hroot. cbn [default from_option id]. change (id root) with root.
  assert (initial_gas_limit genesis ≠ 0) as Hg by (intros E; unfold GenesisConfig_validate in Hval; by rewrite E in Hval).
  pose proof (genesis_block_inv genesis root Hg) as Hb. destruct (genesis_block blake3 genesis root) as [[block hash]|e].
  2: { eexists _, _. split; [reflexivity|]. split; [done|]. by destruct e as [| [] | | | | | | |]. }
  destruct Hb as (Hh & Hsr & Hc). pose proof (put_block_batch (db w) no_chain block hash HC) as Hpb.
  destruct (put_block (db w) block hash) as [s'|e] eqn:Hp; [|by eexists _, _; split_and!; destruct e]. clear Hpb.
  pose proof (put_block_holds _ _ block hash s' HC ltac:(by rewrite Hh) (compute_block_hash_len _ _ Hc) Hp) as HC'.
  eexists _, _. split; [done|]. split; [done|].
  exists block, (foldl add_account ∅ (genesis_accounts blake3 genesis)). split_and!; [done..|apply genesis_accounts_state|].
  rewrite Hsr. eapply (world_inv_same blake3 blake3_len settled (db w) s' root); [intros cf k; by apply (put_block_state blake3 blake3_len (db w) no_chain block hash)|].
  pose proof (wi_root _ _ _ _ I) as Hz. rewrite Hroot in Hz. unfold WorldStateView_new.
  destruct (N.eqb_spec root Hash_zero); [congruence|]. destruct w; cbn in *; by subst.
Qed.

Lemma genesis_read s block h :
  chain_holds s (chain_put no_chain block h) → Block_height block = 0 → get_block_by_height s 0 = Ok (Some block).
Proof. intros HC Hh. etrans; [apply read_block_reads, HC; lia|]. cbn. by rewrite Hh, lookup_insert_eq. Qed.

(** C26. Starting a node on an empty database with a valid genesis file, whose
    accounts are written without a digest collision, either fails - an error of encoding or writing, or of the validators' powers - and
    leaves no chain, so that the next start begins anew; or it writes a linked
    chain of one block of height 0 whose state root holds exactly the balances of
    the file and two empty system accounts (an allocation the file makes to a
    system address is lost), after which every later start reports height 0 and
    writes nothing. *)
Theorem init_chain_spec s genesis :
  empty_db s → GenesisConfig_validate genesis = Ok () → map_Forall (λ a _, is_address a) (initial_balances genesis) →
  accounts_clean (WorldState_new s) (genesis_accounts blake3 genesis) = true →
  ∃ s' r, init_chain blake3 s genesis = Some (s', r) ∧
    match r with
    | Ok (Initialized h n) =>
        n = size (initial_balances genesis) ∧ tip s' = Ok (Some (0, h)) ∧ linked_db s' ∧
        (∃ block A, get_block_by_height s' 0 = Ok (Some block) ∧ Block_height block = 0 ∧ genesis_state genesis A ∧
          world_inv blake3 settled (WorldStateView_new s' (state_root (header block))) A) ∧
        ∀ genesis', GenesisConfig_validate genesis' = Ok () → init_chain blake3 s' genesis' = Some (s', Ok (AlreadyInitialized 0))
    | Ok (AlreadyInitialized _) => False
    | Err e => tip s' = Ok None ∧
        match e with NStorage e => write_error e | NCore (CoreValidator _) | NSerialization _ => True | _ => False end
    end.
Proof.
  intros He Hval Haddr Hclean. destruct (init_chain_inv s genesis) as (s' & r & Hr & Hpost); [done..|].
  exists s', r. split; [done|]. destruct r as [[h n|]|e]; [|done..].
  destruct Hpost as (Hn & block & A & HC & Hh & Hc & HA & I). split_and!; [done| | | |].
  - rewrite (tip_holds _ _ HC). cbn. by rewrite Hh.
  - eexists. split; [done|]. by apply genesis_linked.
  - exists block, A. split_and!; [by eapply genesis_read|done..].
  - intros genesis' Hval'. unfold init_chain. rewrite Hval'. cbn [map_err].
    rewrite (latest_height_holds _ _ HC). cbn. by rewrite Hh.
Qed.
End boot.
