(* ===== verification/NetService.v ===== *)
(** * The network service ([lemma-network/src/messages.rs], [config.rs],
      [error.rs], [peer.rs], [gossip.rs], [discovery.rs], [service.rs])

    Messages and their bounds, the configuration, peer scores, and the handlers
    of the service loop.  A handler works on the peer table and the bounded event
    queue and lists the calls it makes on the swarm, in order.  Peer identities
    and response channels are numbers, a multi-address is its list of components,
    times are arguments. *)
From stdpp Require Import strings.
From S2P Require Import Prelude CoreTypes DagBlock Fee Transaction Db.

Notation PeerId := N (only parsing).
Notation Channel := N (only parsing).

(** A component of a multi-address: [/p2p/<peer-id>], or any other, by its text. *)
Inductive Protocol := P2p (peer : PeerId) | OtherProtocol (text : string).
Notation Multiaddr := (list Protocol) (only parsing).

#[export] Instance Protocol_eq_dec : EqDecision Protocol.
Proof. solve_decision. Defined.

(** ** [config.rs] *)

Definition TOPIC_BLOCKS : string := "lemma/blocks/1".
Definition TOPIC_DAG : string := "lemma/dag/1".
Definition TOPIC_TX : string := "lemma/tx/1".
Definition TOPIC_BATCH : string := "lemma/batch/1".
Definition TOPIC_COMMIT_ACK : string := "lemma/commit-ack/1".

Definition DEFAULT_MAX_RANGE : N := 256.
Definition DEFAULT_MAX_RESPONSE_BYTES : N := 8 * 1024 * 1024.
Definition DEFAULT_MAX_INBOUND_SUBSTREAMS : N := 64.
Definition DEFAULT_MAX_CONNECTIONS_OUT : N := 50.
Definition DEFAULT_MAX_CONNECTIONS_IN : N := 50.
(** Durations in milliseconds. *)
Definition DEFAULT_REQUEST_TIMEOUT : N := 30000.
Definition DEFAULT_IDLE_TIMEOUT : N := 60000.
Definition DEFAULT_GOSSIP_HEARTBEAT : N := 1000.
Definition DEFAULT_SNAPSHOT_INTERVAL : N := 0.
Definition DEFAULT_TESTNET_SNAPSHOT_INTERVAL : N := 1000.

Inductive ConfigError :=
  | ZeroMaxRange | ZeroMaxResponseBytes | ZeroMaxInboundSubstreams | ZeroMaxConnectionsOut | ZeroMaxConnectionsIn
  | ZeroRequestTimeout | ZeroIdleTimeout | ZeroGossipHeartbeat | EmptyListenAddrs.

Record NetworkConfig := {
  listen_addrs : list Multiaddr;
  bootstrap_peers : list Multiaddr;
  max_range : N;
  max_response_bytes : N;
  max_inbound_substreams : N;
  max_connections_out : N;
  max_connections_in : N;
  request_timeout : N;
  idle_timeout : N;
  gossip_heartbeat : N;
  snapshot_interval : N;
}.

Definition NetworkConfig_default : NetworkConfig := {|
  listen_addrs := [[OtherProtocol "ip4/0.0.0.0"; OtherProtocol "tcp/0"]];
  bootstrap_peers := [];
  max_range := DEFAULT_MAX_RANGE;
  max_response_bytes := DEFAULT_MAX_RESPONSE_BYTES;
  max_inbound_substreams := DEFAULT_MAX_INBOUND_SUBSTREAMS;
  max_connections_out := DEFAULT_MAX_CONNECTIONS_OUT;
  max_connections_in := DEFAULT_MAX_CONNECTIONS_IN;
  request_timeout := DEFAULT_REQUEST_TIMEOUT;
  idle_timeout := DEFAULT_IDLE_TIMEOUT;
  gossip_heartbeat := DEFAULT_GOSSIP_HEARTBEAT;
  snapshot_interval := DEFAULT_SNAPSHOT_INTERVAL;
|}.

Definition NetworkConfig_testnet : NetworkConfig :=
  let d := NetworkConfig_default in {|
  listen_addrs := [[OtherProtocol "ip4/0.0.0.0"; OtherProtocol "tcp/30303"]];
  bootstrap_peers := bootstrap_peers d;
  max_range := max_range d;
  max_response_bytes := max_response_bytes d;
  max_inbound_substreams := max_inbound_substreams d;
  max_connections_out := max_connections_out d;
  max_connections_in := max_connections_in d;
  request_timeout := request_timeout d;
  idle_timeout := idle_timeout d;
  gossip_heartbeat := gossip_heartbeat d;
  snapshot_interval := DEFAULT_TESTNET_SNAPSHOT_INTERVAL;
|}.

Definition NetworkConfig_validate (self : NetworkConfig) : result ConfigError () :=
  if max_range self =? 0 then Err ZeroMaxRange else
  if max_response_bytes self =? 0 then Err ZeroMaxResponseBytes else
  if max_inbound_substreams self =? 0 then Err ZeroMaxInboundSubstreams else
  if max_connections_out self =? 0 then Err ZeroMaxConnectionsOut else
  if max_connections_in self =? 0 then Err ZeroMaxConnectionsIn else
  if request_timeout self =? 0 then Err ZeroRequestTimeout else
  if idle_timeout self =? 0 then Err ZeroIdleTimeout else
  if gossip_heartbeat self =? 0 then Err ZeroGossipHeartbeat else
  if bool_decide (listen_addrs self = []) then Err EmptyListenAddrs else
  Ok ().

Definition snapshots_enabled (self : NetworkConfig) : bool := 0 <? snapshot_interval self.

(** ** [messages.rs] *)

Definition MAX_GOSSIP_DECODE_BYTES : N := 1024 * 1024.

(** A decoding error carries the size where the guard fired, else the decoder's text. *)
Inductive MessageError :=
  | InvertedRange (from to : N)
  | RangeTooWide (got max : N)
  | Encoding (reason : string)
  | Decoding (reason : N + string).

Record RangeRequest := { from_height : N; to_height : N }.

Definition RangeRequest_width (self : RangeRequest) : option N := checked_sub (to_height self) (from_height self).
Definition RangeRequest_validate (self : RangeRequest) (max_range : N) : result MessageError () :=
  width ← ok_or (InvertedRange (from_height self) (to_height self)) (checked_sub (to_height self) (from_height self));
  if max_range <? width then Err (RangeTooWide width max_range) else Ok ().

Record RangeResponse := { resp_blocks : list Block }.
Record BatchFetchResponse := { resp_digest : Hash; resp_bytes : option bytes }.
Definition BATCH_FETCH_MAX_BYTES : N := 1024 * 1024.

Inductive GossipMessage :=
  | NewBlock (block : Block)
  | NewTransaction (tx : Transaction) (sender_pubkey : ConsensusKey)
  | DagProposal (bytes : bytes)
  | TxBatch (bytes : bytes)
  | CommitAck (bytes : bytes).

Definition GossipMessage_topic (self : GossipMessage) : string :=
  match self with
  | NewBlock _ => TOPIC_BLOCKS
  | NewTransaction _ _ => TOPIC_TX
  | DagProposal _ => TOPIC_DAG
  | TxBatch _ => TOPIC_BATCH
  | CommitAck _ => TOPIC_COMMIT_ACK
  end.

Definition len (b : bytes) : N := N.of_nat (length b).

(** ** [error.rs] *)

Inductive NetworkError :=
  | NetInvalidBlock (peer : PeerId) (height : N)
  | NetInvalidQuorumCert (height : N)
  | NetInvalidStateChunk (root : Hash)
  | ResponseTooLarge (got max : N)
  | NetRangeTooWide (got max : N)
  | Expired (height : N)
  | Equivocation (height : N) (conflicting_cert : QuorumCert)
  | NetTimeout (peer : PeerId)
  | Transport (reason : string)
  | Subscribe (topic : string)
  | Publish (topic reason : string)
  | NetInvalidMessage (peer : PeerId) (reason : MessageError).

Definition is_attack_signal (self : NetworkError) : bool := match self with Equivocation _ _ => true | _ => false end.
Definition is_peer_misbehaviour (self : NetworkError) : bool :=
  match self with
  | NetInvalidBlock _ _ | NetInvalidQuorumCert _ | NetInvalidStateChunk _ | NetInvalidMessage _ _ | Equivocation _ _ => true
  | _ => false
  end.
Definition is_bounds_violation (self : NetworkError) : bool :=
  match self with ResponseTooLarge _ _ | NetRangeTooWide _ _ => true | _ => false end.

(** ** [peer.rs].  Scores are whole numbers of small magnitude, which [f64] adds
    exactly, so they are integers here; times are arguments. *)

Definition INITIAL_APP_SCORE : Z := 0.
Definition MAX_APP_SCORE : Z := 100.
Definition MIN_APP_SCORE : Z := -100.
Definition DEFAULT_GRAYLIST_THRESHOLD : Z := -20.

Inductive PeerEvent := InvalidBlock | InvalidStateChunk | InvalidQuorumCert | InvalidMessage | ValidBlock | PeerTimeout.

Definition PeerEvent_delta (self : PeerEvent) : Z :=
  match self with
  | InvalidBlock => -10
  | InvalidStateChunk => -10
  | InvalidQuorumCert => -20
  | InvalidMessage => -5
  | ValidBlock => 1
  | PeerTimeout => -1
  end.
Definition is_misbehaviour (self : PeerEvent) : bool :=
  match self with InvalidBlock | InvalidStateChunk | InvalidQuorumCert | InvalidMessage => true | _ => false end.
Definition is_penalty (self : PeerEvent) : bool := (PeerEvent_delta self <? 0)%Z.

Record PeerInfo := { addresses : list Multiaddr; app_score : Z; connected : bool; first_seen : N; last_seen : N }.

Definition PeerInfo_new (now : N) : PeerInfo :=
  {| addresses := []; app_score := INITIAL_APP_SCORE; connected := false; first_seen := now; last_seen := now |}.
Definition apply_delta (delta : Z) (now : N) (self : PeerInfo) : PeerInfo :=
  {| addresses := addresses self; app_score := Z.max MIN_APP_SCORE (Z.min MAX_APP_SCORE (app_score self + delta));
     connected := connected self; first_seen := first_seen self; last_seen := now |}.

Record PeerTable := { peers : gmap N PeerInfo; graylist_threshold : Z }.

Definition PeerTable_new : PeerTable := {| peers := ∅; graylist_threshold := DEFAULT_GRAYLIST_THRESHOLD |}.
Definition with_graylist_threshold (t : Z) : PeerTable := {| peers := ∅; graylist_threshold := t |}.
Definition set_peers (m : gmap N PeerInfo) (t : PeerTable) : PeerTable := {| peers := m; graylist_threshold := graylist_threshold t |}.

Definition add_peer (self : PeerTable) (peer now : N) : PeerTable :=
  match peers self !! peer with
  | Some _ => self
  | None => set_peers (<[peer := PeerInfo_new now]> (peers self)) self
  end.
Definition remove_peer (self : PeerTable) (peer : N) : PeerTable * option PeerInfo :=
  (set_peers (delete peer (peers self)) self, peers self !! peer).
Definition set_connected (c : bool) (p : PeerInfo) : PeerInfo :=
  {| addresses := addresses p; app_score := app_score p; connected := c; first_seen := first_seen p; last_seen := last_seen p |}.
Definition mark_connected (self : PeerTable) (peer : N) : PeerTable := set_peers (alter (set_connected true) peer (peers self)) self.
Definition mark_disconnected (self : PeerTable) (peer : N) : PeerTable := set_peers (alter (set_connected false) peer (peers self)) self.
Definition push_address (addr : Multiaddr) (p : PeerInfo) : PeerInfo :=
  if bool_decide (addr ∈ addresses p) then p
  else {| addresses := addresses p ++ [addr]; app_score := app_score p; connected := connected p; first_seen := first_seen p;
          last_seen := last_seen p |}.
Definition add_address (self : PeerTable) (peer : PeerId) (addr : Multiaddr) : PeerTable := set_peers (alter (push_address addr) peer (peers self)) self.
Definition record_event (self : PeerTable) (peer : N) (event : PeerEvent) (now : N) : PeerTable :=
  set_peers (alter (apply_delta (PeerEvent_delta event) now) peer (peers self)) self.
Definition peer_score (self : PeerTable) (peer : N) : option Z := app_score <$> peers self !! peer.
Definition is_graylisted (self : PeerTable) (peer : N) : bool :=
  match peers self !! peer with Some p => (app_score p <? graylist_threshold self)%Z | None => false end.

Definition connected_peers (self : PeerTable) : gmap N PeerInfo := filter (λ p, connected p.2 = true) (peers self).
Definition graylisted_peers (self : PeerTable) : gmap N PeerInfo := filter (λ p, (app_score p.2 < graylist_threshold self)%Z) (peers self).
Definition scores_to_apply (self : PeerTable) : gmap N Z := app_score <$> peers self.

(** ** [discovery.rs] *)

Inductive MdnsEvent := Discovered (found : list (PeerId * Multiaddr)) | MdnsExpired (gone : list (PeerId * Multiaddr)).

Definition discover_step (now : N) (st : PeerTable * list PeerId) (p : PeerId * Multiaddr) : PeerTable * list PeerId :=
  let '(table, newly_added) := st in
  let is_new := bool_decide (peers table !! p.1 = None) in
  (add_address (add_peer table p.1 now) p.1 p.2, if is_new then newly_added ++ [p.1] else newly_added).
Definition handle_mdns_event (event : MdnsEvent) (table : PeerTable) (now : N) : PeerTable * list PeerId :=
  match event with
  | Discovered found => foldl (discover_step now) (table, []) found
  | MdnsExpired _ => (table, [])
  end.

Inductive KadEvent :=
  | RoutingUpdated (peer : PeerId) (addrs : list Multiaddr)
  | RoutablePeer (peer : PeerId) (addr : Multiaddr)
  | PendingRoutablePeer (peer : PeerId) (addr : Multiaddr)
  | UnroutablePeer (peer : PeerId)
  | OtherKadEvent.

Definition handle_kademlia_event (event : KadEvent) (table : PeerTable) (now : N) : PeerTable :=
  match event with
  | RoutingUpdated peer addrs => foldl (λ t a, add_address t peer a) (add_peer table peer now) addrs
  | RoutablePeer peer addr => add_address (add_peer table peer now) peer addr
  | PendingRoutablePeer peer addr => add_address (add_peer table peer now) peer addr
  | UnroutablePeer _ => table
  | OtherKadEvent => table
  end.

Definition peer_id_from_multiaddr (addr : Multiaddr) : option PeerId :=
  head (omap (λ proto, match proto with P2p peer => Some peer | _ => None end) addr).
Definition parse_bootstrap_peers (addrs : list Multiaddr) : list (PeerId * Multiaddr) :=
  omap (λ addr, (λ peer, (peer, addr)) <$> peer_id_from_multiaddr addr) addrs.

(** ** [service.rs] *)

Definition COMMAND_CHANNEL_CAPACITY : nat := 256.
Definition EVENT_CHANNEL_CAPACITY : nat := 256.

Inductive NetworkCommand :=
  | BroadcastBlock (block : Block)
  | BroadcastTransaction (tx : Transaction) (sender_pubkey : ConsensusKey)
  | BroadcastDagProposal (bytes : bytes)
  | BroadcastBatch (bytes : bytes)
  | BroadcastCommitAck (bytes : bytes)
  | RequestRange (peer : PeerId) (request : RangeRequest)
  | SendRangeResponse (channel : Channel) (response : RangeResponse)
  | RequestBatchFetch (peer : PeerId) (digest : Hash)
  | SendBatchFetchResponse (channel : Channel) (response : BatchFetchResponse)
  | Dial (addr : Multiaddr)
  | ReportPeer (peer : PeerId) (event : PeerEvent).

Inductive NetworkEvent :=
  | BlockReceived (from : PeerId) (block : Block)
  | TransactionReceived (from : PeerId) (tx : Transaction) (sender_pubkey : ConsensusKey)
  | RangeRequestReceived (from : PeerId) (request : RangeRequest) (channel : Channel)
  | DagProposalReceived (from : PeerId) (bytes : bytes)
  | BatchReceived (from : PeerId) (bytes : bytes)
  | BatchFetchRequestReceived (from : PeerId) (digest : Hash) (channel : Channel)
  | BatchFetchResponseReceived (from : PeerId) (digest : Hash) (batch_bytes : option bytes)
  | CommitAckReceived (from : PeerId) (bytes : bytes)
  | PeerConnected (peer : PeerId)
  | PeerDisconnected (peer : PeerId)
  | ListeningOn (addr : Multiaddr).

(** Calls on the swarm. *)
Inductive SwarmCall :=
  | CallPublish (topic : string) (bytes : bytes)
  | CallRequest (peer : PeerId) (request : RangeRequest)
  | CallRespond (channel : Channel) (response : RangeResponse)
  | CallBatchRequest (peer : PeerId) (digest : Hash)
  | CallBatchRespond (channel : Channel) (response : BatchFetchResponse)
  | CallDial (addr : Multiaddr)
  | CallSetScore (peer : PeerId) (score : Z)
  | CallKadAddAddress (peer : PeerId) (addr : Multiaddr).

Inductive RequestResponse (Req Resp : Type) := MsgRequest (request : Req) (channel : Channel) | MsgResponse (response : Resp).
Arguments MsgRequest {Req Resp}.
Arguments MsgResponse {Req Resp}.

Inductive SwarmEvent :=
  | GossipReceived (source : PeerId) (data : bytes)
  | SyncMessage (peer : PeerId) (message : RequestResponse RangeRequest RangeResponse)
  | SyncOutboundFailure (peer : PeerId)
  | BatchFetchMessage (peer : PeerId) (message : RequestResponse Hash BatchFetchResponse)
  | BatchFetchOutboundFailure (peer : PeerId)
  | KademliaEvent (event : KadEvent)
  | Mdns (event : MdnsEvent)
  | IdentifyReceived (peer : PeerId) (addrs : list Multiaddr)
  | ConnectionEstablished (peer : PeerId)
  | ConnectionClosed (peer : PeerId) (num_established : N)
  | NewListenAddr (addr : Multiaddr)
  | OtherSwarmEvent.

Record NetworkService := {
  ns_peers : PeerTable;
  ns_events : list NetworkEvent;
  ns_calls : list SwarmCall;
}.

Definition ns_set_peers (t : PeerTable) (s : NetworkService) : NetworkService :=
  {| ns_peers := t; ns_events := ns_events s; ns_calls := ns_calls s |}.
Definition call (c : SwarmCall) (s : NetworkService) : NetworkService :=
  {| ns_peers := ns_peers s; ns_events := ns_events s; ns_calls := ns_calls s ++ [c] |}.

(** [try_send] on the bounded channel: a full channel drops the event. *)
Definition NetworkService_emit (e : NetworkEvent) (s : NetworkService) : NetworkService :=
  if (length (ns_events s) <? EVENT_CHANNEL_CAPACITY)%nat
  then {| ns_peers := ns_peers s; ns_events := ns_events s ++ [e]; ns_calls := ns_calls s |} else s.

Definition apply_peer_score (peer : PeerId) (s : NetworkService) : NetworkService :=
  match peer_score (ns_peers s) peer with Some score => call (CallSetScore peer score) s | None => s end.
Definition score_event (peer : PeerId) (event : PeerEvent) (now : N) (s : NetworkService) : NetworkService :=
  apply_peer_score peer (ns_set_peers (record_event (ns_peers s) peer event now) s).

Section service.
Context `{!Codec GossipMessage} (bincode_size : RangeResponse → result string N).

Definition GossipMessage_encode (self : GossipMessage) : result MessageError bytes := map_err Encoding (serialize self).
Definition GossipMessage_decode (bytes : bytes) : result MessageError GossipMessage :=
  if MAX_GOSSIP_DECODE_BYTES <? len bytes then Err (Decoding (inl (len bytes))) else
  map_err (λ e, Decoding (inr e)) (deserialize bytes).

(** A size that cannot be computed counts as the largest [usize]. *)
Definition RangeResponse_validate_size (self : RangeResponse) (max_bytes : N) : result NetworkError () :=
  let size := match bincode_size self with Ok s => N.min s u64_max | Err _ => u64_max end in
  if max_bytes <? size then Err (ResponseTooLarge size max_bytes) else Ok ().

(** [gossip.rs] *)
Definition decode_incoming (peer : PeerId) (data : bytes) : result NetworkError GossipMessage :=
  map_err (NetInvalidMessage peer) (GossipMessage_decode data).

(** The topic is the message's own: [for_message] finds it among the five. *)
Definition gossip_publish (msg : GossipMessage) (s : NetworkService) : NetworkService :=
  match GossipMessage_encode msg with
  | Err _ => s
  | Ok bytes => call (CallPublish (GossipMessage_topic msg) bytes) s
  end.

Definition handle_gossip_message (from : PeerId) (data : bytes) (now : N) (s : NetworkService) : NetworkService :=
  match decode_incoming from data with
  | Ok (NewBlock block) => NetworkService_emit (BlockReceived from block) (score_event from ValidBlock now s)
  | Ok (NewTransaction tx sender_pubkey) => NetworkService_emit (TransactionReceived from tx sender_pubkey) s
  | Ok (DagProposal bytes) => NetworkService_emit (DagProposalReceived from bytes) s
  | Ok (TxBatch bytes) => NetworkService_emit (BatchReceived from bytes) s
  | Ok (CommitAck bytes) => NetworkService_emit (CommitAckReceived from bytes) s
  | Err _ => score_event from InvalidMessage now s
  end.

Definition handle_batch_fetch_message (from : PeerId) (message : RequestResponse Hash BatchFetchResponse) (now : N)
    (s : NetworkService) : NetworkService :=
  match message with
  | MsgRequest digest channel => NetworkService_emit (BatchFetchRequestReceived from digest channel) s
  | MsgResponse response =>
      if match resp_bytes response with Some bytes => BATCH_FETCH_MAX_BYTES <? len bytes | None => false end
      then score_event from InvalidMessage now s
      else NetworkService_emit (BatchFetchResponseReceived from (resp_digest response) (resp_bytes response)) s
  end.

Definition handle_sync_message (from : PeerId) (message : RequestResponse RangeRequest RangeResponse) (now : N)
    (s : NetworkService) : NetworkService :=
  match message with
  | MsgRequest request channel =>
      match RangeRequest_validate request DEFAULT_MAX_RANGE with
      | Err _ => score_event from InvalidMessage now s
      | Ok _ => NetworkService_emit (RangeRequestReceived from request channel) s
      end
  | MsgResponse response =>
      match RangeResponse_validate_size response DEFAULT_MAX_RESPONSE_BYTES with
      | Err _ => score_event from InvalidMessage now s
      | Ok _ => foldl (λ s block, NetworkService_emit (BlockReceived from block) s) (score_event from ValidBlock now s) (resp_blocks response)
      end
  end.

Definition identify_step (peer : PeerId) (now : N) (s : NetworkService) (addr : Multiaddr) : NetworkService :=
  call (CallKadAddAddress peer addr) (ns_set_peers (add_address (add_peer (ns_peers s) peer now) peer addr) s).

(** Dial every address of the newly discovered peers. *)
Definition dial_new (s : NetworkService) (peer : PeerId) : NetworkService :=
  match peers (ns_peers s) !! peer with
  | Some info => foldl (λ s addr, call (CallDial addr) s) s (addresses info)
  | None => s
  end.

Definition handle_swarm_event (event : SwarmEvent) (now : N) (s : NetworkService) : NetworkService :=
  match event with
  | GossipReceived source data => handle_gossip_message source data now s
  | SyncMessage peer message => handle_sync_message peer message now s
  | SyncOutboundFailure peer => score_event peer PeerTimeout now s
  | BatchFetchMessage peer message => handle_batch_fetch_message peer message now s
  | BatchFetchOutboundFailure _ => s
  | KademliaEvent event => ns_set_peers (handle_kademlia_event event (ns_peers s) now) s
  | Mdns event =>
      let '(table, newly_discovered) := handle_mdns_event event (ns_peers s) now in
      foldl dial_new (ns_set_peers table s) newly_discovered
  | IdentifyReceived peer addrs => foldl (identify_step peer now) s addrs
  | ConnectionEstablished peer =>
      NetworkService_emit (PeerConnected peer) (ns_set_peers (mark_connected (add_peer (ns_peers s) peer now) peer) s)
  | ConnectionClosed peer num_established =>
      if num_established =? 0 then NetworkService_emit (PeerDisconnected peer) (ns_set_peers (mark_disconnected (ns_peers s) peer) s) else s
  | NewListenAddr addr => NetworkService_emit (ListeningOn addr) s
  | OtherSwarmEvent => s
  end.

Definition broadcast_bytes (msg : bytes → GossipMessage) (bytes : bytes) (s : NetworkService) : NetworkService :=
  if MAX_GOSSIP_DECODE_BYTES <? len bytes then s else gossip_publish (msg bytes) s.

Definition handle_command (cmd : NetworkCommand) (now : N) (s : NetworkService) : NetworkService :=
  match cmd with
  | BroadcastBlock block => gossip_publish (NewBlock block) s
  | BroadcastTransaction tx sender_pubkey => gossip_publish (NewTransaction tx sender_pubkey) s
  | BroadcastDagProposal bytes => broadcast_bytes DagProposal bytes s
  | BroadcastBatch bytes => broadcast_bytes TxBatch bytes s
  | BroadcastCommitAck bytes => broadcast_bytes CommitAck bytes s
  | RequestRange peer request => call (CallRequest peer request) s
  | SendRangeResponse channel response => call (CallRespond channel response) s
  | RequestBatchFetch peer digest => call (CallBatchRequest peer digest) s
  | SendBatchFetchResponse channel response => call (CallBatchRespond channel response) s
  | Dial addr => call (CallDial addr) s
  | ReportPeer peer event => score_event peer event now s
  end.

(** Starting: listen, subscribe, and dial the bootstrap peers. *)
Definition bootstrap_calls (config : NetworkConfig) : list SwarmCall :=
  mjoin ((λ '(peer, addr), [CallKadAddAddress peer addr; CallDial addr]) <$> parse_bootstrap_peers (bootstrap_peers config)).
Definition NetworkService_new (config : NetworkConfig) : NetworkService :=
  {| ns_peers := PeerTable_new; ns_events := []; ns_calls := bootstrap_calls config |}.
End service.
