(* ===== verification/NetServiceSpec.v ===== *)
(** * What the network service guarantees

    The scores of peers, the scores given to the gossip layer and the events for the
    node as functions of the service's history; blocks of a range response that find
    the queue full are lost; and the size guard on outgoing messages is not the one
    that receivers apply. *)
From stdpp Require Import strings.
From S2P Require Import Prelude CoreTypes DagBlock Fee Transaction Db NetService.

Section service.
Context `{!Codec GossipMessage} (bincode_size : RangeResponse → result string N).

(** ** What a run of the service is held to *)

(** The inputs of the service: what the swarm reports, what the node commands, and the
    node taking an event. *)
Inductive Input :=
  | InEvent (event : SwarmEvent) (now : N)
  | InCommand (cmd : NetworkCommand) (now : N)
  | InTake.
Definition service_step (s : NetworkService) (i : Input) : NetworkService :=
  match i with
  | InEvent event now => handle_swarm_event bincode_size event now s
  | InCommand cmd now => handle_command cmd now s
  | InTake => {| ns_peers := ns_peers s; ns_events := tail (ns_events s); ns_calls := ns_calls s |}
  end.
Definition service_run (config : NetworkConfig) (h : list Input) : NetworkService :=
  foldl service_step (NetworkService_new config) h.

(** The peers an input makes known. *)
Definition introduced (i : Input) : list N :=
  match i with
  | InEvent (ConnectionEstablished p) _ => [p]
  | InEvent (KademliaEvent (RoutingUpdated p _ | RoutablePeer p _ | PendingRoutablePeer p _)) _ => [p]
  | InEvent (IdentifyReceived p addrs) _ => if bool_decide (addrs = []) then [] else [p]
  | InEvent (Mdns (Discovered found)) _ => found.*1
  | _ => []
  end.
Definition readable (data : bytes) : option GossipMessage :=
  if 1048576 <? len data then None else match deserialize data with Ok m => Some m | Err _ => None end.
Definition fits (resp : RangeResponse) : bool := match bincode_size resp with Ok n => n <=? 8388608 | Err _ => false end.
(** The points an input earns a peer. *)
Definition verdict (i : Input) : option (N * Z) :=
  match i with
  | InEvent (GossipReceived p data) _ =>
      match readable data with None => Some (p, -5)%Z | Some (NewBlock _) => Some (p, 1)%Z | Some _ => None end
  | InEvent (SyncMessage p (MsgRequest r _)) _ =>
      if (from_height r <=? to_height r) && (to_height r <=? from_height r + 256) then None else Some (p, -5)%Z
  | InEvent (SyncMessage p (MsgResponse r)) _ => Some (p, if fits r then 1 else -5)%Z
  | InEvent (SyncOutboundFailure p) _ => Some (p, -1)%Z
  | InEvent (BatchFetchMessage p (MsgResponse r)) _ => b ← resp_bytes r; if 1048576 <? len b then Some (p, -5)%Z else None
  | InCommand (ReportPeer p e) _ =>
      Some (p, match e with InvalidBlock | InvalidStateChunk => -10 | InvalidQuorumCert => -20 | InvalidMessage => -5
               | ValidBlock => 1 | PeerTimeout => -1 end)%Z
  | _ => None
  end.
(** What an input has for the node. *)
Definition delivered (i : Input) : list NetworkEvent :=
  match i with
  | InEvent (GossipReceived p data) _ =>
      match readable data with
      | None => []
      | Some (NewBlock b) => [BlockReceived p b]
      | Some (NewTransaction tx k) => [TransactionReceived p tx k]
      | Some (DagProposal b) => [DagProposalReceived p b]
      | Some (TxBatch b) => [BatchReceived p b]
      | Some (CommitAck b) => [CommitAckReceived p b]
      end
  | InEvent (SyncMessage p (MsgRequest r ch)) _ => match verdict i with Some _ => [] | None => [RangeRequestReceived p r ch] end
  | InEvent (SyncMessage p (MsgResponse r)) _ => if fits r then BlockReceived p <$> resp_blocks r else []
  | InEvent (BatchFetchMessage p (MsgRequest d ch)) _ => [BatchFetchRequestReceived p d ch]
  | InEvent (BatchFetchMessage p (MsgResponse r)) _ =>
      match verdict i with Some _ => [] | None => [BatchFetchResponseReceived p (resp_digest r) (resp_bytes r)] end
  | InEvent (ConnectionEstablished p) _ => [PeerConnected p]
  | InEvent (ConnectionClosed p n) _ => if n =? 0 then [PeerDisconnected p] else []
  | InEvent (NewListenAddr a) _ => [ListeningOn a]
  | _ => []
  end.

(** The score of a peer: 0 when it becomes known, then the sum of its points, kept between
    -100 and 100 all the way; points of an unknown peer are lost. *)
Definition score_after (p : N) (score : option Z) (i : Input) : option Z :=
  let score := if bool_decide (p ∈ introduced i) then Some (default 0%Z score) else score in
  match verdict i with
  | Some (q, d) => if bool_decide (q = p) then (λ x, Z.max (-100) (Z.min 100 (x + d))) <$> score else score
  | None => score
  end.
Definition score_of (h : list Input) (p : N) : option Z := foldl (score_after p) None h.
(** A queue of 256 events, which loses what does not fit. *)
Definition queue_after (q : list NetworkEvent) (i : Input) : list NetworkEvent :=
  match i with InTake => tail q | _ => q ++ take (256 - length q) (delivered i) end.
Definition queued (h : list Input) : list NetworkEvent := foldl queue_after [] h.
(** The score that the gossip layer was given last for a peer. *)
Definition score_given (p : N) (calls : list SwarmCall) : option Z :=
  last (omap (λ c, match c with CallSetScore q x => if bool_decide (q = p) then Some x else None | _ => None end) calls).

(** ** Each input *)

Notation score s p := (peer_score (ns_peers s) p).

(** The gossip layer and the table agree. *)
Definition in_step (s : NetworkService) : Prop :=
  ∀ p, match score_given p (ns_calls s) with Some x => score s p = Some x | None => score s p = None ∨ score s p = Some 0%Z end.
(** A step on the tables, without the queue: what it does to a score and whether the two
    stay in step. *)
Definition scores_by (f : N → option Z → option Z) (s s' : NetworkService) : Prop :=
  (∀ p, score s' p = f p (score s p)) ∧ (in_step s → in_step s').

Lemma score_given_snoc p calls c :
  score_given p (calls ++ [c]) =
    match c with CallSetScore q x => if bool_decide (q = p) then Some x else score_given p calls | _ => score_given p calls end.
Proof.
  unfold score_given. rewrite omap_app. destruct c; cbn; try by rewrite app_nil_r.
  case_bool_decide; [by rewrite last_snoc|by rewrite app_nil_r].
Qed.
Lemma by_refl s s' : ns_peers s' = ns_peers s → ns_calls s' = ns_calls s → scores_by (λ _ x, x) s s'.
Proof. intros E1 E2. unfold scores_by, in_step. by rewrite E1, E2. Qed.
Lemma by_trans f g s1 s2 s3 : scores_by f s1 s2 → scores_by g s2 s3 → scores_by (λ p x, g p (f p x)) s1 s3.
Proof. intros [H1 H2] [H3 H4]. split; [intros p; by rewrite H3, H1|auto]. Qed.
Lemma by_ext f g s s' : (∀ p x, f p x = g p x) → scores_by f s s' → scores_by g s s'.
Proof. intros E [H1 H2]. split; [intros p; by rewrite H1|done]. Qed.
Lemma by_emit e s : scores_by (λ _ x, x) s (NetworkService_emit e s).
Proof. apply by_refl; unfold NetworkService_emit; by destruct (_ <? _)%nat. Qed.
Lemma by_call c s : (∀ p x, c ≠ CallSetScore p x) → scores_by (λ _ x, x) s (call c s).
Proof.
  intros Hc. split; [done|]. intros H p. cbn. rewrite score_given_snoc. specialize (H p). destruct c; try exact H. by destruct (Hc peer score).
Qed.

Definition known (l : list N) (p : N) (x : option Z) : option Z := if bool_decide (p ∈ l) then Some (default 0%Z x) else x.
Lemma score_add t p now q : peer_score (add_peer t p now) q = known [p] q (peer_score t q).
Proof.
  unfold add_peer, peer_score, known. destruct (peers t !! p) eqn:E; cbn.
  - case_bool_decide as H; [|done]. apply list_elem_of_singleton in H as ->. by rewrite E.
  - rewrite lookup_insert. case_bool_decide as H; [apply list_elem_of_singleton in H as ->; by rewrite decide_True, E|].
    rewrite decide_False; [done|]. intros ->. apply H, list_elem_of_singleton. done.
Qed.
Lemma score_alter t p f q : (∀ i, app_score (f i) = app_score i) → peer_score (set_peers (alter f p (peers t)) t) q = peer_score t q.
Proof. intros Hf. unfold peer_score. cbn. rewrite lookup_alter. case_decide; [subst|done]. destruct (peers t !! q); cbn; [by rewrite Hf|done]. Qed.
Lemma score_address t p a q : peer_score (add_address t p a) q = peer_score t q.
Proof. apply score_alter. intros i. unfold push_address. by case_bool_decide. Qed.
Lemma known_nil p x : known [] p x = x.
Proof. done. Qed.
Lemma known_app l1 l2 p x : known l2 p (known l1 p x) = known (l1 ++ l2) p x.
Proof. unfold known. repeat case_bool_decide; set_solver. Qed.
Lemma known_same l p x : known l p (known l p x) = known l p x.
Proof. unfold known. by repeat case_bool_decide. Qed.
Lemma score_discovered now l : ∀ t new q, peer_score (foldl (discover_step now) (t, new) l).1 q = known l.*1 q (peer_score t q).
Proof.
  induction l as [|[p a] l IH]; intros t new q; cbn [foldl]; [done|]. unfold discover_step at 2. cbn. rewrite IH, score_address, score_add.
  apply (known_app [p]).
Qed.
Lemma score_kad event t now q : peer_score (handle_kademlia_event event t now) q = known (introduced (InEvent (KademliaEvent event) now)) q (peer_score t q).
Proof.
  destruct event as [p addrs|p a|p a| |]; cbn; try done; [|by rewrite score_address, score_add..].
  rewrite <-(score_add t p now). generalize (add_peer t p now). induction addrs as [|a addrs IH]; intros t'; cbn; [done|].
  by rewrite IH, score_address.
Qed.

Lemma by_table l t s : (∀ p, peer_score t p = known l p (score s p)) → scores_by (known l) s (ns_set_peers t s).
Proof.
  intros Ht. split; [done|]. intros H p. cbn. rewrite Ht. specialize (H p). unfold known. case_bool_decide; [|done].
  destruct (score_given _ _); [by rewrite H|]. right. by destruct H as [->| ->].
Qed.
Lemma by_score p e now s :
  scores_by (λ q x, if bool_decide (p = q) then (λ x, Z.max (-100) (Z.min 100 (x + PeerEvent_delta e))) <$> x else x) s (score_event p e now s).
Proof.
  assert (∀ q, peer_score (record_event (ns_peers s) p e now) q =
    if bool_decide (p = q) then (λ x, Z.max (-100) (Z.min 100 (x + PeerEvent_delta e))) <$> score s q else score s q) as Ht.
  { intros q. unfold peer_score, record_event. cbn. rewrite lookup_alter. case_bool_decide; case_decide; try done; subst. by destruct (peers (ns_peers s) !! q). }
  unfold score_event, apply_peer_score. cbn [ns_peers ns_set_peers]. split.
  - intros q. rewrite <-Ht. by destruct (peer_score (record_event _ _ _ _) p).
  - intros H q. specialize (H q). specialize (Ht q). case_bool_decide as E.
    + subst q. destruct (score s p) as [x|] eqn:Ex; cbn in Ht; rewrite Ht; cbn; [|rewrite Ht; by destruct (score_given _ _); [|left]].
      rewrite score_given_snoc, bool_decide_eq_true_2 by done. by rewrite Ht.
    + destruct (peer_score (record_event _ _ _ _) p); cbn; [rewrite score_given_snoc, bool_decide_eq_false_2 by done|]; by rewrite Ht.
Qed.
Lemma by_foldl {X} (f : NetworkService → X → NetworkService) l s :
  (∀ s x, scores_by (λ _ x, x) s (f s x)) → scores_by (λ _ x, x) s (foldl f s l).
Proof. intros Hf. revert s. induction l as [|x l IH]; intros s; [by apply by_refl|]. apply (by_trans _ _ _ _ _ (Hf s x) (IH _)). Qed.
Lemma by_publish msg s : scores_by (λ _ x, x) s (gossip_publish msg s).
Proof. unfold gossip_publish. destruct (GossipMessage_encode msg); [by apply by_call|by apply by_refl]. Qed.
Lemma by_identify p now addrs s :
  scores_by (known (introduced (InEvent (IdentifyReceived p addrs) now))) s (foldl (identify_step p now) s addrs).
Proof.
  assert (∀ a s, scores_by (known [p]) s (identify_step p now s a)) as Hone.
  { intros a s1. eapply by_trans with (g := λ _ x, x); [apply (by_table [p])|by apply by_call].
    intros q. by rewrite score_address, score_add. }
  destruct addrs as [|a addrs]; [by apply by_refl|]. cbn [introduced]. rewrite bool_decide_eq_false_2 by done.
  revert a s. induction addrs as [|b addrs IH]; intros a s; [apply Hone|].
  eapply by_ext; [|apply (by_trans _ _ _ _ _ (Hone a s) (IH b _))]. intros q x. apply known_same.
Qed.

(** *** The guards, as the specification has them *)

Lemma range_valid r ch p now :
  RangeRequest_validate r DEFAULT_MAX_RANGE = Ok () ∧ verdict (InEvent (SyncMessage p (MsgRequest r ch)) now) = None ∨
  (∃ e, RangeRequest_validate r DEFAULT_MAX_RANGE = Err e) ∧ verdict (InEvent (SyncMessage p (MsgRequest r ch)) now) = Some (p, -5)%Z.
Proof.
  unfold RangeRequest_validate, checked_sub, DEFAULT_MAX_RANGE. cbn [verdict].
  destruct (N.leb_spec (from_height r) (to_height r)); cbn; [|right; by eauto].
  destruct (N.ltb_spec 256 (to_height r - from_height r)), (N.leb_spec (to_height r) (from_height r + 256)); try lia; [right; by eauto|by left].
Qed.
Lemma response_fits r : match RangeResponse_validate_size bincode_size r DEFAULT_MAX_RESPONSE_BYTES with Ok _ => fits r = true | Err _ => fits r = false end.
Proof.
  unfold RangeResponse_validate_size, fits. change DEFAULT_MAX_RESPONSE_BYTES with 8388608. destruct (bincode_size r) as [n|]; [|done].
  change u64_max with 18446744073709551615. destruct (N.ltb_spec 8388608 (N.min n 18446744073709551615)), (N.leb_spec n 8388608); try done; lia.
Qed.
Lemma decode_readable p data :
  match decode_incoming p data with Ok m => readable data = Some m | Err _ => readable data = None end.
Proof.
  unfold decode_incoming, GossipMessage_decode, readable. change MAX_GOSSIP_DECODE_BYTES with 1048576. destruct (_ <? _); [done|].
  by destruct (deserialize data).
Qed.

(** *** Scores *)

Lemma by_verdict i p e now s : introduced i = [] → verdict i = Some (p, PeerEvent_delta e) →
  scores_by (λ q x, score_after q x i) s (score_event p e now s).
Proof. intros Hi Hv. eapply by_ext, by_score. intros q x. unfold score_after. by rewrite Hi, Hv. Qed.
Lemma by_none i s s' : introduced i = [] → verdict i = None → scores_by (λ _ x, x) s s' → scores_by (λ q x, score_after q x i) s s'.
Proof. intros Hi Hv. apply by_ext. intros q x. unfold score_after. by rewrite Hi, Hv. Qed.
Lemma by_known i s s' : verdict i = None → scores_by (known (introduced i)) s s' → scores_by (λ q x, score_after q x i) s s'.
Proof. intros Hv. apply by_ext. intros q x. unfold score_after, known. by rewrite Hv. Qed.
(** Scored, then delivered. *)
Lemma by_then_emit f s s1 e : scores_by f s s1 → scores_by f s (NetworkService_emit e s1).
Proof. intros H. apply (by_trans _ _ _ _ _ H (by_emit e s1)). Qed.

Lemma gossip_scores p data now s : scores_by (λ q x, score_after q x (InEvent (GossipReceived p data) now)) s (handle_gossip_message p data now s).
Proof.
  unfold handle_gossip_message. pose proof (decode_readable p data) as Hd. destruct (decode_incoming p data) as [[b|tx k|b|b|b]|e].
  - apply by_then_emit, by_verdict; [done|]. cbn. by rewrite Hd.
  - apply by_none; [done|cbn; by rewrite Hd|apply by_emit].
  - apply by_none; [done|cbn; by rewrite Hd|apply by_emit].
  - apply by_none; [done|cbn; by rewrite Hd|apply by_emit].
  - apply by_none; [done|cbn; by rewrite Hd|apply by_emit].
  - apply by_verdict; [done|]. cbn. by rewrite Hd.
Qed.
Lemma sync_scores p msg now s :
  scores_by (λ q x, score_after q x (InEvent (SyncMessage p msg) now)) s (handle_sync_message bincode_size p msg now s).
Proof.
  destruct msg as [r ch|r]; cbn [handle_sync_message].
  - destruct (range_valid r ch p now) as [[-> Hv]|[[e ->] Hv]]; [by apply by_none; [| |apply by_emit]|by apply by_verdict].
  - pose proof (response_fits r) as Hf. destruct (RangeResponse_validate_size _ _ _); [|apply by_verdict; [done|cbn; by rewrite Hf]].
    eapply by_trans with (g := λ _ x, x); [|apply by_foldl; intros; apply by_emit]. apply by_verdict; [done|]. cbn. by rewrite Hf.
Qed.
Lemma batch_scores p msg now s :
  scores_by (λ q x, score_after q x (InEvent (BatchFetchMessage p msg) now)) s (handle_batch_fetch_message p msg now s).
Proof.
  destruct msg as [d ch|r]; cbn [handle_batch_fetch_message]; [by apply by_none; [| |apply by_emit]|].
  change BATCH_FETCH_MAX_BYTES with 1048576.
  destruct (match resp_bytes r with Some _ => _ | None => _ end) eqn:E; [apply by_verdict|apply by_none; [| |apply by_emit]]; try done;
    cbn; destruct (resp_bytes r); cbn; by rewrite ?E.
Qed.
Lemma mdns_scores event now s :
  scores_by (λ q x, score_after q x (InEvent (Mdns event) now)) s (handle_swarm_event bincode_size (Mdns event) now s).
Proof.
  apply by_known; [done|]. cbn [handle_swarm_event].
  assert (∀ q, peer_score (handle_mdns_event event (ns_peers s) now).1 q = known (introduced (InEvent (Mdns event) now)) q (score s q)) as Ht.
  { intros q. destruct event as [found|]; [apply score_discovered|done]. }
  destruct (handle_mdns_event event (ns_peers s) now) as [t l]. cbn [fst] in Ht.
  eapply by_trans with (g := λ _ x, x); [by apply by_table|]. apply by_foldl. intros s' p. unfold dial_new.
  destruct (_ !! p); [|by apply by_refl]. apply by_foldl. intros. by apply by_call.
Qed.
Lemma step_scores s i : scores_by (λ p x, score_after p x i) s (service_step s i).
Proof.
  destruct i as [event now|cmd now|]; cbn [service_step]; [| |by apply by_none; [| |apply by_refl]].
  - destruct event as [p data|p msg|p|p msg|p|event|event|p addrs|p|p n|a|]; cbn [handle_swarm_event].
    + apply gossip_scores.
    + apply sync_scores.
    + by apply by_verdict.
    + apply batch_scores.
    + by apply by_none; [| |apply by_refl].
    + apply by_known; [done|]. apply by_table. intros q. apply score_kad.
    + apply mdns_scores.
    + apply by_known; [done|]. apply by_identify.
    + apply by_known; [done|]. apply by_then_emit, by_table. intros q. unfold mark_connected. rewrite score_alter by (by intros []). apply score_add.
    + apply by_none; [done..|]. destruct (n =? 0); [|by apply by_refl]. apply by_then_emit, (by_table []).
      intros q. unfold mark_disconnected. by rewrite score_alter by (by intros []).
    + apply by_none; [done..|apply by_emit].
    + by apply by_none; [| |apply by_refl].
  - destruct cmd as [b|tx k|b|b|b|p r|ch r|p d|ch r|a|p e]; cbn [handle_command];
      try (by apply by_none; [| |apply by_call]); try (by apply by_none; [| |apply by_publish]).
    1-3: apply by_none; [done..|]; unfold broadcast_bytes; destruct (_ <? _); [by apply by_refl|apply by_publish].
    apply by_verdict; [done|]. by destruct e.
Qed.

(** *** The queue *)

Lemma emit_all from bs s :
  ns_events (foldl (λ s block, NetworkService_emit (BlockReceived from block) s) s bs) =
    ns_events s ++ take (EVENT_CHANNEL_CAPACITY - length (ns_events s)) (BlockReceived from <$> bs).
Proof.
  revert s. induction bs as [|b bs IH]; intros s; cbn [foldl fmap list_fmap]; [by rewrite take_nil, app_nil_r|]. rewrite IH. unfold NetworkService_emit.
  destruct (Nat.ltb_spec (length (ns_events s)) EVENT_CHANNEL_CAPACITY) as [Hlt|Hge]; cbn [ns_events].
  - rewrite length_app, <-(assoc_L (++)). f_equal. cbn [length].
    replace (EVENT_CHANNEL_CAPACITY - length (ns_events s))%nat with (S (EVENT_CHANNEL_CAPACITY - (length (ns_events s) + 1)))%nat by lia.
    done.
  - by replace (EVENT_CHANNEL_CAPACITY - length (ns_events s))%nat with 0%nat by lia.
Qed.

Lemma score_event_events peer event now s : ns_events (score_event peer event now s) = ns_events s.
Proof. unfold score_event, apply_peer_score. by destruct (peer_score _ _). Qed.

Lemma emit_events e s : ns_events (NetworkService_emit e s) = ns_events s ++ take (256 - length (ns_events s)) [e].
Proof.
  unfold NetworkService_emit, EVENT_CHANNEL_CAPACITY. destruct (Nat.ltb_spec (length (ns_events s)) 256) as [H|H]; cbn [ns_events].
  - destruct (256 - length (ns_events s))%nat eqn:E; [lia|]. cbn [take]. by rewrite take_nil.
  - replace (256 - length (ns_events s))%nat with 0%nat by lia. by rewrite app_nil_r.
Qed.
Lemma nothing_delivered (q : list NetworkEvent) n : q = q ++ take n [].
Proof. by rewrite take_nil, app_nil_r. Qed.
Lemma publish_events msg s : ns_events (gossip_publish msg s) = ns_events s.
Proof. unfold gossip_publish. by destruct (GossipMessage_encode msg). Qed.
Lemma foldl_events {X} (f : NetworkService → X → NetworkService) l s :
  (∀ s x, ns_events (f s x) = ns_events s) → ns_events (foldl f s l) = ns_events s.
Proof. intros Hf. revert s. induction l as [|x l IH]; intros s; cbn; [done|]. by rewrite IH, Hf. Qed.
Lemma swarm_queue event now s :
  ns_events (handle_swarm_event bincode_size event now s) =
    ns_events s ++ take (256 - length (ns_events s)) (delivered (InEvent event now)).
Proof.
  destruct event as [p data|p [r ch|r]|p|p [d ch|r]|p|event|event|p addrs|p|p n|a|]; cbn [handle_swarm_event]; try apply nothing_delivered; try apply emit_events.
  - unfold handle_gossip_message. pose proof (decode_readable p data) as Hd. cbn [delivered].
    destruct (decode_incoming p data) as [[b|tx k|b|b|b]|e]; rewrite Hd, ?emit_events, ?score_event_events; try done. apply nothing_delivered.
  - cbn [handle_sync_message delivered]. destruct (range_valid r ch p now) as [[-> Hv]|[[e ->] Hv]]; rewrite Hv; [apply emit_events|].
    rewrite score_event_events. apply nothing_delivered.
  - cbn [handle_sync_message delivered]. pose proof (response_fits r) as Hf. destruct (RangeResponse_validate_size _ _ _); rewrite Hf.
    + by rewrite emit_all, score_event_events.
    + rewrite score_event_events. apply nothing_delivered.
  - rewrite score_event_events. apply nothing_delivered.
  - cbn [handle_batch_fetch_message delivered verdict]. change BATCH_FETCH_MAX_BYTES with 1048576.
    destruct (resp_bytes r) as [b|]; cbn [mbind option_bind]; [|apply emit_events].
    destruct (1048576 <? len b); [rewrite score_event_events; apply nothing_delivered|apply emit_events].
  - destruct (handle_mdns_event event (ns_peers s) now) as [t l]. rewrite foldl_events; [apply nothing_delivered|].
    intros s' p. unfold dial_new. destruct (_ !! p); [|done]. by apply foldl_events.
  - rewrite foldl_events by done. apply nothing_delivered.
  - apply (emit_events (PeerConnected p) (ns_set_peers _ s)).
  - cbn [delivered]. destruct (n =? 0); [apply (emit_events (PeerDisconnected p) (ns_set_peers _ s))|apply nothing_delivered].
Qed.
Lemma step_queue s i : ns_events (service_step s i) = queue_after (ns_events s) i.
Proof.
  destruct i as [event now|cmd now|]; [apply swarm_queue| |done]. cbn [service_step queue_after].
  transitivity (ns_events s); [|destruct cmd; apply nothing_delivered].
  destruct cmd; cbn [handle_command]; try done; try apply publish_events; try apply score_event_events;
    unfold broadcast_bytes; destruct (_ <? _); try done; apply publish_events.
Qed.

(** ** Every run *)

Lemma run_snoc config h i : service_run config (h ++ [i]) = service_step (service_run config h) i.
Proof. unfold service_run. by rewrite foldl_app. Qed.
Lemma new_in_step config : in_step (NetworkService_new config).
Proof.
  intros p. cbn [ns_calls NetworkService_new]. assert (score_given p (bootstrap_calls config) = None) as ->; [|by left]. unfold score_given, bootstrap_calls.
  induction (parse_bootstrap_peers _) as [|[q a] l IH]; [done|exact IH].
Qed.
Lemma run_scores config h : (∀ p, score (service_run config h) p = score_of h p) ∧ in_step (service_run config h).
Proof.
  induction h as [|i h [IH1 IH2]] using rev_ind; [split; [done|apply new_in_step]|].
  destruct (step_scores (service_run config h) i) as [H1 H2]. rewrite run_snoc. split; [|auto].
  intros p. rewrite H1, IH1. unfold score_of. by rewrite foldl_app.
Qed.
Lemma score_of_bounded h p x : score_of h p = Some x → (-100 <= x <= 100)%Z.
Proof.
  revert x. unfold score_of. induction h as [|i h IH] using rev_ind; intros x; [done|]. rewrite foldl_app. cbn.
  destruct (foldl (score_after p) None h) as [y|]; [specialize (IH y eq_refl)|clear IH]; unfold score_after;
    repeat case_match; cbn; intros [= <-]; lia.
Qed.
Lemma queue_bounded h : (length (queued h) <= 256)%nat.
Proof.
  unfold queued. induction h as [|i h IH] using rev_ind; [cbn; lia|]. rewrite foldl_app. cbn.
  destruct i; cbn [queue_after]; [rewrite length_app, length_take; lia..|]. destruct (foldl queue_after [] h); cbn in *; lia.
Qed.


(** ** A range response *)

(** The blocks of a range response reach the node one event each, in order, as
    far as the event queue has room; the rest is dropped, and nothing asks for it
    again.  The queue holds 256 events, while a request that passes validation may
    span 257 blocks: such a response loses its last block even when the queue is
    empty. *)
Theorem range_response_fills_queue from resp now s :
  RangeResponse_validate_size bincode_size resp DEFAULT_MAX_RESPONSE_BYTES = Ok () →
  ns_events (handle_sync_message bincode_size from (MsgResponse resp) now s) =
    ns_events s ++ take (EVENT_CHANNEL_CAPACITY - length (ns_events s)) (BlockReceived from <$> resp_blocks resp) ∧
  RangeRequest_validate {| from_height := 1; to_height := 257 |} DEFAULT_MAX_RANGE = Ok ().
Proof. intros Hv. cbn [handle_sync_message]. rewrite Hv, emit_all, score_event_events. done. Qed.

(** ** The size guard *)

(** A byte list in JSON is an array of numbers: at least one digit for each byte,
    a comma between two, and brackets around. *)
Definition json_arrays : Prop :=
  ∀ b, match serialize (TxBatch b) with Ok out => 2 * len b <= len out | Err _ => True end.

(** The guards on the two sides are not the same.  A batch of more than 512
    KiB and at most 1 MiB passes the check before publishing; encoded, it is more
    than 1 MiB, so every receiver refuses it before parsing and demotes the peer
    that sent it. *)
Theorem published_batch_undecodable b now s out peer :
  json_arrays → len b <= MAX_GOSSIP_DECODE_BYTES → MAX_GOSSIP_DECODE_BYTES < 2 * len b → serialize (TxBatch b) = Ok out →
  handle_command (BroadcastBatch b) now s = call (CallPublish TOPIC_BATCH out) s ∧
  ∀ receiver now', handle_gossip_message peer out now' receiver = score_event peer InvalidMessage now' receiver.
Proof.
  intros Hj Hle Hlt Ho. specialize (Hj b). rewrite Ho in Hj. split.
  - cbn. unfold broadcast_bytes. rewrite (proj2 (N.ltb_ge _ _)) by done. unfold gossip_publish, GossipMessage_encode. by rewrite Ho.
  - intros receiver now'. unfold handle_gossip_message, decode_incoming, GossipMessage_decode.
    by rewrite (proj2 (N.ltb_lt MAX_GOSSIP_DECODE_BYTES (len out))) by lia.
Qed.
End service.
