(* ===== verification/NodeNet.v ===== *)
(** * The network side of the node ([lemma-node/src/network_runner.rs])

    What the node does with each kind of message from a peer.  Commands to the
    network service are values, and whether the service took a request is an
    argument. *)
From stdpp Require Import strings.
From S2P Require Import Prelude CoreTypes StakeAgg DagBlock DagGraph Fee Leader Cert Db Trie TrieRoot Transaction WorldState ChainStore Crypto RateLimit MempoolPolicy Mempool VmState Flux Agent Host NodeExec NodeChain NetService.

(** ** [network_runner.rs]: catching up *)

(** [sent] is the answer of the service to the request. *)
Definition maybe_request_range (local_tip : N) (peer : N) (tracker : SyncTracker) (sent : bool)
    : SyncTracker * list NetworkCommand :=
  match next_request tracker local_tip DEFAULT_MAX_RANGE with
  | (tracker, None) => (tracker, [])
  | (tracker, Some (from_h, to_h)) =>
      let req := {| from_height := from_h; to_height := to_h |} in
      match RangeRequest_validate req DEFAULT_MAX_RANGE with
      | Err _ => (on_tip_advanced tracker local_tip, [])
      | Ok _ => (if sent then tracker else on_tip_advanced tracker local_tip, [RequestRange peer req])
      end
  end.

Section handlers.
Context {DB : Type} `{!Rocks DB} `{!Codec TrieNode} `{!Codec Account} `{!Codec Block}.
Context `{!Codec Batch} `{!Codec DagBlock} `{!Codec CommitAckPayload} `{!Codec TxSigningBody} `{!Hybrid65} (blake3 : bytes → Hash).

(** The periodic retry. *)
Definition sync_tick (s : DB) (tracker : SyncTracker) (sent : bool) : SyncTracker * list NetworkCommand :=
  match last_peer tracker, tip s with
  | Some peer, Ok (Some (tip_h, _)) => maybe_request_range tip_h peer tracker sent
  | _, _ => (tracker, [])
  end.

Definition handle_block_received (verifier : Block → Hash → N → result VerifyError Hash) (from : N) (block : Block)
    (s : DB) (between : DB → DB) (tracker : SyncTracker) (sent : bool)
    : DB * SyncTracker * list NetworkCommand * result NodeError () :=
  let height := Block_height block in
  let tracker := observe tracker height from in
  match tip s with
  | Err e => (s, tracker, [], Err (NStorage e))
  | Ok local_tip =>
      let tip_height := from_option fst 0 local_tip in
      match height ?= wrapping_add64 tip_height 1 with
      | Eq =>
          match apply_synced_block verifier s between block with
          | (s', Ok (Applied h _)) =>
              let tracker := on_tip_advanced tracker h in
              let '(tracker, cmds) := maybe_request_range (wrapping_add64 tip_height 1) from tracker sent in
              (s', tracker, cmds, Ok ())
          | (s', Ok _) => (s', tracker, [], Ok ())
          | (s', Err (NInvalidQC _)) => (s', tracker, [ReportPeer from InvalidQuorumCert], Ok ())
          | (s', Err (NVerify _)) => (s', tracker, [], Ok ())
          | (s', Err e) => (s', tracker, [], Err e)
          end
      | Gt =>
          let '(tracker, cmds) := maybe_request_range tip_height from tracker sent in
          (s, tracker, cmds, Ok ())
      | Lt => (s, tracker, [], Ok ())
      end
  end.

Definition fetch_range (s : DB) (request : RangeRequest) : list Block :=
  match get_range s (from_height request) (to_height request) with Ok blocks => blocks | Err _ => [] end.

(** ** [network_runner.rs]: consensus messages.  The answer goes to the DAG
    driver; [None] is a dropped message. *)

Definition hybrid_ok (vset : ValidatorSet) (author : Address) (msg : bytes) (sig : Signature) : bool :=
  signer_ok vset msg author sig.

Definition handle_dag_proposal_received (bytes : bytes) (vset : ValidatorSet) : option (DagBlock * bool) :=
  match deserialize bytes with
  | Err _ => None
  | Ok block => Some (block, hybrid_ok vset (blk_author block) (Hash_as_bytes (DagBlock.digest block)) (DagBlock.signature block))
  end.

Definition handle_commit_ack_received (bytes : bytes) (vset : ValidatorSet) : option (CommitAckPayload * bool) :=
  match deserialize bytes with
  | Err _ => None
  | Ok ack =>
      let msg := Hash_as_bytes (commit_ack_message blake3 (ack_height ack) (ack_header_digest ack)) in
      Some (ack, hybrid_ok vset (ack_signer ack) msg (ack_signature ack))
  end.

(** ** [network_runner.rs]: transactions and batches *)

Definition handle_transaction_received (serialized_size : Transaction → result string N) (tx : Transaction)
    (sender_pubkey : ConsensusKey) (s : DB) (mempool : Mempool) (now : N) : option Mempool :=
  let pk := from_consensus_key sender_pubkey in
  match tip s with
  | Ok (Some (_, hash)) =>
      match get_block_by_hash s hash with
      | Ok (Some block) =>
          let world := with_state_root s (state_root (header block)) in
          let ctx := {| ac_chain_id := chain_id tx; ac_base_fee := 0; ac_now := now |} in
          fst <$> Mempool_admit blake3 serialized_size mempool tx pk 0 None world ctx
      | _ => Some mempool
      end
  | _ => Some mempool
  end.

Definition tx_hash_ok (tx : Transaction) : bool :=
  match compute_tx_hash blake3 tx with Ok h => h =? tx_hash tx | Err _ => false end.

(** The signature gate on one transaction of a gossiped batch. *)
Definition tx_gate_ok (vset : ValidatorSet) (tx : Transaction) : bool :=
  match Transaction.signature tx with
  | Unsigned => false
  | Hybrid classical quantum =>
      match members vset !! sender tx with
      | Some member =>
          match verify_hybrid (from_consensus_key (member_consensus_pubkey member)) (Hash_as_bytes (tx_hash tx))
                  {| hs_classical := classical; hs_quantum := quantum |} with
          | Ok _ => true
          | Err _ => false
          end
      | None => true
      end
  | _ => true
  end.

Definition handle_batch_received (bytes : bytes) (store : gmap Hash Batch) (vset : ValidatorSet) : gmap Hash Batch :=
  match deserialize bytes with
  | Err _ => store
  | Ok batch =>
      if negb (forallb tx_hash_ok (b_txs batch)) then store else
      if negb (forallb (tx_gate_ok vset) (b_txs batch)) then store else
      match Batch_digest blake3 batch with
      | Err _ => store
      | Ok digest => <[digest := batch]> store
      end
  end.

Definition serve_batch_fetch_request (digest : Hash) (store : gmap Hash Batch) : option bytes :=
  batch ← store !! digest; match serialize batch with Ok b => Some b | Err _ => None end.

Definition handle_batch_fetch_response (digest : Hash) (batch_bytes : option bytes) (store : gmap Hash Batch) : gmap Hash Batch :=
  match batch_bytes with
  | None => store
  | Some bytes =>
      match deserialize bytes with
      | Err _ => store
      | Ok batch => if negb (forallb tx_hash_ok (b_txs batch)) then store else <[digest := batch]> store
      end
  end.

(** ** [network_runner.rs]: dispatch *)

(** What the dispatch loop works on, and what it hands on: commands to the
    service, verified proposals and acknowledgements to the DAG driver. *)
Record Dispatch := {
  dp_db : DB;
  dp_mempool : Mempool;
  dp_batches : gmap Hash Batch;
  dp_tracker : SyncTracker;
  dp_commands : list NetworkCommand;
  dp_proposals : list (DagBlock * bool);
  dp_acks : list (CommitAckPayload * bool);
}.

Definition dp_set_pool (p : Mempool) (d : Dispatch) : Dispatch :=
  {| dp_db := dp_db d; dp_mempool := p; dp_batches := dp_batches d; dp_tracker := dp_tracker d; dp_commands := dp_commands d;
     dp_proposals := dp_proposals d; dp_acks := dp_acks d |}.
Definition dp_set_batches (b : gmap Hash Batch) (d : Dispatch) : Dispatch :=
  {| dp_db := dp_db d; dp_mempool := dp_mempool d; dp_batches := b; dp_tracker := dp_tracker d; dp_commands := dp_commands d;
     dp_proposals := dp_proposals d; dp_acks := dp_acks d |}.
Definition dp_command (cmds : list NetworkCommand) (d : Dispatch) : Dispatch :=
  {| dp_db := dp_db d; dp_mempool := dp_mempool d; dp_batches := dp_batches d; dp_tracker := dp_tracker d;
     dp_commands := dp_commands d ++ cmds; dp_proposals := dp_proposals d; dp_acks := dp_acks d |}.
Definition dp_sync (s : DB) (tr : SyncTracker) (cmds : list NetworkCommand) (d : Dispatch) : Dispatch :=
  {| dp_db := s; dp_mempool := dp_mempool d; dp_batches := dp_batches d; dp_tracker := tr;
     dp_commands := dp_commands d ++ cmds; dp_proposals := dp_proposals d; dp_acks := dp_acks d |}.
Definition dp_forward (ps : list (DagBlock * bool)) (acks : list (CommitAckPayload * bool)) (d : Dispatch) : Dispatch :=
  {| dp_db := dp_db d; dp_mempool := dp_mempool d; dp_batches := dp_batches d; dp_tracker := dp_tracker d;
     dp_commands := dp_commands d; dp_proposals := dp_proposals d ++ ps; dp_acks := dp_acks d ++ acks |}.

(** [None] when the mempool's trie walk runs out of fuel. *)
Definition handle_network_event (serialized_size : Transaction → result string N)
    (verifier : Block → Hash → N → result VerifyError Hash) (vset : ValidatorSet) (between : DB → DB) (sent : bool) (now : N)
    (event : NetworkEvent) (d : Dispatch) : option (Dispatch * result NodeError ()) :=
  match event with
  | BlockReceived from block =>
      let '(s, tr, cmds, r) := handle_block_received verifier from block (dp_db d) between (dp_tracker d) sent in
      Some (dp_sync s tr cmds d, r)
  | RangeRequestReceived _ request channel =>
      Some (dp_command [SendRangeResponse channel {| resp_blocks := fetch_range (dp_db d) request |}] d, Ok ())
  | TransactionReceived _ tx sender_pubkey =>
      pool ← handle_transaction_received serialized_size tx sender_pubkey (dp_db d) (dp_mempool d) now;
      Some (dp_set_pool pool d, Ok ())
  | DagProposalReceived _ bytes => Some (dp_forward (option_list (handle_dag_proposal_received bytes vset)) [] d, Ok ())
  | BatchReceived _ bytes => Some (dp_set_batches (handle_batch_received bytes (dp_batches d) vset) d, Ok ())
  | BatchFetchRequestReceived _ digest channel =>
      Some (dp_command [SendBatchFetchResponse channel
        {| resp_digest := digest; resp_bytes := serve_batch_fetch_request digest (dp_batches d) |}] d, Ok ())
  | BatchFetchResponseReceived _ digest batch_bytes =>
      Some (dp_set_batches (handle_batch_fetch_response digest batch_bytes (dp_batches d)) d, Ok ())
  | CommitAckReceived _ bytes => Some (dp_forward [] (option_list (handle_commit_ack_received bytes vset)) d, Ok ())
  | PeerConnected _ | PeerDisconnected _ | ListeningOn _ => Some (d, Ok ())
  end.
End handlers.
