(* ===== verification/NodeNetSpec.v ===== *)
(** * What the network side of the node guarantees

    Requests for ranges are well formed, but one that was lost is never
    repeated; batches that arrive by gossip are stored under their digest, batches
    that arrive as answers under any digest the peer names; scores are bounded. *)
From stdpp Require Import strings.
From S2P Require Import Prelude CoreTypes StakeAgg DagBlock DagGraph Fee Leader Cert Db Trie TrieRoot Transaction WorldState ChainStore Crypto RateLimit MempoolPolicy Mempool VmState Flux Agent Host NodeExec NodeChain NetService NodeNet.

(** ** Range requests *)

Lemma next_request_some tr tip tr' from to :
  tip + DEFAULT_MAX_RANGE <= u64_max → next_request tr tip DEFAULT_MAX_RANGE = (tr', Some (from, to)) →
  from = tip + 1 ∧ to = N.min (highest_seen tr) (tip + DEFAULT_MAX_RANGE) ∧ from < highest_seen tr ∧
  tr' = {| highest_seen := highest_seen tr; requested_up_to := to; last_peer := last_peer tr |}.
Proof.
  unfold next_request, saturating_add. intros Hm H. unfold DEFAULT_MAX_RANGE in *.
  rewrite !(N.min_l (_ + _) u64_max) in H by lia.
  destruct (N.leb_spec (highest_seen tr) (tip + 1)); [discriminate|].
  destruct (N.leb_spec (highest_seen tr) (requested_up_to tr)); [discriminate|].
  injection H as <- <- <-. auto.
Qed.

(** Every range a node asks a peer for starts right after its tip, is not
    empty, ends at or before the highest height seen, has at most 256 blocks, and
    passes the validation the serving side applies: the branch of
    [maybe_request_range] that reports an invalid range is never taken.  A node
    that asks knows of a block at least two above its tip. *)
Theorem range_requests_valid tip peer tr sent tr' cmd cmds :
  tip + DEFAULT_MAX_RANGE <= u64_max →
  maybe_request_range tip peer tr sent = (tr', cmd :: cmds) →
  cmds = [] ∧ ∃ r, cmd = RequestRange peer r ∧ from_height r = tip + 1 ∧ from_height r <= to_height r ∧
    to_height r <= highest_seen tr ∧ to_height r - from_height r < DEFAULT_MAX_RANGE ∧
    tip + 1 < highest_seen tr ∧ RangeRequest_validate r DEFAULT_MAX_RANGE = Ok ().
Proof.
  unfold maybe_request_range. intros Hm H.
  destruct (next_request tr tip DEFAULT_MAX_RANGE) as [tr1 [[from to]|]] eqn:Hn; [|discriminate].
  destruct (next_request_some _ _ _ _ _ Hm Hn) as (-> & -> & Hlt & ->).
  unfold RangeRequest_validate, checked_sub in *. unfold DEFAULT_MAX_RANGE in *. cbn [from_height to_height] in *.
  destruct (N.leb_spec (tip + 1) (N.min (highest_seen tr) (tip + 256))) as [_|]; [|lia]. cbn in *.
  destruct (N.ltb_spec 256 (N.min (highest_seen tr) (tip + 256) - (tip + 1))) as [|Hw]; [lia|].
  injection H as <- <- <-. split; [done|]. eexists; split; [done|]. cbn.
  destruct (N.leb_spec (tip + 1) (N.min (highest_seen tr) (tip + 256))) as [_|]; [|lia]. cbn.
  destruct (N.ltb_spec 256 (N.min (highest_seen tr) (tip + 256) - (tip + 1))) as [|_]; [lia|].
  repeat split; lia.
Qed.

Section sync.
Context {DB : Type} `{!Rocks DB} `{!Codec Block}.
Variable verifier : Block → Hash → N → result VerifyError Hash.

(** What the dispatch loop reacts to, for the purpose of catching up: a tick, or a
    block; [other] is what other tasks do to the database before the event. *)
Inductive SyncEvent :=
  | Tick (other : DB → DB) (sent : bool)
  | Received (other between : DB → DB) (from : N) (block : Block) (sent : bool).

Definition sync_event (st : DB * SyncTracker) (e : SyncEvent) : DB * SyncTracker * list NetworkCommand :=
  let '(s, tr) := st in
  match e with
  | Tick other sent => let '(tr', cmds) := sync_tick (other s) tr sent in (other s, tr', cmds)
  | Received other between from block sent => fst (handle_block_received verifier from block (other s) between tr sent)
  end.

Fixpoint sync_run (st : DB * SyncTracker) (es : list SyncEvent) : DB * SyncTracker * list NetworkCommand :=
  match es with
  | [] => (st, [])
  | e :: es =>
      let '(st', cmds) := sync_event st e in
      let '(st'', cmds') := sync_run st' es in (st'', cmds ++ cmds')
  end.

Definition requests (cmds : list NetworkCommand) : list RangeRequest :=
  omap (λ c, match c with RequestRange _ r => Some r | _ => None end) cmds.
Definition event_height (e : SyncEvent) : N := match e with Tick _ _ => 0 | Received _ _ _ b _ => Block_height b end.

(** Everything seen has been asked for. *)
Definition all_asked (top : N) (tr : SyncTracker) : Prop := highest_seen tr <= top ∧ top <= requested_up_to tr.

Lemma all_asked_maybe top tip peer tr sent :
  all_asked top tr → maybe_request_range tip peer tr sent = (tr, []).
Proof.
  intros [H1 H2]. unfold maybe_request_range, next_request.
  destruct (highest_seen tr <=? _); [done|]. destruct (N.leb_spec (highest_seen tr) (requested_up_to tr)); [done|lia].
Qed.
Lemma all_asked_advanced top tip tr : all_asked top tr → all_asked top (on_tip_advanced tr tip).
Proof. unfold on_tip_advanced, all_asked. destruct (N.leb_spec (requested_up_to tr) tip); cbn; lia. Qed.
Lemma all_asked_observe top tr h peer : h <= top → all_asked top tr → all_asked top (observe tr h peer).
Proof.
  unfold observe, all_asked. destruct (highest_seen tr <? h); cbn; [lia|]. destruct (last_peer tr); cbn; lia.
Qed.

Lemma all_asked_event top s tr e s' tr' cmds :
  all_asked top tr → event_height e <= top → sync_event (s, tr) e = (s', tr', cmds) →
  all_asked top tr' ∧ requests cmds = [].
Proof.
  intros Ha Hh H. destruct e as [other sent|other between from block sent]; cbn in Hh, H.
  - unfold sync_tick in H. repeat case_match; simplify_eq; try done;
      match goal with H' : maybe_request_range _ _ _ _ = _ |- _ => rewrite (all_asked_maybe top) in H' by done; by simplify_eq end.
  - unfold handle_block_received in H. pose proof (all_asked_observe top tr _ from Hh Ha) as Ho.
    repeat case_match; simplify_eq/=; try (split; [done|reflexivity]);
      match goal with H' : maybe_request_range _ _ _ _ = _ |- _ =>
        rewrite (all_asked_maybe top) in H' by auto using all_asked_advanced; simplify_eq end;
      auto using all_asked_advanced.
Qed.

Lemma all_asked_run top es : ∀ s tr, all_asked top tr → Forall (λ e, event_height e <= top) es →
  requests (snd (sync_run (s, tr) es)) = [].
Proof.
  induction es as [|e es IH]; intros s tr Ha Hes; [done|]. apply Forall_cons in Hes as [He Hes].
  change (sync_run (s, tr) (e :: es)) with
    (let '(st', cmds) := sync_event (s, tr) e in let '(st'', cmds') := sync_run st' es in (st'', cmds ++ cmds')).
  destruct (sync_event (s, tr) e) as [[s1 tr1] cmds] eqn:E.
  destruct (all_asked_event _ _ _ _ _ _ _ Ha He E) as [Ha' Hc]. specialize (IH s1 tr1 Ha' Hes).
  destruct (sync_run (s1, tr1) es) as [st2 cmds2]. cbn in *. unfold requests in *. by rewrite omap_app, Hc, IH.
Qed.

(** A range request is made once.  When a node that is at most 256 blocks
    behind asks for the missing range, then - whether the network service took the
    request or refused it, whether the peer answers in full, in part or not at all,
    and whatever other tasks write - no later tick of the retry timer and no later
    block asks for anything again, until some peer announces a height above all
    those seen before.  Resetting the watermark after a refused request has no
    effect, since the watermark is above the tip, and the retry timer, meant for
    partial and lost answers, never repeats a request. *)
Theorem lost_range_request_not_retried s tr tip peer sent tr' r es :
  tip + DEFAULT_MAX_RANGE <= u64_max → highest_seen tr <= tip + DEFAULT_MAX_RANGE →
  maybe_request_range tip peer tr sent = (tr', [RequestRange peer r]) →
  Forall (λ e, event_height e <= highest_seen tr) es →
  requests (snd (sync_run (s, tr') es)) = [].
Proof.
  intros Hm Hh H Hes. apply all_asked_run with (highest_seen tr); [|done].
  unfold maybe_request_range in H.
  destruct (next_request tr tip DEFAULT_MAX_RANGE) as [tr1 [[from to]|]] eqn:Hn; [|discriminate].
  destruct (next_request_some _ _ _ _ _ Hm Hn) as (-> & -> & Hlt & ->).
  destruct (RangeRequest_validate _ _); [|discriminate]. injection H as <- _.
  assert (all_asked (highest_seen tr) {| highest_seen := highest_seen tr;
    requested_up_to := N.min (highest_seen tr) (tip + DEFAULT_MAX_RANGE); last_peer := last_peer tr |}).
  { unfold all_asked; cbn; lia. }
  destruct sent; auto using all_asked_advanced.
Qed.
End sync.

(** ** Batches *)

Section batches.
Context `{!Codec Batch} `{!Codec TxSigningBody} `{!Hybrid65} (blake3 : bytes → Hash).

(** Every batch is stored under its digest and holds transactions with their own
    hashes, none of them unsigned. *)
Definition signed_tx (tx : Transaction) : Prop := Transaction.signature tx ≠ Unsigned.
Definition store_ok (store : gmap Hash Batch) : Prop :=
  map_Forall (λ d b, Batch_digest blake3 b = Ok d ∧ forallb (tx_hash_ok blake3) (b_txs b) = true ∧ Forall signed_tx (b_txs b)) store.

Lemma tx_gate_signed vset tx : tx_gate_ok vset tx = true → signed_tx tx.
Proof. unfold tx_gate_ok, signed_tx. intros Hg Hs. by rewrite Hs in Hg. Qed.

(** A batch that arrives by gossip is pinned under the digest of its content,
    after every transaction in it was checked to carry its own hash and a
    signature that, for a sender in the validator set, verifies; anything else
    leaves the store as it was.  So gossip preserves the store's invariant. *)
Theorem gossip_keeps_store_ok bytes store vset :
  store_ok store → store_ok (handle_batch_received blake3 bytes store vset).
Proof.
  intros Hs. unfold handle_batch_received. destruct (deserialize bytes) as [batch|]; [|done].
  destruct (forallb (tx_hash_ok blake3) (b_txs batch)) eqn:Hh; cbn [negb]; [|done].
  destruct (forallb (tx_gate_ok vset) (b_txs batch)) eqn:Hg; cbn [negb]; [|done].
  destruct (Batch_digest blake3 batch) as [d|] eqn:Hd; [|done].
  apply map_Forall_insert_2; [|done]. split; [done|]. split; [done|].
  rewrite forallb_forall in Hg. apply Forall_forall. intros tx Htx. eapply tx_gate_signed, Hg. by apply list_elem_of_In.
Qed.

(** The answer to a batch fetch is pinned under the digest named in the answer,
    which is not compared with the batch, and its signatures are not looked at.  So
    any peer can replace the content of any batch: after an answer that names
    digest [d], a block that references [d] resolves, on this node, to the
    transactions the peer chose - unsigned ones and a batch with another digest
    included, in the place of a batch the node already held. *)
Theorem fetch_response_replaces_batch d bytes store batch r :
  deserialize bytes = Ok batch → forallb (tx_hash_ok blake3) (b_txs batch) = true → batch_digest r = d →
  handle_batch_fetch_response blake3 d (Some bytes) store = <[d := batch]> store ∧
  ∀ st, resolve_batch (handle_batch_fetch_response blake3 d (Some bytes) store) st r = foldl push_tx st (b_txs batch).
Proof.
  intros Hd Hh Hr. unfold handle_batch_fetch_response. rewrite Hd, Hh; cbn [negb]. split; [done|].
  intros st. unfold resolve_batch. by rewrite Hr, lookup_insert_eq.
Qed.
End batches.
