(* ===== verification/NodeSync.v ===== *)
(** * Catching up by a range of blocks

    The serving side of a range request and the applying side, put together: the
    blocks a peer serves from its chain are the ones that extend a chain with the
    same tip, one after the other. *)
From stdpp Require Import strings.
From S2P Require Import Prelude CoreTypes StakeAgg DagBlock DagGraph Fee Leader Cert Db Trie TrieRoot Transaction WorldState ChainStore Crypto RateLimit MempoolPolicy Mempool VmState Flux Agent Host NodeExec NodeExecSpec NodeChain NodeDriver NodeSpec NodeBoot NetService NodeNet.

Section sync.
Context {DB : Type} `{!Rocks DB, !RocksLaws DB} `{!Codec Block, !CodecLaws Block} `{!Hybrid65}.
Context (blake3 : bytes → Hash) (blake3_len : ∀ b, is_hash (blake3 b)) (vset : ValidatorSet).
Implicit Types (s : DB) (C : Chain).

(** The block passes the checks at the parent it names. *)
Definition acceptable (b : Block) (h : Hash) : Prop :=
  certified_verify blake3 vset b (parent_hash (header b)) (Block_height b - 1) = Ok h.

(** Blocks of consecutive heights above [t], each naming the hash of the one before. *)
Fixpoint run_chained (t : N) (th : Hash) (bs : list Block) : Prop :=
  match bs with
  | [] => True
  | b :: bs => Block_height b = t + 1 ∧ parent_hash (header b) = th ∧ ∃ h, acceptable b h ∧ run_chained (t + 1) h bs
  end.

(** The node applies the blocks in the order they arrive. *)
Definition apply_all s (bs : list Block) : DB :=
  foldl (λ s b, (apply_synced_block (certified_verify blake3 vset) s id b).1) s bs.

Lemma acceptable_hash b h : acceptable b h → compute_block_hash blake3 b = Ok h.
Proof. intros Ha%certified_structural. by apply structural_verify_inv in Ha as (_ & _ & _ & ?). Qed.

(** One acceptable block on its parent. *)
Lemma apply_acceptable s C t th b h s' :
  chain_holds s C → chain_tip C = Some (t, th) → t + 1 <= u64_max → Block_height b = t + 1 → parent_hash (header b) = th →
  acceptable b h → put_block s b h = Ok s' →
  (apply_synced_block (certified_verify blake3 vset) s id b).1 = s' ∧ chain_holds s' (chain_put C b h) ∧
  chain_tip (chain_put C b h) = Some (t + 1, h).
Proof.
  intros HC Ht Hm Hh Hp Ha Hput. unfold acceptable in Ha. rewrite Hh, Hp, N.add_sub in Ha.
  split_and!.
  - unfold apply_synced_block, sync_verify. rewrite (tip_holds s C HC), Ht. cbn [map_err mbind result_bind]. rewrite Ha.
    unfold sync_apply, id. rewrite (tip_holds s C HC), Ht. cbn. rewrite bool_decide_eq_true_2 by done. cbn. by rewrite Hput.
  - eapply put_block_holds; [done|by rewrite Hh| |done]. eapply (compute_block_hash_len blake3 blake3_len b).
    apply certified_structural, structural_verify_inv in Ha as (_ & _ & _ & Hc). exact Hc.
  - cbn. rewrite Ht, Hh. by rewrite (proj2 (N.leb_le _ _)) by lia.
Qed.

(** The tip after blocks [bs] on [(t, th)]. *)
Lemma apply_chained bs : ∀ s C t th,
  chain_holds s C → chain_tip C = Some (t, th) → t + N.of_nat (length bs) <= u64_max → run_chained t th bs →
  (∀ s0 C0 b h, chain_holds s0 C0 → b ∈ bs → compute_block_hash blake3 b = Ok h → ∃ s1, put_block s0 b h = Ok s1) →
  ∃ C', chain_holds (apply_all s bs) C' ∧ fst <$> chain_tip C' = Some (t + N.of_nat (length bs)) ∧
    (∀ i b, bs !! i = Some b → by_height C' !! (t + 1 + N.of_nat i) = Some b) ∧
    (∀ k, k <= t → by_height C' !! k = by_height C !! k).
Proof.
  induction bs as [|b bs IH]; intros s C t th HC Ht Hm Hch Hput; cbn [apply_all foldl length] in *.
  { exists C. split_and!; [done|rewrite Ht; cbn; f_equal; lia|done|done]. }
  destruct Hch as (Hh & Hp & h & Ha & Hch). destruct (Hput s C b h) as [s1 Hs1]; [done|left|by apply acceptable_hash|].
  destruct (apply_acceptable s C t th b h s1) as (Hap & HC1 & Ht1); [done|done|lia|done..|]. rewrite Hap.
  destruct (IH s1 (chain_put C b h) (t + 1) h HC1 Ht1) as (C' & HC' & Ht' & Hb & Hold); [lia|done| |].
  { intros s0 C0 b' h' H0 Hin. eapply Hput; [done|by right]. }
  exists C'. split_and!; [done|rewrite Ht'; f_equal; lia| |].
  - intros [|i] b' Hi; cbn in Hi.
    + injection Hi as <-. rewrite N.add_0_r, Hold by lia. cbn. by rewrite Hh, lookup_insert_eq.
    + rewrite <-(Hb i b' Hi). f_equal. lia.
  - intros k Hk. rewrite Hold by lia. cbn. rewrite Hh, lookup_insert_ne by lia. done.
Qed.

(** Blocks at consecutive heights of a linked chain are run_chained. *)
Lemma linked_chained R bs : ∀ t bt th,
  chain_linked blake3 R → by_height R !! t = Some bt → compute_block_hash blake3 bt = Ok th →
  (∀ i b, bs !! i = Some b → by_height R !! (t + 1 + N.of_nat i) = Some b ∧ Block_height b = t + 1 + N.of_nat i ∧ ∃ h, acceptable b h) →
  run_chained t th bs.
Proof.
  induction bs as [|b bs IH]; intros t bt th HL Hbt Hth Hbs; [done|].
  destruct (Hbs O b eq_refl) as (Hb & Hh & h & Ha). rewrite N.add_0_r in Hb, Hh. cbn. split_and!; [done| |].
  - pose proof (cl_link _ _ HL t bt b Hbt Hb) as Hl. congruence.
  - exists h. split; [done|]. apply (IH (t + 1) b h); [done|done|by apply acceptable_hash|].
    intros i b' Hi. destruct (Hbs (S i) b' Hi) as (H1 & H2 & H3). rewrite <-H1, H2. split_and!; [f_equal; lia|lia|done].
Qed.

(** C10. Range sync catches up.  A node at tip [t] asks a peer whose linked chain
    contains the same block at height [t] for the heights above: the peer answers
    with its blocks from [t + 1] without a gap, as many as it has, up to the height
    asked for; and when every one of them carries a certificate the node accepts
    and the database takes the writes, applying them in order leaves the node with
    the peer's blocks at all these heights, its own below, and its tip at the last. *)
Theorem range_sync_catches_up s C t th sr R bt to :
  chain_holds s C → chain_tip C = Some (t, th) → chain_holds sr R → chain_linked blake3 R →
  by_height R !! t = Some bt → compute_block_hash blake3 bt = Ok th → t <= to → to <= u64_max →
  let bs := fetch_range sr {| from_height := t + 1; to_height := to |} in
  (∀ b, b ∈ bs → ∃ h, acceptable b h) → (∀ h b, by_height R !! h = Some b → Block_height b = h) →
  (∀ s0 C0 b h, chain_holds s0 C0 → b ∈ bs → compute_block_hash blake3 b = Ok h → ∃ s1, put_block s0 b h = Ok s1) →
  (N.of_nat (length bs) < to - t → get_block_by_height sr (t + 1 + N.of_nat (length bs)) = Ok None) ∧
  latest_height (apply_all s bs) = Ok (Some (t + N.of_nat (length bs))) ∧
  ∀ h, h <= t + N.of_nat (length bs) →
    get_block_by_height (apply_all s bs) h = if h <=? t then get_block_by_height s h else get_block_by_height sr h.
Proof.
  intros HC Ht HR HL Hbt Hth Hle Hmax bs Hacc Hheights Hput.
  assert (∀ s0 C0, chain_holds s0 C0 → ∀ h, h <= u64_max → get_block_by_height s0 h = Ok (by_height C0 !! h)) as Hget.
  { intros s0 C0 H0 h Hh. by apply read_block_reads, H0. }
  destruct (get_range_prefix sr R (t + 1) to HR Hmax) as (bs' & Hr & Hlen & Hi & Hnone).
  assert (bs = bs') as E by (unfold bs, fetch_range; cbn; by rewrite Hr). clearbody bs. subst bs'.
  assert (∀ i b, bs !! i = Some b → by_height R !! (t + 1 + N.of_nat i) = Some b) as Hib.
  { intros i b Hb. rewrite Hi; [done|]. by eapply lookup_lt_Some. }
  assert (run_chained t th bs) as Hch.
  { apply (linked_chained R bs t bt th HL Hbt Hth). intros i b Hb. pose proof (Hib i b Hb) as HRb.
    split_and!; [done|by apply Hheights|]. apply Hacc. by eapply list_elem_of_lookup_2. }
  destruct (apply_chained bs s C t th HC Ht ltac:(lia) Hch Hput) as (C' & HC' & Ht' & Hb & Hold).
  split_and!.
  - intros Hlt. rewrite (Hget sr R HR) by lia. rewrite Hnone by lia. done.
  - rewrite (latest_height_holds _ _ HC'). by rewrite Ht'.
  - intros h Hh. rewrite (Hget _ _ HC') by lia. destruct (N.leb_spec h t).
    + by rewrite Hold, (Hget s C HC) by lia.
    + rewrite (Hget sr R HR) by lia. f_equal.
      destruct (lookup_lt_is_Some_2 bs (N.to_nat (h - t - 1)) ltac:(lia)) as [b Hbi].
      pose proof (Hb _ _ Hbi) as H1. pose proof (Hib _ _ Hbi) as H2. replace (t + 1 + N.of_nat (N.to_nat (h - t - 1))) with h in * by lia.
      congruence.
Qed.
End sync.
