(* ===== verification/Wire.v ===== *)
(** * A wire format for concrete runs

    Values as sequences of numbers, read back from the front of a sequence.  The
    format stands in for the JSON encoding where theorems about encoded data are
    applied to concrete values. *)
From stdpp Require Import strings.
From S2P Require Import Prelude CoreTypes DagBlock Fee Transaction Db Cert NodeChain.

Class Wire (T : Type) := {
  put : T → bytes;
  get : bytes → option (T * bytes);
  get_put x rest : get (put x ++ rest) = Some (x, rest);
}.

#[export] Program Instance wire_N : Wire N := {|
  put x := [x];
  get b := match b with x :: rest => Some (x, rest) | [] => None end;
|}.
Next Obligation. done. Qed.

#[export] Program Instance wire_prod {A B} `{!Wire A, !Wire B} : Wire (A * B) := {|
  put p := put p.1 ++ put p.2;
  get b := '(x, b) ← get b; '(y, b) ← get b; Some ((x, y), b);
|}.
Next Obligation. intros A B WA WB [x y] rest. cbn. rewrite <-(assoc_L (++)), get_put. cbn. by rewrite get_put. Qed.

(** Through an isomorphic type. *)
Program Definition wire_iso {A B} `{!Wire A} (f : B → A) (g : A → B) (gf : ∀ x, g (f x) = x) : Wire B := {|
  put x := put (f x);
  get b := '(x, b) ← get b; Some (g x, b);
|}.
Next Obligation. intros A B WA f g gf x rest. cbn. rewrite get_put. cbn. by rewrite gf. Qed.

Definition put_option {A} `{!Wire A} (o : option A) : bytes := match o with None => [0] | Some x => 1 :: put x end.
Definition get_option {A} `{!Wire A} (b : bytes) : option (option A * bytes) :=
  match b with 0 :: rest => Some (None, rest) | _ :: rest => '(x, b) ← get rest; Some (Some x, b) | [] => None end.
#[export] Instance wire_option {A} `{!Wire A} : Wire (option A).
Proof. refine {| put := put_option; get := get_option |}. intros [x|] rest; cbn; [by rewrite get_put|done]. Defined.

Fixpoint get_n {A} `{!Wire A} (n : nat) (b : bytes) : option (list A * bytes) :=
  match n with
  | O => Some ([], b)
  | S n => '(x, b) ← get b; '(l, b) ← get_n n b; Some (x :: l, b)
  end.
Definition puts {A} `{!Wire A} (l : list A) : bytes := mjoin (put <$> l).
Lemma get_n_puts {A} `{!Wire A} (l : list A) rest : get_n (length l) (puts l ++ rest) = Some (l, rest).
Proof.
  induction l as [|x l IH]; [done|]. change (puts (x :: l)) with (put x ++ puts l). cbn [length get_n].
  rewrite <-(assoc_L (++)), get_put. cbn. by rewrite IH.
Qed.
#[export] Program Instance wire_list {A} `{!Wire A} : Wire (list A) := {|
  put l := N.of_nat (length l) :: puts l;
  get b := match b with n :: rest => get_n (N.to_nat n) rest | [] => None end;
|}.
Next Obligation. intros A WA l rest. cbn. rewrite Nnat.Nat2N.id. apply get_n_puts. Qed.

#[export] Instance wire_bool : Wire bool.
Proof. refine (wire_iso (λ b : bool, if b then 1 else 0) (λ n, bool_decide (n ≠ 0)) _). by intros []. Defined.
#[export] Instance wire_gmap {K V} `{Countable K} `{!Wire K, !Wire V} : Wire (gmap K V).
Proof. exact (wire_iso map_to_list list_to_map (list_to_map_to_list (M := gmap K))). Defined.

#[export] Instance wire_signature : Wire Signature.
Proof.
  refine (wire_iso
    (λ s : Signature, match s with Classical b => (0, (b, [])) | PostQuantum b => (1, (b, [])) | Hybrid c q => (2, (c, q)) | Unsigned => (3, ([], [])) end)
    (λ '(n, (b, q)), match n with 0 => Classical b | 1 => PostQuantum b | 2 => Hybrid b q | _ => Unsigned end) _).
  by intros [].
Defined.
#[export] Instance wire_tx_type : Wire TxType.
Proof.
  refine (wire_iso
    (λ t : TxType, match t with Transfer => 0 | ContractCall => 1 | ContractDeploy => 2 | Stake_ => 3 | Unstake => 4 | GovernanceVote => 5 end)
    (λ n, match n with 0 => Transfer | 1 => ContractCall | 2 => ContractDeploy | 3 => Stake_ | 4 => Unstake | _ => GovernanceVote end) _).
  by intros [].
Defined.
#[export] Instance wire_transaction : Wire Transaction.
Proof.
  refine (wire_iso (λ t, (tx_hash t, sender t, to t, nonce t, chain_id t, value t, tx_gas_limit t, gas_price t, tx_type t, data t,
      Transaction.signature t, session_key t, owner_cosignature t))
    (λ '(a, b, c, d, e, f, g, h, i, j, k, l, m), {| tx_hash := a; sender := b; to := c; nonce := d; chain_id := e; value := f;
      tx_gas_limit := g; gas_price := h; tx_type := i; data := j; Transaction.signature := k; session_key := l; owner_cosignature := m |}) _).
  by intros [].
Defined.
#[export] Instance wire_log : Wire Log.
Proof.
  refine (wire_iso (λ l, (log_address l, topics l, log_data l)) (λ '(a, t, d), {| log_address := a; topics := t; log_data := d |}) _).
  by intros [].
Defined.
#[export] Instance wire_receipt : Wire TransactionReceipt.
Proof.
  refine (wire_iso (λ r, (rc_tx_hash r, success r, rc_gas_used r, logs r))
    (λ '(h, s, g, l), {| rc_tx_hash := h; success := s; rc_gas_used := g; logs := l |}) _).
  by intros [].
Defined.
#[export] Instance wire_cert : Wire QuorumCert.
Proof.
  refine (wire_iso (λ q, (qc_height q, qc_header_digest q, signers q))
    (λ '(h, d, s), {| qc_height := h; qc_header_digest := d; signers := s |}) _).
  by intros [].
Defined.
#[export] Instance wire_header : Wire BlockHeader.
Proof.
  refine (wire_iso (λ h, (height h, timestamp h, parent_hash h, transactions_root h, state_root h, receipts_root h, proposer h, hdr_epoch h,
      protocol_version h, dag_round h, dag_anchor h, validators_hash h, next_validators_hash h, gas_limit h, gas_used h, base_fee h, extra_data h))
    (λ '(a1, a2, a3, a4, a5, a6, a7, a8, a9, a10, a11, a12, a13, a14, a15, a16, e),
      {| height := a1; timestamp := a2; parent_hash := a3; transactions_root := a4; state_root := a5;
         receipts_root := a6; proposer := a7; hdr_epoch := a8; protocol_version := a9; dag_round := a10;
         dag_anchor := a11; validators_hash := a12; next_validators_hash := a13; gas_limit := a14;
         gas_used := a15; base_fee := a16; extra_data := e |}) _).
  by intros [].
Defined.
#[export] Instance wire_block : Wire Block.
Proof.
  refine (wire_iso (λ b, (header b, transactions b, receipts b, quorum_cert b))
    (λ '(h, t, r, q), {| header := h; transactions := t; receipts := r; quorum_cert := q |}) _).
  by intros [].
Defined.
#[export] Instance wire_batch : Wire Batch.
Proof. refine (wire_iso (λ b, (b_author b, b_txs b)) (λ '(a, t), {| b_author := a; b_txs := t |}) _). by intros []. Defined.
#[export] Instance wire_ack : Wire CommitAckPayload.
Proof.
  refine (wire_iso (λ a, (ack_height a, ack_header_digest a, ack_signer a, ack_signature a))
    (λ '(h, d, s, g), {| ack_height := h; ack_header_digest := d; ack_signer := s; ack_signature := g |}) _).
  by intros [].
Defined.

(** The whole sequence is the value. *)
Definition wire_codec {T} `{!Wire T} : Codec T := {|
  serialize x := Ok (put x);
  deserialize b := match get b with Some (x, []) => Ok x | Some _ => Err "trailing"%string | None => Err "short"%string end;
|}.
Lemma wire_codec_laws {T} `{!Wire T} : @CodecLaws T wire_codec.
Proof. intros x b [= <-]. cbn. rewrite <-(app_nil_r (put x)). by rewrite get_put. Qed.
