(* ===== verification/Witnesses.v ===== *)
(** * The theorems at work

    Each theorem with hypotheses is applied here to concrete data on which its
    hypotheses hold: the committee and blocks of [Scenario], the views of
    [CommitFork], runs of the driver, and small certificates, headers and
    validators. *)
From S2P Require Import Prelude CoreTypes StakeAgg DagBlock DagGraph Scenario ThresholdClock Committer Leader CommitFork Linearizer CommitBatching Surge SurgeExamples Cert Fee Rewards Slashing Epoch.

(** ** Data *)

Definition nth_block (l : list DagBlock) (i : nat) : DagBlock := default slow_block (l !! i).

Definition early_leader : DagBlockRef := Eval vm_compute in reference (nth_block round3 3).
Definition late_leader : DagBlockRef := Eval vm_compute in reference (nth_block fork_round6 1).
Definition block_0_1 : DagBlock := Eval vm_compute in nth_block round0 0.
Definition block_1_1 : DagBlock := Eval vm_compute in nth_block round1 0.
Definition leader3 : DagBlockRef := Eval vm_compute in reference (nth_block round3 3).
Definition twin_0_1 : DagBlock := Eval vm_compute in clock_block 1000 1.
Definition four_rounds : list DagBlock := round0 ++ round1 ++ round2 ++ round3.

Definition uneven_scores : ReputationScores := {| scores := <[2 := 1]> (<[3 := 2]> {[4 := 3]}) |}.

Definition ack_from (a : Address) : CommitAckPayload * bool :=
  ({| ack_height := 1; ack_header_digest := 5; ack_signer := a; ack_signature := Unsigned |}, true).
Definition sigs_123 : gmap Address bool := <[1 := true]> (<[2 := true]> {[3 := true]}).
Definition sigs_234 : gmap Address bool := <[2 := true]> (<[3 := true]> {[4 := true]}).
Definition qc_123 : QuorumCert :=
  {| qc_height := 1; qc_header_digest := 5; signers := (λ _, Unsigned) <$> sigs_123 |}.
Definition qc_234 : QuorumCert :=
  {| qc_height := 1; qc_header_digest := 6; signers := (λ _, Unsigned) <$> sigs_234 |}.

Definition mk_header (limit used : N) (fee : Amount) (vh nvh : Hash) : BlockHeader :=
  {| height := 1; timestamp := 0; parent_hash := 0; transactions_root := 0; state_root := 0; receipts_root := 0;
     proposer := 1; hdr_epoch := 0; protocol_version := 1; dag_round := 3; dag_anchor := 0; validators_hash := vh;
     next_validators_hash := nvh; gas_limit := limit; gas_used := used; base_fee := fee; extra_data := [] |}.
Definition vset4_hash : Hash := Eval vm_compute in ValidatorSet_hash test_hash vset4.
Definition one_step_proof : EpochChangeProof :=
  {| boundary_headers := [mk_header 100 50 1 vset4_hash vset4_hash]; boundary_certs := [qc_123];
     next_validator_sets := [vset4] |}.

Definition genesis_supply : Amount := 1000000000 * DROPS_PER_LEM.
Definition small_validators : gmap Address Validator := {[1 := small_validator]}.
Definition settled : gmap Address Validator * result EpochError EpochOutput :=
  advance_epoch (λ _, 0) small_epoch small_validators [] genesis_supply 10 20 1.
Definition settled_out : EpochOutput :=
  match settled.2 with
  | Ok out => out
  | Err _ => {| out_epoch := small_epoch; out_next_validators_hash := 0; out_leader_schedule := schedule4;
                out_minted := 0; out_burned_remainder := 0 |}
  end.

Definition double_vote : DoubleSignEvidence :=
  {| vote_a := reference block_0_1; vote_b := reference twin_0_1; infraction_height := 3; infraction_time := 0;
     accused := 1; validator_power := 1; ev_total_power := 4 |}.

Definition window4 : SignedBlocksWindow :=
  {| bits := [true; true; true; true]; missed_count := 0; max_missed := 1; last_breach_height := None |}.

Definition clock_samples : list (N * N) := [(1, 10); (1, 1000000); (1, 20)].

(** ** Consensus *)

Lemma byz1_bounded : byz_bounded vset4 {[1]}.
Proof. vm_compute. done. Qed.

Lemma commit_agreement_witness :
  (∀ r2, Commit r2 ∈ [Skip (DagBlockRef_slot early_leader); Commit late_leader] →
     DagBlockRef_slot early_leader = DagBlockRef_slot r2 → early_leader = r2) ∧
  try_direct_decide (DagBlockRef_slot early_leader) view_late vset4 ≠ Ok (Skip (DagBlockRef_slot early_leader)).
Proof.
  apply (commit_agreement test_hash vset4 {[1]} 0 0 view_early view_late (elect_leader schedule4)
    (elect_leader schedule4) genesis_slot genesis_slot [Commit early_leader]).
  - exact vset4_wf.
  - exact byz1_bounded.
  - apply honest_check_sound. vm_compute. done.
  - apply store_of_reachable.
  - apply store_of_reachable.
  - vm_compute. done.
  - vm_compute. done.
  - left.
Defined.

Lemma try_decide_gapless_witness :
  let rounds := wave_rounds (slot_round genesis_slot + 1) (highest_accepted_round view_early - 2) in
  (∀ n, n ∈ rounds ↔ slot_round genesis_slot < n <= highest_accepted_round view_early - 2 ∧ n mod WAVE_LENGTH = 0) ∧
  Forall (λ s, is_decided s = true) [Commit early_leader] ∧
  (LeaderStatus_slot <$> [Commit early_leader]) `prefix_of` (elect_leader schedule4 <$> rounds) ∧
  ∃ sts, decides view_early vset4 (elect_leader schedule4) rounds sts ∧ [Commit early_leader] = decided_prefix sts.
Proof.
  apply (try_decide_gapless test_hash vset4 0 view_early (elect_leader schedule4) genesis_slot [Commit early_leader]).
  - apply store_of_reachable.
  - done.
  - vm_compute. done.
Defined.

Lemma try_decide_never_fails_witness :
  ∃ out, try_decide genesis_slot view_late vset4 (elect_leader schedule4) = Ok out.
Proof. apply (try_decide_never_fails vset4 view_late (elect_leader schedule4) genesis_slot). exact vset4_wf. Defined.

Lemma dag_store_invariant_witness :
  size (blocks view_late) = 32%nat ∧
  (∀ r1 r2, is_Some (blocks view_late !! r1) → is_Some (blocks view_late !! r2) →
     DagBlockRef_slot r1 = DagBlockRef_slot r2 → r1 = r2) ∧
  (∀ r b a, blocks view_late !! r = Some b → a ∈ ancestors b →
     is_Some (blocks view_late !! a) ∨ ref_round a <= gc_round view_late).
Proof.
  split; [vm_compute; done|].
  pose proof (dag_store_invariant test_hash vset4 0 view_late (store_of_reachable _)) as (H1 & _ & H3 & _).
  exact (conj H1 H3).
Defined.

Lemma insert_accepts_witness :
  ∃ d', Dag_insert test_hash (store_of round0) block_1_1 vset4 true = Ok (d', Accepted)
    ∧ is_Some (blocks d' !! reference block_1_1)
    ∧ block_at_slot d' (DagBlock_slot block_1_1) = Some (reference block_1_1)
    ∧ ∀ r, is_Some (blocks (store_of round0) !! r) → is_Some (blocks d' !! r).
Proof.
  apply (insert_accepts test_hash vset4 (store_of round0) block_1_1).
  - apply (dag_reachable_ok _ _ 0), store_of_reachable.
  - vm_compute. done.
  - vm_compute. done.
  - vm_compute. done.
  - vm_compute. eauto.
  - right. vm_compute. done.
  - repeat constructor; vm_compute; eauto.
  - vm_compute. done.
  - vm_compute. done.
Defined.

Lemma insert_reports_equivocation_witness :
  Dag_insert test_hash (store_of round0) twin_0_1 vset4 true =
    Ok (store_of round0, OutcomeEquivocation (blk_author twin_0_1) (blk_round twin_0_1)
      (ref_digest (reference block_0_1)) (digest twin_0_1)).
Proof.
  apply (insert_reports_equivocation test_hash vset4 0 (store_of round0) twin_0_1 (reference block_0_1)).
  - apply store_of_reachable.
  - vm_compute. done.
  - vm_compute. done.
  - vm_compute. eauto.
  - left. vm_compute. done.
  - vm_compute. constructor.
  - vm_compute. done.
  - vm_compute. eauto.
  - vm_compute. done.
  - vm_compute. done.
Defined.

Lemma set_last_committed_round_drops_exactly_witness :
  let d' := set_last_committed_round (store_of four_rounds) 31 in
  store_ok test_hash vset4 d' ∧ gc_round (store_of four_rounds) <= gc_round d' ∧ gc_round d' = 31 - GC_DEPTH ∧
  blocks d' !! reference block_1_1 =
    if decide (gc_round d' < ref_round (reference block_1_1))
    then blocks (store_of four_rounds) !! reference block_1_1 else None.
Proof.
  apply (set_last_committed_round_drops_exactly test_hash vset4 (store_of four_rounds) 31 (reference block_1_1)).
  - apply (dag_reachable_ok _ _ 0), store_of_reachable.
  - vm_compute. done.
Defined.

Lemma driver4_run l :
  forallb (sane_check vset4) l = true →
  surge_run test_hash vset4 (feed test_hash driver4 l).1 (returned (feed test_hash driver4 l).2).
Proof.
  intros Hl%sane_check_sound. destruct (feed test_hash driver4 l) as [s rs] eqn:E.
  refine (feed_run test_hash vset4 driver4 [] l s rs _ Hl E). constructor. exact driver4_new.
Qed.

Lemma surge_commit_chain_witness :
  let cs := returned (feed test_hash driver4 first_wave).2 in
  length cs = 1%nat ∧ chained test_hash 1 genesis_previous 0 cs ∧ NoDup (linearized cs)
  ∧ StronglySorted N.lt (0 :: (leader_round <$> cs))
  ∧ Forall (λ c, leader_round c mod WAVE_LENGTH = 0
      ∧ leader_round c <= slot_round (last_decided (feed test_hash driver4 first_wave).1)) cs.
Proof.
  split; [vm_compute; done|].
  apply (surge_commit_chain test_hash vset4 (feed test_hash driver4 first_wave).1).
  - exact vset4_wf.
  - apply driver4_run. vm_compute. done.
Defined.

Lemma block_0_1_sane : sane_block vset4 block_0_1.
Proof. apply (Forall_inv (l := [])), sane_check_sound. vm_compute. done. Qed.

Lemma on_block_fails_only_by_rejection_witness :
  match Dag_insert test_hash (dag driver4) block_0_1 vset4 true with
  | Err e => on_block test_hash driver4 block_0_1 true = (driver4, Err e)
  | Ok (d1, out) => ∃ s' o, on_block test_hash driver4 block_0_1 true = (s', Ok o) ∧ outcome o = out
      ∧ equivocations o = pending_equivocations d1 ++ (if is_equivocation out then [out] else [])
      ∧ (out ≠ Accepted → new_round o = None ∧ commits o = [])
  end.
Proof.
  apply (on_block_fails_only_by_rejection test_hash vset4 driver4 []).
  - exact vset4_wf.
  - constructor. exact driver4_new.
  - exact block_0_1_sane.
Defined.

Lemma longer_view : honest_views ∅ (store_of four_rounds) (store_of (four_rounds ++ round4)).
Proof. apply honest_check_sound. vm_compute. done. Qed.

Lemma linearize_deterministic_witness :
  linearize_sub_dag leader3 (store_of four_rounds) ∅ = linearize_sub_dag leader3 (store_of (four_rounds ++ round4)) ∅.
Proof.
  apply (linearize_deterministic test_hash vset4 0 0).
  - apply store_of_reachable.
  - apply store_of_reachable.
  - vm_compute. eauto.
  - vm_compute. eauto.
  - vm_compute. done.
  - intros r b1 b2 H1 H2. unfold ancestors. f_equal. apply (longer_view r b1 r b2 H1 H2 eq_refl). apply not_elem_of_empty.
Defined.

Lemma stake_weighted_median_spec_witness :
  ∃ m, stake_weighted_median test_hash clock_samples = Ok m ∧ (∃ w, (w, m) ∈ clock_samples)
    ∧ weight_of (λ s, s.2 <? m) clock_samples <= total_of clock_samples / 2
    ∧ total_of clock_samples / 2 < weight_of (λ s, s.2 <=? m) clock_samples
    ∧ (∃ lo, lo ∈ clock_samples ∧ (lo.2 <? 100) = true ∧ lo.2 <= m)
    ∧ (∃ hi, hi ∈ clock_samples ∧ (hi.2 <? 100) = true ∧ m <= hi.2).
Proof.
  apply (stake_weighted_median_spec test_hash clock_samples (λ s, s.2 <? 100)); vm_compute; done.
Defined.

Lemma empty_body_fits b :
  body_epoch b < 2 ^ 64 → body_round b < 2 ^ 64 → body_author b < 2 ^ 160 → body_timestamp_ms b < 2 ^ 64 →
  body_ancestors b = [] → body_payload b = [] → body_commit_votes b = [] → body_fits b.
Proof.
  intros ? ? ? ? Ha Hp Hv. unfold body_fits, seq_fits. rewrite Ha, Hp, Hv. split_and!; done.
Qed.

Lemma verify_digest_binds_body_witness :
  verify_digest test_hash (DagBlock_new test_hash (body block_0_1) Unsigned) = true ∧
  (verify_digest test_hash twin_0_1 = true →
   digest twin_0_1 = digest (DagBlock_new test_hash (body block_0_1) Unsigned) →
   body twin_0_1 = body block_0_1 ∨
   (body_preimage (body twin_0_1) ≠ body_preimage (body block_0_1)
    ∧ test_hash (body_preimage (body twin_0_1)) = test_hash (body_preimage (body block_0_1)))).
Proof.
  apply (verify_digest_binds_body test_hash (body block_0_1) Unsigned twin_0_1).
  - apply empty_body_fits; vm_compute; done.
  - apply empty_body_fits; vm_compute; done.
Defined.

Definition clock_after_round0 : ThresholdClock :=
  match run_clock vset4 (ThresholdClock_new 4) round0 with Ok c => c | Err _ => ThresholdClock_new 4 end.

Lemma clock_leaves_round_by_quorum_witness :
  clock_round clock_after_round0 = 1 ∧ is_quorum vset4 (voters vset4 (authors_at round0 0)).
Proof.
  split; [vm_compute; done|].
  apply (clock_leaves_round_by_quorum vset4 round0 clock_after_round0); vm_compute; done.
Defined.

Lemma clock_advances_on_quorum_witness :
  match run_clock vset4 (ThresholdClock_at_round 0 4) round0 with Ok c => clock_round c = 0 + 1 | Err _ => False end.
Proof.
  apply (clock_advances_on_quorum vset4 0 round0).
  - exact vset4_wf.
  - vm_compute. done.
  - vm_compute. done.
  - repeat constructor.
  - vm_compute. done.
Defined.

Lemma swap_table_sound_witness :
  is_Some (members vset4 !! 1) ∧ is_Some (members vset4 !! 4) ∧ score uneven_scores 1 < score uneven_scores 4
  ∧ swaps (from_scores uneven_scores vset4 1) !! 4 = None
  ∧ ∀ b', swaps (from_scores uneven_scores vset4 1) !! b' = Some 4 → b' = 1.
Proof. apply (swap_table_sound uneven_scores vset4 1 1 4). vm_compute. done. Defined.

Lemma leader_rotation_witness :
  ∃ w, w < 4 ∧ slot_author (elect_leader schedule4 (WAVE_LENGTH * w)) = 3.
Proof.
  apply (leader_rotation vset4 schedule4).
  - vm_compute. done.
  - vm_compute. done.
  - vm_compute. done.
  - vm_compute. eauto.
Defined.

(** ** Certificates *)

Lemma accumulated_cert_verifies_witness :
  let X := ackers vset4 1 5 [ack_from 1; ack_from 2; ack_from 3] in
  match try_build_qc (run_acks vset4 (for_validator_set 1 5 vset4) [ack_from 1; ack_from 2; ack_from 3]) with
  | Some qc => is_quorum vset4 X ∧ qc_height qc = 1 ∧ qc_header_digest qc = 5
      ∧ dom (signers qc) = X
      ∧ (∀ a s, signers qc !! a = Some s → ∃ p, p ∈ [ack_from 1; ack_from 2; ack_from 3] ∧ ack_valid vset4 1 5 p
           ∧ ack_signer p.1 = a ∧ ack_signature p.1 = s)
      ∧ ∀ sigs, (∀ a, a ∈ X → sigs !! a = Some true) → verify_quorum_cert qc vset4 5 sigs = Ok ()
  | None => ~ is_quorum vset4 X
  end.
Proof.
  apply (accumulated_cert_verifies vset4 1 5 [ack_from 1; ack_from 2; ack_from 3]); [exact vset4_wf|vm_compute; done].
Defined.

Lemma verify_quorum_cert_exact_witness :
  verify_quorum_cert qc_123 vset4 5 sigs_123 = Ok () ↔
  qc_header_digest qc_123 = 5 ∧ (∀ a, a ∈ dom (signers qc_123) → sigs_123 !! a = Some true)
  ∧ is_quorum vset4 (dom (signers qc_123)).
Proof. apply (verify_quorum_cert_exact qc_123 vset4 5 sigs_123); [exact vset4_wf|vm_compute; done]. Defined.

Lemma verified_certs_share_honest_signer_witness :
  ∃ a, a ∉ ({[1]} : gset Address) ∧ is_Some (signers qc_123 !! a) ∧ is_Some (signers qc_234 !! a)
    ∧ sigs_123 !! a = Some true ∧ sigs_234 !! a = Some true.
Proof.
  apply (verified_certs_share_honest_signer vset4 {[1]} qc_123 qc_234 5 6 sigs_123 sigs_234).
  - exact vset4_wf.
  - exact byz1_bounded.
  - vm_compute. done.
  - vm_compute. done.
Defined.

(** ** Epochs *)

Lemma verify_epoch_change_exact_witness :
  verify_epoch_change test_hash one_step_proof vset4 [5] [sigs_123] = Ok () ∧
  (verify_epoch_change test_hash one_step_proof vset4 [5] [sigs_123] = Ok () ↔
   boundary_headers one_step_proof ≠ [] ∧
   trusted_chain test_hash vset4 (boundary_headers one_step_proof) (boundary_certs one_step_proof)
     (next_validator_sets one_step_proof) [5] [sigs_123]).
Proof.
  split; [vm_compute; done|].
  apply (verify_epoch_change_exact test_hash one_step_proof vset4 [5] [sigs_123]).
  repeat constructor; vm_compute; done.
Defined.

Lemma settled_ok :
  advance_epoch (λ _, 0) small_epoch small_validators [] genesis_supply 10 20 1 = (settled.1, Ok settled_out).
Proof. vm_compute. done. Qed.

Lemma advance_epoch_settles_witness :
  dom settled.1 = dom small_validators ∧
  ∀ w, settled.1 !! 1 = Some w →
    stake_total w = stake_total small_validator + reward_of (epoch_validators small_epoch) (out_minted settled_out) 1.
Proof.
  pose proof (advance_epoch_settles (λ _, 0) small_epoch small_validators [] genesis_supply 10 20 1 settled.1
    settled_out settled_ok) as [Hd H].
  split; [exact Hd|]. intros w Hw. exact (proj1 (H 1 small_validator w eq_refl Hw)).
Defined.

Lemma next_committee_is_eligible_witness :
  let next := epoch_validators (out_epoch settled_out) in
  number (out_epoch settled_out) = 1 ∧ members next ≠ ∅ ∧
  ∀ a mem, members next !! a = Some mem ↔
    ∃ w, settled.1 !! a = Some w ∧ status w = Bonded ∧ tombstoned w = false ∧ jailed_until w = None
      ∧ 1 <= active (self_stake w) ∧ mem = member_of w.
Proof.
  pose proof (next_committee_is_eligible (λ _, 0) small_epoch small_validators [] genesis_supply 10 20 1 settled.1
    settled_out settled_ok) as H.
  split; [exact (proj1 H)|]. split; [apply H|]. apply H.
Defined.

(** ** Slashing, fees and rewards *)

Lemma window_counts_last_blocks_witness :
  let '(w', rs) := record_run window4 10 [true; false; false] in
  missed_count w' = count_missed (last_n 4 [true; false; false])
  ∧ ∀ i, (i < 3)%nat → rs !! i =
      Some (if 1 <? count_missed (last_n 4 (take (S i) [true; false; false])) then Some (10 + N.of_nat i) else None).
Proof. apply (window_counts_last_blocks 4 1 window4 10 [true; false; false]); vm_compute; done. Defined.

Lemma evidence_not_bound_to_votes_witness :
  verify_double_sign
    {| vote_a := vote_a double_vote; vote_b := vote_b double_vote; infraction_height := 9; infraction_time := 0;
       accused := 2; validator_power := 1; ev_total_power := 4 |} vset4 true true 0 ({[(1, 3)]} ∪ ∅) = Ok ().
Proof.
  apply (evidence_not_bound_to_votes double_vote vset4 0 ∅ 2 9).
  - vm_compute. done.
  - vm_compute. eauto.
  - apply not_elem_of_empty.
  - vm_compute. done.
Defined.

Lemma base_fee_moves_by_an_eighth_witness :
  let parent := mk_header 100 80 8000000000 0 0 in
  ∃ next, calculate_base_fee parent = Ok next ∧ MIN_BASE_FEE_DROP <= next
    ∧ 8000000000 - 8000000000 / 8 <= next <= N.max MIN_BASE_FEE_DROP (8000000000 + N.max (8000000000 / 8) 1)
    ∧ (50 < 80 → 8000000000 < next) ∧ (80 < 50 → next <= N.max MIN_BASE_FEE_DROP 8000000000)
    ∧ (80 = 50 → next = N.max MIN_BASE_FEE_DROP 8000000000).
Proof. apply (base_fee_moves_by_an_eighth (mk_header 100 80 8000000000 0 0)); vm_compute; done. Defined.

Lemma odd_gas_limit_exceeds_cap_witness :
  calculate_base_fee (mk_header 3 3 (8 * MIN_BASE_FEE_DROP) 0 0) = Ok (10 * MIN_BASE_FEE_DROP).
Proof. apply (odd_gas_limit_exceeds_cap (mk_header 3 3 (8 * MIN_BASE_FEE_DROP) 0 0)); vm_compute; done. Defined.

Lemma distribute_rewards_conserves_witness :
  ∃ vals' o, distribute_rewards small_validators (epoch_validators small_epoch) 1000 = (vals', Ok o)
    ∧ distributed o + burned_remainder o = 1000.
Proof.
  pose proof (distribute_rewards_conserves small_validators (epoch_validators small_epoch) 1000) as H.
  destruct (distribute_rewards small_validators (epoch_validators small_epoch) 1000) as [vals' [o|e]] eqn:E.
  - exists vals', o. split; [done|]. apply H. split; vm_compute; done.
  - exfalso. revert E. vm_compute. done.
Defined.
