(* ===== verification/StorageWitnesses.v ===== *)
(** * Storage, cryptography and mempool at work

    Codecs and a signature scheme that run, and the theorems of these components
    applied to concrete tries, states, chains and pools.  The signature scheme
    satisfies the laws the theorems ask for and nothing more: a key is a number
    and a signature carries it with the digest of the message. *)
From stdpp Require Import strings.
From S2P Require Import Prelude CoreTypes DagBlock Fee Db Trie TrieRoot TrieProof TrieExamples Transaction WorldState ChainStore Crypto MempoolPolicy RateLimit Mempool MempoolInv.

(** ** Codecs *)

Definition enc_account (a : Account) : bytes := [acc_nonce a; balance a; code_hash a; storage_root a; staked a].
Definition dec_account (b : bytes) : result string Account :=
  match b with
  | [n; v; c; r; s] => Ok {| acc_nonce := n; balance := v; code_hash := c; storage_root := r; staked := s |}
  | _ => Err "length"%string
  end.
#[export] Instance account_codec : Codec Account := {| serialize a := Ok (enc_account a); deserialize := dec_account |}.
#[export] Instance account_codec_laws : CodecLaws Account.
Proof. intros [] b [= <-]. done. Qed.

(** Blocks without transactions and certificate, by the fields of the header. *)
Definition enc_header (h : BlockHeader) : bytes :=
  [height h; timestamp h; parent_hash h; transactions_root h; state_root h; receipts_root h; proposer h; hdr_epoch h;
   protocol_version h; dag_round h; dag_anchor h; validators_hash h; next_validators_hash h; gas_limit h; gas_used h;
   base_fee h] ++ extra_data h.
Definition dec_header (b : bytes) : option BlockHeader :=
  match b with
  | a1 :: a2 :: a3 :: a4 :: a5 :: a6 :: a7 :: a8 :: a9 :: a10 :: a11 :: a12 :: a13 :: a14 :: a15 :: a16 :: rest =>
      Some {| height := a1; timestamp := a2; parent_hash := a3; transactions_root := a4; state_root := a5;
              receipts_root := a6; proposer := a7; hdr_epoch := a8; protocol_version := a9; dag_round := a10;
              dag_anchor := a11; validators_hash := a12; next_validators_hash := a13; gas_limit := a14;
              gas_used := a15; base_fee := a16; extra_data := rest |}
  | _ => None
  end.
Definition bare (h : BlockHeader) : Block := {| header := h; transactions := []; receipts := []; quorum_cert := None |}.
#[export] Instance block_codec : Codec Block := {|
  serialize b :=
    match b with
    | {| header := h; transactions := []; receipts := []; quorum_cert := None |} => Ok (enc_header h)
    | _ => Err "transactions"%string
    end;
  deserialize b := match dec_header b with Some h => Ok (bare h) | None => Err "length"%string end;
|}.
#[export] Instance block_codec_laws : CodecLaws Block.
Proof. intros [[] [|] [|] [|]] b Hb; try discriminate Hb. injection Hb as <-. done. Qed.

#[export] Instance body_codec : Codec TxSigningBody := {|
  serialize b := Ok [b_sender b; default 0 (b_to b); b_nonce b; b_chain_id b; b_value b; b_gas_limit b; b_gas_price b];
  deserialize _ := Err "unused"%string;
|}.

(** ** Keys *)

Definition padded (n : nat) (x : N) : bytes := x :: replicate (n - 1) 0.
Definition tag_sig (n : nat) (x : N) (m : bytes) : bytes := x :: poly_digest m :: replicate (n - 2) 0.
Definition check_sig (n : nat) (x : N) (m sig : bytes) : bool := bool_decide (sig = tag_sig n x m).

#[export] Instance tag_scheme : Hybrid65 := {|
  ed_sk := N; pq_sk := N; pq_pk := N;
  ed_sk_bytes := padded 32; ed_sk_from_bytes := hd 0; ed_verifying_key := padded 32; ed_vk_from_bytes := Ok;
  ed_sign := tag_sig 64; ed_verify vk m sig := check_sig 64 (hd 0 vk) m sig;
  pq_sk_bytes := padded 4032; pq_sk_from_bytes b := Ok (hd 0 b);
  pq_pk_bytes := padded 1952; pq_pk_from_bytes b := Ok (hd 0 b);
  pq_sign m sk := tag_sig 3309 sk m; pq_sig_from_bytes := Ok; pq_verify sig m pk := check_sig 3309 pk m sig;
  pq_signature_bytes := 3309; pq_pair sk pk := sk = pk;
|}.

Lemma length_padded n x : (0 < n)%nat → length (padded n x) = n.
Proof. intros. cbn. rewrite length_replicate. lia. Qed.
Lemma check_tag_sig n x m : check_sig n x m (tag_sig n x m) = true.
Proof. by apply bool_decide_eq_true. Qed.

#[export] Instance tag_scheme_laws : Hybrid65Laws.
Proof.
  split; intros; try done; cbn [ed_verifying_key ed_sk_bytes pq_sk_bytes pq_pk_bytes ed_verify pq_verify tag_scheme];
    try (apply length_padded; lia); [apply check_tag_sig|].
  match goal with H : pq_pair _ _ |- _ => cbn in H; subst end. apply check_tag_sig.
Qed.

Definition key_of (x : N) : KeyPair :=
  {| kp_classical := x; kp_quantum_sk := x; kp_quantum_pk := x;
     kp_address := Address_from_public_key poly_digest (padded 32 x) |}.

(** ** The trie *)

Lemma two_keys_inserts : inserts poly_digest db0 None two_keys db_two root_two.
Proof. apply inserts_run. vm_cast_no_check (eq_refl true). Qed.

Definition root_hash_two : Hash := Eval vm_compute in default 0 root_two.
Lemma root_two_eq : root_two = Some root_hash_two.
Proof. vm_compute. reflexivity. Qed.

Lemma two_keys_stored : stored_root poly_digest db_two root_two (last_write (λ _, None) two_keys).
Proof. by apply (inserts_stored poly_digest _ _ _ _ _ two_keys_inserts). Qed.

Lemma Trie_insert_refines_witness :
  ∃ r, Trie_insert poly_digest db_two root_two [18; 52] [9] = Some r ∧
    match r with
    | Ok (s', h) =>
        ∃ batch, insert_recursive poly_digest (path_fuel (NibblePath_from_bytes [18; 52])) db_two new_batch root_two
            (NibblePath_from_bytes [18; 52]) [9] = Some (Ok (batch, h)) ∧
          (clash poly_digest db_two (node_puts batch) ∨
           ∀ key', Trie_get s' (Some h) key'
                     = Some (Ok (if decide (key' = [18; 52]) then Some [9]
                                 else last_write (λ _, None) two_keys (NibblePath_from_bytes key')))
                   ∧ Trie_get s' root_two key' = Some (Ok (last_write (λ _, None) two_keys (NibblePath_from_bytes key'))))
    | Err e => write_error e
    end.
Proof.
  apply (Trie_insert_refines poly_digest db_two root_two (last_write (λ _, None) two_keys) [18; 52] [9]).
  - exact two_keys_stored.
  - repeat constructor.
Defined.

Lemma inserts_get_witness :
  Trie_get db_two root_two [18; 53] = Some (Ok (Some [8])) ∧ Trie_get db_two root_two [18] = Some (Ok None).
Proof.
  split; [apply (inserts_get poly_digest db0 two_keys db_two root_two [18; 53])|
          apply (inserts_get poly_digest db0 two_keys db_two root_two [18])]; exact two_keys_inserts.
Defined.

(** The same contents by another history: overwritten values, other order. *)
Definition two_keys' : list (bytes * bytes) := [([18; 53], [1]); ([18; 52], [7]); ([18; 53], [8])].
Definition db_two' : MemDb := default db0 (fst <$> trie_insert_all db0 None two_keys').
Definition root_two' : option Hash := default None (snd <$> trie_insert_all db0 None two_keys').

Lemma two_keys_inserts' : inserts poly_digest db0 None two_keys' db_two' root_two'.
Proof. apply inserts_run. vm_cast_no_check (eq_refl true). Qed.

Lemma inserts_root_order_independent_witness : two_keys ≠ two_keys' ∧ root_two = root_two'.
Proof.
  split; [done|].
  apply (inserts_root_order_independent poly_digest db0 db0 two_keys two_keys' db_two db_two').
  - exact two_keys_inserts.
  - exact two_keys_inserts'.
  - intros key. cbn [lookup_last two_keys two_keys'].
    destruct (decide ([18; 52] = key)), (decide ([18; 53] = key)); done || congruence.
Defined.

Lemma generate_proof_verifies_witness :
  ∃ proof, generate_proof db_two (Some root_hash_two) [18; 52] = Some (Ok proof) ∧ mp_key proof = [18; 52] ∧
    mp_value proof = Some [7] ∧ verify poly_digest proof root_hash_two = Ok ().
Proof.
  apply (generate_proof_verifies poly_digest db0 two_keys db_two root_hash_two [18; 52]).
  rewrite <-root_two_eq. exact two_keys_inserts.
Defined.

Definition proof_52 : MerkleProof :=
  match generate_proof db_two root_two [18; 52] with
  | Some (Ok p) => p
  | _ => {| mp_key := []; mp_value := None; mp_nodes := [] |}
  end.

Lemma verify_sound_witness :
  mp_value proof_52 = Some [7] ∧ exts_match (NibblePath_from_bytes (mp_key proof_52)) (mp_nodes proof_52) = true ∧
  (proof_clash poly_digest db_two (mp_nodes proof_52) ∨
   match mp_value proof_52 with
   | None => last_write (λ _, None) two_keys (NibblePath_from_bytes (mp_key proof_52)) = None
   | Some v => exts_match (NibblePath_from_bytes (mp_key proof_52)) (mp_nodes proof_52) = true →
               last_write (λ _, None) two_keys (NibblePath_from_bytes (mp_key proof_52)) = Some v
   end).
Proof.
  split; [vm_compute; reflexivity|]. split; [vm_compute; reflexivity|].
  apply (verify_sound poly_digest db_two root_hash_two (last_write (λ _, None) two_keys) proof_52).
  - pose proof two_keys_stored as H. rewrite root_two_eq in H. exact H.
  - vm_compute. reflexivity.
Defined.

(** The proof for the key [18 52] is accepted for [242 52], which was never inserted. *)
Lemma forged_key_accepted_witness :
  Trie_get db_two root_two [242; 52] = Some (Ok None) ∧
  verify poly_digest {| mp_key := [242; 52]; mp_value := Some [7]; mp_nodes := mp_nodes proof_52 |} root_hash_two = Ok ().
Proof.
  split; [vm_compute; reflexivity|].
  eapply (forged_key_accepted poly_digest proof_52 root_hash_two [1; 2; 3]).
  - vm_compute. reflexivity.
  - vm_compute. reflexivity.
  - vm_compute. reflexivity.
Defined.

(** ** World state and chain *)

Definition alice_key : KeyPair := Eval vm_compute in key_of 5.
Definition bob_key : KeyPair := Eval vm_compute in key_of 6.
Definition alice : Address := Eval vm_compute in kp_address alice_key.
Definition bob : Address := Eval vm_compute in kp_address bob_key.
Definition alice_kvs : list (bytes * bytes) :=
  [(Address_as_bytes alice, enc_account (new_eoa 1000000)); (Address_as_bytes bob, enc_account (new_eoa 1000000))].
Definition rich_db : MemDb := default db0 (fst <$> trie_insert_all db0 None alice_kvs).
Definition rich_root : option Hash := default None (snd <$> trie_insert_all db0 None alice_kvs).
Definition rich : WorldState MemDb := {| db := rich_db; ws_root := rich_root |}.
Definition rich_accounts : gmap Address Account := <[bob := new_eoa 1000000]> {[alice := new_eoa 1000000]}.

Lemma rich_holds : holds poly_digest rich rich_accounts.
Proof.
  exists (last_write (λ _, None) alice_kvs). split.
  - apply (inserts_stored poly_digest db0 None alice_kvs rich_db rich_root); [|done].
    apply inserts_run. vm_cast_no_check (eq_refl true).
  - intros a Ha. unfold account_path. rewrite (last_write_lookup poly_digest). unfold rich_accounts, alice_kvs. cbn [lookup_last].
    destruct (decide (Address_as_bytes alice = Address_as_bytes a)) as [E|E].
    + apply (be_bytes_inj 20) in E as <-; [|done|done]. rewrite decide_False by (intros E2; by apply (be_bytes_inj 20) in E2).
      eexists. split; [reflexivity|]. reflexivity.
    + assert (a ≠ alice) by (intros ->; done).
      destruct (decide (Address_as_bytes bob = Address_as_bytes a)) as [E'|E'].
      * apply (be_bytes_inj 20) in E' as <-; [|done|done]. by eexists.
      * assert (a ≠ bob) by (intros ->; done). by rewrite lookup_insert_ne, lookup_singleton_ne.
Qed.

Lemma world_state_refines_witness :
  get_account rich alice = Some (Ok (Some (new_eoa 1000000))) ∧
  get_balance rich alice = Some (Ok 1000000) ∧ get_nonce rich alice = Some (Ok 0) ∧
  ∃ r, put_account poly_digest rich alice (new_eoa 7) = Some r ∧
    match r with
    | Ok w' => (∃ b batch h, serialize (new_eoa 7) = Ok b ∧
          insert_recursive poly_digest (path_fuel (account_path alice)) (db rich) new_batch (ws_root rich) (account_path alice) b
            = Some (Ok (batch, h)) ∧ clash poly_digest (db rich) (node_puts batch)) ∨
        (holds poly_digest w' (<[alice := new_eoa 7]> rich_accounts) ∧
         holds poly_digest {| db := db w'; ws_root := ws_root rich |} rich_accounts)
    | Err e => write_error e
    end.
Proof.
  apply (world_state_refines poly_digest rich rich_accounts alice (new_eoa 7)).
  - exact rich_holds.
  - done.
Defined.

Definition header_at (n : N) : BlockHeader :=
  {| height := n; timestamp := n; parent_hash := 0; transactions_root := 0; state_root := 0; receipts_root := 0;
     proposer := 1; hdr_epoch := 0; protocol_version := 1; dag_round := 3; dag_anchor := 0; validators_hash := 0;
     next_validators_hash := 0; gas_limit := 100; gas_used := 0; base_fee := 1; extra_data := [] |}.
Definition no_chain : Chain := {| by_height := ∅; by_hash := ∅; chain_tip := None |}.

Lemma put_block_refines_witness :
  match put_block db0 (bare (header_at 4)) 77 with
  | Ok s' =>
      let C' := chain_put no_chain (bare (header_at 4)) 77 in
      chain_holds s' C' ∧ chain_wf C' ∧ tip s' = Ok (chain_tip C') ∧
      (∀ h, h <= u64_max → get_block_by_height s' h = Ok (by_height C' !! h)) ∧
      (∀ h, h < 256 ^ 32 → get_block_by_hash s' h = Ok (by_hash C' !! h))
  | Err e => match e with SerializationFailed _ | ColumnFamilyNotFound _ | BatchFailed _ => True | _ => False end
  end.
Proof.
  apply (put_block_refines db0 no_chain (bare (header_at 4)) 77).
  - split_and!; [intros; cbn; by rewrite lookup_empty..|done].
  - split; [intros h b; cbn; by rewrite lookup_empty|done].
  - done.
  - done.
  - intros b. cbn. by rewrite lookup_empty.
Defined.

(** ** Signatures and the pool *)

Definition pay (from : KeyPair) (n price : N) : Transaction :=
  {| tx_hash := 0; sender := kp_address from; to := Some 9; nonce := n; chain_id := 1; value := 10; tx_gas_limit := 100;
     gas_price := price; tx_type := Transfer; data := []; signature := Unsigned; session_key := None;
     owner_cosignature := None |}.
Definition signed (from : KeyPair) (n price : N) : Transaction :=
  match sign_transaction poly_digest (pay from n price) from with Ok tx => tx | Err _ => pay from n price end.

Lemma sign_verify_roundtrip_witness :
  verify_transaction poly_digest (signed alice_key 0 20) (public_key alice_key) = Ok () ∧
  compute_tx_hash poly_digest (signed alice_key 0 20) = Ok (tx_hash (signed alice_key 0 20)) ∧
  verify_message poly_digest [1; 2; 3] (sign_message poly_digest [1; 2; 3] alice_key) (public_key alice_key) = Ok ().
Proof.
  apply (sign_verify_roundtrip poly_digest alice_key (pay alice_key 0 20)).
  - reflexivity.
  - reflexivity.
Defined.

Definition size_100 (tx : Transaction) : result string N := Ok 100.
Definition ctx_at (now : N) : AdmitContext := {| ac_chain_id := 1; ac_base_fee := 5; ac_now := now |}.
Definition admit_at (P : Mempool) (from : KeyPair) (tx : Transaction) (now : N)
    : option (Mempool * result MempoolError AdmitOutcome) :=
  Mempool_admit poly_digest size_100 P tx (public_key from) 0 None rich (ctx_at now).
Definition pool_after (P : Mempool) (from : KeyPair) (tx : Transaction) (now : N) : Mempool :=
  default P (fst <$> admit_at P from tx now).
Definition outcome (P : Mempool) (from : KeyPair) (tx : Transaction) (now : N) : option (result MempoolError AdmitOutcome) :=
  snd <$> admit_at P from tx now.

Lemma admit_at_eq P from tx now r :
  outcome P from tx now = Some r →
  Mempool_admit poly_digest size_100 P tx (public_key from) 0 None rich (ctx_at now) = Some (pool_after P from tx now, r).
Proof.
  change (Mempool_admit _ _ _ _ _ _ _ _ _) with (admit_at P from tx now).
  unfold outcome, pool_after. destruct (admit_at P from tx now) as [[P' r']|]; [|done]. by intros [= ->].
Qed.

Definition empty_pool : Mempool := Mempool_new 10.
Definition tx_a : Transaction := Eval vm_compute in signed alice_key 0 20.
Definition tx_b : Transaction := Eval vm_compute in signed bob_key 0 30.
(** Bob's transaction under Alice's hash, and Alice's offer at a higher price. *)
Definition tx_forged : Transaction := with_hash_sig tx_b (tx_hash tx_a) (signature tx_b).
Definition tx_bump : Transaction := Eval vm_compute in signed alice_key 0 25.
Definition pool_a : Mempool := pool_after empty_pool alice_key tx_a 0.
Definition pool_ab : Mempool := pool_after pool_a bob_key tx_b 1.

Lemma pool_a_entry : pe_tx <$> entries pool_a !! tx_hash tx_a = Some tx_a.
Proof. vm_cast_no_check (eq_refl (Some tx_a)). Qed.

Lemma pool_a_reach : pool_reach poly_digest size_100 (DB:=MemDb) pool_a.
Proof.
  apply (reach_admit poly_digest size_100 empty_pool tx_a (public_key alice_key) 0 None rich (ctx_at 0) pool_a (Ok Inserted)); [apply reach_new|..].
  - done.
  - intros e. cbn. by rewrite lookup_empty.
  - apply (admit_at_eq empty_pool alice_key tx_a 0 (Ok Inserted)). vm_cast_no_check (eq_refl (Some (@Ok MempoolError _ Inserted))).
Qed.

Lemma pool_ab_reach : pool_reach poly_digest size_100 (DB:=MemDb) pool_ab.
Proof.
  apply (reach_admit poly_digest size_100 pool_a tx_b (public_key bob_key) 0 None rich (ctx_at 1) pool_ab (Ok Inserted)); [apply pool_a_reach|..].
  - vm_compute. done.
  - intros e He. assert (entries pool_a !! tx_hash tx_b = None) as H by (vm_compute; done). congruence.
  - apply (admit_at_eq pool_a bob_key tx_b 1 (Ok Inserted)). vm_cast_no_check (eq_refl (Some (@Ok MempoolError _ Inserted))).
Qed.

Lemma admit_refines_witness :
  pool_wf (pool_after pool_a alice_key tx_bump 2) ∧
  admitted pool_a (pool_after pool_a alice_key tx_bump 2) tx_bump (priority_score (gas_price tx_bump) 0) None
    (Ok (Replaced (tx_hash tx_a))).
Proof.
  apply (admit_refines poly_digest size_100 pool_a tx_bump (public_key alice_key) 0 None rich (ctx_at 2)).
  - apply (pool_reach_wf poly_digest size_100), pool_a_reach.
  - vm_compute. done.
  - intros e He. assert (entries pool_a !! tx_hash tx_bump = None) as H by (vm_compute; done). congruence.
  - apply (admit_at_eq pool_a alice_key tx_bump 2 (Ok (Replaced (tx_hash tx_a)))).
    vm_cast_no_check (eq_refl (Some (@Ok MempoolError _ (Replaced (tx_hash tx_a))))).
Defined.

Lemma pool_reach_unique_witness :
  size (entries pool_ab) = 2%nat ∧
  ∀ e, entries pool_ab !! tx_hash tx_a = Some e →
    tx_hash tx_a = tx_hash tx_a ∧ e = e ∧ N.of_nat (size (entries pool_ab)) <= capacity pool_ab.
Proof.
  split; [vm_compute; done|]. intros e He.
  apply (pool_reach_unique poly_digest size_100 pool_ab (tx_hash tx_a) (tx_hash tx_a) e e pool_ab_reach He He).
  exact (or_introl (conj eq_refl eq_refl)).
Defined.

Lemma forged_hash_poisons_witness :
  ∃ victim, entries pool_a !! tx_hash tx_forged = Some victim ∧ sender (pe_tx victim) = alice ∧
    pe_tx <$> entries (pool_after pool_a bob_key tx_forged 2) !! tx_hash tx_forged = Some tx_forged ∧
    slot (by_sender (pool_after pool_a bob_key tx_forged 2)) (sender (pe_tx victim)) (nonce (pe_tx victim))
      = Some (tx_hash tx_forged) ∧
    priority_index (pool_after pool_a bob_key tx_forged 2) !! (pe_priority victim, pe_seq victim) = Some (tx_hash tx_forged) ∧
    ¬ pool_wf (pool_after pool_a bob_key tx_forged 2).
Proof.
  destruct (entries pool_a !! tx_hash tx_forged) as [victim|] eqn:Hv; cycle 1.
  { exfalso. pose proof pool_a_entry as H. change (tx_hash tx_forged) with (tx_hash tx_a) in Hv. rewrite Hv in H. done. }
  assert (pe_tx victim = tx_a) as Ht.
  { pose proof pool_a_entry as H. change (tx_hash tx_forged) with (tx_hash tx_a) in Hv. rewrite Hv in H. by injection H. }
  exists victim. split; [exact eq_refl|]. split; [by rewrite Ht|].
  apply (forged_hash_poisons poly_digest size_100 pool_a tx_forged (public_key bob_key) 0 None rich (ctx_at 2)).
  - apply (pool_reach_wf poly_digest size_100), pool_a_reach.
  - done.
  - rewrite Ht. done.
  - vm_compute. done.
  - apply (admit_at_eq pool_a bob_key tx_forged 2 (Ok Inserted)). vm_cast_no_check (eq_refl (Some (@Ok MempoolError _ Inserted))).
Defined.

Lemma pending_sorted_witness :
  pending_by_priority pool_ab 1 = [tx_b] ∧
  ∃ es, pending_by_priority pool_ab 2 = pe_tx <$> es ∧ length es = (2 `min` size (entries pool_ab))%nat ∧ NoDup es ∧
    (∀ e, e ∈ es → entries pool_ab !! tx_hash (pe_tx e) = Some e) ∧
    StronglySorted (λ e1 e2, pe_priority e2 < pe_priority e1 ∨ (pe_priority e2 = pe_priority e1 ∧ pe_seq e2 < pe_seq e1)) es ∧
    (∀ h e, entries pool_ab !! h = Some e → e ∈ es ∨ ∀ e', e' ∈ es → pair_le (entry_key e) (entry_key e')).
Proof.
  split; [vm_cast_no_check (eq_refl [tx_b])|].
  apply (pending_sorted pool_ab 2), (pool_reach_wf poly_digest size_100), pool_ab_reach.
Defined.
