(* ===== verification/VmWitnesses.v ===== *)
(** * The virtual machine at work

    The scheduler, overlay, agent and executor theorems applied to concrete
    blocks, states and policies over the in-memory state view. *)
From stdpp Require Import strings.
From S2P Require Import Prelude CoreTypes DagBlock Fee Db TrieExamples Transaction Crypto VmState Flux FluxProof FluxEquiv FluxExamples VmGas Scratch SafetyManifest Agent Warden WardenSpec Host Executor ExecutorSpec.

#[export] Instance mem_view : ContractStateView InMemoryStateView := im_view poly_digest.

(** ** Flux *)

(** The second transaction reads what the first one writes. *)
Definition counter_block : list Prog :=
  [PPut (KNonce 1) (VNonce 5) (PDone (TransactionReceipt_new 1 true 0 []));
   PGet (KNonce 1) (λ v, PPut (KNonce 2) v (PDone (TransactionReceipt_new 2 true 0 [])))].

Lemma counter_tracked : Forall tracked counter_block.
Proof. by repeat constructor. Qed.

(** Worker 1 runs transaction 1 first; validation sends it back. *)
Definition counter_end : Shared * list Worker :=
  run_schedule zero_base counter_block ([0; 1; 1; 1; 1; 1; 1]%nat ++ replicate 60 0%nat ++ replicate 10 1%nat) (par_init counter_block 2).
Definition counter_middle : Shared * list Worker :=
  run_schedule zero_base counter_block [0; 1; 1; 1; 1; 1]%nat (par_init counter_block 2).

Lemma parallel_equals_sequential_witness :
  is_done (sh_sched counter_end.1) = true ∧
  writes_out (execute_sequential zero_base counter_block) !! KNonce 2 = Some (VNonce 5) ∧
  par_output [1; 2] counter_end.1 = execute_sequential zero_base counter_block.
Proof.
  split; [vm_cast_no_check (eq_refl true)|]. split; [vm_compute; done|].
  apply (parallel_equals_sequential zero_base counter_block) with (m := 2%nat).
  - done.
  - exact counter_tracked.
  - done.
  - apply run_schedule_sound.
  - vm_cast_no_check (eq_refl true).
Defined.

Lemma parallel_can_finish_witness :
  is_done (sh_sched counter_middle.1) = false ∧
  ∃ g ws, rtc (step zero_base counter_block) counter_middle (g, ws) ∧ ws ≠ [] ∧ Forall (eq WFinished) ws ∧
    par_output [1; 2] g = execute_sequential zero_base counter_block.
Proof.
  split; [vm_cast_no_check (eq_refl false)|].
  apply (parallel_can_finish zero_base counter_block) with (m := 2%nat).
  - done.
  - exact counter_tracked.
  - lia.
  - done.
  - apply run_schedule_sound.
Defined.

Definition copy_nonce (read : StateKey → (StateValue → Prog) → Prog) : list Prog :=
  copy_block (KNonce 1) (KNonce 2) (VNonce 5) (TransactionReceipt_new 1 true 0 []) (TransactionReceipt_new 2 true 0 []) read.
Lemma cloned_view_breaks_serialization_witness :
  (∃ s, reachable zero_base (copy_nonce PPeek) 2 s ∧ is_done (sh_sched s.1) = true ∧
     writes_out (par_output [1; 2] s.1) !! KNonce 2 = Some (VNonce 0)) ∧
  writes_out (execute_sequential zero_base (copy_nonce PPeek)) !! KNonce 2 = Some (VNonce 5).
Proof.
  destruct (cloned_view_breaks_serialization zero_base (KNonce 1) (KNonce 2) (VNonce 5) (TransactionReceipt_new 1 true 0 [])
    (TransactionReceipt_new 2 true 0 []) [1; 2]) as ((s & H1 & _ & H2 & H3) & H4 & _); [done|reflexivity|].
  split; [exists s; split; [exact H1|split; [exact H2|exact H3]]|exact H4].
Defined.

(** ** Overlay and constraints *)

#[export] Instance mem_laws : ViewLaws InMemoryStateView := im_laws poly_digest.
#[export] Instance mem_code_laws : CodeLaws InMemoryStateView := im_code_laws poly_digest.

Definition funded : InMemoryStateView := {|
  im_storage := <[(9, [1]) := [1]]> {[ (9, [2]) := [0] ]}; im_balances := <[5 := 1000]> {[9 := 3]};
  im_nonces := {[5 := 4]}; im_code := {[9 := [0; 97]]}; im_code_by_hash := ∅;
|}.
Definition overlay : ScratchState InMemoryStateView := sv_write (sv_delete (ScratchState_new funded) 9 [1]) 9 [3] [7].

(** A contract that copies a slot and drops another. *)
Definition copier : Guest (option bytes) :=
  GRead 9 [1] (λ a, GRead 9 [3] (λ b, GWrite 9 [4] (default [] b) (GDelete 9 [3] (GSetBalance 9 8 (GRet a))))).

Lemma commit_refines_witness :
  contents (commit_with_nonce overlay 5) ≡ with_nonce (contents overlay) 5 (saturating_add u64_max (c_nonce (contents (inner overlay)) 5) 1).
Proof. apply (commit_refines overlay 5). Defined.

Lemma snapshot_run_refines_witness :
  let '(p', a) := run_guest copier (snapshot overlay) in
  let '(s', a') := run_guest copier overlay in
  a = a' ∧ contents (merge_snapshot overlay p') ≡ contents s'.
Proof. apply (snapshot_run_refines copier overlay). Defined.

(** The gate in slot [1] is locked at [0]; the writes lock it again. *)
Definition locked_manifest : SafetyManifest := {| constraints := [RatchetBool [1] [0]; FeeCap [[2]] 100] |}.
Definition relock : gmap (Address * bytes) (option bytes) := {[ (9, [1]) := Some [0] ]}.

Lemma safety_check_exact_witness :
  (validate_safety_invariants locked_manifest 9 relock funded).2 = Err HoneypotInvariantViolation ∧
  contents (validate_safety_invariants locked_manifest 9 relock funded).1 ≡ contents funded ∧
  ((validate_safety_invariants locked_manifest 9 relock funded).2 = Ok () ↔
   Forall (λ cn, constraint_holds cn (c_storage (contents funded) 9) (λ k, relock !! (9, k))) (constraints locked_manifest)).
Proof. split; [vm_compute; done|]. apply (safety_check_exact 9 relock funded locked_manifest). Defined.

(** ** Agents *)

Definition agent_policy : AgentPolicy := {|
  ap_session_key := [7]; expiry_epoch := 100; budget_total := 50; per_tx_cap := 20; per_epoch_cap := 30;
  allowed_targets := AnyTarget; allowed_actions := ActionMask_all; spent_total := 0; spent_this_epoch := 0; last_epoch := 3;
  refill_per_epoch := 5; budget_ceiling := None; categories := ∅; active_window := None; cosign_threshold := None;
  auto_revoke := {| max_violations_per_epoch := 2; violations_this_epoch := 0 |}; anomaly := AnomalyConfig_default;
  history := AnomalyHistory_default; required_kya_tier := KyaNone; min_counterparty_reputation := 0; kya_tier := KyaNone;
|}.

(** A store of policies that knows this one policy; other records do not decode. *)
#[export] Instance policy_codec : Codec AgentPolicy :=
  {| serialize p := Ok [1; spent_total p; spent_this_epoch p]; deserialize b := if decide (b = [1]) then Ok agent_policy else Err ""%string |}.
#[export] Instance identity_codec : Codec AgentIdentity :=
  {| serialize _ := Err ""%string; deserialize _ := Err ""%string |}.
#[export] Instance mandate_codec : Codec MandateReceipt :=
  {| serialize _ := Ok [2]; deserialize _ := Err ""%string |}.
#[export] Instance metadata_codec : Codec RawContractMetadata :=
  {| serialize _ := Err ""%string; deserialize _ := Err ""%string |}.

Definition pay_tx (v : Amount) (key : option bytes) (type : TxType) : Transaction :=
  {| tx_hash := 77; sender := 5; to := Some 9; nonce := 4; chain_id := 1; value := v; tx_gas_limit := 10000000;
     gas_price := 1; tx_type := type; data := [1; 2]; signature := Unsigned; session_key := key; owner_cosignature := None |}.
Definition agent_state : InMemoryStateView :=
  sv_write funded (Address_warden poly_digest) (policy_state_key 5 [7]) [1].


Definition agent_history : list AgentEvent :=
  (λ '(v, e, ok), {| ev_tx := pay_tx v (Some [7]) Transfer; ev_epoch := e; ev_payee := None; ev_succeeds := ok |}) <$>
    [(20, 4, true); (20, 4, true); (10, 4, true); (20, 5, false); (20, 5, true)].

Lemma agent_spending_capped_witness :
  (agent_run agent_policy agent_history).2 = [(4, 20); (4, 10); (5, 20)] ∧
  spent_in 4 (agent_run agent_policy agent_history).2 <= 30 ∧ sumN ((agent_run agent_policy agent_history).2).*2 <= 60.
Proof.
  split; [vm_compute; done|].
  apply (agent_spending_capped agent_policy agent_history 3 5 4).
  - done.
  - repeat split; done.
  - repeat constructor; done.
Defined.

(** ** The executor *)

(** An engine whose every run traps. *)
#[export] Instance trap_engine : Engine := {|
  Module_ := unit;
  compile_module _ := Ok ();
  has_func_export _ _ := true;
  has_typed_func _ _ := true;
  instantiate _ _ _ fuel h := Ok (fuel, h);
  wasm_run _ _ _ _ _ _ := Err OutOfGas;
|}.

Definition block_4 : BlockContext := {|
  bc_height := 1; bc_timestamp := 0; bc_msg_sender := 5; bc_msg_value := 0; bc_tx_origin := 5; bc_contract := 9;
  bc_epoch := 4; bc_active_features := ∅;
|}.
Definition no_meta (wasm : bytes) : option bytes := None.
Definition run_tx (tx : Transaction) (s : InMemoryStateView) : ExecutorCaches * (InMemoryStateView * TransactionReceipt) :=
  execute_transaction poly_digest GasSchedule_devnet no_meta ExecutorCaches_new tx block_4 s.
Definition after_tx (tx : Transaction) (s : InMemoryStateView) : InMemoryStateView := (run_tx tx s).2.1.
Definition receipt_of (tx : Transaction) (s : InMemoryStateView) : TransactionReceipt := (run_tx tx s).2.2.

Lemma run_tx_eq tx s : run_tx tx s = ((run_tx tx s).1, (after_tx tx s, receipt_of tx s)).
Proof. unfold after_tx, receipt_of. by destruct (run_tx tx s) as [? []]. Qed.

(** The value is over the policy's cap: the violation is counted, nothing moves. *)
Definition over_cap : Transaction := pay_tx 21 (Some [7]) Transfer.

Definition over_cap_counted : option (bytes * AgentPolicy) :=
  counted_violation poly_digest GasSchedule_devnet (contents agent_state) over_cap block_4.
Lemma execution_settles_witness :
  (violations_this_epoch ∘ auto_revoke ∘ snd <$> over_cap_counted) = Some 1 ∧
  success (receipt_of over_cap agent_state) = false ∧
  rc_tx_hash (receipt_of over_cap agent_state) = 77 ∧ rc_gas_used (receipt_of over_cap agent_state) <= 10000000 ∧
  logs (receipt_of over_cap agent_state) = [] ∧
  contents (after_tx over_cap agent_state) ≡ failed_contents poly_digest GasSchedule_devnet (contents agent_state) over_cap block_4.
Proof.
  split; [vm_compute; done|]. split; [vm_compute; done|].
  destruct (execution_settles poly_digest GasSchedule_devnet no_meta ExecutorCaches_new over_cap block_4 agent_state _ _ _
    (run_tx_eq over_cap agent_state)) as (H1 & H2 & _ & H3 & _).
  split; [exact H1|]. split; [exact H2|]. apply H3. vm_compute. done.
Defined.

Lemma funded_balances a : c_balance (contents funded) a <= u128_max.
Proof.
  change (default 0 (im_balances funded !! a) <= u128_max). unfold funded. cbn [im_balances]. rewrite lookup_insert. case_decide; [done|].
  rewrite lookup_singleton. by case_decide.
Qed.

Definition plain : Transaction := pay_tx 20 None Transfer.

Lemma transfer_spec_witness :
  success (receipt_of plain funded) = true ∧
  (success (receipt_of plain funded) = true ↔ transferable GasSchedule_devnet (contents funded) plain 9) ∧
  (success (receipt_of plain funded) = true →
     contents (after_tx plain funded) ≡ with_nonce (moved_value (contents funded) 5 9 20) 5 (saturating_add u64_max (c_nonce (contents funded) 5) 1) ∧
     rc_gas_used (receipt_of plain funded) = intrinsic_gas GasSchedule_devnet plain + call_value_transfer GasSchedule_devnet ∧
     logs (receipt_of plain funded) = []).
Proof.
  split; [vm_compute; done|].
  apply (transfer_spec poly_digest GasSchedule_devnet no_meta ExecutorCaches_new plain block_4 funded 9
    (run_tx plain funded).1).
  - reflexivity.
  - reflexivity.
  - reflexivity.
  - exact funded_balances.
  - exact (run_tx_eq plain funded).
Defined.

Definition call_tx : Transaction := pay_tx 0 None ContractCall.

Lemma trapped_call_not_charged_witness :
  success (receipt_of call_tx funded) = false ∧
  rc_gas_used (receipt_of call_tx funded) <=
    intrinsic_gas GasSchedule_devnet call_tx + invariant_check GasSchedule_devnet + code_cold_surcharge GasSchedule_devnet.
Proof.
  apply (trapped_call_not_charged poly_digest GasSchedule_devnet no_meta ExecutorCaches_new call_tx block_4 funded
    (run_tx call_tx funded).1 (after_tx call_tx funded)).
  - reflexivity.
  - reflexivity.
  - intros abi module h. unfold run_wasm_with_entry. destruct (build_linker_for_abi abi); cbn; eauto.
  - vm_compute. done.
  - exact (run_tx_eq call_tx funded).
Defined.
