(* ===== verification/LangWitnesses.v ===== *)
(** * The language front end at work

    The theorems about the lexer and the parser applied to short programs. *)
From stdpp Require Import strings.
From S2P Require Import LangTypes Resolver ResolverSpec ResolverProof.
From S2P Require Import Prelude LexToken Lexer LexerSpec LangAst Parser ParserExpr ParserDecl ParserTotal ParserSpec ParserExprSpec ParserRoundTrip ParserExamples.

(** Only ASCII characters are letters and digits. *)
#[export] Instance ascii_unicode : Unicode := {| is_alphabetic := is_ascii_letter; is_numeric := is_ascii_digit |}.
#[export] Instance ascii_laws : UnicodeLaws.
Proof. by split. Qed.

Definition no_address (raw : list N) : result string (list N) := Err "not an address"%string.

Definition fn_source : list N := text "fn f() -> u64 { return 42 hours; }".

Lemma tokenize_layout_witness :
  ∃ r, tokenize no_address fn_source = Some r ∧
    match r with
    | Ok toks => ∃ pieces tail, Forall piece_ok pieces ∧ blanks tail ∧
        fn_source = mjoin (piece_text <$> pieces) ++ tail ∧ toks = layout [] pieces ++ [(TEof, span_of fn_source [])]
    | Err _ => False
    end.
Proof.
  destruct (tokenize_layout no_address fn_source) as (r & Hr & H); [by vm_compute|].
  exists r. split; [exact Hr|]. destruct r as [toks|e]; [exact H|]. exfalso. vm_compute in Hr. discriminate Hr.
Defined.

(** [total = (a + b) * c[1]], token by token with the text of each. *)
Definition sum_expr : Expr :=
  let id name := EIdent (text name) no_span in
  EAssign_ (id "total"%string) AAssign
    (EBinary BMul (EBinary BAdd (id "a"%string) (id "b"%string) no_span)
      (EIndex (id "c"%string) (ELiteral (LInt 1) no_span) no_span) no_span) no_span.
Definition sum_texts : list (Token * list N) :=
  let word w := (TIdentifier (text w), text w) in
  [word "total"%string; (TAssign, text "="); (TLParen, text "("); word "a"%string; (TPlus, text "+"); word "b"%string;
   (TRParen, text ")"); (TStar, text "*"); word "c"%string; (TLBracket, text "["); (TIntLiteral 1, text "1"); (TRBracket, text "]")].

Lemma printed_name w :
  match w with c :: _ => is_ascii_letter c | [] => false end = true → forallb is_ident_continue w = true →
  forallb (λ p, negb (bool_decide (text p `prefix_of` w))) ["lem1"; "tlem1"; "dlem1"]%string = true →
  map_keyword w = TIdentifier w → printed (TIdentifier w) w.
Proof.
  intros Hh Hw Hp <-. apply printed_word. destruct w as [|c w]; [done|]. split.
  - exists c, w. split; [done|]. unfold is_ident_start. cbn. by rewrite Hh.
  - apply Forall_forall. intros d Hd. eapply forallb_forall in Hw; [done|by apply list_elem_of_In].
  - intros p Hin Hpre. eapply forallb_forall in Hp; [|by apply list_elem_of_In]. by rewrite bool_decide_eq_true_2 in Hp.
Qed.
Lemma sum_texts_printed : Forall (λ p, printed p.1 p.2) sum_texts.
Proof.
  repeat apply Forall_cons_2; try apply Forall_nil_2; cbn [fst snd];
    first [ apply printed_name; reflexivity
          | apply (printed_int (text "1")); [done|by repeat constructor|done]
          | eapply printed_operator; apply list_elem_of_In; vm_compute; tauto ].
Qed.
Lemma expression_round_trip_witness :
  ∃ e', parse_interpolation no_address 1 (print_tokens sum_texts) no_span = Some (Ok e') ∧ strip e' = strip sum_expr.
Proof.
  apply (expression_round_trip no_address sum_texts sum_expr 0 no_span); [apply sum_texts_printed|reflexivity|reflexivity|].
  apply Nat.ltb_lt. reflexivity.
Defined.

(** A contract that parses, and the same one with a comment after it. *)
Definition empty_contract : list N := text "contract A { }".
Definition commented_contract : list N := text "contract A { } // done".

Definition tokens_of (src : list N) : list (Token * Span) :=
  match tokenize no_address src with Some (Ok toks) => toks | _ => [] end.

Lemma parse_total_witness :
  (∃ ast, parse no_address (tokens_of empty_contract) = Some (Ok ast)) ∧
  ∃ e, parse no_address (tokens_of commented_contract) = Some (Err e).
Proof.
  split; [eexists; vm_compute; reflexivity|].
  destruct (parse_total no_address commented_contract (tokens_of commented_contract)) as (r & Hr & He); [by vm_compute|].
  destruct He as (e & ->); [|by exists e].
  vm_compute. do 4 apply Exists_cons_tl. apply Exists_cons_hd. reflexivity.
Defined.

(** A contract whose function shadows a state field, a parameter and an inherited name. *)
Definition scope_source : list N := ParserExamples.lines
  ["const limit: u64 = 10"; "contract C uses Ownable {"; "state { total: u64 }";
   "fn add(x: u64) -> u64 {"; "let total = total + x"; "for x of (owner) {"; "let y = x"; "}"; "return total + x + limit"; "}"; "}"].
Definition scope_ast : Ast :=
  match parse_source scope_source with Some (Ok ast) => ast | _ => {| items := []; ast_span := no_span |} end.
Definition scope_result : Resolver := match resolve scope_ast with Ok r => r | Err _ => Resolver_new end.
(** The uses, with the line of the declaration each stands for. *)
Definition decl_lines (us : list (list N * Span * option Decl)) : list (list N * option N) :=
  (λ u : list N * Span * option Decl, (u.1.1, (λ d : Decl, line d.1) <$> u.2)) <$> us.
Lemma resolve_follows_scopes_witness :
  resolve scope_ast = Ok scope_result ∧
  decl_lines (visited (scoped scope_ast)) =
    [(text "total", Some 3); (text "x", Some 4); (text "owner", Some 2); (text "x", Some 6);
     (text "total", Some 5); (text "x", Some 4); (text "limit", Some 1)] ∧
  ∀ name span d, (name, span, d) ∈ visited (scoped scope_ast) → ∃ id s,
    resolutions scope_result !! span = Some id ∧ symbol scope_result id = Some s ∧ sy_name s = name ∧ d = Some (sy_decl_span s, sy_kind s).
Proof.
  split; [vm_compute; reflexivity|]. split; [vm_compute; reflexivity|].
  refine (proj1 (proj2 (proj2 (resolve_follows_scopes scope_ast scope_result _ _))) _).
  - vm_compute. reflexivity.
  - vm_compute. reflexivity.
  - apply (bool_decide_unpack _). vm_compute. exact Logic.I.
Defined.
