(* ===== verification/NodeWitnesses.v ===== *)
(** * The node at work

    A chain started on an in-memory store and extended by the writers of the
    node, with the theorems of the node applied to it. *)
From stdpp Require Import strings.
From S2P Require Import Prelude CoreTypes StakeAgg DagBlock DagGraph Fee Leader Cert Db Trie TrieRoot TrieExamples Transaction WorldState ChainStore Crypto RateLimit MempoolPolicy Mempool VmState Flux Agent Host NodeExec NodeExecSpec NodeChain NodeDriver NodeSpec NodeBoot NetService NetServiceSpec NodeNet NodeNetSpec NodeSync Wire StorageWitnesses.

(** ** Codecs *)

#[local] Instance full_block_codec : Codec Block := wire_codec.
#[local] Instance full_block_laws : CodecLaws Block := wire_codec_laws.
#[local] Instance batch_codec : Codec Batch := wire_codec.
#[local] Instance txs_codec : Codec (list Transaction) := wire_codec.
#[local] Instance receipts_codec : Codec (list TransactionReceipt) := wire_codec.

Lemma poly_fold_bound b : poly_fold b < 2 ^ 32.
Proof.
  unfold poly_fold.
  assert (∀ l acc, acc < 2 ^ 32 → foldl (λ acc x, N.land (acc * 33 + x + 1) 4294967295) acc l < 2 ^ 32) as Hl; [|by apply Hl].
  intros l. induction l as [|x l IH]; intros acc Ha; [done|]. cbn [foldl]. apply IH.
  change 4294967295 with (N.ones 32). rewrite N.land_ones. by apply N.mod_lt.
Qed.
Lemma poly_digest_len b : is_hash (poly_digest b).
Proof.
  unfold is_hash, poly_digest. cbv zeta. rewrite N.shiftl_mul_pow2. pose proof (poly_fold_bound b) as Hb.
  change (256 ^ 32) with (2 ^ 96 * 2 ^ 160). change (2 ^ 160) with (2 ^ 32 * 2 ^ 128). nia.
Qed.

(** ** A chain *)

Definition key7 : KeyPair := key_of 7.
Definition addr7 : Address := Eval vm_compute in kp_address key7.
Definition consensus_key (k : KeyPair) : ConsensusKey :=
  {| classical := ed_verifying_key (kp_classical k); quantum := pq_pk_bytes (kp_quantum_pk k) |}.
Definition validator7 : Validator :=
  {| address := addr7; consensus_pubkey := {| classical := []; quantum := [] |}; status := Bonded; tombstoned := false;
     self_stake := {| active := 10; pending_active := 0; pending_inactive := []; inactive := 0 |}; delegated := 0; commission_bps := 0; jailed_until := None |}.
Definition genesis1 : GenesisConfig :=
  {| gen_chain_id := 1; genesis_timestamp := 100; initial_gas_limit := 1000; initial_base_fee := 8;
     initial_balances := <[5 := 500]> {[6 := 600]}; genesis_validators := {[addr7 := validator7]} |}.

Lemma db0_empty : empty_db db0.
Proof. intros [] k; reflexivity. Qed.

Lemma genesis1_clean : accounts_clean poly_digest (WorldState_new db0) (genesis_accounts poly_digest genesis1) = true.
Proof. vm_compute. reflexivity. Qed.
Lemma genesis1_addresses : map_Forall (λ a _, is_address a) (initial_balances genesis1).
Proof. apply map_Forall_insert_2; [reflexivity|]. apply map_Forall_singleton. reflexivity. Qed.

Definition started : option (MemDb * result NodeError InitOutcome) := init_chain poly_digest db0 genesis1.
Definition db_g : MemDb := Eval vm_compute in default db0 (fst <$> started).
Definition hash_g : Hash := Eval vm_compute in
  match tip db_g with Ok (Some (_, h)) => h | _ => 0 end.

Lemma Some_pair_inj {X Y} (x x' : X) (y y' : Y) : Some (x, y) = Some (x', y') → x = x' ∧ y = y'.
Proof. by intros [= -> ->]. Qed.
Lemma Ok_Some_inj {E X} (x x' : X) : Ok (E := E) (Some x) = Ok (Some x') → x = x'.
Proof. by intros [= ->]. Qed.

Lemma started_eq : init_chain poly_digest db0 genesis1 = Some (db_g, Ok (Initialized hash_g 2)).
Proof. vm_cast_no_check (eq_refl (Some (db_g, Ok (E := NodeError) (Initialized hash_g 2)))). Qed.

(** The chain in the store after the start. *)
Definition block_g : Block := Eval vm_compute in
  match get_block_by_height db_g 0 with Ok (Some b) => b | _ => bare {| height := 0; timestamp := 0; parent_hash := 0; transactions_root := 0;
    state_root := 0; receipts_root := 0; proposer := 0; hdr_epoch := 0; protocol_version := 0; dag_round := 0; dag_anchor := 0; validators_hash := 0;
    next_validators_hash := 0; gas_limit := 0; gas_used := 0; base_fee := 0; extra_data := [] |} end.
#[local] Opaque started db_g block_g hash_g.
Definition chain_g : Chain := chain_put no_chain block_g hash_g.

Lemma db_g_holds : chain_holds db_g chain_g ∧ compute_block_hash poly_digest block_g = Ok hash_g ∧
  ∃ A, world_inv poly_digest settled (WorldStateView_new db_g (state_root (header block_g))) A.
Proof.
  destruct (init_chain_inv poly_digest poly_digest_len db0 genesis1) as (s' & r & Hr & Hpost);
    [exact db0_empty|vm_compute; reflexivity|exact genesis1_addresses|exact genesis1_clean|].
  rewrite started_eq in Hr. apply Some_pair_inj in Hr as [<- <-].
  destruct Hpost as (_ & block & A & HC & Hh & Hc & _ & I).
  pose proof (genesis_read db_g block hash_g HC Hh) as Hb.
  assert (get_block_by_height db_g 0 = Ok (Some block_g)) as Hb' by (vm_compute; reflexivity).
  rewrite Hb in Hb'. apply Ok_Some_inj in Hb' as ->. split_and!; [done|done|by exists A].
Qed.
Lemma chain_g_tip : chain_tip chain_g = Some (0, hash_g).
Proof. reflexivity. Qed.
Lemma chain_g_block : by_height chain_g !! 0 = Some block_g.
Proof. reflexivity. Qed.

(** ** The theorems *)

Lemma init_chain_spec_witness :
  tip db_g = Ok (Some (0, hash_g)) ∧ linked_db poly_digest db_g ∧
  init_chain poly_digest db_g genesis1 = Some (db_g, Ok (AlreadyInitialized 0)).
Proof.
  destruct (init_chain_spec poly_digest poly_digest_len db0 genesis1) as (s' & r & Hr & Hpost);
    [exact db0_empty|vm_compute; reflexivity|exact genesis1_addresses|exact genesis1_clean|].
  rewrite started_eq in Hr. apply Some_pair_inj in Hr as [<- <-]. destruct Hpost as (_ & Ht & HL & _ & Ha).
  split; [exact Ht|]. split; [exact HL|]. apply Ha. vm_compute. reflexivity.
Defined.

(** ** Results that were computed *)

Definition run_db {R} (r : option (MemDb * R)) : MemDb := default db0 (fst <$> r).
Lemma run_db_eq {R} (r : option (MemDb * R)) (x : R) : snd <$> r = Some x → r = Some (run_db r, x).
Proof. destruct r as [[s y]|]; [|done]. cbn. by intros [= ->]. Qed.
Definition ok_db {E} (r : result E MemDb) : MemDb := match r with Ok s => s | Err _ => db0 end.
Lemma ok_db_eq {E} (r : result E MemDb) : is_ok r = true → r = Ok (ok_db r).
Proof. by destruct r. Qed.
Lemma pair_db_eq {R} (r : MemDb * R) (x : R) : snd r = x → r = (fst r, x).
Proof. destruct r. by intros <-. Qed.

(** ** The state *)

Definition root_g : Hash := Eval vm_compute in state_root (header block_g).
Definition writes1 : gmap StateKey StateValue :=
  <[KBalance 5 := VBalance 490]> (<[KNonce 5 := VNonce 1]> (<[KStorage 9 [1] := VStorage (Some [5])]> {[KStorage 9 [2] := VStorage None]})).

Lemma root_g_eq : state_root (header block_g) = root_g.
Proof. reflexivity. Qed.
Lemma db_g_world : ∃ A, world_inv poly_digest settled (WorldStateView_new db_g root_g) A.
Proof. rewrite <-root_g_eq. apply db_g_holds. Qed.
Lemma writes1_ok : map_Forall write_ok writes1.
Proof.
  do 3 (apply map_Forall_insert_2; [split; [cbn; unfold is_address; lia|exact Logic.I]|]). apply map_Forall_singleton.
  split; [cbn; unfold is_address; lia|exact Logic.I].
Qed.
Lemma writes1_clean : apply_clean poly_digest db_g root_g writes1 = true.
Proof. vm_compute. reflexivity. Qed.
Lemma apart_other (ws : gmap StateKey StateValue) a k : k = KBalance a → ∀ k', is_Some (ws !! k') → apart poly_digest k' k.
Proof. by intros -> []. Qed.

Lemma apply_writes_refines_witness :
  ∃ s' r, apply_writes poly_digest db_g root_g writes1 = Some (s', r) ∧
    ∀ root', r = Ok root' →
      committed_value poly_digest (WorldStateView_new s' root') (KBalance 5) = VBalance 490 ∧
      committed_value poly_digest (WorldStateView_new s' root') (KBalance 6) = VBalance 600.
Proof.
  destruct db_g_world as [A I].
  destruct (apply_writes_refines poly_digest db_g root_g writes1 A) as (s' & r & Hr & Hpost);
    [exact poly_digest_len|exact I|exact writes1_ok|exact writes1_clean|].
  exists s', r. split; [exact Hr|]. intros root' ->. destruct Hpost as (_ & Hv). split.
  - rewrite Hv; [reflexivity|vm_compute; reflexivity|by eapply apart_other].
  - rewrite Hv; [vm_compute; reflexivity|vm_compute; reflexivity|by eapply apart_other].
Defined.

(** ** A committed block *)

Definition tx1 : Transaction :=
  {| tx_hash := 77; sender := 5; to := Some 6; nonce := 0; chain_id := 1; value := 10; tx_gas_limit := 100; gas_price := 1; tx_type := Transfer;
     data := []; Transaction.signature := Unsigned; session_key := None; owner_cosignature := None |}.
Definition exec1 : Scheduler := λ _ _ _,
  Ok {| receipts_out := [{| rc_tx_hash := 77; success := true; rc_gas_used := 50; logs := [] |}]; writes_out := writes1 |}.
Definition leader1 : DagBlockRef := {| ref_round := 3; ref_author := addr7; ref_digest := 1 |}.
Definition commit1 : CommitRec :=
  {| index := 1; previous_digest := 0; timestamp_ms := 200000; leader := leader1; commit_blocks := [] |}.
Definition ok_pair {E} (r : result E (Block * Hash)) : Block * Hash := match r with Ok p => p | Err _ => (block_g, 0) end.
Definition built1 := build_block_from_commit poly_digest exec1 commit1 addr7 db_g [tx1] key7.
Definition block_hash1 : Block * Hash := from_option (λ p, ok_pair (snd p)) (block_g, 0) built1.
Definition block1 : Block := fst block_hash1.
Definition hash1 : Hash := snd block_hash1.
Definition db_e : MemDb := run_db built1.
Definition db_1 : MemDb := ok_db (commit_block db_e block1 hash1).

Lemma built1_eq : built1 = Some (db_e, Ok (block1, hash1)).
Proof. assert (snd <$> built1 = Some (Ok (block1, hash1))) as H by (vm_compute; reflexivity). exact (run_db_eq _ _ H). Qed.
Lemma db_1_eq : commit_block db_e block1 hash1 = Ok db_1.
Proof. assert (is_ok (commit_block db_e block1 hash1) = true) as H by (vm_compute; reflexivity). exact (ok_db_eq _ H). Qed.
Lemma scheduled1 : scheduled poly_digest exec1 [tx1] block_g commit1 addr7 db_g
  = Ok {| receipts_out := [{| rc_tx_hash := 77; success := true; rc_gas_used := 50; logs := [] |}]; writes_out := writes1 |}.
Proof. reflexivity. Qed.

Lemma commit_updates_chain_state_witness :
  tip db_1 = Ok (Some (1, hash1)) ∧ get_block_by_height db_1 1 = Ok (Some block1) ∧ parent_hash (header block1) = hash_g ∧
  committed_value poly_digest (WorldStateView_new db_1 (state_root (header block1))) (KBalance 5) = VBalance 490.
Proof.
  destruct db_g_holds as (HC & _ & A & I).
  destruct (commit_updates_chain_state poly_digest poly_digest_len exec1 commit1 addr7 db_g [tx1] key7 db_e block1 hash1 db_1 chain_g 0 hash_g
    block_g A _ HC chain_g_tip chain_g_block I scheduled1 writes1_ok writes1_clean) as (H1 & H2 & H3 & _ & Hv);
    [by vm_compute|exact built1_eq|exact db_1_eq|].
  split; [exact H1|]. split; [exact H2|]. split; [exact H3|].
  rewrite Hv; [reflexivity|cbn; unfold is_address; lia|by eapply apart_other].
Defined.

(** ** The two writers *)

Definition made := build_next_block poly_digest db_g addr7 150.
Definition made_p : Block * Hash := ok_pair made.
Definition built0 := build_block_from_commit poly_digest exec1 commit1 addr7 db_g [] key7.
Definition own_p : Block * Hash := from_option (λ p, ok_pair (snd p)) (block_g, 0) built0.
Definition db_r0 : MemDb := run_db built0.
Definition peer_made := build_next_block poly_digest db_g 8 160.
Definition peer_p : Block * Hash := ok_pair peer_made.
Definition vset_none : ValidatorSet := {| vs_epoch := 0; members := ∅; total_power := 0 |}.
Definition applied1 := apply_synced_block (certified_verify poly_digest vset_none) db_r0 id (fst peer_p).
Definition db_r1 : MemDb := fst applied1.
Definition peer_made2 := build_next_block poly_digest db_r1 8 170.
Definition peer_p2 : Block * Hash := ok_pair peer_made2.
Definition db_r2 : MemDb := ok_db (commit_block db_r1 (fst own_p) (snd own_p)).
Definition db_r3 : MemDb := fst (sync_apply db_r2 (fst peer_p2) 1 (snd peer_p2)).

Lemma made_eq : build_next_block poly_digest db_g addr7 150 = Ok (fst made_p, snd made_p).
Proof. vm_compute. reflexivity. Qed.
Lemma built0_eq : built0 = Some (db_r0, Ok (fst own_p, snd own_p)).
Proof. assert (snd <$> built0 = Some (Ok (fst own_p, snd own_p))) as H by (vm_compute; reflexivity). exact (run_db_eq _ _ H). Qed.
Lemma applied1_eq : applied1 = (db_r1, Ok (Applied (0 + 1) (snd peer_p))).
Proof. assert (snd applied1 = (Ok (Applied (0 + 1) (snd peer_p)))) as H by (vm_compute; reflexivity). exact (pair_db_eq _ _ H). Qed.
Lemma peer_p2_verified : sync_verify (certified_verify poly_digest vset_none) db_r1 (fst peer_p2) = Ok (Some (0 + 1, snd peer_p2)).
Proof. vm_compute. reflexivity. Qed.
Lemma db_r2_eq : commit_block db_r1 (fst own_p) (snd own_p) = Ok db_r2.
Proof. assert (is_ok (commit_block db_r1 (fst own_p) (snd own_p)) = true) as H by (vm_compute; reflexivity). exact (ok_db_eq _ H). Qed.
Lemma db_r3_eq : sync_apply db_r2 (fst peer_p2) (0 + 1) (snd peer_p2) = (db_r3, Ok (Applied 2 (snd peer_p2))).
Proof. assert (snd (sync_apply db_r2 (fst peer_p2) 1 (snd peer_p2)) = (Ok (Applied 2 (snd peer_p2)))) as H by (vm_compute; reflexivity). exact (pair_db_eq _ _ H). Qed.

Lemma tip_race_unlinks_witness :
  tip db_r3 = Ok (Some (2, snd peer_p2)) ∧ get_block_by_height db_r3 1 = Ok (Some (fst own_p)) ∧ ¬ linked_db poly_digest db_r3.
Proof.
  destruct db_g_holds as (HC & _).
  destruct (tip_race_unlinks poly_digest poly_digest_len exec1 commit1 addr7 key7 vset_none db_g chain_g 0 hash_g block_g (fst own_p) (snd own_p)
    db_r0 (fst peer_p) (snd peer_p) db_r1 (fst peer_p2) (snd peer_p2) db_r2 db_r3 _ HC chain_g_tip chain_g_block ltac:(by vm_compute) eq_refl
    built0_eq applied1_eq ltac:(by vm_compute) peer_p2_verified db_r2_eq db_r3_eq) as (_ & H1 & H2 & _ & _ & _ & H3).
  split; [exact H1|]. split; [exact H2|exact H3].
Defined.

Lemma chain_g_linked : linked_db poly_digest db_g.
Proof. destruct db_g_holds as (HC & Hc & _). exists chain_g. split; [done|]. by apply genesis_linked. Qed.

Definition db_s1 : MemDb := ok_db (commit_block db_g (fst made_p) (snd made_p)).
Lemma db_s1_eq : commit_block db_g (fst made_p) (snd made_p) = Ok db_s1.
Proof. assert (is_ok (commit_block db_g (fst made_p) (snd made_p)) = true) as H by (vm_compute; reflexivity). exact (ok_db_eq _ H). Qed.
Lemma db_g_tip : tip db_g = Ok (Some (0, hash_g)).
Proof. vm_compute. reflexivity. Qed.

Definition synced := apply_synced_block (certified_verify poly_digest vset_none) db_g id (fst peer_p).
Definition db_p1 : MemDb := fst synced.
Lemma synced_eq : synced = (db_p1, Ok (Applied 1 (snd peer_p))).
Proof. assert (snd synced = Ok (Applied 1 (snd peer_p))) as H by (vm_compute; reflexivity). exact (pair_db_eq _ _ H). Qed.

Lemma serial_writers_keep_chain_linked_witness : linked_db poly_digest db_s1 ∧ linked_db poly_digest db_p1.
Proof.
  split; apply (serial_writers_keep_chain_linked poly_digest poly_digest_len vset_none db_g); [|exact chain_g_linked| |exact chain_g_linked];
    apply rtc_once.
  - exact (serial_produce poly_digest vset_none db_g db_s1 addr7 150 (fst made_p) (snd made_p) 0 hash_g db_g_tip ltac:(by vm_compute) made_eq db_s1_eq).
  - exact (serial_sync poly_digest vset_none db_g db_p1 (fst peer_p) _ synced_eq).
Defined.

(** ** Catching up *)

Definition behind : SyncTracker := {| highest_seen := 9; requested_up_to := 0; last_peer := Some 3 |}.
Definition late_block : Block := bare {| height := 8; timestamp := 0; parent_hash := 0; transactions_root := 0; state_root := 0; receipts_root := 0;
  proposer := 0; hdr_epoch := 0; protocol_version := 1; dag_round := 0; dag_anchor := 0; validators_hash := 0; next_validators_hash := 0;
  gas_limit := 1; gas_used := 0; base_fee := 0; extra_data := [] |}.
Definition sync_events : list (SyncEvent (DB := MemDb)) := [Tick id true; Received id id 3 late_block true; Tick id true].

(** The service refused the request, and nothing asks again. *)
Lemma lost_range_request_not_retried_witness :
  maybe_request_range 0 3 behind false =
    ({| highest_seen := 9; requested_up_to := 9; last_peer := Some 3 |}, [RequestRange 3 {| from_height := 1; to_height := 9 |}]) ∧
  requests (snd (sync_run (certified_verify poly_digest vset_none) (db_g, {| highest_seen := 9; requested_up_to := 9; last_peer := Some 3 |})
    sync_events)) = [].
Proof.
  split; [reflexivity|].
  apply (lost_range_request_not_retried (certified_verify poly_digest vset_none) db_g behind 0 3 false _ {| from_height := 1; to_height := 9 |} sync_events);
    [by vm_compute|by vm_compute|reflexivity|repeat constructor; by vm_compute].
Defined.

Lemma range_requests_valid_witness : ∃ r, RangeRequest_validate r DEFAULT_MAX_RANGE = Ok () ∧ from_height r = 1.
Proof.
  destruct (range_requests_valid 0 3 behind true _ (RequestRange 3 {| from_height := 1; to_height := 9 |}) [] ltac:(by vm_compute) eq_refl)
    as (_ & r & _ & Hf & _ & _ & _ & _ & Hv).
  exists r. split; [exact Hv|exact Hf].
Defined.

(** ** Batches *)

Definition batch_a : Batch := {| b_author := 5; b_txs := [] |}.
Definition hash_of (tx : Transaction) : Hash := match compute_tx_hash poly_digest tx with Ok h => h | Err _ => 0 end.
Definition with_hash (tx : Transaction) : Transaction :=
  {| tx_hash := hash_of tx; sender := sender tx; to := to tx; nonce := nonce tx; chain_id := chain_id tx; value := value tx;
     tx_gas_limit := tx_gas_limit tx; gas_price := gas_price tx; tx_type := tx_type tx; data := data tx;
     Transaction.signature := Transaction.signature tx; session_key := session_key tx; owner_cosignature := owner_cosignature tx |}.
Definition forged : Batch := {| b_author := 5; b_txs := [with_hash tx1] |}.
Definition digest_a : Hash := Eval vm_compute in match Batch_digest poly_digest batch_a with Ok d => d | Err _ => 0 end.

(** An unsigned transaction comes into the place of an empty batch. *)
Lemma fetch_response_replaces_batch_witness :
  handle_batch_fetch_response poly_digest digest_a (Some (put forged)) {[digest_a := batch_a]} = <[digest_a := forged]> {[digest_a := batch_a]} ∧
  Batch_digest poly_digest forged ≠ Ok digest_a.
Proof.
  split; [|by vm_compute].
  apply (fetch_response_replaces_batch poly_digest digest_a (put forged) {[digest_a := batch_a]} forged
    {| batch_digest := digest_a; batch_author := 5; batch_size := 0 |}); reflexivity.
Defined.

(** A commit of one block that names two batches, of which one is missing. *)
Definition ref_to (d : Hash) : TxBatchRef := {| batch_digest := d; batch_author := 5; batch_size := 0 |}.
Definition block_of_batches : DagBlock :=
  DagBlock_new poly_digest {| body_epoch := 0; body_round := 3; body_author := addr7; body_timestamp_ms := 1; body_ancestors := [];
    body_payload := [ref_to 41; ref_to 42; ref_to 41]; body_commit_votes := [] |} Unsigned.
Definition dag_of_batches : Dag :=
  {| blocks := {[leader1 := block_of_batches]}; by_slot := ∅; by_round := ∅; suspended := ∅; waiting_for := ∅;
     next_epoch_buffer := ∅; last_committed_round := 0; dag_epoch := 0; pending_equivocations := [] |}.
Definition commit_of_batches : CommitRec :=
  {| index := 1; previous_digest := 0; timestamp_ms := 0; leader := leader1; commit_blocks := [leader1] |}.

Lemma resolve_committed_txs_spec_witness :
  resolve_committed_txs commit_of_batches dag_of_batches {[41 := forged]} = ([with_hash tx1], [(42, 5)]) ∧
  [(42, 5)] = unavailable {[41 := forged]} (commit_refs commit_of_batches dag_of_batches).
Proof.
  assert (resolve_committed_txs commit_of_batches dag_of_batches {[41 := forged]} = ([with_hash tx1], [(42, 5)])) as H by reflexivity.
  split; [exact H|]. apply (resolve_committed_txs_spec _ _ _ _ _ H).
Defined.

(** ** Acknowledgements of two validators *)

Definition key8 : KeyPair := key_of 8.
Definition addr8 : Address := Eval vm_compute in kp_address key8.
Definition cfg7 : DagConfig := {| cfg_epoch := 0; cfg_proposer := addr7; cfg_validator_set := vset_none |}.
Definition cfg8 : DagConfig := {| cfg_epoch := 0; cfg_proposer := addr8; cfg_validator_set := vset_none |}.
Definition built8 := build_block_from_commit poly_digest exec1 commit1 addr8 db_g [tx1] key8.
Definition block_hash8 : Block * Hash := from_option (λ p, ok_pair (snd p)) (block_g, 0) built8.
Definition block8 : Block := fst block_hash8.
Definition hash8 : Hash := snd block_hash8.
Definition db_e8 : MemDb := run_db built8.
Lemma built8_eq : built8 = Some (db_e8, Ok (block8, hash8)).
Proof. assert (snd <$> built8 = Some (Ok (block8, hash8))) as H by (vm_compute; reflexivity). exact (run_db_eq _ _ H). Qed.
Definition digest7 : Hash := BlockHeader_digest poly_digest (header block1).
Definition digest8 : Hash := BlockHeader_digest poly_digest (header block8).
Definition acc7 : CommitAckAccumulator := CommitAckAccumulator_new (Block_height block1) digest7 10.

Lemma acks_of_peers_rejected_witness :
  CommitAckAccumulator_add acc7 (own_ack poly_digest cfg8 key8 (Block_height block8) digest8) vset_none true
    = Err (Ack_DigestMismatch digest7 digest8).
Proof.
  destruct db_g_holds as (HC & _).
  destruct (acks_of_peers_rejected poly_digest exec1 exec1 commit1 db_g db_g [tx1] [tx1] key7 key8 db_e db_e8 block1 block8 hash1 hash8
    cfg7 cfg8 chain_g chain_g 0 0 hash_g hash_g block_g block_g acc7 true HC chain_g_tip chain_g_block HC chain_g_tip chain_g_block
    built1_eq built8_eq ltac:(by vm_compute) ltac:(by vm_compute) ltac:(by vm_compute) eq_refl eq_refl) as [[_ Hd]|H].
  - exfalso. revert Hd. vm_compute. discriminate.
  - exact H.
Defined.

(** ** A peer one block ahead *)

Lemma mem_put_block (s0 : MemDb) (C0 : Chain) b h : chain_holds s0 C0 → ∃ s1, put_block s0 b h = Ok s1.
Proof.
  intros H0. unfold put_block. cbn [map_err serialize full_block_codec wire_codec mbind result_bind].
  rewrite (latest_height_holds s0 C0 H0). cbn. by destruct (match fst <$> chain_tip C0 with None => _ | Some _ => _ end); eexists.
Qed.

Definition chain_s1 : Chain := chain_put chain_g (fst made_p) (snd made_p).
Lemma made_height : Block_height (fst made_p) = 0 + 1.
Proof. vm_compute. reflexivity. Qed.
Lemma made_parent : parent_hash (header (fst made_p)) = hash_g.
Proof. vm_compute. reflexivity. Qed.
Lemma made_hash : compute_block_hash poly_digest (fst made_p) = Ok (snd made_p).
Proof. vm_compute. reflexivity. Qed.
Lemma db_s1_holds : chain_holds db_s1 chain_s1 ∧ chain_linked poly_digest chain_s1.
Proof.
  destruct db_g_holds as (HC & Hc & _). split.
  - apply (put_block_holds db_g chain_g (fst made_p) (snd made_p) db_s1 HC); [by rewrite made_height|by vm_compute|].
    apply (map_err_Ok NStorage), db_s1_eq.
  - apply (chain_put_linked poly_digest chain_g 0 hash_g); [|exact chain_g_tip|exact made_height|exact made_parent|exact made_hash].
    by apply genesis_linked.
Qed.
Definition served : list Block := [fst made_p].
Lemma served_eq : fetch_range db_s1 {| from_height := 0 + 1; to_height := 9 |} = served.
Proof. vm_compute. reflexivity. Qed.
Lemma made_acceptable : acceptable poly_digest vset_none (fst made_p) (snd made_p).
Proof. vm_compute. reflexivity. Qed.
Lemma chain_s1_heights h b : by_height chain_s1 !! h = Some b → Block_height b = h.
Proof.
  unfold chain_s1, chain_g. cbn [chain_put by_height no_chain].
  intros [[<- <-]|[_ [[<- <-]|[_ Hb]]%lookup_insert_Some]]%lookup_insert_Some; [reflexivity..|]. by rewrite lookup_empty in Hb.
Qed.

Lemma range_sync_catches_up_witness :
  latest_height (apply_all poly_digest vset_none db_g served) = Ok (Some 1) ∧
  get_block_by_height (apply_all poly_digest vset_none db_g served) 1 = get_block_by_height db_s1 1.
Proof.
  destruct db_g_holds as (HC & Hc & _). destruct db_s1_holds as (HR & HL).
  pose proof (range_sync_catches_up poly_digest poly_digest_len vset_none db_g chain_g 0 hash_g db_s1 chain_s1 block_g 9 HC chain_g_tip HR HL
    ltac:(reflexivity) Hc ltac:(lia) ltac:(by vm_compute)) as Hsync. cbv zeta in Hsync. rewrite served_eq in Hsync.
  destruct Hsync as (_ & H1 & H2).
  - intros b ->%list_elem_of_singleton. exists (snd made_p). exact made_acceptable.
  - exact chain_s1_heights.
  - intros s0 C0 b h H0 _ _. by apply (mem_put_block s0 C0).
  - split; [exact H1|]. exact (H2 1 ltac:(by vm_compute)).
Defined.

(** A peer connects, sends two unreadable messages and is reported. *)
Definition no_codec : Codec GossipMessage := {| serialize := λ _, Err "unused"%string; deserialize := λ _, Err "unused"%string |}.
Definition bad_peer : list Input :=
  [InEvent (ConnectionEstablished 7) 1; InEvent (GossipReceived 7 [1]) 2; InEvent (GossipReceived 8 [1]) 2;
   InEvent (GossipReceived 7 [2]) 3; InCommand (ReportPeer 7 InvalidQuorumCert) 4].

(** ** A restart at height 2 *)

Definition made2 := build_next_block poly_digest db_s1 addr7 200.
Definition made2_p : Block * Hash := ok_pair made2.
Definition db_s2 : MemDb := ok_db (commit_block db_s1 (fst made2_p) (snd made2_p)).
Definition chain_s2 : Chain := chain_put chain_s1 (fst made2_p) (snd made2_p).
Lemma db_s2_holds : chain_holds db_s2 chain_s2.
Proof.
  apply (put_block_holds db_s1 chain_s1 (fst made2_p) (snd made2_p) db_s2); [apply db_s1_holds|by vm_compute|by vm_compute|].
  assert (is_ok (commit_block db_s1 (fst made2_p) (snd made2_p)) = true) as H by (vm_compute; reflexivity).
  apply (map_err_Ok NStorage), (ok_db_eq _ H).
Qed.
Definition rebuilt := build_block_from_commit poly_digest exec1 commit1 addr7 db_s2 [] key7.
Definition again_p : Block * Hash := from_option (λ p, ok_pair (snd p)) (block_g, 0) rebuilt.
Lemma rebuilt_eq :
  build_block_from_commit poly_digest exec1 commit1 addr7 db_s2 [] key7 = Some (run_db rebuilt, Ok (fst again_p, snd again_p)).
Proof. change (rebuilt = Some (run_db rebuilt, Ok (fst again_p, snd again_p))). assert (snd <$> rebuilt = Some (Ok (fst again_p, snd again_p))) as H by (vm_compute; reflexivity). exact (run_db_eq _ _ H). Qed.
Definition db_again : MemDb := ok_db (commit_block (run_db rebuilt) (fst again_p) (snd again_p)).
Lemma db_again_eq : commit_block (run_db rebuilt) (fst again_p) (snd again_p) = Ok db_again.
Proof. assert (is_ok (commit_block (run_db rebuilt) (fst again_p) (snd again_p)) = true) as H by (vm_compute; reflexivity). exact (ok_db_eq _ H). Qed.
Lemma chain_s2_tip : chain_tip chain_s2 = Some (2, snd made2_p).
Proof. vm_compute. reflexivity. Qed.
Lemma chain_s2_block : by_height chain_s2 !! 2 = Some (fst made2_p).
Proof. vm_compute. reflexivity. Qed.
Lemma chain_s2_genesis : by_height chain_s2 !! 0 = Some block_g.
Proof. vm_compute. reflexivity. Qed.
Lemma made2_fresh : hash_g ≠ snd made2_p.
Proof. vm_compute. discriminate. Qed.

Lemma commit1_low : 1 <= index commit1 < 2.
Proof. vm_compute. done. Qed.

Lemma restarted_driver_overwrites_witness :
  tip db_again = Ok (Some (2, snd made2_p)) ∧ get_block_by_height db_again 1 = Ok (Some (fst again_p)) ∧ ¬ linked_db poly_digest db_again.
Proof.
  destruct db_g_holds as (_ & Hc & _).
  destruct (restarted_driver_overwrites poly_digest poly_digest_len exec1 commit1 addr7 key7 [] db_s2 chain_s2 2 (snd made2_p) (fst made2_p) block_g
    hash_g (fst again_p) (snd again_p) (run_db rebuilt) db_again db_s2_holds chain_s2_tip chain_s2_block commit1_low chain_s2_genesis Hc
    made2_fresh rebuilt_eq db_again_eq) as (H1 & H2 & _ & H3).
  change (index commit1) with 1 in H2.
  split; [exact H1|]. split; [exact H2|exact H3].
Defined.
